(* ===== verification/_CoqProject ===== *)
-Q . S2P
Prelude.v
Errors.v
Text.v
Crc32.v
Record.v
Disk.v
Segment.v
MarkFiles.v
Log.v
LogInv.v
Frame.v
LogSteps.v
Committer.v
Durable.v
Replay.v
Recovery.v
Kill.v
CleanClose.v
PowerLoss.v
Sound.v
Reader.v
Tail.v
Tracker.v
Age.v
Backoff.v
Gate.v
Sink.v
Flusher.v
Delivery.v
Policy.v
Contexts.v
Options.v
Capacity.v
Writer.v
Observer.v
State.v
Buffer.v
Lifecycle.v
Shutdown.v
Pipeline.v
Live.v
Restart.v
Outage.v
Clickhouse.v
