(* ===== verification/Prelude.v ===== *)
(** * better-batch: a durable, batching write buffer, verified

    The program (Go, under src/) is a library: a caller writes records, they go
    to a write-ahead log on disk before the write returns, and goroutines of the
    buffer read them back, cut them into batches and hand the batches to the
    caller's sink, retrying, dead-lettering or dropping as configured.  A
    checkpoint remembers what has been disposed of, segments below it are
    deleted, and opening the directory again after a crash takes up where the
    checkpoint says.

    ** The parts

    The log (src/internal/wal):
    - Text, Crc32, Record: number printing and parsing, the CRC-32C, and the
      frame of a record (record.go).
    - Disk: the directory and the calls the log makes on it.  What the process
      reads, what survives a loss of power, and every intermediate image are kept
      apart; a plan of faults decides which calls fail and how.
    - Segment: segment names, creation, the recovery scan (segment.go).
    - MarkFiles: CHECKPOINT, RESERVED and LOGID, replaced by write, fsync, rename
      and fsync of the directory (checkpoint.go, reservation.go, identity.go).
    - Log: the state [log] of an open log and its critical sections: [stage],
      [commitBegin], [rotate], [appendBatch], [rollback], [commitEnd], [Truncate],
      [wait], [Close] (wal.go).
    - LogInv: the invariant [core] between a log and its directory, and what each
      section does to it.  Frame: the class [Sparing n R] of relations between the
      directory before and after that every call not touching the file [n] keeps,
      and, proved once for all of them, that the log's operations keep them too.
    - LogSteps: appenders, committer and truncation as a step relation, [running]
      for what the log's own goroutines and callers do and [step] with the
      checkpointer's writes added; [good] is the invariant of its states and the
      abstract log they implement.  Committer: the loop that runs the rounds, with
      what wakes it.
    - Durable: what of a running log no loss of power takes, at every moment of
      every step: synced segments ([shielded]) and marks ([marked]).  Replay: a
      step cut short behind any of its calls leaves what the step leaves when it
      lives and its later calls fail ([cuttable], [cut_short]).
    - Recovery: [Open], the lock, the scan of every segment, salvage, and the
      directory a crash leaves (wal.go, salvage.go, lock_unix.go).  Kill: [Open]
      over what a kill between or inside the log's steps leaves; PowerLoss, Sound:
      over what a loss of power leaves, or over any directory; CleanClose: over
      what [Close] leaves.
    - Reader: [Next] and the cursor behind it (reader.go); Tail: a reader beside a
      running log.

    The buffer (src):
    - Errors: Go errors with their chains, and the monad [M] of computations.
    - Tracker, Age, Gate, Backoff: the low-water mark, the age marks, the broadcast
      gate, the ladder of retry delays in binary64 arithmetic
      (internal_support.go); Sink: the caller's sink and codec, verdicts, error
      classification (sink.go).
    - Flusher: the read-and-batch loop (flush.go, [flusher]); Delivery: one batch
      on its way to the sink and the dead-letter sink (flush.go, [deliver],
      [deadLetter]).  Both produce the list of what they do to the buffer.
    - Policy, Contexts, Options, Capacity, Writer: backpressure and the context a
      policy is handed, configuration, admission under interleaving, a write from
      encoding to settlement (policy.go, options.go, batch.go).
    - Observer, State: the hooks and their queue, and the fields goroutines share
      with the helpers that change them (observer.go, batch.go, flush.go).
    - Buffer: [Open] from the log on, [persist], the end of [Close].
    - Lifecycle: [Close] against every goroutine it waits for.  Shutdown: any number
      of calls of [Close], from hooks too, and the observer's goroutine.
    - Pipeline: the flusher and its deliveries over the shared state; Live: log,
      reader, pipeline and checkpointer side by side; Restart: kills and reopenings
      of that; Outage: losses of power and boots.
    - Clickhouse: the ClickHouse sink (src/clickhouse).

    A file has one Module of its own name.  Definitions keep the source's names;
    a method of the source is a function of its receiver's record.

    ** How state and code correspond

    Straight-line code over one state is a computation of the monad [M] (Errors), a
    function from a state to a [result] and a state, so an error keeps the changes
    made before it.  A goroutine that talks to others is a function from the
    answers of the outside (what the sink said, which way a [select] came back) to
    a list of effects, and the effects are steps of a shared state.  Where locks or
    atomic operations matter, each critical section or atomic operation is one
    step, and a theorem about every interleaving is one about every state the step
    relation reaches.  The caller's code (sinks, codecs, policies, hooks, handlers),
    the JSON library and the ClickHouse driver are parameters.

    ** What is proved

    - Restart, Outage, Live: a record acknowledged to its writer is delivered at
      least once, over any number of runs and kills at any moment, or of runs and
      losses of power, with disk calls failing during the runs; a killed buffer can
      be opened again; [Flush] is a barrier; a buffer that [Close] has drained owes
      nothing.  The conditions on a kill are those of [Restart.killable] and
      [Restart.reopens].
    - LogSteps, Kill: the log is an append-only sequence with truncation; Await's
      nil means stored; rounds settle once; numbers are not reused; a kill between
      or inside the steps loses nothing acknowledged and invents nothing.  It must
      not find a stray segment: [Recovery.stray_segment_refuses_open] has the one a
      failed rotation leaves when it cannot remove the file it made.
    - Committer, CleanClose: every staged round is decided within so many turns of
      the committer, whatever the disk answers; when [Close] waits for it, it does
      what [Log.Close] runs in place; a log closed properly is reopened as it was.
    - Durable, PowerLoss, Sound: in a mode that syncs, neither does a loss of power,
      nor does it bring numbers back; a log that opens over any directory is a
      well-formed log of exactly the records whole at the beginning of its files.
      That it opens is not claimed: PowerLoss has two directories with every
      acknowledged record whole that [Open] refuses.
    - Reader, Tail: readers return the log's records in order, each once.
    - Flusher, Delivery, Pipeline: batches are consecutive records under the right
      numbers, every record ends in exactly one of flushed, dropped, dead-lettered
      or skipped, only with a cause found among the answers at its place
      ([Delivery.grounded]); the mark passes only what is disposed of; no more
      deliveries run than allowed.
    - Buffer, MarkFiles: the checkpoint is ahead of every deletion, at every moment
      of a write and with power lost at that moment; [Open] resumes behind
      everything undelivered and counts the backlog, or fails with the call that
      failed.
    - Segment, Record, Crc32, Text: round trips, the scan on every input, damage
      that is always caught.
    - Capacity, Writer, Tracker, Age, Gate, Backoff, Options, Observer, State,
      Sink, Lifecycle: the component's own contract.  Clickhouse: what calls the
      driver gets, in which order, and what each answer of the sink says of them.
    - Contexts, Shutdown: no context handed to a policy is left unreleased; every
      call of [Close] can return; the books of the asynchronous observer balance
      at every moment and are complete when the dispatcher has returned.

    ** Bounds

    - [uint64] and [uint32] are [Z] with the wrap-around of each operation written
      out ([+u], [-u], [u64]; [u32]); [int64] counters too where the source could
      wrap them ([i64]).  Byte offsets and lengths, far below 2^63 in any file, are
      plain [Z].
    - A loss of power ([Disk.power_loss]) leaves of a file the bytes that have not
      changed since its last fsync, with anything behind them, and of a name any
      binding it had since the directory was last synced.  [PowerLoss.honest_fault]:
      a failing call does not pose as the end or the absence of a file.
      [Sound.orderly]: the numbers in the names and files [Open] comes across are
      increasing and within the reservation, which the code does not check and
      garbage behind the synced bytes could counterfeit.
    - [LogSteps.room]: an append finds at least 2^20 numbers left below 2^64.
      [Live.small]: one run reads fewer than 2^63 records and bytes.
    - Fuel: [Segment.scan] runs with one turn per byte and always answers
      ([scan_loop_some]); [Tracker.absorb] with one turn per waiting range
      ([absorb_spec]); [Buffer.countLoop] with one turn per record and one more
      ([countLoop_spec]); [Shutdown.capture] with one doubling per function on the
      stack ([capture_ends]).  Recursion elsewhere is on the data or on the answers
      of the outside.

    ** What is not modelled

    - Timers and tickers, which are answers of the outside or steps that may come at
      any time; so is the end of a context, but in Contexts, which has the tree of
      contexts behind a policy's.
    - How runtime.Callers walks the stack: [Shutdown.inDispatcher] is given the names
      of the functions on it.
    - The recycling of buffers ([spare], the reader's window capacity), which has no
      effect on contents, and Reader.Close.
    - Salvage after a loss of power, and kills and losses of power in one history:
      what a killed process had not synced is not known to be on disk in the next
      run (PowerLoss.adopted_records_can_refuse_open says why that matters).
    - In Restart, a kill while [Open] still runs, and kills in a run whose
      interrupted step found a stray segment: a run begins when [Open] returned.
    - lock_other.go, a stub for systems without flock; doc.go, which has no code. *)

From Stdlib Require Export ZArith Lia.
From Stdlib Require Import Strings.Byte.
From stdpp Require Export base option list gmap sorting.

(** ** Machine integers

    Go's [uint64], [uint32] and [int64] are modelled by [Z] with the
    wrap-around of every arithmetic operation written out. *)

Declare Scope go_scope.
Delimit Scope go_scope with go.
Local Open Scope Z_scope.

Definition maxU64 : Z := 18446744073709551615.
Definition u64 (z : Z) : Z := z mod 18446744073709551616.
Definition u32 (z : Z) : Z := z mod 4294967296.
(** Two's complement reading of a 64-bit word. *)
Definition i64 (z : Z) : Z :=
  (z + 9223372036854775808) mod 18446744073709551616 - 9223372036854775808.

Notation "a +u b" := (u64 (a + b)) (at level 50, left associativity) : go_scope.
Notation "a -u b" := (u64 (a - b)) (at level 50, left associativity) : go_scope.

Definition is_u64 (z : Z) : Prop := 0 <= z < 18446744073709551616.
Definition is_u32 (z : Z) : Prop := 0 <= z < 4294967296.

Lemma u64_id z : is_u64 z → u64 z = z.
Proof. apply Z.mod_small. Qed.

Lemma u64_range z : is_u64 (u64 z).
Proof. unfold is_u64, u64. apply Z.mod_pos_bound. lia. Qed.

Lemma u32_id z : is_u32 z → u32 z = z.
Proof. apply Z.mod_small. Qed.

Lemma u32_range z : is_u32 (u32 z).
Proof. unfold is_u32, u32. apply Z.mod_pos_bound. lia. Qed.

Lemma i64_id z : -9223372036854775808 <= z < 9223372036854775808 → i64 z = z.
Proof. intros. unfold i64. rewrite Z.mod_small; lia. Qed.

(** [lia] after dropping every wrap whose argument is in range. *)
Ltac unwrap_u64 :=
  repeat match goal with
  | |- context [u64 ?e] => rewrite (u64_id e) by (unfold is_u64 in *; lia)
  | H : context [u64 ?e] |- _ =>
      rewrite (u64_id e) in H by (unfold is_u64 in *; lia)
  end.
Ltac unwrap_i64 :=
  repeat match goal with
  | |- context [i64 ?e] => rewrite (i64_id e) by lia
  | H : context [i64 ?e] |- _ => rewrite (i64_id e) in H by lia
  end.
Ltac ulia := unwrap_u64; unfold is_u64 in *; lia.

(** Turn the boolean comparisons of the code into propositions. *)
Ltac bools :=
  repeat match goal with
  | H : (_ && _) = true |- _ => apply andb_true_iff in H as [? ?]
  | H : (_ && _) = false |- _ => apply andb_false_iff in H
  | H : (_ || _) = true |- _ => apply orb_true_iff in H
  | H : (_ || _) = false |- _ => apply orb_false_iff in H as [? ?]
  | H : negb _ = true |- _ => apply negb_true_iff in H
  | H : negb _ = false |- _ => apply negb_false_iff in H
  | H : (_ <? _) = true |- _ => apply Z.ltb_lt in H
  | H : (_ <? _) = false |- _ => apply Z.ltb_ge in H
  | H : (_ <=? _) = true |- _ => apply Z.leb_le in H
  | H : (_ <=? _) = false |- _ => apply Z.leb_gt in H
  | H : (_ =? _) = true |- _ => apply Z.eqb_eq in H
  | H : (_ =? _) = false |- _ => apply Z.eqb_neq in H
  end.

(** Case analysis on the test of the outermost conditional. *)
Ltac case_if :=
  match goal with
  | |- context [if ?b then _ else _] => destruct b eqn:?
  | H : context [if ?b then _ else _] |- _ => destruct b eqn:?
  end; bools.

(** ** Bytes *)

Abbreviation byte := Byte.byte.
Abbreviation bytes := (list byte).

#[global] Instance byte_eq_dec : EqDecision byte := Byte.byte_eq_dec.
#[global] Program Instance byte_countable : Countable byte :=
  inj_countable Byte.to_N Byte.of_N _.
Next Obligation. intros b. apply Byte.of_to_N. Qed.

Definition byte_val (b : byte) : Z := Z.of_N (Byte.to_N b).
Definition byte_of (z : Z) : byte :=
  match Byte.of_N (Z.to_N (z mod 256)) with Some b => b | None => Byte.x00 end.

Lemma byte_val_range b : 0 <= byte_val b < 256.
Proof.
  unfold byte_val. pose proof (Byte.to_N_bounded b). lia.
Qed.

Lemma byte_val_of z : byte_val (byte_of z) = z mod 256.
Proof.
  unfold byte_val, byte_of.
  assert (0 <= z mod 256 < 256) by (apply Z.mod_pos_bound; lia).
  destruct (Byte.of_N (Z.to_N (z mod 256))) as [b|] eqn:E.
  - apply Byte.to_of_N in E. rewrite E. lia.
  - apply Byte.of_N_None_iff in E. lia.
Qed.

Lemma byte_of_val b : byte_of (byte_val b) = b.
Proof.
  unfold byte_of, byte_val. pose proof (Byte.to_N_bounded b).
  rewrite Z.mod_small by lia. rewrite N2Z.id, Byte.of_to_N. done.
Qed.

Lemma byte_val_inj b c : byte_val b = byte_val c → b = c.
Proof. intros H. rewrite <- (byte_of_val b), H. apply byte_of_val. Qed.

(** A length as Go sees it. *)
Definition len {A} (l : list A) : Z := Z.of_nat (length l).

Lemma len_nonneg {A} (l : list A) : 0 <= len l.
Proof. unfold len. lia. Qed.
Lemma len_app {A} (l k : list A) : len (l ++ k) = len l + len k.
Proof. unfold len. rewrite length_app. lia. Qed.
Lemma len_nil {A} : len (@nil A) = 0.
Proof. done. Qed.
Lemma len_cons {A} (x : A) l : len (x :: l) = 1 + len l.
Proof. unfold len. simpl. lia. Qed.
Lemma len_pos {A} (l : list A) : l ≠ [] → 0 < len l.
Proof. destruct l; [done|]. rewrite len_cons. pose proof (len_nonneg l). lia. Qed.
Lemma len_zero {A} (l : list A) : len l = 0 → l = [].
Proof. intros H. destruct l; [done|]. pose proof (len_pos (a :: l)). specialize (H0 ltac:(done)). lia. Qed.

(** ** Lists *)

Lemma NoDup_omap_inj {A B} (f : A → option B) (l : list A) :
  NoDup l → (∀ x y z, x ∈ l → y ∈ l → f x = Some z → f y = Some z → x = y) → NoDup (omap f l).
Proof.
  induction 1 as [|x l Hx _ IH]; intros Hinj; [constructor|]. csimpl.
  assert (IH' : NoDup (omap f l)).
  { apply IH. intros y y' z Hy Hy'. apply Hinj; by right. }
  destruct (f x) as [z|] eqn:E; [|done]. constructor; [|done].
  intros (y & Hy & Ey)%list_elem_of_omap. assert (x = y) as ->; [|done].
  apply (Hinj x y z); [left | by right | done | done].
Qed.

Create HintDb gosem.
#[export] Hint Resolve len_nonneg u64_range u32_range : gosem.
Create Rewrite HintDb gosem_rw.
#[export] Hint Rewrite @len_app @len_nil @len_cons : gosem_rw.
