(* ===== verification/Errors.v ===== *)
(** * Go error values

    The errors the program returns, tests and wraps.  An error is a sentinel
    made by [errors.New], a wrapper made by [fmt.Errorf] with one or more
    [%w] verbs or by [errors.Join], the [*retryAfterError] of src/sink.go, a
    ClickHouse server exception, or a value of the caller's own.  The text of
    a wrapper is reduced to its constant part; the chain [errors.Is] and
    [errors.As] walk is kept whole. *)

From S2P Require Import Prelude.
From stdpp Require Import strings.
Local Open Scope Z_scope.

Inductive sentinel :=
(* io, os, syscall, context, strconv *)
| EOF | UnexpectedEOF | NotExist | Exist | ENOSPC | EDQUOT | EIO | EWOULDBLOCK
| FileClosed | Canceled | DeadlineExceeded | Syntax | Range
(* src/internal/wal/wal.go *)
| WalClosed | NoData | RecordTooLarge | Truncated | Corrupt | Broken | Pending
(* src/batch.go *)
| Full | TooLarge | Closed | DiskFull | Failed | Permanent | Uncertain | Panic
| InvalidOption
(* src/clickhouse/sink.go *)
| RowShape.

#[global] Instance sentinel_eq_dec : EqDecision sentinel.
Proof. solve_decision. Defined.

#[warnings="-register-all"]
Inductive error :=
| Sentinel (s : sentinel)
| Errorf (msg : string) (wrapped : list error)
| RetryAfterError (d : Z) (err : error)
| Exception (code : Z)
| Foreign (n : Z).

(** [errors.Is] against a sentinel: the whole tree of wrapped errors. *)
Fixpoint errorsIs (e : error) (t : sentinel) : bool :=
  match e with
  | Sentinel s => bool_decide (s = t)
  | Errorf _ ws => existsb (λ w, errorsIs w t) ws
  | RetryAfterError _ w => errorsIs w t
  | Exception _ | Foreign _ => false
  end.

(** The first [Some] of a list of candidates, as [errors.As] walks them. *)
Definition first_some {A B} (f : A → option B) : list A → option B :=
  fix go l :=
    match l with
    | [] => None
    | x :: l => match f x with Some y => Some y | None => go l end
    end.

(** [errors.As] for [*retryAfterError]: the delay of the first one found. *)
Fixpoint as_retry_after (e : error) : option Z :=
  match e with
  | RetryAfterError d _ => Some d
  | Errorf _ ws => first_some as_retry_after ws
  | Sentinel _ | Exception _ | Foreign _ => None
  end.

(** [errors.AsType[*ch.Exception]]: the code of the first one found. *)
Fixpoint as_exception (e : error) : option Z :=
  match e with
  | Exception c => Some c
  | Errorf _ ws => first_some as_exception ws
  | RetryAfterError _ w => as_exception w
  | Sentinel _ | Foreign _ => None
  end.

Lemma is_errorf msg ws t : errorsIs (Errorf msg ws) t = existsb (λ w, errorsIs w t) ws.
Proof. done. Qed.

(** Wrapping with [%w] keeps everything [errors.Is] could see. *)
Lemma is_wrapped msg ws w t : w ∈ ws → errorsIs w t = true → errorsIs (Errorf msg ws) t = true.
Proof.
  intros Hin Hw. rewrite is_errorf. apply existsb_exists.
  exists w. split; [by apply list_elem_of_In | done].
Qed.

(** ** Fallible results: Go's [(T, error)] *)

Inductive result (A : Type) :=
| Ok (a : A)
| Fail (e : error).
Arguments Ok {A} a.
Arguments Fail {A} e.

Definition is_ok {A} (r : result A) : bool := match r with Ok _ => true | Fail _ => false end.

(** ** Operations on a state that can fail

    A failing operation keeps the state it reached, as Go code does. *)

Definition M (S A : Type) : Type := S → result A * S.

Section monad.
Context {S : Type}.
Definition ret {A} (a : A) : M S A := λ s, (Ok a, s).
Definition throw {A} (e : error) : M S A := λ s, (Fail e, s).
Definition bind {A B} (m : M S A) (k : A → M S B) : M S B := λ s,
  match m s with
  | (Ok a, s') => k a s'
  | (Fail e, s') => (Fail e, s')
  end.
(** [x, err := m] with [err] inspected rather than returned. *)
Definition try {A} (m : M S A) : M S (result A) := λ s,
  let '(r, s') := m s in (Ok r, s').
Definition lift_result {A} (r : result A) : M S A := λ s, (r, s).
Definition get : M S S := λ s, (Ok s, s).
Definition gets {A} (f : S → A) : M S A := λ s, (Ok (f s), s).
Definition modify (f : S → S) : M S unit := λ s, (Ok tt, f s).
(** [if err := m; err != nil { return wrap(err) }] *)
Definition wrapping {A} (w : error → error) (m : M S A) : M S A := λ s,
  match m s with
  | (Ok a, s') => (Ok a, s')
  | (Fail e, s') => (Fail (w e), s')
  end.
(** [if err := m; err != nil { cleanup; return err }] *)
Definition on_error {A} (m : M S A) (cleanup : M S unit) : M S A := λ s,
  match m s with
  | (Ok a, s') => (Ok a, s')
  | (Fail e, s') => (Fail e, (cleanup s').2)
  end.
End monad.

Definition exec {S A} (m : M S A) (s : S) : S := (m s).2.
Definition outcome {S A} (m : M S A) (s : S) : result A := (m s).1.

(** Inversion of each construct on a run. *)
Section inversion.
Context {S : Type}.

Lemma bind_inv {A B} (m : M S A) (k : A → M S B) s r s' :
  bind m k s = (r, s') →
  (∃ a s1, m s = (Ok a, s1) ∧ k a s1 = (r, s')) ∨ (∃ e, m s = (Fail e, s') ∧ r = Fail e).
Proof.
  unfold bind. destruct (m s) as [[a|e] s1]; intros H; [left; eauto|].
  injection H as <- <-. right. eauto.
Qed.

Lemma try_inv {A} (m : M S A) s r s' :
  try m s = (r, s') → ∃ r1, m s = (r1, s') ∧ r = Ok r1.
Proof. unfold try. destruct (m s) as [r1 s1]. intros [= <- <-]. eauto. Qed.

Lemma wrapping_inv {A} w (m : M S A) s r s' :
  wrapping w m s = (r, s') →
  (∃ a, m s = (Ok a, s') ∧ r = Ok a) ∨ (∃ e, m s = (Fail e, s') ∧ r = Fail (w e)).
Proof. unfold wrapping. destruct (m s) as [[a|e] s1]; intros [= <- <-]; eauto. Qed.

Lemma on_error_inv {A} (m : M S A) c s r s' :
  on_error m c s = (r, s') →
  (∃ a, m s = (Ok a, s') ∧ r = Ok a) ∨
  (∃ e s1 rc, m s = (Fail e, s1) ∧ c s1 = (rc, s') ∧ r = Fail e).
Proof.
  unfold on_error. destruct (m s) as [[a|e] s1]; intros H.
  - injection H as <- <-. eauto.
  - destruct (c s1) as [rc s2] eqn:E. injection H as <- <-. right. eauto 8.
Qed.
End inversion.

(** ** Programs that stay within a relation

    [within R m]: however a run of [m] ends, the state it started in and the one
    it ends in are related.  For a preorder this composes along a program. *)

Definition within {S A} (R : relation S) (m : M S A) : Prop := ∀ s r s', m s = (r, s') → R s s'.

Create HintDb within.

Section within.
Context {S : Type} (R : relation S) `{!PreOrder R}.

Lemma within_ret {A} (a : A) : within R (ret a).
Proof using All. by intros s r s' [= _ <-]. Qed.

Lemma within_throw {A} e : within R (throw e : M S A).
Proof using All. by intros s r s' [= _ <-]. Qed.

Lemma within_gets {A} (f : S → A) : within R (gets f).
Proof using All. by intros s r s' [= _ <-]. Qed.

(** The continuation may use what the first part is known to return. *)
Lemma within_bind_post {A C} (Q : A → Prop) (m : M S A) (k : A → M S C) :
  within R m → (∀ s a s', m s = (Ok a, s') → Q a) → (∀ a, Q a → within R (k a)) → within R (bind m k).
Proof using All.
  intros Hm HQ Hk s r s' H. apply bind_inv in H as [(a & s1 & H1 & H)|(e & H & _)]; [|by apply (Hm _ _ _ H)].
  etrans; [by apply (Hm _ _ _ H1) | by apply (Hk a (HQ _ _ _ H1) _ _ _ H)].
Qed.

Lemma within_bind {A C} (m : M S A) (k : A → M S C) :
  within R m → (∀ a, within R (k a)) → within R (bind m k).
Proof using All. intros Hm Hk. by apply (within_bind_post (λ _, True)). Qed.

Lemma within_try {A} (m : M S A) : within R m → within R (try m).
Proof. intros Hm s r s' H. apply try_inv in H as (x & H & _). by apply (Hm _ _ _ H). Qed.

Lemma within_wrapping {A} w (m : M S A) : within R m → within R (wrapping w m).
Proof. intros Hm s r s' H. apply wrapping_inv in H as [(? & H & _)|(? & H & _)]; by apply (Hm _ _ _ H). Qed.

Lemma within_on_error {A} (m : M S A) c : within R m → within R c → within R (on_error m c).
Proof using All.
  intros Hm Hc s r s' H. apply on_error_inv in H as [(? & H & _)|(? & s1 & ? & H1 & H & _)]; [by apply (Hm _ _ _ H)|].
  etrans; [by apply (Hm _ _ _ H1) | by apply (Hc _ _ _ H)].
Qed.
End within.

#[export] Hint Resolve within_ret within_throw within_gets within_bind within_try within_wrapping within_on_error : within.
#[export] Hint Extern 0 (PreOrder _) => typeclasses eauto : within.

(** Keeping what [look] sees of the state. *)
Definition same_view {S B} (look : S → B) : relation S := λ s s', look s' = look s.

#[global] Instance same_view_preorder {S B} (look : S → B) : PreOrder (same_view look).
Proof. split; [by intros s | intros s1 s2 s3; unfold same_view; congruence]. Qed.

(** A program all of whose calls are known to stay within the relation. *)
Ltac stays :=
  repeat lazymatch goal with
  | |- PreOrder _ => typeclasses eauto
  | |- ∀ _, _ => intro
  | |- within _ (bind _ _) => apply within_bind
  | |- within _ (try _) => apply within_try
  | |- within _ (wrapping _ _) => apply within_wrapping
  | |- within _ (on_error _ _) => apply within_on_error
  | |- within _ (if ?b then _ else _) => destruct b
  | |- within _ (match ?x with _ => _ end) => destruct x
  end; eauto with within.

Notation "x <- m ;; k" := (bind m (λ x, k))
  (at level 100, m at next level, right associativity) : go_scope.
Notation "m ;;; k" := (bind m (λ _, k))
  (at level 100, right associativity) : go_scope.
