(* ===== verification/Text.v ===== *)
(** * Strings

    The parts of Go's [strings], [strconv] and [fmt] that
    src/internal/wal uses for file names and mark files: [%d] and [%020d] of a
    [uint64], [strconv.ParseUint(s, 10, 64)], [strings.TrimSpace],
    [HasSuffix], [TrimSuffix] and [Cut].  A Go string is its bytes. *)

From Stdlib Require Import Strings.String.
From S2P Require Import Prelude.
Local Open Scope Z_scope.

Module Text.

(** A string literal as bytes. *)
Definition str (s : string) : bytes := String.list_byte_of_string s.

Definition digit (d : Z) : byte := byte_of (48 + d).

(** The [k] low decimal digits of [n], most significant first. *)
Fixpoint fixed_digits (k : nat) (n : Z) : bytes :=
  match k with
  | O => []
  | S k => fixed_digits k (n / 10) ++ [digit (n mod 10)]
  end.

(** [%020d] of a [uint64]: every such value has at most twenty digits. *)
Definition pad20 (n : Z) : bytes := fixed_digits 20 n.

Fixpoint strip_zeros (s : bytes) : bytes :=
  match s with
  | Byte.x30 :: s' => strip_zeros s'
  | _ => s
  end.

(** [%d] of a [uint64]. *)
Definition show (n : Z) : bytes :=
  match strip_zeros (pad20 n) with
  | [] => [Byte.x30]
  | s => s
  end.

Definition digit_val (b : byte) : option Z :=
  let v := byte_val b - 48 in
  if (0 <=? v) && (v <? 10) then Some v else None.

(** The loop of [strconv.ParseUint] for base 10 and 64 bits, [cutoff] being
    [MaxUint64/10 + 1]. *)
Definition parse_step (acc : option Z) (b : byte) : option Z :=
  match acc, digit_val b with
  | Some n, Some d =>
      if 1844674407370955162 <=? n then None
      else
        let n := n * 10 in
        let n1 := u64 (n + d) in
        if n1 <? n then None else Some n1
  | _, _ => None
  end.

(** [strconv.ParseUint(s, 10, 64)], [None] for either of its errors. *)
Definition parseUint (s : bytes) : option Z :=
  match s with
  | [] => None
  | _ => fold_left parse_step s (Some 0)
  end.

Definition hasSuffix (s suf : bytes) : bool :=
  (len suf <=? len s) && bool_decide (drop (length s - length suf) s = suf).

Definition trimSuffix (s suf : bytes) : bytes :=
  if hasSuffix s suf then take (length s - length suf) s else s.

(** [strings.Cut(s, sep)] for a one-byte separator. *)
Fixpoint cut (s : bytes) (sep : byte) : option (bytes * bytes) :=
  match s with
  | [] => None
  | c :: s' =>
      if bool_decide (c = sep) then Some ([], s')
      else match cut s' sep with
           | Some (before, after) => Some (c :: before, after)
           | None => None
           end
  end.

(** The UTF-8 encodings of the runes [unicode.IsSpace] accepts. *)
Definition spaces : list bytes :=
  [[Byte.x09]; [Byte.x0a]; [Byte.x0b]; [Byte.x0c]; [Byte.x0d]; [Byte.x20];
   [Byte.xc2; Byte.x85]; [Byte.xc2; Byte.xa0]; [Byte.xe1; Byte.x9a; Byte.x80];
   [Byte.xe2; Byte.x80; Byte.x80]; [Byte.xe2; Byte.x80; Byte.x81];
   [Byte.xe2; Byte.x80; Byte.x82]; [Byte.xe2; Byte.x80; Byte.x83];
   [Byte.xe2; Byte.x80; Byte.x84]; [Byte.xe2; Byte.x80; Byte.x85];
   [Byte.xe2; Byte.x80; Byte.x86]; [Byte.xe2; Byte.x80; Byte.x87];
   [Byte.xe2; Byte.x80; Byte.x88]; [Byte.xe2; Byte.x80; Byte.x89];
   [Byte.xe2; Byte.x80; Byte.x8a]; [Byte.xe2; Byte.x80; Byte.xa8];
   [Byte.xe2; Byte.x80; Byte.xa9]; [Byte.xe2; Byte.x80; Byte.xaf];
   [Byte.xe2; Byte.x81; Byte.x9f]; [Byte.xe3; Byte.x80; Byte.x80]].

(** The number of bytes of the space rune [s] starts with, if it does. *)
Definition leading_space (ps : list bytes) (s : bytes) : option nat :=
  length <$> find (λ p, bool_decide (take (length p) s = p)) ps.

Fixpoint trim_left (fuel : nat) (ps : list bytes) (s : bytes) : bytes :=
  match fuel with
  | O => s
  | S fuel =>
      match leading_space ps s with
      | Some n => trim_left fuel ps (drop n s)
      | None => s
      end
  end.

(** [strings.TrimSpace]: from the left, then from the right on the reversal. *)
Definition trimSpace (s : bytes) : bytes :=
  let l := trim_left (length s) spaces s in
  rev (trim_left (length l) (map (@rev byte) spaces) (rev l)).

(** ** Round trips *)

Lemma digit_val_digit d : 0 <= d < 10 → digit_val (digit d) = Some d.
Proof.
  intros Hd. unfold digit_val, digit. rewrite byte_val_of, Z.mod_small by lia.
  replace (48 + d - 48) with d by lia.
  by replace ((0 <=? d) && (d <? 10)) with true by lia.
Qed.

Lemma length_fixed_digits k n : length (fixed_digits k n) = k.
Proof.
  revert n. induction k as [|k IH]; intros n; simpl; [done|].
  rewrite length_app, IH. simpl. lia.
Qed.

Lemma parse_step_digit a d :
  0 <= a → 0 <= d < 10 → a * 10 + d <= maxU64 →
  parse_step (Some a) (digit d) = Some (a * 10 + d).
Proof.
  unfold maxU64. intros Ha Hd Hm. unfold parse_step. rewrite digit_val_digit by done.
  replace (1844674407370955162 <=? a) with false by lia.
  rewrite u64_id by (unfold is_u64; lia).
  by replace (a * 10 + d <? a * 10) with false by lia.
Qed.

Lemma parse_fixed_digits k n a :
  0 <= a → 0 <= n → a * 10 ^ Z.of_nat k + n mod 10 ^ Z.of_nat k <= maxU64 →
  fold_left parse_step (fixed_digits k n) (Some a)
  = Some (a * 10 ^ Z.of_nat k + n mod 10 ^ Z.of_nat k).
Proof.
  revert n. induction k as [|k IH]; intros n Ha Hn Hm.
  - simpl. rewrite Z.mod_1_r. f_equal. lia.
  - simpl fixed_digits. rewrite fold_left_app. simpl fold_left.
    set (p := 10 ^ Z.of_nat k) in *.
    assert (Hp : 0 < p) by (apply Z.pow_pos_nonneg; lia).
    assert (Es : 10 ^ Z.of_nat (S k) = 10 * p).
    { unfold p. rewrite Nat2Z.inj_succ, Z.pow_succ_r by lia. done. }
    rewrite Es in *.
    assert (Em : n mod (10 * p) = n mod 10 + 10 * ((n / 10) mod p)).
    { apply Z.rem_mul_r; lia. }
    pose proof (Z.mod_pos_bound n 10 ltac:(lia)).
    pose proof (Z.mod_pos_bound (n / 10) p ltac:(lia)).
    assert (0 <= n / 10) by (apply Z.div_pos; lia).
    rewrite IH by (try lia; nia).
    rewrite parse_step_digit by (try lia; nia).
    f_equal. rewrite Em. nia.
Qed.

Lemma u64_digits n : is_u64 n → n mod 10 ^ Z.of_nat 20 = n.
Proof. intros H. unfold is_u64 in H. apply Z.mod_small. lia. Qed.

Lemma parse_pad20 n : is_u64 n → parseUint (pad20 n) = Some n.
Proof.
  intros H. assert (E : fold_left parse_step (pad20 n) (Some 0) = Some n).
  { unfold pad20. rewrite parse_fixed_digits.
    - f_equal. rewrite (u64_digits n H). lia.
    - lia.
    - unfold is_u64 in H; lia.
    - rewrite (u64_digits n H). unfold is_u64, maxU64 in *. lia. }
  unfold parseUint. destruct (pad20 n) eqn:El; [|done].
  apply (f_equal length) in El. unfold pad20 in El. rewrite length_fixed_digits in El. done.
Qed.

Lemma parse_strip_zeros s : fold_left parse_step (strip_zeros s) (Some 0) = fold_left parse_step s (Some 0).
Proof.
  induction s as [|b s IH]; [done|].
  destruct b; done.
Qed.

(** What is parsed is a [uint64]. *)
Lemma parse_is_u64 s n : parseUint s = Some n → is_u64 n.
Proof.
  assert (H : ∀ acc, (∀ m, acc = Some m → is_u64 m) → ∀ m, fold_left parse_step s acc = Some m → is_u64 m).
  { induction s as [|b s IH]; intros acc Ha m; [by apply Ha|]. simpl. apply IH. clear IH m n.
    intros m. unfold parse_step. destruct acc as [a|]; [|done]. destruct (digit_val b) as [d|]; [|done].
    case_if; [done|]. case_if; [done|]. intros [= <-]. apply u64_range. }
  unfold parseUint. destruct s as [|b s]; [done|]. apply H. intros m [= <-]. unfold is_u64. lia.
Qed.

(** [ParseUint] reads back what [%d] printed. *)
Lemma parse_show n : is_u64 n → parseUint (show n) = Some n.
Proof.
  intros H. pose proof (parse_pad20 n H) as Hp. unfold parseUint in Hp.
  destruct (pad20 n) as [|b s] eqn:El; [done|]. rewrite <- El in Hp.
  rewrite <- parse_strip_zeros in Hp. unfold show.
  destruct (strip_zeros (pad20 n)) as [|c t] eqn:Es.
  - simpl in Hp. injection Hp as <-. done.
  - exact Hp.
Qed.

Definition is_digit (b : byte) : bool := match digit_val b with Some _ => true | None => false end.

Lemma fixed_digits_are_digits k n : forallb is_digit (fixed_digits k n) = true.
Proof.
  revert n. induction k as [|k IH]; intros n; simpl; [done|].
  rewrite forallb_app, IH. simpl. unfold is_digit.
  rewrite digit_val_digit; [done|]. apply Z.mod_pos_bound. lia.
Qed.

Lemma strip_zeros_digits s : forallb is_digit s = true → forallb is_digit (strip_zeros s) = true.
Proof.
  induction s as [|b s IH]; [done|]. intros H. destruct b; try exact H.
  by apply IH.
Qed.

Lemma show_digits n : forallb is_digit (show n) = true.
Proof.
  unfold show. pose proof (strip_zeros_digits _ (fixed_digits_are_digits 20 n)) as H.
  unfold pad20. destruct (strip_zeros (fixed_digits 20 n)); [done | exact H].
Qed.

Lemma show_not_nil n : show n ≠ [].
Proof. unfold show. by destruct (strip_zeros (pad20 n)). Qed.

(** ** Trimming *)

Lemma leading_space_None ps s :
  (∀ p, p ∈ ps → take (length p) s ≠ p) → leading_space ps s = None.
Proof.
  intros H. unfold leading_space. destruct (find _ ps) as [p|] eqn:E; [|done].
  apply find_some in E as [Hin Hp]. apply bool_decide_eq_true in Hp.
  apply list_elem_of_In in Hin. by apply H in Hin.
Qed.

Lemma trim_left_keep ps s fuel : leading_space ps s = None → trim_left fuel ps s = s.
Proof. intros H. destruct fuel; simpl; [done | by rewrite H]. Qed.

(** No space rune starts or ends with a decimal digit or another printable
    ASCII byte: the first byte of a space is below '!' or above '~', and so is
    its last. *)
Definition graphic (b : byte) : bool := (33 <=? byte_val b) && (byte_val b <=? 126).

Lemma not_leading_graphic ps b s :
  forallb (λ p, match p with c :: _ => negb (graphic c) | [] => false end) ps = true →
  graphic b = true → leading_space ps (b :: s) = None.
Proof.
  intros Hps Hb. apply leading_space_None. intros p Hp Ht.
  rewrite forallb_forall in Hps. apply list_elem_of_In in Hp.
  specialize (Hps p Hp). destruct p as [|c p]; [done|].
  simpl in Ht. injection Ht as -> _. by rewrite Hb in Hps.
Qed.

Lemma leading_nil ps :
  forallb (λ p, match p with c :: _ => negb (graphic c) | [] => false end) ps = true →
  leading_space ps [] = None.
Proof.
  intros Hps. apply leading_space_None. intros p Hp Ht.
  rewrite forallb_forall in Hps. apply list_elem_of_In in Hp.
  specialize (Hps p Hp). rewrite take_nil in Ht. by subst p.
Qed.

(** Trimming a line whose text is printable gives the text back. *)
Lemma trim_line s :
  s ≠ [] → forallb graphic s = true → trimSpace (s ++ [Byte.x0a]) = s.
Proof.
  intros Hne Hg. destruct s as [|b s]; [done|]. unfold trimSpace.
  assert (Hb : graphic b = true) by (simpl in Hg; by apply andb_true_iff in Hg as [? _]).
  assert (El : ∀ f, trim_left f spaces ((b :: s) ++ [Byte.x0a]) = (b :: s) ++ [Byte.x0a]).
  { intros f. apply trim_left_keep. simpl app. apply not_leading_graphic; [vm_compute; reflexivity | done]. }
  rewrite El. rewrite rev_app_distr. simpl rev at 1. simpl app at 1.
  rewrite length_app. simpl length. rewrite Nat.add_comm. simpl Nat.add.
  set (r := rev (b :: s)).
  assert (Hr : forallb graphic r = true).
  { unfold r. apply forallb_forall. intros x Hx. apply in_rev in Hx.
    rewrite forallb_forall in Hg. by apply Hg. }
  change (rev s ++ [b]) with r.
  change (trim_left (S (S (length s))) (map (@rev byte) spaces) (Byte.x0a :: r))
    with (trim_left (S (length s)) (map (@rev byte) spaces) (drop 1 (Byte.x0a :: r))).
  simpl drop. rewrite trim_left_keep.
  - unfold r. apply rev_involutive.
  - destruct r as [|c r'] eqn:Er.
    + apply leading_nil. vm_compute. reflexivity.
    + apply not_leading_graphic; [vm_compute; reflexivity|].
      simpl in Hr. by apply andb_true_iff in Hr as [? _].
Qed.

Lemma digit_graphic b : is_digit b = true → graphic b = true.
Proof.
  unfold is_digit, digit_val, graphic. intros H. destruct ((0 <=? _) && _) eqn:E; [|done].
  bools. lia.
Qed.

Lemma digits_graphic s : forallb is_digit s = true → forallb graphic s = true.
Proof.
  rewrite !forallb_forall. intros H x Hx. apply digit_graphic. by apply H.
Qed.

(** What [WriteCheckpoint] and [writeReserved] print, read back. *)
Lemma parse_trim_show n : is_u64 n → parseUint (trimSpace (show n ++ [Byte.x0a])) = Some n.
Proof.
  intros H. rewrite trim_line.
  - by apply parse_show.
  - apply show_not_nil.
  - apply digits_graphic, show_digits.
Qed.

(** ** Suffixes and separators *)

Lemma hasSuffix_app s suf : hasSuffix (s ++ suf) suf = true.
Proof.
  unfold hasSuffix. rewrite len_app, length_app.
  replace (length s + length suf - length suf)%nat with (length s) by lia.
  rewrite drop_app_length. rewrite bool_decide_eq_true_2 by done.
  pose proof (len_nonneg s). rewrite andb_true_r. lia.
Qed.

Lemma trimSuffix_app s suf : trimSuffix (s ++ suf) suf = s.
Proof.
  unfold trimSuffix. rewrite hasSuffix_app, length_app.
  replace (length s + length suf - length suf)%nat with (length s) by lia.
  apply take_app_length.
Qed.

Lemma cut_app a sep c : forallb (λ b, negb (bool_decide (b = sep))) a = true →
  cut (a ++ sep :: c) sep = Some (a, c).
Proof.
  induction a as [|x a IH]; simpl; intros H.
  - by rewrite bool_decide_eq_true_2.
  - apply andb_true_iff in H as [Hx H]. destruct (bool_decide (x = sep)); [done|].
    by rewrite IH.
Qed.

Lemma digits_no_dot s : forallb is_digit s = true →
  forallb (λ b, negb (bool_decide (b = Byte.x2e))) s = true.
Proof.
  rewrite !forallb_forall. intros H x Hx. specialize (H x Hx).
  destruct (bool_decide_reflect (x = Byte.x2e)) as [->|]; done.
Qed.

End Text.
