(* ===== verification/Crc32.v ===== *)
(** * CRC-32C

    The checksum of package [hash/crc32] that src/internal/wal/record.go takes
    with [crc32.MakeTable(crc32.Castagnoli)]: reflected polynomial 0x82F63B78,
    register complemented on entry and on exit of every [Write].

    Besides the definition, the file proves what the log relies on the
    checksum for: it can be fed in pieces, and damage confined to four
    consecutive bytes always changes it. *)

From S2P Require Import Prelude.
Local Open Scope Z_scope.

Module Crc32.

(** The Castagnoli polynomial in reflected order. *)
Definition poly : Z := 2197175160.

(** One bit of the table construction: [crc&1 == 1 ? (crc>>1)^poly : crc>>1]. *)
Definition shift1 (c : Z) : Z :=
  if Z.odd c then Z.lxor (Z.shiftr c 1) poly else Z.shiftr c 1.

(** Entry [i] of the table: eight bit steps. *)
Definition table (i : Z) : Z := Nat.iter 8 shift1 i.

(** One byte of [crc32.Update] between its two complements. *)
Definition feed (c : Z) (b : byte) : Z :=
  Z.lxor (table (Z.land (Z.lxor c (byte_val b)) 255)) (Z.shiftr c 8).

Definition mask : Z := 4294967295.

(** [crc32.Update]: complement, feed every byte, complement. *)
Definition update (c : Z) (p : bytes) : Z :=
  Z.lxor (fold_left feed p (Z.lxor c mask)) mask.

(** [crc32.New(table)], [Write] per slice, [Sum32]. *)
Definition sum32 (writes : list bytes) : Z := fold_left update writes 0.

(** The standard check value of CRC-32C over "123456789". *)
Example check_value :
  sum32 [[Byte.x31; Byte.x32; Byte.x33; Byte.x34; Byte.x35; Byte.x36; Byte.x37; Byte.x38; Byte.x39]]
  = 3808858755.
Proof. vm_compute. reflexivity. Qed.

(** ** The register is a 32-bit word *)

Definition word (z : Z) : Prop := 0 <= z < 2 ^ 32.

Lemma word_bits z : word z ↔ 0 <= z ∧ ∀ i, 32 <= i → Z.testbit z i = false.
Proof.
  unfold word. split.
  - intros [H0 H1]. split; [done|]. intros i Hi.
    rewrite <- (Z.mod_small z (2 ^ 32)) by done.
    apply Z.mod_pow2_bits_high. lia.
  - intros [H0 Hb]. split; [done|].
    assert (E : z = z mod 2 ^ 32).
    { apply Z.bits_inj'. intros i Hi. destruct (decide (i < 32)).
      - rewrite Z.mod_pow2_bits_low by lia. done.
      - rewrite Z.mod_pow2_bits_high by lia. apply Hb. lia. }
    rewrite E. apply Z.mod_pos_bound. lia.
Qed.

Lemma lxor_pos a b : 0 <= a → 0 <= b → 0 <= Z.lxor a b.
Proof. intros. apply Z.lxor_nonneg. lia. Qed.

Lemma word_lxor a b : word a → word b → word (Z.lxor a b).
Proof.
  rewrite !word_bits. intros [Ha Ba] [Hb Bb]. split.
  - by apply lxor_pos.
  - intros i Hi. rewrite Z.lxor_spec, Ba, Bb by done. done.
Qed.

Lemma word_shiftr a n : 0 <= n → word a → word (Z.shiftr a n).
Proof.
  rewrite !word_bits. intros Hn [Ha Ba]. split.
  - by apply Z.shiftr_nonneg.
  - intros i Hi. rewrite Z.shiftr_spec by lia. apply Ba. lia.
Qed.

Lemma word_poly : word poly.
Proof. unfold word, poly. lia. Qed.
Lemma word_mask : word mask.
Proof. unfold word, mask. lia. Qed.
Lemma word_byte b : word (byte_val b).
Proof. unfold word. pose proof (byte_val_range b). lia. Qed.

Lemma word_shift1 c : word c → word (shift1 c).
Proof.
  intros H. unfold shift1. destruct (Z.odd c).
  - apply word_lxor; [by apply word_shiftr | apply word_poly].
  - by apply word_shiftr.
Qed.

Lemma word_iter n c : word c → word (Nat.iter n shift1 c).
Proof. intros H. induction n; simpl; [done | by apply word_shift1]. Qed.

#[local] Hint Resolve word_lxor word_shift1 word_iter word_byte word_mask : core.

(** ** Linearity over exclusive or *)

Lemma shiftr_lxor a b n : Z.shiftr (Z.lxor a b) n = Z.lxor (Z.shiftr a n) (Z.shiftr b n).
Proof. apply Z.shiftr_lxor. Qed.

Lemma shift1_lxor a b : shift1 (Z.lxor a b) = Z.lxor (shift1 a) (shift1 b).
Proof.
  unfold shift1. rewrite shiftr_lxor.
  rewrite <- !Z.bit0_odd, Z.lxor_spec.
  destruct (Z.testbit a 0), (Z.testbit b 0); simpl.
  - apply Z.bits_inj'. intros i Hi. rewrite !Z.lxor_spec.
    destruct (Z.testbit (Z.shiftr a 1) i), (Z.testbit (Z.shiftr b 1) i), (Z.testbit poly i); done.
  - apply Z.bits_inj'. intros i Hi. rewrite !Z.lxor_spec.
    destruct (Z.testbit (Z.shiftr a 1) i), (Z.testbit (Z.shiftr b 1) i), (Z.testbit poly i); done.
  - by rewrite Z.lxor_assoc.
  - done.
Qed.

Lemma iter_lxor n a b :
  Nat.iter n shift1 (Z.lxor a b) = Z.lxor (Nat.iter n shift1 a) (Nat.iter n shift1 b).
Proof. induction n as [|n IH]; simpl; [done|]. by rewrite IH, shift1_lxor. Qed.

Lemma iter_add m n c : Nat.iter (m + n) shift1 c = Nat.iter m shift1 (Nat.iter n shift1 c).
Proof. induction m; simpl; congruence. Qed.

Lemma iter_succ_r n c : Nat.iter (S n) shift1 c = Nat.iter n shift1 (shift1 c).
Proof. rewrite <- (iter_add n 1). by replace (n + 1)%nat with (S n) by lia. Qed.

(** Bits above the ones consumed only move down. *)
Lemma iter_shiftl n c : 0 <= c → Nat.iter n shift1 (Z.shiftl c (Z.of_nat n)) = c.
Proof.
  intros Hc. induction n as [|n IH]; [by rewrite Z.shiftl_0_r|].
  rewrite iter_succ_r. rewrite <- IH at 2. f_equal. unfold shift1.
  rewrite <- Z.bit0_odd, Z.shiftl_spec_low by lia.
  apply Z.bits_inj'. intros i Hi.
  rewrite Z.shiftr_spec, !Z.shiftl_spec by lia. f_equal. lia.
Qed.

Lemma low_high c n : 0 <= n →
  c = Z.lxor (Z.land c (Z.ones n)) (Z.shiftl (Z.shiftr c n) n).
Proof.
  intros Hn. apply Z.bits_inj'. intros i Hi.
  rewrite Z.lxor_spec, Z.land_spec.
  destruct (decide (i < n)).
  - rewrite Z.ones_spec_low, Z.shiftl_spec_low by lia. by rewrite andb_true_r, xorb_false_r.
  - rewrite Z.ones_spec_high, Z.shiftl_spec, Z.shiftr_spec by lia.
    rewrite andb_false_r, xorb_false_l. f_equal. lia.
Qed.

(** The table look-up equals eight bit steps on the whole register. *)
Lemma feed_iter c b : 0 <= c →
  feed c b = Nat.iter 8 shift1 (Z.lxor c (byte_val b)).
Proof.
  intros Hc. pose proof (byte_val_range b) as Hb.
  unfold feed, table. change 255 with (Z.ones 8).
  rewrite (low_high (Z.lxor c (byte_val b)) 8) at 2 by lia.
  rewrite iter_lxor. f_equal.
  assert (Hz : Z.shiftr (byte_val b) 8 = 0).
  { rewrite Z.shiftr_div_pow2 by lia. apply Z.div_small. lia. }
  rewrite shiftr_lxor, Hz, Z.lxor_0_r.
  symmetry. apply (iter_shiftl 8). by apply Z.shiftr_nonneg.
Qed.

Lemma word_feed c b : word c → word (feed c b).
Proof.
  intros Hc. rewrite feed_iter by (unfold word in Hc; lia). auto.
Qed.

Lemma word_feeds p c : word c → word (fold_left feed p c).
Proof. revert c. induction p; simpl; intros; auto using word_feed. Qed.

Lemma word_update c p : word c → word (update c p).
Proof. intros. unfold update. auto using word_feeds. Qed.

Lemma word_sum32_from writes c : word c → word (fold_left update writes c).
Proof. revert c. induction writes; simpl; intros; auto using word_update. Qed.

Lemma sum32_u32 writes : is_u32 (sum32 writes).
Proof. apply (word_sum32_from writes 0). unfold word. lia. Qed.

(** ** Injectivity *)

Lemma shift1_zero c : word c → shift1 c = 0 → c = 0.
Proof.
  unfold shift1. intros Hc H. rewrite Z.shiftr_div_pow2 in H by lia.
  change (2 ^ 1) with 2 in H.
  assert (Hd := Z.div_mod c 2 ltac:(lia)). rewrite Zmod_odd in Hd.
  unfold word in Hc. change (2 ^ 32) with 4294967296 in Hc.
  destruct (Z.odd c).
  - apply Z.lxor_eq in H. unfold poly in H. lia.
  - lia.
Qed.

Lemma iter_zero n c : word c → Nat.iter n shift1 c = 0 → c = 0.
Proof.
  induction n as [|n IH]; simpl; intros Hc H; [done|].
  apply IH; [done|]. apply shift1_zero; auto.
Qed.

Lemma iter_inj n a b : word a → word b →
  Nat.iter n shift1 a = Nat.iter n shift1 b → a = b.
Proof.
  intros Ha Hb H. apply Z.lxor_eq, (iter_zero n); [auto|].
  rewrite iter_lxor, H. apply Z.lxor_nilpotent.
Qed.

Lemma lxor_cancel_r a b c : Z.lxor a c = Z.lxor b c → a = b.
Proof.
  intros H. apply (f_equal (fun z => Z.lxor z c)) in H.
  by rewrite !Z.lxor_assoc, !Z.lxor_nilpotent, !Z.lxor_0_r in H.
Qed.

Lemma feed_inj c d b : word c → word d → feed c b = feed d b → c = d.
Proof.
  intros Hc Hd H.
  rewrite !feed_iter in H by (unfold word in *; lia).
  apply iter_inj in H; auto. by apply lxor_cancel_r in H.
Qed.

Lemma feeds_inj p c d : word c → word d →
  fold_left feed p c = fold_left feed p d → c = d.
Proof.
  revert c d. induction p as [|b p IH]; simpl; intros c d Hc Hd H; [done|].
  apply IH in H; auto using word_feed. by apply feed_inj in H.
Qed.

(** Feeding several bytes is one long run of bit steps on the register
    combined with the bytes as a little-endian word. *)
Fixpoint le_word (p : bytes) : Z :=
  match p with
  | [] => 0
  | b :: q => Z.lxor (byte_val b) (Z.shiftl (le_word q) 8)
  end.

Lemma le_word_nonneg p : 0 <= le_word p.
Proof.
  induction p as [|b p IH]; simpl; [lia|].
  pose proof (byte_val_range b).
  apply lxor_pos; [lia | by apply Z.shiftl_nonneg].
Qed.

Lemma iter_pos n c : 0 <= c → 0 <= Nat.iter n shift1 c.
Proof.
  intros Hc. induction n as [|n IH]; simpl; [done|]. unfold shift1. case_match.
  - apply lxor_pos; [by apply Z.shiftr_nonneg | unfold poly; lia].
  - by apply Z.shiftr_nonneg.
Qed.

Lemma feeds_le_word p c : 0 <= c →
  fold_left feed p c = Nat.iter (8 * length p) shift1 (Z.lxor c (le_word p)).
Proof.
  revert c. induction p as [|b p IH]; intros c Hc; simpl fold_left.
  - simpl. by rewrite Z.lxor_0_r.
  - pose proof (byte_val_range b). pose proof (le_word_nonneg p).
    assert (Hf : 0 <= feed c b).
    { rewrite feed_iter by done. apply iter_pos, lxor_pos; lia. }
    rewrite IH by done. rewrite feed_iter by done.
    simpl length. rewrite Nat.mul_succ_r, iter_add. f_equal.
    simpl le_word. rewrite <- Z.lxor_assoc.
    rewrite (iter_lxor 8 (Z.lxor c (byte_val b))). f_equal.
    symmetry. by apply (iter_shiftl 8).
Qed.

Lemma le_word_inj p q : length p = length q → le_word p = le_word q → p = q.
Proof.
  revert q. induction p as [|b p IH]; intros [|c q] Hl H; simpl in *; try lia; [done|].
  assert (Hlow : ∀ (x : byte) w, Z.land (Z.lxor (byte_val x) (Z.shiftl w 8)) (Z.ones 8) = byte_val x).
  { intros x w. pose proof (byte_val_range x). apply Z.bits_inj'. intros i Hi.
    rewrite Z.land_spec, Z.lxor_spec. destruct (decide (i < 8)).
    - rewrite Z.shiftl_spec_low, Z.ones_spec_low by lia. by rewrite xorb_false_r, andb_true_r.
    - rewrite Z.ones_spec_high by lia. rewrite andb_false_r.
      rewrite <- (Z.mod_small (byte_val x) (2 ^ 8)) by lia.
      by rewrite Z.mod_pow2_bits_high by lia. }
  assert (Hb : byte_val b = byte_val c).
  { rewrite <- (Hlow b (le_word p)), H. apply Hlow. }
  f_equal; [by apply byte_val_inj|]. apply IH; [lia|].
  rewrite Hb in H.
  assert (Hs : Z.shiftl (le_word p) 8 = Z.shiftl (le_word q) 8).
  { rewrite (Z.lxor_comm (byte_val c)), (Z.lxor_comm (byte_val c)) in H.
    by apply lxor_cancel_r in H. }
  rewrite !Z.shiftl_mul_pow2 in Hs by lia. lia.
Qed.

Lemma word_le_word p : (length p <= 4)%nat → word (le_word p).
Proof.
  intros Hl. apply word_bits. split; [apply le_word_nonneg|].
  assert (G : ∀ p i, 8 * Z.of_nat (length p) <= i → Z.testbit (le_word p) i = false).
  { clear. induction p as [|b p IH]; simpl length; intros i Hi; simpl le_word; [apply Z.bits_0|].
    pose proof (byte_val_range b). rewrite Z.lxor_spec, Z.shiftl_spec by lia.
    rewrite IH by lia. rewrite <- (Z.mod_small (byte_val b) (2 ^ 8)) by lia.
    by rewrite Z.mod_pow2_bits_high by lia. }
  intros i Hi. apply G. lia.
Qed.

(** Damage confined to a window of at most four bytes changes the register. *)
Lemma feeds_burst pre w w' post c :
  word c → length w = length w' → (length w <= 4)%nat → w ≠ w' →
  fold_left feed (pre ++ w ++ post) c ≠ fold_left feed (pre ++ w' ++ post) c.
Proof.
  intros Hc Hl H4 Hne H. apply Hne.
  rewrite !fold_left_app in H.
  pose proof (word_feeds pre c Hc) as Hp.
  apply feeds_inj in H; auto using word_feeds.
  set (d := fold_left feed pre c) in *. clearbody d. unfold word in Hp.
  rewrite (feeds_le_word w), (feeds_le_word w') in H by lia.
  rewrite <- Hl in H. apply iter_inj in H.
  2: { apply word_lxor; [done|]. by apply word_le_word. }
  2: { apply word_lxor; [done|]. apply word_le_word. lia. }
  rewrite (Z.lxor_comm _ (le_word w)), (Z.lxor_comm _ (le_word w')) in H.
  apply lxor_cancel_r in H. by apply le_word_inj.
Qed.

(** ** Streaming *)

Lemma update_app c p q : update c (p ++ q) = update (update c p) q.
Proof.
  unfold update. by rewrite fold_left_app, Z.lxor_assoc, Z.lxor_nilpotent, Z.lxor_0_r.
Qed.

Lemma update_nil c : update c [] = c.
Proof. unfold update. simpl. by rewrite Z.lxor_assoc, Z.lxor_nilpotent, Z.lxor_0_r. Qed.

(** How the bytes are split over [Write] calls does not matter. *)
Lemma sum32_concat writes : sum32 writes = update 0 (concat writes).
Proof.
  unfold sum32. generalize 0 as c. induction writes as [|p ws IH]; intros c; simpl.
  - by rewrite update_nil.
  - by rewrite update_app, IH.
Qed.

Lemma update_burst pre w w' post c :
  word c → length w = length w' → (length w <= 4)%nat → w ≠ w' →
  update c (pre ++ w ++ post) ≠ update c (pre ++ w' ++ post).
Proof.
  intros Hc Hl H4 Hne H. unfold update in H.
  apply lxor_cancel_r in H. revert H. apply feeds_burst; auto.
Qed.

End Crc32.
