(* ===== verification/Record.v ===== *)
(** * Record framing (src/internal/wal/record.go)

    A record is a little-endian [uint32] payload length, a [uint32] CRC-32C
    over that length field and the payload, and the payload.  The file defines
    the encoder and the header decoder, and proves the frame round trip and
    what the checksum detects. *)

From S2P Require Import Prelude Errors Crc32.
Local Open Scope Z_scope.

Module Record.

Definition headerSize : Z := 8.

(** [binary.LittleEndian.PutUint32]. *)
Definition putUint32 (v : Z) : bytes :=
  [byte_of v; byte_of (Z.shiftr v 8); byte_of (Z.shiftr v 16); byte_of (Z.shiftr v 24)].

(** [binary.LittleEndian.Uint32] of the first four bytes. *)
Definition uint32 (b : bytes) : Z :=
  match b with
  | b0 :: b1 :: b2 :: b3 :: _ =>
      Z.lor (byte_val b0) (Z.lor (Z.shiftl (byte_val b1) 8)
        (Z.lor (Z.shiftl (byte_val b2) 16) (Z.shiftl (byte_val b3) 24)))
  | _ => 0
  end.

Definition checksum (lenField : Z) (payload : bytes) : Z :=
  Crc32.sum32 [putUint32 lenField; payload].

(** Encode [payload] and append the frame to [dst]. *)
Definition appendRecord (dst payload : bytes) : bytes :=
  let n := u32 (len payload) in
  let hdr := putUint32 n ++ putUint32 (checksum n payload) in
  (dst ++ hdr) ++ payload.

Definition recordSize (payloadLen : Z) : Z := headerSize + payloadLen.

Definition decodeHeader (hdr : bytes) : Z * Z :=
  (uint32 (take 4 hdr), uint32 (drop 4 hdr)).

(** A reader over a file: the bytes still to come and the read error that
    follows them, [None] standing for the end of the file. *)
Record stream := Stream { rest : bytes; failing : option error }.

(** [io.ReadFull(r, buf)] for a buffer of [n] bytes. *)
Definition readFull (r : stream) (n : nat) : result (bytes * stream) :=
  if decide (n <= length (rest r))%nat
  then Ok (take n (rest r), Stream (drop n (rest r)) (failing r))
  else match failing r with
       | Some e => Fail e
       | None => Fail (Sentinel (match rest r with [] => EOF | _ => UnexpectedEOF end))
       end.

(** [io.CopyN(h, r, n)], the copied bytes being what the hash received. *)
Definition copyN (r : stream) (n : nat) : result bytes :=
  if decide (n <= length (rest r))%nat
  then Ok (take n (rest r))
  else match failing r with
       | Some e => Fail e
       | None => Fail (Sentinel EOF)
       end.

Definition matchesChecksum (r : stream) (length crc : Z) : result bool :=
  match copyN r (Z.to_nat length) with
  | Fail err =>
      if errorsIs err EOF || errorsIs err UnexpectedEOF then Ok false else Fail err
  | Ok payload => Ok (Crc32.sum32 [putUint32 length; payload] =? crc)
  end.

(** ** Little-endian words *)

Lemma length_putUint32 v : length (putUint32 v) = 4%nat.
Proof. done. Qed.

Lemma shift_byte x n i : 0 <= n → 0 <= i →
  Z.testbit (Z.shiftl (Z.shiftr x n mod 256) n) i =
  (n <=? i) && (i <? n + 8) && Z.testbit x i.
Proof.
  intros Hn Hi. change 256 with (2 ^ 8). destruct (Z.leb_spec n i); simpl.
  - rewrite Z.shiftl_spec by lia. destruct (Z.ltb_spec i (n + 8)); simpl.
    + rewrite Z.mod_pow2_bits_low, Z.shiftr_spec by lia. f_equal. lia.
    + rewrite Z.mod_pow2_bits_high by lia. done.
  - rewrite Z.shiftl_spec_low by lia. done.
Qed.

Lemma uint32_put v rest : is_u32 v → uint32 (putUint32 v ++ rest) = v.
Proof.
  intros Hv. simpl. rewrite !byte_val_of.
  apply Z.bits_inj'. intros i Hi. rewrite !Z.lor_spec, !shift_byte by lia.
  change 256 with (2 ^ 8).
  destruct (decide (i < 32)) as [H32|H32].
  - destruct (decide (i < 8)) as [H8|H8].
    + rewrite Z.mod_pow2_bits_low by lia.
      replace (8 <=? i) with false by lia. replace (16 <=? i) with false by lia.
      replace (24 <=? i) with false by lia. simpl. by rewrite orb_false_r.
    + rewrite Z.mod_pow2_bits_high by lia. simpl.
      replace (8 <=? i) with true by lia. simpl.
      destruct (Z.ltb_spec i (8 + 8)), (Z.leb_spec 16 i), (Z.ltb_spec i (16 + 8)),
        (Z.leb_spec 24 i), (Z.ltb_spec i (24 + 8)); try lia; simpl; rewrite ?orb_false_r; done.
  - assert (Hhi : Z.testbit v i = false).
    { rewrite <- (Z.mod_small v (2 ^ 32)) by exact Hv. apply Z.mod_pow2_bits_high. lia. }
    rewrite Hhi, Z.mod_pow2_bits_high by lia. by rewrite !andb_false_r.
Qed.

Lemma byte_bit_high b i : 8 <= i → Z.testbit (byte_val b) i = false.
Proof.
  intros Hi. rewrite <- (Z.mod_small (byte_val b) (2 ^ 8)) by apply byte_val_range.
  apply Z.mod_pow2_bits_high. lia.
Qed.

Lemma byte_of_bits z b :
  (∀ i, 0 <= i < 8 → Z.testbit z i = Z.testbit (byte_val b) i) → byte_of z = b.
Proof.
  intros H. apply byte_val_inj. rewrite byte_val_of. change 256 with (2 ^ 8).
  apply Z.bits_inj'. intros i Hi. destruct (decide (i < 8)).
  - rewrite Z.mod_pow2_bits_low by lia. apply H. lia.
  - rewrite Z.mod_pow2_bits_high, byte_bit_high by lia. done.
Qed.

(** A bit of a shifted byte, below, inside or above the byte. *)
Lemma shiftl_byte_bit b n i : 0 <= n →
  Z.testbit (Z.shiftl (byte_val b) n) i =
  if (n <=? i) && (i <? n + 8) then Z.testbit (byte_val b) (i - n) else false.
Proof.
  intros Hn. destruct (Z.leb_spec n i); simpl.
  - rewrite Z.shiftl_spec by lia. destruct (Z.ltb_spec i (n + 8)); [done|].
    apply byte_bit_high. lia.
  - destruct (decide (i < 0)); [apply Z.testbit_neg_r; lia|].
    apply Z.shiftl_spec_low. lia.
Qed.

Lemma put_uint32 b : length b = 4%nat → putUint32 (uint32 b) = b.
Proof.
  intros Hl. destruct b as [|b0 [|b1 [|b2 [|b3 [|]]]]]; try discriminate. clear Hl.
  unfold putUint32, uint32.
  assert (E0 : byte_val b0 = Z.shiftl (byte_val b0) 0) by (by rewrite Z.shiftl_0_r).
  rewrite E0.
  repeat f_equal; apply byte_of_bits; intros i Hi;
    rewrite ?Z.shiftr_spec, !Z.lor_spec, !shiftl_byte_bit by lia;
    repeat match goal with
    | |- context [(?x <=? ?y) && (?u <? ?v)] =>
        first [replace ((x <=? y) && (u <? v)) with true by lia
              |replace ((x <=? y) && (u <? v)) with false by lia]
    end; rewrite ?orb_false_r; simpl; f_equal; lia.
Qed.

Lemma uint32_range b : is_u32 (uint32 b).
Proof.
  unfold uint32, is_u32. destruct b as [|b0 [|b1 [|b2 [|b3 b]]]]; try lia.
  set (z := Z.lor _ _).
  assert (Hz : 0 <= z).
  { unfold z. repeat rewrite Z.lor_nonneg. rewrite !Z.shiftl_nonneg.
    pose proof (byte_val_range b0). pose proof (byte_val_range b1).
    pose proof (byte_val_range b2). pose proof (byte_val_range b3). lia. }
  split; [done|]. change 4294967296 with (2 ^ 32).
  apply Crc32.word_bits. split; [done|]. intros i Hi. unfold z.
  rewrite !Z.lor_spec, !shiftl_byte_bit, byte_bit_high by lia.
  repeat match goal with
  | |- context [(?x <=? ?y) && (?u <? ?v)] =>
      replace ((x <=? y) && (u <? v)) with false by lia
  end. done.
Qed.

Lemma checksum_u32 n p : is_u32 (checksum n p).
Proof. apply Crc32.sum32_u32. Qed.

(** ** Frames *)

(** The frame of one payload, and of several in order. *)
Definition frame (p : bytes) : bytes := appendRecord [] p.
Definition frames (ps : list bytes) : bytes := concat (map frame ps).

Lemma appendRecord_frame dst p : appendRecord dst p = dst ++ frame p.
Proof. unfold frame, appendRecord. by rewrite <- !app_assoc. Qed.

Lemma fold_appendRecord dst ps : fold_left appendRecord ps dst = dst ++ frames ps.
Proof.
  revert dst. induction ps as [|p ps IH]; intros dst; simpl.
  - by rewrite app_nil_r.
  - rewrite IH, appendRecord_frame, <- app_assoc. done.
Qed.

Lemma frames_app a b : frames (a ++ b) = frames a ++ frames b.
Proof. unfold frames. by rewrite map_app, concat_app. Qed.

Lemma frames_nil : frames [] = [].
Proof. done. Qed.

Lemma frames_cons p ps : frames (p :: ps) = frame p ++ frames ps.
Proof. done. Qed.

Lemma len_frame p : len (frame p) = recordSize (len p).
Proof.
  unfold frame, appendRecord, recordSize, headerSize, len.
  rewrite !length_app, !length_putUint32. simpl length. lia.
Qed.

Lemma length_frame p : length (frame p) = (8 + length p)%nat.
Proof. pose proof (len_frame p). unfold recordSize, headerSize, len in *. lia. Qed.

Lemma len_frames_ge ps : 8 * len ps <= len (frames ps).
Proof.
  induction ps as [|p ps IH]; [done|].
  rewrite frames_cons, len_app, len_frame, len_cons.
  unfold recordSize, headerSize. pose proof (len_nonneg p). lia.
Qed.

(** A payload the 32-bit length field can describe. *)
Definition fits32 (p : bytes) : Prop := is_u32 (len p).

Definition header (p : bytes) : bytes :=
  putUint32 (len p) ++ putUint32 (checksum (len p) p).

Lemma length_header p : length (header p) = 8%nat.
Proof. done. Qed.

Lemma frame_split p : fits32 p → frame p = header p ++ p.
Proof.
  intros Hp. unfold frame, appendRecord, header.
  rewrite u32_id by exact Hp. done.
Qed.

Lemma decodeHeader_header p : fits32 p →
  decodeHeader (header p) = (len p, checksum (len p) p).
Proof.
  intros Hp. unfold decodeHeader, header.
  rewrite take_app_length', drop_app_length' by done. f_equal.
  - rewrite <- (app_nil_r (putUint32 _)). by apply uint32_put.
  - rewrite <- (app_nil_r (putUint32 (checksum _ _))). apply uint32_put, checksum_u32.
Qed.

Lemma decode_frame p : fits32 p →
  decodeHeader (take 8 (frame p)) = (len p, checksum (len p) p)
  ∧ drop 8 (frame p) = p.
Proof.
  intros Hp. rewrite frame_split by done. split.
  - rewrite take_app_length' by done. by apply decodeHeader_header.
  - by rewrite drop_app_length'.
Qed.

(** Eight bytes whose fields describe the payload that follows are its header. *)
Lemma header_unique hdr p :
  length hdr = 8%nat → decodeHeader hdr = (len p, checksum (len p) p) → hdr = header p.
Proof.
  intros Hl H. unfold decodeHeader in H. injection H as H1 H2.
  unfold header. rewrite <- H1 at 1. rewrite <- H2.
  rewrite !put_uint32 by (rewrite ?length_take, ?length_drop; lia).
  by rewrite take_drop.
Qed.

Lemma frame_inj p q : fits32 p → fits32 q → frame p = frame q → p = q.
Proof.
  intros Hp Hq H. destruct (decode_frame p Hp) as [_ <-], (decode_frame q Hq) as [_ <-].
  by rewrite H.
Qed.

(** ** What the checksum detects *)

Lemma checksum_concat n p : checksum n p = Crc32.update 0 (putUint32 n ++ p).
Proof.
  unfold checksum. rewrite Crc32.sum32_concat. simpl. by rewrite app_nil_r.
Qed.

(** Damage to a payload confined to four consecutive bytes changes the
    checksum of the record. *)
Lemma checksum_burst n pre w w' post :
  length w = length w' → (length w <= 4)%nat → w ≠ w' →
  checksum n (pre ++ w ++ post) ≠ checksum n (pre ++ w' ++ post).
Proof.
  intros Hl H4 Hne. rewrite !checksum_concat, !app_assoc, <- !(app_assoc (putUint32 n ++ pre)).
  by apply Crc32.update_burst.
Qed.

(** [matchesChecksum] agrees with [checksum] on a whole payload, and answers
    no for a file that ends early. *)
Lemma matchesChecksum_whole p tail fe n :
  n = len p → ∀ crc, matchesChecksum (Stream (p ++ tail) fe) n crc = Ok (checksum n p =? crc).
Proof.
  intros -> crc. unfold matchesChecksum, copyN. simpl rest.
  unfold len. rewrite Nat2Z.id, decide_True by (rewrite length_app; lia).
  by rewrite take_app_length.
Qed.

Lemma matchesChecksum_short data n crc :
  len data < n → matchesChecksum (Stream data None) n crc = Ok false.
Proof.
  intros H. unfold matchesChecksum, copyN. simpl rest. unfold len in H.
  rewrite decide_False by lia. done.
Qed.

End Record.
