(* ===== verification/Disk.v ===== *)
(** * The directory the log lives in

    The operating-system calls src/internal/wal makes on its one flat
    directory, over a state the model can see three things of:

    - what the running process reads ([cur]);
    - what would survive a loss of power: the bytes last fsynced ([dur]), and
      for every name the bindings it had since the directory was last fsynced
      ([stale]);
    - the image after every call ([trail]), so that a statement about every
      moment of an operation is a statement about its trail.

    Calls fail according to a [plan]: a prefix of faults consumed one per call,
    success once it is used up.  Quantifying over the plan covers every
    combination of failing calls, and over the trail every point at which the
    process can die. *)

From S2P Require Import Prelude Errors.
Local Open Scope Z_scope.
Local Open Scope go_scope.

Create HintDb yields.

Module Disk.

Record file := File { cur : bytes; dur : bytes }.

Record image := Image {
  files : gmap bytes file;
  stale : gmap bytes (list (option file))
}.

(** [Trip e k]: the call fails with [e]; a write has by then stored [k] bytes,
    a read has returned [k]. *)
Inductive fault :=
| Pass
| Trip (e : error) (k : nat).

Record disk := Disk {
  img : image;
  plan : list fault;
  trail : list image
}.

(** ** Changes of an image *)

(** New contents for the file a name is bound to. *)
Definition set_file (n : bytes) (f : file) (i : image) : image :=
  Image (<[n := f]> (files i)) (stale i).

(** A new binding for a name: the old one may be what a crash leaves. *)
Definition bind_name (n : bytes) (ob : option file) (i : image) : image :=
  Image (match ob with Some f => <[n := f]> (files i) | None => delete n (files i) end)
        (<[n := (files i !! n) :: default [] (stale i !! n)]> (stale i)).

Definition call {A} (ok : image → result (A * image)) (bad : nat → image → image)
    : M disk A := λ d,
  match plan d with
  | Trip e k :: p =>
      let i := bad k (img d) in
      (Fail e, Disk i p (trail d ++ [i]))
  | p =>
      match ok (img d) with
      | Ok (a, i) => (Ok a, Disk i (tail p) (trail d ++ [i]))
      | Fail e => (Fail e, Disk (img d) (tail p) (trail d ++ [img d]))
      end
  end.

Definition unchanged (k : nat) (i : image) : image := i.

(** [os.OpenFile(n, O_CREATE|O_EXCL)] *)
Definition openExcl (n : bytes) : M disk unit :=
  call (λ i, match files i !! n with
             | Some _ => Fail (Sentinel Exist)
             | None => Ok (tt, bind_name n (Some (File [] [])) i)
             end) unchanged.

(** [os.OpenFile(n, O_CREATE|O_TRUNC)] *)
Definition openTrunc (n : bytes) : M disk unit :=
  call (λ i, match files i !! n with
             | Some f => Ok (tt, set_file n (File [] (dur f)) i)
             | None => Ok (tt, bind_name n (Some (File [] [])) i)
             end) unchanged.

(** [os.OpenFile(n, O_RDWR|O_CREATE)] *)
Definition openCreate (n : bytes) : M disk unit :=
  call (λ i, match files i !! n with
             | Some _ => Ok (tt, i)
             | None => Ok (tt, bind_name n (Some (File [] [])) i)
             end) unchanged.

(** [syscall.Flock] without waiting: another holder is a fault of the plan. *)
Definition flock (n : bytes) : M disk unit := call (λ i, Ok (tt, i)) unchanged.

(** [os.OpenFile(n, O_RDWR)], with or without [O_APPEND] *)
Definition openExisting (n : bytes) : M disk unit :=
  call (λ i, match files i !! n with
             | Some _ => Ok (tt, i)
             | None => Fail (Sentinel NotExist)
             end) unchanged.

(** [f.Stat().Size()] *)
Definition stat (n : bytes) : M disk Z :=
  call (λ i, match files i !! n with
             | Some f => Ok (len (cur f), i)
             | None => Fail (Sentinel NotExist)
             end) unchanged.

(** [f.Write(b)] on a file opened for appending *)
Definition write (n : bytes) (b : bytes) : M disk unit :=
  let put b i := match files i !! n with
                 | Some f => set_file n (File (cur f ++ b) (dur f)) i
                 | None => i
                 end in
  call (λ i, Ok (tt, put b i)) (λ k i, put (take k b) i).

(** [f.Sync()] *)
Definition fsync (n : bytes) : M disk unit :=
  call (λ i, match files i !! n with
             | Some f => Ok (tt, set_file n (File (cur f) (cur f)) i)
             | None => Ok (tt, i)
             end) unchanged.

(** [f.Close()] *)
Definition close (n : bytes) : M disk unit := call (λ i, Ok (tt, i)) unchanged.

(** [f.Truncate(size)] and [os.Truncate] *)
Definition truncate (n : bytes) (size : Z) : M disk unit :=
  call (λ i, match files i !! n with
             | Some f =>
                 let k := Z.to_nat size in
                 let c := take k (cur f) ++ replicate (k - length (cur f)) Byte.x00 in
                 Ok (tt, set_file n (File c (dur f)) i)
             | None => Fail (Sentinel NotExist)
             end) unchanged.

(** [os.Rename(a, b)] *)
Definition rename (a b : bytes) : M disk unit :=
  call (λ i, match files i !! a with
             | Some f => Ok (tt, bind_name b (Some f) (bind_name a None i))
             | None => Fail (Sentinel NotExist)
             end) unchanged.

(** [os.Remove(n)] *)
Definition remove (n : bytes) : M disk unit :=
  call (λ i, match files i !! n with
             | Some _ => Ok (tt, bind_name n None i)
             | None => Fail (Sentinel NotExist)
             end) unchanged.

(** [os.ReadFile(n)] *)
Definition readFile (n : bytes) : M disk bytes :=
  call (λ i, match files i !! n with
             | Some f => Ok (cur f, i)
             | None => Fail (Sentinel NotExist)
             end) unchanged.

(** [os.ReadDir], the names only *)
Definition readDir : M disk (list bytes) :=
  call (λ i, Ok (elements (dom (files i)), i)) unchanged.

(** [syncDir] of src/internal/wal/segment.go: open the directory, fsync it. *)
Definition syncDir : M disk unit :=
  call (λ i, Ok (tt, Image (files i) ∅)) unchanged.

(** Reading a file from the start to its end: all of it, or the bytes before a
    read error and that error. *)
Definition readAll (n : bytes) : M disk (bytes * option error) := λ d,
  let c := match files (img d) !! n with Some f => cur f | None => [] end in
  match plan d with
  | Trip e k :: p => (Ok (take k c, Some e), Disk (img d) p (trail d ++ [img d]))
  | p => (Ok (c, None), Disk (img d) (tail p) (trail d ++ [img d]))
  end.

(** ** What the process sees *)

Definition view (d : disk) : gmap bytes bytes := cur <$> files (img d).

(** What each call does to the view, whether it succeeds or not. *)
Section effects.
Implicit Types (d : disk) (n a b c : bytes).

Lemma view_lookup d n : view d !! n = cur <$> files (img d) !! n.
Proof. apply lookup_fmap. Qed.

(** Every call either tripped a fault or ran to its own outcome. *)
Lemma call_inv {A} (ok : image → result (A * image)) bad d r d' :
  call ok bad d = (r, d') →
  (∃ e k, r = Fail e ∧ img d' = bad k (img d)) ∨
  (∃ x i, ok (img d) = Ok (x, i) ∧ r = Ok x ∧ img d' = i) ∨
  (∃ e, ok (img d) = Fail e ∧ r = Fail e ∧ img d' = img d).
Proof.
  unfold call. intros H.
  destruct (plan d) as [|[|e k] p]; [..|injection H as <- <-; left; eauto];
    destruct (ok (img d)) as [[x i]|e] eqn:E; injection H as <- <-; right; eauto 8.
Qed.

Local Ltac inv_call H :=
  apply call_inv in H; unfold view, unchanged in *;
  destruct H as [(? & ? & -> & Himg) | [(? & ? & Hok & -> & Himg) | (? & Hok & -> & Himg)]].
Local Ltac finish :=
  match goal with H : img _ = _ |- _ => rewrite ?H end; simpl; rewrite ?fmap_insert, ?fmap_delete; simpl; eauto 6.

Lemma openExcl_inv n d r d' : openExcl n d = (r, d') →
  (r = Ok tt ∧ view d !! n = None ∧ view d' = <[n := []]> (view d)) ∨
  (∃ e, r = Fail e ∧ view d' = view d).
Proof.
  intros H. inv_call H; [right; finish | | right; finish].
  rewrite lookup_fmap. destruct (files (img d) !! n) eqn:E; [done|].
  injection Hok as <- <-. left. finish.
Qed.

Lemma openTrunc_inv n d r d' : openTrunc n d = (r, d') →
  (r = Ok tt ∧ view d' = <[n := []]> (view d)) ∨
  (∃ e, r = Fail e ∧ view d' = view d).
Proof.
  intros H. inv_call H; [right; finish | | right; finish].
  left. split; [by destruct x|].
  destruct (files (img d) !! n) eqn:E; injection Hok as _ <-; finish.
Qed.

Lemma openCreate_inv n d r d' : openCreate n d = (r, d') →
  (r = Ok tt ∨ ∃ e, r = Fail e) ∧ ∀ m, m ≠ n → view d' !! m = view d !! m.
Proof.
  intros H. inv_call H; [split; finish | | split; finish].
  split; [left; by destruct x|]. intros m Hm.
  destruct (files (img d) !! n) eqn:E; injection Hok as _ <-; finish.
  by rewrite lookup_insert_ne.
Qed.

Lemma openExisting_inv n d r d' : openExisting n d = (r, d') →
  (r = Ok tt ∧ is_Some (view d !! n) ∨ ∃ e, r = Fail e) ∧ view d' = view d.
Proof.
  intros H. inv_call H; [split; finish | | split; finish].
  rewrite lookup_fmap.
  destruct (files (img d) !! n) eqn:E; [|done]. injection Hok as <- <-.
  split; finish.
Qed.

Lemma stat_inv n d r d' : stat n d = (r, d') →
  ((∃ c, view d !! n = Some c ∧ r = Ok (len c)) ∨ ∃ e, r = Fail e) ∧ view d' = view d.
Proof.
  intros H. inv_call H; [split; finish | | split; finish].
  rewrite lookup_fmap.
  destruct (files (img d) !! n) eqn:E; [|done]. injection Hok as <- <-.
  split; finish.
Qed.

Lemma write_inv n b c d r d' : view d !! n = Some c → write n b d = (r, d') →
  (r = Ok tt ∧ view d' = <[n := c ++ b]> (view d)) ∨
  (∃ e k, r = Fail e ∧ view d' = <[n := c ++ take k b]> (view d)).
Proof.
  intros Hc H. rewrite view_lookup in Hc.
  destruct (files (img d) !! n) as [f|] eqn:E; [|done]. injection Hc as <-.
  inv_call H.
  - right. rewrite E in Himg. eexists _, _. split; [done|]. finish.
  - left. rewrite E in Hok. injection Hok as <- <-. split; [done|]. finish.
  - done.
Qed.

Lemma fsync_inv n d r d' : fsync n d = (r, d') →
  (r = Ok tt ∨ ∃ e, r = Fail e) ∧ view d' = view d.
Proof.
  intros H. inv_call H; [split; finish | | split; finish].
  split; [left; by destruct x|].
  destruct (files (img d) !! n) as [f|] eqn:E; injection Hok as _ <-; finish.
  rewrite insert_id; [done|]. by rewrite lookup_fmap, E.
Qed.

Lemma close_inv n d r d' : close n d = (r, d') →
  (r = Ok tt ∨ ∃ e, r = Fail e) ∧ view d' = view d.
Proof. intros H. inv_call H; [split; finish | | done]. injection Hok as <- <-. split; finish. Qed.

Lemma syncDir_inv d r d' : syncDir d = (r, d') →
  (r = Ok tt ∨ ∃ e, r = Fail e) ∧ view d' = view d.
Proof. intros H. inv_call H; [split; finish | | done]. injection Hok as <- <-. split; finish. Qed.

Lemma truncate_inv n size c d r d' : view d !! n = Some c → 0 <= size <= len c →
  truncate n size d = (r, d') →
  (r = Ok tt ∧ view d' = <[n := take (Z.to_nat size) c]> (view d)) ∨
  (∃ e, r = Fail e ∧ view d' = view d).
Proof.
  intros Hc Hs H. rewrite view_lookup in Hc.
  destruct (files (img d) !! n) as [f|] eqn:E; [|done]. injection Hc as <-.
  inv_call H; [right; finish | | right; finish].
  left. rewrite E in Hok. injection Hok as <- <-. split; [done|].
  unfold len in Hs. replace (Z.to_nat size - length (cur f))%nat with 0%nat in Himg by lia.
  rewrite app_nil_r in Himg. finish.
Qed.

Lemma rename_inv a b d r d' : rename a b d = (r, d') →
  (∃ c, r = Ok tt ∧ view d !! a = Some c ∧ view d' = <[b := c]> (delete a (view d))) ∨
  (∃ e, r = Fail e ∧ view d' = view d).
Proof.
  intros H. inv_call H; [right; finish | | right; finish].
  left. rewrite lookup_fmap. destruct (files (img d) !! a) as [f|] eqn:E; [|done].
  injection Hok as <- <-. exists (cur f). finish.
Qed.

Lemma remove_inv n d r d' : remove n d = (r, d') →
  (r = Ok tt ∧ is_Some (view d !! n) ∧ view d' = delete n (view d)) ∨
  (∃ e, r = Fail e ∧ view d' = view d).
Proof.
  intros H. inv_call H; [right; finish | | right; finish].
  left. rewrite lookup_fmap. destruct (files (img d) !! n) as [f|] eqn:E; [|done].
  injection Hok as <- <-. finish.
Qed.

Lemma readFile_inv n d r d' : readFile n d = (r, d') →
  ((∃ c, view d !! n = Some c ∧ r = Ok c) ∨ (∃ e, r = Fail e)) ∧ view d' = view d.
Proof.
  intros H. inv_call H; [split; finish | | split; finish].
  rewrite lookup_fmap.
  destruct (files (img d) !! n) eqn:E; [|done]. injection Hok as <- <-.
  split; finish.
Qed.

Lemma readDir_inv d r d' : readDir d = (r, d') →
  (r = Ok (elements (dom (view d))) ∨ (∃ e, r = Fail e)) ∧ view d' = view d.
Proof.
  intros H. inv_call H; [split; finish | | done]. injection Hok as <- <-.
  rewrite dom_fmap_L. split; finish.
Qed.

Lemma readAll_inv n d r d' : readAll n d = (r, d') →
  let c := default [] (view d !! n) in
  (r = Ok (c, None) ∨ ∃ e k, r = Ok (take k c, Some e)) ∧ view d' = view d.
Proof.
  unfold readAll, view. rewrite lookup_fmap. intros H.
  assert (Ec : match files (img d) !! n with Some f => cur f | None => [] end
               = default [] (cur <$> files (img d) !! n)) by (by destruct (_ !! n)).
  rewrite Ec in H.
  destruct (plan d) as [|[|e k] p]; injection H as <- <-; simpl; split; eauto.
Qed.
End effects.

(** With no fault left every call runs to its own outcome. *)
Lemma call_clean {A} (ok : image → result (A * image)) bad d :
  plan d = [] →
  call ok bad d =
  match ok (img d) with
  | Ok (a, i) => (Ok a, Disk i [] (trail d ++ [i]))
  | Fail e => (Fail e, Disk (img d) [] (trail d ++ [img d]))
  end.
Proof. intros H. unfold call. rewrite H. done. Qed.

(** ** Runs without a fault

    [yields m v a v']: on a directory showing [v], with no fault to come, [m]
    returns [a] and leaves [v'].  Unlike the inversion lemmas it is a statement
    of total correctness. *)

Definition yields {A} (m : M disk A) (v : gmap bytes bytes) (a : A) (v' : gmap bytes bytes) : Prop :=
  ∀ d, plan d = [] → view d = v → ∃ d', m d = (Ok a, d') ∧ plan d' = [] ∧ view d' = v'.

Section yields.
Implicit Types (v : gmap bytes bytes) (n c : bytes).

Lemma yields_ret {A} (a : A) v : yields (ret a) v a v.
Proof. intros d Hp Hv. by exists d. Qed.

Lemma yields_bind {A B} (m : M disk A) (k : A → M disk B) v a v1 b v2 :
  yields m v a v1 → yields (k a) v1 b v2 → yields (bind m k) v b v2.
Proof.
  intros Hm Hk d Hp Hv. destruct (Hm d Hp Hv) as (d1 & E & Hp1 & Hv1).
  destruct (Hk d1 Hp1 Hv1) as (d2 & E2 & Hp2 & Hv2). exists d2. unfold bind. by rewrite E, E2.
Qed.

Lemma yields_try {A} (m : M disk A) v a v' : yields m v a v' → yields (try m) v (Ok a) v'.
Proof. intros Hm d Hp Hv. destruct (Hm d Hp Hv) as (d1 & E & H). exists d1. unfold try. by rewrite E. Qed.

Lemma yields_wrapping {A} w (m : M disk A) v a v' : yields m v a v' → yields (wrapping w m) v a v'.
Proof. intros Hm d Hp Hv. destruct (Hm d Hp Hv) as (d1 & E & H). exists d1. unfold wrapping. by rewrite E. Qed.

Lemma yields_on_error {A} (m : M disk A) (k : M disk unit) v a v' : yields m v a v' → yields (on_error m k) v a v'.
Proof. intros Hm d Hp Hv. destruct (Hm d Hp Hv) as (d1 & E & H). exists d1. unfold on_error. by rewrite E. Qed.

(** A call that finds what it needs. *)
Lemma yields_call {A} (ok : image → result (A * image)) bad v a v' :
  (∀ i, cur <$> files i = v → ∃ i', ok i = Ok (a, i') ∧ cur <$> files i' = v') →
  yields (call ok bad) v a v'.
Proof.
  intros H d Hp Hv. destruct (H (img d) Hv) as (i' & E & Hv'). rewrite call_clean by done.
  rewrite E. eexists. split; [done|]. by split.
Qed.

Local Ltac by_call :=
  apply yields_call; intros i <-; rewrite ?lookup_fmap in *;
  destruct (files i !! _) as [fl|] eqn:E; simpl in *; simplify_eq; try (exfalso; done);
  eexists; (split; [done|]); simpl; rewrite ?fmap_insert, ?fmap_delete; simpl; try done.

Lemma yields_openExisting n v : is_Some (v !! n) → yields (openExisting n) v tt v.
Proof. intros [c Hc]. unfold openExisting. by_call. Qed.

Lemma yields_openCreate n v :
  yields (openCreate n) v tt (match v !! n with Some _ => v | None => <[n := []]> v end).
Proof. destruct (v !! n) eqn:Hn; unfold openCreate; by_call. Qed.

Lemma yields_remove n v : is_Some (v !! n) → yields (remove n) v tt (delete n v).
Proof. intros [c Hc]. unfold remove. by_call. Qed.

Lemma yields_openExcl n v : v !! n = None → yields (openExcl n) v tt (<[n := []]> v).
Proof. intros Hn. unfold openExcl. by_call. Qed.

Lemma yields_openTrunc n v : yields (openTrunc n) v tt (<[n := []]> v).
Proof. unfold openTrunc. by_call. Qed.

Lemma yields_stat n c v : v !! n = Some c → yields (stat n) v (len c) v.
Proof. intros Hn. unfold stat. by_call. Qed.

Lemma yields_readFile n c v : v !! n = Some c → yields (readFile n) v c v.
Proof. intros Hn. unfold readFile. by_call. Qed.

Lemma yields_fsync n v : yields (fsync n) v tt v.
Proof.
  unfold fsync. by_call. rewrite insert_id; [done|]. by rewrite lookup_fmap, E.
Qed.

Lemma yields_write n b c v : v !! n = Some c → yields (write n b) v tt (<[n := c ++ b]> v).
Proof. intros Hn. unfold write. by_call. Qed.

Lemma yields_truncate n size c v : v !! n = Some c → 0 <= size <= len c →
  yields (truncate n size) v tt (<[n := take (Z.to_nat size) c]> v).
Proof.
  intros Hn Hs. unfold truncate. by_call.
  replace (Z.to_nat size - length (cur fl))%nat with 0%nat by (unfold len in Hs; lia).
  by rewrite app_nil_r.
Qed.

Lemma yields_rename a b c v : v !! a = Some c → yields (rename a b) v tt (<[b := c]> (delete a v)).
Proof. intros Hn. unfold rename. by_call. Qed.

Lemma yields_plain {A} (f : image → A) (g : image → image) v a bad :
  (∀ i, files (g i) = files i) → (∀ i, cur <$> files i = v → f i = a) →
  yields (call (λ i, Ok (f i, g i)) bad) v a v.
Proof.
  intros Hg Hf. apply yields_call. intros i Hi. eexists. split; [by rewrite Hf|]. by rewrite Hg.
Qed.

Lemma yields_close n v : yields (close n) v tt v.
Proof. by apply (yields_plain (λ _, tt) (λ i, i)). Qed.

Lemma yields_flock n v : yields (flock n) v tt v.
Proof. by apply (yields_plain (λ _, tt) (λ i, i)). Qed.

Lemma yields_syncDir v : yields syncDir v tt v.
Proof. by apply (yields_plain (λ _, tt) (λ i, Image (files i) ∅)). Qed.

Lemma yields_readDir v : yields readDir v (elements (dom v)) v.
Proof.
  apply (yields_plain (λ i, elements (dom (files i))) (λ i, i)); [done|].
  intros i <-. by rewrite dom_fmap_L.
Qed.

Lemma yields_readAll n c v : v !! n = Some c → yields (readAll n) v (c, None) v.
Proof.
  intros Hn d Hp Hv. unfold readAll. rewrite Hp. rewrite <- Hv, view_lookup in Hn.
  destruct (files (img d) !! n) as [fl|]; [|done]. simpl in Hn. injection Hn as ->. by eexists.
Qed.

(** A call that fails for what it finds. *)
Lemma readFile_absent n d : plan d = [] → view d !! n = None →
  ∃ d', readFile n d = (Fail (Sentinel NotExist), d') ∧ plan d' = [] ∧ view d' = view d.
Proof.
  intros Hp Hn. unfold readFile. rewrite call_clean by done. rewrite view_lookup in Hn.
  destruct (files (img d) !! n); [done|]. by eexists.
Qed.

Lemma remove_absent n d : plan d = [] → view d !! n = None →
  ∃ d', remove n d = (Fail (Sentinel NotExist), d') ∧ plan d' = [] ∧ view d' = view d.
Proof.
  intros Hp Hn. unfold remove. rewrite call_clean by done. rewrite view_lookup in Hn.
  destruct (files (img d) !! n); [done|]. by eexists.
Qed.
End yields.

#[export] Hint Resolve yields_ret yields_try yields_wrapping yields_on_error yields_openExisting
  yields_openExcl yields_openTrunc yields_stat yields_readFile yields_fsync yields_write
  yields_rename yields_close yields_flock yields_syncDir yields_readDir yields_readAll : yields.

(** ** Loss of power

    After it, a file holds at least the bytes that have not changed since it
    was last fsynced, then anything; a name has its current binding or one it
    had since the directory was last fsynced. *)

Fixpoint common_prefix (a b : bytes) : bytes :=
  match a, b with
  | x :: a', y :: b' => if bool_decide (x = y) then x :: common_prefix a' b' else []
  | _, _ => []
  end.

Definition survives (f : file) (c : bytes) : Prop :=
  if decide (cur f = dur f) then c = cur f
  else common_prefix (cur f) (dur f) `prefix_of` c.

Definition power_loss (i : image) (m : gmap bytes bytes) : Prop :=
  ∀ n, let bindings := (files i !! n) :: default [] (stale i !! n) in
       match m !! n with
       | Some c => ∃ f, Some f ∈ bindings ∧ survives f c
       | None => None ∈ bindings
       end.

(** ** Crash triples

    [triple P I m Q]: started in an image satisfying [P], [m] ends with a
    result and an image satisfying [Q], and every image on the way satisfies
    [I], whatever calls fail. *)

Definition triple {A} (P I : image → Prop) (m : M disk A) (Q : result A → image → Prop) : Prop :=
  ∀ d r d', P (img d) → m d = (r, d') →
    Q r (img d') ∧ ∃ added, trail d' = trail d ++ added ∧ Forall I added.

Section triples.
Context (I : image → Prop).

Lemma triple_ret {A} (P : image → Prop) (a : A) (Q : result A → image → Prop) :
  (∀ i, P i → Q (Ok a) i) → triple P I (ret a) Q.
Proof.
  intros H d r d' HP [= <- <-]. split; [by apply H|]. exists []. by rewrite app_nil_r.
Qed.

Lemma triple_throw {A} (P : image → Prop) e (Q : result A → image → Prop) :
  (∀ i, P i → Q (Fail e) i) → triple P I (throw e) Q.
Proof.
  intros H d r d' HP [= <- <-]. split; [by apply H|]. exists []. by rewrite app_nil_r.
Qed.

Lemma triple_call {A} (P : image → Prop) (ok : image → result (A * image)) bad Q :
  (∀ i, P i → match ok i with
              | Ok (a, i') => I i' ∧ Q (Ok a) i'
              | Fail e => I i ∧ Q (Fail e) i
              end) →
  (∀ i k e, P i → I (bad k i) ∧ Q (Fail e) (bad k i)) →
  triple P I (call ok bad) Q.
Proof.
  intros Hok Hbad d r d' HP H. unfold call in H.
  destruct (plan d) as [|[|e k] p].
  3: { injection H as <- <-. destruct (Hbad (img d) k e HP). simpl. split; [done|].
       eexists. split; [done|]. by repeat constructor. }
  all: specialize (Hok (img d) HP); destruct (ok (img d)) as [[a i']|e];
    injection H as <- <-; destruct Hok; simpl; (split; [done|]);
    eexists; (split; [done|]); by repeat constructor.
Qed.

Lemma triple_bind {A B} (P : image → Prop) (m : M disk A) (k : A → M disk B) Q R :
  triple P I m Q →
  (∀ a, triple (Q (Ok a)) I (k a) R) →
  (∀ e i, Q (Fail e) i → R (Fail e) i) →
  triple P I (bind m k) R.
Proof.
  intros Hm Hk He d r d' HP H. unfold bind in H.
  destruct (m d) as [[a|e] d1] eqn:E; destruct (Hm _ _ _ HP E) as (HQ & a1 & Ha1 & HI1).
  - destruct (Hk a _ _ _ HQ H) as (HR & a2 & Ha2 & HI2). split; [done|].
    exists (a1 ++ a2). rewrite Ha2, Ha1, app_assoc. split; [done|]. by apply Forall_app.
  - injection H as <- <-. split; [by apply He|]. by exists a1.
Qed.

Lemma triple_try {A} (P : image → Prop) (m : M disk A) (Q : result (result A) → image → Prop) :
  triple P I m (λ r, Q (Ok r)) → triple P I (try m) Q.
Proof.
  intros Hm d r d' HP H. unfold try in H. destruct (m d) as [r1 d1] eqn:E.
  injection H as <- <-. by apply (Hm d).
Qed.

Lemma triple_on_error {A} (P : image → Prop) (m : M disk A) c Q R :
  triple P I m Q →
  (∀ a i, Q (Ok a) i → R (Ok a) i) →
  (∀ e, triple (Q (Fail e)) I c (λ _, R (Fail e))) →
  triple P I (on_error m c) R.
Proof.
  intros Hm Ho Hc d r d' HP H. unfold on_error in H.
  destruct (m d) as [[a|e] d1] eqn:E; destruct (Hm _ _ _ HP E) as (HQ & a1 & Ha1 & HI1).
  - injection H as <- <-. split; [by apply Ho|]. by exists a1.
  - destruct (c d1) as [rc d2] eqn:E2. simpl in H. injection H as <- <-.
    destruct (Hc e _ _ _ HQ E2) as (HR & a2 & Ha2 & HI2). split; [done|].
    exists (a1 ++ a2). rewrite Ha2, Ha1, app_assoc. split; [done|]. by apply Forall_app.
Qed.

Lemma triple_weaken {A} (P P' : image → Prop) (m : M disk A) (Q Q' : result A → image → Prop) :
  triple P I m Q → (∀ i, P' i → P i) → (∀ r i, Q r i → Q' r i) → triple P' I m Q'.
Proof.
  intros H HP HQ d r d' H' E. destruct (H _ _ _ (HP _ H') E) as [? ?]. split; auto.
Qed.
End triples.

(** The bindings a name can have after a loss of power. *)
Definition bindings (i : image) (n : bytes) : list (option file) :=
  (files i !! n) :: default [] (stale i !! n).

Lemma bindings_set_ne i n m fl : n ≠ m → bindings (set_file n fl i) m = bindings i m.
Proof. intros H. unfold bindings, set_file. simpl. by rewrite lookup_insert_ne. Qed.

Lemma bindings_bind_ne i n m ob : n ≠ m → bindings (bind_name n ob i) m = bindings i m.
Proof.
  intros H. unfold bindings, bind_name. simpl.
  rewrite (lookup_insert_ne (stale i)) by done.
  destruct ob; [by rewrite lookup_insert_ne | by rewrite lookup_delete_ne].
Qed.

Lemma bindings_bind i n ob : bindings (bind_name n ob i) n = ob :: bindings i n.
Proof.
  unfold bindings, bind_name. simpl. rewrite lookup_insert_eq. simpl.
  destruct ob; [by rewrite lookup_insert_eq | by rewrite lookup_delete_eq].
Qed.

(** A property of the bindings a name can have after a loss of power. *)
Definition guarding (n : bytes) (ok : list (option file) → Prop) (i : image) : Prop := ok (bindings i n).

Section guarding.
Context (n : bytes) (ok : list (option file) → Prop).
Implicit Types (i : image).

(** A change to the file of a name: to its own one if the property allows it. *)
Lemma guarding_set p fl i :
  (p = n → ∀ f0 bs, files i !! p = Some f0 → ok (Some f0 :: bs) → ok (Some fl :: bs)) → is_Some (files i !! p) →
  guarding n ok i → guarding n ok (set_file p fl i).
Proof.
  intros H [f0 Hf] Hi. unfold guarding in *. destruct (decide (p = n)) as [->|Hp]; [|by rewrite bindings_set_ne].
  unfold bindings, set_file in *. simpl. rewrite lookup_insert_eq. rewrite Hf in Hi. by apply (H eq_refl f0).
Qed.

Lemma guarding_bind_ne p ob i : p ≠ n → guarding n ok i → guarding n ok (bind_name p ob i).
Proof. intros Hp. unfold guarding. by rewrite bindings_bind_ne. Qed.

Lemma guarding_settle i : (∀ b bs, ok (b :: bs) → ok [b]) → guarding n ok i → guarding n ok (Image (files i) ∅).
Proof. unfold guarding, bindings. simpl. rewrite lookup_empty. eauto. Qed.
End guarding.

End Disk.
