(* ===== verification/Segment.v ===== *)
(** * Segments (src/internal/wal/segment.go)

    Segment names, the creation of a segment file, and [scanSegment], the
    recovery scan that decides how much of a file is intact.  The theorems
    describe the scan on every input: what it accepts is exactly a sequence of
    frames, it keeps all of an intact prefix, it tells a torn tail from damage
    in front of intact data, and a read error never makes it cut anything. *)

From stdpp Require Import strings.
From S2P Require Import Prelude Errors Text Record Disk.
Local Open Scope Z_scope.
Local Open Scope go_scope.

Module Segment.
Import Record.

(** The [f] field of the Go struct: nil, an open write handle on the path, or a
    handle [Close] has been called on, which refuses everything. *)
Inductive handle := HNil | HOpen | HClosed.

#[global] Instance handle_eq_dec : EqDecision handle.
Proof. solve_decision. Defined.

Record segment := Seg {
  baseLSN : Z;
  path : bytes;
  prevEnd : Z;
  f : handle;
  size : Z;
  count : Z
}.

Definition lastLSN (s : segment) : Z := u64 (baseLSN s + count s - 1).

(** The loop of [lastRecordLSN] runs from the newest segment down. *)
Fixpoint lastRecordLSN_from (newest_first : list segment) : Z :=
  match newest_first with
  | [] => 0
  | s :: older => if 0 <? count s then lastLSN s else lastRecordLSN_from older
  end.

Definition lastRecordLSN (segs : list segment) : Z := lastRecordLSN_from (rev segs).

Definition segmentSuffix : bytes := Text.str ".log"%string.

Definition segmentName (baseLSN prevEnd : Z) : bytes :=
  Text.pad20 baseLSN ++ [Byte.x2e] ++ Text.pad20 prevEnd ++ segmentSuffix.

Definition parseSegmentName (name : bytes) : option (Z * Z) :=
  if negb (Text.hasSuffix name segmentSuffix) then None
  else match Text.cut (Text.trimSuffix name segmentSuffix) Byte.x2e with
       | None => None
       | Some (base, prev) =>
           match Text.parseUint base with
           | None => None
           | Some b =>
               match Text.parseUint prev with
               | None => None
               | Some p => Some (b, p)
               end
           end
       end.

(** [discard]: both failures are moot. *)
Definition discard (s : segment) : M Disk.disk unit :=
  _ <- (match f s with HNil => ret (Ok tt) | _ => try (Disk.close (path s)) end) ;;
  _ <- try (Disk.remove (path s)) ;;
  ret tt.

(** The retry of [createSegment] when the name is taken by an empty file. *)
Definition clearEmpty (path : bytes) (first : result unit) : M Disk.disk (result unit) :=
  match first with
  | Fail err =>
      if errorsIs err Exist then
        st <- try (Disk.stat path) ;;
        match st with
        | Ok size =>
            if size =? 0 then
              rm <- try (Disk.remove path) ;;
              match rm with
              | Ok _ => try (Disk.openExcl path)
              | Fail _ => ret first
              end
            else ret first
        | Fail _ => ret first
        end
      else ret first
  | Ok _ => ret first
  end.

Definition createSegment (baseLSN prevEnd : Z) : M Disk.disk segment :=
  let path := segmentName baseLSN prevEnd in
  opened <- try (Disk.openExcl path) ;;
  opened <- clearEmpty path opened ;;
  match opened with
  | Fail err => throw err
  | Ok _ =>
      let s := Seg baseLSN path prevEnd HOpen 0 0 in
      on_error Disk.syncDir (discard s) ;;;
      ret s
  end.

(** ** The recovery scan *)

(** The four results of [scanSegment]. *)
Record scanned := Scanned {
  n_records : Z;
  good : Z;
  truncated : bool;
  scan_err : option error
}.

(** One iteration: stop with an answer, or go on after a good record. *)
Inductive scan_next :=
| Stop (r : scanned)
| More (r : stream) (count good : Z).

Definition scan_step (total maxRecordBytes : Z) (r : stream) (count good : Z) : scan_next :=
  match readFull r 8 with
  | Fail err =>
      if errorsIs err EOF then Stop (Scanned count good (negb (good =? total)) None)
      else if errorsIs err UnexpectedEOF then Stop (Scanned count good true None)
      else Stop (Scanned 0 0 false (Some err))
  | Ok (hdr, r) =>
      let '(length, crc) := decodeHeader hdr in
      if u32 maxRecordBytes <? length then
        if good + recordSize length <=? total then
          match matchesChecksum r length crc with
          | Fail err => Stop (Scanned 0 0 false (Some err))
          | Ok true =>
              Stop (Scanned 0 0 false (Some (Errorf "record above the configured MaxRecordBytes"%string [Sentinel RecordTooLarge])))
          | Ok false => Stop (Scanned count good true None)
          end
        else Stop (Scanned count good true None)
      else
        match readFull r (Z.to_nat length) with
        | Fail err =>
            if errorsIs err EOF || errorsIs err UnexpectedEOF
            then Stop (Scanned count good true None)
            else Stop (Scanned 0 0 false (Some err))
        | Ok (payload, r) =>
            if negb (checksum length payload =? crc) then
              if good + recordSize length <? total
              then Stop (Scanned count good false
                     (Some (Errorf "record fails its checksum with intact bytes after it"%string [Sentinel Corrupt])))
              else Stop (Scanned count good true None)
            else More r (count + 1) (good + recordSize length)
        end
  end.

(** The [for] loop.  Each turn that goes on has consumed a header, so one more
    turn than the file has bytes is enough; [None] is never returned then. *)
Fixpoint scan_loop (fuel : nat) (total maxRecordBytes : Z) (r : stream) (count good : Z)
    : option scanned :=
  match fuel with
  | O => None
  | S fuel =>
      match scan_step total maxRecordBytes r count good with
      | Stop res => Some res
      | More r count good => scan_loop fuel total maxRecordBytes r count good
      end
  end.

(** The scan of an open file of [total] bytes of which the reader delivers
    [data] and then [failing]. *)
Definition scan (total maxRecordBytes : Z) (data : bytes) (failing : option error)
    : option scanned :=
  scan_loop (S (length data)) total maxRecordBytes (Stream data failing) 0 0.

Definition scanSegment (path : bytes) (maxRecordBytes : Z) : M Disk.disk (option scanned) :=
  Disk.openExisting path ;;;
  total <- Disk.stat path ;;
  contents <- Disk.readAll path ;;
  let '(data, failing) := contents in
  ret (scan total maxRecordBytes data failing).

(** ** Names *)

Lemma parse_segmentName b p : is_u64 b → is_u64 p → parseSegmentName (segmentName b p) = Some (b, p).
Proof.
  intros Hb Hp. unfold parseSegmentName, segmentName.
  rewrite !app_assoc, Text.hasSuffix_app, Text.trimSuffix_app. simpl negb. cbv iota.
  rewrite <- app_assoc. change ([Byte.x2e] ++ Text.pad20 p) with (Byte.x2e :: Text.pad20 p).
  rewrite Text.cut_app by apply Text.digits_no_dot, Text.fixed_digits_are_digits.
  by rewrite !Text.parse_pad20.
Qed.

Lemma segmentName_inj b p b' p' :
  is_u64 b → is_u64 p → is_u64 b' → is_u64 p' →
  segmentName b p = segmentName b' p' → b = b' ∧ p = p'.
Proof.
  intros Hb Hp Hb' Hp' H.
  pose proof (parse_segmentName b p Hb Hp) as E.
  rewrite H, parse_segmentName in E by done. by injection E.
Qed.

Lemma length_segmentName b p : length (segmentName b p) = 45%nat.
Proof.
  unfold segmentName, Text.pad20. rewrite !length_app, !Text.length_fixed_digits. done.
Qed.

(** ** Creation *)

(** An operation wrapped in [try] does not fail itself. *)
Lemma bind_try_inv {S A B} (m : M S A) (k : result A → M S B) s r s' :
  bind (try m) k s = (r, s') → ∃ x s1, m s = (x, s1) ∧ k x s1 = (r, s').
Proof.
  intros H. apply bind_inv in H as [(x & s1 & H1 & H)|(e & H & _)];
    [apply try_inv in H1 as (x' & H1 & [= ->]); eauto | by apply try_inv in H as (? & _ & [=])].
Qed.

Lemma discard_view s d r d' : discard s d = (r, d') →
  ∀ n, n ≠ path s → Disk.view d' !! n = Disk.view d !! n.
Proof.
  unfold discard. intros H n Hn.
  assert (Hrm : ∀ d1, Disk.view d1 = Disk.view d →
    (_ <- try (Disk.remove (path s)) ;; ret tt) d1 = (r, d') → Disk.view d' !! n = Disk.view d !! n).
  { intros d1 V1 E. apply bind_try_inv in E as (x & d2 & H2 & E). injection E as <- <-.
    apply Disk.remove_inv in H2 as [(_ & _ & ->)|(? & _ & ->)];
      rewrite V1; [by apply lookup_delete_ne | done]. }
  destruct (f s); [by apply (Hrm d)|..];
    apply bind_try_inv in H as (x & d1 & H1 & H);
    apply Disk.close_inv in H1 as [_ V1]; by apply (Hrm d1).
Qed.

Lemma clearEmpty_view path first d r d' : clearEmpty path first d = (r, d') →
  ∃ out, r = Ok out ∧
    (out = first ∧ Disk.view d' = Disk.view d ∨
     (∃ e0, first = Fail e0) ∧
       ((∃ e, out = Fail e) ∧ (∀ n, n ≠ path → Disk.view d' !! n = Disk.view d !! n) ∨
        out = Ok tt ∧ Disk.view d !! path = Some [] ∧ Disk.view d' = <[path := []]> (Disk.view d))).
Proof.
  assert (Hkeep : ∀ (d0 d1 : Disk.disk) r0, Disk.view d0 = Disk.view d → ret first d0 = (r0, d1) →
    ∃ out, r0 = Ok out ∧ (out = first ∧ Disk.view d1 = Disk.view d ∨
     (∃ e0, first = Fail e0) ∧
       ((∃ e, out = Fail e) ∧ (∀ n, n ≠ path → Disk.view d1 !! n = Disk.view d !! n) ∨
        out = Ok tt ∧ Disk.view d !! path = Some [] ∧ Disk.view d1 = <[path := []]> (Disk.view d)))).
  { intros d0 d1 r0 V [= <- <-]. eauto. }
  unfold clearEmpty. intros H. destruct first as [u|err]; [by apply (Hkeep d)|].
  destruct (errorsIs err Exist); [|by apply (Hkeep d)].
  apply bind_try_inv in H as (st & d1 & H1 & H). apply Disk.stat_inv in H1 as [Hst V1].
  destruct st as [sz|e]; [|by apply (Hkeep d1)].
  destruct (Z.eqb_spec sz 0) as [->|]; [|by apply (Hkeep d1)].
  destruct Hst as [(c & Hc & [= E])|[? [=]]].
  assert (c = []) as -> by (destruct c; [done | rewrite len_cons in E; pose proof (len_nonneg c); lia]).
  apply bind_try_inv in H as (rm & d2 & H2 & H).
  apply Disk.remove_inv in H2 as [(-> & _ & V2)|(e & -> & V2)]; [|apply (Hkeep d2); [by rewrite V2|done]].
  apply try_inv in H as (op & H & ->). eexists. split; [done|]. right. split; [by eexists|].
  apply Disk.openExcl_inv in H as [(-> & _ & V3)|(e & -> & V3)].
  - right. rewrite V3, V2, V1, insert_delete_eq. done.
  - left. split; [by eexists|]. intros n Hn. rewrite V3, V2, V1. by apply lookup_delete_ne.
Qed.

(** A segment that was created is empty and its name was free or held an empty
    file; one that was not leaves every other file alone. *)
Lemma createSegment_inv b p d r d' : createSegment b p d = (r, d') →
  let n := segmentName b p in
  (r = Ok (Seg b n p HOpen 0 0) ∧ (Disk.view d !! n = None ∨ Disk.view d !! n = Some []) ∧
   Disk.view d' = <[n := []]> (Disk.view d)) ∨
  (∃ e, r = Fail e ∧ ∀ m, m ≠ n → Disk.view d' !! m = Disk.view d !! m).
Proof.
  unfold createSegment. intros H. simpl. set (n := segmentName b p) in *.
  apply bind_try_inv in H as (o & d1 & H1 & H).
  apply bind_inv in H as [(o2 & d2 & H2 & H)|(e & H & ->)].
  2: { by apply clearEmpty_view in H as (out & [=] & _). }
  apply clearEmpty_view in H2 as (out & [= <-] & Hcl).
  assert (Hv : match o2 with
    | Ok _ => (Disk.view d !! n = None ∨ Disk.view d !! n = Some []) ∧ Disk.view d2 = <[n := []]> (Disk.view d)
    | Fail _ => ∀ m, m ≠ n → Disk.view d2 !! m = Disk.view d !! m
    end).
  { apply Disk.openExcl_inv in H1 as [(-> & Hn & V1)|(e & -> & V1)].
    - destruct Hcl as [(-> & V2)|((? & [=]) & _)]. rewrite V2, V1. auto.
    - rewrite <- V1. destruct Hcl as [(-> & V2)|(_ & [((e' & ->) & V2)|(-> & Hn & V2)])]; auto.
      intros m Hm. by rewrite V2. }
  destruct o2 as [[]|e].
  - destruct Hv as [Hn V2].
    apply bind_inv in H as [([] & d3 & H3 & H)|(e & H & ->)].
    + injection H as <- <-. left. split; [done|]. split; [done|].
      apply on_error_inv in H3 as [(? & H3 & _)|(? & ? & ? & _ & _ & [=])].
      apply Disk.syncDir_inv in H3 as [_ ->]. done.
    + right. exists e. split; [done|]. intros m Hm.
      apply on_error_inv in H as [(? & _ & [=])|(e1 & d3 & rc & H3 & Hd & _)].
      rewrite (discard_view _ _ _ _ Hd) by done.
      apply Disk.syncDir_inv in H3 as [_ ->]. rewrite V2. by apply lookup_insert_ne.
  - injection H as <- <-. right. eauto.
Qed.

Lemma yields_createSegment b p v : v !! segmentName b p = None →
  Disk.yields (createSegment b p) v (Seg b (segmentName b p) p HOpen 0 0) (<[segmentName b p := []]> v).
Proof.
  intros Hn. unfold createSegment.
  eapply Disk.yields_bind; [by apply Disk.yields_try, Disk.yields_openExcl|].
  eapply Disk.yields_bind; [apply Disk.yields_ret|].
  eapply Disk.yields_bind; [apply Disk.yields_on_error, Disk.yields_syncDir | apply Disk.yields_ret].
Qed.

Lemma yields_scanSegment path max c sc v :
  v !! path = Some c → scan (len c) max c None = Some sc →
  Disk.yields (scanSegment path max) v (Some sc) v.
Proof.
  intros Hc Hs. unfold scanSegment.
  eapply Disk.yields_bind; [apply Disk.yields_openExisting; by eexists|].
  eapply Disk.yields_bind; [by apply Disk.yields_stat|].
  eapply Disk.yields_bind; [by apply Disk.yields_readAll|].
  cbv beta iota. rewrite Hs. apply Disk.yields_ret.
Qed.

(** ** Scanning *)

Section scan.
Context (max : Z) (Hmax : 0 <= max < 4294967296 - 8).

(** A payload the log can have written under the limit. *)
Definition payload_ok (p : bytes) : Prop := len p <= max.

Lemma payload_fits p : payload_ok p → fits32 p.
Proof using Hmax. unfold payload_ok, fits32, is_u32. pose proof (len_nonneg p). lia. Qed.

Lemma u32_max : u32 max = max.
Proof using Hmax. apply u32_id. unfold is_u32. lia. Qed.

Lemma readFull_app (a b : bytes) fe : readFull (Stream (a ++ b) fe) (length a) = Ok (a, Stream b fe).
Proof.
  unfold readFull. simpl rest. rewrite decide_True by (rewrite length_app; lia).
  by rewrite take_app_length, drop_app_length.
Qed.

(** A good frame in front is one turn of the loop. *)
Lemma scan_step_good total p tail fe c g : payload_ok p →
  scan_step total max (Stream (frame p ++ tail) fe) c g
  = More (Stream tail fe) (c + 1) (g + recordSize (len p)).
Proof using Hmax.
  intros Hp. pose proof (payload_fits p Hp) as Hf.
  unfold scan_step. rewrite frame_split, <- app_assoc by done.
  rewrite <- (length_header p), readFull_app, decodeHeader_header by done.
  rewrite u32_max. unfold payload_ok in Hp.
  replace (max <? len p) with false by lia.
  unfold len at 1. rewrite Nat2Z.id, readFull_app.
  by rewrite Z.eqb_refl.
Qed.

Lemma scan_loop_good fuel total ps tail fe c g : Forall payload_ok ps →
  scan_loop (length ps + fuel) total max (Stream (frames ps ++ tail) fe) c g
  = scan_loop fuel total max (Stream tail fe) (c + len ps) (g + len (frames ps)).
Proof using Hmax.
  intros H. revert c g. induction H as [|p ps Hp Hps IH]; intros c g.
  - simpl. rewrite len_nil. f_equal; unfold len; simpl; lia.
  - simpl length. simpl Nat.add. cbn [scan_loop].
    rewrite frames_cons, <- app_assoc, scan_step_good by done.
    rewrite IH, len_app, len_frame, len_cons. f_equal; lia.
Qed.

(** A turn that goes on has consumed at least a header. *)
Lemma scan_step_more total r c g r' c' g' :
  scan_step total max r c g = More r' c' g' → (length (rest r') < length (rest r))%nat.
Proof.
  unfold scan_step, readFull, matchesChecksum. intros E.
  repeat (case_match; try discriminate); injection E as <- _ _.
  all: repeat match goal with
       | H : Ok _ = Ok _ |- _ => injection H as ? ?; subst
       | H : (_, _) = (_, _) |- _ => injection H as ? ?; subst
       end; simpl in *; rewrite ?length_drop in *; lia.
Qed.

(** Fuel beyond one turn per byte does not matter. *)
Lemma scan_loop_fuel f1 f2 total r c g :
  (length (rest r) < f1)%nat → (length (rest r) < f2)%nat →
  scan_loop f1 total max r c g = scan_loop f2 total max r c g.
Proof.
  revert f2 r c g. induction f1 as [|f1 IH]; intros f2 r c g H1 H2; [lia|].
  destruct f2 as [|f2]; [lia|]. cbn [scan_loop].
  destruct (scan_step total max r c g) as [res|r' c' g'] eqn:E; [done|].
  apply scan_step_more in E. apply IH; lia.
Qed.

Lemma scan_loop_some fuel total r c g :
  (length (rest r) < fuel)%nat → ∃ res, scan_loop fuel total max r c g = Some res.
Proof.
  revert r c g. induction fuel as [|fuel IH]; intros r c g H1; [lia|]. cbn [scan_loop].
  destruct (scan_step total max r c g) as [res|r' c' g'] eqn:E; [by eexists|].
  apply scan_step_more in E. apply IH. lia.
Qed.

(** *** What a turn that goes on has read *)
Lemma scan_step_more_frame total data c g r' c' g' :
  scan_step total max (Stream data None) c g = More r' c' g' →
  ∃ p tail, payload_ok p ∧ data = frame p ++ tail ∧ r' = Stream tail None
            ∧ c' = c + 1 ∧ g' = g + len (frame p).
Proof using Hmax.
  unfold scan_step, readFull. simpl rest. simpl failing. intros E.
  destruct (decide (8 <= length data)%nat) as [H8|]; [|by destruct data].
  destruct (decodeHeader (take 8 data)) as [n crc] eqn:Eh.
  assert (Hn : is_u32 n) by (unfold decodeHeader in Eh; injection Eh as <- _; apply uint32_range).
  rewrite u32_max in E. destruct (Z.ltb_spec max n).
  { unfold matchesChecksum, copyN in E. repeat (case_match; try discriminate). }
  simpl rest in E. set (d := drop 8 data) in *.
  destruct (decide (Z.to_nat n <= length d)%nat) as [Hd|].
  2: { simpl failing in E. destruct d; discriminate. }
  set (p := take (Z.to_nat n) d) in *.
  destruct (Z.eqb_spec (checksum n p) crc) as [Ec|].
  2: { simpl in E. case_match; discriminate. }
  injection E as <- <- <-.
  assert (Hl : len p = n).
  { unfold p, len. rewrite length_take. unfold is_u32 in Hn. lia. }
  assert (Hp : payload_ok p) by (unfold payload_ok; lia).
  exists p, (drop (Z.to_nat n) d). rewrite len_frame, Hl.
  split; [done|]. split; [|done].
  rewrite frame_split by (by apply payload_fits).
  rewrite <- (header_unique (take 8 data) p).
  - rewrite <- app_assoc. unfold p. rewrite take_drop. unfold d. by rewrite take_drop.
  - rewrite length_take. lia.
  - rewrite Eh, Hl. by rewrite Ec.
Qed.

(** *** What the answers mean *)

(** The first record of [data], if it is a good one. *)
Definition starts_good (data : bytes) : Prop :=
  ∃ p tail, payload_ok p ∧ data = frame p ++ tail.

Lemma scan_step_stop total data fe c g res :
  scan_step total max (Stream data fe) c g = Stop res → ¬ starts_good data.
Proof using Hmax.
  intros H (p & tail & Hp & ->). by rewrite scan_step_good in H.
Qed.

Definition scan_error (e : error) : Prop :=
  errorsIs e RecordTooLarge = true ∨ errorsIs e Corrupt = true.

(** The possible answers at a place where no good record starts, with all of
    the file delivered. *)
Lemma scan_step_answers data c g res :
  scan_step (g + len data) max (Stream data None) c g = Stop res →
  (scan_err res = None ∧ n_records res = c ∧ good res = g ∧ truncated res = bool_decide (data ≠ [])) ∨
  (∃ e, scan_err res = Some e ∧ errorsIs e Corrupt = true ∧ n_records res = c ∧ good res = g ∧ data ≠ []) ∨
  (∃ e, scan_err res = Some e ∧ errorsIs e RecordTooLarge = true ∧ data ≠ []).
Proof.
  unfold scan_step, readFull. simpl rest. simpl failing. intros E.
  destruct (decide (8 <= length data)%nat) as [H8|].
  2: { destruct data as [|b data].
       - simpl in E. injection E as <-. left. simpl. rewrite len_nil, Z.add_0_r, Z.eqb_refl. done.
       - simpl in E. injection E as <-. left. done. }
  assert (Hne : data ≠ []) by (by destruct data; simpl in H8; [lia|]).
  assert (Hb : bool_decide (data ≠ []) = true) by (by apply bool_decide_eq_true_2).
  destruct (decodeHeader (take 8 data)) as [n crc].
  unfold matchesChecksum, copyN in E. simpl rest in E. simpl failing in E.
  repeat (case_match; try discriminate); injection E as <-; simplify_eq; simpl in *; try discriminate;
    rewrite ?Hb;
    first [ left; by repeat split
          | right; left; eexists; by repeat split
          | right; right; eexists; by repeat split ].
Qed.

Lemma scan_loop_spec fuel data c g res :
  scan_loop fuel (g + len data) max (Stream data None) c g = Some res →
  ∃ ps tail, data = frames ps ++ tail ∧ Forall payload_ok ps ∧ ¬ starts_good tail ∧
    scan_step (g + len data) max (Stream tail None) (c + len ps) (g + len (frames ps)) = Stop res.
Proof using Hmax.
  revert data c g. induction fuel as [|fuel IH]; intros data c g; [done|]. cbn [scan_loop].
  destruct (scan_step _ _ _ _ _) as [r|r' c' g'] eqn:E.
  - intros [= ->]. exists [], data. split; [done|]. split; [done|].
    split; [by eapply scan_step_stop|]. by rewrite frames_nil, !len_nil, !Z.add_0_r.
  - apply scan_step_more_frame in E as (p & tail & Hp & -> & -> & -> & ->).
    rewrite len_app, Z.add_assoc. intros H.
    apply IH in H as (ps & t & -> & Hps & Hst & H).
    exists (p :: ps), t. rewrite frames_cons, app_assoc. split; [done|].
    split; [by constructor|]. split; [done|].
    rewrite <- H. f_equal; autorewrite with gosem_rw; lia.
Qed.

(** The scan always answers: the loop terminates within its fuel. *)
Lemma scan_total total data fe : ∃ res, scan total max data fe = Some res.
Proof. apply scan_loop_some. simpl. lia. Qed.

Lemma scan_good_prefix ps tail fe total : Forall payload_ok ps →
  scan total max (frames ps ++ tail) fe
  = scan_loop (S (length tail)) total max (Stream tail fe) (len ps) (len (frames ps)).
Proof using Hmax.
  intros Hps. unfold scan.
  pose proof (len_frames_ge ps) as Hge. unfold len in Hge.
  rewrite (scan_loop_fuel _ (length ps + S (length tail + length (frames ps)))).
  - rewrite scan_loop_good by done. rewrite !Z.add_0_l.
    apply scan_loop_fuel; simpl; lia.
  - simpl. rewrite length_app. lia.
  - simpl. rewrite length_app. lia.
Qed.

(** Whatever follows whole frames, a scan that ends without an error has
    counted them. *)
Lemma scan_keeps_prefix ps tail sc : Forall payload_ok ps →
  scan (len (frames ps ++ tail)) max (frames ps ++ tail) None = Some sc → scan_err sc = None →
  len ps <= n_records sc ∧ len (frames ps) <= good sc.
Proof using Hmax.
  intros Hps H He. rewrite scan_good_prefix, len_app in H by done.
  apply scan_loop_spec in H as (qs & t & -> & _ & _ & H).
  rewrite len_app, Z.add_assoc in H. pose proof (len_nonneg qs). pose proof (len_nonneg (frames qs)).
  apply scan_step_answers in H as [(_ & -> & -> & _)|[(e & E & _)|(e & E & _)]]; [lia | congruence..].
Qed.

(** A file of whole frames is accepted whole. *)
(** Frames read in one way only. *)
Lemma frames_prefix ps : ∀ qs rest tail, Forall payload_ok ps → Forall payload_ok qs → (length ps <= length qs)%nat →
  frames ps ++ rest = frames qs ++ tail → ∃ more, qs = ps ++ more.
Proof using Hmax.
  induction ps as [|p ps IH]; intros qs rest tail Hps Hqs Hl E; [by exists qs|]. apply Forall_cons in Hps as [Hp Hps].
  destruct qs as [|q qs]; [simpl in Hl; lia|].
  apply Forall_cons in Hqs as [Hq Hqs]. rewrite !frames_cons, <- !app_assoc in E.
  pose proof (scan_step_good 0 p (frames ps ++ rest) None 0 0 Hp) as S1. rewrite E, scan_step_good in S1 by done.
  injection S1 as E2 _. rewrite E2 in E. apply app_inv_tail, frame_inj in E as ->; [|by apply payload_fits..].
  symmetry in E2. destruct (IH qs rest tail) as (more & ->); [done | done | simpl in Hl; lia | done|]. by exists more.
Qed.

Lemma scan_frames ps : Forall payload_ok ps →
  scan (len (frames ps)) max (frames ps) None
  = Some (Scanned (len ps) (len (frames ps)) false None).
Proof using Hmax.
  intros Hps. rewrite <- (app_nil_r (frames ps)) at 2.
  rewrite scan_good_prefix by done. simpl. unfold scan_step, readFull. simpl.
  by rewrite Z.eqb_refl.
Qed.

(** What a torn write leaves behind: part of a frame, with nothing after. *)
Definition torn (t : bytes) : Prop :=
  ∃ p u, payload_ok p ∧ frame p = t ++ u ∧ u ≠ [].

Lemma scan_step_torn total t c g : torn t →
  scan_step total max (Stream t None) c g
  = Stop (Scanned c g (if decide (t = []) then negb (g =? total) else true) None).
Proof using Hmax.
  intros (p & u & Hp & Hf & Hu). pose proof (payload_fits p Hp) as Hfit.
  unfold scan_step, readFull. simpl rest. simpl failing.
  destruct (decide (8 <= length t)%nat) as [H8|H8].
  2: { by destruct t. }
  assert (Et : take 8 t = header p ∧ ∃ d, drop 8 t = d ∧ p = d ++ u).
  { rewrite frame_split in Hf by done.
    assert (t = take 8 t ++ drop 8 t) as Es by (by rewrite take_drop).
    rewrite Es, <- app_assoc in Hf. apply app_inj_1 in Hf as [Hh Hd].
    - split; [done|]. by eexists.
    - rewrite length_header, length_take. lia. }
  destruct Et as (-> & d & -> & Ep). rewrite decodeHeader_header by done.
  rewrite u32_max. unfold payload_ok in Hp. replace (max <? len p) with false by lia.
  simpl rest. simpl failing.
  assert (Hl : (length d < length p)%nat).
  { rewrite Ep, length_app. destruct u; [done|]. simpl. lia. }
  unfold len. rewrite Nat2Z.id, decide_False by lia.
  rewrite decide_False by (by intros ->; simpl in H8; lia).
  by destruct d.
Qed.

(** A torn tail is cut, and everything before it is kept. *)
Lemma scan_torn ps t : Forall payload_ok ps → torn t →
  scan (len (frames ps ++ t)) max (frames ps ++ t) None
  = Some (Scanned (len ps) (len (frames ps)) (bool_decide (t ≠ [])) None).
Proof using Hmax.
  intros Hps Ht. rewrite scan_good_prefix by done. cbn [scan_loop].
  rewrite scan_step_torn by done. do 2 f_equal. rewrite len_app.
  case_decide as E.
  - subst t. rewrite len_nil, Z.add_0_r, Z.eqb_refl. done.
  - by rewrite bool_decide_eq_true_2.
Qed.

Lemma torn_nil : torn [].
Proof using Hmax.
  exists [], (frame []). split; [unfold payload_ok; rewrite len_nil; lia|]. split; [done|].
  intros E. apply (f_equal length) in E. by vm_compute in E.
Qed.

(** A write cut short leaves whole frames and a torn one. *)
Lemma take_frames k ps : Forall payload_ok ps →
  ∃ i t, take k (frames ps) = frames (take i ps) ++ t ∧ torn t.
Proof using Hmax.
  revert k. induction ps as [|p ps IH]; intros k Hps.
  - exists 0%nat, []. rewrite frames_nil, take_nil. split; [done | apply torn_nil].
  - apply Forall_cons in Hps as [Hp Hps]. rewrite frames_cons.
    destruct (decide (k < length (frame p))%nat) as [Hk|Hk].
    + exists 0%nat, (take k (frame p)). rewrite take_app_le by lia. split; [done|].
      exists p, (drop k (frame p)). rewrite take_drop. split; [done|]. split; [done|].
      intros E. apply (f_equal length) in E. rewrite length_drop in E. cbn [length] in E. lia.
    + destruct (IH (k - length (frame p))%nat Hps) as (i & t & E & Ht). exists (S i), t.
      rewrite take_app_ge by lia. rewrite E. cbn [take]. by rewrite frames_cons, app_assoc.
Qed.

(** Every answer describes the file: the records counted are exactly the
    frames in the bytes kept, and no further record could have been kept. *)
Lemma scan_sound data res :
  scan (len data) max data None = Some res →
  (∃ e, scan_err res = Some e ∧ errorsIs e RecordTooLarge = true) ∨
  (∃ ps tail, data = frames ps ++ tail ∧ Forall payload_ok ps ∧ ¬ starts_good tail ∧
     n_records res = len ps ∧ good res = len (frames ps) ∧
     match scan_err res with
     | None => truncated res = bool_decide (tail ≠ [])
     | Some e => errorsIs e Corrupt = true ∧ tail ≠ []
     end).
Proof using Hmax.
  intros H. unfold scan in H.
  apply (scan_loop_spec _ data 0 0) in H as (ps & tail & -> & Hps & Hst & H).
  rewrite !Z.add_0_l, len_app in H.
  apply scan_step_answers in H as [(He & Hn & Hg & Ht)|[(e & He & Hc & Hn & Hg & Hne)|(e & He & Hc & _)]].
  - right. exists ps, tail. rewrite He. done.
  - right. exists ps, tail. rewrite He. done.
  - left. by exists e.
Qed.

(** *** Read errors *)

Lemma readFull_fault data k e n :
  readFull (Stream (take k data) (Some e)) n = Fail e ∨
  (∃ out tail, readFull (Stream data None) n = Ok (out, Stream tail None) ∧
     readFull (Stream (take k data) (Some e)) n = Ok (out, Stream (take (k - n) tail) (Some e))).
Proof.
  unfold readFull. simpl rest. simpl failing.
  destruct (decide (n <= length (take k data))%nat) as [Hn|]; [|by left].
  right. rewrite length_take in Hn. rewrite decide_True by lia.
  eexists _, _. split; [done|]. rewrite take_take, skipn_firstn_comm.
  by rewrite Nat.min_l by lia.
Qed.

Lemma copyN_fault data k e n :
  copyN (Stream (take k data) (Some e)) n = Fail e ∨
  copyN (Stream (take k data) (Some e)) n = copyN (Stream data None) n.
Proof.
  unfold copyN. simpl rest. simpl failing.
  destruct (decide (n <= length (take k data))%nat) as [Hn|]; [|by left].
  right. rewrite length_take in Hn. rewrite decide_True by lia.
  by rewrite take_take, Nat.min_l by lia.
Qed.

Lemma scan_step_fault total data k e c g :
  errorsIs e EOF = false → errorsIs e UnexpectedEOF = false →
  scan_step total max (Stream (take k data) (Some e)) c g = Stop (Scanned 0 0 false (Some e)) ∨
  match scan_step total max (Stream data None) c g with
  | Stop res => scan_step total max (Stream (take k data) (Some e)) c g = Stop res
  | More r c' g' => ∃ k', scan_step total max (Stream (take k data) (Some e)) c g
                          = More (Stream (take k' (rest r)) (Some e)) c' g'
  end.
Proof.
  intros H1 H2. unfold scan_step, matchesChecksum.
  destruct (readFull_fault data k e 8) as [->|(hdr & tail & -> & ->)].
  { left. by rewrite H1, H2. }
  destruct (decodeHeader hdr) as [n crc]. destruct (u32 max <? n).
  - destruct (g + recordSize n <=? total); [|by right].
    destruct (copyN_fault tail (k - 8) e (Z.to_nat n)) as [->| ->].
    + left. by rewrite H1, H2.
    + right. destruct (copyN (Stream tail None) (Z.to_nat n)) as [pl|ce]; simpl.
      * destruct (_ =? crc); done.
      * destruct (errorsIs ce EOF || errorsIs ce UnexpectedEOF); done.
  - destruct (readFull_fault tail (k - 8) e (Z.to_nat n)) as [->|(p & tl & -> & ->)].
    + left. by rewrite H1, H2.
    + right. destruct (checksum n p =? crc); simpl; [by eexists|].
      destruct (g + recordSize n <? total); done.
Qed.

Lemma scan_loop_fault fuel total data k e c g :
  errorsIs e EOF = false → errorsIs e UnexpectedEOF = false →
  scan_loop fuel total max (Stream (take k data) (Some e)) c g
    = scan_loop fuel total max (Stream data None) c g ∨
  scan_loop fuel total max (Stream (take k data) (Some e)) c g
    = Some (Scanned 0 0 false (Some e)).
Proof.
  intros H1 H2. revert data k c g.
  induction fuel as [|fuel IH]; intros data k c g; [by left|]. cbn [scan_loop].
  pose proof (scan_step_fault total data k e c g H1 H2) as [->|Hs]; [by right|].
  destruct (scan_step total max (Stream data None) c g) as [res|r c' g'] eqn:E.
  - rewrite Hs. by left.
  - destruct Hs as [k' ->]. destruct r as [tail fe].
    assert (fe = None) as ->.
    { unfold scan_step, readFull in E. repeat (case_match; try discriminate); simplify_eq; done. }
    apply IH.
Qed.

(** A storage error while reading is either reported or had no bearing on
    the answer: it is never taken for the end of the records. *)
Lemma scan_fault total data k e :
  errorsIs e EOF = false → errorsIs e UnexpectedEOF = false →
  scan total max (take k data) (Some e) = scan total max data None ∨
  scan total max (take k data) (Some e) = Some (Scanned 0 0 false (Some e)).
Proof.
  intros H1 H2. unfold scan.
  rewrite (scan_loop_fuel (S (length (take k data))) (S (length data)))
    by (simpl; rewrite ?length_take; lia).
  by apply scan_loop_fault.
Qed.

(** C30: a crash in the middle of a write costs only what was being written.
    Cut the bytes of an append off at any point: the scan keeps every record in
    front of it and the records of the append that are there whole, counts
    them, reports where the good bytes end, and reports no error. *)
Theorem crash_tail_is_cut ps qs k :
  Forall payload_ok ps → Forall payload_ok qs →
  ∃ i, let file := frames ps ++ take k (frames qs) in let kept := ps ++ take i qs in
    (frames kept `prefix_of` file) ∧
    scan (len file) max file None
      = Some (Scanned (len kept) (len (frames kept)) (bool_decide (len (frames kept) ≠ len file)) None).
Proof using Hmax.
  intros Hps Hqs. destruct (take_frames k qs Hqs) as (i & t & -> & Ht). exists i. cbv zeta.
  rewrite app_assoc, <- frames_app. split; [by eexists|].
  rewrite scan_torn; [|apply Forall_app; split; [done | by apply Forall_take] | done].
  do 2 f_equal. apply bool_decide_ext. rewrite len_app. split.
  - intros Hne E. apply Hne, len_zero. lia.
  - intros Hne ->. apply Hne. rewrite len_nil. lia.
Qed.

(** C31: damage is never delivered.  Change up to four consecutive bytes of one
    record's payload: the scan keeps exactly the records in front of it, and
    either reports corruption, when anything follows, or treats the record as a
    torn tail, when it was the last. *)
Theorem damaged_payload_is_caught ps qs pre w w' post :
  Forall payload_ok ps → payload_ok (pre ++ w ++ post) →
  length w = length w' → (length w <= 4)%nat → w ≠ w' →
  let p := pre ++ w ++ post in
  let file := frames ps ++ header p ++ (pre ++ w' ++ post) ++ frames qs in
  ∃ res, scan (len file) max file None = Some res ∧
    n_records res = len ps ∧ good res = len (frames ps) ∧
    if bool_decide (qs = []) then scan_err res = None ∧ truncated res = true
    else ∃ e, scan_err res = Some e ∧ errorsIs e Corrupt = true.
Proof using Hmax.
  intros Hps Hp Hlen H4 Hne p file. unfold file. rewrite scan_good_prefix by done. cbn [scan_loop].
  pose proof (payload_fits p Hp) as Hf. set (p' := pre ++ w' ++ post).
  assert (Hl : length p' = length p) by (unfold p, p'; rewrite !length_app; lia).
  assert (Hsum : checksum (len p) p' ≠ checksum (len p) p).
  { intros E. symmetry in E. by apply (checksum_burst (len p) pre w w' post) in E. }
  unfold scan_step. rewrite <- (length_header p), readFull_app, decodeHeader_header by done.
  rewrite u32_max. assert ((max <? len p) = false) as -> by (apply Z.ltb_ge; exact Hp).
  assert (Z.to_nat (len p) = length p') as -> by (unfold len; lia). rewrite readFull_app.
  apply Z.eqb_neq in Hsum. rewrite Hsum. simpl negb. cbv iota.
  assert (Htot : len (frames ps ++ header p ++ p' ++ frames qs) = len (frames ps) + recordSize (len p) + len (frames qs)).
  { rewrite !len_app. assert (len (header p) = headerSize) as -> by done.
    assert (len p' = len p) as -> by (unfold len; lia). unfold recordSize. lia. }
  rewrite Htot. case_bool_decide as Hq.
  - subst qs. rewrite frames_nil, len_nil. rewrite (proj2 (Z.ltb_ge _ _)) by lia. eexists. split; [done|]. done.
  - assert (0 < len (frames qs)).
    { pose proof (len_frames_ge qs). pose proof (len_pos qs Hq). lia. }
    rewrite (proj2 (Z.ltb_lt _ _)) by lia. eexists. split; [done|]. simpl. split; [done|]. split; [done|]. by eexists.
Qed.
End scan.

Lemma crash_tail_is_cut_witness :
  ∃ i, let file := frames [[Byte.x61]] ++ take 20 (frames [[Byte.x62]; [Byte.x63; Byte.x64]; []]) in
       let kept := [[Byte.x61]] ++ take i [[Byte.x62]; [Byte.x63; Byte.x64]; []] in
    (frames kept `prefix_of` file) ∧
    scan (len file) 100 file None
      = Some (Scanned (len kept) (len (frames kept)) (bool_decide (len (frames kept) ≠ len file)) None).
Proof.
  exact (crash_tail_is_cut 100 ltac:(lia) [[Byte.x61]] [[Byte.x62]; [Byte.x63; Byte.x64]; []] 20
    ltac:(by repeat constructor) ltac:(by repeat constructor)).
Defined.

Lemma damaged_payload_is_caught_witness :
  let p := [Byte.x61] ++ [Byte.x62] ++ [] in
  let file := frames [[Byte.x7a]] ++ header p ++ ([Byte.x61] ++ [Byte.x72] ++ []) ++ frames [[]] in
  ∃ res, scan (len file) 100 file None = Some res ∧ n_records res = 1 ∧ good res = len (frames [[Byte.x7a]]) ∧
    ∃ e, scan_err res = Some e ∧ errorsIs e Corrupt = true.
Proof.
  exact (damaged_payload_is_caught 100 ltac:(lia) [[Byte.x7a]] [[]] [Byte.x61] [Byte.x62] [Byte.x72] []
    ltac:(by repeat constructor) ltac:(done) eq_refl ltac:(simpl; lia) ltac:(done)).
Defined.

End Segment.
