(* ===== verification/MarkFiles.v ===== *)
(** * Mark files (src/internal/wal/checkpoint.go, reservation.go, identity.go)

    The three small files beside the segments: CHECKPOINT, the low-water mark
    of what has been delivered; RESERVED, the highest number that may have been
    handed out; LOGID, the identity of the numbering.  Each is replaced by
    writing a temporary file, fsyncing it, renaming it over the old one and
    fsyncing the directory.  The theorems say that a mark reads back as
    written, and that at every moment of a write, with any call failing and
    with power lost at that moment, the mark read is the old or the new one. *)

From stdpp Require Import strings.
From S2P Require Import Prelude Errors Text Disk.
Local Open Scope Z_scope.
Local Open Scope go_scope.

Module MarkFiles.
Import Disk.

Definition checkpointName : bytes := Text.str "CHECKPOINT"%string.
Definition reservedName : bytes := Text.str "RESERVED"%string.
Definition identityName : bytes := Text.str "LOGID"%string.
Definition tmpOf (name : bytes) : bytes := name ++ Text.str ".tmp"%string.

Definition newline : bytes := [Byte.x0a].

(** The sequence the three writers share: temporary file, write, fsync, close,
    rename, fsync of the directory; the file is closed on the way out of a
    failed write or fsync, its own error ignored. *)
Definition replaceFile (name data : bytes) : M disk unit :=
  let tmp := tmpOf name in
  let closing := _ <- try (close tmp) ;; ret tt in
  openTrunc tmp ;;;
  on_error (write tmp data) closing ;;;
  on_error (fsync tmp) closing ;;;
  close tmp ;;;
  rename tmp name ;;;
  syncDir.

Definition WriteCheckpoint (lsn : Z) : M disk unit :=
  replaceFile checkpointName (Text.show lsn ++ newline).

Definition writeReserved (lsn : Z) : M disk unit :=
  replaceFile reservedName (Text.show lsn ++ newline).

Definition writeIdentity (id : bytes) : M disk unit :=
  replaceFile identityName (id ++ newline).

(** The decimal mark in a file's contents. *)
Definition parseMark (b : bytes) : option Z := Text.parseUint (Text.trimSpace b).

Definition readMark (name : bytes) (msg : string) : M disk Z :=
  r <- try (readFile name) ;;
  match r with
  | Fail err => if errorsIs err NotExist then ret 0 else throw err
  | Ok b =>
      match parseMark b with
      | Some lsn => ret lsn
      | None => throw (Errorf msg [Sentinel Syntax])
      end
  end.

Definition ReadCheckpoint : M disk Z := readMark checkpointName "wal: malformed checkpoint".
Definition readReserved : M disk Z := readMark reservedName "wal: malformed reservation".

(** [r <= ' ' || r > '~'] on some rune: a byte outside '!'..'~', since the
    bytes of a multi-byte rune are all above '~'. *)
Definition badIdentity (id : bytes) : bool :=
  bool_decide (id = []) || existsb (λ b, negb (Text.graphic b)) id.

(** [loadIdentity]; [fresh_id] is what [rand.Text()] returns. *)
Definition loadIdentity (fresh_id : bytes) (fresh : bool) : M disk bytes :=
  let create := writeIdentity fresh_id ;;; ret fresh_id in
  if fresh then create
  else
    r <- try (readFile identityName) ;;
    match r with
    | Ok b =>
        let id := Text.trimSpace b in
        if badIdentity id then throw (Errorf "wal: malformed log identity" [])
        else ret id
    | Fail err => if errorsIs err NotExist then create else throw err
    end.

(** ** The mark a directory holds *)

(** What [ReadCheckpoint] or [readReserved] would find, with no call failing:
    0 without the file, [None] for a malformed one. *)
Definition markIn (m : gmap bytes bytes) (name : bytes) : option Z :=
  match m !! name with
  | None => Some 0
  | Some b => parseMark b
  end.

Lemma parseMark_show n : is_u64 n → parseMark (Text.show n ++ newline) = Some n.
Proof. apply Text.parse_trim_show. Qed.

Lemma readMark_inv name msg d r d' : readMark name msg d = (r, d') →
  view d' = view d ∧ (∀ n, r = Ok n → markIn (view d) name = Some n ∨ n = 0).
Proof.
  unfold readMark, bind, try. intros H.
  destruct (readFile name d) as [r1 d1] eqn:E. apply readFile_inv in E as [Hr Hv].
  destruct r1 as [b|e].
  - destruct Hr as [(c & Hc & [= <-])|[? [=]]].
    destruct (parseMark b) as [n|] eqn:Ep; injection H as <- <-; split; try done.
    intros n' [= <-]. left. unfold markIn. by rewrite Hc.
  - destruct (errorsIs e NotExist); injection H as <- <-; split; try done.
    intros n' [= <-]. by right.
Qed.

Lemma readMark_clean name msg d : plan d = [] →
  outcome (readMark name msg) d =
  match markIn (view d) name with Some n => Ok n | None => Fail (Errorf msg [Sentinel Syntax]) end.
Proof.
  intros Hp. unfold outcome, readMark, bind, try, readFile, markIn. rewrite call_clean by done.
  rewrite view_lookup. destruct (files (img d) !! name) as [fl|]; simpl; [|done].
  destruct (parseMark (cur fl)); done.
Qed.

(** Without a fault the marks are read and replaced. *)
Lemma yields_readMark name msg v n : markIn v name = Some n → yields (readMark name msg) v n v.
Proof.
  intros Hm d Hp Hv. unfold readMark, bind, try, markIn in *.
  destruct (v !! name) as [b|] eqn:Eb.
  - destruct (yields_readFile _ _ _ Eb d Hp Hv) as (d1 & E & Hp1 & Hv1). exists d1. rewrite E, Hm. done.
  - rewrite <- Hv in Eb. destruct (readFile_absent _ _ Hp Eb) as (d1 & E & Hp1 & Hv1).
    injection Hm as <-. exists d1. rewrite E. simpl. by rewrite Hv1.
Qed.

Lemma yields_replaceFile name data v :
  yields (replaceFile name data) v tt (<[name := data]> (delete (tmpOf name) v)).
Proof.
  unfold replaceFile. eapply yields_bind; [apply yields_openTrunc|].
  eapply yields_bind.
  { apply yields_on_error, (yields_write _ _ []). apply lookup_insert_eq. }
  eapply yields_bind; [apply yields_on_error, yields_fsync|].
  eapply yields_bind; [apply yields_close|].
  eapply yields_bind; [|apply yields_syncDir].
  rewrite insert_insert_eq.
  pose proof (yields_rename (tmpOf name) name data (<[tmpOf name := data]> v)) as H.
  rewrite delete_insert_eq in H. apply H, lookup_insert_eq.
Qed.

(** The identity file is absent or well-formed. *)
Definition identity_ok (v : gmap bytes bytes) : Prop :=
  match v !! identityName with None => True | Some b => badIdentity (Text.trimSpace b) = false end.

Lemma yields_loadIdentity new fresh v : identity_ok v →
  ∃ id v', yields (loadIdentity new fresh) v id v' ∧
    (∀ n, n ≠ identityName → n ≠ tmpOf identityName → v' !! n = v !! n) ∧
    (id = new ∨ fresh = false ∧ ∃ b, v !! identityName = Some b ∧ id = Text.trimSpace b).
Proof.
  intros Hok. pose proof (yields_replaceFile identityName (new ++ newline) v) as Hw.
  assert (Hc : yields (writeIdentity new ;;; ret new) v new
    (<[identityName := new ++ newline]> (delete (tmpOf identityName) v))).
  { eapply yields_bind; [exact Hw | apply yields_ret]. }
  assert (Hother : ∀ n, n ≠ identityName → n ≠ tmpOf identityName →
    (<[identityName := new ++ newline]> (delete (tmpOf identityName) v)) !! n = v !! n).
  { intros n H1 H2. by rewrite lookup_insert_ne, lookup_delete_ne. }
  unfold loadIdentity. destruct fresh; [by exists new; eexists; split; [exact Hc|]; eauto|].
  unfold identity_ok in Hok. destruct (v !! identityName) as [b|] eqn:Eb.
  - exists (Text.trimSpace b), v. split; [|by eauto 8]. intros d Hp Hv.
    destruct (yields_readFile _ _ _ Eb d Hp Hv) as (d1 & E & Hp1 & Hv1). exists d1.
    unfold bind, try. by rewrite E, Hok.
  - exists new. eexists. split; [|by eauto]. intros d Hp Hv. rewrite <- Hv in Eb.
    destruct (readFile_absent _ _ Hp Eb) as (d1 & E & Hp1 & Hv1). unfold bind at 1, try at 1. rewrite E.
    apply (Hc d1 Hp1). by rewrite Hv1.
Qed.

(** ** Atomic replacement *)

Lemma tmp_ne name : tmpOf name ≠ name.
Proof.
  intros H. apply (f_equal length) in H. unfold tmpOf in H. rewrite length_app in H.
  simpl in H. lia.
Qed.

(** The writer against any invariant of the directory that the temporary file
    cannot disturb and that the finished file satisfies. *)
Section replace.
Context (name data : bytes) (G : image → Prop).
Context (Gset : ∀ fl i, G i → G (set_file (tmpOf name) fl i)).
Context (Gbind : ∀ ob i, G i → G (bind_name (tmpOf name) ob i)).
Context (Gdone : ∀ i, G i → G (bind_name name (Some (File data data)) i)).
Context (Gdir : ∀ i, G i → G (Image (files i) ∅)).
#[local] Hint Resolve Gset Gbind Gdone Gdir : core.
Local Ltac fin := simpl; repeat split; auto; try discriminate; eauto 8.

(** [i] holds, under the temporary name, a fully fsynced copy of [data]. *)
Definition staged (i : image) : Prop := files i !! tmpOf name = Some (File data data).

(** [tmp] has been opened or written, its contents being [c]. *)
Definition scratch (c : bytes) (r : result unit) (i : image) : Prop :=
  G i ∧ (r = Ok tt → ∃ fl, files i !! tmpOf name = Some fl ∧ cur fl = c).

Lemma closing_triple (e : error) (P : image → Prop) (Q : result unit → image → Prop) :
  (∀ i, P i → G i) → (∀ i, G i → Q (Fail e) i) →
  triple P G (_ <- try (close (tmpOf name)) ;; ret tt) (λ _, Q (Fail e)).
Proof.
  intros HP HQ. eapply (triple_bind _ _ _ _ (λ _, G)).
  - apply triple_try, triple_call; intros; fin.
  - intros. apply triple_ret. auto.
  - auto.
Qed.

Lemma open_triple : triple G G (openTrunc (tmpOf name)) (scratch []).
Proof using Gbind Gset.
  apply triple_call; [|intros; fin].
  intros i Hi. unfold scratch.
  destruct (files i !! tmpOf name) as [fl|]; simpl; rewrite lookup_insert_eq; fin.
Qed.

Lemma write_triple c :
  triple (scratch [] (Ok tt)) G
    (on_error (write (tmpOf name) c) (_ <- try (close (tmpOf name)) ;; ret tt)) (scratch c).
Proof using Gset.
  eapply (triple_on_error _ _ _ _ (scratch c)).
  - apply triple_call.
    + intros i [Hi Hf]. destruct (Hf eq_refl) as (fl & Hfl & Hc). rewrite Hfl. unfold scratch. simpl.
      rewrite lookup_insert_eq, Hc. fin.
    + intros i k e [Hi Hf]. destruct (Hf eq_refl) as (fl & Hfl & Hc). rewrite Hfl. unfold scratch. fin.
  - done.
  - intros e. apply closing_triple; unfold scratch; [by intros i [? _] | intros; fin].
Qed.

Lemma fsync_triple :
  triple (scratch data (Ok tt)) G
    (on_error (fsync (tmpOf name)) (_ <- try (close (tmpOf name)) ;; ret tt))
    (λ r i, G i ∧ (r = Ok tt → staged i)).
Proof using Gset.
  eapply (triple_on_error _ _ _ _ (λ r i, G i ∧ (r = Ok tt → staged i))).
  - apply triple_call.
    + intros i [Hi Hf]. destruct (Hf eq_refl) as (fl & Hfl & Hc). rewrite Hfl. unfold staged. simpl.
      rewrite lookup_insert_eq, Hc. fin.
    + intros i k e [Hi Hf]. fin.
  - done.
  - intros e. apply (closing_triple e _ (λ r i, G i ∧ (r = Ok tt → staged i)));
      [by intros i [? _] | intros; fin].
Qed.

Lemma rename_triple :
  triple (λ i, G i ∧ staged i) G (rename (tmpOf name) name)
    (λ r i, G i ∧ (r = Ok tt → files i !! name = Some (File data data))).
Proof using Gbind Gdone.
  apply triple_call; [|intros i k e [Hi Hs]; fin].
  intros i [Hi Hs]. rewrite Hs. simpl. rewrite lookup_insert_eq. fin.
Qed.

Lemma syncDir_triple :
  triple (λ i, G i ∧ files i !! name = Some (File data data)) G syncDir
    (λ r i, G i ∧ (r = Ok tt → files i !! name = Some (File data data) ∧ stale i = ∅)).
Proof using Gdir. apply triple_call; [intros i [Hi Hf]; fin | intros i k e [Hi Hs]; fin]. Qed.

(** The invariant holds at every moment; after a success the file has the new
    contents, with nothing left to lose. *)
Lemma replaceFile_triple :
  triple G G (replaceFile name data)
    (λ r i, G i ∧ (r = Ok tt → files i !! name = Some (File data data) ∧ stale i = ∅)).
Proof using Gset Gbind Gdone Gdir.
  assert (Hweak : ∀ (P : image → Prop) (e : error) i, G i → G i ∧ (Fail e = Ok tt → P i)) by (intros; fin).
  unfold replaceFile.
  eapply triple_bind; [apply open_triple | intros [] | by intros e i [? _]; auto].
  eapply triple_bind; [apply write_triple | intros [] | by intros e i [? _]; auto].
  eapply triple_bind; [apply fsync_triple | intros [] | by intros e i [? _]; auto].
  eapply (triple_bind _ _ _ _ (λ r i, G i ∧ staged i)); [| intros [] | by intros e i [? _]; auto].
  { apply triple_call; [intros i [? Hs]; specialize (Hs eq_refl); fin | intros i k e [? Hs]; specialize (Hs eq_refl); fin]. }
  eapply triple_bind; [apply rename_triple | intros [] | by intros e i [? _]; auto].
  eapply triple_weaken; [apply syncDir_triple | intros i [? Hs]; specialize (Hs eq_refl); auto | done].
Qed.
End replace.

(** *** Effect on what the process reads *)

(** Only the temporary file and the named one change; the named one keeps its
    contents or gets the new ones, and has them after a success. *)
Lemma replaceFile_view name data d r d' : replaceFile name data d = (r, d') →
  (∀ n, n ≠ name → n ≠ tmpOf name → view d' !! n = view d !! n) ∧
  (view d' !! name = view d !! name ∨ view d' !! name = Some data) ∧
  (r = Ok tt → view d' !! name = Some data).
Proof.
  intros H. set (G := λ i : image,
    (∀ n, n ≠ name → n ≠ tmpOf name → cur <$> files i !! n = view d !! n) ∧
    (cur <$> files i !! name = view d !! name ∨ cur <$> files i !! name = Some data)).
  pose proof (tmp_ne name) as Hne.
  destruct (replaceFile_triple name data G) with (d := d) (r := r) (d' := d')
    as [[[HG1 HG2] Hok] _]; [..|done|].
  - intros fl i [H1 H2]. unfold G. simpl. rewrite lookup_insert_ne by done. split; [|done].
    intros n Hn Ht. rewrite lookup_insert_ne by done. auto.
  - intros ob i [H1 H2]. unfold G. simpl. destruct ob as [fl|].
    + rewrite lookup_insert_ne by done. split; [|done].
      intros n Hn Ht. rewrite lookup_insert_ne by done. auto.
    + rewrite lookup_delete_ne by done. split; [|done].
      intros n Hn Ht. rewrite lookup_delete_ne by done. auto.
  - intros i [H1 H2]. unfold G. simpl. rewrite lookup_insert_eq. split; [|by right].
    intros n Hn Ht. rewrite lookup_insert_ne by done. auto.
  - done.
  - unfold G. setoid_rewrite view_lookup. auto.
  - setoid_rewrite view_lookup at 1. rewrite !(view_lookup d'). split; [done|]. split; [done|].
    intros Hr. destruct (Hok Hr) as [-> _]. done.
Qed.

(** *** Loss of power *)

(** Every binding the name can have after a crash is a fully fsynced file with
    an acceptable content, or an acceptable absence. *)
Definition intact (ok : option bytes → Prop) (bs : list (option file)) : Prop :=
  ∀ b, b ∈ bs →
    match b with
    | None => ok None
    | Some fl => cur fl = dur fl ∧ ok (Some (cur fl))
    end.

Definition guarded (name : bytes) (ok : option bytes → Prop) : image → Prop := guarding name (intact ok).

Lemma replaceFile_guarded name data ok : ok (Some data) →
  triple (guarded name ok) (guarded name ok) (replaceFile name data)
    (λ r i, guarded name ok i ∧
            (r = Ok tt → files i !! name = Some (File data data) ∧ stale i = ∅)).
Proof.
  intros Hdata. pose proof (tmp_ne name) as Hne. apply replaceFile_triple; unfold guarded, guarding, intact.
  - intros fl i Hi. by rewrite bindings_set_ne.
  - intros ob i Hi. by rewrite bindings_bind_ne.
  - intros i Hi b Hb. rewrite bindings_bind in Hb.
    apply elem_of_cons in Hb as [->|Hb]; [done | by apply Hi].
  - intros i Hi b Hb. apply Hi. unfold bindings in *. simpl in *.
    rewrite lookup_empty in Hb. simpl in Hb. apply list_elem_of_singleton in Hb as ->. left.
Qed.

(** What [guarded] is for: whatever a loss of power leaves under the name is
    acceptable. *)
Lemma guarded_power_loss name ok i m : guarded name ok i → power_loss i m → ok (m !! name).
Proof.
  intros Hi Hp. specialize (Hp name). simpl in Hp. fold (bindings i name) in Hp.
  destruct (m !! name) as [c|].
  - destruct Hp as (fl & Hb & Hs). apply Hi in Hb as [Hc Hok].
    unfold survives in Hs. rewrite decide_True in Hs by done. by subst c.
  - by apply Hi in Hp.
Qed.

(** The file, as it is now and as it would be after a loss of power, holds the
    mark [n]. *)
Definition settled (i : image) (name : bytes) (n : Z) : Prop :=
  stale i !! name = None ∧
  match files i !! name with
  | None => n = 0
  | Some fl => cur fl = dur fl ∧ parseMark (cur fl) = Some n
  end.

Definition markOf (b : option bytes) : option Z :=
  match b with None => Some 0 | Some c => parseMark c end.

Lemma settled_guarded i name n (ok : option bytes → Prop) :
  settled i name n → (∀ b, markOf b = Some n → ok b) → guarded name ok i.
Proof.
  intros [Hs Hf] Hok b Hb. unfold bindings in Hb. rewrite Hs in Hb. simpl in Hb.
  apply list_elem_of_singleton in Hb as ->.
  destruct (files i !! name) as [fl|]; [|subst n; auto]. destruct Hf. auto.
Qed.

(** ** Properties *)

(** C25: a checkpoint write is atomic and durable.  Starting from a settled mark
    [old], whatever calls fail, and with power lost after any call of the
    write, [CHECKPOINT] reads as [old] or as the new mark; and once
    [WriteCheckpoint] has returned nil it reads as the new one. *)
Theorem checkpoint_atomic_under_power_loss d lsn old r d' :
  is_u64 lsn → settled (img d) checkpointName old → trail d = [] →
  WriteCheckpoint lsn d = (r, d') →
  (∀ i m, i ∈ trail d' → power_loss i m →
     markIn m checkpointName = Some old ∨ markIn m checkpointName = Some lsn) ∧
  (r = Ok tt → ∀ m, power_loss (img d') m → markIn m checkpointName = Some lsn).
Proof.
  intros Hu Hs Ht H. set (ok := λ b, markOf b = Some old ∨ markOf b = Some lsn).
  assert (Hd : ok (Some (Text.show lsn ++ newline))) by (right; by apply parseMark_show).
  destruct (replaceFile_guarded checkpointName (Text.show lsn ++ newline) ok Hd d r d') as [[_ Hok] (added & Ha & HI)]; [|exact H|].
  { eapply settled_guarded; [done|]. intros b Hb. by left. }
  rewrite Ht in Ha. simpl in Ha. split.
  - intros i m Hi Hp. rewrite Ha in Hi. rewrite Forall_forall in HI.
    exact (guarded_power_loss _ _ _ _ (HI i Hi) Hp).
  - intros Hr m Hp. destruct (Hok Hr) as [Hf Hst].
    apply (guarded_power_loss checkpointName (λ b, markOf b = Some lsn) (img d') m); [|done].
    apply (settled_guarded _ _ lsn); [|done]. split; [by rewrite Hst|].
    rewrite Hf. cbn [cur dur]. split; [reflexivity | by rewrite parseMark_show].
Qed.

(** A directory whose checkpoint is 5, a fault in the third call, and the
    write of 9. *)
Definition example_disk (faults : list fault) : disk :=
  let fl := File (Text.str "5"%string ++ newline) (Text.str "5"%string ++ newline) in
  Disk (Image {[ checkpointName := fl ]} ∅) faults [].

Lemma checkpoint_atomic_under_power_loss_witness :
  let run := WriteCheckpoint 9 (example_disk [Pass; Pass; Trip (Sentinel ENOSPC) 0]) in
  (∀ i m, i ∈ trail run.2 → power_loss i m →
     markIn m checkpointName = Some 5 ∨ markIn m checkpointName = Some 9) ∧
  (run.1 = Ok tt → ∀ m, power_loss (img run.2) m → markIn m checkpointName = Some 9).
Proof.
  intros run.
  apply (checkpoint_atomic_under_power_loss
    (example_disk [Pass; Pass; Trip (Sentinel ENOSPC) 0]) 9 5 run.1 run.2).
  - unfold is_u64; lia.
  - split; [reflexivity|]. split; [reflexivity|]. vm_compute. reflexivity.
  - reflexivity.
  - apply surjective_pairing.
Defined.

End MarkFiles.
