(* ===== verification/Log.v ===== *)
(** * The log (src/internal/wal/wal.go)

    The state of an open log and its operations: staging, the commit round
    with its rollback, truncation, and waiting for a round.  Each critical
    section under [l.mu] is one function, and [commit] is the composition of
    its sections, so that the interleavings of appenders, committer and
    truncation are sequences of these functions (file LogSteps).

    [l.segs] is kept as [sealed ++ [active]]: the code only ever makes the last
    element active.  A [*round] is an index into [rounds], the store of round
    objects.  [spare] is left out: it recycles a buffer's capacity and never
    its contents.  Test hooks are left out too: the fault plan of the disk
    plays their part. *)

From stdpp Require Import strings.
From S2P Require Import Prelude Errors Text Record Disk Segment MarkFiles.
Local Open Scope Z_scope.
Local Open Scope go_scope.

Module Log.
Import Segment.
Import (hints) Record.

Inductive SyncMode := SyncPeriodic | SyncAlways | SyncNever.

#[global] Instance syncmode_eq_dec : EqDecision SyncMode.
Proof. solve_decision. Defined.

(** Durations are nanoseconds. *)
Record Options := MkOptions {
  syncMode : SyncMode;
  syncInterval : Z;
  maxSegmentBytes : Z;
  maxRecordBytes : Z;
  commitBytes : Z;
  salvageSet : bool
}.

Definition withDefaults (o : Options) : Options :=
  MkOptions (syncMode o)
    (if syncInterval o <=? 0 then 5000000 else syncInterval o)
    (if maxSegmentBytes o <=? 0 then Z.shiftl 64 20 else maxSegmentBytes o)
    (if maxRecordBytes o <=? 0 then Z.shiftl 4 20 else maxRecordBytes o)
    (if commitBytes o <=? 0 then Z.shiftl 1 20 else commitBytes o)
    (salvageSet o).

Definition maxRecordLimit : Z := 4294967295 - Record.headerSize.

Definition reserveBlock : Z := Z.shiftl 1 20.

(** A commit round: [done] open, or closed with the outcome in [err]. *)
Inductive round := Undecided | Decided (err : option error).

Record log := MkLog {
  opts : Options;
  sealed : list segment;
  active : segment;
  nextLSN : Z;
  firstLSN : Z;
  reserved : Z;
  id : bytes;
  pending : bytes;
  pendingMin : Z;
  pendingMax : Z;
  durable : Z;
  closed : bool;
  rounds : list round;
  curRound : nat;
  inflight : option nat;
  failErr : option error;
  broken : bool;
  closeErr : option error
}.

(** The process: one log and the directory under it. *)
Record world := World { lg : log; dk : Disk.disk }.

Definition onDisk {A} (m : M Disk.disk A) : M world A := λ w,
  let '(r, d) := m (dk w) in (r, World (lg w) d).
Definition setLog (f : log → log) : M world unit := modify (λ w, World (f (lg w)) (dk w)).

Definition segs (l : log) : list segment := sealed l ++ [active l].

(** ** Field updates *)

Definition set_reserved (v : Z) (l : log) : log :=
  MkLog (opts l) (sealed l) (active l) (nextLSN l) (firstLSN l) v (id l) (pending l)
    (pendingMin l) (pendingMax l) (durable l) (closed l) (rounds l) (curRound l) (inflight l)
    (failErr l) (broken l) (closeErr l).
Definition set_segs (ss : list segment) (a : segment) (l : log) : log :=
  MkLog (opts l) ss a (nextLSN l) (firstLSN l) (reserved l) (id l) (pending l)
    (pendingMin l) (pendingMax l) (durable l) (closed l) (rounds l) (curRound l) (inflight l)
    (failErr l) (broken l) (closeErr l).
Definition set_firstLSN (v : Z) (l : log) : log :=
  MkLog (opts l) (sealed l) (active l) (nextLSN l) v (reserved l) (id l) (pending l)
    (pendingMin l) (pendingMax l) (durable l) (closed l) (rounds l) (curRound l) (inflight l)
    (failErr l) (broken l) (closeErr l).

(** ** Staging *)

(** The section of [stage] after the reservation. *)
Definition place (encode : bytes → bytes) (n : Z) (l : log) : log :=
  MkLog (opts l) (sealed l) (active l) (nextLSN l +u n) (firstLSN l) (reserved l) (id l)
    (encode (pending l))
    (if len (pending l) =? 0 then nextLSN l else pendingMin l)
    (u64 (nextLSN l + n - 1))
    (durable l) (closed l) (rounds l) (curRound l) (inflight l) (failErr l) (broken l) (closeErr l).

(** [force] is computed on the extended buffer. *)
Definition mustCommit (l : log) : bool :=
  negb (bool_decide (syncMode (opts l) = SyncPeriodic)) || (commitBytes (opts l) <=? len (pending l)).

(** Returns the first number, the round ([None] for Go's nil) and [force]. *)
Definition stage (encode : bytes → bytes) (n : Z) : M world (Z * option nat * bool) :=
  l <- gets lg ;;
  if closed l then throw (Sentinel WalClosed)
  else if broken l then
    match failErr l with
    | Some e => throw e
    | None => ret (0, None, false)
    end
  else
    let last := u64 (nextLSN l + n - 1) in
    (if reserved l <? last then
       let want := Z.max last (u64 (nextLSN l + reserveBlock - 1)) in
       wrapping (λ e, Errorf "wal: reserve LSNs" [e]) (onDisk (MarkFiles.writeReserved want)) ;;;
       setLog (set_reserved want)
     else ret tt) ;;;
    setLog (place encode n) ;;;
    l' <- gets lg ;;
    ret (nextLSN l, Some (curRound l), mustCommit l').

(** [signalCommit] only wakes the committer: file Committer. *)
Record Commit := MkCommit { First : Z; Last : Z; cround : option nat }.

Definition AppendBatchAsync (payloads : list bytes) : M world Commit :=
  match payloads with
  | [] => ret (MkCommit 0 0 None)
  | _ =>
      l <- gets lg ;;
      if existsb (λ p, maxRecordBytes (opts l) <? len p) payloads
      then throw (Sentinel RecordTooLarge)
      else
        staged <- stage (λ dst, fold_left Record.appendRecord payloads dst) (len payloads) ;;
        let '(first, r, force) := staged in
        ret (MkCommit first (u64 (first + len payloads - 1)) r)
  end.

Definition Append (payload : bytes) : M world (Z * option nat) :=
  l <- gets lg ;;
  if maxRecordBytes (opts l) <? len payload then throw (Sentinel RecordTooLarge)
  else
    staged <- stage (λ dst, Record.appendRecord dst payload) 1 ;;
    let '(lsn, r, force) := staged in
    ret (lsn, r).

(** [AppendBatch] up to its [Await], like [Append] up to its [wait]. *)
Definition AppendBatch (payloads : list bytes) : M world (Z * option nat) :=
  match payloads with
  | [] => ret (0, None)
  | _ => c <- AppendBatchAsync payloads ;; ret (First c, cround c)
  end.

(** ** Waiting

    [wait] at an instant: [None] while it blocks.  With the round decided and
    the context done at once, [select] takes either, which [preferCtx] stands
    for. *)
Definition wait (ctx : option error) (preferCtx : bool) (l : log) (r : option nat)
    : option (result unit) :=
  match r with
  | None => Some (Ok tt)
  | Some i =>
      let pendingErr e := Some (Fail (Errorf "" [Sentinel Pending; e])) in
      match rounds l !! i, ctx with
      | Some (Decided err), None => Some (match err with None => Ok tt | Some e => Fail e end)
      | Some (Decided err), Some e =>
          if preferCtx then pendingErr e
          else Some (match err with None => Ok tt | Some e => Fail e end)
      | _, Some e => pendingErr e
      | _, None => None
      end
  end.

Definition Await (ctx : option error) (preferCtx : bool) (l : log) (c : Commit) : option (result unit) :=
  wait ctx preferCtx l (cround c).

(** The round [Sync] waits for. *)
Definition syncRound (l : log) : option nat :=
  if 0 <? len (pending l) then Some (curRound l) else inflight l.

(** ** The commit round *)

Record job := MkJob { buf : bytes; jfirst : Z; jlast : Z; jround : nat }.

(** First critical section: take the staged records. *)
Definition commitBegin (l : log) : option (job * log) :=
  if (len (pending l) =? 0) || broken l then None
  else
    Some (MkJob (pending l) (pendingMin l) (pendingMax l) (curRound l),
          MkLog (opts l) (sealed l) (active l) (nextLSN l) (firstLSN l) (reserved l) (id l)
            [] 0 0 (durable l) (closed l) (rounds l ++ [Undecided]) (length (rounds l))
            (Some (curRound l)) (failErr l) (broken l) (closeErr l)).

Definition set_f (h : handle) (s : segment) : segment :=
  Seg (baseLSN s) (path s) (prevEnd s) h (size s) (count s).

(** [File.Sync], [File.Close], [File.Write] and [File.Truncate] through the
    handle: a closed one refuses. *)
Definition via (s : segment) (m : M Disk.disk unit) : M Disk.disk unit :=
  match f s with
  | HOpen => m
  | _ => throw (Sentinel FileClosed)
  end.

(** The rotation branch of [writeBatch]. *)
Definition rotate (first : Z) : M world unit :=
  a <- gets (λ w, active (lg w)) ;;
  next <- onDisk (createSegment first (first -u 1)) ;;
  onDisk (on_error (via a (Disk.fsync (path a))) (discard next)) ;;;
  closed <- try (onDisk (via a (Disk.close (path a)))) ;;
  match closed with
  | Fail err =>
      _ <- try (onDisk (discard next)) ;;
      setLog (λ l, set_segs (sealed l) (set_f HClosed (active l)) l) ;;;
      throw err
  | Ok _ => setLog (λ l, set_segs (sealed l ++ [set_f HNil (active l)]) next l)
  end.

Definition grow (n k : Z) (s : segment) : segment :=
  Seg (baseLSN s) (path s) (prevEnd s) (f s) (size s + n) (count s +u k).

Definition mustRotate (l : log) (buf : bytes) : bool :=
  (0 <? size (active l)) && (maxSegmentBytes (opts l) <? size (active l) + len buf).

(** The rest of [writeBatch]: write, fsync unless [SyncNever], publish. *)
Definition appendBatch (mode : SyncMode) (buf : bytes) (n : Z) : M world unit :=
  a <- gets (λ w, active (lg w)) ;;
  onDisk (via a (Disk.write (path a) buf)) ;;;
  (if bool_decide (mode = SyncNever) then ret tt
   else onDisk (via a (Disk.fsync (path a)))) ;;;
  setLog (λ l, set_segs (sealed l) (grow (len buf) n (active l)) l).

Definition writeBatch (buf : bytes) (first n : Z) : M world unit :=
  l <- gets lg ;;
  (if mustRotate l buf then rotate first else ret tt) ;;;
  appendBatch (syncMode (opts l)) buf n.

Definition rollback : M world unit :=
  a <- gets (λ w, active (lg w)) ;;
  match f a with
  | HNil => ret tt
  | _ =>
      onDisk (via a (Disk.truncate (path a) (size a))) ;;;
      onDisk (via a (Disk.fsync (path a)))
  end.

(** [resolve] of a round: the outcome is set and [done] closed. *)
Definition resolve (i : nat) (err : option error) (rs : list round) : list round :=
  <[i := Decided err]> rs.

(** The error of a failed round: the cause, or [ErrBroken] over both. *)
Definition roundErr (err : error) (rollbackErr : option error) : error :=
  match rollbackErr with
  | None => err
  | Some re => Errorf "" [Sentinel Broken; Errorf "" [err; re]]
  end.

(** Last critical section and the resolution of the rounds. *)
Definition commitEnd (j : job) (err rollbackErr : option error) (l : log) : log :=
  match err with
  | None =>
      MkLog (opts l) (sealed l) (active l) (nextLSN l) (firstLSN l) (reserved l) (id l)
        (pending l) (pendingMin l) (pendingMax l) (jlast j) (closed l)
        (resolve (jround j) None (rounds l)) (curRound l) None
        (failErr l) (broken l) (closeErr l)
  | Some e =>
      let e' := roundErr e rollbackErr in
      MkLog (opts l) (sealed l) (active l) (jfirst j) (firstLSN l) (reserved l) (id l)
        [] 0 0 (durable l) (closed l)
        (resolve (curRound l) (Some e') (resolve (jround j) (Some e') (rounds l ++ [Undecided])))
        (length (rounds l)) None
        (Some e') (match rollbackErr with Some _ => true | None => broken l end) (closeErr l)
  end.

(** The part between the two locks: [writeBatch], then [rollback] if it
    failed. *)
Definition commitIO (j : job) : M world (option error * option error) := λ w,
  let n := u64 (jlast j - jfirst j + 1) in
  let '(r, w1) := writeBatch (buf j) (jfirst j) n w in
  match r with
  | Ok _ => (Ok (None, None), w1)
  | Fail e =>
      let '(rb, w2) := rollback w1 in
      (Ok (Some e, match rb with Ok _ => None | Fail re => Some re end), w2)
  end.

Definition commit : M world unit := λ w,
  match commitBegin (lg w) with
  | None => (Ok tt, w)
  | Some (j, l) =>
      let '(out, w1) := commitIO j (World l (dk w)) in
      match out with
      | Ok (err, rb) =>
          let l' := commitEnd j err rb (lg w1) in
          (match err with None => Ok tt | Some e => Fail (roundErr e rb) end, World l' (dk w1))
      | Fail e => (Fail e, w1)
      end
  end.

(** ** Truncation *)

(** How many segments from the front lie wholly below [upto]. *)
Fixpoint doomed (upto : Z) (ss : list segment) : nat :=
  match ss with
  | [] => 0
  | s :: ss => if upto <=? lastLSN s then 0 else S (doomed upto ss)
  end.

(** Remove the files in order, stopping at the first that will not go. *)
Fixpoint removeFiles (ss : list segment) (removed : nat) : M Disk.disk (nat * option error) :=
  match ss with
  | [] => ret (removed, None)
  | s :: ss =>
      r <- try (Disk.remove (path s)) ;;
      match r with
      | Ok _ => removeFiles ss (S removed)
      | Fail e => if errorsIs e NotExist then removeFiles ss (S removed) else ret (removed, Some e)
      end
  end.

Definition Truncate (upto : Z) : M world unit :=
  l <- gets lg ;;
  let drop_n := doomed upto (sealed l) in
  match drop_n with
  | O => ret tt
  | _ =>
      res <- onDisk (removeFiles (take drop_n (sealed l)) 0) ;;
      let '(removed, rerr) := res in
      setLog (λ l, let l' := set_segs (drop removed (sealed l)) (active l) l in
                   set_firstLSN (match sealed l' with s :: _ => baseLSN s | [] => baseLSN (active l') end) l') ;;;
      match rerr with
      | Some e => throw e
      | None => onDisk Disk.syncDir
      end
  end.

(** ** Close *)

Definition firstErr (a b : option error) : option error := match a with None => b | Some e => Some e end.
Definition errOf {A} (r : result A) : option error := match r with Ok _ => None | Fail e => Some e end.

Definition set_closed (l : log) : log :=
  MkLog (opts l) (sealed l) (active l) (nextLSN l) (firstLSN l) (reserved l) (id l) (pending l)
    (pendingMin l) (pendingMax l) (durable l) true (rounds l) (curRound l) (inflight l)
    (failErr l) (broken l) (closeErr l).
Definition set_closeErr (e : option error) (l : log) : log :=
  MkLog (opts l) (sealed l) (active l) (nextLSN l) (firstLSN l) (reserved l) (id l) (pending l)
    (pendingMin l) (pendingMax l) (durable l) (closed l) (rounds l) (curRound l) (inflight l)
    (failErr l) (broken l) e.

(** The last lines of [Close]: sync and close the active segment, release the
    lock; the first error wins. *)
Definition closeActive (err : option error) : M world (option error) :=
  a <- gets (λ w, active (lg w)) ;;
  match f a with
  | HNil => ret err
  | _ =>
      s <- try (onDisk (via a (Disk.fsync (path a)))) ;;
      c <- try (onDisk (via a (Disk.close (path a)))) ;;
      setLog (λ l, set_segs (sealed l) (set_f HNil (active l)) l) ;;;
      ret (firstErr (firstErr err (errOf s)) (errOf c))
  end.

(** What the committer still does when [Close] waits for it: the round of the [done]
    branch, whose error is the one [Close] reports; [early] is whether another came
    before it (file Committer). *)
Definition lastRounds (early : bool) : M world (result unit) :=
  _ <- (if early then try commit else ret (Ok tt)) ;;
  try commit.

(** [Close] with the committer's last rounds run in place. *)
Definition Close (early : bool) : M world unit :=
  l <- gets lg ;;
  if closed l then ret tt
  else
    setLog set_closed ;;;
    final <- lastRounds early ;;
    setLog (λ l, match final with Fail e => set_closeErr (Some e) l | Ok _ => l end) ;;;
    l <- gets lg ;;
    let allocated := nextLSN l -u 1 in
    err <- (if allocated <? reserved l then
              r <- try (onDisk (MarkFiles.writeReserved allocated)) ;;
              ret (firstErr (closeErr l) (errOf r))
            else ret (closeErr l)) ;;
    err <- closeActive err ;;
    c <- try (onDisk (Disk.close (Text.str "LOCK"%string))) ;;
    match firstErr err (errOf c) with
    | Some e => throw e
    | None => ret tt
    end.

(** ** Snapshots *)

Record segView := SegView {
  v_path : bytes;
  v_baseLSN : Z;
  v_prevEnd : Z;
  v_count : Z;
  v_size : Z
}.

Definition gapBefore (v : segView) (lsn : Z) : bool :=
  (v_prevEnd v <? lsn) && (lsn <? v_baseLSN v).

Definition snapshot (l : log) : list segView * Z :=
  (map (λ s, SegView (path s) (baseLSN s) (prevEnd s) (count s) (size s)) (segs l), durable l).

Definition DurableLSN (l : log) : Z := durable l.
Definition FirstLSN (l : log) : Z := firstLSN l.
Definition FirstPrevEnd (l : log) : Z := match segs l with s :: _ => prevEnd s | [] => 0 end.

End Log.
