(* ===== verification/LogInv.v ===== *)
(** * The log's invariant and what each section does to it

    [core w gs pa fly st junk h] relates a log and its directory to what they
    hold: the payloads [gs] of the sealed segments and [pa] of the active one,
    the records [fly] the committer is writing, the records [st] staged behind
    them, and the [junk] a failed write may have left after the active
    segment's durable bytes, whose write handle is [h].  The lemmas follow the
    critical sections of src/internal/wal/wal.go. *)

From stdpp Require Import strings.
From S2P Require Import Prelude Errors Text Record Disk Segment MarkFiles Log.
Local Open Scope Z_scope.
Local Open Scope go_scope.

Module LogInv.
Import Record Segment Log.

(** [s] is the segment of the payloads [ps], followed by [junk] in its file. *)
Record seg_rep (m : gmap bytes bytes) (max : Z) (junk : bytes) (s : segment) (ps : list bytes) : Prop := {
  rep_file : m !! path s = Some (frames ps ++ junk);
  rep_path : path s = segmentName (baseLSN s) (prevEnd s);
  rep_size : size s = len (frames ps);
  rep_count : count s = len ps;
  rep_payloads : Forall (payload_ok max) ps;
  rep_base : 1 <= baseLSN s;
  rep_bound : baseLSN s + len ps <= maxU64;
  rep_prev : 0 <= prevEnd s < baseLSN s
}.

(** Each segment follows the one in front of it. *)
Fixpoint linked (ss : list segment) : Prop :=
  match ss with
  | s :: ((s' :: _) as rest) => prevEnd s' = lastLSN s ∧ baseLSN s < baseLSN s' ∧ linked rest
  | _ => True
  end.

(** The records of a segment with their numbers, and of a run of segments. *)
Definition entries (base : Z) (ps : list bytes) : list (Z * bytes) :=
  imap (λ i p, (base + Z.of_nat i, p)) ps.
Definition records (ss : list segment) (gs : list (list bytes)) : list (Z * bytes) :=
  concat (zip_with (λ s ps, entries (baseLSN s) ps) ss gs).

Record core (w : world) (gs : list (list bytes)) (pa fly st : list bytes)
    (junk : bytes) (h : handle) : Prop := {
  c_max : 0 <= maxRecordBytes (opts (lg w)) <= maxRecordLimit;
  c_sealed : Forall2 (seg_rep (Disk.view (dk w)) (maxRecordBytes (opts (lg w))) []) (sealed (lg w)) gs;
  c_active : seg_rep (Disk.view (dk w)) (maxRecordBytes (opts (lg w))) junk (active (lg w)) pa;
  c_handle : f (active (lg w)) = h;
  c_linked : linked (segs (lg w));
  c_pending : pending (lg w) = frames st;
  c_staged : Forall (payload_ok (maxRecordBytes (opts (lg w)))) st;
  c_fly : Forall (payload_ok (maxRecordBytes (opts (lg w)))) fly;
  c_range : st ≠ [] →
    pendingMin (lg w) = baseLSN (active (lg w)) + len pa + len fly ∧
    pendingMax (lg w) = nextLSN (lg w) - 1;
  c_next : nextLSN (lg w) = baseLSN (active (lg w)) + len pa + len fly + len st;
  c_bound : nextLSN (lg w) <= maxU64;
  c_reserved : nextLSN (lg w) - 1 <= reserved (lg w) <= maxU64;
  c_mark : ∃ k, MarkFiles.markIn (Disk.view (dk w)) MarkFiles.reservedName = Some k ∧
                reserved (lg w) <= k <= maxU64
}.

(** Every record the log holds, oldest first. *)
Definition all_records (l : log) (gs : list (list bytes)) (pa : list bytes) : list (Z * bytes) :=
  records (segs l) (gs ++ [pa]).

(** The segments of a log with the records published in each. *)
Definition book (l : log) (gs : list (list bytes)) (pa : list bytes) : list (segment * list bytes) :=
  zip (segs l) (gs ++ [pa]).

(** The same segment file. *)
Record same_file (s t : segment) : Prop := {
  sf_path : path t = path s;
  sf_base : baseLSN t = baseLSN s;
  sf_prev : prevEnd t = prevEnd s
}.

(** How a book changes while the log runs: a segment may be dropped when it
    ends at or below [u], the others keep their records and may get more, and a
    new segment has a higher base than all there were. *)
Record grown (u : Z) (bk bk' : list (segment * list bytes)) : Prop := {
  gr_keep : ∀ s ps, (s, ps) ∈ bk →
    baseLSN s + len ps <= u ∨ ∃ t qs, (t, ps ++ qs) ∈ bk' ∧ same_file s t;
  gr_from : ∀ t qs, (t, qs) ∈ bk' →
    (∃ s ps qs', (s, ps) ∈ bk ∧ qs = ps ++ qs' ∧ same_file s t) ∨ (∀ s ps, (s, ps) ∈ bk → baseLSN s < baseLSN t);
  gr_top : ∀ s ps, (s, ps) ∈ bk → ∃ t qs, (t, qs) ∈ bk' ∧ baseLSN s + len ps <= baseLSN t + len qs ∧
             baseLSN s <= baseLSN t
}.

(** ** Lists of records *)

Lemma entries_app b ps qs : entries b (ps ++ qs) = entries b ps ++ entries (b + len ps) qs.
Proof.
  unfold entries. rewrite imap_app. f_equal. apply imap_ext. intros i x _. simpl.
  f_equal. unfold len. lia.
Qed.

Lemma entries_lsn b ps e : e ∈ entries b ps → b <= e.1 < b + len ps.
Proof.
  unfold entries. intros (i & x & -> & Hx)%elem_of_lookup_imap. apply lookup_lt_Some in Hx.
  simpl. unfold len. lia.
Qed.

Lemma records_app ss ss' gs gs' : length ss = length gs →
  records (ss ++ ss') (gs ++ gs') = records ss gs ++ records ss' gs'.
Proof. intros H. unfold records. by rewrite zip_with_app, concat_app. Qed.

Lemma records_single s ps : records [s] [ps] = entries (baseLSN s) ps.
Proof. unfold records. simpl. by rewrite app_nil_r. Qed.

(** ** Chains *)

Lemma linked_tail s ss : linked (s :: ss) → linked ss.
Proof. destruct ss; simpl; tauto. Qed.

Lemma linked_drop k ss : linked ss → linked (drop k ss).
Proof.
  revert ss. induction k as [|k IH]; intros [|s ss] H; try done.
  apply (IH ss). by apply linked_tail in H.
Qed.

Lemma linked_cons s s' ss :
  prevEnd s' = lastLSN s → baseLSN s < baseLSN s' → linked (s' :: ss) → linked (s :: s' :: ss).
Proof. done. Qed.

(** The chain only depends on the numbers of its segments. *)
Definition same_numbers (s t : segment) : Prop :=
  baseLSN s = baseLSN t ∧ prevEnd s = prevEnd t ∧ count s = count t.

Lemma linked_snoc ss a n :
  linked (ss ++ [a]) → prevEnd n = lastLSN a → baseLSN a < baseLSN n → linked ((ss ++ [a]) ++ [n]).
Proof.
  induction ss as [|s ss IH]; intros H Hp Hb; [done|].
  destruct ss as [|s' ss].
  - destruct H as (? & ? & _). done.
  - destruct H as (? & ? & H). split; [done|]. split; [done|]. by apply IH.
Qed.

Lemma linked_replace_last ss a b :
  linked (ss ++ [a]) → baseLSN a = baseLSN b → prevEnd a = prevEnd b → linked (ss ++ [b]).
Proof.
  intros H Hb Hp. induction ss as [|s ss IH]; [done|].
  destruct ss as [|s' ss].
  - destruct H as (H1 & H2 & _). simpl. rewrite <- Hb, <- Hp. done.
  - destruct H as (? & ? & H). split; [done|]. split; [done|]. by apply IH.
Qed.

Lemma linked_head_lt s ss x : linked (s :: ss) → x ∈ ss → baseLSN s < baseLSN x.
Proof.
  revert s. induction ss as [|s' ss IH]; intros s H Hx; [by apply not_elem_of_nil in Hx|].
  destruct H as (_ & Hlt & H). apply elem_of_cons in Hx as [->|Hx]; [done|].
  specialize (IH s' H Hx). lia.
Qed.

(** Bases tell the segments apart. *)
Lemma linked_inj l s s' : linked l → s ∈ l → s' ∈ l → baseLSN s = baseLSN s' → s = s'.
Proof.
  induction l as [|x l IH]; intros Hl Hs Hs' E; [by apply not_elem_of_nil in Hs|].
  apply elem_of_cons in Hs as [->|Hs], Hs' as [->|Hs']; [done| | |].
  - pose proof (linked_head_lt _ _ _ Hl Hs'). lia.
  - pose proof (linked_head_lt _ _ _ Hl Hs). lia.
  - apply IH; try done. by eapply linked_tail.
Qed.

Lemma linked_last_gt ss a x : linked (ss ++ [a]) → x ∈ ss → baseLSN x < baseLSN a.
Proof.
  induction ss as [|s ss IH]; intros H Hx; [by apply not_elem_of_nil in Hx|].
  apply elem_of_cons in Hx as [->|Hx].
  - apply (linked_head_lt s (ss ++ [a])); [done|]. apply elem_of_app. right. by apply list_elem_of_singleton.
  - apply IH; [|done]. by apply (linked_tail s).
Qed.

(** A segment ends below every later one. *)
Lemma linked_last_end ss a x :
  linked (ss ++ [a]) → Forall (λ s, prevEnd s < baseLSN s) (ss ++ [a]) → x ∈ ss → lastLSN x < baseLSN a.
Proof.
  induction ss as [|s ss IH]; intros H Hp Hx; [by apply not_elem_of_nil in Hx|].
  apply elem_of_cons in Hx as [->|Hx]; [|by apply IH; [eapply linked_tail | apply Forall_cons in Hp as [_ ?] |]].
  apply Forall_cons in Hp as [_ Hp].
  destruct ss as [|s' ss]; simpl in *; destruct H as (E & _ & H); rewrite <- E.
  - by apply Forall_cons in Hp as [? _].
  - apply Forall_cons in Hp as [? _]. pose proof (linked_last_gt (s' :: ss) a s' H ltac:(left)). lia.
Qed.

(** ** Books *)

Lemma same_file_refl s : same_file s s.
Proof. done. Qed.
#[local] Hint Resolve same_file_refl : core.

Lemma grown_refl u bk : grown u bk bk.
Proof.
  split.
  - intros s ps Hin. right. exists s, []. by rewrite app_nil_r.
  - intros t qs Hin. left. exists t, qs, []. by rewrite app_nil_r.
  - intros s ps Hin. exists s, ps. auto with lia.
Qed.

Lemma grown_trans u b1 b2 b3 : grown u b1 b2 → grown u b2 b3 → grown u b1 b3.
Proof.
  intros [K1 F1 T1] [K2 F2 T2]. split.
  - intros s ps Hin. destruct (K1 _ _ Hin) as [|(t & qs & Ht & [P1 B1 E1])]; [by left|].
    destruct (K2 _ _ Ht) as [Hle|(t' & qs' & Ht' & [P2 B2 E2])].
    + left. rewrite len_app in Hle. pose proof (len_nonneg qs). lia.
    + right. exists t', (qs ++ qs'). rewrite app_assoc. split; [done|]. split; congruence.
  - intros t qs Hin. destruct (F2 _ _ Hin) as [(s & ps & k & Hs & -> & [P2 B2 E2])|Hnew].
    + destruct (F1 _ _ Hs) as [(s0 & ps0 & k0 & Hs0 & -> & [P1 B1 E1])|Hnew].
      * left. exists s0, ps0, (k0 ++ k). rewrite app_assoc. split; [done|]. split; [done|]. split; congruence.
      * right. intros s0 ps0 H0. rewrite B2. by eapply Hnew.
    + right. intros s ps Hs. destruct (T1 _ _ Hs) as (s' & ps' & Hs' & _ & Hle). specialize (Hnew _ _ Hs'). lia.
  - intros s ps Hin. destruct (T1 _ _ Hin) as (t & qs & Ht & H1 & H1'). destruct (T2 _ _ Ht) as (t' & qs' & Ht' & H2 & H2').
    exists t', qs'. auto with lia.
Qed.

#[global] Instance grown_preorder u : PreOrder (grown u).
Proof. split; [by intros b; apply grown_refl | by intros b1 b2 b3; apply grown_trans]. Qed.

Lemma grown_mono u u' bk bk' : u <= u' → grown u bk bk' → grown u' bk bk'.
Proof.
  intros Hle [K F T]. split; try done. intros s ps Hin. destruct (K _ _ Hin) as [|H]; [left; lia | by right].
Qed.

(** The last segment gets more records, or another handle. *)
Lemma grown_last u b a a' ps qs : same_file a a' → grown u (b ++ [(a, ps)]) (b ++ [(a', ps ++ qs)]).
Proof.
  intros Ha. pose proof Ha as [_ Hb _]. split.
  - intros s rs [Hin|[= -> ->]%list_elem_of_singleton]%elem_of_app; right.
    + exists s, []. rewrite app_nil_r. split; [apply elem_of_app; by left | done].
    + exists a', qs. split; [|done]. apply elem_of_app. right. by apply list_elem_of_singleton.
  - intros t rs [Hin|[= -> ->]%list_elem_of_singleton]%elem_of_app; left.
    + exists t, rs, []. rewrite app_nil_r. split; [apply elem_of_app; by left | done].
    + exists a, ps, qs. split; [|done]. apply elem_of_app. right. by apply list_elem_of_singleton.
  - intros s rs [Hin|[= -> ->]%list_elem_of_singleton]%elem_of_app.
    + exists s, rs. split; [apply elem_of_app; by left | lia].
    + exists a', (ps ++ qs). rewrite len_app, Hb. pose proof (len_nonneg qs).
      split; [apply elem_of_app; right; by apply list_elem_of_singleton | lia].
Qed.

(** A new empty segment behind all others. *)
Lemma grown_push u b n :
  (∀ s ps, (s, ps) ∈ b → baseLSN s < baseLSN n ∧ baseLSN s + len ps <= baseLSN n) → grown u b (b ++ [(n, [])]).
Proof.
  intros Hn. split.
  - intros s ps Hin. right. exists s, []. rewrite app_nil_r. split; [apply elem_of_app; by left | done].
  - intros t qs [Hin|[= -> ->]%list_elem_of_singleton]%elem_of_app.
    + left. exists t, qs, []. by rewrite app_nil_r.
    + right. intros s ps Hs. by apply Hn in Hs as [? _].
  - intros s ps Hin. exists n, []. rewrite len_nil. pose proof (Hn _ _ Hin).
    split; [apply elem_of_app; right; by apply list_elem_of_singleton | lia].
Qed.

(** Segments dropped from the front, all at or below [u]. *)
Lemma grown_drop u b1 b2 t qs :
  (t, qs) ∈ b2 →
  (∀ s ps, (s, ps) ∈ b1 → baseLSN s + len ps <= u ∧ baseLSN s < baseLSN t ∧ baseLSN s + len ps <= baseLSN t) →
  grown u (b1 ++ b2) b2.
Proof.
  intros Ht H1. split.
  - intros s ps [Hin|Hin]%elem_of_app; [left; by apply H1 in Hin as [? _]|].
    right. exists s, []. by rewrite app_nil_r.
  - intros s ps Hin. left. exists s, ps, []. rewrite app_nil_r. split; [apply elem_of_app; by right | done].
  - intros s ps [Hin|Hin]%elem_of_app; [|exists s, ps; auto with lia].
    exists t, qs. pose proof (H1 _ _ Hin). pose proof (len_nonneg qs). split; [done | lia].
Qed.

(** ** Segments in their files *)

Lemma rep_is_u64 m max j s ps : seg_rep m max j s ps → is_u64 (baseLSN s) ∧ is_u64 (prevEnd s).
Proof.
  intros [_ _ _ _ _ ? ? ?]. pose proof (len_nonneg ps). unfold is_u64, maxU64 in *. lia.
Qed.

Lemma rep_path_ne m max j j' s s' ps ps' :
  seg_rep m max j s ps → seg_rep m max j' s' ps' → baseLSN s ≠ baseLSN s' → path s ≠ path s'.
Proof.
  intros H H' Hne E. destruct (rep_is_u64 _ _ _ _ _ H), (rep_is_u64 _ _ _ _ _ H').
  rewrite (rep_path _ _ _ _ _ H), (rep_path _ _ _ _ _ H') in E.
  apply segmentName_inj in E as [? _]; done.
Qed.

Lemma rep_lastLSN m max j s ps : seg_rep m max j s ps → lastLSN s = baseLSN s + len ps - 1.
Proof.
  intros H. unfold lastLSN. rewrite (rep_count _ _ _ _ _ H).
  pose proof (rep_base _ _ _ _ _ H). pose proof (rep_bound _ _ _ _ _ H).
  pose proof (len_nonneg ps). unfold maxU64 in *. apply u64_id. unfold is_u64. lia.
Qed.

Lemma rep_not_reserved m max j s ps : seg_rep m max j s ps →
  path s ≠ MarkFiles.reservedName ∧ path s ≠ MarkFiles.tmpOf MarkFiles.reservedName.
Proof.
  intros H. rewrite (rep_path _ _ _ _ _ H).
  split; intros E; apply (f_equal length) in E; rewrite length_segmentName in E; done.
Qed.

(** Another directory in which the segment's file is the same. *)
Lemma rep_frame m m' max j s ps :
  seg_rep m max j s ps → m' !! path s = m !! path s → seg_rep m' max j s ps.
Proof. intros [] E. split; try done. by rewrite E. Qed.

Lemma rep_change m m' max j j' s ps :
  seg_rep m max j s ps → m' !! path s = Some (frames ps ++ j') → seg_rep m' max j' s ps.
Proof. intros [] E. by split. Qed.

Lemma rep_set_f m max j s ps h : seg_rep m max j s ps → seg_rep m max j (set_f h s) ps.
Proof. intros []. by split. Qed.

(** The relevant files: the segments' and the reservation. *)
Definition relevant (l : log) (n : bytes) : Prop :=
  n = MarkFiles.reservedName ∨ ∃ s, s ∈ segs l ∧ n = path s.

Lemma sealed_frame (m m' : gmap bytes bytes) max ss gs :
  Forall2 (seg_rep m max []) ss gs → (∀ s, s ∈ ss → m' !! path s = m !! path s) →
  Forall2 (seg_rep m' max []) ss gs.
Proof.
  induction 1 as [|s ps ss gs Hs Hss IH]; intros He; constructor.
  - eapply rep_frame; [done|]. apply He. left.
  - apply IH. intros s' Hs'. apply He. by right.
Qed.

Section core.
Context {w : world} {gs : list (list bytes)} {pa fly st : list bytes} {junk : bytes} {h : handle}.
Context (C : core w gs pa fly st junk h).
Local Abbreviation l := (lg w).
Local Abbreviation v := (Disk.view (dk w)).

Lemma core_active_in : active l ∈ segs l.
Proof. apply elem_of_app. right. by apply list_elem_of_singleton. Qed.

Lemma core_sealed_ne s : s ∈ sealed l → path s ≠ path (active l).
Proof using C.
  intros Hs. apply list_elem_of_lookup in Hs as Hl. destruct Hl as [i Hi].
  destruct (Forall2_lookup_l _ _ _ _ _ (c_sealed _ _ _ _ _ _ _ C) Hi) as (ps & _ & Hr).
  eapply rep_path_ne; [exact Hr | apply (c_active _ _ _ _ _ _ _ C) |].
  pose proof (linked_last_gt _ _ _ (c_linked _ _ _ _ _ _ _ C) Hs). lia.
Qed.

Lemma core_sealed_not_reserved s : s ∈ sealed l → path s ≠ MarkFiles.reservedName.
Proof using C.
  intros Hs. apply list_elem_of_lookup in Hs as [i Hi].
  destruct (Forall2_lookup_l _ _ _ _ _ (c_sealed _ _ _ _ _ _ _ C) Hi) as (ps & _ & Hr).
  by apply rep_not_reserved in Hr as [? _].
Qed.

(** A directory that agrees on the relevant files serves as well. *)
Lemma core_frame d' :
  (∀ n, relevant l n → Disk.view d' !! n = v !! n) → core (World l d') gs pa fly st junk h.
Proof using C.
  intros E. destruct C. split; simpl; try done.
  - eapply sealed_frame; [done|]. intros s Hs. apply E. right. exists s. split; [|done].
    apply elem_of_app. by left.
  - eapply rep_frame; [done|]. apply E. right. exists (active l). split; [apply core_active_in | done].
  - destruct c_mark0 as (k & Hk & Hle). exists k. split; [|done].
    unfold MarkFiles.markIn. rewrite E; [done|]. by left.
Qed.

(** Bytes after the durable ones of the active segment come and go. *)
Lemma core_junk d' junk' :
  Disk.view d' = <[path (active l) := frames pa ++ junk']> v →
  core (World l d') gs pa fly st junk' h.
Proof using C.
  intros E. pose proof core_sealed_ne as Hne.
  pose proof (rep_not_reserved _ _ _ _ _ (c_active _ _ _ _ _ _ _ C)) as [Hr _].
  destruct C. split; simpl; try done.
  - eapply sealed_frame; [done|]. intros s Hs. rewrite E, lookup_insert_ne; [done|].
    apply not_eq_sym. auto.
  - eapply rep_change; [done|]. rewrite E. apply lookup_insert_eq.
  - destruct c_mark0 as (k & Hk & Hle). exists k. split; [|done].
    unfold MarkFiles.markIn. by rewrite E, lookup_insert_ne.
Qed.

Lemma core_length : length (sealed l) = length gs.
Proof using C. apply (Forall2_length _ _ _ (c_sealed _ _ _ _ _ _ _ C)). Qed.

(** A log that differs in its handle only. *)
Lemma core_handle h' : core (World (set_segs (sealed l) (set_f h' (active l)) l) (dk w)) gs pa fly st junk h'.
Proof using C.
  destruct C. split; simpl; try done.
  - by apply rep_set_f.
  - unfold segs. simpl. by apply (linked_replace_last _ (active l)).
Qed.

(** *** Publishing a written batch *)
Lemma core_publish d' :
  fly ≠ [] → Disk.view d' = <[path (active l) := frames pa ++ frames fly]> v →
  core (World (set_segs (sealed l) (grow (len (frames fly)) (len fly) (active l)) l) d')
    gs (pa ++ fly) [] st [] h.
Proof using C.
  intros Hfly E. pose proof core_sealed_ne as Hne.
  pose proof (rep_not_reserved _ _ _ _ _ (c_active _ _ _ _ _ _ _ C)) as [Hr _].
  destruct C. pose proof (len_nonneg st). pose proof (len_nonneg fly). pose proof (len_nonneg pa).
  destruct c_active0 as [Rf Rp Rs Rc Rpl Rb Rbd Rpr].
  split; simpl; try done.
  - eapply sealed_frame; [done|]. intros s Hs. rewrite E, lookup_insert_ne; [done|].
    apply not_eq_sym. auto.
  - split; simpl; try done.
    + rewrite E, lookup_insert_eq, app_nil_r. by rewrite frames_app.
    + rewrite frames_app, len_app. lia.
    + rewrite Rc, len_app. apply u64_id. unfold is_u64, maxU64 in *. lia.
    + by apply Forall_app.
    + rewrite len_app. lia.
  - unfold segs. simpl. by apply (linked_replace_last _ (active l)).
  - intros Hst. destruct (c_range0 Hst) as [-> ->]. rewrite len_app, len_nil. lia.
  - rewrite len_app, len_nil. lia.
  - destruct c_mark0 as (k & Hk & Hle). exists k. split; [|done].
    unfold MarkFiles.markIn. by rewrite E, lookup_insert_ne.
Qed.

(** *** A fresh segment behind the active one *)
Lemma core_rotate d' first :
  junk = [] → pa ≠ [] → first = baseLSN (active l) + len pa → first <= maxU64 →
  let n := segmentName first (first - 1) in
  Disk.view d' = <[n := []]> v →
  core (World (set_segs (sealed l ++ [set_f HNil (active l)]) (Seg first n (first - 1) HOpen 0 0) l) d')
    (gs ++ [pa]) [] fly st [] HOpen.
Proof using C.
  intros -> Hpa Hf Hle n E. pose proof (len_nonneg pa) as Hlp.
  pose proof (len_pos pa Hpa) as Hpos.
  assert (Hnew : ∀ s ps, seg_rep v (maxRecordBytes (opts l)) [] s ps → baseLSN s < first → n ≠ path s).
  { intros s ps Hs Hlt. destruct (rep_is_u64 _ _ _ _ _ Hs). pose proof (rep_base _ _ _ _ _ Hs).
    rewrite (rep_path _ _ _ _ _ Hs). unfold n. intros En.
    apply segmentName_inj in En as [? _]; unfold is_u64, maxU64 in *; lia. }
  assert (Hnr : n ≠ MarkFiles.reservedName).
  { intros En. apply (f_equal length) in En. unfold n in En. by rewrite length_segmentName in En. }
  destruct C. pose proof (rep_lastLSN _ _ _ _ _ c_active0) as Hlast.
  pose proof (rep_base _ _ _ _ _ c_active0) as Hb.
  split; simpl; try done.
  - apply Forall2_app.
    + eapply sealed_frame; [done|]. intros s Hs.
      pose proof (linked_last_gt _ _ _ c_linked0 Hs). apply list_elem_of_lookup in Hs as [i Hi].
      destruct (Forall2_lookup_l _ _ _ _ _ c_sealed0 Hi) as (ps & _ & Hr).
      rewrite E, lookup_insert_ne; [done|]. eapply Hnew; [done | lia].
    + constructor; [|constructor]. apply rep_set_f. eapply rep_frame; [done|].
      rewrite E, lookup_insert_ne; [done|]. eapply Hnew; [done | lia].
  - split; simpl; try done; try (unfold len; simpl; lia).
    rewrite E. apply lookup_insert_eq.
  - unfold segs. simpl. apply linked_snoc.
    + by apply (linked_replace_last _ (active l)).
    + simpl. rewrite Hf. unfold lastLSN in *. simpl. lia.
    + simpl. lia.
  - intros Hst. destruct (c_range0 Hst) as [-> ->]. rewrite len_nil. lia.
  - rewrite len_nil. lia.
  - destruct c_mark0 as (k & Hk & Hk2). exists k. split; [|done].
    unfold MarkFiles.markIn. by rewrite E, lookup_insert_ne.
Qed.

Lemma records_rotate first n p :
  all_records (set_segs (sealed l ++ [set_f HNil (active l)]) (Seg first n p HOpen 0 0) l) (gs ++ [pa]) []
  = all_records l gs pa.
Proof using C.
  unfold all_records, segs. simpl. pose proof core_length.
  rewrite records_app by (rewrite !length_app; simpl; lia).
  rewrite !records_app by lia. rewrite !records_single. simpl. by rewrite app_nil_r.
Qed.

Lemma records_handle h' :
  all_records (set_segs (sealed l) (set_f h' (active l)) l) gs pa = all_records l gs pa.
Proof using C.
  unfold all_records, segs. simpl. pose proof core_length.
  rewrite !records_app by lia. by rewrite !records_single.
Qed.

Lemma records_publish qs k :
  all_records (set_segs (sealed l) (grow k (len qs) (active l)) l) gs (pa ++ qs)
  = all_records l gs pa ++ entries (baseLSN (active l) + len pa) qs.
Proof using C.
  unfold all_records, segs. simpl. pose proof core_length.
  rewrite !records_app by lia. rewrite !records_single. simpl.
  by rewrite entries_app, app_assoc.
Qed.

Lemma book_split : book l gs pa = zip (sealed l) gs ++ [(active l, pa)].
Proof using C. unfold book, segs. rewrite zip_with_app by apply core_length. done. Qed.

(** Every segment in the book ends at or below the active one's base. *)
Lemma sealed_below s ps : (s, ps) ∈ zip (sealed l) gs →
  baseLSN s < baseLSN (active l) ∧ baseLSN s + len ps <= baseLSN (active l) ∧ s ∈ sealed l ∧
  lastLSN s = baseLSN s + len ps - 1.
Proof using C.
  intros Hin. apply elem_of_lookup_zip_with in Hin as (i & x & y & [= <- <-] & Hx & Hy).
  pose proof (Forall2_lookup_lr _ _ _ _ _ _ (c_sealed _ _ _ _ _ _ _ C) Hx Hy) as Hr.
  pose proof (rep_lastLSN _ _ _ _ _ Hr) as Hl. assert (Hs : s ∈ sealed l) by (by eapply list_elem_of_lookup_2).
  pose proof (linked_last_gt _ _ _ (c_linked _ _ _ _ _ _ _ C) Hs).
  assert (lastLSN s < baseLSN (active l)); [|split_and!; [lia | lia | done | done]].
  apply (linked_last_end (sealed l)); [apply C | | done]. apply Forall_app. split.
  - apply Forall_forall. intros t Ht. apply list_elem_of_lookup in Ht as [k Hk].
    destruct (Forall2_lookup_l _ _ _ _ _ (c_sealed _ _ _ _ _ _ _ C) Hk) as (qs & _ & Hr').
    by destruct (rep_prev _ _ _ _ _ Hr').
  - constructor; [|constructor]. by destruct (rep_prev _ _ _ _ _ (c_active _ _ _ _ _ _ _ C)).
Qed.

Lemma book_handle u h' : grown u (book l gs pa) (book (set_segs (sealed l) (set_f h' (active l)) l) gs pa).
Proof using C.
  unfold book at 2. unfold segs. simpl. rewrite zip_with_app by apply core_length. rewrite book_split.
  rewrite <- (app_nil_r pa) at 2. by apply grown_last.
Qed.

Lemma book_publish u k n qs :
  grown u (book l gs pa) (book (set_segs (sealed l) (grow k n (active l)) l) gs (pa ++ qs)).
Proof using C.
  unfold book at 2. unfold segs. simpl. rewrite zip_with_app by apply core_length. rewrite book_split.
  by apply grown_last.
Qed.

Lemma book_rotate u first n p :
  pa ≠ [] → first = baseLSN (active l) + len pa →
  grown u (book l gs pa)
    (book (set_segs (sealed l ++ [set_f HNil (active l)]) (Seg first n p HOpen 0 0) l) (gs ++ [pa]) []).
Proof using C.
  intros Hpa Hf. pose proof (len_pos pa Hpa). etrans; [apply (book_handle _ HNil)|].
  unfold book, segs. simpl.
  rewrite (zip_with_app _ (sealed l ++ [set_f HNil (active l)])) by (rewrite !length_app; f_equal; apply core_length).
  simpl. apply grown_push. simpl. rewrite zip_with_app by apply core_length.
  intros s ps [Hin|[= -> ->]%list_elem_of_singleton]%elem_of_app; simpl; [|lia].
  destruct (sealed_below s ps Hin) as (? & ? & _). lia.
Qed.
(** Every segment of the book with its records. *)
Lemma book_rep s ps : (s, ps) ∈ book l gs pa → s ∈ segs l ∧ ∃ j, seg_rep v (maxRecordBytes (opts l)) j s ps.
Proof using C.
  intros Hin. split.
  - apply elem_of_zip_l in Hin. done.
  - unfold book in Hin. apply elem_of_lookup_zip_with in Hin as (i & x & y & [= <- <-] & Hx & Hy).
    assert (Hall : Forall2 (λ s ps, ∃ j, seg_rep v (maxRecordBytes (opts l)) j s ps) (segs l) (gs ++ [pa])).
    { apply Forall2_app; [|constructor; [|constructor]].
      - eapply Forall2_impl; [apply C|]. intros ? ? H. by eexists.
      - eexists. apply C. }
    by eapply (Forall2_lookup_lr _ _ _ _ _ _ Hall).
Qed.

Lemma book_fst : (book l gs pa).*1 = segs l.
Proof using C.
  apply fst_zip. pose proof core_length. unfold segs. rewrite !length_app. simpl. lia.
Qed.

Lemma book_records e : e ∈ all_records l gs pa ↔ ∃ s ps, (s, ps) ∈ book l gs pa ∧ e ∈ entries (baseLSN s) ps.
Proof using C.
  unfold all_records, records, book. rewrite list_elem_of_In, in_concat. split.
  - intros (x & Hx%list_elem_of_In & He%list_elem_of_In).
    apply elem_of_lookup_zip_with in Hx as (i & s & ps & -> & Hs & Hp). exists s, ps. split; [|done].
    apply elem_of_lookup_zip_with. eauto 10.
  - intros (s & ps & Hin & He). exists (entries (baseLSN s) ps). rewrite <- !list_elem_of_In. split; [|done].
    apply elem_of_lookup_zip_with in Hin as (i & s' & ps' & [= <- <-] & Hs & Hp).
    apply elem_of_lookup_zip_with. eauto 10.
Qed.

End core.

(** ** Numbers only grow *)

Lemma entries_sorted b ps : StronglySorted Z.lt (entries b ps).*1.
Proof.
  revert b. induction ps as [|p ps IH]; intros b; [constructor|].
  change (p :: ps) with ([p] ++ ps). rewrite entries_app. simpl. constructor; [apply IH|].
  apply Forall_fmap, Forall_forall. intros e He%entries_lsn. unfold len in He. simpl in *. lia.
Qed.

Lemma sorted_snoc (a b : list (Z * bytes)) k :
  StronglySorted Z.lt a.*1 → StronglySorted Z.lt b.*1 →
  Forall (λ e, e.1 < k) a → Forall (λ e, k <= e.1) b → StronglySorted Z.lt (a ++ b).*1.
Proof.
  intros Ha Hb Hlo Hhi. rewrite fmap_app. apply StronglySorted_app_2; [|done|done].
  intros x y (e & -> & He)%list_elem_of_fmap (e' & -> & He')%list_elem_of_fmap.
  rewrite Forall_forall in Hlo, Hhi. apply Hlo in He. apply Hhi in He'. lia.
Qed.

Lemma records_ge m max ss gs b :
  Forall2 (λ s ps, ∃ j, seg_rep m max j s ps) ss gs → linked ss →
  Forall (λ s, b <= baseLSN s) ss → Forall (λ e, b <= e.1) (records ss gs).
Proof.
  intros H. induction H as [|s ps ss gs [j Hs] Hss IH]; intros Hl Hb; [constructor|].
  apply Forall_cons in Hb as [Hb Hbs]. unfold records. simpl. apply Forall_app. split.
  - apply Forall_forall. intros e He%entries_lsn. lia.
  - apply IH; [by apply linked_tail in Hl | done].
Qed.

Lemma records_sorted m max ss gs :
  Forall2 (λ s ps, ∃ j, seg_rep m max j s ps) ss gs → linked ss →
  StronglySorted Z.lt (records ss gs).*1.
Proof.
  intros H. induction H as [|s ps ss gs [j Hs] Hss IH]; intros Hl; [constructor|].
  pose proof (linked_tail _ _ Hl) as Hl'. unfold records. simpl.
  destruct Hss as [|s' ps' ss gs [j' Hs'] Hss].
  { simpl. rewrite app_nil_r. apply entries_sorted. }
  destruct Hl as (Hp & _ & _). pose proof (rep_prev _ _ _ _ _ Hs').
  rewrite (rep_lastLSN _ _ _ _ _ Hs) in Hp.
  apply (sorted_snoc _ _ (baseLSN s')).
  - apply entries_sorted.
  - by apply IH.
  - apply Forall_forall. intros e He%entries_lsn. lia.
  - apply (records_ge m max (s' :: ss)); [constructor; eauto | done |].
    constructor; [lia|]. apply Forall_forall. intros x Hx.
    pose proof (linked_head_lt _ _ _ Hl' Hx). lia.
Qed.

Lemma core_sorted w gs pa fly st junk h :
  core w gs pa fly st junk h → StronglySorted Z.lt (all_records (lg w) gs pa).*1.
Proof.
  intros []. eapply records_sorted; [|done]. apply Forall2_app.
  - eapply Forall2_impl; [done|]. eauto.
  - constructor; [by eexists | constructor].
Qed.

Lemma linked_prefix ss ss' : linked (ss ++ ss') → linked ss.
Proof.
  induction ss as [|s ss IH]; intros H; [done|]. destruct ss as [|s' ss]; [done|].
  destruct H as (? & ? & H). split; [done|]. split; [done|]. by apply IH.
Qed.

Lemma lastRecordLSN_snoc ss s :
  lastRecordLSN (ss ++ [s]) = if 0 <? count s then lastLSN s else lastRecordLSN ss.
Proof. unfold lastRecordLSN. by rewrite rev_app_distr. Qed.

(** The durable mark recovery computes is the last record's number. *)
Lemma lastRecordLSN_spec m max ss gs :
  Forall2 (λ s ps, ∃ j, seg_rep m max j s ps) ss gs → linked ss →
  0 <= lastRecordLSN ss ∧ Forall (λ e, e.1 <= lastRecordLSN ss) (records ss gs) ∧
  ∀ s, last ss = Some s → lastRecordLSN ss <= lastLSN s.
Proof.
  revert gs. induction ss as [|s ss IH] using rev_ind; intros gs H Hl.
  { apply Forall2_nil_inv_l in H as ->. split; [done|]. split; [constructor | done]. }
  apply Forall2_app_inv_l in H as (gs1 & gs2 & H1 & H2 & ->).
  apply Forall2_cons_inv_l in H2 as (ps & gs2' & [j Hs] & H2 & ->). apply Forall2_nil_inv_l in H2 as ->.
  pose proof (linked_prefix _ _ Hl) as Hl1. specialize (IH gs1 H1 Hl1) as (H0 & Hall & Hlast).
  rewrite lastRecordLSN_snoc, records_app, records_single by (by eapply Forall2_length).
  pose proof (rep_lastLSN _ _ _ _ _ Hs) as Hls. pose proof (rep_base _ _ _ _ _ Hs) as Hb.
  pose proof (rep_count _ _ _ _ _ Hs) as Hc. pose proof (len_nonneg ps).
  assert (Hle : lastRecordLSN ss <= baseLSN s - 1).
  { destruct (last ss) as [s'|] eqn:E; [|apply last_None in E as ->; unfold lastRecordLSN; simpl; lia].
    specialize (Hlast s' eq_refl). apply last_Some in E as [ss' ->].
    rewrite <- app_assoc in Hl.
    assert (Hp : prevEnd s = lastLSN s').
    { clear -Hl. induction ss' as [|x ss' IH]; [by destruct Hl|]. apply IH. by eapply linked_tail in Hl. }
    pose proof (rep_prev _ _ _ _ _ Hs). lia. }
  destruct (Z.ltb_spec 0 (count s)) as [Hpos|Hz].
  - split; [lia|]. split; [|intros s' E; rewrite last_snoc in E; injection E as <-; lia].
    apply Forall_app. split.
    + eapply Forall_impl; [exact Hall|]. simpl. intros e. lia.
    + rewrite Hls. apply Forall_forall. intros e He%entries_lsn. lia.
  - split; [done|]. split; [|intros s' E; rewrite last_snoc in E; injection E as <-; lia].
    apply Forall_app. split; [done|].
    assert (ps = []) as -> by (apply len_zero; lia). constructor.
Qed.

(** ** Runs of the operations *)

Lemma onDisk_inv {A} (m : M Disk.disk A) w r w' :
  onDisk m w = (r, w') → ∃ d', m (dk w) = (r, d') ∧ w' = World (lg w) d'.
Proof. unfold onDisk. destruct (m (dk w)) as [r1 d1]. intros [= <- <-]. eauto. Qed.

Lemma bind_gets_inv {S A B} (g : S → A) (k : A → M S B) s r s' :
  bind (gets g) k s = (r, s') → k (g s) s = (r, s').
Proof. done. Qed.

(** Through an open handle the call is made; through any other it fails and
    changes nothing. *)
Lemma via_inv s m d r d' : via s m d = (r, d') →
  (f s = HOpen ∧ m d = (r, d')) ∨ (f s ≠ HOpen ∧ r = Fail (Sentinel FileClosed) ∧ d' = d).
Proof. unfold via. destruct (f s); intros H; [right | left; done | right]; by injection H as <- <-. Qed.

Lemma world_eta w : World (lg w) (dk w) = w.
Proof. by destruct w. Qed.

(** What an operation of the committer may change in the log. *)
Definition segs_only (l l' : log) : Prop := ∃ ss a, l' = set_segs ss a l.

Lemma segs_only_refl l : segs_only l l.
Proof. exists (sealed l), (active l). by destruct l. Qed.

Lemma segs_only_trans l1 l2 l3 : segs_only l1 l2 → segs_only l2 l3 → segs_only l1 l3.
Proof. intros (ss & a & ->) (ss' & a' & ->). by exists ss', a'. Qed.

(** The committer's file operations change nothing else in the log. *)
Lemma rotate_log first w r w' : rotate first w = (r, w') → segs_only (lg w) (lg w').
Proof.
  unfold rotate. intros H. apply bind_gets_inv in H. cbv beta in H.
  apply bind_inv in H as [(n & w1 & H1 & H)|(e & H & _)].
  2: { apply onDisk_inv in H as (d & _ & ->). apply segs_only_refl. }
  apply onDisk_inv in H1 as (d1 & _ & ->).
  apply bind_inv in H as [([] & w2 & H2 & H)|(e & H & _)].
  2: { apply onDisk_inv in H as (d & _ & ->). apply segs_only_refl. }
  apply onDisk_inv in H2 as (d2 & _ & ->).
  apply bind_try_inv in H as (c & w3 & H3 & H). apply onDisk_inv in H3 as (d3 & _ & ->).
  destruct c as [u|e]; [injection H as _ <-; by eexists _, _|].
  apply bind_try_inv in H as (y & w4 & H4 & H). apply onDisk_inv in H4 as (d4 & _ & ->).
  injection H as _ <-. by eexists _, _.
Qed.

Lemma appendBatch_log mode b n w r w' : appendBatch mode b n w = (r, w') → segs_only (lg w) (lg w').
Proof.
  unfold appendBatch. intros H. apply bind_gets_inv in H. cbv beta in H.
  apply bind_inv in H as [([] & w1 & H1 & H)|(e & H & _)].
  2: { apply onDisk_inv in H as (d & _ & ->). apply segs_only_refl. }
  apply onDisk_inv in H1 as (d1 & _ & ->).
  apply bind_inv in H as [([] & w2 & H2 & H)|(e & H & _)].
  - injection H as _ <-. case_bool_decide; [injection H2 as <-; by eexists _, _|].
    apply onDisk_inv in H2 as (d2 & _ & ->). by eexists _, _.
  - case_bool_decide; [done|]. apply onDisk_inv in H as (d2 & _ & ->). apply segs_only_refl.
Qed.

Lemma rollback_log w r w' : rollback w = (r, w') → lg w' = lg w.
Proof.
  unfold rollback. intros H. apply bind_gets_inv in H. cbv beta in H.
  destruct (f _); [by injection H as _ <-| |];
    (apply bind_inv in H as [([] & w1 & H1 & H)|(e & H & _)];
     [apply onDisk_inv in H1 as (d1 & _ & ->)|]; by apply onDisk_inv in H as (d & _ & ->)).
Qed.

Section ops.
Context {w : world} {gs : list (list bytes)} {pa fly st : list bytes} {junk : bytes} {h : handle}.
Context (C : core w gs pa fly st junk h).
Local Abbreviation l := (lg w).
Local Abbreviation v := (Disk.view (dk w)).

Lemma core_view_same d' : Disk.view d' = v → core (World l d') gs pa fly st junk h.
Proof using C. intros E. apply (core_frame C). intros n _. by rewrite E. Qed.

(** The name of the next segment belongs to no segment of the log. *)
Lemma next_name_fresh first n :
  junk = [] → pa ≠ [] → first = baseLSN (active l) + len pa → first <= maxU64 →
  relevant l n → n ≠ segmentName first (first - 1).
Proof using C.
  intros -> Hpa Hf Hle Hn E. pose proof (len_pos pa Hpa).
  pose proof (rep_base _ _ _ _ _ (c_active _ _ _ _ _ _ _ C)) as Hb.
  destruct Hn as [->|(s & Hs & ->)].
  { apply (f_equal length) in E. by rewrite length_segmentName in E. }
  assert (Hin : ∃ ps, seg_rep v (maxRecordBytes (opts l)) [] s ps ∧ baseLSN s < first).
  { apply elem_of_app in Hs as [Hs|Hs].
    - pose proof (linked_last_gt _ _ _ (c_linked _ _ _ _ _ _ _ C) Hs).
      apply list_elem_of_lookup in Hs as [i Hi].
      destruct (Forall2_lookup_l _ _ _ _ _ (c_sealed _ _ _ _ _ _ _ C) Hi) as (ps & _ & Hr).
      exists ps. split; [done|]. lia.
    - apply list_elem_of_singleton in Hs as ->. exists pa. split; [apply C|]. lia. }
  destruct Hin as (ps & Hr & Hlt). destruct (rep_is_u64 _ _ _ _ _ Hr).
  rewrite (rep_path _ _ _ _ _ Hr) in E.
  apply segmentName_inj in E as [? _]; unfold is_u64, maxU64 in *; lia.
Qed.

(** Rotation: a new empty active segment, or the log as it was with, at
    worst, a handle that is closed. *)
Lemma rotate_spec first r w' :
  junk = [] → h = HOpen → pa ≠ [] → first = baseLSN (active l) + len pa → first <= maxU64 →
  rotate first w = (r, w') →
  segs_only l (lg w') ∧
  ((r = Ok tt ∧ core w' (gs ++ [pa]) [] fly st [] HOpen ∧ baseLSN (active (lg w')) = first ∧
    all_records (lg w') (gs ++ [pa]) [] = all_records l gs pa ∧
    ∀ u, grown u (book l gs pa) (book (lg w') (gs ++ [pa]) [])) ∨
   (∃ e h', r = Fail e ∧ h' ≠ HNil ∧ core w' gs pa fly st [] h' ∧ all_records (lg w') gs pa = all_records l gs pa ∧
    ∀ u, grown u (book l gs pa) (book (lg w') gs pa))).
Proof using C.
  intros Hj Hh Hpa Hf Hle H. pose proof (c_handle _ _ _ _ _ _ _ C) as Hhd.
  pose proof (rep_base _ _ _ _ _ (c_active _ _ _ _ _ _ _ C)) as Hb. pose proof (len_pos pa Hpa).
  unfold rotate in H. apply bind_gets_inv in H. cbv beta in H.
  replace (u64 (first - 1)) with (first - 1) in H by (unfold maxU64 in *; ulia).
  assert (Hkeep : ∀ d1 w1, (∀ n, n ≠ segmentName first (first - 1) → Disk.view d1 !! n = v !! n) →
    w1 = World l d1 → core w1 gs pa fly st [] HOpen).
  { intros d1 w1 E ->. rewrite <- Hj, <- Hh. apply (core_frame C). intros n Hn. apply E.
    by apply (next_name_fresh first n). }
  apply bind_inv in H as [(next & w1 & H1 & H)|(e & H & ->)].
  2: { apply onDisk_inv in H as (d1 & H & ->). apply createSegment_inv in H as [([=] & _)|(e' & [= <-] & V)].
       split; [apply segs_only_refl|]. right. exists e, HOpen. split; [done|]. split; [done|].
       split; [by eapply Hkeep|]. split; [done|]. intros u. apply grown_refl. }
  apply onDisk_inv in H1 as (d1 & H1 & ->). apply createSegment_inv in H1 as [([= ->] & _ & V1)|(? & [=] & _)].
  set (n := segmentName first (first - 1)) in *.
  assert (Keep : ∀ d2, (∀ m, m ≠ n → Disk.view d2 !! m = Disk.view d1 !! m) →
    ∀ m, m ≠ n → Disk.view d2 !! m = v !! m).
  { intros d2 E m Hm. rewrite E, V1 by done. by apply lookup_insert_ne. }
  apply bind_inv in H as [([] & w2 & H2 & H)|(e & H & ->)].
  2: { apply onDisk_inv in H as (d2 & H & ->). simpl in *.
       apply on_error_inv in H as [(? & _ & [=])|(e1 & d3 & rc & H3 & Hd & _)].
       assert (V3 : Disk.view d3 = Disk.view d1).
       { apply via_inv in H3 as [[_ H3]|(_ & _ & ->)]; [by apply Disk.fsync_inv in H3 as [_ ?] | done]. }
       split; [apply segs_only_refl|]. right. exists e, HOpen. split; [done|]. split; [done|].
       split; [|split; [done | intros u; apply grown_refl]].
       apply (Hkeep d2); [|done]. apply Keep. intros m Hm. rewrite (discard_view _ _ _ _ Hd) by done. by rewrite V3. }
  apply onDisk_inv in H2 as (d2 & H2 & ->). simpl in *.
  apply on_error_inv in H2 as [(? & H2 & _)|(? & ? & ? & _ & _ & [=])].
  apply via_inv in H2 as [[_ H2]|(Hne & _)]; [|congruence]. apply Disk.fsync_inv in H2 as [_ V2].
  apply bind_try_inv in H as (c & w3 & H3 & H). apply onDisk_inv in H3 as (d3 & H3 & ->). simpl in *.
  apply via_inv in H3 as [[_ H3]|(Hne & _)]; [|congruence]. apply Disk.close_inv in H3 as [_ V3].
  destruct c as [u|err].
  - injection H as <- <-. simpl. split; [by eexists _, _|]. left.
    assert (V : Disk.view d3 = <[n := []]> v) by congruence.
    split; [done|]. split; [by apply (core_rotate C)|]. split; [done|].
    split; [apply (records_rotate C) | intros bound; by apply (book_rotate C)].
  - apply bind_try_inv in H as (y & w4 & H4 & H). apply onDisk_inv in H4 as (d4 & H4 & ->). simpl in *.
    injection H as <- <-. simpl. split; [by eexists _, _|]. right. exists err, HClosed.
    split; [done|]. split; [done|].
    split; [|split; [apply (records_handle C) | intros u; apply (book_handle C)]].
    apply (@core_handle (World l d4) gs pa fly st [] HOpen). apply (Hkeep d4); [|done].
    apply Keep. intros m Hm. rewrite (discard_view _ _ _ _ H4) by done. by rewrite V3, V2.
Qed.

(** Writing and publishing the batch, or leaving some of it as junk. *)
Lemma appendBatch_spec mode r w' :
  junk = [] → h = HOpen → fly ≠ [] →
  appendBatch mode (frames fly) (len fly) w = (r, w') →
  segs_only l (lg w') ∧
  ((r = Ok tt ∧ core w' gs (pa ++ fly) [] st [] HOpen ∧
    all_records (lg w') gs (pa ++ fly) = all_records l gs pa ++ entries (baseLSN (active l) + len pa) fly ∧
    ∀ u, grown u (book l gs pa) (book (lg w') gs (pa ++ fly))) ∨
   (∃ e k, r = Fail e ∧ lg w' = l ∧ core w' gs pa fly st (take k (frames fly)) HOpen)).
Proof using C.
  intros Hj Hh Hfly H. pose proof (c_handle _ _ _ _ _ _ _ C) as Hhd. rewrite Hh in Hhd.
  pose proof (rep_file _ _ _ _ _ (c_active _ _ _ _ _ _ _ C)) as Hfile.
  rewrite Hj, app_nil_r in Hfile.
  unfold appendBatch in H. apply bind_gets_inv in H. cbv beta in H.
  apply bind_inv in H as [([] & w1 & H1 & H)|(e & H & ->)].
  2: { apply onDisk_inv in H as (d1 & H & ->). split; [apply segs_only_refl|]. right.
       apply via_inv in H as [[_ H]|(? & _)]; [|congruence].
       apply (Disk.write_inv _ _ _ _ _ _ Hfile) in H as [([=] & _)|(e' & k & _ & V)].
       exists e, k. split; [done|]. split; [done|]. rewrite <- Hh.
       by apply (core_junk C). }
  apply onDisk_inv in H1 as (d1 & H1 & ->). apply via_inv in H1 as [[_ H1]|(? & _)]; [|congruence].
  apply (Disk.write_inv _ _ _ _ _ _ Hfile) in H1 as [(_ & V1)|(? & ? & [=] & _)].
  assert (Hsync : ∀ r2 w2, (if bool_decide (mode = SyncNever) then ret tt
      else onDisk (via (active l) (Disk.fsync (path (active l))))) (World l d1) = (r2, w2) →
    ∃ d2, w2 = World l d2 ∧ Disk.view d2 = Disk.view d1).
  { intros r2 w2 E. destruct (bool_decide _).
    - injection E as <- <-. eauto.
    - apply onDisk_inv in E as (d2 & E & ->). apply via_inv in E as [[_ E]|(? & _)]; [|congruence].
      apply Disk.fsync_inv in E as [_ ?]. eauto. }
  apply bind_inv in H as [([] & w2 & H2 & H)|(e & H & ->)].
  - apply Hsync in H2 as (d2 & -> & V2). injection H as <- <-. simpl.
    split; [by eexists _, _|]. left. split; [done|]. rewrite <- Hh.
    split; [apply (core_publish C); [done | by rewrite V2]|].
    split; [apply (records_publish C) | intros u; apply (book_publish C)].
  - apply Hsync in H as (d2 & -> & V2). split; [apply segs_only_refl|]. right.
    exists e, (length (frames fly)). rewrite firstn_all. split; [done|]. split; [done|]. rewrite <- Hh.
    apply (core_junk C). by rewrite V2.
Qed.

(** Cutting the junk away, or failing to. *)
Lemma rollback_spec r w' :
  h ≠ HNil → rollback w = (r, w') →
  lg w' = l ∧
  ((r = Ok tt ∧ h = HOpen ∧ core w' gs pa fly st [] h) ∨
   (∃ e junk', r = Fail e ∧ (junk' = [] ∨ junk' = junk) ∧ core w' gs pa fly st junk' h)).
Proof using C.
  intros Hh H. pose proof (c_handle _ _ _ _ _ _ _ C) as Hhd.
  pose proof (rep_file _ _ _ _ _ (c_active _ _ _ _ _ _ _ C)) as Hfile.
  pose proof (rep_size _ _ _ _ _ (c_active _ _ _ _ _ _ _ C)) as Hsize.
  unfold rollback in H. apply bind_gets_inv in H. cbv beta in H. rewrite Hhd in H.
  assert (Hsame : ∀ e d', Disk.view d' = v →
    lg (World l d') = l ∧ (Fail e = Ok tt ∧ h = HOpen ∧ core (World l d') gs pa fly st [] h ∨
     ∃ e0 junk', @Fail unit e = Fail e0 ∧ (junk' = [] ∨ junk' = junk) ∧ core (World l d') gs pa fly st junk' h)).
  { intros e d' V. split; [done|]. right. exists e, junk. split; [done|]. split; [by right|]. by apply core_view_same. }
  assert (H' : (onDisk (via (active l) (Disk.truncate (path (active l)) (size (active l)))) ;;;
      onDisk (via (active l) (Disk.fsync (path (active l))))) w = (r, w')) by (by destruct h).
  clear H. apply bind_inv in H' as [([] & w1 & H1 & H)|(e & H & ->)].
  2: { apply onDisk_inv in H as (d1 & H & ->). apply via_inv in H as [[_ H]|(_ & _ & ->)]; [|by apply Hsame].
       apply (Disk.truncate_inv _ _ _ _ _ _ Hfile) in H as [([=] & _)|(e' & _ & V)]; [by apply Hsame|].
       rewrite Hsize, len_app. pose proof (len_nonneg (frames pa)). pose proof (len_nonneg junk). lia. }
  apply onDisk_inv in H1 as (d1 & H1 & ->). apply via_inv in H1 as [[Ho H1]|(_ & [=] & _)].
  apply (Disk.truncate_inv _ _ _ _ _ _ Hfile) in H1 as [(_ & V1)|(? & [=] & _)].
  2: { rewrite Hsize, len_app. pose proof (len_nonneg (frames pa)). pose proof (len_nonneg junk). lia. }
  rewrite Hsize in V1. unfold len in V1. rewrite Nat2Z.id, take_app_length in V1.
  apply onDisk_inv in H as (d2 & H & ->). simpl in *.
  apply via_inv in H as [[_ H]|(? & _)]; [|congruence]. apply Disk.fsync_inv in H as [Hr V2].
  assert (Cn : core (World l d2) gs pa fly st [] h).
  { apply (core_junk C). by rewrite V2, V1, app_nil_r. }
  split; [done|]. destruct Hr as [->|[e ->]]; [left; split; [done|]; split; [congruence | done] | right]. exists e, []. auto.
Qed.
End ops.

(** [writeBatch] as a whole. *)
Lemma writeBatch_spec w gs pa fly st first r w' :
  core w gs pa fly st [] HOpen → fly ≠ [] → first = baseLSN (active (lg w)) + len pa →
  writeBatch (frames fly) first (len fly) w = (r, w') →
  segs_only (lg w) (lg w') ∧
  ∃ gs' pa',
    ((r = Ok tt ∧ core w' gs' (pa' ++ fly) [] st [] HOpen ∧
      all_records (lg w') gs' (pa' ++ fly) = all_records (lg w) gs pa ++ entries first fly) ∨
     (∃ e junk h, r = Fail e ∧ h ≠ HNil ∧ core w' gs' pa' fly st junk h ∧
      all_records (lg w') gs' pa' = all_records (lg w) gs pa)).
Proof.
  intros C Hfly Hf H. unfold writeBatch in H. apply bind_gets_inv in H. cbv beta in H.
  assert (Hbound : first <= maxU64).
  { pose proof (c_next _ _ _ _ _ _ _ C). pose proof (c_bound _ _ _ _ _ _ _ C).
    pose proof (len_nonneg st). pose proof (len_nonneg fly). lia. }
  destruct (mustRotate (lg w) (frames fly)) eqn:Er.
  - assert (Hpa : pa ≠ []).
    { intros ->. unfold mustRotate in Er. rewrite (rep_size _ _ _ _ _ (c_active _ _ _ _ _ _ _ C)) in Er. done. }
    apply bind_inv in H as [([] & w1 & H1 & H)|(e & H & ->)].
    + apply (rotate_spec C) in H1 as (S1 & [(_ & C1 & Hb & R1 & _)|(? & ? & [=] & _)]); try done.
      apply (appendBatch_spec C1) in H as (S2 & [(-> & C2 & R2 & _)|(e & k & -> & El & C2)]); try done.
      * split; [by eapply segs_only_trans|]. exists (gs ++ [pa]), []. left. split; [done|].
        split; [done|]. rewrite R2, R1, Hb, len_nil, Z.add_0_r. done.
      * split; [by eapply segs_only_trans|]. exists (gs ++ [pa]), []. right. exists e, (take k (frames fly)), HOpen.
        rewrite El. done.
    + apply (rotate_spec C) in H as (S1 & [([=] & _)|(e' & h' & _ & Hh & C1 & R1 & _)]); try done.
      split; [done|]. exists gs, pa. right. by exists e, [], h'.
  - apply bind_inv in H as [([] & w1 & H1 & H)|(e & [=] & _)]. injection H1 as <-.
    apply (appendBatch_spec C) in H as (S2 & [(-> & C2 & R2 & _)|(e & k & -> & El & C2)]); try done.
    + split; [done|]. exists gs, pa. left. by rewrite R2, Hf.
    + split; [done|]. exists gs, pa. right. exists e, (take k (frames fly)), HOpen. rewrite El. done.
Qed.

(** ** Staging *)

Lemma frames_nil_iff ps : (len (frames ps) =? 0) = bool_decide (ps = []).
Proof.
  destruct ps as [|p ps]; [done|]. pose proof (len_frames_ge (p :: ps)).
  rewrite len_cons in *. pose proof (len_nonneg ps).
  rewrite bool_decide_eq_false_2 by done. lia.
Qed.

(** The log-only part of [stage]. *)
Lemma core_place w gs pa fly st junk h ps :
  core w gs pa fly st junk h → ps ≠ [] → Forall (payload_ok (maxRecordBytes (opts (lg w)))) ps →
  nextLSN (lg w) + len ps - 1 <= reserved (lg w) → nextLSN (lg w) + len ps <= maxU64 →
  core (World (place (fold_left appendRecord ps) (len ps) (lg w)) (dk w)) gs pa fly (st ++ ps) junk h.
Proof.
  intros C Hps Hok Hres Hb. pose proof (len_pos ps Hps). pose proof (len_nonneg st).
  pose proof (rep_base _ _ _ _ _ (c_active _ _ _ _ _ _ _ C)).
  pose proof (len_nonneg pa). pose proof (len_nonneg fly).
  destruct C. split; simpl; try done; unfold maxU64 in *.
  - by rewrite fold_appendRecord, c_pending0, frames_app.
  - by apply Forall_app.
  - intros _. rewrite c_pending0, frames_nil_iff. split; [|ulia].
    destruct (bool_decide_reflect (st = [])) as [->|Hne].
    + rewrite c_next0, len_nil. lia.
    + by apply c_range0.
  - rewrite len_app. ulia.
  - ulia.
  - ulia.
Qed.

Lemma core_reserved w gs pa fly st junk h want :
  core w gs pa fly st junk h → reserved (lg w) <= want <= maxU64 →
  MarkFiles.markIn (Disk.view (dk w)) MarkFiles.reservedName = Some want →
  core (World (set_reserved want (lg w)) (dk w)) gs pa fly st junk h.
Proof. intros C Hw Hm. destruct C. split; simpl; try done; [lia | exists want; split; [done | lia]]. Qed.

(** Writing the reservation leaves the log's files alone and the mark at least
    what the log believes it to be. *)
Lemma core_writeReserved w gs pa fly st junk h want r d' :
  core w gs pa fly st junk h → reserved (lg w) <= want <= maxU64 → 0 <= want →
  MarkFiles.writeReserved want (dk w) = (r, d') →
  core (World (lg w) d') gs pa fly st junk h ∧
  (r = Ok tt → MarkFiles.markIn (Disk.view d') MarkFiles.reservedName = Some want).
Proof.
  intros C Hw H0 H. apply MarkFiles.replaceFile_view in H as (V & Hn & Hok).
  assert (Hp : MarkFiles.parseMark (Text.show want ++ MarkFiles.newline) = Some want).
  { apply MarkFiles.parseMark_show. unfold is_u64, maxU64 in *. lia. }
  split.
  2: { intros Hr. unfold MarkFiles.markIn. by rewrite (Hok Hr). }
  assert (Hseg : ∀ s ps j, seg_rep (Disk.view (dk w)) (maxRecordBytes (opts (lg w))) j s ps →
    Disk.view d' !! path s = Disk.view (dk w) !! path s).
  { intros s ps j Hs. apply rep_not_reserved in Hs as [? ?]. auto. }
  destruct C. split; simpl; try done.
  - eapply sealed_frame; [done|]. intros s Hs. apply list_elem_of_lookup in Hs as [i Hi].
    destruct (Forall2_lookup_l _ _ _ _ _ c_sealed0 Hi) as (ps & _ & Hr). by eapply Hseg.
  - eapply rep_frame; [done|]. by eapply Hseg.
  - destruct c_mark0 as (k & Hk & Hle). unfold MarkFiles.markIn in *. destruct Hn as [->| ->].
    + exists k. done.
    + exists want. done.
Qed.

(** The mark a directory's checkpoint holds. *)
Definition checkpointIn (w : world) : option Z := MarkFiles.markIn (Disk.view (dk w)) MarkFiles.checkpointName.

Lemma checkpoint_is_u64 w n : checkpointIn w = Some n → is_u64 n.
Proof.
  unfold checkpointIn, MarkFiles.markIn. destruct (_ !! _); [apply Text.parse_is_u64|].
  intros [= <-]. unfold is_u64. lia.
Qed.

(** Writing the checkpoint leaves the log's files alone. *)
Lemma core_writeCheckpoint w gs pa fly st junk h n r d' :
  core w gs pa fly st junk h → is_u64 n → MarkFiles.WriteCheckpoint n (dk w) = (r, d') →
  core (World (lg w) d') gs pa fly st junk h ∧
  (checkpointIn (World (lg w) d') = checkpointIn w ∨ checkpointIn (World (lg w) d') = Some n) ∧
  (r = Ok tt → checkpointIn (World (lg w) d') = Some n).
Proof.
  intros C Hn H. apply MarkFiles.replaceFile_view in H as (V & Hk & Hok).
  assert (Hp : MarkFiles.parseMark (Text.show n ++ MarkFiles.newline) = Some n) by by apply MarkFiles.parseMark_show.
  split; [|unfold checkpointIn, MarkFiles.markIn; simpl; split].
  - apply (core_frame C). intros x [-> | (s & Hs & ->)].
    + apply V; by vm_compute.
    + assert (Hlen : ∃ ps j, seg_rep (Disk.view (dk w)) (maxRecordBytes (opts (lg w))) j s ps).
      { apply elem_of_app in Hs as [Hs | ->%list_elem_of_singleton].
        - apply list_elem_of_lookup in Hs as [i Hi].
          destruct (Forall2_lookup_l _ _ _ _ _ (c_sealed _ _ _ _ _ _ _ C) Hi) as (ps & _ & Hr). eauto.
        - exists pa, junk. apply C. }
      destruct Hlen as (ps & j & Hr). rewrite (rep_path _ _ _ _ _ Hr).
      apply V; intros E; apply (f_equal length) in E; rewrite length_segmentName in E; done.
  - destruct Hk as [-> | ->]; [by left|]. right. done.
  - intros Hr. by rewrite (Hok Hr).
Qed.

(** [stage] numbers the records from [nextLSN] and puts them behind the ones
    already staged, every number below the durable reservation; or it fails
    and the log is as it was. *)
Lemma stage_spec w gs pa fly st junk h ps r w' :
  core w gs pa fly st junk h → ps ≠ [] → Forall (payload_ok (maxRecordBytes (opts (lg w)))) ps →
  closed (lg w) = false → broken (lg w) = false →
  nextLSN (lg w) + len ps + reserveBlock <= maxU64 →
  stage (fold_left appendRecord ps) (len ps) w = (r, w') →
  (∃ force want, r = Ok (nextLSN (lg w), Some (curRound (lg w)), force) ∧
     lg w' = place (fold_left appendRecord ps) (len ps) (set_reserved want (lg w)) ∧
     core w' gs pa fly (st ++ ps) junk h) ∨
  (∃ e, r = Fail e ∧ lg w' = lg w ∧ core w' gs pa fly st junk h).
Proof.
  intros C Hps Hok Hcl Hbr Hb H. pose proof (len_pos ps Hps) as Hpos.
  assert (Hn : 1 <= nextLSN (lg w)).
  { pose proof (c_next _ _ _ _ _ _ _ C). pose proof (rep_base _ _ _ _ _ (c_active _ _ _ _ _ _ _ C)).
    pose proof (len_nonneg pa). pose proof (len_nonneg fly). pose proof (len_nonneg st). lia. }
  assert (Hblk : reserveBlock = 1048576) by done.
  unfold stage in H. apply bind_gets_inv in H. rewrite Hcl, Hbr in H. unfold maxU64 in *.
  replace (u64 (nextLSN (lg w) + len ps - 1)) with (nextLSN (lg w) + len ps - 1) in H by ulia.
  replace (u64 (nextLSN (lg w) + reserveBlock - 1)) with (nextLSN (lg w) + reserveBlock - 1) in H by ulia.
  set (want := Z.max _ _) in H.
  assert (Hplace : ∀ w1 res, lg w1 = set_reserved res (lg w) → core w1 gs pa fly st junk h →
    nextLSN (lg w) + len ps - 1 <= res →
    (setLog (place (fold_left appendRecord ps) (len ps)) ;;; l' <- gets lg ;;
       ret (nextLSN (lg w), Some (curRound (lg w)), mustCommit l')) w1 = (r, w') →
    ∃ force want, r = Ok (nextLSN (lg w), Some (curRound (lg w)), force) ∧
     lg w' = place (fold_left appendRecord ps) (len ps) (set_reserved want (lg w)) ∧
     core w' gs pa fly (st ++ ps) junk h).
  { intros w1 res E1 C1 Hr E. injection E as <- <-. eexists _, res. split; [done|]. simpl.
    split; [by rewrite E1|]. apply core_place; rewrite ?E1; simpl; unfold maxU64; try done; lia. }
  destruct (Z.ltb_spec (reserved (lg w)) (nextLSN (lg w) + len ps - 1)) as [Hlt|Hge].
  - apply bind_inv in H as [([] & w1 & H1 & H)|(e & H & ->)].
    + apply bind_inv in H1 as [([] & w2 & H2 & H1)|(? & _ & [=])].
      apply wrapping_inv in H2 as [([] & H2 & _)|(? & _ & [=])].
      apply onDisk_inv in H2 as (d2 & H2 & ->).
      apply (core_writeReserved _ _ _ _ _ _ _ _ _ _ C) in H2 as [C2 M2]; [|unfold maxU64; lia|lia].
      injection H1 as <-. left. apply (Hplace _ want) in H; try done; [|lia].
      simpl. apply (core_reserved (World (lg w) d2)); simpl; unfold maxU64; auto; lia.
    + right. exists e. split; [done|].
      apply bind_inv in H as [([] & w2 & _ & [=])|(e' & H & [= <-])].
      apply wrapping_inv in H as [(? & _ & [=])|(e2 & H & [= ->])].
      apply onDisk_inv in H as (d2 & H & ->).
      apply (core_writeReserved _ _ _ _ _ _ _ _ _ _ C) in H as [C2 _]; [done|unfold maxU64; lia|lia].
  - apply bind_inv in H as [([] & w1 & H1 & H)|(e & [=] & _)]. injection H1 as <-. left.
    apply (Hplace w (reserved (lg w))) in H; try done; by destruct (lg w).
Qed.

(** ** The commit round *)

Lemma commitBegin_spec w gs pa st junk h j l' :
  core w gs pa [] st junk h → commitBegin (lg w) = Some (j, l') →
  st ≠ [] ∧ broken (lg w) = false ∧
  j = MkJob (frames st) (baseLSN (active (lg w)) + len pa)
        (baseLSN (active (lg w)) + len pa + len st - 1) (curRound (lg w)) ∧
  core (World l' (dk w)) gs pa st [] junk h.
Proof.
  intros C H. unfold commitBegin in H.
  rewrite (c_pending _ _ _ _ _ _ _ C), frames_nil_iff in H.
  destruct (bool_decide_reflect (st = [])) as [|Hst]; [done|]. simpl in H.
  destruct (broken (lg w)) eqn:Eb; [done|]. injection H as <- <-.
  split; [done|]. split; [done|].
  destruct (c_range _ _ _ _ _ _ _ C Hst) as [Hmin Hmax]. pose proof (c_next _ _ _ _ _ _ _ C) as Hnext.
  rewrite len_nil in *. split; [rewrite Hmin, Hmax; f_equal; lia|].
  destruct C. split; simpl; try done. rewrite len_nil. lia.
Qed.

(** The three ways the I/O of a round ends: the records are in the log; they
    are gone without a trace; or junk remains and the rollback's error with
    it. *)
Lemma commitIO_spec w gs pa fly st r out w' :
  let first := baseLSN (active (lg w)) + len pa in
  core w gs pa fly st [] HOpen → fly ≠ [] →
  commitIO (MkJob (frames fly) first (first + len fly - 1) r) w = (out, w') →
  segs_only (lg w) (lg w') ∧
  ∃ gs' pa',
    (out = Ok (None, None) ∧ core w' gs' (pa' ++ fly) [] st [] HOpen ∧
     all_records (lg w') gs' (pa' ++ fly) = all_records (lg w) gs pa ++ entries first fly) ∨
    ((∃ e, out = Ok (Some e, None) ∧ core w' gs' pa' fly st [] HOpen) ∨
     (∃ e re junk h, out = Ok (Some e, Some re) ∧ core w' gs' pa' fly st junk h)) ∧
    all_records (lg w') gs' pa' = all_records (lg w) gs pa.
Proof.
  intros first C Hfly H. unfold commitIO in H. simpl in H.
  pose proof (len_pos fly Hfly) as Hpos. pose proof (len_nonneg st).
  pose proof (rep_base _ _ _ _ _ (c_active _ _ _ _ _ _ _ C)). pose proof (len_nonneg pa).
  pose proof (c_next _ _ _ _ _ _ _ C). pose proof (c_bound _ _ _ _ _ _ _ C).
  replace (u64 (first + len fly - 1 - first + 1)) with (len fly) in H by (unfold maxU64 in *; ulia).
  destruct (writeBatch (frames fly) first (len fly) w) as [r1 w1] eqn:E.
  apply (writeBatch_spec _ _ _ _ _ _ _ _ C Hfly eq_refl) in E
    as (S1 & gs' & pa' & [(-> & C1 & R1)|(e & junk & h & -> & Hh & C1 & R1)]).
  - injection H as <- <-. split; [done|]. exists gs', pa'. left. done.
  - destruct (rollback w1) as [rb w2] eqn:Er. injection H as <- <-.
    apply (rollback_spec C1) in Er as (El & [(-> & -> & C2)|(re & junk' & -> & _ & C2)]); [..|done].
    + rewrite El. split; [done|]. exists gs', pa'. right. split; [|done]. left. eauto.
    + rewrite El. split; [done|]. exists gs', pa'. right. split; [|done]. right. eauto 8.
Qed.

Lemma commitEnd_success w gs pa st junk h j rb :
  core w gs pa [] st junk h → core (World (commitEnd j None rb (lg w)) (dk w)) gs pa [] st junk h.
Proof. intros C. destruct C. by split. Qed.

Lemma commitEnd_failure w gs pa fly st junk h j e rb :
  core w gs pa fly st junk h → jfirst j = baseLSN (active (lg w)) + len pa →
  core (World (commitEnd j (Some e) rb (lg w)) (dk w)) gs pa [] [] junk h.
Proof.
  intros C Hj. pose proof (len_nonneg fly). pose proof (len_nonneg st).
  destruct C. split; simpl; try done; rewrite ?len_nil; lia.
Qed.

(** A whole round: the last critical section runs on what the writing left. *)
Lemma commit_inv w r w' : commit w = (r, w') →
  match commitBegin (lg w) with
  | None => r = Ok tt ∧ w' = w
  | Some (j, l1) => ∃ err rb w2, commitIO j (World l1 (dk w)) = (Ok (err, rb), w2) ∧
      w' = World (commitEnd j err rb (lg w2)) (dk w2) ∧
      r = match err with None => Ok tt | Some e => Fail (roundErr e rb) end
  end.
Proof.
  unfold commit. intros H. destruct (commitBegin (lg w)) as [[j l1]|]; [|by injection H as <- <-].
  destruct (commitIO j (World l1 (dk w))) as [out w2] eqn:Ei.
  assert (Hout : ∃ err rb, out = Ok (err, rb)).
  { unfold commitIO in Ei. destruct (writeBatch _ _ _ _) as [[u|e] w3]; [injection Ei as <- <-; eauto|].
    destruct (rollback w3) as [r3 w4]. injection Ei as <- <-. eauto. }
  destruct Hout as (err & rb & ->). exists err, rb, w2. split; [done|].
  apply pair_equal_spec in H as [<- <-]. done.
Qed.

Lemma commitBegin_some l : pending l ≠ [] → broken l = false →
  commitBegin l = Some (MkJob (pending l) (pendingMin l) (pendingMax l) (curRound l),
    MkLog (opts l) (sealed l) (active l) (nextLSN l) (firstLSN l) (reserved l) (id l)
      [] 0 0 (durable l) (closed l) (rounds l ++ [Undecided]) (length (rounds l))
      (Some (curRound l)) (failErr l) (broken l) (closeErr l)).
Proof.
  intros Hp Hb. unfold commitBegin. rewrite Hb, orb_false_r.
  destruct (Z.eqb_spec (len (pending l)) 0) as [E|]; [by apply len_zero in E | done].
Qed.

(** What the log keeps of its fields until the last critical section. *)
Lemma begun_fields l j l1 l2 : commitBegin l = Some (j, l1) → segs_only l1 l2 →
  jround j = curRound l ∧ rounds l2 = rounds l ++ [Undecided] ∧ curRound l2 = length (rounds l) ∧
  nextLSN l2 = nextLSN l ∧ durable l2 = durable l ∧ broken l2 = broken l.
Proof.
  intros H (ss & a & ->). unfold commitBegin in H. destruct (_ || _); [done|].
  apply Some_inj, pair_equal_spec in H as [<- <-]. done.
Qed.

Lemma begun_resolved l j l1 l2 err rb :
  commitBegin l = Some (j, l1) → segs_only l1 l2 → (curRound l < length (rounds l))%nat →
  rounds (commitEnd j err rb l2) !! curRound l
  = Some (Decided (match err with None => None | Some e => Some (roundErr e rb) end)).
Proof.
  intros H Hso Hlt. destruct (begun_fields _ _ _ _ H Hso) as (Hj & Hr & Hc & _).
  destruct err as [e|]; simpl; rewrite Hj, Hr; unfold resolve.
  - rewrite list_lookup_insert_ne by lia. apply list_lookup_insert_eq. rewrite !length_app. simpl. lia.
  - apply list_lookup_insert_eq. rewrite length_app. simpl. lia.
Qed.

(** What a round leaves behind, by its outcome. *)
Definition round_left (w : world) (gs : list (list bytes)) (pa st : list bytes) (r : result unit)
    (w' : world) (gs' : list (list bytes)) (pa' : list bytes) (junk : bytes) : Prop :=
  match r with
  | Ok _ => all_records (lg w') gs' pa'
              = all_records (lg w) gs pa ++ entries (baseLSN (active (lg w)) + len pa) st ∧
            nextLSN (lg w') = nextLSN (lg w) ∧ durable (lg w') = nextLSN (lg w) - 1
  | Fail _ => all_records (lg w') gs' pa' = all_records (lg w) gs pa ∧
              nextLSN (lg w') = nextLSN (lg w) - len st ∧ durable (lg w') = durable (lg w) ∧
              (broken (lg w') = false → junk = [])
  end.

(** One round from a quiet state, as [commit] runs it. *)
Lemma commit_spec w gs pa st r w' :
  core w gs pa [] st [] HOpen → st ≠ [] → broken (lg w) = false →
  (curRound (lg w) < length (rounds (lg w)))%nat → commit w = (r, w') →
  ∃ gs' pa' junk h, core w' gs' pa' [] [] junk h ∧
    rounds (lg w') !! curRound (lg w) = Some (Decided (errOf r)) ∧
    round_left w gs pa st r w' gs' pa' junk.
Proof.
  intros C Hst Hb Hlt H. apply commit_inv in H.
  assert (Hpe : pending (lg w) ≠ []).
  { rewrite (c_pending _ _ _ _ _ _ _ C). pose proof (frames_nil_iff st) as Hn.
    intros E. rewrite E, len_nil, bool_decide_false in Hn by done. done. }
  pose proof (commitBegin_some _ Hpe Hb) as Eb.
  destruct (commitBegin (lg w)) as [[j l1]|] eqn:Eb'; [|done].
  assert (El1 : active l1 = active (lg w) ∧ sealed l1 = sealed (lg w)).
  { by apply Some_inj, pair_equal_spec in Eb as [_ ->]. }
  clear Eb. destruct El1 as [El1 El2].
  destruct H as (err & rb & w2 & Hio & -> & ->).
  destruct (commitBegin_spec _ _ _ _ _ _ _ _ C Eb') as (_ & _ & Ej & C1).
  pose proof (c_next _ _ _ _ _ _ _ C) as Hn. rewrite len_nil in Hn.
  assert (Hio' := Hio). rewrite Ej, <- El1 in Hio'.
  destruct (commitIO_spec _ _ _ _ _ _ _ _ C1 Hst Hio') as (Hso & gs' & pa' & Hcase).
  pose proof (begun_resolved _ _ _ _ err rb Eb' Hso Hlt) as Hres.
  destruct (begun_fields _ _ _ _ Eb' Hso) as (_ & _ & _ & Hnx & Hdu & Hbr).
  assert (Hrec0 : all_records l1 gs pa = all_records (lg w) gs pa).
  { unfold all_records, segs. by rewrite El1, El2. }
  simpl in Hcase. rewrite Hrec0, El1 in Hcase.
  destruct Hcase as [([= -> ->] & C2 & Hrec)|[Hcase Hrec]].
  - exists gs', (pa' ++ st), [], HOpen.
    split; [exact (commitEnd_success _ _ _ _ _ _ j None C2)|]. split; [done|].
    simpl. rewrite Hnx, Ej. simpl. split; [done|]. split; [done | lia].
  - assert (∃ e jk hh, err = Some e ∧ (rb = None → jk = []) ∧ core w2 gs' pa' st [] jk hh)
      as (e & jk & hh & -> & Hjk & C2).
    { destruct Hcase as [(e & [= -> ->] & C2)|(e & re & jk & hh & [= -> ->] & C2)].
      - by exists e, [], HOpen.
      - by exists e, jk, hh. }
    assert (Hf : jfirst j = baseLSN (active (lg w2)) + len pa').
    { pose proof (c_next _ _ _ _ _ _ _ C2) as Hx. rewrite len_nil in Hx. rewrite Ej. simpl. lia. }
    exists gs', pa', jk, hh. split; [by apply (commitEnd_failure _ _ _ st [])|]. split; [done|].
    simpl. rewrite Hdu. split; [done|]. split; [rewrite Ej; simpl; lia|]. split; [done|].
    destruct rb; [done|]. auto.
Qed.

(** ** Truncation *)

Lemma removeFiles_spec ss m d r d' : removeFiles ss m d = (r, d') →
  ∃ k rerr, r = Ok ((m + k)%nat, rerr) ∧ (k <= length ss)%nat ∧ (rerr = None → k = length ss) ∧
    ∀ n, (∀ s, s ∈ take k ss → path s ≠ n) → Disk.view d' !! n = Disk.view d !! n.
Proof.
  revert m d. induction ss as [|s ss IH]; intros m d H; cbn [removeFiles] in H.
  - injection H as <- <-. exists 0%nat, None. rewrite Nat.add_0_r. done.
  - apply bind_try_inv in H as (x & d1 & H1 & H).
    assert (Hstep : (∀ n, path s ≠ n → Disk.view d1 !! n = Disk.view d !! n) →
      removeFiles ss (S m) d1 = (r, d') →
      ∃ k rerr, r = Ok ((m + k)%nat, rerr) ∧ (k <= length (s :: ss))%nat ∧
        (rerr = None → k = length (s :: ss)) ∧
        ∀ n, (∀ t, t ∈ take k (s :: ss) → path t ≠ n) → Disk.view d' !! n = Disk.view d !! n).
    { intros V E. apply IH in E as (k & rerr & -> & Hk & Hr & Hv). exists (S k), rerr.
      split; [do 2 f_equal; lia|]. simpl. split; [lia|]. split; [intros; f_equal; auto|].
      intros n Hn. rewrite Hv, V; [done|apply Hn; left|]. intros t Ht. apply Hn. by right. }
    apply Disk.remove_inv in H1 as [(-> & _ & V)|(e & -> & V)].
    + apply Hstep; [|done]. intros n Hn. rewrite V. by apply lookup_delete_ne.
    + destruct (errorsIs e NotExist).
      * apply Hstep; [|done]. intros n Hn. by rewrite V.
      * injection H as <- <-. exists 0%nat, (Some e). rewrite Nat.add_0_r, V. simpl.
        split; [done|]. split; [lia|]. done.
Qed.

Lemma doomed_le upto ss : (doomed upto ss <= length ss)%nat.
Proof. induction ss as [|s ss IH]; simpl; [lia|]. destruct (upto <=? lastLSN s); lia. Qed.

(** Everything in a doomed segment is below [upto]. *)
Lemma doomed_records m max ss gs upto k e :
  Forall2 (seg_rep m max []) ss gs → (k <= doomed upto ss)%nat →
  e ∈ records (take k ss) (take k gs) → e.1 < upto.
Proof.
  intros H. revert k. induction H as [|s ps ss gs Hs Hss IH]; intros k Hk He.
  - rewrite !take_nil in He. by apply not_elem_of_nil in He.
  - destruct k as [|k]; [by apply not_elem_of_nil in He|]. simpl in Hk, He.
    destruct (Z.leb_spec upto (lastLSN s)) as [|Hlt]; [lia|].
    unfold records in He. simpl in He. apply elem_of_app in He as [He|He].
    + apply entries_lsn in He. rewrite (rep_lastLSN _ _ _ _ _ Hs) in Hlt. lia.
    + apply (IH k); [lia | done].
Qed.

Lemma core_drop w gs pa fly st junk h k d' :
  core w gs pa fly st junk h → (k <= length (sealed (lg w)))%nat →
  (∀ n, (∀ s, s ∈ take k (sealed (lg w)) → path s ≠ n) → Disk.view d' !! n = Disk.view (dk w) !! n) →
  core (World (set_segs (drop k (sealed (lg w))) (active (lg w)) (lg w)) d') (drop k gs) pa fly st junk h.
Proof.
  intros C Hk V. pose proof (core_sealed_ne C) as Hne. pose proof (core_sealed_not_reserved C) as Hnr.
  destruct C.
  assert (Hin : ∀ s, s ∈ take k (sealed (lg w)) → s ∈ sealed (lg w)).
  { intros s Hs. apply list_elem_of_lookup in Hs as [i Hi]. apply lookup_take_Some in Hi as [Hi _].
    apply list_elem_of_lookup. eauto. }
  assert (Hlink : linked (drop k (sealed (lg w)) ++ [active (lg w)])).
  { rewrite <- drop_app_le by done. by apply linked_drop. }
  split; simpl; try done.
  - eapply sealed_frame; [by apply Forall2_drop|]. intros s Hs. apply V. intros t Ht.
    assert (Hs' : s ∈ drop k (sealed (lg w))) by done.
    apply list_elem_of_lookup in Ht as [i Hi]. apply lookup_take_Some in Hi as [Hi Hik].
    apply list_elem_of_lookup in Hs as [i' Hi']. rewrite lookup_drop in Hi'.
    destruct (Forall2_lookup_l _ _ _ _ _ c_sealed0 Hi) as (ps & _ & Hr).
    destruct (Forall2_lookup_l _ _ _ _ _ c_sealed0 Hi') as (ps' & _ & Hr').
    eapply rep_path_ne; [exact Hr | exact Hr' |].
    assert (Hlt : baseLSN t < baseLSN s); [|lia].
    assert (Hd : drop i (sealed (lg w) ++ [active (lg w)]) = t :: drop (S i) (sealed (lg w)) ++ [active (lg w)]).
    { pose proof (lookup_lt_Some _ _ _ Hi). rewrite drop_app_le by lia.
      by rewrite (drop_S _ _ _ Hi). }
    pose proof (linked_drop i _ c_linked0) as Hl2. unfold segs in Hl2. rewrite Hd in Hl2.
    eapply linked_head_lt; [exact Hl2|]. apply elem_of_app. left.
    apply list_elem_of_lookup. exists (k + i' - S i)%nat. rewrite lookup_drop. rewrite <- Hi'. f_equal. lia.
  - eapply rep_frame; [done|]. apply V. intros s Hs. apply Hne. auto.
  - destruct c_mark0 as (q & Hq & Hle). exists q. split; [|done]. unfold MarkFiles.markIn.
    rewrite V; [done|]. intros s Hs. apply Hnr. auto.
Qed.

(** What truncation drops from the book. *)
Lemma doomed_ends upto ss k s : (k <= doomed upto ss)%nat → s ∈ take k ss → lastLSN s < upto.
Proof.
  revert k. induction ss as [|s0 ss IH]; intros [|k] Hk Hs; try by apply not_elem_of_nil in Hs.
  simpl in Hk. destruct (Z.leb_spec upto (lastLSN s0)); [lia|].
  apply elem_of_cons in Hs as [->|Hs]; [done|]. apply (IH k); [lia | done].
Qed.

Lemma book_drop w gs pa fly st junk h k l' upto :
  core w gs pa fly st junk h → (k <= length (sealed (lg w)))%nat → (k <= doomed upto (sealed (lg w)))%nat →
  sealed l' = drop k (sealed (lg w)) → active l' = active (lg w) →
  grown upto (book (lg w) gs pa) (book l' (drop k gs) pa).
Proof.
  intros C Hk Hd Es Ea. pose proof (core_length C) as Hlen. rewrite (book_split C).
  unfold book, segs. rewrite Es, Ea, zip_with_app by (rewrite !length_drop; lia).
  rewrite <- (take_drop k (sealed (lg w))) at 1. rewrite <- (take_drop k gs) at 1.
  rewrite zip_with_app by (rewrite !length_take; lia). rewrite <- app_assoc. simpl.
  apply (grown_drop _ _ _ (active (lg w)) pa); [apply elem_of_app; right; by apply list_elem_of_singleton|].
  intros s ps Hin. assert (Hs : s ∈ take k (sealed (lg w))) by (by apply elem_of_zip_l in Hin).
  assert (Hz : (s, ps) ∈ zip (sealed (lg w)) gs).
  { rewrite <- (take_drop k (sealed (lg w))), <- (take_drop k gs), zip_with_app by (rewrite !length_take; lia).
    apply elem_of_app. by left. }
  destruct (sealed_below C s ps Hz) as (? & ? & _ & Hl). pose proof (doomed_ends _ _ _ _ Hd Hs). lia.
Qed.

(** Fields [Truncate] leaves alone. *)
Definition head_only (l l' : log) : Prop :=
  ∃ k first, l' = set_firstLSN first (set_segs (drop k (sealed l)) (active l) l).

(** [Truncate] removes a run of segments from the front, all of whose records
    are below [upto]; it removes all such segments unless it fails. *)
Lemma Truncate_spec w gs pa fly st junk h upto r w' :
  core w gs pa fly st junk h → Truncate upto w = (r, w') →
  ∃ k, (k <= doomed upto (sealed (lg w)))%nat ∧ sealed (lg w') = drop k (sealed (lg w)) ∧
    head_only (lg w) (lg w') ∧
    core w' (drop k gs) pa fly st junk h ∧
    (∃ gone, all_records (lg w) gs pa = gone ++ all_records (lg w') (drop k gs) pa ∧
             ∀ e, e ∈ gone → e.1 < upto) ∧
    grown upto (book (lg w) gs pa) (book (lg w') (drop k gs) pa) ∧
    (r = Ok tt → k = doomed upto (sealed (lg w))).
Proof.
  intros C H. pose proof (core_length C) as Hlen. pose proof (doomed_le upto (sealed (lg w))) as Hd.
  unfold Truncate in H. apply bind_gets_inv in H. cbv beta zeta in H.
  destruct (doomed upto (sealed (lg w))) as [|m] eqn:Ed.
  { injection H as <- <-. exists 0%nat. rewrite !drop_0. split; [lia|]. split; [done|].
    split; [exists 0%nat, (firstLSN (lg w)); by destruct (lg w)|]. split; [done|].
    split; [|by split; [apply grown_refl|]]. exists []. split; [done|]. intros e He. by apply not_elem_of_nil in He. }
  set (n := S m) in *.
  apply bind_inv in H as [([removed rerr] & w1 & H1 & H)|(e & H & ->)].
  2: { apply onDisk_inv in H as (d1 & H & _). by apply removeFiles_spec in H as (? & ? & [=] & _). }
  apply onDisk_inv in H1 as (d1 & H1 & ->).
  apply removeFiles_spec in H1 as (k & re & [= -> ->] & Hk & Hre & Hv). simpl Nat.add in *.
  rewrite length_take in Hk, Hre.
  assert (Hk' : (k <= length (sealed (lg w)))%nat) by lia.
  rewrite take_take, Nat.min_l in Hv by lia.
  pose proof (core_drop _ _ _ _ _ _ _ k d1 C Hk' Hv) as C1.
  apply bind_inv in H as [([] & w2 & H2 & H)|(e & [=] & _)]. injection H2 as <-. simpl in H.
  set (l2 := set_firstLSN _ _) in H.
  assert (C2 : ∀ d2, Disk.view d2 = Disk.view d1 → core (World l2 d2) (drop k gs) pa fly st junk h).
  { intros d2 V2. apply (@core_view_same (World l2 d1)); [|done]. by destruct C1. }
  assert (Hrec : ∃ gone, all_records (lg w) gs pa = gone ++ all_records l2 (drop k gs) pa ∧
             ∀ e, e ∈ gone → e.1 < upto).
  { exists (records (take k (sealed (lg w))) (take k gs)). split.
    - unfold all_records, segs. simpl.
      rewrite <- records_app by (rewrite !length_take; lia).
      by rewrite !app_assoc, !take_drop.
    - intros e. apply (doomed_records _ _ _ _ _ _ _ (c_sealed _ _ _ _ _ _ _ C)). lia. }
  assert (Hend : ∀ d2 r2, Disk.view d2 = Disk.view d1 → (r2 = Ok tt → k = n) →
    ∃ k0, (k0 <= n)%nat ∧ sealed l2 = drop k0 (sealed (lg w)) ∧ head_only (lg w) l2 ∧
      core (World l2 d2) (drop k0 gs) pa fly st junk h ∧
      (∃ gone, all_records (lg w) gs pa = gone ++ all_records l2 (drop k0 gs) pa ∧ ∀ e, e ∈ gone → e.1 < upto) ∧
      grown upto (book (lg w) gs pa) (book l2 (drop k0 gs) pa) ∧ (r2 = Ok tt → k0 = n)).
  { intros d2 r2 V2 Hr2. exists k. split; [lia|]. split; [done|]. split; [by eexists k, _|].
    split; [by apply C2|]. split; [done|]. split; [|done].
    apply (book_drop _ _ _ _ _ _ _ _ _ _ C); [done | lia | done | done]. }
  destruct re as [e|].
  - injection H as <- <-. by apply Hend.
  - apply onDisk_inv in H as (d2 & H & ->). apply Disk.syncDir_inv in H as [_ V2].
    apply Hend; [done|]. intros _. rewrite (Hre eq_refl). lia.
Qed.

End LogInv.
