(* ===== verification/Frame.v ===== *)
(** * What an operation spares

    The log keeps several files in one directory, and most of its operations
    touch few of them.  [Sparing n R] says of a relation [R] between the
    directory before and after that every call which is not a change to the file
    [n] keeps it; the lemmas say the same of the log's operations, once for every
    such relation.  It is used for what the checkpoint holds (here), and for what
    of a segment survives a loss of power (file Durable). *)

From S2P Require Import Prelude Errors Disk Segment MarkFiles Log LogInv.
Local Open Scope Z_scope.
Local Open Scope go_scope.

Module Frame.
Import Segment Log LogInv.

Class Sparing (n : bytes) (R : relation Disk.disk) : Prop := {
  sp_preorder :: PreOrder R;
  sp_openExcl p : p ≠ n → within R (Disk.openExcl p);
  sp_openTrunc p : p ≠ n → within R (Disk.openTrunc p);
  sp_write p b : p ≠ n → within R (Disk.write p b);
  sp_truncate p z : p ≠ n → within R (Disk.truncate p z);
  sp_rename a b : a ≠ n → b ≠ n → within R (Disk.rename a b);
  sp_remove p : p ≠ n → within R (Disk.remove p);
  sp_openCreate p : p ≠ n → within R (Disk.openCreate p);
  sp_openExisting p : within R (Disk.openExisting p);
  sp_flock p : within R (Disk.flock p);
  sp_readDir : within R Disk.readDir;
  sp_readFile p : within R (Disk.readFile p);
  sp_readAll p : within R (Disk.readAll p);
  sp_stat p : within R (Disk.stat p);
  sp_fsync p : within R (Disk.fsync p);
  sp_close p : within R (Disk.close p);
  sp_syncDir : within R Disk.syncDir
}.

#[export] Hint Resolve sp_openExcl sp_openTrunc sp_write sp_truncate sp_rename sp_remove sp_stat sp_fsync sp_close
  sp_syncDir sp_openCreate sp_openExisting sp_flock sp_readDir sp_readFile sp_readAll : within.
#[export] Hint Extern 0 (Sparing _ _) => typeclasses eauto : within.

(** The relation on the process a relation on its directory gives. *)
Definition on_disk (R : relation Disk.disk) : relation world := λ w w', R (dk w) (dk w').

#[global] Instance on_disk_preorder R : PreOrder R → PreOrder (on_disk R).
Proof. intros [Hr Ht]. split; [intros w; apply Hr | intros w1 w2 w3; apply Ht]. Qed.

Section operations.
Context (n : bytes) (R : relation Disk.disk) `{!Sparing n R}.

Lemma sp_onDisk {A} (m : M Disk.disk A) : within R m → within (on_disk R) (onDisk m).
Proof. intros Hm w r w' H. apply onDisk_inv in H as (d & H & ->). by apply (Hm _ _ _ H). Qed.

Lemma sp_setLog g : within (on_disk R) (setLog g).
Proof using All. intros w r w' [= _ <-]. unfold on_disk. simpl. reflexivity. Qed.

Lemma sp_via s (m : M Disk.disk unit) : within R m → within R (via s m).
Proof using All. intros Hm. unfold via. destruct (f s); stays. Qed.

Lemma sp_discard s : path s ≠ n → within R (discard s).
Proof using All. intros Hs. unfold discard. destruct (f s); stays. Qed.
#[local] Hint Resolve sp_onDisk sp_setLog sp_via sp_discard : within.

Lemma sp_clearEmpty p first : p ≠ n → within R (clearEmpty p first).
Proof using All. intros Hp. unfold clearEmpty. stays. Qed.
#[local] Hint Resolve sp_clearEmpty : within.

Lemma sp_createSegment b p : segmentName b p ≠ n → within R (createSegment b p).
Proof using All. intros Hs. unfold createSegment. stays. Qed.

Lemma sp_replaceFile name data : name ≠ n → MarkFiles.tmpOf name ≠ n → within R (MarkFiles.replaceFile name data).
Proof using All. intros H1 H2. unfold MarkFiles.replaceFile. stays. Qed.
#[local] Hint Resolve sp_createSegment sp_replaceFile : within.

Lemma sp_AppendBatchAsync ps :
  MarkFiles.reservedName ≠ n → MarkFiles.tmpOf MarkFiles.reservedName ≠ n → within (on_disk R) (AppendBatchAsync ps).
Proof using All. intros H1 H2. unfold AppendBatchAsync, stage, MarkFiles.writeReserved. stays. Qed.

Lemma sp_rotate first : segmentName first (first -u 1) ≠ n → within (on_disk R) (rotate first).
Proof using All.
  intros Hs. unfold rotate. apply within_bind; [apply _ | stays|]. intros a.
  apply (within_bind_post _ (λ next, path next = segmentName first (first -u 1))); [by stays| |].
  - intros w s w' H. apply onDisk_inv in H as (d & H & _).
    by apply createSegment_inv in H as [([= ->] & _)|(e & [=] & _)].
  - intros next Hn. assert (Hd : within R (discard next)) by (apply sp_discard; congruence).
    apply within_bind; [apply _ | stays|]. intros _.
    apply within_bind; [apply _ | stays|]. intros [u|e]; stays.
Qed.

(** The two sections that write to the active segment. *)
Lemma sp_appendBatch mode b k w r w' :
  within R (Disk.write (path (active (lg w))) b) → appendBatch mode b k w = (r, w') → on_disk R w w'.
Proof using All.
  intros Hp H. unfold appendBatch in H. apply bind_gets_inv in H. revert H.
  apply within_bind; [apply _ | by stays|].
  intros _. apply within_bind; [apply _ | case_if; stays|]. auto with within.
Qed.

Lemma sp_rollback w r w' :
  within R (Disk.truncate (path (active (lg w))) (size (active (lg w)))) → rollback w = (r, w') → on_disk R w w'.
Proof using All.
  intros Hp H. unfold rollback in H. apply bind_gets_inv in H. revert H.
  destruct (f (active (lg w))); [apply within_ret; apply _| |]; apply within_bind; try apply _; stays.
Qed.

Lemma sp_removeFiles ss k : Forall (λ s, path s ≠ n) ss → within R (removeFiles ss k).
Proof using All.
  intros H. revert k. induction H as [|s ss Hs _ IH]; intros k; cbn [removeFiles]; [stays|].
  apply within_bind; [apply _ | stays|]. intros [u|e]; [auto|]. case_if; stays.
Qed.

Lemma sp_Truncate u w r w' :
  Forall (λ s, path s ≠ n) (take (doomed u (sealed (lg w))) (sealed (lg w))) →
  Truncate u w = (r, w') → on_disk R w w'.
Proof using All.
  intros Hd H. unfold Truncate in H. apply bind_gets_inv in H. cbv beta zeta in H. revert H.
  destruct (doomed u (sealed (lg w))); [by apply within_ret, _|].
  apply within_bind; [apply _ | by apply sp_onDisk, sp_removeFiles|]. intros [removed rerr]. stays.
Qed.
End operations.

(** ** What a file holds *)

Section file.
Context (n : bytes).

Definition fileOf (d : Disk.disk) : option bytes := Disk.view d !! n.
Definition fileIn (w : world) : option bytes := fileOf (dk w).
Definition same_contents : relation Disk.disk := same_view fileOf.

#[global] Instance same_contents_sparing : Sparing n same_contents.
Proof.
  split; [apply _ | ..]; unfold same_contents, same_view, fileOf.
  - intros p Hp d r d' H. apply Disk.openExcl_inv in H as [(_ & _ & ->)|(? & _ & ->)]; [by rewrite lookup_insert_ne | done].
  - intros p Hp d r d' H. apply Disk.openTrunc_inv in H as [(_ & ->)|(? & _ & ->)]; [by rewrite lookup_insert_ne | done].
  - intros p b Hp d r d' H. unfold Disk.view.
    apply Disk.call_inv in H as [(e & k & _ & ->)|[(x & i & [= _ <-] & _ & ->)|(e & [=] & _)]];
      destruct (Disk.files (Disk.img d) !! p); try done; simpl; by rewrite fmap_insert, lookup_insert_ne.
  - intros p z Hp d r d' H. unfold Disk.view.
    apply Disk.call_inv in H as [(e & k & _ & ->)|[(x & i & E & _ & ->)|(e & _ & _ & ->)]]; try done.
    destruct (Disk.files (Disk.img d) !! p); [|done]. injection E as _ <-. simpl. by rewrite fmap_insert, lookup_insert_ne.
  - intros a b Ha Hb d r d' H. apply Disk.rename_inv in H as [(c & _ & _ & ->)|(? & _ & ->)]; [by rewrite lookup_insert_ne, lookup_delete_ne | done].
  - intros p Hp d r d' H. apply Disk.remove_inv in H as [(_ & _ & ->)|(? & _ & ->)]; [by rewrite lookup_delete_ne | done].
  - intros p Hp d r d' H. apply Disk.openCreate_inv in H as [_ H]. by apply H, not_eq_sym.
  - intros p d r d' H. by apply Disk.openExisting_inv in H as [_ ->].
  - intros p d r d' H. unfold Disk.view. by apply Disk.call_inv in H as [(e & k & _ & ->)|[(x & i & [= _ <-] & _ & ->)|(e & [=] & _)]].
  - intros d r d' H. by apply Disk.readDir_inv in H as [_ ->].
  - intros p d r d' H. by apply Disk.readFile_inv in H as [_ ->].
  - intros p d r d' H. by apply Disk.readAll_inv in H as [_ ->].
  - intros p d r d' H. by apply Disk.stat_inv in H as [_ ->].
  - intros p d r d' H. by apply Disk.fsync_inv in H as [_ ->].
  - intros p d r d' H. by apply Disk.close_inv in H as [_ ->].
  - intros d r d' H. by apply Disk.syncDir_inv in H as [_ ->].
Qed.
End file.

End Frame.
