(* ===== verification/LogSteps.v ===== *)
(** * The log as a concurrent system

    Appenders, the committer and truncation run side by side; what each does
    between taking and releasing [l.mu], or on the files only the committer
    writes, is one step ([running]); [step] adds what the checkpointer does to the
    log and its directory.  The invariant relates every reachable state to an
    abstract log: the records present at the start, then the records of the
    commit rounds that were resolved without an error, in the order they were
    staged, less what truncation was allowed to take off the front. *)

From stdpp Require Import strings sorting.
From S2P Require Import Prelude Errors Text Record Disk Segment MarkFiles Log LogInv Frame.
Local Open Scope Z_scope.
Local Open Scope go_scope.

Module LogSteps.
Import Record Segment Log LogInv.

(** Where the committer goroutine is inside [commit]. *)
Inductive phase :=
| Idle
| Writing (j : job)
| Storing (j : job)
| Undoing (j : job) (e : error)
| Ending (j : job) (err rb : option error).

(** The running log, with a history no code reads: what was staged, into which
    round and under which number, and the highest bound given to [Truncate]. *)
Record sys := Sys {
  sw : world;
  ph : phase;
  staged : list (nat * (Z * bytes));
  upto : Z
}.

Definition log_of (s : sys) : log := lg (sw s).

(** The counter of a log stays 2^20 + n below the top of its range: it would
    take centuries to get there. *)
Definition room (s : sys) (ps : list bytes) : Prop :=
  nextLSN (log_of s) + len ps + reserveBlock <= maxU64.

Definition after_rotate (j : job) (r : result unit) : phase :=
  match r with Ok _ => Storing j | Fail e => Undoing j e end.
Definition after_store (j : job) (r : result unit) : phase :=
  match r with Ok _ => Ending j None None | Fail e => Undoing j e end.
Definition after_undo (j : job) (e : error) (r : result unit) : phase :=
  Ending j (Some e) (match r with Ok _ => None | Fail re => Some re end).

(** What appenders, the committer and [Close] do. *)
Inductive running : sys → sys → Prop :=
| run_append s ps first last r w' :
    ps ≠ [] → room s ps →
    AppendBatchAsync ps (sw s) = (Ok (MkCommit first last (Some r)), w') →
    running s (Sys w' (ph s) (staged s ++ (pair r <$> entries first ps)) (upto s))
| run_refused s ps e w' :
    room s ps → AppendBatchAsync ps (sw s) = (Fail e, w') →
    running s (Sys w' (ph s) (staged s) (upto s))
| run_begin s j l' :
    ph s = Idle → commitBegin (log_of s) = Some (j, l') →
    running s (Sys (World l' (dk (sw s))) (Writing j) (staged s) (upto s))
| run_rotate s j r w' :
    ph s = Writing j →
    (if mustRotate (log_of s) (buf j) then rotate (jfirst j) else ret tt) (sw s) = (r, w') →
    running s (Sys w' (after_rotate j r) (staged s) (upto s))
| run_store s j r w' :
    ph s = Storing j →
    appendBatch (syncMode (opts (log_of s))) (buf j) (u64 (jlast j - jfirst j + 1)) (sw s) = (r, w') →
    running s (Sys w' (after_store j r) (staged s) (upto s))
| run_undo s j e r w' :
    ph s = Undoing j e → rollback (sw s) = (r, w') →
    running s (Sys w' (after_undo j e r) (staged s) (upto s))
| run_end s j err rb :
    ph s = Ending j err rb →
    running s (Sys (World (commitEnd j err rb (log_of s)) (dk (sw s))) Idle (staged s) (upto s))
| run_close s :
    running s (Sys (World (set_closed (log_of s)) (dk (sw s))) (ph s) (staged s) (upto s)).

(** With what the checkpointer does beside them. *)
Inductive step : sys → sys → Prop :=
| step_running s s' : running s s' → step s s'
| step_truncate s u r w' :
    Truncate u (sw s) = (r, w') →
    step s (Sys w' (ph s) (staged s) (Z.max u (upto s)))
| step_checkpoint s m r d' :
    is_u64 m → MarkFiles.WriteCheckpoint m (dk (sw s)) = (r, d') →
    step s (Sys (World (log_of s) d') (ph s) (staged s) (upto s)).

Lemma running_upto s s' : running s s' → upto s' = upto s.
Proof. by destruct 1. Qed.

(** A file that an append does not touch, nor a rotation creates, is touched
    only where it is the active segment. *)
Lemma running_spares n R {Sp : Frame.Sparing n R} s s' :
  (∀ ps r w', AppendBatchAsync ps (sw s) = (r, w') → R (dk (sw s)) (dk w')) →
  (∀ j, ph s = Writing j → mustRotate (log_of s) (buf j) = true → segmentName (jfirst j) (jfirst j -u 1) ≠ n) →
  (∀ b, within R (Disk.write (path (active (log_of s))) b)) →
  within R (Disk.truncate (path (active (log_of s))) (size (active (log_of s)))) →
  running s s' → R (dk (sw s)) (dk (sw s')).
Proof.
  intros Happ Hrot Hw Ht Hstep. pose proof (Frame.sp_preorder (n := n) (R := R)) as Hpre.
  destruct Hstep as [s ps first last r w' Hps Hroom H|s ps e w' Hroom H|s j l' Hp H|s j r w' Hp H
    |s j r w' Hp H|s j e r w' Hp H|s j e rb Hp|s]; simpl; try reflexivity.
  1, 2: exact (Happ _ _ _ H).
  - specialize (Hrot j Hp). destruct (mustRotate (log_of s) (buf j)); [|injection H as _ <-; reflexivity].
    exact (Frame.sp_rotate n R _ (Hrot eq_refl) _ _ _ H).
  - exact (Frame.sp_appendBatch n R _ _ _ _ _ _ (Hw _) H).
  - exact (Frame.sp_rollback n R _ _ _ Ht H).
Qed.

(** ** The abstract log *)

(** A round resolved without an error. *)
Definition acked (l : log) (r : nat) : bool :=
  match rounds l !! r with Some (Decided None) => true | _ => false end.

(** The records of the rounds resolved without an error. *)
Definition acknowledged (l : log) (h : list (nat * (Z * bytes))) : list (Z * bytes) :=
  snd <$> filter (λ x, acked l x.1 = true) h.

Definition of_round (r : nat) (h : list (nat * (Z * bytes))) : list (Z * bytes) :=
  snd <$> filter (λ x, x.1 = r) h.

(** A batch that is written and published while its round is still open. *)
Definition published (p : phase) (h : list (nat * (Z * bytes))) : list (Z * bytes) :=
  match p with Ending j None _ => of_round (jround j) h | _ => [] end.

(** A log as [Open] leaves it. *)
Record fresh (w : world) (gs : list (list bytes)) (pa : list bytes) : Prop := {
  fr_core : core w gs pa [] [] [] HOpen;
  fr_rounds : rounds (lg w) = [Undecided];
  fr_cur : curRound (lg w) = 0%nat;
  fr_inflight : inflight (lg w) = None;
  fr_broken : broken (lg w) = false;
  fr_fail : failErr (lg w) = None;
  fr_durable : 0 <= durable (lg w) < nextLSN (lg w);
  fr_covers : Forall (λ e, e.1 <= durable (lg w)) (all_records (lg w) gs pa)
}.

Inductive reachable (w0 : world) : sys → Prop :=
| reach_init : reachable w0 (Sys w0 Idle [] 0)
| reach_step s s' : reachable w0 s → step s s' → reachable w0 s'.

(** ** The invariant *)

Definition job_of (p : phase) : option job :=
  match p with
  | Idle => None
  | Writing j | Storing j | Undoing j _ | Ending j _ _ => Some j
  end.

(** The records of the round in flight are still to be written. *)
Definition unwritten (p : phase) : bool :=
  match p with Idle | Ending _ None _ => false | _ => true end.

Definition segment_clean (p : phase) (l : log) : Prop :=
  match p with
  | Idle => broken l = false
  | Writing _ | Storing _ | Ending _ None _ | Ending _ (Some _) None => True
  | Undoing _ _ | Ending _ (Some _) (Some _) => False
  end.

(** The job in hand: [flown] are its records. *)
Record job_ok (l : log) (p : phase) (pa fly flown : list bytes) (j : job) : Prop := {
  j_round : rounds l !! jround j = Some Undecided;
  j_cur : jround j ≠ curRound l;
  j_inflight : inflight l = Some (jround j);
  j_flown : flown ≠ [];
  j_buf : buf j = frames flown;
  j_last : jlast j = jfirst j + len flown - 1;
  j_where : if unwritten p then fly = flown ∧ jfirst j = baseLSN (active l) + len pa
            else fly = [] ∧ jfirst j + len flown = baseLSN (active l) + len pa;
  j_alive : broken l = false
}.

(** Bytes after the published ones are the beginning of a batch whose round is
    open or was resolved with an error. *)
Definition left_over (l : log) (h : list (nat * (Z * bytes))) (at_ : Z) (junk : bytes) : Prop :=
  junk = [] ∨ ∃ k r ps,
    junk = take k (frames ps) ∧ Forall (payload_ok (maxRecordBytes (opts l))) ps ∧
    r ≠ curRound l ∧ is_Some (rounds l !! r) ∧ acked l r = false ∧ of_round r h = entries at_ ps.

Record good (init : list (Z * bytes)) (s : sys) (gs : list (list bytes)) (pa fly st : list bytes)
    (junk : bytes) (h : handle) (flown : list bytes) (old : list (nat * (Z * bytes))) : Prop := {
  i_core : core (sw s) gs pa fly st junk h;
  i_cur : rounds (log_of s) !! curRound (log_of s) = Some Undecided;
  i_job : match job_of (ph s) with
          | None => fly = [] ∧ flown = [] ∧ inflight (log_of s) = None
          | Some j => job_ok (log_of s) (ph s) pa fly flown j
          end;
  i_staged : staged s = old
     ++ match job_of (ph s) with
        | Some j => pair (jround j) <$> entries (jfirst j) flown
        | None => []
        end
     ++ (pair (curRound (log_of s)) <$> entries (baseLSN (active (log_of s)) + len pa + len fly) st);
  i_old : Forall (λ x, is_Some (rounds (log_of s) !! x.1) ∧ x.1 ≠ curRound (log_of s) ∧
                       inflight (log_of s) ≠ Some x.1) old;
  i_clean : segment_clean (ph s) (log_of s) → junk = [] ∧ h = HOpen;
  i_handle : h ≠ HNil;
  i_junk : left_over (log_of s) (staged s) (baseLSN (active (log_of s)) + len pa) junk;
  i_broken : broken (log_of s) = true →
    ∃ e, failErr (log_of s) = Some e ∧ errorsIs e Broken = true;
  i_records : ∃ gone,
    init ++ acknowledged (log_of s) old ++ (if unwritten (ph s) then [] else
       match job_of (ph s) with Some j => entries (jfirst j) flown | None => [] end)
    = gone ++ all_records (log_of s) gs pa ∧ Forall (λ e, e.1 < upto s) gone;
  i_sorted : StronglySorted Z.lt (init ++ acknowledged (log_of s) old).*1;
  i_durable : Forall (λ e, e.1 <= durable (log_of s)) (init ++ acknowledged (log_of s) old);
  i_below : 0 <= durable (log_of s) <
    match job_of (ph s) with Some j => jfirst j | None => baseLSN (active (log_of s)) + len pa end
}.

Definition inv (init : list (Z * bytes)) (s : sys) : Prop :=
  ∃ gs pa fly st junk h flown old, good init s gs pa fly st junk h flown old.

(** A good state whose book has grown from [bk]. *)
Definition leads (init : list (Z * bytes)) (bk : list (segment * list bytes)) (s : sys) : Prop :=
  ∃ gs pa fly st junk h flown old, good init s gs pa fly st junk h flown old ∧
    grown (upto s) bk (book (log_of s) gs pa).

(** ** Histories *)

Lemma ack_app l a b : acknowledged l (a ++ b) = acknowledged l a ++ acknowledged l b.
Proof. unfold acknowledged. by rewrite filter_app, fmap_app. Qed.

Lemma ack_batch l r es :
  acknowledged l (pair r <$> es) = if acked l r then es else [].
Proof.
  unfold acknowledged. induction es as [|e es IH]; simpl; [by destruct (acked l r)|].
  rewrite filter_cons. csimpl. destruct (acked l r); case_decide; try done.
  csimpl. by rewrite IH.
Qed.

Lemma ack_ext l l' h :
  Forall (λ x, acked l' x.1 = acked l x.1) h →
  acknowledged l' h = acknowledged l h.
Proof.
  unfold acknowledged. induction 1 as [|x h Hx _ IH]; [done|].
  rewrite !filter_cons. case_decide; case_decide; try congruence; csimpl; by rewrite IH.
Qed.

Lemma of_round_app r a b : of_round r (a ++ b) = of_round r a ++ of_round r b.
Proof. unfold of_round. by rewrite filter_app, fmap_app. Qed.

Lemma of_round_batch r r' es : of_round r (pair r' <$> es) = if bool_decide (r' = r) then es else [].
Proof.
  unfold of_round. induction es as [|e es IH]; simpl; [by case_bool_decide|].
  rewrite filter_cons. csimpl. case_decide; case_bool_decide; try done.
  csimpl. by rewrite IH.
Qed.

Lemma of_round_other r h : Forall (λ x, x.1 ≠ r) h → of_round r h = [].
Proof. unfold of_round. induction 1; [done|]. rewrite filter_cons. by case_decide. Qed.

Lemma entries_le b ps : Forall (λ e, e.1 <= b + len ps - 1) (entries b ps).
Proof. apply Forall_forall. intros e He%entries_lsn. lia. Qed.

Lemma left_over_app l h at_ junk es :
  left_over l h at_ junk → left_over l (h ++ (pair (curRound l) <$> es)) at_ junk.
Proof.
  intros [->|(k & r & ps & -> & Hps & Hr & Hs & Ha & Ho)]; [by left|].
  right. exists k, r, ps. repeat split; try done.
  rewrite of_round_app, of_round_batch, bool_decide_false by congruence. by rewrite app_nil_r.
Qed.

(** ** Appending *)

Lemma existsb_payloads max ps :
  existsb (λ p, max <? len p) ps = false → Forall (payload_ok max) ps.
Proof.
  induction ps as [|p ps IH]; simpl; intros H; bools; constructor; [unfold payload_ok; lia|].
  by apply IH.
Qed.

(** Staging numbers the records from [nextLSN] and puts them behind what is
    staged already, into the current round; a refusal leaves the log as it
    was. *)
Lemma AppendBatchAsync_spec w gs pa fly st junk h ps r w' :
  core w gs pa fly st junk h → (broken (lg w) = true → is_Some (failErr (lg w))) →
  ps ≠ [] → nextLSN (lg w) + len ps + reserveBlock <= maxU64 →
  AppendBatchAsync ps w = (r, w') →
  (∃ want, r = Ok (MkCommit (nextLSN (lg w)) (nextLSN (lg w) + len ps - 1) (Some (curRound (lg w)))) ∧
     closed (lg w) = false ∧ broken (lg w) = false ∧
     lg w' = place (fold_left appendRecord ps) (len ps) (set_reserved want (lg w)) ∧
     core w' gs pa fly (st ++ ps) junk h) ∨
  (∃ e, r = Fail e ∧ lg w' = lg w ∧ core w' gs pa fly st junk h).
Proof.
  intros C Hbr Hps Hroom H. unfold AppendBatchAsync in H.
  destruct ps as [|p0 ps0]; [done|]. remember (p0 :: ps0) as ps eqn:Eps.
  apply bind_gets_inv in H. cbv beta in H.
  destruct (existsb _ _) eqn:Ex; [injection H as <- <-; right; eauto|].
  apply existsb_payloads in Ex.
  change (λ dst : bytes, fold_left appendRecord ps dst) with (fold_left appendRecord ps) in H.
  assert (Hrefuse : ∀ e, stage (fold_left appendRecord ps) (len ps) w = (Fail e, w) →
     r = Fail e ∧ w' = w).
  { intros e E. unfold bind in H. rewrite E in H. by injection H as <- <-. }
  destruct (closed (lg w)) eqn:Ec.
  { right. exists (Sentinel WalClosed). destruct (Hrefuse (Sentinel WalClosed)) as [-> ->]; [|done].
    unfold stage, bind, gets. by rewrite Ec. }
  destruct (broken (lg w)) eqn:Eb.
  { right. destruct (Hbr eq_refl) as [e He]. exists e. destruct (Hrefuse e) as [-> ->]; [|done].
    unfold stage, bind, gets. by rewrite Ec, Eb, He. }
  apply bind_inv in H as [([[first r1] force] & w1 & H1 & H)|(e & H & ->)].
  - apply (stage_spec _ _ _ _ _ _ _ _ _ _ C Hps Ex Ec Eb Hroom) in H1
      as [(fo & want & [= -> -> ->] & Hl & C')|(? & [=] & _)].
    injection H as <- <-. left. exists want. split; [|done].
    pose proof (len_pos ps Hps). pose proof (c_next _ _ _ _ _ _ _ C).
    pose proof (rep_base _ _ _ _ _ (c_active _ _ _ _ _ _ _ C)).
    pose proof (len_nonneg pa). pose proof (len_nonneg fly). pose proof (len_nonneg st).
    assert (reserveBlock = 1048576) by done. unfold maxU64 in *.
    do 2 f_equal. ulia.
  - apply (stage_spec _ _ _ _ _ _ _ _ _ _ C Hps Ex Ec Eb Hroom) in H
      as [(? & ? & [=] & _)|(e' & [= <-] & Hl & C')]. right. eauto.
Qed.

(** ** Every step keeps the invariant *)

Section steps.
Context {init : list (Z * bytes)} {s : sys} {gs : list (list bytes)} {pa fly st : list bytes}
  {junk : bytes} {h : handle} {flown : list bytes} {old : list (nat * (Z * bytes))}.
Context (G : good init s gs pa fly st junk h flown old).
Local Abbreviation l := (log_of s).

Lemma failErr_set : broken l = true → is_Some (failErr l).
Proof using G. intros Hb. destruct (i_broken _ _ _ _ _ _ _ _ _ _ G Hb) as (e & -> & _). done. Qed.

(** A step that only touches files the invariant does not speak of. *)
Lemma good_same_log w' :
  lg w' = l → core w' gs pa fly st junk h → leads init (book l gs pa) (Sys w' (ph s) (staged s) (upto s)).
Proof using G.
  intros E C. exists gs, pa, fly, st, junk, h, flown, old. split; [|by unfold book, log_of in *; simpl; rewrite E].
  destruct G. split; unfold log_of in *; simpl; rewrite ?E; done.
Qed.

Lemma inv_append ps first last r w' :
  ps ≠ [] → room s ps → AppendBatchAsync ps (sw s) = (Ok (MkCommit first last (Some r)), w') →
  leads init (book l gs pa) (Sys w' (ph s) (staged s ++ (pair r <$> entries first ps)) (upto s)).
Proof using G.
  intros Hps Hroom H. pose proof failErr_set as Hbr.
  pose proof (i_core _ _ _ _ _ _ _ _ _ _ G) as C. pose proof (c_next _ _ _ _ _ _ _ C) as Hn.
  apply (AppendBatchAsync_spec _ _ _ _ _ _ _ _ _ _ C Hbr Hps Hroom) in H
    as [(want & [= -> -> ->] & _ & Hb & Hl & C')|(? & [=] & _)].
  exists gs, pa, fly, (st ++ ps), junk, h, flown, old.
  split; [|by unfold book, log_of in *; simpl; rewrite Hl]. destruct G.
  split; unfold log_of in *; simpl; rewrite ?Hl; try done.
  - simpl. destruct (job_of (ph s)); [|done]. destruct i_job0. by split.
  - rewrite i_staged0, entries_app, fmap_app, !app_assoc. simpl. by rewrite Hn.
  - exact (left_over_app _ _ _ _ _ i_junk0).
Qed.

Lemma inv_refused ps e w' :
  room s ps → AppendBatchAsync ps (sw s) = (Fail e, w') →
  leads init (book l gs pa) (Sys w' (ph s) (staged s) (upto s)).
Proof using G.
  intros Hroom H. destruct (decide (ps = [])) as [->|Hps]; [done|].
  apply (AppendBatchAsync_spec _ _ _ _ _ _ _ _ _ _ (i_core _ _ _ _ _ _ _ _ _ _ G)
    failErr_set Hps Hroom) in H as [(? & [=] & _)|(e' & _ & Hl & C')].
  by apply good_same_log.
Qed.

Lemma inv_close : leads init (book l gs pa) (Sys (World (set_closed l) (dk (sw s))) (ph s) (staged s) (upto s)).
Proof using G.
  exists gs, pa, fly, st, junk, h, flown, old. split; [|done]. destruct G. split; try done.
  - unfold log_of in *. by destruct i_core0.
  - simpl. destruct (job_of (ph s)); [|done]. destruct i_job0. by split.
Qed.

Lemma inv_begin j l' :
  ph s = Idle → commitBegin l = Some (j, l') →
  leads init (book l gs pa) (Sys (World l' (dk (sw s))) (Writing j) (staged s) (upto s)).
Proof using G.
  intros Hp H. destruct G. rewrite Hp in *. simpl in *. destruct i_job0 as (Hf & Hfl & Hin).
  rewrite Hf in *. rewrite Hfl in *.
  destruct (commitBegin_spec _ _ _ _ _ _ _ _ i_core0 H) as (Hst & Hb & -> & C').
  destruct (i_clean0 Hb) as [Hj Hh].
  unfold commitBegin in H. destruct (_ || _); [done|]. apply Some_inj, (f_equal snd) in H. simpl in H. subst l'.
  pose proof (lookup_lt_Some _ _ _ i_cur0) as Hlt. unfold log_of in *.
  assert (Hack : ∀ l'', rounds l'' = rounds (lg (sw s)) ++ [Undecided] →
    acknowledged l'' old = acknowledged (lg (sw s)) old).
  { intros l'' E. apply ack_ext. eapply Forall_impl; [done|]. intros x ([r Hr] & _).
    unfold acked. rewrite E. by rewrite lookup_app_l by (by eapply lookup_lt_Some). }
  exists gs, pa, st, [], junk, h, st, old. split; [|done].
  split; unfold log_of; simpl; try done.
  - by rewrite lookup_app_r, Nat.sub_diag by lia.
  - split; simpl; try done; [|lia]. by rewrite lookup_app_l by lia.
  - rewrite app_nil_r, i_staged0. simpl. by rewrite len_nil, Z.add_0_r.
  - eapply Forall_impl; [done|]. simpl. intros x ([r Hr] & Hx & _).
    pose proof (lookup_lt_Some _ _ _ Hr). split; [|split; [lia | congruence]].
    exists r. by apply lookup_app_l_Some.
  - by left.
  - by rewrite Hack.
  - by rewrite Hack.
  - by rewrite Hack.
Qed.

(** The committer works on the segments and the staged records stay to be
    written. *)
Lemma good_segs j p' w' gs' pa' junk' h' :
  job_of (ph s) = Some j → unwritten (ph s) = true → job_of p' = Some j → unwritten p' = true →
  segs_only l (lg w') → core w' gs' pa' fly st junk' h' → h' ≠ HNil →
  (segment_clean p' (lg w') → junk' = [] ∧ h' = HOpen) →
  left_over l (staged s) (baseLSN (active l) + len pa) junk' →
  all_records (lg w') gs' pa' = all_records l gs pa →
  (∀ u, grown u (book l gs pa) (book (lg w') gs' pa')) →
  leads init (book l gs pa) (Sys w' p' (staged s) (upto s)).
Proof using G.
  intros Hj Hu Hj' Hu' (ss & a & E) C' Hh Hclean Hlo Hrec Hgr.
  exists gs', pa', fly, st, junk', h', flown, old. split; [|apply Hgr]. destruct G.
  pose proof (c_next _ _ _ _ _ _ _ C') as Hn'. pose proof (c_next _ _ _ _ _ _ _ i_core0) as Hn.
  unfold log_of in *.
  assert (Hbase : baseLSN (active (lg (sw s))) + len pa = baseLSN (active (lg w')) + len pa').
  { rewrite E in *. simpl in *. lia. }
  rewrite Hj, Hu in *.
  split; unfold log_of; simpl; rewrite ?Hj', ?Hu'; try rewrite Hrec; try done; rewrite ?E; try done.
  - destruct i_job0. split; simpl; try done. rewrite Hu', Hu in *. rewrite E in Hbase.
    simpl in Hbase. by rewrite <- Hbase.
  - rewrite E in Hbase. simpl in *. by rewrite <- Hbase.
  - rewrite E in Hbase. simpl in *. by rewrite <- Hbase.
Qed.

Lemma good_job_round j : job_of (ph s) = Some j → of_round (jround j) (staged s) = entries (jfirst j) flown.
Proof using G.
  intros Hj. pose proof (i_job _ _ _ _ _ _ _ _ _ _ G) as J. rewrite Hj in J.
  rewrite (i_staged _ _ _ _ _ _ _ _ _ _ G), Hj, !of_round_app, !of_round_batch, of_round_other.
  - rewrite bool_decide_true by done. rewrite bool_decide_false; [by rewrite app_nil_r|].
    apply not_eq_sym, (j_cur _ _ _ _ _ _ J).
  - eapply Forall_impl; [apply (i_old _ _ _ _ _ _ _ _ _ _ G)|]. simpl. intros x (_ & _ & Hx).
    rewrite (j_inflight _ _ _ _ _ _ J) in Hx. congruence.
Qed.

Lemma inv_rotate j r w' :
  ph s = Writing j →
  (if mustRotate l (buf j) then rotate (jfirst j) else ret tt) (sw s) = (r, w') →
  leads init (book l gs pa) (Sys w' (after_rotate j r) (staged s) (upto s)).
Proof using G.
  intros Hp H. pose proof (i_core _ _ _ _ _ _ _ _ _ _ G) as C.
  pose proof (i_job _ _ _ _ _ _ _ _ _ _ G) as J. pose proof (i_clean _ _ _ _ _ _ _ _ _ _ G) as Hc.
  rewrite Hp in J, Hc. simpl in *. destruct (Hc I) as [Hj Hh].
  destruct (j_where _ _ _ _ _ _ J) as [Hfly Hfirst].
  assert (Hjob : job_of (ph s) = Some j ∧ unwritten (ph s) = true) by (by rewrite Hp).
  destruct Hjob as [Hjo Hun].
  destruct (mustRotate l (buf j)) eqn:Em.
  - unfold mustRotate in Em. bools.
    assert (Hpa : pa ≠ []).
    { pose proof (rep_size _ _ _ _ _ (c_active _ _ _ _ _ _ _ C)) as Hs. unfold log_of in *.
      intros Hnil. rewrite Hnil in Hs. change (len (frames [])) with 0 in Hs. lia. }
    assert (Hle : jfirst j <= maxU64).
    { pose proof (c_next _ _ _ _ _ _ _ C). pose proof (c_bound _ _ _ _ _ _ _ C).
      pose proof (len_nonneg st). pose proof (len_nonneg fly). unfold log_of in *. lia. }
    destruct (rotate_spec C _ _ _ Hj Hh Hpa Hfirst Hle H)
      as [Hso [(-> & C' & _ & Hrec & Hgr)|(e & h' & -> & Hh' & C' & Hrec & Hgr)]].
    + eapply good_segs; try done. by left.
    + eapply good_segs; try done. by left.
  - injection H as <- <-. eapply good_segs; try done; [apply segs_only_refl | by rewrite Hh |].
    apply (i_junk _ _ _ _ _ _ _ _ _ _ G).
Qed.

Lemma inv_store j r w' :
  ph s = Storing j →
  appendBatch (syncMode (opts l)) (buf j) (u64 (jlast j - jfirst j + 1)) (sw s) = (r, w') →
  leads init (book l gs pa) (Sys w' (after_store j r) (staged s) (upto s)).
Proof using G.
  intros Hp H. pose proof (i_core _ _ _ _ _ _ _ _ _ _ G) as C.
  pose proof (i_job _ _ _ _ _ _ _ _ _ _ G) as J. pose proof (i_clean _ _ _ _ _ _ _ _ _ _ G) as Hc.
  rewrite Hp in J, Hc. simpl in *. destruct (Hc I) as [Hj Hh].
  destruct (j_where _ _ _ _ _ _ J) as [Hfly Hfirst].
  assert (Hjob : job_of (ph s) = Some j ∧ unwritten (ph s) = true) by (by rewrite Hp).
  destruct Hjob as [Hjo Hun]. pose proof (j_flown _ _ _ _ _ _ J) as Hne.
  pose proof (j_last _ _ _ _ _ _ J) as Hlast.
  assert (Hn : u64 (jlast j - jfirst j + 1) = len fly).
  { pose proof (c_next _ _ _ _ _ _ _ C). pose proof (c_bound _ _ _ _ _ _ _ C).
    pose proof (rep_base _ _ _ _ _ (c_active _ _ _ _ _ _ _ C)).
    pose proof (len_nonneg st). pose proof (len_nonneg pa). pose proof (len_pos flown Hne).
    rewrite Hlast, Hfly. unfold maxU64 in *. rewrite <- Hfly in *. unfold log_of in *. ulia. }
  rewrite Hn, (j_buf _ _ _ _ _ _ J), <- Hfly in H. rewrite <- Hfly in Hne.
  destruct (appendBatch_spec C _ _ _ Hj Hh Hne H)
    as [Hso [(-> & C' & Hrec & Hgr)|(e & junk' & -> & Hl & C')]].
  - destruct Hso as (ss & a & E).
    pose proof (c_next _ _ _ _ _ _ _ C') as Hn'. pose proof (c_next _ _ _ _ _ _ _ C) as Hn0.
    unfold log_of in *.
    assert (Hbase : baseLSN (active (lg (sw s))) + len pa + len fly
                    = baseLSN (active (lg w')) + len (pa ++ fly)).
    { rewrite E in *. simpl in *. rewrite len_nil in *. lia. }
    exists gs, (pa ++ fly), [], st, [], HOpen, flown, old. split; [|apply Hgr]. destruct G. rewrite Hp in *.
    split; unfold log_of in *; simpl in *; try rewrite Hrec; try done; rewrite ?E in *; try done.
    + destruct i_job0. split; simpl in *; try done. split; [done|]. rewrite Hfirst, <- Hbase, Hfly. lia.
    + simpl in *. by rewrite <- Hbase, len_nil, Z.add_0_r.
    + by left.
    + destruct i_records0 as (gone & Hr & Hg). exists gone. split; [|done].
      rewrite app_nil_r in Hr.
      transitivity ((init ++ acknowledged (lg (sw s)) old) ++ entries (jfirst j) flown);
        [by rewrite <- app_assoc|].
      by rewrite Hr, app_assoc, <- Hfirst, Hfly.
  - eapply good_segs; try done; rewrite ?Hl; try done.
    right. exists junk', (jround j), fly. split; [done|]. split; [apply (c_fly _ _ _ _ _ _ _ C)|].
    split; [apply (j_cur _ _ _ _ _ _ J)|]. rewrite (good_job_round j Hjo), Hfirst, Hfly.
    unfold acked. by rewrite (j_round _ _ _ _ _ _ J).
Qed.

Lemma inv_undo j e r w' :
  ph s = Undoing j e → rollback (sw s) = (r, w') →
  leads init (book l gs pa) (Sys w' (after_undo j e r) (staged s) (upto s)).
Proof using G.
  intros Hp H. pose proof (i_core _ _ _ _ _ _ _ _ _ _ G) as C.
  pose proof (i_handle _ _ _ _ _ _ _ _ _ _ G) as Hh.
  assert (Hjob : job_of (ph s) = Some j ∧ unwritten (ph s) = true) by (by rewrite Hp).
  destruct Hjob as [Hjo Hun].
  destruct (rollback_spec C _ _ Hh H) as [Hl [(-> & Ho & C')|(re & junk' & -> & Hjk & C')]].
  - eapply good_segs; try done; rewrite ?Hl; try done; [apply segs_only_refl | by left].
  - eapply good_segs; try done; rewrite ?Hl; try done; [apply segs_only_refl|].
    destruct Hjk as [->| ->]; [by left | apply (i_junk _ _ _ _ _ _ _ _ _ _ G)].
Qed.

(** A resolved round keeps the outcomes of the older ones. *)
Lemma acked_old l' x :
  x ∈ old → (∀ r, r ≠ curRound l → inflight l ≠ Some r → is_Some (rounds l !! r) →
                  rounds l' !! r = rounds l !! r) →
  acked l' x.1 = acked l x.1.
Proof using G.
  intros Hx E. destruct (proj1 (Forall_forall _ _) (i_old _ _ _ _ _ _ _ _ _ _ G) x Hx) as (? & ? & ?).
  unfold acked. by rewrite E.
Qed.

Lemma inv_end_success j rb :
  ph s = Ending j None rb →
  leads init (book l gs pa) (Sys (World (commitEnd j None rb l) (dk (sw s))) Idle (staged s) (upto s)).
Proof using G.
  intros Hp. pose proof acked_old as Hack. destruct G. rewrite Hp in *.
  simpl in i_job0, i_staged0, i_clean0, i_records0, i_below0.
  destruct i_job0 as [Jr Jc Ji Jf Jb Jl [-> Jw] Ja]. destruct (i_clean0 I) as [-> ->].
  pose proof (len_pos flown Jf) as Hpos. unfold log_of in *.
  assert (Hold : acknowledged (commitEnd j None rb (lg (sw s))) old = acknowledged (lg (sw s)) old).
  { apply ack_ext, Forall_forall. intros x Hx. apply Hack; [done|]. intros r _ Hr _. simpl.
    apply list_lookup_insert_ne. congruence. }
  assert (Hnew : acknowledged (commitEnd j None rb (lg (sw s))) (pair (jround j) <$> entries (jfirst j) flown)
                 = entries (jfirst j) flown).
  { rewrite ack_batch. unfold acked. simpl. unfold resolve.
    by rewrite list_lookup_insert_eq by (by eapply lookup_lt_Some). }
  exists gs, pa, [], st, [], HOpen, [], (old ++ (pair (jround j) <$> entries (jfirst j) flown)).
  split; [|done]. split; unfold log_of; cbn [sw lg ph staged upto unwritten job_of];
    rewrite ?ack_app, ?Hold, ?Hnew; try done.
  - by apply (commitEnd_success _ _ _ _ _ _ _ rb).
  - simpl. unfold resolve. by rewrite list_lookup_insert_ne by done.
  - simpl. by rewrite i_staged0, <- app_assoc.
  - apply Forall_app. simpl. unfold resolve. split.
    + eapply Forall_impl; [done|]. simpl. intros x (Hx & ? & ?). split; [|done].
      rewrite list_lookup_insert_ne; [done|]. congruence.
    + apply Forall_fmap, Forall_true. intros e. simpl. split; [|done].
      rewrite list_lookup_insert_eq by (by eapply lookup_lt_Some). done.
  - by left.
  - destruct i_records0 as (gone & Hr & Hg). exists gone. split; [|done].
    by rewrite app_nil_r.
  - rewrite app_assoc. apply (sorted_snoc _ _ (jfirst j)); [done | apply entries_sorted | |].
    + eapply Forall_impl; [exact i_durable0|]. simpl. intros e. lia.
    + apply Forall_forall. intros e He%entries_lsn. lia.
  - rewrite app_assoc. apply Forall_app. simpl. split.
    + eapply Forall_impl; [exact i_durable0|]. simpl. intros e. lia.
    + rewrite Jl. apply entries_le.
  - simpl. lia.
Qed.

Lemma inv_end_failure j e rb :
  ph s = Ending j (Some e) rb →
  leads init (book l gs pa) (Sys (World (commitEnd j (Some e) rb l) (dk (sw s))) Idle (staged s) (upto s)).
Proof using G.
  intros Hp. pose proof acked_old as Hack. destruct G. rewrite Hp in *.
  simpl in i_job0, i_staged0, i_clean0, i_records0, i_below0.
  destruct i_job0 as [Jr Jc Ji Jf Jb Jl [Jfl Jw] Ja].
  pose proof (lookup_lt_Some _ _ _ i_cur0) as Hlt. pose proof (lookup_lt_Some _ _ _ Jr) as Hltj.
  unfold log_of in *. set (l' := commitEnd j (Some e) rb (lg (sw s))).
  assert (Hcurl : acked l' (curRound (lg (sw s))) = false).
  { unfold acked. simpl. unfold resolve. rewrite list_lookup_insert_eq; [done|].
    rewrite length_insert, length_app. lia. }
  assert (Hjl : acked l' (jround j) = false).
  { unfold acked. simpl. unfold resolve. rewrite list_lookup_insert_ne by done.
    rewrite list_lookup_insert_eq; [done|]. rewrite length_app. lia. }
  assert (Hrest : ∀ r, r ≠ curRound (lg (sw s)) → inflight (lg (sw s)) ≠ Some r →
     is_Some (rounds (lg (sw s)) !! r) → rounds l' !! r = rounds (lg (sw s)) !! r).
  { intros r H1 H2 [x Hx]. simpl. unfold resolve. rewrite !list_lookup_insert_ne by congruence.
    by rewrite lookup_app_l by (by eapply lookup_lt_Some). }
  assert (Hold : acknowledged l' (staged s) = acknowledged (lg (sw s)) old).
  { rewrite i_staged0, !ack_app, !ack_batch, Hcurl, Hjl, !app_nil_r.
    apply ack_ext, Forall_forall. intros x Hx. by apply Hack. }
  exists gs, pa, [], [], junk, h, [], (staged s).
  assert (Hlen : ∀ r, is_Some (rounds (lg (sw s)) !! r) →
     is_Some (rounds l' !! r) ∧ r ≠ curRound l' ∧ inflight l' ≠ Some r).
  { intros r [x Hx]. apply lookup_lt_Some in Hx. split; [|split; [simpl; lia | done]].
    apply lookup_lt_is_Some. simpl. unfold resolve. rewrite !length_insert, length_app. lia. }
  split; [|done].
  split; unfold log_of; cbn [sw lg ph staged upto unwritten job_of]; rewrite ?Hold; try done.
  - by eapply commitEnd_failure.
  - simpl. unfold resolve. rewrite !list_lookup_insert_ne by lia.
    by rewrite lookup_app_r, Nat.sub_diag by lia.
  - by rewrite app_nil_r.
  - rewrite i_staged0. apply Forall_app. split.
    + eapply Forall_impl; [done|]. simpl. intros x (Hx & _). by apply Hlen.
    + apply Forall_app. split; apply Forall_fmap, Forall_true; intros y; by apply Hlen.
  - intros Hbr. apply i_clean0. by destruct rb.
  - destruct i_junk0 as [->|(k & r & ps & -> & Hps & Hr & Hs & Ha & Ho)]; [by left|].
    right. exists k, r, ps. split; [done|]. split; [done|]. destruct (Hlen r Hs) as (H1 & H2 & _).
    split; [done|]. split; [done|]. split; [|done]. destruct (decide (r = jround j)) as [->|Hne]; [done|].
    unfold acked. rewrite Hrest; [done..|congruence|done].
  - simpl. destruct rb as [re|]; [|by rewrite Ja]. intros _. by eexists.
  - simpl. by rewrite <- Jw.
Qed.

Lemma inv_truncate u r w' :
  Truncate u (sw s) = (r, w') → leads init (book l gs pa) (Sys w' (ph s) (staged s) (Z.max u (upto s))).
Proof using G.
  intros H. pose proof (i_core _ _ _ _ _ _ _ _ _ _ G) as C.
  destruct (Truncate_spec _ _ _ _ _ _ _ _ _ _ C H)
    as (k & Hk & Hs & (k' & first & E) & C' & (gone & Hg & Hgu) & Hgr & _).
  exists (drop k gs), pa, fly, st, junk, h, flown, old.
  split; [|apply (grown_mono u); [simpl; lia | exact Hgr]]. destruct G. unfold log_of in *.
  assert (Hrec : ∃ gone0, (init ++ acknowledged (lg (sw s)) old ++
     (if unwritten (ph s) then [] else
        match job_of (ph s) with Some j => entries (jfirst j) flown | None => [] end))
     = gone0 ++ all_records (lg w') (drop k gs) pa ∧ Forall (λ e, e.1 < Z.max u (upto s)) gone0).
  { destruct i_records0 as (g0 & Hr & Hf). exists (g0 ++ gone).
    rewrite Hr, Hg, app_assoc. split; [done|]. apply Forall_app. split.
    - eapply Forall_impl; [done|]. simpl. intros e0. lia.
    - apply Forall_forall. intros e0 He0%Hgu. lia. }
  split; unfold log_of; simpl; try done; rewrite E in *; try done.
  simpl. destruct (job_of (ph s)); [|done]. destruct i_job0. by split.
Qed.

End steps.

(** The invariant holds in every reachable state, and the book grows. *)
Lemma good_step {init s s' gs pa fly st junk h flown old} :
  good init s gs pa fly st junk h flown old → step s s' → leads init (book (log_of s) gs pa) s'.
Proof.
  intros G Hstep.
  destruct Hstep as [? ? [s ps first last r w' Hps Hroom H|s ps e w' Hroom H|s j l' Hp H|s j r w' Hp H
    |s j r w' Hp H|s j e r w' Hp H|s j [e|] rb Hp|s]|s u r w' H|s m r d' Hm H].
  - by eapply (inv_append G).
  - by eapply (inv_refused G).
  - by eapply (inv_begin G).
  - by eapply (inv_rotate G).
  - by eapply (inv_store G).
  - by eapply (inv_undo G).
  - by eapply (inv_end_failure G).
  - by eapply (inv_end_success G).
  - by eapply (inv_close G).
  - by eapply (inv_truncate G).
  - apply (good_same_log G); [done|].
    by apply (core_writeCheckpoint _ _ _ _ _ _ _ _ _ _ (i_core _ _ _ _ _ _ _ _ _ _ G) Hm) in H as [? _].
Qed.

Lemma inv_step init s s' : inv init s → step s s' → inv init s'.
Proof.
  intros (gs & pa & fly & st & junk & h & flown & old & G) Hstep.
  destruct (good_step G Hstep) as (gs' & pa' & fly' & st' & junk' & h' & flown' & old' & G' & _).
  by exists gs', pa', fly', st', junk', h', flown', old'.
Qed.

Lemma inv_init w gs pa :
  fresh w gs pa → inv (all_records (lg w) gs pa) (Sys w Idle [] 0).
Proof.
  intros []. exists gs, pa, [], [], [], HOpen, [], [].
  split; unfold log_of; simpl; rewrite ?app_nil_r; try done.
  - by rewrite fr_rounds0, fr_cur0.
  - by left.
  - by rewrite fr_broken0.
  - by exists [].
  - by eapply core_sorted.
  - pose proof (c_next _ _ _ _ _ _ _ fr_core0). rewrite !len_nil in *. lia.
Qed.

Lemma reachable_inv w0 gs0 pa0 s :
  fresh w0 gs0 pa0 → reachable w0 s → inv (all_records (lg w0) gs0 pa0) s.
Proof.
  intros F. induction 1 as [|s s' _ IH Hs]; [by apply inv_init | by eapply inv_step].
Qed.

(** What a step does to the rounds. *)
Lemma rounds_of_step {init s s' gs pa fly st junk h flown old} :
  good init s gs pa fly st junk h flown old → step s s' →
  rounds (log_of s') = rounds (log_of s) ∨
  rounds (log_of s') = rounds (log_of s) ++ [Undecided] ∨
  (∃ j e rb, ph s = Ending j e rb ∧ rounds (log_of s') = rounds (commitEnd j e rb (log_of s))).
Proof.
  intros G Hstep. pose proof (i_core _ _ _ _ _ _ _ _ _ _ G) as C.
  destruct Hstep as [? ? [s ps first last r w' Hps Hroom H|s ps e w' Hroom H|s j l' Hp H|s j r w' Hp H
    |s j r w' Hp H|s j e r w' Hp H|s j e rb Hp|s]|s u r w' H|s m r d' Hm H]; unfold log_of in *; simpl.
  - left. apply (AppendBatchAsync_spec _ _ _ _ _ _ _ _ _ _ C (failErr_set G) Hps Hroom) in H
      as [(want & _ & _ & _ & -> & _)|(? & [=] & _)]. done.
  - left. destruct (decide (ps = [])) as [->|Hps]; [done|].
    apply (AppendBatchAsync_spec _ _ _ _ _ _ _ _ _ _ C (failErr_set G) Hps Hroom) in H
      as [(want & [=] & _)|(? & _ & -> & _)]. done.
  - right. left. unfold commitBegin, log_of in H. destruct (_ || _); [done|].
    apply Some_inj, (f_equal snd) in H. simpl in H. by subst l'.
  - left. destruct (mustRotate _ _); [|by injection H as _ <-].
    destruct (rotate_log _ _ _ _ H) as (ss & a & ->). done.
  - left. destruct (appendBatch_log _ _ _ _ _ _ H) as (ss & a & ->). done.
  - left. by rewrite (rollback_log _ _ _ H).
  - right. right. eauto.
  - by left.
  - left. destruct (Truncate_spec _ _ _ _ _ _ _ _ _ _ C H) as (k & _ & _ & (k' & first & ->) & _). done.
  - by left.
Qed.

(** An outcome a waiter can have seen never changes after. *)
Lemma settled_stays {init s s' gs pa fly st junk h flown old} i err :
  good init s gs pa fly st junk h flown old → step s s' →
  rounds (log_of s) !! i = Some (Decided err) → rounds (log_of s') !! i = Some (Decided err).
Proof.
  intros G Hstep Hi. destruct (rounds_of_step G Hstep) as [E|[E|(j & e & rb & Hp & E)]].
  - by rewrite E.
  - rewrite E. by apply lookup_app_l_Some.
  - pose proof (i_cur _ _ _ _ _ _ _ _ _ _ G). pose proof (i_job _ _ _ _ _ _ _ _ _ _ G) as J.
    rewrite Hp in J. destruct J as [Hr _ _ _ _ _ _ _]. rewrite E. destruct e as [e|]; simpl; unfold resolve.
    + rewrite !list_lookup_insert_ne by congruence. by apply lookup_app_l_Some.
    + by rewrite list_lookup_insert_ne by congruence.
Qed.

(** Every number handed out is within what the log has claimed. *)
Definition claimed (s : sys) : Prop :=
  Forall (λ x, x.2.1 <= reserved (log_of s)) (staged s).

Lemma stage_claims w gs pa fly st junk h ps r w' :
  core w gs pa fly st junk h → AppendBatchAsync ps w = (r, w') →
  reserved (lg w) <= reserved (lg w').
Proof.
  intros C H. unfold AppendBatchAsync in H. destruct ps as [|p ps]; [injection H as _ <-; lia|].
  apply bind_gets_inv in H. cbv beta in H. destruct (existsb _ _); [injection H as _ <-; lia|].
  assert (Hs : ∀ enc n r1 w1, stage enc n w = (r1, w1) → reserved (lg w) <= reserved (lg w1)).
  { clear H. intros enc n r1 w1 H. unfold stage in H. apply bind_gets_inv in H. cbv beta in H.
    destruct (closed (lg w)); [injection H as _ <-; lia|].
    destruct (broken (lg w)); [destruct (failErr (lg w)); injection H as _ <-; lia|].
    destruct (Z.ltb_spec (reserved (lg w)) (u64 (nextLSN (lg w) + n - 1))) as [Hlt|Hge].
    - apply bind_inv in H as [([] & w2 & H2 & H)|(e & H & _)].
      + apply bind_inv in H2 as [([] & w3 & H3 & H2)|(e & _ & [=])].
        apply wrapping_inv in H3 as [(? & H3 & _)|(? & _ & [=])].
        apply onDisk_inv in H3 as (d & _ & ->). injection H2 as <-. injection H as _ <-. simpl. lia.
      + apply bind_inv in H as [([] & w3 & H3 & [=])|(e' & H & _)].
        apply wrapping_inv in H as [(? & H & _)|(? & H & _)]; apply onDisk_inv in H as (d & _ & ->); simpl; lia.
    - injection H as _ <-. simpl. lia. }
  apply bind_inv in H as [([[first r1] force] & w1 & H1 & H)|(e & H & _)].
  - injection H as _ <-. by eapply Hs.
  - by eapply Hs.
Qed.

Lemma claimed_step init s s' : inv init s → claimed s → step s s' → claimed s'.
Proof.
  intros (gs & pa & fly & st & junk & h & flown & old & G) Hc Hstep.
  pose proof (i_core _ _ _ _ _ _ _ _ _ _ G) as C. pose proof (failErr_set G) as Hf.
  unfold claimed, log_of in *.
  assert (Hmono : ∀ v, reserved (lg (sw s)) <= v → Forall (λ x, x.2.1 <= v) (staged s)).
  { intros v Hv. eapply Forall_impl; [exact Hc|]. simpl. intros x. lia. }
  destruct Hstep as [? ? [s ps first last r w' Hps Hroom H|s ps e w' Hroom H|s j l' Hp H|s j r w' Hp H
    |s j r w' Hp H|s j e r w' Hp H|s j e rb Hp|s]|s u r w' H|s m r d' Hm H]; unfold log_of in *; simpl in *.
  - pose proof (stage_claims _ _ _ _ _ _ _ _ _ _ C H) as Hm.
    apply (AppendBatchAsync_spec _ _ _ _ _ _ _ _ _ _ C Hf Hps Hroom) in H
      as [(want & [= -> -> ->] & _ & _ & Hl & C')|(? & [=] & _)].
    apply Forall_app. split; [by apply Hmono|]. apply Forall_fmap, Forall_forall.
    intros e He%entries_lsn. simpl. pose proof (c_reserved _ _ _ _ _ _ _ C') as Hr.
    pose proof (c_next _ _ _ _ _ _ _ C') as Hn'. pose proof (c_next _ _ _ _ _ _ _ C) as Hn.
    rewrite Hl in *. simpl in *. rewrite len_app in Hn'. lia.
  - apply Hmono. by eapply stage_claims.
  - unfold commitBegin in H. destruct (_ || _); [done|].
    apply Some_inj, (f_equal snd) in H. simpl in H. by subst l'.
  - destruct (mustRotate _ _); [|by injection H as _ <-].
    by destruct (rotate_log _ _ _ _ H) as (ss & a & ->).
  - by destruct (appendBatch_log _ _ _ _ _ _ H) as (ss & a & ->).
  - by rewrite (rollback_log _ _ _ H).
  - by destruct e.
  - done.
  - by destruct (Truncate_spec _ _ _ _ _ _ _ _ _ _ C H) as (k & _ & _ & (k' & first & ->) & _).
  - done.
Qed.

Lemma reachable_claimed w0 gs0 pa0 s : fresh w0 gs0 pa0 → reachable w0 s → claimed s.
Proof.
  intros F. induction 1 as [|s s' R IH Hs]; [constructor|].
  eapply claimed_step; [by eapply reachable_inv | done | done].
Qed.

(** ** What the files of a running log hold *)

(** The files of the log are its records: the sealed segments exactly, the
    active one up to its published size. *)
Definition holds (w : world) (gs : list (list bytes)) (pa : list bytes) : Prop :=
  let rep := seg_rep (Disk.view (dk w)) (maxRecordBytes (opts (lg w))) in
  Forall2 (rep []) (sealed (lg w)) gs ∧ ∃ junk, rep junk (active (lg w)) pa.

Lemma core_holds w gs pa fly st junk h : core w gs pa fly st junk h → holds w gs pa.
Proof. intros []. split; eauto. Qed.

Section abstract.
Context {init : list (Z * bytes)} {s : sys} {gs : list (list bytes)} {pa fly st : list bytes}
  {junk : bytes} {h : handle} {flown : list bytes} {old : list (nat * (Z * bytes))}.
Context (G : good init s gs pa fly st junk h flown old).

Lemma good_cur_open : acked (log_of s) (curRound (log_of s)) = false.
Proof using G. unfold acked. by rewrite (i_cur _ _ _ _ _ _ _ _ _ _ G). Qed.

Lemma good_job_open j : job_of (ph s) = Some j → acked (log_of s) (jround j) = false.
Proof using G.
  intros Hj. pose proof (i_job _ _ _ _ _ _ _ _ _ _ G) as J. rewrite Hj in J.
  unfold acked. by rewrite (j_round _ _ _ _ _ _ J).
Qed.

(** Nothing of an open round counts as acknowledged. *)
Lemma good_acknowledged : acknowledged (log_of s) (staged s) = acknowledged (log_of s) old.
Proof using G.
  rewrite (i_staged _ _ _ _ _ _ _ _ _ _ G), !ack_app, ack_batch, good_cur_open, app_nil_r.
  destruct (job_of (ph s)) as [j|] eqn:Ej; [|by rewrite app_nil_r].
  by rewrite ack_batch, (good_job_open j Ej), app_nil_r.
Qed.

Lemma good_published : published (ph s) (staged s)
  = if unwritten (ph s) then [] else
      match job_of (ph s) with Some j => entries (jfirst j) flown | None => [] end.
Proof using G.
  destruct (ph s) as [|j|j|j e|j [e|] rb] eqn:Ep; try done. simpl in *.
  apply (good_job_round G). by rewrite Ep.
Qed.

Lemma good_refines : ∃ gone,
  init ++ acknowledged (log_of s) (staged s) ++ published (ph s) (staged s)
  = gone ++ all_records (log_of s) gs pa ∧ Forall (λ e, e.1 < upto s) gone.
Proof using G. rewrite good_acknowledged, good_published. apply (i_records _ _ _ _ _ _ _ _ _ _ G). Qed.
End abstract.

(** ** The end of the log *)

(** The number behind the last published record. *)
Definition frontier (l : log) : Z := baseLSN (active l) + count (active l).

Section frontier.
Context {init : list (Z * bytes)} {s : sys} {gs : list (list bytes)} {pa fly st : list bytes}
  {junk : bytes} {h : handle} {flown : list bytes} {old : list (nat * (Z * bytes))}.
Context (G : good init s gs pa fly st junk h flown old).

Lemma frontier_book : ∃ ps, (active (log_of s), ps) ∈ book (log_of s) gs pa ∧ frontier (log_of s) = baseLSN (active (log_of s)) + len ps.
Proof using G.
  pose proof (i_core _ _ _ _ _ _ _ _ _ _ G) as C. exists pa. unfold log_of. rewrite (book_split C).
  split; [apply elem_of_app; right; by apply list_elem_of_singleton|].
  unfold frontier. by rewrite (rep_count _ _ _ _ _ (c_active _ _ _ _ _ _ _ C)).
Qed.

Lemma frontier_top t ps : (t, ps) ∈ book (log_of s) gs pa → baseLSN t + len ps <= frontier (log_of s).
Proof using G.
  pose proof (i_core _ _ _ _ _ _ _ _ _ _ G) as C. unfold log_of, frontier. rewrite (book_split C).
  rewrite (rep_count _ _ _ _ _ (c_active _ _ _ _ _ _ _ C)). pose proof (len_nonneg pa).
  intros [Hin|[= -> ->]%list_elem_of_singleton]%elem_of_app; [|lia].
  destruct (sealed_below C t ps Hin) as (_ & ? & _). lia.
Qed.

Lemma frontier_max : frontier (log_of s) <= maxU64.
Proof using G.
  pose proof (i_core _ _ _ _ _ _ _ _ _ _ G) as C. pose proof (c_next _ _ _ _ _ _ _ C). pose proof (c_bound _ _ _ _ _ _ _ C).
  unfold frontier, log_of. rewrite (rep_count _ _ _ _ _ (c_active _ _ _ _ _ _ _ C)).
  pose proof (len_nonneg fly). pose proof (len_nonneg st). lia.
Qed.

Lemma frontier_step s' : step s s' → frontier (log_of s) <= frontier (log_of s').
Proof using G.
  intros Hs. destruct (good_step G Hs) as (gs' & pa' & fly' & st' & junk' & h' & flown' & old' & G' & Gr).
  destruct frontier_book as (ps & Hin & ->). destruct (gr_top _ _ _ Gr _ _ Hin) as (t & qs & Ht & Hle & _).
  clear G. assert (baseLSN t + len qs <= frontier (log_of s')); [|lia].
  pose proof (i_core _ _ _ _ _ _ _ _ _ _ G') as C. unfold log_of, frontier in *. rewrite (book_split C) in Ht.
  rewrite (rep_count _ _ _ _ _ (c_active _ _ _ _ _ _ _ C)). pose proof (len_nonneg pa').
  apply elem_of_app in Ht as [Ht|[= -> ->]%list_elem_of_singleton]; [|lia].
  destruct (sealed_below C t qs Ht) as (_ & ? & _). lia.
Qed.
End frontier.

(** ** A run to try the theorems on

    An empty log of 60-byte segments in an empty directory; two records are
    staged and committed, then a third that makes the log rotate, with the
    write failing at the first attempt. *)
Section example.
Definition ex_opts : Options := MkOptions SyncAlways 5000000 60 100 1048576 false.
Definition ex_seg : segment := Seg 1 (segmentName 1 0) 0 HOpen 0 0.
Definition ex_log : log :=
  MkLog ex_opts [] ex_seg 1 1 0 [] [] 0 0 0 false [Undecided] 0 None None false None.
(** [plan] are the faults to come; 7 calls go by before the first commit's
    write. *)
Definition ex_disk (plan : list Disk.fault) : Disk.disk :=
  Disk.Disk (Disk.Image {[ segmentName 1 0 := Disk.File [] [] ]} ∅) plan [].
Definition ex_world (plan : list Disk.fault) : world := World ex_log (ex_disk plan).

Lemma ex_fresh plan : fresh (ex_world plan) [] [].
Proof.
  split; try done; try (by constructor).
  split; simpl; try done.
  exists 0. split; [|unfold maxU64; lia].
  unfold MarkFiles.markIn, Disk.view. simpl. rewrite map_fmap_singleton.
  by rewrite lookup_singleton_ne.
Qed.

Definition p1 : bytes := Text.str "alpha"%string.
Definition p2 : bytes := Text.str "beta"%string.

(** One append; and one followed by a commit round. *)
Definition after_append (ps : list bytes) (s : sys) : sys :=
  Sys (AppendBatchAsync ps (sw s)).2 Idle
    (staged s ++ (pair (curRound (log_of s)) <$> entries (nextLSN (log_of s)) ps)) (upto s).
Definition round_trip (ps : list bytes) (s : sys) : sys :=
  let s' := after_append ps s in Sys (commit (sw s')).2 Idle (staged s') (upto s').
End example.

(** ** The commit round as steps *)

(** For anything that steps which truncate nothing keep. *)
Section runs.
Context (Q : sys → Prop) (Qstep : ∀ s s', Q s → running s s' → Q s').

Lemma commit_io_run s j err rb w' :
  Q s → ph s = Writing j → commitIO j (sw s) = (Ok (err, rb), w') →
  Q (Sys w' (Ending j err rb) (staged s) (upto s)).
Proof using Qstep.
  intros R Hp H. unfold commitIO in H.
  destruct (writeBatch (buf j) (jfirst j) (u64 (jlast j - jfirst j + 1)) (sw s)) as [r1 w1] eqn:Ew.
  unfold writeBatch in Ew. apply bind_gets_inv in Ew. cbv beta in Ew.
  assert (Hundo : ∀ e w2, Q (Sys w2 (Undoing j e) (staged s) (upto s)) →
    (let '(rb, w3) := rollback w2 in
     (Ok (Some e, match rb with Ok _ => None | Fail re => Some re end), w3)) = (Ok (err, rb), w') →
    Q (Sys w' (Ending j err rb) (staged s) (upto s))).
  { intros e w2 R2 E. destruct (rollback w2) as [r3 w3] eqn:Er. injection E as <- <- <-.
    eapply Qstep; [exact R2|].
    exact (run_undo (Sys w2 (Undoing j e) (staged s) (upto s)) j e r3 w3 eq_refl Er). }
  apply bind_inv in Ew as [([] & w2 & H2 & Ew)|(e & H2 & ->)].
  - assert (R2 : Q (Sys w2 (Storing j) (staged s) (upto s))).
    { eapply Qstep; [exact R|]. exact (run_rotate s j _ _ Hp H2). }
    assert (Ho : opts (lg w2) = opts (lg (sw s))).
    { destruct (mustRotate _ _); [|by injection H2 as <-].
      by destruct (rotate_log _ _ _ _ H2) as (ss & a & ->). }
    rewrite <- Ho in Ew.
    pose proof (run_store (Sys w2 (Storing j) (staged s) (upto s)) j r1 w1 eq_refl Ew) as Hs.
    pose proof (Qstep _ _ R2 Hs) as R3. destruct r1 as [u|e].
    + injection H as <- <- <-. exact R3.
    + apply (Hundo _ _ R3 H).
  - apply (Hundo e w1); [|done]. eapply Qstep; [exact R|]. exact (run_rotate s j _ _ Hp H2).
Qed.

(** [commit] is a run of steps. *)
Lemma commit_run s r w' :
  Q s → ph s = Idle → commit (sw s) = (r, w') →
  Q (Sys w' Idle (staged s) (upto s)).
Proof using Qstep.
  intros R Hp H. apply commit_inv in H.
  destruct (commitBegin (lg (sw s))) as [[j l1]|] eqn:Eb.
  - destruct H as (err & rb & w2 & Ei & -> & _).
    assert (R1 : Q (Sys (World l1 (dk (sw s))) (Writing j) (staged s) (upto s))).
    { eapply Qstep; [exact R | by apply run_begin]. }
    pose proof (commit_io_run _ _ _ _ _ R1 eq_refl Ei) as R2.
    eapply Qstep; [exact R2|].
    exact (run_end (Sys w2 (Ending j err rb) (staged s) (upto s)) j err rb eq_refl).
  - destruct H as [_ ->]. destruct s as [w p hst u]; simpl in *. by rewrite Hp in R.
Qed.

Lemma append_run s ps last :
  Q s → ph s = Idle → ps ≠ [] → room s ps →
  (AppendBatchAsync ps (sw s)).1
    = Ok (MkCommit (nextLSN (log_of s)) last (Some (curRound (log_of s)))) →
  Q (after_append ps s).
Proof using Qstep.
  intros R Hp Hps Hroom H. destruct (AppendBatchAsync ps (sw s)) as [r w1] eqn:Ea. simpl in H.
  rewrite H in Ea. unfold after_append. rewrite Ea. simpl.
  pose proof (Qstep _ _ R (run_append s ps _ _ _ _ Hps Hroom Ea)) as R1. by rewrite Hp in R1.
Qed.

Lemma round_trip_run s ps last :
  Q s → ph s = Idle → ps ≠ [] → room s ps →
  (AppendBatchAsync ps (sw s)).1
    = Ok (MkCommit (nextLSN (log_of s)) last (Some (curRound (log_of s)))) →
  Q (round_trip ps s).
Proof using Qstep.
  intros R Hp Hps Hroom H. pose proof (append_run _ _ _ R Hp Hps Hroom H) as R1.
  unfold round_trip. destruct (commit (sw (after_append ps s))) as [rc w2] eqn:Ec.
  exact (commit_run _ _ _ R1 eq_refl Ec).
Qed.
End runs.

Lemma reachable_runs w0 s s' : reachable w0 s → running s s' → reachable w0 s'.
Proof. intros R H. eapply reach_step; [exact R | by apply step_running]. Qed.

(** Two records committed, a third whose write fails, then again. *)
Definition ex_plan : list Disk.fault :=
  replicate 8 Disk.Pass ++ [Disk.Trip (Sentinel ENOSPC) 3].
Definition ex_s0 : sys := Sys (ex_world ex_plan) Idle [] 0.
Definition ex_s1 : sys := round_trip [p1; p2] ex_s0.
Definition ex_s2 : sys := round_trip [p2] ex_s1.
Definition ex_s3 : sys := round_trip [p1] ex_s2.

Lemma ex_reachable : reachable (ex_world ex_plan) ex_s3.
Proof.
  assert (R0 : reachable (ex_world ex_plan) ex_s0) by constructor.
  assert (R1 : reachable (ex_world ex_plan) ex_s1).
  { apply (round_trip_run _ (reachable_runs _) _ _ 2); [done | done | done | done | by vm_compute]. }
  assert (R2 : reachable (ex_world ex_plan) ex_s2).
  { apply (round_trip_run _ (reachable_runs _) _ _ 3); [done | done | done | | by vm_compute].
    unfold room. by vm_compute. }
  apply (round_trip_run _ (reachable_runs _) _ _ 3); [done | done | done | | by vm_compute].
  unfold room. by vm_compute.
Qed.

(** The second round failed and its number went to the third. *)
Lemma ex_outcome :
  rounds (log_of ex_s3) = [Decided None; Decided (Some (Sentinel ENOSPC)); Decided (Some (Sentinel ENOSPC));
                           Decided None; Undecided] ∧
  acknowledged (log_of ex_s3) (staged ex_s3) = [(1, p1); (2, p2); (3, p1)].
Proof. by vm_compute. Qed.

(** C6: the running log refines an append-only sequence.  However appends,
    commit rounds (failing at any call or not), rollbacks, rotations and
    truncations interleave, its files hold the records present at the start,
    then exactly the records of the rounds resolved without an error, in order
    and under the numbers their appenders were given, then the batch published
    but not yet announced, if any; only records below the highest bound given
    to [Truncate] may be missing, and only from the front. *)
Theorem log_refines_sequence w0 gs0 pa0 s :
  fresh w0 gs0 pa0 → reachable w0 s →
  ∃ gs pa gone, holds (sw s) gs pa ∧
    all_records (lg w0) gs0 pa0 ++ acknowledged (log_of s) (staged s) ++ published (ph s) (staged s)
    = gone ++ all_records (log_of s) gs pa ∧
    Forall (λ e, e.1 < upto s) gone.
Proof.
  intros F R. destruct (reachable_inv _ _ _ _ F R) as (gs & pa & fly & st & junk & h & flown & old & G).
  destruct (good_refines G) as (gone & Hg & Hu).
  exists gs, pa, gone. split; [|done]. eapply core_holds, (i_core _ _ _ _ _ _ _ _ _ _ G).
Qed.

Lemma log_refines_sequence_witness :
  fresh (ex_world ex_plan) [] [] ∧ reachable (ex_world ex_plan) ex_s3 ∧
  ∃ gs pa gone, holds (sw ex_s3) gs pa ∧
    [] ++ acknowledged (log_of ex_s3) (staged ex_s3) ++ [] = gone ++ all_records (log_of ex_s3) gs pa ∧
    Forall (λ e, e.1 < upto ex_s3) gone.
Proof.
  split; [apply ex_fresh|]. split; [apply ex_reachable|].
  exact (log_refines_sequence _ _ _ _ (ex_fresh ex_plan) ex_reachable).
Defined.

(** [Await] and [Append] returning nil mean the record is in the log, under
    the number its appender was given and with the appender's bytes, until
    [Truncate] is given a bound above it. *)
Theorem await_nil_means_stored w0 gs0 pa0 s r lsn payload ctx prefer :
  fresh w0 gs0 pa0 → reachable w0 s →
  (r, (lsn, payload)) ∈ staged s → upto s <= lsn →
  wait ctx prefer (log_of s) (Some r) = Some (Ok tt) →
  ∃ gs pa, holds (sw s) gs pa ∧ (lsn, payload) ∈ all_records (log_of s) gs pa.
Proof.
  intros F R Hin Hu Hw. destruct (reachable_inv _ _ _ _ F R) as (gs & pa & fly & st & junk & h & flown & old & G).
  destruct (good_refines G) as (gone & Hg & Hgu). exists gs, pa.
  split; [eapply core_holds, (i_core _ _ _ _ _ _ _ _ _ _ G)|].
  assert (Ha : (lsn, payload) ∈ acknowledged (log_of s) (staged s)).
  { apply list_elem_of_fmap. exists (r, (lsn, payload)). split; [done|]. apply list_elem_of_filter.
    split; [|done]. unfold acked. simpl. unfold wait in Hw.
    destruct (rounds (log_of s) !! r) as [[|[e|]]|], ctx, prefer; done. }
  assert (Hin' : (lsn, payload) ∈ gone ++ all_records (log_of s) gs pa).
  { rewrite <- Hg. apply elem_of_app. right. apply elem_of_app. by left. }
  apply elem_of_app in Hin' as [Hin'|Hin']; [|done].
  rewrite Forall_forall in Hgu. apply Hgu in Hin'. simpl in Hin'. lia.
Qed.

Lemma await_nil_means_stored_witness :
  (3%nat, (3, p1)) ∈ staged ex_s3 ∧ wait None false (log_of ex_s3) (Some 3%nat) = Some (Ok tt) ∧
  ∃ gs pa, holds (sw ex_s3) gs pa ∧ (3, p1) ∈ all_records (log_of ex_s3) gs pa.
Proof.
  assert (Hin : (3%nat, (3, p1)) ∈ staged ex_s3).
  { assert (E : staged ex_s3 !! 3%nat = Some (3%nat, (3, p1))) by by vm_compute.
    by apply list_elem_of_lookup_2 in E. }
  assert (Hw : wait None false (log_of ex_s3) (Some 3%nat) = Some (Ok tt)) by by vm_compute.
  split; [done|]. split; [done|].
  apply (await_nil_means_stored _ _ _ _ 3%nat 3 p1 None false (ex_fresh ex_plan) ex_reachable Hin);
    [vm_compute; done | done].
Defined.



(** No two acknowledged records share a number, and a later one has a
    higher number, even though a failed round hands its numbers out again. *)
Theorem acknowledged_numbers_increase w0 gs0 pa0 s :
  fresh w0 gs0 pa0 → reachable w0 s →
  StronglySorted Z.lt (all_records (lg w0) gs0 pa0 ++ acknowledged (log_of s) (staged s)).*1.
Proof.
  intros F R. destruct (reachable_inv _ _ _ _ F R) as (gs & pa & fly & st & junk & h & flown & old & G).
  rewrite (good_acknowledged G). apply (i_sorted _ _ _ _ _ _ _ _ _ _ G).
Qed.

Lemma acknowledged_numbers_increase_witness :
  acknowledged (log_of ex_s3) (staged ex_s3) = [(1, p1); (2, p2); (3, p1)] ∧
  StronglySorted Z.lt ([] ++ acknowledged (log_of ex_s3) (staged ex_s3)).*1.
Proof.
  split; [apply ex_outcome|].
  exact (acknowledged_numbers_increase _ _ _ _ (ex_fresh ex_plan) ex_reachable).
Defined.

(** A number is claimed on disk before it is handed out: the mark in the
    RESERVED file is at or above every number any appender was ever given,
    those of rolled-back records included. *)
Theorem handed_out_numbers_are_reserved w0 gs0 pa0 s :
  fresh w0 gs0 pa0 → reachable w0 s →
  ∃ k, MarkFiles.markIn (Disk.view (dk (sw s))) MarkFiles.reservedName = Some k ∧
    Forall (λ x, x.2.1 <= k) (staged s) ∧ nextLSN (log_of s) - 1 <= k.
Proof.
  intros F R. pose proof (reachable_claimed _ _ _ _ F R) as Hc.
  destruct (reachable_inv _ _ _ _ F R) as (gs & pa & fly & st & junk & h & flown & old & G).
  pose proof (i_core _ _ _ _ _ _ _ _ _ _ G) as C. destruct (c_mark _ _ _ _ _ _ _ C) as (k & Hk & Hle).
  pose proof (c_reserved _ _ _ _ _ _ _ C). exists k. split; [done|]. unfold log_of in *.
  split; [|lia]. eapply Forall_impl; [exact Hc|]. simpl. unfold log_of. intros x. lia.
Qed.

Lemma handed_out_numbers_are_reserved_witness :
  length (staged ex_s3) = 4%nat ∧
  ∃ k, MarkFiles.markIn (Disk.view (dk (sw ex_s3))) MarkFiles.reservedName = Some k ∧
    Forall (λ x, x.2.1 <= k) (staged ex_s3) ∧ nextLSN (log_of ex_s3) - 1 <= k.
Proof.
  split; [by vm_compute|].
  exact (handed_out_numbers_are_reserved _ _ _ _ (ex_fresh ex_plan) ex_reachable).
Defined.

(** One commit round.  If it returns nil, the staged records are appended to
    the log under their numbers, the round is resolved with nil and the durable
    mark is the last number given out.  If it returns an error, the log holds
    what it held, the round is resolved with that error, the numbers are free
    again, nothing stays staged, and unless the log is broken its file is cut
    back to the durable records exactly. *)
Theorem commit_outcome w0 gs0 pa0 s r w' :
  fresh w0 gs0 pa0 → reachable w0 s → ph s = Idle → pending (log_of s) ≠ [] →
  broken (log_of s) = false → commit (sw s) = (r, w') →
  ∃ gs pa gs' pa', holds (sw s) gs pa ∧ holds w' gs' pa' ∧
    let mine := of_round (curRound (log_of s)) (staged s) in
    rounds (lg w') !! curRound (log_of s) = Some (Decided (errOf r)) ∧
    match r with
    | Ok _ => all_records (lg w') gs' pa' = all_records (log_of s) gs pa ++ mine ∧
              nextLSN (lg w') = nextLSN (log_of s) ∧ durable (lg w') = nextLSN (log_of s) - 1
    | Fail _ => all_records (lg w') gs' pa' = all_records (log_of s) gs pa ∧
              nextLSN (lg w') = nextLSN (log_of s) - len mine ∧
              durable (lg w') = durable (log_of s) ∧ pending (lg w') = [] ∧
              (broken (lg w') = false →
               Disk.view (dk w') !! path (active (lg w')) = Some (frames pa'))
    end.
Proof.
  intros F R Hp Hpe Hb H.
  destruct (reachable_inv _ _ _ _ F R) as (gs & pa & fly & st & junk & h & flown & old & G).
  pose proof (i_core _ _ _ _ _ _ _ _ _ _ G) as C.
  pose proof (i_job _ _ _ _ _ _ _ _ _ _ G) as J. pose proof (i_clean _ _ _ _ _ _ _ _ _ _ G) as Hc.
  assert (Hmine : of_round (curRound (log_of s)) (staged s)
    = entries (baseLSN (active (log_of s)) + len pa) st).
  { rewrite (i_staged _ _ _ _ _ _ _ _ _ _ G), Hp. simpl. rewrite of_round_app, of_round_batch.
    rewrite bool_decide_true by done. rewrite of_round_other.
    - rewrite Hp in J. destruct J as (-> & _). simpl. by rewrite len_nil, Z.add_0_r.
    - eapply Forall_impl; [apply (i_old _ _ _ _ _ _ _ _ _ _ G)|]. simpl. intros x. tauto. }
  rewrite Hp in J, Hc. simpl in J, Hc. destruct J as (-> & _ & Hin). destruct (Hc Hb) as [-> ->].
  pose proof (lookup_lt_Some _ _ _ (i_cur _ _ _ _ _ _ _ _ _ _ G)) as Hlt.
  unfold log_of in *.
  assert (Hst : st ≠ []).
  { intros E. apply Hpe. rewrite (c_pending _ _ _ _ _ _ _ C), E. done. }
  destruct (commit_spec _ _ _ _ _ _ C Hst Hb Hlt H) as (gs' & pa' & junk & h & C' & Hres & Hleft).
  exists gs, pa, gs', pa'. rewrite Hmine. split; [by eapply core_holds|]. split; [by eapply core_holds|].
  split; [done|]. destruct r as [u|e]; [done|]. destruct Hleft as (H1 & H2 & H3 & H4).
  split; [done|]. split; [by unfold entries, len in *; rewrite length_imap|].
  split; [done|]. split; [apply (c_pending _ _ _ _ _ _ _ C')|].
  intros Hbr. pose proof (rep_file _ _ _ _ _ (c_active _ _ _ _ _ _ _ C')) as Hfile.
  by rewrite H4, app_nil_r in Hfile.
Qed.

(** The round of the example that fails for want of space. *)
Definition ex_full : sys := after_append [p2] ex_s1.

Lemma ex_full_reachable : reachable (ex_world ex_plan) ex_full.
Proof.
  apply (append_run _ (reachable_runs _) _ _ 3); [| done | done | unfold room; by vm_compute | by vm_compute].
  apply (round_trip_run _ (reachable_runs _) _ _ 2); [constructor | done | done | done | by vm_compute].
Qed.

Lemma commit_outcome_witness :
  (commit (sw ex_full)).1 = Fail (Sentinel ENOSPC) ∧ broken (lg (commit (sw ex_full)).2) = false ∧
  ∃ gs' pa', holds (commit (sw ex_full)).2 gs' pa' ∧
    nextLSN (lg (commit (sw ex_full)).2) = nextLSN (log_of ex_full) - 1.
Proof.
  assert (H1 : (commit (sw ex_full)).1 = Fail (Sentinel ENOSPC)) by by vm_compute.
  assert (H2 : of_round (curRound (log_of ex_full)) (staged ex_full) = [(3, p2)]) by by vm_compute.
  assert (H3 : pending (log_of ex_full) ≠ []) by by vm_compute.
  assert (H4 : broken (log_of ex_full) = false) by by vm_compute.
  split; [done|]. split; [by vm_compute|].
  destruct (commit_outcome _ _ _ _ _ _ (ex_fresh ex_plan) ex_full_reachable eq_refl H3 H4
    (surjective_pairing (commit (sw ex_full)))) as (gs & pa & gs' & pa' & _ & Hh & _ & Hr).
  rewrite H1, H2 in Hr. destruct Hr as (_ & Hn & _).
  change (len [(3, p2)]) with 1 in Hn. exists gs', pa'. exact (conj Hh Hn).
Defined.

(** A broken log is terminal and says so.  Once a rollback has failed, every
    append is refused with an error that is [ErrBroken], the committer does
    nothing, and neither changes the log or its files. *)
Theorem broken_refuses_everything w0 gs0 pa0 s ps :
  fresh w0 gs0 pa0 → reachable w0 s → broken (log_of s) = true → closed (log_of s) = false →
  ps ≠ [] → Forall (payload_ok (maxRecordBytes (opts (log_of s)))) ps →
  (∃ e, AppendBatchAsync ps (sw s) = (Fail e, sw s) ∧ errorsIs e Broken = true) ∧
  commit (sw s) = (Ok tt, sw s).
Proof.
  intros F R Hb Hcl Hps Hok.
  destruct (reachable_inv _ _ _ _ F R) as (gs & pa & fly & st & junk & h & flown & old & G).
  destruct (i_broken _ _ _ _ _ _ _ _ _ _ G Hb) as (e & He & His). unfold log_of in *.
  split.
  - exists e. split; [|done]. unfold AppendBatchAsync. destruct ps as [|p ps]; [done|].
    unfold bind at 1, gets at 1.
    assert (Hex : existsb (λ p0, maxRecordBytes (opts (lg (sw s))) <? len p0) (p :: ps) = false).
    { apply not_true_iff_false. intros (q & Hq & Hlt)%existsb_exists.
      rewrite Forall_forall in Hok. apply list_elem_of_In, Hok in Hq. unfold payload_ok in Hq. lia. }
    rewrite Hex. unfold stage, bind, gets. by rewrite Hcl, Hb, He.
  - unfold commit, commitBegin. by rewrite Hb, orb_true_r.
Qed.

(** A write that fails part way and a rollback that fails too. *)
Definition ex_plan_broken : list Disk.fault :=
  replicate 6 Disk.Pass ++ [Disk.Trip (Sentinel ENOSPC) 3; Disk.Trip (Sentinel EIO) 0].
Definition ex_broken : sys := round_trip [p1] (Sys (ex_world ex_plan_broken) Idle [] 0).

Lemma broken_refuses_everything_witness :
  broken (log_of ex_broken) = true ∧
  (∃ e, AppendBatchAsync [p1] (sw ex_broken) = (Fail e, sw ex_broken) ∧ errorsIs e Broken = true) ∧
  commit (sw ex_broken) = (Ok tt, sw ex_broken).
Proof.
  assert (R : reachable (ex_world ex_plan_broken) ex_broken).
  { apply (round_trip_run _ (reachable_runs _) _ _ 1); [constructor | done | done | done | by vm_compute]. }
  split; [by vm_compute|].
  apply (broken_refuses_everything _ _ _ _ [p1] (ex_fresh _) R); [by vm_compute | by vm_compute | done |].
  repeat constructor; unfold payload_ok; by vm_compute.
Defined.

End LogSteps.
