(* ===== verification/Committer.v ===== *)
(** * The committer goroutine (src/internal/wal/wal.go: [committer])

    The loop that runs the commit rounds, with what wakes it: the token in
    [l.signal], which an appender puts there when its records must not wait, the
    ticker, and [Close].  The rounds themselves are the steps of file LogSteps;
    here is when they are taken.  A token may be lost to a full channel and a
    committer may look at the log just before an append, and still no staged record
    is forgotten: its round is decided within eleven turns of the committer, which
    never parks in front of it but for the ticker of SyncPeriodic. *)

From S2P Require Import Prelude Errors Record Disk Segment MarkFiles Log LogInv LogSteps.
Local Open Scope Z_scope.
Local Open Scope go_scope.

Module Committer.
Import Segment Log LogInv LogSteps.

(** Where the goroutine is: at the head of the loop, parked in the [select], inside
    [commit], the round of the [done] branch being the [last], or returned. *)
Inductive place := Top | Selecting | Committing (last : bool) | Gone.

(** The log with its committer.  [signal] is the token in [l.signal], [done]
    whether that channel is closed, [owed] how many goroutines are about to call
    [signalCommit], [closing] that [Close] is about to close [done]; [finalErr] is
    [l.closeErr]. *)
Record node := Node {
  base : sys;
  at_ : place;
  signal : bool;
  done : bool;
  owed : nat;
  closing : bool;
  finalErr : option error
}.

Local Abbreviation log_at n := (log_of (base n)).

Definition launched (w : world) : node := Node (Sys w Idle [] 0) Top false false 0 false None.

Definition hasPending (l : log) : bool := 0 <? len (pending l).

Definition set_at (p : place) (n : node) : node :=
  Node (base n) p (signal n) (done n) (owed n) (closing n) (finalErr n).
Definition set_base (s : sys) (n : node) : node :=
  Node s (at_ n) (signal n) (done n) (owed n) (closing n) (finalErr n).
Definition set_signal (b : bool) (n : node) : node :=
  Node (base n) (at_ n) b (done n) (owed n) (closing n) (finalErr n).
Definition set_owed (k : nat) (n : node) : node :=
  Node (base n) (at_ n) (signal n) (done n) k (closing n) (finalErr n).
Definition set_finalErr (e : option error) (n : node) : node :=
  Node (base n) (at_ n) (signal n) (done n) (owed n) (closing n) e.

(** The channel holds one token; a second is dropped. *)
Definition signalCommit (n : node) : node := set_signal true n.

(** One section of [commit]; [None] when there is nothing to commit. *)
Definition advance (s : sys) : option sys :=
  match ph s with
  | Idle =>
      match commitBegin (log_of s) with
      | None => None
      | Some (j, l) => Some (Sys (World l (dk (sw s))) (Writing j) (staged s) (upto s))
      end
  | Writing j =>
      let '(r, w) := (if mustRotate (log_of s) (buf j) then rotate (jfirst j) else ret tt) (sw s) in
      Some (Sys w (after_rotate j r) (staged s) (upto s))
  | Storing j =>
      let '(r, w) := appendBatch (syncMode (opts (log_of s))) (buf j) (u64 (jlast j - jfirst j + 1)) (sw s) in
      Some (Sys w (after_store j r) (staged s) (upto s))
  | Undoing j e =>
      let '(r, w) := rollback (sw s) in Some (Sys w (after_undo j e r) (staged s) (upto s))
  | Ending j err rb => Some (Sys (World (commitEnd j err rb (log_of s)) (dk (sw s))) Idle (staged s) (upto s))
  end.

(** What [commit] returns, once it is at its end. *)
Definition outcome (p : phase) : option error :=
  match p with Ending _ (Some e) rb => Some (roundErr e rb) | _ => None end.

Definition finished (last : bool) : place := if last then Gone else Top.

(** Which branch of the [select] is taken. *)
Inductive way := ByDone | BySignal | ByTick.

(** One turn of the goroutine; [None] where it is parked or has returned. *)
Definition turn (c : way) (n : node) : option node :=
  match at_ n with
  | Top =>
      if negb (bool_decide (syncMode (opts (log_at n)) = SyncPeriodic)) && hasPending (log_at n)
      then Some (set_at (Committing false) n) else Some (set_at Selecting n)
  | Selecting =>
      match c with
      | ByDone => if done n then Some (set_at (Committing true) n) else None
      | BySignal => if signal n then Some (set_signal false (set_at (Committing false) n)) else None
      | ByTick =>
          if bool_decide (syncMode (opts (log_at n)) = SyncAlways) then None
          else Some (set_at (Committing false) n)
      end
  | Committing last =>
      match advance (base n) with
      | None => Some (set_at (finished last) n)
      | Some s =>
          match ph s with
          | Idle =>
              let n' := set_base s (set_at (finished last) n) in
              Some (if last then match outcome (ph (base n)) with
                                 | Some e => set_finalErr (Some e) n' | None => n' end
                    else n')
          | _ => Some (set_base s n)
          end
      end
  | Gone => None
  end.

(** What everybody else does: appenders stage and then signal if they were told
    to, [Sync] signals, [Close] marks the log closed and closes [done], and the
    checkpointer deletes segments and writes its mark. *)
Inductive others : node → node → Prop :=
| oth_append n ps first last r w :
    ps ≠ [] → room (base n) ps → AppendBatchAsync ps (sw (base n)) = (Ok (MkCommit first last (Some r)), w) →
    others n (set_owed (if mustCommit (lg w) then S (owed n) else owed n)
                (set_base (Sys w (ph (base n)) (staged (base n) ++ (pair r <$> entries first ps)) (upto (base n))) n))
| oth_refused n ps e w :
    room (base n) ps → AppendBatchAsync ps (sw (base n)) = (Fail e, w) →
    others n (set_base (Sys w (ph (base n)) (staged (base n)) (upto (base n))) n)
| oth_sync n : others n (set_owed (S (owed n)) n)
| oth_signal n k : owed n = S k → others n (signalCommit (set_owed k n))
| oth_close n :
    closed (log_at n) = false →
    others n (Node (Sys (World (set_closed (log_at n)) (dk (sw (base n)))) (ph (base n)) (staged (base n)) (upto (base n)))
                (at_ n) (signal n) (done n) (owed n) true (finalErr n))
| oth_done n :
    closing n = true → others n (Node (base n) (at_ n) (signal n) true (owed n) false (finalErr n))
| oth_truncate n u r w :
    Truncate u (sw (base n)) = (r, w) →
    others n (set_base (Sys w (ph (base n)) (staged (base n)) (Z.max u (upto (base n)))) n)
| oth_checkpoint n m r d :
    is_u64 m → MarkFiles.WriteCheckpoint m (dk (sw (base n))) = (r, d) →
    others n (set_base (Sys (World (log_at n) d) (ph (base n)) (staged (base n)) (upto (base n))) n).

(** A run, with the number of turns the committer has had. *)
Inductive run : node → nat → node → Prop :=
| run_refl n : run n 0 n
| run_turn n k n1 c n2 : run n k n1 → turn c n1 = Some n2 → run n (S k) n2
| run_others n k n1 n2 : run n k n1 → others n1 n2 → run n k n2.

Definition reachable (w : world) (n : node) : Prop := ∃ k, run (launched w) k n.

(** ** The rounds are those of file LogSteps *)

(** Turns a section of [commit] leaves before the outcome is published. *)
Definition sections_left (p : phase) : nat :=
  match p with Idle => 0 | Writing _ => 4 | Storing _ => 3 | Undoing _ _ => 2 | Ending _ _ _ => 1 end.

(** A section begins a round, does part of its work on the files, or ends it. *)
Lemma advance_spec s s' : advance s = Some s' →
  running s s' ∧ staged s' = staged s ∧
  ((∃ j, ph s = Idle ∧ commitBegin (log_of s) = Some (j, log_of s') ∧ ph s' = Writing j) ∨
   (∃ j, job_of (ph s) = Some j ∧ job_of (ph s') = Some j ∧
      (0 < sections_left (ph s') < sections_left (ph s))%nat ∧ segs_only (log_of s) (log_of s')) ∨
   (∃ j err rb, ph s = Ending j err rb ∧ ph s' = Idle ∧ log_of s' = commitEnd j err rb (log_of s))).
Proof.
  unfold advance. destruct (ph s) as [|j|j|j e|j err rb] eqn:Ep.
  - destruct (commitBegin (log_of s)) as [[j l]|] eqn:Eb; [|discriminate]. intros [= <-].
    split; [by apply run_begin|]. split; [reflexivity|]. left. exists j. auto.
  - destruct ((if mustRotate (log_of s) (buf j) then rotate (jfirst j) else ret tt) (sw s)) as [r w] eqn:E.
    intros [= <-]. split; [by eapply run_rotate|]. split; [reflexivity|]. right. left. exists j.
    split; [reflexivity|]. split; [by destruct r|]. split; [destruct r; simpl; lia|].
    destruct (mustRotate _ _); [by eapply rotate_log | injection E as _ <-; apply segs_only_refl].
  - destruct (appendBatch _ _ _ (sw s)) as [r w] eqn:E. intros [= <-]. split; [by eapply run_store|].
    split; [reflexivity|]. right. left. exists j. split; [reflexivity|]. split; [by destruct r|].
    split; [destruct r; simpl; lia | by eapply appendBatch_log].
  - destruct (rollback (sw s)) as [r w] eqn:E. intros [= <-]. split; [by eapply run_undo|].
    split; [reflexivity|]. right. left. exists j. split; [reflexivity|]. split; [by destruct r|].
    split; [simpl; lia|]. unfold log_of. simpl. rewrite (rollback_log _ _ _ E). apply segs_only_refl.
  - intros [= <-]. split; [by apply run_end|]. split; [reflexivity|]. right. right. eauto 6.
Qed.

Lemma advance_none s : advance s = None → ph s = Idle ∧ commitBegin (log_of s) = None.
Proof.
  unfold advance. destruct (ph s).
  - destruct (commitBegin (log_of s)) as [[]|]; [discriminate | auto].
  - destruct (_ (sw s)). discriminate.
  - destruct (appendBatch _ _ _ _). discriminate.
  - destruct (rollback _). discriminate.
  - discriminate.
Qed.

Lemma turn_base c n n' : turn c n = Some n' →
  base n' = base n ∨ (∃ last, at_ n = Committing last ∧ advance (base n) = Some (base n')).
Proof.
  unfold turn. destruct (at_ n) as [| |last|] eqn:Ea.
  - destruct (_ && _); intros [= <-]; by left.
  - destruct c; [destruct (done n) | destruct (signal n) | destruct (bool_decide _)]; intros [= <-]; by left.
  - destruct (advance (base n)) as [s|] eqn:E; [|intros [= <-]; by left].
    intros H. right. exists last. split; [reflexivity|]. destruct (ph s); injection H as <-; try reflexivity.
    destruct last; [|reflexivity]. by destruct (outcome _).
  - discriminate.
Qed.

Lemma turn_running c n n' : turn c n = Some n' → base n' = base n ∨ running (base n) (base n').
Proof.
  intros H. destruct (turn_base _ _ _ H) as [E|(last & _ & E)]; [by left | right]. by apply advance_spec in E as [? _].
Qed.

Lemma others_step n n' : others n n' → base n' = base n ∨ step (base n) (base n').
Proof.
  destruct 1; simpl; try (by left); right.
  - apply step_running. by eapply run_append.
  - apply step_running. by eapply run_refused.
  - apply step_running, run_close.
  - by eapply step_truncate.
  - by eapply step_checkpoint.
Qed.

Lemma run_base w n k n' : LogSteps.reachable w (base n) → run n k n' → LogSteps.reachable w (base n').
Proof.
  intros R. induction 1 as [|n k n1 c n2 _ IH H|n k n1 n2 _ IH H]; [exact R | |].
  - destruct (turn_running _ _ _ H) as [->|Hs]; [auto|]. eapply reach_step; [auto | by apply step_running].
  - destruct (others_step _ _ H) as [->|Hs]; [auto|]. eapply reach_step; auto.
Qed.

(** ** What the goroutines keep *)

(** [s_woken]: where records must not wait, the committer is about to take them,
    or the token or somebody with one is on the way. *)
Record sane (n : node) : Prop := {
  s_idle : ph (base n) = Idle ∨ ∃ last, at_ n = Committing last;
  s_woken : (ph (base n) = Idle ∧ ∃ last, at_ n = Committing last) ∨ pending (log_at n) = [] ∨
    mustCommit (log_at n) = false ∨ signal n = true ∨ (0 < owed n)%nat;
  s_broken : broken (log_at n) = true → pending (log_at n) = [];
  s_open : ∀ r, rounds (log_at n) !! r = Some Undecided →
    r = curRound (log_at n) ∨ inflight (log_at n) = Some r;
  s_closed : closing n = true ∨ done n = true → closed (log_at n) = true;
  s_last : at_ n = Committing true → done n = true ∧ (ph (base n) = Idle ∨ pending (log_at n) = []);
  s_gone : at_ n = Gone → closed (log_at n) = true ∧ pending (log_at n) = []
}.

Lemma sane_launched w gs pa : fresh w gs pa → sane (launched w).
Proof.
  intros F. pose proof (c_pending _ _ _ _ _ _ _ (fr_core _ _ _ F)) as Hp.
  split; simpl; unfold log_of; simpl; try done; [by left | by right; left | | by intros [|]].
  intros r. rewrite (fr_rounds _ _ _ F), (fr_cur _ _ _ F). destruct r as [|[|r]]; [by left | done | done].
Qed.

Lemma commitBegin_inv l j l' : commitBegin l = Some (j, l') →
  pending l ≠ [] ∧ broken l = false ∧ jround j = curRound l ∧ pending l' = [] ∧ broken l' = broken l ∧ closed l' = closed l ∧
  rounds l' = rounds l ++ [Undecided] ∧ curRound l' = length (rounds l) ∧ inflight l' = Some (curRound l) ∧ opts l' = opts l.
Proof.
  unfold commitBegin. destruct (pending l) as [|x p]; [done|]. rewrite len_cons.
  destruct (Z.eqb_spec (1 + len p) 0) as [H|_]; [pose proof (len_nonneg p); lia|].
  destruct (broken l) eqn:Eb; [done|]. intros H. injection H as <- <-. done.
Qed.

Lemma commitBegin_none l : commitBegin l = None → pending l = [] ∨ broken l = true.
Proof.
  unfold commitBegin. destruct (len (pending l) =? 0) eqn:E; bools; [left; by apply len_zero|].
  destruct (broken l); [by right | done].
Qed.

(** The rounds open after the end of one are the current one and no other. *)
Lemma commitEnd_open l j err rb r :
  rounds l !! jround j = Some Undecided → jround j ≠ curRound l →
  (∀ r, rounds l !! r = Some Undecided → r = curRound l ∨ inflight l = Some r) → inflight l = Some (jround j) →
  rounds (commitEnd j err rb l) !! r = Some Undecided → r = curRound (commitEnd j err rb l).
Proof.
  intros Hj Hne Ho Hi. pose proof (lookup_lt_Some _ _ _ Hj) as Hlt. destruct err as [e|]; simpl; unfold resolve.
  - destruct (decide (r = curRound l)) as [->|Hc].
    { intros H. apply list_lookup_insert_Some in H as [(_ & [=] & _)|(? & _)]. done. }
    rewrite list_lookup_insert_ne by done. destruct (decide (r = jround j)) as [->|Hr].
    { rewrite list_lookup_insert_eq by (rewrite length_app; lia). done. }
    rewrite list_lookup_insert_ne by done. intros [H|[? H]]%lookup_app_Some.
    + destruct (Ho _ H) as [?|E]; [done|]. congruence.
    + apply list_lookup_singleton_Some in H as [? _]. lia.
  - destruct (decide (r = jround j)) as [->|Hr]; [by rewrite list_lookup_insert_eq|].
    rewrite list_lookup_insert_ne by done. intros H. destruct (Ho _ H) as [?|E]; [done|]. congruence.
Qed.

(** The rounds of a state of the log: the one being staged, and the one in flight. *)
Lemma inv_rounds init s : LogSteps.inv init s →
  rounds (log_of s) !! curRound (log_of s) = Some Undecided ∧
  match job_of (ph s) with
  | None => inflight (log_of s) = None
  | Some j => rounds (log_of s) !! jround j = Some Undecided ∧ jround j ≠ curRound (log_of s) ∧
              inflight (log_of s) = Some (jround j)
  end.
Proof.
  intros (gs & pa & fly & st & junk & h & flown & old & G). split; [by apply (i_cur _ _ _ _ _ _ _ _ _ _ G)|].
  pose proof (i_job _ _ _ _ _ _ _ _ _ _ G) as J. destruct (job_of (ph s)) as [j|]; [|tauto]. by destruct J.
Qed.

(** What an append does to the fields the committer looks at. *)
Lemma staged_fields init s ps first last r w :
  LogSteps.inv init s → ps ≠ [] → room s ps →
  AppendBatchAsync ps (sw s) = (Ok (MkCommit first last (Some r)), w) →
  r = curRound (log_of s) ∧ closed (log_of s) = false ∧ broken (log_of s) = false ∧ pending (lg w) ≠ [] ∧
  rounds (lg w) = rounds (log_of s) ∧ curRound (lg w) = curRound (log_of s) ∧
  inflight (lg w) = inflight (log_of s) ∧ broken (lg w) = broken (log_of s) ∧ closed (lg w) = closed (log_of s).
Proof.
  intros (gs & pa & fly & st & junk & h & flown & old & G) Hps Hroom H. unfold log_of in *.
  pose proof (i_core _ _ _ _ _ _ _ _ _ _ G) as C.
  apply (AppendBatchAsync_spec _ _ _ _ _ _ _ _ _ _ C (failErr_set G) Hps Hroom) in H
    as [(want & [= _ _ ->] & Hc & Hb & Hl & C')|(? & [=] & _)].
  assert (Hp : pending (lg w) ≠ []).
  { rewrite (c_pending _ _ _ _ _ _ _ C'). intros E. pose proof (frames_nil_iff (st ++ ps)) as Hn.
    rewrite E in Hn. simpl in Hn. symmetry in Hn. apply bool_decide_eq_true in Hn. by apply app_eq_nil in Hn as [_ ->]. }
  split; [done|]. split; [done|]. split; [done|]. split; [done|]. by rewrite Hl.
Qed.

(** A refusal, and everything the checkpointer does, leave them alone. *)
Lemma refused_same init s ps e w :
  LogSteps.inv init s → room s ps → AppendBatchAsync ps (sw s) = (Fail e, w) → lg w = log_of s.
Proof.
  intros (gs & pa & fly & st & junk & h & flown & old & G) Hroom H. unfold log_of in *.
  destruct (decide (ps = [])) as [->|Hps]; [done|].
  apply (AppendBatchAsync_spec _ _ _ _ _ _ _ _ _ _ (i_core _ _ _ _ _ _ _ _ _ _ G) (failErr_set G) Hps Hroom) in H
    as [(? & [=] & _)|(? & _ & -> & _)]. done.
Qed.

Lemma truncated_same init s u r w :
  LogSteps.inv init s → Truncate u (sw s) = (r, w) → head_only (log_of s) (lg w).
Proof.
  intros (gs & pa & fly & st & junk & h & flown & old & G) H.
  by destruct (Truncate_spec _ _ _ _ _ _ _ _ _ _ (i_core _ _ _ _ _ _ _ _ _ _ G) H) as (k & _ & _ & Hh & _).
Qed.

Lemma others_sane init n n' : LogSteps.inv init (base n) → sane n → others n n' → sane n'.
Proof.
  intros I S Hstep. pose proof S as [Hi Hw Hb Ho Hc Hl Hg].
  destruct Hstep as [n ps first last r w Hps Hroom H|n ps e w Hroom H|n|n k Hk|n Hcl|n Hcl|n u r w H|n m r d Hm H].
  - destruct (staged_fields _ _ _ _ _ _ _ I Hps Hroom H) as (_ & Hcl & Hbr & Hp & Er & Ec & Ei & Eb & Ecl).
    split; simpl; unfold log_of in *; simpl; rewrite ?Er, ?Ec, ?Ei, ?Eb, ?Ecl; try assumption; try congruence.
    + destruct (mustCommit (lg w)) eqn:Em; [|by auto]. do 4 right. lia.
    + intros Ht. destruct (Hl Ht) as [Hd _]. rewrite Hc in Hcl by (by right). discriminate.
    + intros Ht. destruct (Hg Ht). congruence.
  - pose proof (refused_same _ _ _ _ _ I Hroom H) as E. split; simpl; unfold log_of in *; simpl; rewrite ?E; assumption.
  - split; simpl; try assumption. destruct Hw as [?|[?|[?|[?|?]]]]; auto. do 4 right. lia.
  - split; simpl; try assumption. auto.
  - split; simpl; try assumption; auto. intros Ht. by destruct (Hg Ht).
  - split; simpl; try assumption; [intros _; apply Hc; by left|]. intros Ht. by destruct (Hl Ht).
  - pose proof (truncated_same _ _ _ _ _ I H) as (k & first & E). split; simpl; unfold log_of in *; simpl; rewrite ?E; assumption.
  - split; simpl; assumption.
Qed.

Lemma turn_sane init c n n' : LogSteps.inv init (base n) → sane n → turn c n = Some n' → sane n'.
Proof.
  intros I S Hstep. pose proof S as [Hi Hw Hb Ho Hc Hl Hg]. unfold turn in Hstep.
  destruct (at_ n) as [| |last|] eqn:Ea; [| | |discriminate].
  - assert (Hidle : ph (base n) = Idle) by (destruct Hi as [?|[? [=]]]; assumption).
    assert (Hw' : pending (log_at n) = [] ∨ mustCommit (log_at n) = false ∨ signal n = true ∨ (0 < owed n)%nat).
    { destruct Hw as [(_ & ? & [=])|Hw]. exact Hw. }
    destruct (_ && _); injection Hstep as <-; split; simpl; auto; try discriminate.
  - assert (Hidle : ph (base n) = Idle) by (destruct Hi as [?|[? [=]]]; assumption).
    destruct c; [destruct (done n) eqn:Ed | destruct (signal n) | destruct (bool_decide _)]; try discriminate;
      injection Hstep as <-; split; simpl; auto; try discriminate; left; eauto.
  - destruct (advance (base n)) as [s|] eqn:Eadv.
    2: { apply advance_none in Eadv as [Hidle Hn]. injection Hstep as <-.
      assert (Hp : pending (log_at n) = []) by (destruct (commitBegin_none _ Hn); auto).
      split; simpl; auto; destruct last; simpl; try discriminate. intros _. split; [|done].
      apply Hc. right. by apply Hl. }
    destruct (advance_spec _ _ Eadv) as (Hrun & _ & [(j & Hidle & Hbeg & Hp')|[(j & Hj & Hj' & Hsec & Hso)|(j & err & rb & Hp & Hp' & El)]]).
    + rewrite Hp' in Hstep. injection Hstep as <-.
      destruct (commitBegin_inv _ _ _ Hbeg) as (_ & _ & _ & Ep & Eb & Ecl & Er & Ec & Ei & Eo).
      destruct (inv_rounds _ _ I) as [Hcur Hin]. rewrite Hidle in Hin. simpl in Hin.
      split; simpl; rewrite ?Ep, ?Eb, ?Ecl, ?Ei; auto.
      * right. eauto.
      * intros r. rewrite Er, Ec. intros [H|[? H]]%lookup_app_Some.
        -- destruct (Ho _ H) as [->|E]; [by right | congruence].
        -- apply list_lookup_singleton_Some in H as [? _]. left. lia.
      * intros Ht. rewrite Ea in Ht. injection Ht as ->. split; [by apply Hl | by right].
      * rewrite Ea. discriminate.
    + destruct Hso as (ss & a & E). assert (Hne : ph s ≠ Idle) by (intros E'; rewrite E' in Hj'; discriminate).
      assert (Hs : Some (set_base s n) = Some n') by (destruct (ph s); done). injection Hs as <-. clear Hstep.
      assert (Hne0 : ph (base n) ≠ Idle) by (intros E'; rewrite E' in Hj; discriminate).
      split; simpl; rewrite ?E; auto; simpl.
      * right. eauto.
      * right. destruct Hw as [[? _]|Hw]; [done|]. exact Hw.
      * rewrite Ea. intros Ht. destruct (Hl Ht) as [? [?|?]]; [done|]. auto.
      * rewrite Ea. discriminate.
    + rewrite Hp' in Hstep. destruct (inv_rounds _ _ I) as [Hcur Hin]. rewrite Hp in Hin. destruct Hin as (Hr & Hne & Hi').
      assert (S' : sane (set_base s (set_at (finished last) n))).
      { assert (Hpend : pending (log_of s) = [] ∨ pending (log_of s) = pending (log_at n) ∧ mustCommit (log_of s) = mustCommit (log_at n)
                          ∧ broken (log_of s) = broken (log_at n)).
        { rewrite El. destruct err; [by left | by right]. }
        assert (Ecl : closed (log_of s) = closed (log_at n)) by (rewrite El; by destruct err).
        split; simpl; rewrite ?Ecl; auto.
        - right. destruct Hpend as [?|(-> & -> & _)]; [by left|]. destruct Hw as [[E _]|Hw]; [rewrite Hp in E; discriminate | exact Hw].
        - destruct Hpend as [->|(-> & _ & ->)]; auto.
        - intros r. rewrite El. intros H. left. by eapply commitEnd_open.
        - destruct last; discriminate.
        - destruct last; [|discriminate]. intros _. destruct (Hl eq_refl) as [Hd [E|E]]; [rewrite Hp in E; discriminate|].
          split; [apply Hc; by right|]. destruct Hpend as [?|(-> & _)]; done. }
      destruct last; [|by injection Hstep as <-].
      destruct (outcome _); injection Hstep as <-; [|exact S']. by destruct S'.
Qed.

(** ** Every staged record is decided *)

(** Somebody waits for the round [r], which is not decided. *)
Definition waits (r : nat) (n : node) : Prop :=
  rounds (log_at n) !! r = Some Undecided ∧
  (r = curRound (log_at n) ∧ pending (log_at n) ≠ [] ∨ inflight (log_at n) = Some r).

Definition decided (r : nat) (n : node) : Prop := ∃ err, rounds (log_at n) !! r = Some (Decided err).

(** How many turns the committer needs to decide a round, at most. *)
Definition turns_left (r : nat) (n : node) : nat :=
  if bool_decide (inflight (log_at n) = Some r) then sections_left (ph (base n))
  else match at_ n with
       | Committing _ => match ph (base n) with Idle => 5 | p => sections_left p + 7 end
       | Top => 7
       | Selecting => 6
       | Gone => 0
       end.

Lemma turns_left_bound r n : (turns_left r n <= 11)%nat.
Proof. unfold turns_left. case_bool_decide; destruct (ph (base n)), (at_ n); simpl; lia. Qed.

Lemma waits_busy init r n : LogSteps.inv init (base n) → sane n → waits r n → (0 < turns_left r n)%nat.
Proof.
  intros I [] [_ Hw]. unfold turns_left. destruct (inv_rounds _ _ I) as [_ Hin]. case_bool_decide as Hi.
  - destruct (ph (base n)); simpl in *; [congruence|lia..].
  - destruct Hw as [[_ Hp]|]; [|done]. destruct (at_ n) eqn:Ea; try lia; [destruct (ph (base n)); simpl; lia|].
    destruct s_gone0; done.
Qed.

(** The committer does not leave before nobody waits. *)
Lemma gone_settled r n : sane n → at_ n = Gone → ¬ (0 < turns_left r n)%nat.
Proof.
  intros S Ea. assert (Hidle : ph (base n) = Idle) by (destruct (s_idle _ S) as [?|[? E]]; congruence).
  unfold turns_left. rewrite Ea, Hidle. case_bool_decide; simpl; lia.
Qed.

(** A turn brings the decision nearer, whatever the disk answers. *)
Lemma turn_nearer init r c n n' :
  LogSteps.inv init (base n) → sane n → waits r n → turn c n = Some n' →
  decided r n' ∨ (waits r n' ∧ (turns_left r n' < turns_left r n)%nat).
Proof.
  intros I [Hi _ Hb _ _ Hl _] [Hr Hw] Hstep. destruct (inv_rounds _ _ I) as [Hcur Hin].
  assert (Hcase : ph (base n) = Idle → inflight (log_at n) ≠ Some r ∧ r = curRound (log_at n) ∧ pending (log_at n) ≠ []).
  { intros E. rewrite E in Hin. simpl in Hin. destruct Hw as [Hw|Hw]; [split; [congruence | exact Hw] | congruence]. }
  assert (Hsame : ∀ p b, ph (base n) = Idle →
    (match p with Committing _ => 5 | Top => 7 | Selecting => 6 | Gone => 0 end
       < match at_ n with Committing _ => 5 | Top => 7 | Selecting => 6 | Gone => 0 end)%nat →
    let n' := set_signal b (set_at p n) in
    waits r n' ∧ (turns_left r n' < turns_left r n)%nat).
  { intros p b E Hlt. destruct (Hcase E) as (Hni & ? & ?). split; [by split|].
    unfold turns_left. simpl. rewrite E, bool_decide_false by done. exact Hlt. }
  unfold turn in Hstep. destruct (at_ n) as [| |last|] eqn:Ea; [| | |discriminate].
  - assert (Hidle : ph (base n) = Idle) by (destruct Hi as [?|[? [=]]]; assumption).
    right. destruct (_ && _); injection Hstep as <-; apply (Hsame _ (signal n) Hidle); lia.
  - assert (Hidle : ph (base n) = Idle) by (destruct Hi as [?|[? [=]]]; assumption). right.
    destruct c; [destruct (done n) | destruct (signal n) | destruct (bool_decide _)]; try discriminate;
      injection Hstep as <-; [apply (Hsame _ (signal n) Hidle) | apply (Hsame _ false Hidle) | apply (Hsame _ (signal n) Hidle)]; lia.
  - destruct (advance (base n)) as [s|] eqn:Eadv.
    2: { apply advance_none in Eadv as [Hidle Hn]. destruct (Hcase Hidle) as (_ & _ & Hp).
      destruct (commitBegin_none _ Hn); [done|]. by rewrite Hb in Hp. }
    destruct (advance_spec _ _ Eadv) as (_ & _ & [(j & Hidle & Hbeg & Hp')|[(j & Hj & Hj' & Hsec & Hso)|(j & err & rb & Hp & Hp' & El)]]).
    + rewrite Hp' in Hstep. injection Hstep as <-. right. destruct (Hcase Hidle) as (Hni & -> & _).
      destruct (commitBegin_inv _ _ _ Hbeg) as (_ & _ & _ & _ & _ & _ & Er & _ & Ei & _).
      split; [split; simpl; rewrite ?Er, ?Ei; [by apply lookup_app_l_Some | by right]|].
      unfold turns_left. simpl. rewrite Ei, Hp', bool_decide_true, bool_decide_false, Ea, Hidle by done. simpl. lia.
    + destruct Hso as (ss & a & E). assert (Hne : ph s ≠ Idle) by (intros E'; rewrite E' in Hj'; discriminate).
      assert (Hs : Some (set_base s n) = Some n') by (destruct (ph s); done). injection Hs as <-. clear Hstep. right.
      split; [split; simpl; rewrite E; done|]. unfold turns_left. simpl. rewrite E, Ea. simpl.
      case_bool_decide; [lia|]. destruct (ph s), (ph (base n)); simpl in *; done || lia.
    + assert (Hbase : base n' = s ∧ at_ n' = finished last).
      { rewrite Hp' in Hstep. destruct last; [|by injection Hstep as <-]. destruct (outcome _); by injection Hstep as <-. }
      clear Hstep. destruct Hbase as [Ebase Eat]. rewrite Hp in Hin. destruct Hin as (Hjr & Hne & Hi').
      pose proof (lookup_lt_Some _ _ _ Hjr) as Hlt. pose proof (lookup_lt_Some _ _ _ Hcur) as Hlc.
      unfold decided, waits, turns_left. rewrite Ebase, Eat, El, Hp', Hp.
      destruct (decide (r = jround j)) as [->|Hrj].
      { left. destruct err as [e|]; simpl; unfold resolve; eexists.
        - rewrite list_lookup_insert_ne by congruence. apply list_lookup_insert_eq. rewrite length_app. lia.
        - by apply list_lookup_insert_eq. }
      destruct Hw as [[-> Hpe]|Hw]; [|congruence]. destruct err as [e|]; simpl; unfold resolve.
      { left. eexists. apply list_lookup_insert_eq. rewrite length_insert, length_app. lia. }
      right. rewrite list_lookup_insert_ne by congruence. split; [split; [done | by left]|].
      destruct last; [destruct (Hl eq_refl) as [_ [E|E]]; [rewrite Hp in E; discriminate | done]|].
      rewrite !bool_decide_false by congruence. rewrite Ea. simpl. lia.
Qed.

(** Nothing the others do keeps the committer longer. *)
Lemma others_wait init r n n' :
  LogSteps.inv init (base n) → waits r n → others n n' → waits r n' ∧ turns_left r n' = turns_left r n.
Proof.
  intros I [Hr Hw] Hstep. unfold waits, turns_left.
  destruct Hstep as [n ps first last r' w Hps Hroom H|n ps e w Hroom H|n|n k Hk|n Hcl|n Hcl|n u r' w H|n m r' d Hm H].
  - destruct (staged_fields _ _ _ _ _ _ _ I Hps Hroom H) as (_ & _ & _ & Hp & Er & Ec & Ei & _).
    unfold log_of in *. simpl. rewrite Er, Ec, Ei. split; [split; [done|]|done]. destruct Hw as [[? _]|?]; auto.
  - pose proof (refused_same _ _ _ _ _ I Hroom H) as E. unfold log_of in *. simpl. by rewrite E.
  - done.
  - done.
  - done.
  - done.
  - pose proof (truncated_same _ _ _ _ _ I H) as (k & first & E). unfold log_of in *. simpl. by rewrite E.
  - done.
Qed.

Lemma run_sane init n k n' : LogSteps.inv init (base n) → sane n → run n k n' →
  LogSteps.inv init (base n') ∧ sane n'.
Proof.
  intros I S. induction 1 as [|n k n1 c n2 _ IH H|n k n1 n2 _ IH H]; [auto | |].
  - destruct (IH I S) as [I1 S1]. split; [|by eapply turn_sane].
    destruct (turn_running _ _ _ H) as [->|Hs]; [done|]. eapply inv_step; [done | by apply step_running].
  - destruct (IH I S) as [I1 S1]. split; [|by eapply others_sane].
    destruct (others_step _ _ H) as [->|Hs]; [done|]. by eapply inv_step.
Qed.

Lemma reachable_sane w gs pa n : fresh w gs pa → reachable w n →
  LogSteps.inv (all_records (lg w) gs pa) (base n) ∧ sane n.
Proof.
  intros F (k & R). eapply run_sane; [| | exact R]; [by apply inv_init | by eapply sane_launched].
Qed.

Lemma decided_stays init r n k n' : LogSteps.inv init (base n) → sane n → run n k n' → decided r n → decided r n'.
Proof.
  intros I S R [err Hr]. exists err. induction R as [|n k n1 c n2 R IH H|n k n1 n2 R IH H]; [done | |];
    specialize (IH I S Hr); destruct (run_sane _ _ _ _ I S R) as [(gs & pa & fly & st & junk & h & flown & old & G) _].
  - destruct (turn_running _ _ _ H) as [->|Hs]; [done|]. eapply settled_stays; [exact G | by apply step_running | exact IH].
  - destruct (others_step _ _ H) as [->|Hs]; [done|]. by eapply settled_stays.
Qed.

(** [Await] comes back once the round is decided. *)
Lemma decided_answers r n : decided r n →
  decided r n ∧ ∀ ctx pref first last, is_Some (Await ctx pref (log_at n) (MkCommit first last (Some r))).
Proof.
  intros [err Hr]. split; [by exists err|]. intros ctx pref first last. unfold Await, wait. simpl. rewrite Hr.
  destruct ctx, pref; by eexists.
Qed.

(** A batch of one is an append. *)
Lemma AppendBatch_single p w : AppendBatch [p] w = Append p w.
Proof.
  unfold AppendBatch, AppendBatchAsync, Append, bind, gets, throw, ret. simpl. rewrite orb_false_r.
  destruct (_ <? len p); [done|]. change (λ dst, fold_left Record.appendRecord [p] dst) with (λ dst, Record.appendRecord dst p).
  change (len [p]) with 1. destruct (stage _ _ w) as [[[[? ?] ?]|] ?]; done.
Qed.

(** Along a run, every turn counts. *)
Lemma waits_run init r n k n' : LogSteps.inv init (base n) → sane n → waits r n → run n k n' →
  decided r n' ∨ (waits r n' ∧ (turns_left r n' + k <= turns_left r n)%nat).
Proof.
  intros I S W. induction 1 as [|n k n1 c n2 R IH H|n k n1 n2 R IH H]; [right; split; [done | lia] | |];
    destruct (run_sane _ _ _ _ I S R) as [I1 S1]; destruct (IH I S W) as [D|[W1 Hk]].
  - left. eapply decided_stays; [exact I1 | exact S1 | | exact D]. eapply run_turn; [apply run_refl | exact H].
  - destruct (turn_nearer _ _ _ _ _ I1 S1 W1 H) as [D|[W2 Hlt]]; [by left|]. right. split; [done | lia].
  - left. eapply decided_stays; [exact I1 | exact S1 | | exact D]. eapply run_others; [apply run_refl | exact H].
  - destruct (others_wait _ _ _ _ I1 W1 H) as [W2 ->]. by right.
Qed.

(** A round with a record in it is decided or waited for. *)
Lemma staged_waits init r e n : LogSteps.inv init (base n) → sane n → (r, e) ∈ staged (base n) → decided r n ∨ waits r n.
Proof.
  intros (gs & pa & fly & st & junk & h & flown & old & G) S Hin. pose proof (i_core _ _ _ _ _ _ _ _ _ _ G) as C.
  pose proof (i_job _ _ _ _ _ _ _ _ _ _ G) as J. pose proof (s_open _ S r) as Ho. unfold decided, waits, log_of in *.
  rewrite (i_staged _ _ _ _ _ _ _ _ _ _ G) in Hin. apply elem_of_app in Hin as [Hin|Hin].
  - pose proof (i_old _ _ _ _ _ _ _ _ _ _ G) as Hold. rewrite Forall_forall in Hold.
    destruct (Hold _ Hin) as ([[|err] Hr] & Hne & Hni); [|left; eauto]. by destruct (Ho Hr).
  - right. apply elem_of_app in Hin as [Hin|Hin].
    + destruct (job_of (ph (base n))) as [j|]; [|by apply elem_of_nil in Hin].
      apply list_elem_of_fmap in Hin as (x & [= -> _] & _). destruct J. auto.
    + apply list_elem_of_fmap in Hin as (x & [= -> _] & Hin). split; [apply (i_cur _ _ _ _ _ _ _ _ _ _ G)|]. left. split; [done|].
      rewrite (c_pending _ _ _ _ _ _ _ C). intros E. pose proof (frames_nil_iff st) as Hn. rewrite E in Hn. simpl in Hn.
      symmetry in Hn. apply bool_decide_eq_true in Hn as ->. by apply elem_of_nil in Hin.
Qed.

(** C14: no staged record is forgotten.  Whatever else appenders, [Sync], [Close] and
    the checkpointer do and whatever the disk answers, the round of a staged
    record is decided by the time the committer has taken eleven turns; so
    [Await] comes back.  Until then the committer is not parked: it can take a turn
    without the ticker, or a goroutine is about to signal it, unless the log is in
    SyncPeriodic with less than CommitBytes staged, where the ticker moves it.  And
    when it has returned, on [Close], nothing is left undecided. *)
Theorem staged_rounds_are_decided w0 gs0 pa0 n r e :
  fresh w0 gs0 pa0 → reachable w0 n → (r, e) ∈ staged (base n) →
  (∀ k n', run n k n' → (11 <= k)%nat →
     decided r n' ∧ ∀ ctx pref first last, is_Some (Await ctx pref (log_at n') (MkCommit first last (Some r)))) ∧
  (decided r n ∨ (∃ c n', c ≠ ByTick ∧ turn c n = Some n') ∨ (0 < owed n)%nat ∨
     (mustCommit (log_at n) = false ∧ ∃ n', turn ByTick n = Some n')) ∧
  (at_ n = Gone → decided r n).
Proof.
  intros F R Hin. destruct (reachable_sane _ _ _ _ F R) as [I S].
  destruct (staged_waits _ _ _ _ I S Hin) as [D|W].
  { split; [intros k n' Hrun _; by eapply decided_answers, decided_stays | auto]. }
  pose proof (waits_busy _ _ _ I S W) as Hbusy. pose proof (turns_left_bound r n). split; [|split].
  - intros k n' Hrun Hk. destruct (waits_run _ _ _ _ _ I S W Hrun) as [|[W' Hle]]; [by apply decided_answers|].
    destruct (run_sane _ _ _ _ I S Hrun) as [I' S']. pose proof (waits_busy _ _ _ I' S' W'). lia.
  - right. destruct (at_ n) as [| |last|] eqn:Ea.
    + left. exists BySignal. unfold turn. rewrite Ea. destruct (_ && _); by eexists.
    + assert (Hidle : ph (base n) = Idle) by (destruct (s_idle _ S) as [?|[? E]]; congruence).
      destruct (inv_rounds _ _ I) as [_ Hi]. rewrite Hidle in Hi. destruct W as [_ [[_ Hp]|Hw]]; [|simpl in Hi; congruence].
      destruct (s_woken _ S) as [(_ & ? & E)|[?|[Hm|[Hs|?]]]]; [congruence | done | | | auto].
      * right. right. split; [done|]. unfold turn. rewrite Ea. unfold mustCommit in Hm. bools.
        rewrite bool_decide_false; [by eexists|]. intros E. by rewrite E in H0.
      * left. exists BySignal. unfold turn. rewrite Ea, Hs. by eexists.
    + left. exists BySignal. unfold turn. rewrite Ea. destruct (advance _) as [s|]; [|by eexists].
      destruct (ph s), last; try destruct (outcome _); by eexists.
    + by destruct (gone_settled r _ S Ea).
  - intros Ea. by destruct (gone_settled r _ S Ea).
Qed.

(** ** Closing

    With [done] closed and nobody else about, the committer comes to its end, and
    what it does to the log until then is what [Log.Close] runs in place. *)

(** Turns of the committer alone. *)
Inductive alone : node → nat → node → Prop :=
| alone_refl n : alone n 0 n
| alone_turn n k n1 c n2 : alone n k n1 → turn c n1 = Some n2 → alone n (S k) n2.

Lemma alone_cons n c n1 k n2 : turn c n = Some n1 → alone n1 k n2 → alone n (S k) n2.
Proof.
  intros H. induction 1 as [n1|n1 k n2 c' n3 _ IH H']; [by eapply alone_turn; [apply alone_refl|]|].
  eapply alone_turn; [by apply IH | done].
Qed.

Lemma alone_runs n k n' : alone n k n' → run n k n'.
Proof. induction 1; [apply run_refl | by eapply run_turn]. Qed.

(** Turns to the end, if [done] is chosen where it can be. *)
Definition closing_left (n : node) : nat :=
  match at_ n with
  | Gone => 0
  | Committing true => match ph (base n) with Idle => 5 | p => sections_left p end
  | Selecting => 6
  | Top => if bool_decide (pending (log_at n) = []) then 7 else 13
  | Committing false =>
      match ph (base n) with
      | Idle => if bool_decide (pending (log_at n) = []) then 8 else 12
      | p => sections_left p + (if bool_decide (pending (log_at n) = []) then 7 else 13)
      end
  end.

Lemma closing_goes_on init n : LogSteps.inv init (base n) → sane n → done n = true → at_ n ≠ Gone →
  ∃ c n', turn c n = Some n' ∧ done n' = true ∧ (closing_left n' < closing_left n)%nat.
Proof.
  intros I [Hi _ Hb _ _ _ _] Hd Hg. exists ByDone. unfold turn, closing_left. destruct (at_ n) as [| |last|] eqn:Ea; [| | |done].
  - assert (Hidle : ph (base n) = Idle) by (destruct Hi as [?|[? [=]]]; assumption).
    destruct (_ && hasPending (log_at n)) eqn:Ec; (eexists; split; [reflexivity|]; simpl; split; [done|]).
    + apply andb_true_iff in Ec as [_ Hl]. unfold hasPending in Hl. apply Z.ltb_lt in Hl. rewrite Hidle.
      rewrite !(bool_decide_false (pending (log_at n) = [])); [lia|]. intros E. rewrite E in Hl. done.
    + destruct (bool_decide (pending (log_at n) = [])); lia.
  - rewrite Hd. eexists. split; [reflexivity|]. simpl. destruct Hi as [->|[? [=]]]. split; [done | lia].
  - destruct (advance (base n)) as [s|] eqn:Eadv.
    2: { apply advance_none in Eadv as [Hidle Hn]. eexists. split; [reflexivity|]. split; [done|]. rewrite Hidle.
      assert (Hp : pending (log_at n) = []) by (destruct (commitBegin_none _ Hn); auto).
      destruct last; simpl; [lia|]. rewrite Hp. simpl. lia. }
    destruct (advance_spec _ _ Eadv) as (_ & _ & [(j & Hidle & Hbeg & Hp')|[(j & Hj & Hj' & Hsec & Hso)|(j & err & rb & Hp & Hp' & El)]]).
    + rewrite Hp'. eexists. split; [reflexivity|]. split; [done|]. simpl. rewrite Ea, Hidle, Hp'.
      destruct (commitBegin_inv _ _ _ Hbeg) as (Hpe & _ & _ & -> & _). rewrite (bool_decide_false _ Hpe).
      destruct last; simpl; lia.
    + destruct Hso as (ss & a & E). exists (set_base s n). assert (Hne : ph s ≠ Idle) by (intros E'; rewrite E' in Hj'; discriminate).
      split; [by destruct (ph s)|]. split; [done|]. simpl. rewrite Ea, E. simpl.
      destruct last, (ph s), (ph (base n)); simpl in *; done || lia.
    + rewrite Hp'. assert (Hpend : bool_decide (pending (log_at n) = []) = true → pending (log_of s) = []).
      { rewrite El. intros ?%bool_decide_eq_true. by destruct err. }
      rewrite Hp. eexists. split; [reflexivity|]. destruct last; simpl.
      * destruct err; simpl; (split; [done | lia]).
      * split; [done|]. destruct (bool_decide (pending (log_at n) = [])) eqn:E; [|destruct (bool_decide (pending (log_of s) = [])); lia].
        rewrite bool_decide_true by auto. lia.
Qed.

(** How the round in hand ends, from wherever it is. *)
Definition ended (j : job) (err rb : option error) (w : world) : result unit * world :=
  (match err with None => Ok tt | Some e => Fail (roundErr e rb) end, World (commitEnd j err rb (lg w)) (dk w)).
Definition undone (j : job) (e : error) (w : world) : result unit * world :=
  let '(r, w) := rollback w in ended j (Some e) (match r with Ok _ => None | Fail re => Some re end) w.
Definition stored (j : job) (w : world) : result unit * world :=
  let '(r, w) := appendBatch (syncMode (opts (lg w))) (buf j) (u64 (jlast j - jfirst j + 1)) w in
  match r with Ok _ => ended j None None w | Fail e => undone j e w end.
Definition finishing (s : sys) : result unit * world :=
  match ph s with
  | Idle => (Ok tt, sw s)
  | Writing j =>
      let '(r, w) := (if mustRotate (log_of s) (buf j) then rotate (jfirst j) else ret tt) (sw s) in
      match r with Ok _ => stored j w | Fail e => undone j e w end
  | Storing j => stored j (sw s)
  | Undoing j e => undone j e (sw s)
  | Ending j err rb => ended j err rb (sw s)
  end.

Definition errResult (e : option error) : result unit := match e with None => Ok tt | Some e => Fail e end.

(** Section by section, a round comes to what [commit] comes to. *)
Lemma advance_finishing s s' : advance s = Some s' → ph s ≠ Idle →
  finishing s = match ph s' with Idle => (errResult (outcome (ph s)), sw s') | _ => finishing s' end.
Proof.
  unfold advance, finishing. destruct (ph s) as [|j|j|j e|j err rb]; [done|..]; intros H _.
  - destruct ((if mustRotate (log_of s) (buf j) then rotate (jfirst j) else ret tt) (sw s)) as [r w]. injection H as <-. by destruct r.
  - unfold stored, log_of in *. destruct (appendBatch _ _ _ (sw s)) as [r w]. injection H as <-. by destruct r.
  - unfold undone. destruct (rollback (sw s)) as [r w]. by injection H as <-.
  - injection H as <-. unfold ended. by destruct err.
Qed.

Lemma begin_finishing s s' : ph s = Idle → advance s = Some s' → commit (sw s) = finishing s'.
Proof.
  intros Hp H. unfold advance in H. rewrite Hp in H. unfold commit, log_of in *.
  destruct (commitBegin (lg (sw s))) as [[j l]|]; [|discriminate]. injection H as <-.
  unfold finishing, commitIO, writeBatch. simpl. unfold bind, gets, log_of. simpl.
  destruct ((if mustRotate l (buf j) then rotate (jfirst j) else ret tt) (World l (dk (sw s)))) as [r w] eqn:Er.
  destruct r as [u|e].
  - assert (Eo : opts (lg w) = opts l).
    { destruct (mustRotate _ _); [by destruct (rotate_log _ _ _ _ Er) as (ss & a & ->) | by injection Er as _ <-]. }
    unfold stored. rewrite Eo. destruct (appendBatch _ _ _ w) as [[u'|e] w2]; [done|].
    unfold undone. destruct (rollback w2) as [rb w3]. by destruct rb.
  - unfold undone. destruct (rollback w) as [rb w2]. by destruct rb.
Qed.

Lemma idle_commit s : advance s = None → commit (sw s) = (Ok tt, sw s).
Proof.
  intros H. apply advance_none in H as [_ H]. unfold commit, log_of in *. by rewrite H.
Qed.

(** A commit with nothing staged does nothing. *)
Lemma commit_nothing w : pending (lg w) = [] → commit w = (Ok tt, w).
Proof. intros H. unfold commit, commitBegin. by rewrite H. Qed.

Lemma committed_empty w : (broken (lg w) = true → pending (lg w) = []) → pending (lg (commit w).2) = [].
Proof.
  intros Hb. destruct (commit w) as [r w'] eqn:E. apply commit_inv in E.
  destruct (commitBegin (lg w)) as [[j l]|] eqn:Eb; simpl.
  - destruct E as (err & rb & w2 & Hio & -> & _). destruct (commitBegin_inv _ _ _ Eb) as (_ & _ & _ & Hp & _). simpl.
    destruct err as [e|]; [done|]. simpl. unfold commitIO, writeBatch in Hio.
    unfold bind at 1, gets at 1 in Hio. simpl in Hio.
    set (m := bind _ _) in Hio. destruct (m (World l (dk w))) as [[u|e] w3] eqn:Em; [|destruct (rollback w3); discriminate].
    injection Hio as _ <-. unfold m in Em. apply bind_inv in Em as [([] & w4 & H4 & Em)|(e & _ & [=])].
    destruct (appendBatch_log _ _ _ _ _ _ Em) as (ss & a & ->). simpl.
    destruct (mustRotate _ _); [by destruct (rotate_log _ _ _ _ H4) as (ss' & a' & ->) | by injection H4 as <-].
  - destruct E as [_ ->]. destruct (commitBegin_none _ Eb); auto.
Qed.

Lemma idle_or_not p : p = Idle ∨ p ≠ Idle.
Proof. destruct p; (by left) || (by right). Qed.

Section closing.
Context (w0 : world) (f0 : option error) (Hb0 : broken (lg w0) = true → pending (lg w0) = []).

Definition after (early : bool) : world := if early then (commit w0).2 else w0.

(** Where a committer that was between rounds over [w0] has come to. *)
Definition tracked (n : node) : Prop :=
  match at_ n with
  | Top | Selecting => ph (base n) = Idle ∧ finalErr n = f0 ∧ ∃ early, sw (base n) = after early
  | Committing false => finalErr n = f0 ∧
      ((ph (base n) = Idle ∧ ∃ early, sw (base n) = after early) ∨
       (ph (base n) ≠ Idle ∧ (finishing (base n)).2 = after true))
  | Committing true => finalErr n = f0 ∧ ∃ early,
      (ph (base n) = Idle ∧ sw (base n) = after early) ∨
      (ph (base n) ≠ Idle ∧ finishing (base n) = commit (after early))
  | Gone => ∃ early, sw (base n) = (commit (after early)).2 ∧
      finalErr n = match (commit (after early)).1 with Fail e => Some e | Ok _ => f0 end
  end.

Lemma tracked_turn c n n' : tracked n → turn c n = Some n' → tracked n'.
Proof using Hb0.
  intros T H. unfold turn in H. unfold tracked in T. destruct (at_ n) as [| |last|] eqn:Ea; [| | |discriminate].
  - destruct T as (Hp & Hf & He). destruct (_ && _); injection H as <-; unfold tracked; simpl; auto.
  - destruct T as (Hp & Hf & early & He).
    destruct c; [destruct (done n) | destruct (signal n) | destruct (bool_decide _)]; try discriminate;
      injection H as <-; unfold tracked; simpl; eauto 6.
  - destruct (advance (base n)) as [s|] eqn:Eadv.
    2: { pose proof (idle_commit _ Eadv) as Hc. apply advance_none in Eadv as [Hidle _].
      injection H as <-. destruct last; unfold tracked; simpl.
      - destruct T as (Hf & early & [[_ He]|[Hne _]]); [|done]. exists early. rewrite He in Hc |- *. by rewrite Hc.
      - destruct T as (Hf & [[_ He]|[Hne _]]); [|done]. auto. }
    destruct (idle_or_not (ph (base n))) as [Hidle|Hne].
    + pose proof (begin_finishing _ _ Hidle Eadv) as Hfin.
      assert (Hbeg : ∃ j, ph s = Writing j ∧ pending (log_at n) ≠ []).
      { destruct (advance_spec _ _ Eadv) as (_ & _ & [(j & _ & Hbeg & Hp')|[(j & Hj & _)|(j & err & rb & Hp & _)]]);
          [|rewrite Hidle in Hj; discriminate | congruence].
        exists j. split; [done|]. by destruct (commitBegin_inv _ _ _ Hbeg). }
      destruct Hbeg as (j & Hp' & Hpe). rewrite Hp' in H. injection H as <-. unfold tracked. simpl. rewrite Ea, Hp'.
      destruct last.
      * destruct T as (Hf & early & [[_ He]|[? _]]); [|done]. split; [done|]. exists early. right. split; [done|]. by rewrite <- Hfin, He.
      * destruct T as (Hf & [(_ & early & He)|[? _]]); [|done]. split; [done|]. right. split; [done|]. rewrite <- Hfin, He.
        destruct early; [|done]. exfalso. apply Hpe. unfold log_of. rewrite He. by apply committed_empty.
    + pose proof (advance_finishing _ _ Eadv Hne) as Hfin. destruct (idle_or_not (ph s)) as [Hi|Hi].
      * rewrite Hi in H, Hfin. destruct last.
        -- destruct T as (Hf & early & [[? _]|[_ He]]); [done|]. rewrite Hfin in He.
           destruct (outcome (ph (base n))); injection H as <-; unfold tracked; simpl; exists early; by rewrite <- He.
        -- destruct T as (Hf & [[? _]|[_ He]]); [done|]. rewrite Hfin in He. injection H as <-. unfold tracked. simpl. eauto.
      * assert (Hs : Some (set_base s n) = Some n') by (destruct (ph s); done). injection Hs as <-. clear H.
        assert (Hfin' : finishing (base n) = finishing s) by (destruct (ph s); done).
        unfold tracked. simpl. rewrite Ea. rewrite Hfin' in T. destruct last.
        -- destruct T as (Hf & early & [[? _]|[_ He]]); [done|]. eauto 6.
        -- destruct T as (Hf & [[? _]|[_ He]]); [done|]. eauto 6.
Qed.
End closing.

Lemma close_reaches_the_end init n : LogSteps.inv init (base n) → sane n → done n = true →
  ∃ k n', (k <= closing_left n)%nat ∧ alone n k n' ∧ at_ n' = Gone.
Proof.
  remember (closing_left n) as m eqn:Em. revert n Em. induction m as [m IH] using lt_wf_ind. intros n -> I S Hd.
  assert (Hg : at_ n = Gone ∨ at_ n ≠ Gone) by (destruct (at_ n); (by left) || (by right)).
  destruct Hg as [Hg|Hg]; [exists 0%nat, n; split; [lia|]; split; [apply alone_refl | done]|].
  destruct (closing_goes_on _ _ I S Hd Hg) as (c & n1 & Ht & Hd1 & Hlt).
  destruct (run_sane _ _ _ _ I S (run_turn _ _ _ _ _ (run_refl n) Ht)) as [I1 S1].
  destruct (IH _ Hlt n1 eq_refl I1 S1 Hd1) as (k & n' & Hk & Ha & Hgone).
  exists (Datatypes.S k), n'. split; [lia|]. split; [by eapply alone_cons | done].
Qed.

Lemma closing_left_bound n : (closing_left n <= 17)%nat.
Proof.
  unfold closing_left. destruct (at_ n) as [| |[]|], (ph (base n)), (bool_decide (pending (log_at n) = [])); simpl; lia.
Qed.

(** C15: [Close] and its committer.  Once [done] is closed the committer can return
    within seventeen turns from wherever it is.  From between two rounds, whatever
    wakes it first and whatever the disk answers, what it does until then is
    [lastRounds], which [Log.Close] runs in place: at most one round that changes
    anything before the one of the [done] branch, and of all errors only that
    round's is reported. *)
Theorem close_runs_the_last_rounds w0 gs0 pa0 n : fresh w0 gs0 pa0 → reachable w0 n → done n = true →
  (∃ k n', (k <= 17)%nat ∧ alone n k n' ∧ at_ n' = Gone) ∧
  (ph (base n) = Idle → at_ n = Top ∨ at_ n = Selecting → ∀ k n', alone n k n' → at_ n' = Gone →
   ∃ early final, lastRounds early (sw (base n)) = (Ok final, sw (base n')) ∧
     finalErr n' = match final with Fail e => Some e | Ok _ => finalErr n end).
Proof.
  intros F R Hd. destruct (reachable_sane _ _ _ _ F R) as [I S]. split.
  - destruct (close_reaches_the_end _ _ I S Hd) as (k & n' & Hk & H). pose proof (closing_left_bound n).
    exists k, n'. split; [lia | done].
  - intros Hp Ha k n' Hrun Hg.
    assert (Hb0 : broken (lg (sw (base n))) = true → pending (lg (sw (base n))) = []) by apply (s_broken _ S).
    assert (T : tracked (sw (base n)) (finalErr n) n').
    { clear Hg. revert Hb0. induction Hrun as [n|n k n1 c n2 Hrun IH H]; intros Hb0.
      - unfold tracked. destruct Ha as [-> | ->]; (split; [done|]; split; [done|]; by exists false).
      - eapply tracked_turn; [exact Hb0 | | exact H]. by apply IH. }
    unfold tracked in T. rewrite Hg in T. destruct T as (early & Hw & Hf).
    exists early, (commit (after (sw (base n)) early)).1. split; [|exact Hf].
    unfold lastRounds, after in *. destruct early; unfold bind, try, ret.
    + destruct (commit (sw (base n))) as [r w]. simpl in *. destruct (commit w) as [r2 w2]. simpl in *. by subst w2.
    + destruct (commit (sw (base n))) as [r2 w2]. simpl in *. by subst w2.
Qed.

(** *** A run: two records in SyncAlways, the committer woken before every turn. *)
Fixpoint spin (k : nat) (n : node) : option node :=
  match k with
  | O => Some n
  | S k => match turn BySignal (signalCommit n) with Some n' => spin k n' | None => None end
  end.

Lemma poke_run n k n1 : run n k n1 → run n k (signalCommit n1).
Proof.
  intros R. assert (R1 : run n k (signalCommit (set_owed (owed n1) (set_owed (S (owed n1)) n1)))).
  { eapply run_others; [eapply run_others; [exact R | apply oth_sync] | by apply oth_signal]. }
  by destruct n1.
Qed.

Lemma spin_run k : ∀ n m n1 n', run n m n1 → spin k n1 = Some n' → run n (m + k) n'.
Proof.
  induction k as [|k IH]; intros n m n1 n' R H; simpl in H.
  - injection H as <-. by rewrite Nat.add_0_r.
  - destruct (turn BySignal (signalCommit n1)) as [n2|] eqn:E; [|discriminate].
    rewrite Nat.add_succ_r, <- Nat.add_succ_l. eapply IH; [|exact H]. eapply run_turn; [by apply poke_run | exact E].
Qed.

Definition ex_launched : node := launched (ex_world ex_plan).
Definition ex_staged : node := set_owed 1 (set_base (after_append [p1; p2] (base ex_launched)) ex_launched).

Lemma ex_staged_reachable : reachable (ex_world ex_plan) ex_staged.
Proof.
  assert (H : (AppendBatchAsync [p1; p2] (sw (base ex_launched))).1
    = Ok (MkCommit (nextLSN (log_at ex_launched)) 2 (Some (curRound (log_at ex_launched))))) by by vm_compute.
  assert (Hm : mustCommit (lg (AppendBatchAsync [p1; p2] (sw (base ex_launched))).2) = true) by by vm_compute.
  assert (Hroom : room (base ex_launched) [p1; p2]) by by vm_compute.
  exists 0%nat. eapply run_others; [apply run_refl|].
  unfold ex_staged, after_append. destruct (AppendBatchAsync [p1; p2] (sw (base ex_launched))) as [r w] eqn:E.
  simpl fst in H. subst r. cbn [snd] in *.
  pose proof (oth_append ex_launched [p1; p2] _ _ _ w ltac:(discriminate) Hroom E) as Ha. rewrite Hm in Ha. exact Ha.
Qed.

Definition ex_idle : node := default ex_staged (spin 11 ex_staged).

Lemma staged_rounds_are_decided_witness :
  reachable (ex_world ex_plan) ex_staged ∧ decided 0 ex_idle ∧ at_ ex_idle = Top.
Proof.
  assert (Hin : (0%nat, (1, p1)) ∈ staged (base ex_staged)) by (left).
  assert (Hs : spin 11 ex_staged = Some ex_idle).
  { assert (E : bool_decide (is_Some (spin 11 ex_staged)) = true) by by vm_compute.
    apply bool_decide_eq_true in E as [n' E]. unfold ex_idle. by rewrite E. }
  split; [exact ex_staged_reachable|].
  destruct (staged_rounds_are_decided _ _ _ _ _ _ (ex_fresh ex_plan) ex_staged_reachable Hin) as (H & _).
  split; [|by vm_compute]. apply (H 11%nat ex_idle); [|lia]. exact (spin_run 11 _ 0 _ _ (run_refl _) Hs).
Defined.

(** The same with Close in place of the wake-ups. *)
Definition ex_sealed : node :=
  Node (Sys (World (set_closed (log_at ex_staged)) (dk (sw (base ex_staged)))) (ph (base ex_staged))
          (staged (base ex_staged)) (upto (base ex_staged)))
    (at_ ex_staged) (signal ex_staged) (done ex_staged) (owed ex_staged) true (finalErr ex_staged).
Definition ex_closing : node :=
  Node (base ex_sealed) (at_ ex_sealed) (signal ex_sealed) true (owed ex_sealed) false (finalErr ex_sealed).

Lemma ex_closing_reachable : reachable (ex_world ex_plan) ex_closing.
Proof.
  destruct ex_staged_reachable as (k & R). exists k.
  assert (Hc : closed (log_at ex_staged) = false) by by vm_compute.
  eapply run_others; [eapply run_others; [exact R | exact (oth_close ex_staged Hc)]|].
  exact (oth_done ex_sealed eq_refl).
Qed.

Lemma close_runs_the_last_rounds_witness :
  pending (log_at ex_closing) ≠ [] ∧ ∃ k n', (k <= 17)%nat ∧ alone ex_closing k n' ∧ at_ n' = Gone ∧
    ∃ early final, lastRounds early (sw (base ex_closing)) = (Ok final, sw (base n')).
Proof.
  split; [by vm_compute|].
  destruct (close_runs_the_last_rounds _ _ _ _ (ex_fresh ex_plan) ex_closing_reachable eq_refl) as ((k & n' & Hk & Ha & Hg) & H).
  exists k, n'. split; [exact Hk|]. split; [exact Ha|]. split; [exact Hg|].
  destruct (H eq_refl (or_introl eq_refl) k n' Ha Hg) as (early & final & Hl & _). exact (ex_intro _ early (ex_intro _ final Hl)).
Defined.

End Committer.
