(* ===== verification/Durable.v ===== *)
(** * What a loss of power leaves of the log

    A kill keeps what the process has written; a loss of power keeps what was
    fsynced, and of a name that was not followed by an fsync of the directory
    perhaps nothing.  [secured n c i] says that whatever the loss leaves of the
    image [i], the file [n] is there and begins with [c].  Along the steps of the
    running log (file LogSteps) every published byte is secured, at every moment
    within a step too, unless the mode is SyncNever.  [marked name P i] says that
    whatever comes back under the name reads as a mark of which [P] holds; so the
    reservation covers the numbers handed out. *)

From stdpp Require Import strings.
From S2P Require Import Prelude Errors Text Record Disk Segment MarkFiles Log LogInv Frame LogSteps.
Local Open Scope Z_scope.
Local Open Scope go_scope.

Module Durable.
Import Record Segment Log LogInv Frame LogSteps.

(** ** Bytes no loss of power takes *)

Definition only_from (c : bytes) (bs : list (option Disk.file)) : Prop :=
  ∃ fl, bs = [Some fl] ∧ c `prefix_of` Disk.cur fl ∧ c `prefix_of` Disk.dur fl.

Definition secured (n c : bytes) : Disk.image → Prop := Disk.guarding n (only_from c).

Lemma common_prefix_of c a b : c `prefix_of` a → c `prefix_of` b → c `prefix_of` Disk.common_prefix a b.
Proof.
  intros [ra ->] [rb ->]. induction c as [|x c IH]; [apply prefix_nil|]. simpl.
  rewrite bool_decide_true by done. by apply prefix_cons.
Qed.

Lemma secured_survives n c i m : secured n c i → Disk.power_loss i m → ∃ rest, m !! n = Some (c ++ rest).
Proof.
  intros (fl & Eb & Hc & Hd) H. specialize (H n). cbv zeta in H. fold (Disk.bindings i n) in H. rewrite Eb in H.
  destruct (m !! n) as [data|]; [|by apply list_elem_of_singleton in H].
  destruct H as (f' & [= ->]%list_elem_of_singleton & Hv). unfold Disk.survives in Hv.
  assert (Hp : c `prefix_of` data).
  { case_decide; [by subst|]. etrans; [|exact Hv]. by apply common_prefix_of. }
  destruct Hp as [rest ->]. eauto.
Qed.

Lemma secured_exists n i : Disk.stale i !! n = None → is_Some ((Disk.cur <$> Disk.files i) !! n) → secured n [] i.
Proof.
  unfold secured, Disk.guarding, Disk.bindings. intros -> [c Hf]. rewrite lookup_fmap in Hf.
  destruct (Disk.files i !! n) as [fl|]; [|done]. exists fl. auto using prefix_nil.
Qed.

(** The name is settled and all of its file is synced. *)
Lemma secured_whole n c i : secured n [] i → (∀ fl, Disk.files i !! n = Some fl → Disk.dur fl = Disk.cur fl) →
  (Disk.cur <$> Disk.files i) !! n = Some c → secured n c i.
Proof.
  intros (fl & Eb & _) Hd Hc. unfold secured, Disk.guarding. exists fl. split; [done|]. unfold Disk.bindings in Eb.
  injection Eb as Ef _. rewrite lookup_fmap, Ef in Hc. injection Hc as <-. by rewrite (Hd _ Ef).
Qed.

Lemma secured_cur n c i : secured n c i → ∃ fl, Disk.files i !! n = Some fl ∧ c `prefix_of` Disk.cur fl.
Proof. intros (fl & Eb & Hc & _). injection Eb as Ef _. eauto. Qed.

(** ** Every moment of an operation *)

(** A property of images that a run keeps, at its end and on the way. *)
Definition holding (G : Disk.image → Prop) : relation Disk.disk := λ d d',
  ∃ added, Disk.trail d' = Disk.trail d ++ added ∧
    (G (Disk.img d) → G (Disk.img d') ∧ Forall G added).

#[global] Instance holding_preorder G : PreOrder (holding G).
Proof.
  split.
  - intros d. exists []. by rewrite app_nil_r.
  - intros d1 d2 d3 (a & Ea & Ha) (b & Eb & Hb). exists (a ++ b). rewrite Eb, Ea, app_assoc.
    split; [done|]. intros H1. destruct (Ha H1) as [H2 Fa], (Hb H2) as [H3 Fb]. split; [done|]. by apply Forall_app.
Qed.

Lemma holding_call G {A} (ok : Disk.image → result (A * Disk.image)) bad :
  (∀ i a i', ok i = Ok (a, i') → G i → G i') → (∀ k i, G i → G (bad k i)) →
  within (holding G) (Disk.call ok bad).
Proof.
  intros Hok Hbad d r d' H. unfold Disk.call in H.
  assert (Hend : ∀ i p, (G (Disk.img d) → G i) → holding G d (Disk.Disk i p (Disk.trail d ++ [i]))).
  { intros i p Hi. exists [i]. split; [done|]. simpl. auto. }
  destruct (Disk.plan d) as [|[|e k] p]; [..|by injection H as _ <-; auto];
    destruct (ok (Disk.img d)) as [[x i]|e] eqn:E; injection H as _ <-; eauto.
Qed.

(** What is guarded of a name is kept by everything that does not touch its
    file but to sync it. *)
Section calls.
Context (n : bytes) (ok : list (option Disk.file) → Prop).
Local Abbreviation keep := (within (holding (Disk.guarding n ok))).

Lemma guarding_write p b :
  (p = n → ∀ fl bs b', ok (Some fl :: bs) → ok (Some (Disk.File (Disk.cur fl ++ b') (Disk.dur fl)) :: bs)) →
  keep (Disk.write p b).
Proof.
  intros H. assert (Hput : ∀ b' i, Disk.guarding n ok i → Disk.guarding n ok
     (match Disk.files i !! p with Some f => Disk.set_file p (Disk.File (Disk.cur f ++ b') (Disk.dur f)) i | None => i end)).
  { intros b' i. destruct (Disk.files i !! p) as [fl|] eqn:E; [|done]. apply Disk.guarding_set; [|by rewrite E].
    rewrite E. intros Hp f0 bs [= <-]. by apply H. }
  apply holding_call; [intros i [] i' [= <-] | intros k i]; apply Hput.
Qed.

Lemma guarding_truncate p z :
  (p = n → ∀ fl bs, ok (Some fl :: bs) →
     ok (Some (Disk.File (take (Z.to_nat z) (Disk.cur fl) ++ replicate (Z.to_nat z - length (Disk.cur fl)) Byte.x00)
                         (Disk.dur fl)) :: bs)) →
  keep (Disk.truncate p z).
Proof.
  intros H. apply holding_call; [|done]. intros i [] i' Hi.
  destruct (Disk.files i !! p) as [fl|] eqn:E; [|done]. injection Hi as <-.
  apply Disk.guarding_set; [|by rewrite E]. rewrite E. intros Hp f0 bs [= <-]. by apply H.
Qed.

Lemma guarding_fsync p :
  (∀ fl bs, ok (Some fl :: bs) → ok (Some (Disk.File (Disk.cur fl) (Disk.cur fl)) :: bs)) → keep (Disk.fsync p).
Proof.
  intros Hsync. apply holding_call; [|done]. intros i [] i' Hi.
  destruct (Disk.files i !! p) as [fl|] eqn:E; injection Hi as <-; [|done].
  apply Disk.guarding_set; [|by rewrite E]. rewrite E. intros Hp f0 bs [= <-]. by apply Hsync.
Qed.

(** A call that binds other names only. *)
Lemma guarding_call {A} (okc : Disk.image → result (A * Disk.image)) :
  (∀ i a i', okc i = Ok (a, i') → i' = i ∨ ∃ p, p ≠ n ∧
     ((∃ ob, i' = Disk.bind_name p ob i) ∨ (∃ q ob, q ≠ n ∧ i' = Disk.bind_name p ob (Disk.bind_name q None i)) ∨
      (∃ fl, is_Some (Disk.files i !! p) ∧ i' = Disk.set_file p fl i))) →
  keep (Disk.call okc Disk.unchanged).
Proof.
  intros H. apply holding_call; [|done]. intros i a i' E Hi.
  destruct (H _ _ _ E) as [->|(p & Hp & [(ob & ->)|[(q & ob & Hq & ->)|(fl & Hfl & ->)]])]; [done|..].
  - by apply Disk.guarding_bind_ne.
  - by repeat apply Disk.guarding_bind_ne.
  - by apply Disk.guarding_set.
Qed.

#[global] Instance guarding_sparing :
  (∀ fl bs, ok (Some fl :: bs) → ok (Some (Disk.File (Disk.cur fl) (Disk.cur fl)) :: bs)) →
  (∀ b bs, ok (b :: bs) → ok [b]) → Sparing n (holding (Disk.guarding n ok)).
Proof.
  intros Hsync Hdir. split; [apply _|..]; intros;
    try (by apply guarding_write); try (by apply guarding_truncate); try (by apply guarding_fsync).
  all: try (by apply holding_call; [intros i [] i' [= <-]; apply Disk.guarding_settle|]).
  all: try (apply guarding_call; intros i a' i' E; try destruct (Disk.files i !! _) eqn:Ef; simplify_eq; eauto 12).
  intros d r d' H. unfold Disk.readAll in H. exists [Disk.img d].
  destruct (Disk.plan d) as [|[|e k] pl]; injection H as _ <-; simpl; auto.
Qed.
End calls.

#[global] Instance secured_sparing n c : Sparing n (holding (secured n c)).
Proof.
  apply guarding_sparing.
  - intros fl bs (f0 & [= -> ->] & Hc & _). by eexists.
  - intros b bs (f0 & [= -> ->] & H). by exists f0.
Qed.

Lemma secured_write n c p b : within (holding (secured n c)) (Disk.write p b).
Proof.
  apply guarding_write. intros _ fl bs b' (f0 & [= -> ->] & Hc & Hd). eexists. split; [done|].
  split; [by apply prefix_app_r | done].
Qed.

Lemma secured_truncate n c p z : (p = n → len c <= z) → within (holding (secured n c)) (Disk.truncate p z).
Proof.
  intros Hz. apply guarding_truncate. intros Hp fl bs (f0 & [= -> ->] & [rest E] & Hd). specialize (Hz Hp).
  eexists. split; [done|]. split; [|done]. simpl. rewrite E, take_app_ge by (unfold len in Hz; lia).
  by apply prefix_app_r, prefix_app_r.
Qed.

(** ** What succeeded *)

Lemma syncDir_settles d d' : Disk.syncDir d = (Ok tt, d') → Disk.stale (Disk.img d') = ∅.
Proof.
  intros H. by apply Disk.call_inv in H as [(? & ? & [=] & _)|[(? & ? & [= _ <-] & _ & ->)|(? & [=] & _)]].
Qed.

Lemma fsync_settles n d d' fl : Disk.fsync n d = (Ok tt, d') →
  Disk.files (Disk.img d') !! n = Some fl → Disk.dur fl = Disk.cur fl.
Proof.
  intros H. apply Disk.call_inv in H as [(? & ? & [=] & _)|[(? & i & E & _ & ->)|(? & _ & [=] & _)]].
  destruct (Disk.files (Disk.img d) !! n) as [f0|] eqn:Ef; injection E as _ <-; [|by rewrite Ef].
  simpl. rewrite lookup_insert_eq. by intros [= <-].
Qed.

Lemma replaceFile_settles name data d d' :
  MarkFiles.replaceFile name data d = (Ok tt, d') → Disk.stale (Disk.img d') = ∅.
Proof.
  intros H. destruct (MarkFiles.replaceFile_triple name data (λ _, True)) with (d := d) (r := Ok tt : result unit) (d' := d')
    as [[_ Hok] _]; try done. by destruct (Hok eq_refl).
Qed.

Lemma createSegment_settles b p d s d' : createSegment b p d = (Ok s, d') → Disk.stale (Disk.img d') = ∅.
Proof.
  unfold createSegment. intros H. apply bind_try_inv in H as (o & d1 & _ & H).
  apply bind_inv in H as [(o2 & d2 & _ & H)|(e & _ & [=])]. destruct o2 as [[]|e]; [|done].
  apply bind_inv in H as [([] & d3 & H3 & H)|(e & _ & [=])]. injection H as _ <-.
  apply on_error_inv in H3 as [([] & H3 & _)|(? & ? & ? & _ & _ & [=])]. by apply syncDir_settles in H3.
Qed.

(** A rotation that succeeded has settled the name of the new segment; one
    that failed has changed a handle at most. *)
Lemma rotate_segs first w r w' :
  rotate first w = (r, w') →
  let n := segmentName first (first -u 1) in let l := lg w in
  (r = Ok tt ∧ lg w' = set_segs (sealed l ++ [set_f HNil (active l)]) (Seg first n (first -u 1) HOpen 0 0) l ∧
   secured n [] (Disk.img (dk w'))) ∨
  ((∃ e, r = Fail e) ∧ ∃ h, lg w' = set_segs (sealed l) (set_f h (active l)) l).
Proof.
  intros H n l. unfold rotate in H. apply bind_gets_inv in H. cbv beta in H.
  assert (Hsame : ∃ h, l = set_segs (sealed l) (set_f h (active l)) l).
  { exists (f (active l)). unfold l. destruct (lg w) as [? ? []]; done. }
  apply bind_inv in H as [(next & w1 & H1 & H)|(e & H & ->)].
  2: { apply onDisk_inv in H as (d1 & _ & ->). right. eauto. }
  apply onDisk_inv in H1 as (d1 & H1 & ->). pose proof (createSegment_settles _ _ _ _ _ H1) as Hst.
  apply createSegment_inv in H1 as [([= ->] & _ & V1)|(? & [=] & _)].
  assert (S1 : secured n [] (Disk.img d1)).
  { apply secured_exists; [by rewrite Hst, lookup_empty|]. fold (Disk.view d1). rewrite V1, lookup_insert_eq. done. }
  pose proof (secured_sparing n []) as Sp.
  apply bind_inv in H as [([] & w2 & H2 & H)|(e & H & ->)].
  2: { apply onDisk_inv in H as (d2 & _ & ->). right. eauto. }
  apply onDisk_inv in H2 as (d2 & H2 & ->). apply on_error_inv in H2 as [([] & H2 & _)|(? & ? & ? & _ & _ & [=])].
  apply (sp_via n _ _ _ (sp_fsync _)) in H2 as (a2 & _ & K2).
  apply bind_try_inv in H as (c & w3 & H3 & H). apply onDisk_inv in H3 as (d3 & H3 & ->).
  apply (sp_via n _ _ _ (sp_close _)) in H3 as (a3 & _ & K3). destruct c as [u|e].
  - injection H as <- <-. left. split; [done|]. split; [done|]. simpl in *. by apply K3, K2.
  - apply bind_try_inv in H as (y & w4 & H4 & H). apply onDisk_inv in H4 as (d4 & _ & ->).
    injection H as <- <-. right. simpl. split; [eauto|]. by exists HClosed.
Qed.

(** A batch that was published in a mode that syncs is synced. *)
Lemma appendBatch_segs mode b k w r w' :
  mode ≠ SyncNever → appendBatch mode b k w = (r, w') →
  let l := lg w in
  (r = Ok tt ∧ lg w' = set_segs (sealed l) (grow (len b) k (active l)) l ∧
   ∀ fl, Disk.files (Disk.img (dk w')) !! path (active l) = Some fl → Disk.dur fl = Disk.cur fl) ∨
  ((∃ e, r = Fail e) ∧ lg w' = l).
Proof.
  intros Hm H l. unfold appendBatch in H. apply bind_gets_inv in H. cbv beta in H.
  rewrite bool_decide_false in H by done.
  apply bind_inv in H as [([] & w1 & H1 & H)|(e & H & ->)].
  2: { apply onDisk_inv in H as (d1 & _ & ->). right. eauto. }
  apply onDisk_inv in H1 as (d1 & _ & ->).
  apply bind_inv in H as [([] & w2 & H2 & H)|(e & H & ->)].
  2: { apply onDisk_inv in H as (d2 & _ & ->). right. eauto. }
  apply onDisk_inv in H2 as (d2 & H2 & ->). injection H as <- <-. left. split; [done|]. split; [done|].
  apply via_inv in H2 as [[_ H2]|(_ & [=] & _)]. intros fl. by apply (fsync_settles _ _ _ _ H2).
Qed.

(** An append that had to reserve numbers has synced the directory. *)
Lemma AppendBatchAsync_settles ps w a w' :
  ps ≠ [] → reserved (lg w) < u64 (nextLSN (lg w) + len ps - 1) → broken (lg w) = false →
  AppendBatchAsync ps w = (Ok a, w') → Disk.stale (Disk.img (dk w')) = ∅.
Proof.
  intros Hps Hlt Hb H. unfold AppendBatchAsync in H. destruct ps as [|p ps0]; [done|].
  apply bind_gets_inv in H. cbv beta in H. case_if; [done|].
  apply bind_inv in H as [([[first r] force] & w1 & H & E)|(e & _ & [=])]. injection E as _ <-.
  unfold stage in H. apply bind_gets_inv in H. cbv beta in H. case_if; [done|]. rewrite Hb in H.
  rewrite (proj2 (Z.ltb_lt _ _) Hlt) in H. cbv zeta in H.
  apply bind_inv in H as [([] & w2 & H2 & H)|(e & _ & [=])].
  assert (Hw : dk w1 = dk w2) by (by injection H as _ _ _ <-). rewrite Hw. clear H Hw.
  apply bind_inv in H2 as [([] & w3 & H3 & H2)|(e & _ & [=])]. injection H2 as <-. simpl.
  apply wrapping_inv in H3 as [([] & H3 & _)|(? & _ & [=])]. apply onDisk_inv in H3 as (d & H3 & ->).
  by apply replaceFile_settles in H3.
Qed.

(** ** Along the steps of the log *)

(** Every segment with records that reaches beyond [F] and beyond what may be truncated is
    secured up to its published size, and the name of the active one is settled
    before anything goes into it. *)
Record shielded (F : Z) (s : sys) : Prop := {
  sh_mode : syncMode (opts (log_of s)) ≠ SyncNever;
  sh_name : secured (path (active (log_of s))) [] (Disk.img (dk (sw s))) ∨
            staged s = [] ∧ reserved (log_of s) = nextLSN (log_of s) - 1;
  sh_segs : ∀ t, t ∈ segs (log_of s) → 0 < count t → F < baseLSN t + count t → upto s < baseLSN t + count t →
    ∃ c, len c = size t ∧ secured (path t) c (Disk.img (dk (sw s)))
}.

Lemma step_upto s s' : step s s' → upto s <= upto s'.
Proof. destruct 1 as [? ? Hr| |]; [rewrite (running_upto _ _ Hr)|..]; simpl; lia. Qed.

Section steps.
Context {init : list (Z * bytes)} {s : sys} {gs : list (list bytes)} {pa fly st : list bytes}
  {junk : bytes} {h : handle} {flown : list bytes} {old : list (nat * (Z * bytes))}.
Context (G : good init s gs pa fly st junk h flown old).
Local Abbreviation l := (log_of s).
Local Abbreviation C := (i_core _ _ _ _ _ _ _ _ _ _ G).

Lemma seg_in_rep t : t ∈ segs l → ∃ ps j, seg_rep (Disk.view (dk (sw s))) (maxRecordBytes (opts l)) j t ps.
Proof using G.
  intros [Ht| ->%list_elem_of_singleton]%elem_of_app; [|by eexists _, _; apply C].
  apply list_elem_of_lookup in Ht as [i Hi].
  destruct (Forall2_lookup_l _ _ _ _ _ (c_sealed _ _ _ _ _ _ _ C) Hi) as (ps & _ & Hr). eauto.
Qed.

Lemma segs_path_inj t t' : t ∈ segs l → t' ∈ segs l → path t = path t' → t = t'.
Proof using G.
  intros Ht Ht' E. destruct (seg_in_rep t Ht) as (ps & j & Hr), (seg_in_rep t' Ht') as (ps' & j' & Hr').
  apply (linked_inj _ _ _ (c_linked _ _ _ _ _ _ _ C) Ht Ht').
  destruct (decide (baseLSN t = baseLSN t')) as [|Hne]; [done|]. by destruct (rep_path_ne _ _ _ _ _ _ _ _ Hr Hr' Hne).
Qed.

Lemma seg_not_mark t name : t ∈ segs l → length name ≠ 45%nat → name ≠ path t.
Proof using G.
  intros Ht Hn ->. destruct (seg_in_rep t Ht) as (ps & j & Hr). apply Hn.
  rewrite (rep_path _ _ _ _ _ Hr). apply length_segmentName.
Qed.

Lemma seg_end t : t ∈ segs l → lastLSN t = baseLSN t + count t - 1.
Proof using G.
  intros Ht. destruct (seg_in_rep t Ht) as (ps & j & Hr).
  by rewrite (rep_lastLSN _ _ _ _ _ Hr), (rep_count _ _ _ _ _ Hr).
Qed.

(** What is secured of a segment that is not to be truncated stays secured, at
    every moment of the step. *)
Lemma step_holds t c s' :
  t ∈ segs l → len c <= size t → t = active l ∨ upto s' < baseLSN t + count t → step s s' →
  holding (secured (path t) c) (dk (sw s)) (dk (sw s')).
Proof using G.
  intros Ht Hc Hu Hstep. set (R := holding (secured (path t) c)).
  assert (Sp : Sparing (path t) R) by apply _. pose proof (λ name, seg_not_mark t name Ht) as Hmark.
  pose proof (λ x, segs_path_inj x t) as Hinj. pose proof (seg_end t Ht) as Hend.
  assert (Hown : path (active l) = path t → len c <= size (active l)).
  { intros E. apply Hinj in E as <-; [done | apply core_active_in | done]. }
  destruct Hstep as [s s' Hrun|s u r w' H|s m r d' Hm H]; simpl.
  - refine (running_spares _ R _ _ _ _ _ _ Hrun); [| | apply secured_write | by apply secured_truncate].
    { intros ps r w'. apply (sp_AppendBatchAsync (path t) R ps); by apply Hmark. }
    intros j Hp Em. apply not_eq_sym.
    pose proof (i_job _ _ _ _ _ _ _ _ _ _ G) as J. pose proof (i_clean _ _ _ _ _ _ _ _ _ _ G) as Hcl.
    rewrite Hp in J, Hcl. destruct (Hcl I) as [Hj _]. destruct (j_where _ _ _ _ _ _ J) as [Hfly Hfirst].
    pose proof (c_next _ _ _ _ _ _ _ C). pose proof (c_bound _ _ _ _ _ _ _ C).
    pose proof (rep_base _ _ _ _ _ (c_active _ _ _ _ _ _ _ C)).
    pose proof (len_nonneg st). pose proof (len_nonneg fly). pose proof (len_nonneg pa). unfold log_of in *.
    replace (jfirst j -u 1) with (jfirst j - 1) by (unfold maxU64 in *; ulia).
    apply (next_name_fresh C); [done | | done | lia | right; eauto].
    intros E. unfold mustRotate in Em. bools. rewrite (rep_size _ _ _ _ _ (c_active _ _ _ _ _ _ _ C)), E in *.
    by change (len (frames [])) with 0 in *.
  - apply (sp_Truncate (path t) R) in H; [done|]. apply Forall_forall. intros x Hx E.
    assert (Hin : x ∈ sealed l) by (apply (elem_of_take _ _ _) in Hx as (? & ? & _); by eapply list_elem_of_lookup_2).
    assert (Hin' : x ∈ segs l) by (apply elem_of_app; by left).
    apply Hinj in E as ->; [|done|done]. destruct Hu as [->|Hu].
    + by apply (core_sealed_ne C) in Hin.
    + pose proof (doomed_ends u _ _ t (Nat.le_refl _) Hx). simpl in Hu. lia.
  - apply (sp_replaceFile (path t) R) in H; [done | by apply Hmark..].
Qed.

(** A segment of the log after the step that is one of those before it. *)
Definition carried (t' : segment) : Prop :=
  ∃ t, t ∈ segs l ∧ path t' = path t ∧ size t' = size t ∧ count t' = count t ∧ baseLSN t' = baseLSN t.

Lemma carried_in t : t ∈ segs l → carried t.
Proof using Type. by exists t. Qed.

Lemma name_holds s' : step s s' →
  secured (path (active l)) [] (Disk.img (dk (sw s))) → secured (path (active l)) [] (Disk.img (dk (sw s'))).
Proof using G.
  intros Hstep Hn. destruct (step_holds (active l) [] s') as (a & _ & K); [apply core_active_in | | by left | done | by apply K].
  unfold log_of. rewrite len_nil, (rep_size _ _ _ _ _ (c_active _ _ _ _ _ _ _ C)). apply len_nonneg.
Qed.

Lemma shielded_carry F s' :
  shielded F s → step s s' → opts (log_of s') = opts l →
  (∀ t, t ∈ segs (log_of s') → 0 < count t → F < baseLSN t + count t → upto s' < baseLSN t + count t →
     carried t ∨ ∃ c, len c = size t ∧ secured (path t) c (Disk.img (dk (sw s')))) →
  path (active (log_of s')) = path (active l) ∨ secured (path (active (log_of s'))) [] (Disk.img (dk (sw s'))) →
  (staged s = [] → reserved l = nextLSN l - 1 →
     secured (path (active (log_of s'))) [] (Disk.img (dk (sw s'))) ∨
     staged s' = [] ∧ reserved (log_of s') = nextLSN (log_of s') - 1) →
  shielded F s'.
Proof using G.
  intros [Hm Hn Hs] Hstep Ho Hcar Hact Hname. pose proof (step_upto _ _ Hstep) as Hu. split; [by rewrite Ho | |].
  - destruct Hn as [Hn|[H1 H2]]; [|by apply Hname]. left. destruct Hact as [->|]; [by apply name_holds | done].
  - intros t' Ht' Hpos HF Hu'. destruct (Hcar t' Ht' Hpos HF Hu') as [(t & Ht & Ep & Es & Ec & Eb)|]; [|done].
    rewrite Ep, Es. rewrite Ec in *. rewrite Eb in HF, Hu'. destruct (Hs t Ht Hpos HF) as (c & Hc & Hsec); [lia|]. exists c. split; [done|].
    destruct (step_holds t c s') as (a & _ & K); [done | lia | by right | done | by apply K].
Qed.

Lemma busy_staged j : job_of (ph s) = Some j → staged s ≠ [].
Proof using G.
  intros Hj E. pose proof (i_job _ _ _ _ _ _ _ _ _ _ G) as J. rewrite Hj in J.
  pose proof (i_staged _ _ _ _ _ _ _ _ _ _ G) as Hst. rewrite Hj, E in Hst.
  destruct flown as [|p ps]; [by apply (j_flown _ _ _ _ _ _ J)|]. apply (f_equal length) in Hst.
  rewrite !length_app in Hst. simpl in Hst. lia.
Qed.

(** The active segment has a name that is settled once the directory has been
    synced. *)
Lemma active_settled w gs' pa' fly' st' junk' h' :
  core w gs' pa' fly' st' junk' h' → Disk.stale (Disk.img (dk w)) = ∅ → secured (path (active (lg w))) [] (Disk.img (dk w)).
Proof.
  intros C' E. apply secured_exists; [by rewrite E, lookup_empty|]. fold (Disk.view (dk w)).
  by rewrite (rep_file _ _ _ _ _ (c_active _ _ _ _ _ _ _ C')).
Qed.

Lemma shielded_store F j r w' :
  shielded F s → ph s = Storing j →
  appendBatch (syncMode (opts l)) (buf j) (u64 (jlast j - jfirst j + 1)) (sw s) = (r, w') →
  shielded F (Sys w' (after_store j r) (staged s) (upto s)).
Proof using G.
  intros Hsh Hp H. assert (Hstep : step s (Sys w' (after_store j r) (staged s) (upto s))).
  { by apply step_running, run_store. }
  pose proof (busy_staged j) as Hbusy. rewrite Hp in Hbusy. specialize (Hbusy eq_refl).
  destruct (inv_store G j r w' Hp H) as (gs' & pa' & fly' & st' & junk' & h' & flown' & old' & G' & _).
  pose proof (shielded_carry F _ Hsh Hstep) as Hcarry. unfold log_of in *. simpl in Hcarry.
  pose proof H as H0. apply appendBatch_segs in H0; [|by apply (sh_mode _ _ Hsh)].
  destruct H0 as [(-> & El & Hsync)|(_ & El)]; rewrite El in Hcarry.
  - assert (Hname : secured (path (active (lg (sw s)))) [] (Disk.img (dk w'))).
    { destruct (sh_name _ _ Hsh) as [Hn|[Hn _]]; [|done]. by apply (name_holds _ Hstep). }
    apply Hcarry; simpl; [done | | by left | done].
    intros t [Ht| ->%list_elem_of_singleton]%elem_of_app _ _ _; [left; apply carried_in, elem_of_app; by left|].
    right. pose proof (i_core _ _ _ _ _ _ _ _ _ _ G') as C'. pose proof (c_active _ _ _ _ _ _ _ C') as Ha.
    pose proof (i_clean _ _ _ _ _ _ _ _ _ _ G' I) as [Hj _]. pose proof (rep_file _ _ _ _ _ Ha) as Hf.
    pose proof (rep_size _ _ _ _ _ Ha) as Hsz. simpl in *. rewrite El in Hf, Hsz. rewrite Hj, app_nil_r in Hf. simpl in *.
    exists (frames pa'). split; [by rewrite Hsz|]. apply secured_whole; [done | exact Hsync | exact Hf].
  - apply Hcarry; simpl; [done | intros t Ht _ _ _; left; by apply carried_in | by left | done].
Qed.

Lemma shielded_rotate F j r w' :
  shielded F s → ph s = Writing j →
  (if mustRotate l (buf j) then rotate (jfirst j) else ret tt) (sw s) = (r, w') →
  shielded F (Sys w' (after_rotate j r) (staged s) (upto s)).
Proof using G.
  intros Hsh Hp H. assert (Hstep : step s (Sys w' (after_rotate j r) (staged s) (upto s))).
  { by apply step_running, run_rotate. }
  pose proof (busy_staged j) as Hbusy. rewrite Hp in Hbusy. specialize (Hbusy eq_refl).
  pose proof (shielded_carry F _ Hsh Hstep) as Hcarry. unfold log_of in *. simpl in Hcarry.
  assert (Hold : ∀ h, carried (set_f h (active (lg (sw s))))).
  { intros h0. exists (active (lg (sw s))). split; [apply core_active_in | done]. }
  assert (Hsealed : ∀ t, t ∈ sealed (lg (sw s)) → carried t).
  { intros t Ht. apply carried_in, elem_of_app. by left. }
  destruct (mustRotate _ _); [|injection H as _ <-; apply Hcarry; [done | by eauto using carried_in | by left | done]].
  apply rotate_segs in H as [(-> & El & Hn)|(_ & h0 & El)]; rewrite El in Hcarry; simpl in Hcarry.
  - apply Hcarry; [done | | by right | done].
    intros t [Ht| ->%list_elem_of_singleton]%elem_of_app _ _ _; [left|right; by exists []].
    apply elem_of_app in Ht as [Ht| ->%list_elem_of_singleton]; [by apply Hsealed | apply Hold].
  - apply Hcarry; [done | | by left | done].
    intros t [Ht| ->%list_elem_of_singleton]%elem_of_app _ _ _; left; [by apply Hsealed | apply Hold].
Qed.

Lemma shielded_append F ps first last r w' :
  shielded F s → ps ≠ [] → room s ps → AppendBatchAsync ps (sw s) = (Ok (MkCommit first last (Some r)), w') →
  shielded F (Sys w' (ph s) (staged s ++ (pair r <$> entries first ps)) (upto s)).
Proof using G.
  intros Hsh Hps Hroom H.
  assert (Hstep : step s (Sys w' (ph s) (staged s ++ (pair r <$> entries first ps)) (upto s))).
  { by eapply step_running, run_append. }
  pose proof (shielded_carry F _ Hsh Hstep) as Hcarry. pose proof (failErr_set G) as Hbr. unfold room, log_of in *.
  pose proof H as H0. pose proof C as C0. pose proof (c_next _ _ _ _ _ _ _ C0). pose proof (c_bound _ _ _ _ _ _ _ C0).
  apply (AppendBatchAsync_spec _ _ _ _ _ _ _ _ _ _ C Hbr Hps Hroom) in H
    as [(want & _ & _ & Hb & Hl & C')|(? & [=] & _)]. simpl in Hcarry. rewrite Hl in Hcarry.
  apply Hcarry; simpl; [done | by eauto using carried_in | by left |].
  intros _ Hres. left. pose proof (active_settled _ _ _ _ _ _ _ C') as Hset. rewrite Hl in Hset. apply Hset.
  eapply AppendBatchAsync_settles; [exact Hps | | exact Hb | exact H0].
  pose proof (len_pos ps Hps). pose proof (rep_base _ _ _ _ _ (c_active _ _ _ _ _ _ _ C0)).
  pose proof (len_nonneg pa). pose proof (len_nonneg fly). pose proof (len_nonneg st).
  assert (reserveBlock = 1048576) by done. unfold maxU64 in *. rewrite Hres. ulia.
Qed.

Lemma shielded_same F s' :
  shielded F s → step s s' → opts (log_of s') = opts l → segs (log_of s') = segs l → active (log_of s') = active l →
  (staged s = [] → staged s' = [] ∧ reserved (log_of s') = reserved l ∧ nextLSN (log_of s') = nextLSN l) → shielded F s'.
Proof using G.
  intros Hsh Hstep Ho Hs Ha Hn. apply shielded_carry; [done | done | done | | rewrite Ha; by left |].
  - intros t Ht _ _ _. left. rewrite Hs in Ht. by apply carried_in.
  - intros E Hr. right. destruct (Hn E) as (-> & -> & ->). done.
Qed.
End steps.

Lemma shielded_step F init s s' : inv init s → shielded F s → step s s' → shielded F s'.
Proof.
  intros (gs & pa & fly & st & junk & h & flown & old & G) Hsh Hstep. pose proof Hstep as Hst.
  pose proof (failErr_set G) as Hbr. pose proof (i_core _ _ _ _ _ _ _ _ _ _ G) as C.
  pose proof (busy_staged G) as Hbusy. pose proof (shielded_same G F s' Hsh Hst) as Hsame.
  destruct Hstep as [? ? [s ps first last r w' Hps Hroom H|s ps e w' Hroom H|s j l' Hp H|s j r w' Hp H
    |s j r w' Hp H|s j e r w' Hp H|s j e rb Hp|s]|s u r w' H|s m r d' Hm H]; unfold log_of in *; simpl in Hsame.
  - by eapply (shielded_append G).
  - destruct (decide (ps = [])) as [->|Hps]; [done|].
    apply (AppendBatchAsync_spec _ _ _ _ _ _ _ _ _ _ C Hbr Hps Hroom) in H as [(? & [=] & _)|(e' & _ & Hl & C')].
    rewrite Hl in Hsame. by apply Hsame.
  - unfold commitBegin, log_of in H. destruct (_ || _); [done|].
    apply Some_inj, (f_equal snd) in H. simpl in H. subst l'. by apply Hsame.
  - by eapply (shielded_rotate G).
  - by eapply (shielded_store G).
  - assert (El : lg w' = lg (sw s)) by by apply rollback_log in H. rewrite El in Hsame. by apply Hsame.
  - apply Hsame; [by destruct e..|]. intros Es. by destruct (Hbusy j); [rewrite Hp|].
  - by apply Hsame.
  - destruct (Truncate_spec _ _ _ _ _ _ _ _ _ _ C H) as (k & Hk & Hs & (k' & first & E) & _).
    apply (shielded_carry G); unfold log_of; simpl; rewrite ?E; simpl; try done; [|by left|by right].
    intros t [Ht|Ht]%elem_of_app _ _; left; apply carried_in; apply elem_of_app; [left|by right].
    rewrite <- (take_drop k'). apply elem_of_app. by right.
  - by apply Hsame.
Qed.

(** ** Runs *)

(** A log as it was opened: the mode syncs, the name of the active segment is
    settled or the first append will have to reserve numbers, and the segments
    that reach beyond [F] are secured.  With [F] the next number nothing is asked
    of the segments. *)
Definition settled (F : Z) (w0 : world) : Prop := shielded F (Sys w0 Idle [] 0).

Lemma settled_as_opened w0 gs0 pa0 :
  fresh w0 gs0 pa0 → syncMode (opts (lg w0)) ≠ SyncNever → reserved (lg w0) = nextLSN (lg w0) - 1 →
  settled (nextLSN (lg w0)) w0.
Proof.
  intros F Hm Hr. destruct (inv_init _ _ _ F) as (gs & pa & fly & st & junk & h & flown & old & G).
  split; [done | by right|]. simpl. intros t Ht _ HF _. exfalso.
  pose proof (fr_core _ _ _ F) as C. pose proof (c_next _ _ _ _ _ _ _ C) as Hn. rewrite !len_nil in Hn.
  pose proof (len_nonneg pa0). unfold log_of in *. simpl in *.
  apply elem_of_app in Ht as [Ht| ->%list_elem_of_singleton].
  - apply list_elem_of_lookup in Ht as [i Hi]. pose proof (core_length C) as Hlen.
    destruct (Forall2_lookup_l _ _ _ _ _ (c_sealed _ _ _ _ _ _ _ C) Hi) as (ps & Hps & Hr').
    destruct (sealed_below C t ps) as (_ & ? & _); [|rewrite (rep_count _ _ _ _ _ Hr') in HF; lia].
    apply elem_of_lookup_zip_with. by exists i, t, ps.
  - rewrite (rep_count _ _ _ _ _ (c_active _ _ _ _ _ _ _ C)) in HF. lia.
Qed.

Lemma reachable_shielded F w0 gs0 pa0 s : fresh w0 gs0 pa0 → settled F w0 → reachable w0 s → shielded F s.
Proof.
  intros Fr Hs. induction 1 as [|s s' R IH Hstep]; [done|].
  eapply shielded_step; [by eapply reachable_inv | done | done].
Qed.

(** What is handed out in a run is numbered from where the log was opened. *)
Lemma staged_from w0 gs0 pa0 s : fresh w0 gs0 pa0 → reachable w0 s →
  nextLSN (lg w0) <= frontier (log_of s) ∧ Forall (λ x, nextLSN (lg w0) <= x.2.1) (staged s).
Proof.
  intros Fr. induction 1 as [|s s' R [IH1 IH2] Hstep].
  { split; [|constructor]. pose proof (fr_core _ _ _ Fr) as C. pose proof (c_next _ _ _ _ _ _ _ C) as Hn.
    unfold frontier, log_of. simpl. rewrite (rep_count _ _ _ _ _ (c_active _ _ _ _ _ _ _ C)). rewrite !len_nil in Hn. lia. }
  destruct (reachable_inv _ _ _ _ Fr R) as (gs & pa & fly & st & junk & h & flown & old & G).
  pose proof (frontier_step G s' Hstep). split; [lia|].
  destruct Hstep as [? ? [s ps first last r w' Hps Hroom H0|s ps e w' Hroom H0|s j l' Hp H0|s j r w' Hp H0
    |s j r w' Hp H0|s j e r w' Hp H0|s j e rb Hp|s]|s u r w' H0|s m r d' Hm H0]; try done. simpl.
  apply Forall_app. split; [done|]. apply Forall_fmap, Forall_forall. intros e He%entries_lsn. simpl.
  pose proof (i_core _ _ _ _ _ _ _ _ _ _ G) as C. pose proof (c_next _ _ _ _ _ _ _ C) as Hn. unfold frontier, log_of, room in *.
  rewrite (rep_count _ _ _ _ _ (c_active _ _ _ _ _ _ _ C)) in IH1. pose proof (len_nonneg fly). pose proof (len_nonneg st).
  apply (AppendBatchAsync_spec _ _ _ _ _ _ _ _ _ _ C (failErr_set G) Hps Hroom) in H0 as [(want & [= -> _ _] & _)|(? & [=] & _)]. lia.
Qed.

(** ** Marks *)

(** Whichever version of a mark file a loss of power leaves reads as a mark of
    which [P] holds. *)
Definition marked (name : bytes) (P : Z → Prop) : Disk.image → Prop :=
  MarkFiles.guarded name (λ b, ∃ m, MarkFiles.markOf b = Some m ∧ P m).

#[global] Instance marked_sparing name P : Sparing name (holding (marked name P)).
Proof.
  apply guarding_sparing.
  - intros fl bs H b [->|Hb]%elem_of_cons; [|apply H; by right]. simpl. split; [done|].
    apply (H (Some fl)). left.
  - intros b bs H b' ->%list_elem_of_singleton. apply H. left.
Qed.

Lemma marked_mono name (P Q : Z → Prop) i : (∀ m, P m → Q m) → marked name P i → marked name Q i.
Proof.
  intros HPQ H b Hb. specialize (H b Hb). destruct b as [fl|].
  - destruct H as (E & m & Hm & Hle). split; [done|]. exists m. auto.
  - destruct H as (m & Hm & Hle). exists m. auto.
Qed.

Lemma marked_survives name P i m : marked name P i → Disk.power_loss i m → ∃ k, MarkFiles.markIn m name = Some k ∧ P k.
Proof. intros H Hl. destruct (MarkFiles.guarded_power_loss _ _ _ _ H Hl) as (k & Hk & HP). exists k. by split. Qed.

(** Writing another such mark; once it is written, it is the only one. *)
Lemma replaceFile_marked name k P d r d' :
  is_u64 k → P k → MarkFiles.replaceFile name (Text.show k ++ MarkFiles.newline) d = (r, d') →
  holding (marked name P) d d' ∧ (r = Ok tt → marked name (eq k) (Disk.img d')).
Proof.
  intros Hu Hk H. set (data := Text.show k ++ MarkFiles.newline).
  assert (Hparse : MarkFiles.markOf (Some data) = Some k) by by apply MarkFiles.parseMark_show.
  assert (Hok : ∃ m, MarkFiles.markOf (Some data) = Some m ∧ P m) by by exists k.
  pose proof (MarkFiles.replaceFile_guarded name data (λ b, ∃ m, MarkFiles.markOf b = Some m ∧ P m) Hok d r d') as K.
  destruct (MarkFiles.replaceFile_triple name data (λ _, True)) with (d := d) (r := r) (d' := d')
    as [[_ Hend] (added & Ea & _)]; try done. split.
  - exists added. split; [done|]. intros Hi.
    destruct (K Hi H) as [[Hi' _] (added' & Ea' & Hall)]. rewrite Ea in Ea'. apply app_inv_head in Ea' as ->. done.
  - intros Er b Hb. destruct (Hend Er) as [Hf Hst]. unfold Disk.bindings in Hb. rewrite Hst, lookup_empty, Hf in Hb.
    apply list_elem_of_singleton in Hb as ->. split; [done|]. by exists k.
Qed.

(** *** The reservation *)

(** Whatever comes back of RESERVED covers what the log has reserved. *)
Definition spends (k : Z) : Disk.image → Prop := marked MarkFiles.reservedName (Z.le k).

Lemma AppendBatchAsync_spends ps w r w' : AppendBatchAsync ps w = (r, w') →
  holding (spends (reserved (lg w))) (dk w) (dk w') ∧
  (spends (reserved (lg w)) (Disk.img (dk w)) → spends (reserved (lg w')) (Disk.img (dk w'))).
Proof.
  intros H. assert (Hrefl : ∀ l, reserved l = reserved (lg w) → holding (spends (reserved (lg w))) (dk w) (dk w) ∧
    (spends (reserved (lg w)) (Disk.img (dk w)) → spends (reserved l) (Disk.img (dk w)))).
  { intros l ->. split; [reflexivity | done]. }
  unfold AppendBatchAsync in H. destruct ps as [|p ps]; [injection H as _ <-; by apply Hrefl|].
  apply bind_gets_inv in H. cbv beta in H. destruct (existsb _ _); [injection H as _ <-; by apply Hrefl|].
  assert (Hs : ∀ enc n r1 w1, stage enc n w = (r1, w1) → holding (spends (reserved (lg w))) (dk w) (dk w1) ∧
    (spends (reserved (lg w)) (Disk.img (dk w)) → spends (reserved (lg w1)) (Disk.img (dk w1)))).
  { clear H. intros enc n r1 w1 H. unfold stage in H. apply bind_gets_inv in H. cbv beta in H.
    destruct (closed (lg w)); [injection H as _ <-; by apply Hrefl|].
    destruct (broken (lg w)); [destruct (failErr (lg w)); injection H as _ <-; by apply Hrefl|]. cbv zeta in H.
    destruct (Z.ltb_spec (reserved (lg w)) (u64 (nextLSN (lg w) + n - 1))) as [Hlt|Hge];
      [|injection H as _ <-; by apply (Hrefl (place enc n (lg w)))].
    set (want := Z.max _ _) in H. assert (Hu : is_u64 want).
    { unfold want. pose proof (u64_range (nextLSN (lg w) + n - 1)). pose proof (u64_range (nextLSN (lg w) + reserveBlock - 1)).
      unfold is_u64 in *. lia. }
    assert (Hwant : reserved (lg w) <= want) by (unfold want; lia).
    apply bind_inv in H as [([] & w2 & H2 & H)|(e & H & _)].
    - apply bind_inv in H2 as [([] & w3 & H3 & H2)|(e & _ & [=])].
      apply wrapping_inv in H3 as [([] & H3 & _)|(? & _ & [=])]. apply onDisk_inv in H3 as (d & H3 & ->).
      injection H2 as <-. injection H as _ <-. destruct (replaceFile_marked _ _ _ _ _ _ Hu Hwant H3) as [Hh Hend].
      split; [exact Hh|]. intros _. simpl. specialize (Hend eq_refl). eapply marked_mono; [|exact Hend]. intros m <-. done.
    - apply bind_inv in H as [([] & w3 & H3 & [=])|(e' & H & _)].
      apply wrapping_inv in H as [(? & _ & [=])|(? & H & _)]. apply onDisk_inv in H as (d & H & ->).
      destruct (replaceFile_marked _ _ _ _ _ _ Hu Hwant H) as [Hh _]. split; [exact Hh|]. destruct Hh as (a & _ & K). by apply K. }
  apply bind_inv in H as [([[first r1] force] & w1 & H1 & H)|(e & H & _)]; [injection H as _ <-; by eapply Hs | by eapply Hs].
Qed.

Lemma step_spends init s s' : inv init s → step s s' →
  holding (spends (reserved (log_of s))) (dk (sw s)) (dk (sw s')) ∧
  (spends (reserved (log_of s)) (Disk.img (dk (sw s))) → spends (reserved (log_of s')) (Disk.img (dk (sw s')))).
Proof.
  intros (gs & pa & fly & st & junk & h & flown & old & G) Hstep. set (R := holding (spends (reserved (log_of s)))).
  pose proof (i_core _ _ _ _ _ _ _ _ _ _ G) as C. assert (Sp : Sparing MarkFiles.reservedName R) by apply _.
  assert (Hseg : ∀ t, t ∈ segs (log_of s) → path t ≠ MarkFiles.reservedName).
  { intros t Ht. apply not_eq_sym, (seg_not_mark G t _ Ht). by vm_compute. }
  assert (Hkeep : R (dk (sw s)) (dk (sw s'))).
  { destruct Hstep as [s s' Hrun|s u r w' H|s m r d' Hm H]; simpl.
    - refine (running_spares _ R _ _ _ _ _ _ Hrun).
      + intros ps r w' H. by apply AppendBatchAsync_spends in H as [H _].
      + intros j _ _ E. apply (f_equal length) in E. by rewrite length_segmentName in E.
      + intros b. apply sp_write, Hseg, core_active_in.
      + apply sp_truncate, Hseg, core_active_in.
    - apply (sp_Truncate MarkFiles.reservedName R) in H; [exact H|]. apply Forall_forall. intros t (i & Hi & _)%elem_of_take.
      apply Hseg, elem_of_app. left. by eapply list_elem_of_lookup_2.
    - refine (sp_replaceFile MarkFiles.reservedName R _ _ _ _ _ _ _ H); by vm_compute. }
  split; [exact Hkeep|]. destruct Hkeep as (added & _ & K). intros Hi. destruct (K Hi) as [Hend _]. unfold log_of in *.
  destruct Hstep as [? ? [s ps first last r w' Hps Hroom H|s ps e w' Hroom H|s j l' Hp H|s j r w' Hp H
    |s j r w' Hp H|s j e r w' Hp H|s j e rb Hp|s]|s u r w' H|s m r d' Hm H]; simpl in *.
  1, 2: apply AppendBatchAsync_spends in H as [_ H]; by apply H.
  all: match goal with |- spends ?k _ => assert (E : k = reserved (lg (sw s))); [|by rewrite E] end.
  - unfold commitBegin in H. case_if; [done|]. apply Some_inj, (f_equal snd) in H. simpl in H. by subst l'.
  - destruct (mustRotate _ _); [|by injection H as _ <-]. by destruct (rotate_log _ _ _ _ H) as (ss & a & ->).
  - by destruct (appendBatch_log _ _ _ _ _ _ H) as (ss & a & ->).
  - by rewrite (rollback_log _ _ _ H).
  - by destruct e.
  - done.
  - by destruct (Truncate_spec _ _ _ _ _ _ _ _ _ _ C H) as (k & _ & _ & (k' & first & ->) & _).
  - done.
Qed.

Lemma reachable_spends w0 gs0 pa0 s : fresh w0 gs0 pa0 → spends (reserved (lg w0)) (Disk.img (dk w0)) → reachable w0 s →
  spends (reserved (log_of s)) (Disk.img (dk (sw s))).
Proof.
  intros Fr Hs. induction 1 as [|s s' R IH Hstep]; [done|].
  destruct (step_spends _ _ _ (reachable_inv _ _ _ _ Fr R) Hstep) as [_ K]. by apply K.
Qed.

(** The images a step goes through, the one it starts from included. *)
Definition moment (s s' : sys) (i : Disk.image) : Prop :=
  i = Disk.img (dk (sw s)) ∨
  ∃ added, Disk.trail (dk (sw s')) = Disk.trail (dk (sw s)) ++ added ∧ i ∈ added.

(** The file of a directory that begins with the frames of [ps], numbered from
    [b], holds the record. *)
Definition in_file (v : gmap bytes bytes) (max b p : Z) (ps : list bytes) (e : Z * bytes) : Prop :=
  is_u64 b ∧ is_u64 p ∧ Forall (payload_ok max) ps ∧ e ∈ entries b ps ∧
  ∃ rest, v !! segmentName b p = Some (frames ps ++ rest).

Lemma prefix_same_len (a b c : bytes) : a `prefix_of` c → b `prefix_of` c → len a = len b → a = b.
Proof.
  intros [x ->] [y E] Hl. unfold len in Hl. apply (f_equal (take (length a))) in E.
  rewrite take_app_length in E. replace (length a) with (length b) in E by lia. by rewrite take_app_length in E.
Qed.

Lemma shielded_survives init F s s' i m e gs pa fly st junk h flown old :
  good init s gs pa fly st junk h flown old → shielded F s → step s s' → moment s s' i → Disk.power_loss i m →
  e ∈ all_records (log_of s) gs pa → F <= e.1 → upto s' <= e.1 →
  ∃ b p ps, in_file m (maxRecordBytes (opts (log_of s))) b p ps e.
Proof.
  intros G Hsh Hstep Hm Hl He HF Hu. pose proof (step_upto _ _ Hstep) as Hup.
  pose proof (i_core _ _ _ _ _ _ _ _ _ _ G) as C. unfold log_of in *.
  assert (Ht : ∃ t ps j, t ∈ segs (lg (sw s)) ∧ seg_rep (Disk.view (dk (sw s))) (maxRecordBytes (opts (lg (sw s)))) j t ps ∧
                 e ∈ entries (baseLSN t) ps).
  { apply (book_records C) in He as (t & ps & Hin & He). destruct (book_rep C t ps Hin) as (Ht & j & Hr). eauto 6. }
  destruct Ht as (t & ps & j & Ht & Hr & He'). pose proof (entries_lsn _ _ _ He') as Hlsn.
  rewrite <- (rep_count _ _ _ _ _ Hr) in Hlsn. destruct (sh_segs _ _ Hsh t Ht) as (c & Hc & Hsec); [lia..|].
  assert (Ec : c = frames ps).
  { destruct (secured_cur _ _ _ Hsec) as (fl & Hf & Hpre). pose proof (rep_file _ _ _ _ _ Hr) as Hfile.
    rewrite Disk.view_lookup, Hf in Hfile. injection Hfile as E.
    apply (prefix_same_len _ _ (Disk.cur fl)); [done | rewrite E; by apply prefix_app_r | by rewrite Hc, (rep_size _ _ _ _ _ Hr)]. }
  subst c. destruct (step_holds G t (frames ps) s') as (added & Etr & K); [done | lia | right; lia | done |].
  destruct (K Hsec) as [_ Hall].
  assert (Hi : secured (path t) (frames ps) i).
  { destruct Hm as [->|(added' & E & Hin)]; [done|]. rewrite E in Etr. apply app_inv_head in Etr as ->.
    rewrite Forall_forall in Hall. by apply Hall. }
  destruct (secured_survives _ _ _ _ Hi Hl) as [rest Hrest]. destruct (rep_is_u64 _ _ _ _ _ Hr) as [Hb Hp].
  exists (baseLSN t), (prevEnd t), ps. rewrite (rep_path _ _ _ _ _ Hr) in Hrest.
  split; [done|]. split; [done|]. split; [apply (rep_payloads _ _ _ _ _ Hr)|]. eauto.
Qed.


(** What a step holds, it holds at each of its moments. *)
Lemma moment_holds P s s' i : holding P (dk (sw s)) (dk (sw s')) → P (Disk.img (dk (sw s))) → moment s s' i → P i.
Proof.
  intros (added & E & K) Hi [->|(added' & E' & Hin)]; [done|]. rewrite E in E'. apply app_inv_head in E' as ->.
  destruct (K Hi) as [_ Hall]. rewrite Forall_forall in Hall. by apply Hall.
Qed.

Lemma reservation_survives w0 gs0 pa0 s s' i m :
  fresh w0 gs0 pa0 → spends (reserved (lg w0)) (Disk.img (dk w0)) → reachable w0 s → step s s' →
  moment s s' i → Disk.power_loss i m →
  ∃ k, MarkFiles.markIn m MarkFiles.reservedName = Some k ∧ reserved (log_of s) <= k.
Proof.
  intros F Hsp R Hstep Hi Hl. eapply marked_survives; [|exact Hl].
  eapply moment_holds; [apply (step_spends _ _ _ (reachable_inv _ _ _ _ F R) Hstep) | by eapply reachable_spends | exact Hi].
Qed.
End Durable.
