(* ===== verification/Replay.v ===== *)
(** * A step that is cut short (src/internal/wal)

    A process can die at any call of any operation.  What it leaves then is
    also what the operation leaves when it lives, with the same calls succeeding
    and failing up to that point and every later call failing without an effect:
    so a statement about the end of every step, whatever calls fail, is one about
    its every moment.  [cuttable] says this of a program; it holds of the disk's
    calls, composes along programs, and so holds of every step of the log. *)

From S2P Require Import Prelude Errors Disk Segment MarkFiles Log LogInv Frame LogSteps Durable.
Local Open Scope Z_scope.
Local Open Scope go_scope.

Module Replay.
Import Segment Log LogInv LogSteps Durable.

(** The answer to a call the process did not live to make. *)
Definition stop : Disk.fault := Disk.Trip (Sentinel EIO) 0.

(** The faults of a replay: those of the run, none, or [stop]. *)
Definition drawn (p used : list Disk.fault) : Prop := Forall (λ f, f = Disk.Pass ∨ f = stop ∨ f ∈ p) used.

Create HintDb cut.

Section replay.
(** States are a memory and a directory. *)
Context {S T : Type} (mk : T → Disk.disk → S).

(** The program consumes exactly these answers, whatever comes after them. *)
Definition plays {A} (m : M S A) (t : T) (i : Disk.image) (used : list Disk.fault)
    (r : result A) (t' : T) (i' : Disk.image) (added : list Disk.image) : Prop :=
  ∀ l q, m (mk t (Disk.Disk i (used ++ q) l)) = (r, mk t' (Disk.Disk i' q (l ++ added))).

(** With every call failing it leaves the directory as it is. *)
Definition inert {A} (m : M S A) : Prop :=
  ∀ t i, ∃ n r t' added, plays m t i (replicate n stop) r t' i added.

(** Some replay of it ends with the image [x]. *)
Definition reaches {A} (m : M S A) (t : T) (i : Disk.image) (p : list Disk.fault) (x : Disk.image) : Prop :=
  ∃ used r t' added, plays m t i used r t' x added ∧ drawn p used.

(** Every run can be replayed, and every image on its way is the end of a replay. *)
Definition scripted {A} (m : M S A) : Prop := ∀ t d r s', m (mk t d) = (r, s') →
  ∃ t' d' used added, s' = mk t' d' ∧ plays m t (Disk.img d) used r t' (Disk.img d') added ∧
    drawn (Disk.plan d) used ∧ (∀ f, f ∈ Disk.plan d' → f ∈ Disk.plan d) ∧
    Disk.trail d' = Disk.trail d ++ added ∧
    ∀ x, x ∈ added → reaches m t (Disk.img d) (Disk.plan d) x.

Definition cuttable {A} (m : M S A) : Prop := inert m ∧ scripted m.

Lemma drawn_stops p n : drawn p (replicate n stop).
Proof. apply Forall_replicate. auto. Qed.

Lemma drawn_app p u v : drawn p u → drawn p v → drawn p (u ++ v).
Proof. intros. by apply Forall_app. Qed.

Lemma drawn_mono p p' u : (∀ f, f ∈ p → f ∈ p') → drawn p u → drawn p' u.
Proof. intros H Hu. eapply Forall_impl; [exact Hu|]. simpl. naive_solver. Qed.

(** A program that makes no call. *)
Lemma cut_pure {A} (m : M S A) (g : T → result A * T) :
  (∀ t d, m (mk t d) = ((g t).1, mk (g t).2 d)) → cuttable m.
Proof.
  intros Hm. assert (Hp : ∀ t i, plays m t i [] (g t).1 (g t).2 i []).
  { intros t i l q. by rewrite Hm, app_nil_r. }
  split.
  - intros t i. exists 0%nat. eauto.
  - intros t d r s' H. rewrite Hm in H. injection H as <- <-. exists (g t).2, d, [], [].
    split; [done|]. split; [apply Hp|]. split; [constructor|]. split; [done|]. split; [by rewrite app_nil_r|].
    by intros x ?%not_elem_of_nil.
Qed.

Lemma cut_ret {A} (a : A) : cuttable (ret a).
Proof. by apply (cut_pure _ (λ t, (Ok a, t))). Qed.

Lemma cut_throw {A} e : cuttable (throw e : M S A).
Proof. by apply (cut_pure _ (λ t, (Fail e, t))). Qed.

(** Of the program's own two parts the second may depend on the first. *)
Lemma plays_bind {A B} (m : M S A) (k : A → M S B) t i u1 a t1 i1 l1 u2 r t2 i2 l2 :
  plays m t i u1 (Ok a) t1 i1 l1 → plays (k a) t1 i1 u2 r t2 i2 l2 →
  plays (bind m k) t i (u1 ++ u2) r t2 i2 (l1 ++ l2).
Proof. intros H1 H2 l q. unfold bind. by rewrite <- app_assoc, H1, H2, app_assoc. Qed.

Lemma plays_bind_fail {A B} (m : M S A) (k : A → M S B) t i u e t1 i1 l :
  plays m t i u (Fail e) t1 i1 l → plays (bind m k) t i u (Fail e) t1 i1 l.
Proof. intros H l' q. unfold bind. by rewrite H. Qed.

Lemma inert_bind {A B} (m : M S A) (k : A → M S B) : inert m → (∀ a, inert (k a)) → inert (bind m k).
Proof.
  intros Hm Hk t i. destruct (Hm t i) as (n & r & t1 & l1 & H1). destruct r as [a|e].
  - destruct (Hk a t1 i) as (n2 & r & t2 & l2 & H2). exists (n + n2)%nat, r, t2, (l1 ++ l2).
    rewrite replicate_add. by eapply plays_bind.
  - exists n, (Fail e), t1, l1. by apply plays_bind_fail.
Qed.

(** Cut in its first part, the rest goes by without an effect. *)
Lemma reaches_first {A B} (m : M S A) (k : A → M S B) t i p x :
  (∀ a, inert (k a)) → reaches m t i p x → reaches (bind m k) t i p x.
Proof.
  intros Hk (u & r & t1 & l & H & Hd). destruct r as [a|e].
  - destruct (Hk a t1 x) as (n & r & t2 & l2 & H2). exists (u ++ replicate n stop), r, t2, (l ++ l2).
    split; [by eapply plays_bind|]. apply drawn_app; [done | apply drawn_stops].
  - exists u, (Fail e), t1, l. split; [by apply plays_bind_fail | done].
Qed.

Lemma cut_bind {A B} (m : M S A) (k : A → M S B) : cuttable m → (∀ a, cuttable (k a)) → cuttable (bind m k).
Proof.
  intros [Hmi Hms] Hk. assert (Hki : ∀ a, inert (k a)) by (intros a; apply Hk). split; [by apply inert_bind|].
  intros t d r s' H. apply bind_inv in H as [(a & s1 & H1 & H)|(e & H & ->)].
  - destruct (Hms _ _ _ _ H1) as (t1 & d1 & u1 & l1 & -> & P1 & D1 & Hsub1 & T1 & X1).
    destruct (proj2 (Hk a) _ _ _ _ H) as (t2 & d2 & u2 & l2 & -> & P2 & D2 & Hsub2 & T2 & X2).
    exists t2, d2, (u1 ++ u2), (l1 ++ l2). split; [done|]. split; [by eapply plays_bind|].
    split; [apply drawn_app; [done | by eapply drawn_mono]|]. split; [auto|].
    split; [by rewrite T2, T1, app_assoc|]. intros x [Hx|Hx]%elem_of_app.
    + apply reaches_first; [done | by apply X1].
    + destruct (X2 x Hx) as (u & r' & t3 & l3 & P3 & D3). exists (u1 ++ u), r', t3, (l1 ++ l3).
      split; [by eapply plays_bind|]. apply drawn_app; [done | by eapply drawn_mono].
  - destruct (Hms _ _ _ _ H) as (t1 & d1 & u1 & l1 & -> & P1 & D1 & Hsub1 & T1 & X1).
    exists t1, d1, u1, l1. split; [done|]. split; [by apply plays_bind_fail|]. split; [done|]. split; [done|].
    split; [done|]. intros x Hx. apply reaches_first; [done | by apply X1].
Qed.

(** A program that answers differently and does the same. *)
Lemma cut_map {A B} (m : M S A) (m' : M S B) (g : result A → result B) :
  (∀ s, m' s = (g (m s).1, (m s).2)) → cuttable m → cuttable m'.
Proof.
  intros E [Hi Hs].
  assert (Hp : ∀ t i u r t' i' l, plays m t i u r t' i' l → plays m' t i u (g r) t' i' l).
  { intros t i u r t' i' l H l' q. by rewrite E, H. }
  split.
  - intros t i. destruct (Hi t i) as (n & r & t' & l & H). exists n, (g r), t', l. by apply Hp.
  - intros t d r s' H. rewrite E in H. destruct (m (mk t d)) as [r0 s0] eqn:E0. injection H as <- <-.
    destruct (Hs _ _ _ _ E0) as (t1 & d1 & u1 & l1 & -> & P1 & D1 & Hsub1 & T1 & X1).
    exists t1, d1, u1, l1. split; [done|]. split; [by apply Hp|]. split; [done|]. split; [done|]. split; [done|].
    intros x Hx. destruct (X1 x Hx) as (u & r & t2 & l2 & P2 & D2). exists u, (g r), t2, l2. split; [by apply Hp | done].
Qed.

Lemma cut_try {A} (m : M S A) : cuttable m → cuttable (try m).
Proof. apply (cut_map m (try m) Ok). intros s. unfold try. by destruct (m s). Qed.

Lemma cut_wrapping {A} w (m : M S A) : cuttable m → cuttable (wrapping w m).
Proof.
  apply (cut_map m (wrapping w m) (λ r, match r with Ok a => Ok a | Fail e => Fail (w e) end)).
  intros s. unfold wrapping. by destruct (m s) as [[a|e] s'].
Qed.

(** A cleanup is a continuation that forgets its own answer. *)
Lemma cut_on_error {A} (m : M S A) c : cuttable m → cuttable c → cuttable (on_error m c).
Proof.
  intros Hm Hc.
  set (k := λ r : result A, match r with
            | Ok a => ret (Ok a)
            | Fail e => _ <- try c ;; ret (Fail e)
            end).
  apply (cut_map (bind (try m) k) (on_error m c) (λ r, match r with Ok r' => r' | Fail e => Fail e end)).
  - intros s. unfold on_error, bind, try, k. destruct (m s) as [[a|e] s1]; [done|].
    unfold bind, try. by destruct (c s1).
  - apply cut_bind; [by apply cut_try|]. intros [a|e]; [apply cut_ret|].
    apply cut_bind; [by apply cut_try | intros ?; apply cut_ret].
Qed.
End replay.

(** The state is the directory alone, or the log with it. *)
Definition alone (_ : unit) (d : Disk.disk) : Disk.disk := d.
Abbreviation cut_disk := (cuttable alone).
Abbreviation cut_world := (cuttable World).

#[export] Hint Resolve cut_ret cut_throw cut_bind cut_try cut_wrapping cut_on_error : cut.

(** A program all of whose calls are known to be cuttable. *)
Ltac cuts :=
  repeat lazymatch goal with
  | |- ∀ _, _ => intro
  | |- cuttable _ (bind _ _) => apply cut_bind
  | |- cuttable _ (try _) => apply cut_try
  | |- cuttable _ (wrapping _ _) => apply cut_wrapping
  | |- cuttable _ (on_error _ _) => apply cut_on_error
  | |- cuttable _ (if ?b then _ else _) => destruct b
  | |- cuttable _ (match ?x with _ => _ end) => destruct x
  end; eauto with cut.

(** ** The calls *)

Section calls.
Implicit Types (n a b : bytes).

Lemma cut_call {A} (ok : Disk.image → result (A * Disk.image)) bad :
  (∀ i, bad 0%nat i = i) → cut_disk (Disk.call ok bad).
Proof.
  intros Hb. split.
  - intros t i. exists 1%nat, (Fail (Sentinel EIO)), t, [i]. intros l q.
    unfold Disk.call, alone. simpl. by rewrite Hb.
  - intros t d r d' H. unfold alone in *.
    assert (Hend : ∀ f, (f = Disk.Pass ∨ f ∈ Disk.plan d) →
      plays alone (Disk.call ok bad) t (Disk.img d) [f] r t (Disk.img d') [Disk.img d'] →
      (∀ f, f ∈ Disk.plan d' → f ∈ Disk.plan d) → Disk.trail d' = Disk.trail d ++ [Disk.img d'] →
      ∃ t' d'0 used added, d' = alone t' d'0 ∧ plays alone (Disk.call ok bad) t (Disk.img d) used r t' (Disk.img d'0) added ∧
        drawn (Disk.plan d) used ∧ (∀ f, f ∈ Disk.plan d'0 → f ∈ Disk.plan d) ∧
        Disk.trail d'0 = Disk.trail d ++ added ∧
        ∀ x, x ∈ added → reaches alone (Disk.call ok bad) t (Disk.img d) (Disk.plan d) x).
    { intros f Hf Hp Hsub Ht. exists t, d', [f], [Disk.img d']. split; [done|]. split; [done|].
      assert (Hd : drawn (Disk.plan d) [f]) by (constructor; [naive_solver | constructor]).
      split; [done|]. split; [done|]. split; [done|]. intros x ->%list_elem_of_singleton. by exists [f], r, t, [Disk.img d']. }
    unfold Disk.call in H. destruct (Disk.plan d) as [|[|e k] p] eqn:Ep.
    + apply (Hend Disk.Pass); [by left|..]; unfold plays, Disk.call, alone; simpl;
        destruct (ok (Disk.img d)) as [[x i]|e]; injection H as <- <-; done.
    + apply (Hend Disk.Pass); [by left|..]; unfold plays, Disk.call, alone; simpl;
        destruct (ok (Disk.img d)) as [[x i]|e]; injection H as <- <-; try done; simpl; intros; by right.
    + injection H as <- <-. apply (Hend (Disk.Trip e k)); [right; left|..]; try done. simpl. intros; by right.
Qed.

Lemma put_nothing n i : match Disk.files i !! n with
  | Some f => Disk.set_file n (Disk.File (Disk.cur f ++ []) (Disk.dur f)) i
  | None => i
  end = i.
Proof.
  destruct (Disk.files i !! n) as [[c d]|] eqn:E; [|done]. unfold Disk.set_file. simpl.
  rewrite app_nil_r, insert_id by done. by destruct i.
Qed.

Lemma cut_openExcl n : cut_disk (Disk.openExcl n). Proof. by apply cut_call. Qed.
Lemma cut_openTrunc n : cut_disk (Disk.openTrunc n). Proof. by apply cut_call. Qed.
Lemma cut_write n b : cut_disk (Disk.write n b). Proof. apply cut_call. apply put_nothing. Qed.
Lemma cut_fsync n : cut_disk (Disk.fsync n). Proof. by apply cut_call. Qed.
Lemma cut_close n : cut_disk (Disk.close n). Proof. by apply cut_call. Qed.
Lemma cut_truncate n z : cut_disk (Disk.truncate n z). Proof. by apply cut_call. Qed.
Lemma cut_rename a b : cut_disk (Disk.rename a b). Proof. by apply cut_call. Qed.
Lemma cut_remove n : cut_disk (Disk.remove n). Proof. by apply cut_call. Qed.
Lemma cut_stat n : cut_disk (Disk.stat n). Proof. by apply cut_call. Qed.
Lemma cut_syncDir : cut_disk Disk.syncDir. Proof. by apply cut_call. Qed.
End calls.

#[export] Hint Resolve cut_openExcl cut_openTrunc cut_write cut_fsync cut_close cut_truncate cut_rename cut_remove
  cut_stat cut_syncDir : cut.

(** ** The log's operations *)

Lemma cut_onDisk {A} (m : M Disk.disk A) : cut_disk m → cut_world (onDisk m).
Proof.
  intros [Hi Hs].
  assert (Hp : ∀ t l i u r t' i' added, plays alone m t i u r t' i' added → plays World (onDisk m) l i u r l i' added).
  { intros t l i u r t' i' added H l' q. unfold onDisk, plays, alone in *. simpl. by rewrite H. }
  split.
  - intros l i. destruct (Hi tt i) as (n & r & t' & added & H). exists n, r, l, added. by eapply Hp.
  - intros l d r w' H. unfold onDisk in H. simpl in H. destruct (m d) as [r0 d'] eqn:E. injection H as <- <-.
    destruct (Hs tt d _ _ E) as (t1 & d1 & u1 & l1 & -> & P1 & D1 & Hsub1 & T1 & X1). unfold alone in *.
    exists l, d1, u1, l1. split; [done|]. split; [by eapply Hp|]. split; [done|]. split; [done|]. split; [done|].
    intros x Hx. destruct (X1 x Hx) as (u & r & t2 & l2 & P2 & D2). exists u, r, l, l2. split; [by eapply Hp | done].
Qed.

Lemma cut_setLog g : cut_world (setLog g).
Proof. by apply (cut_pure _ _ (λ l, (Ok tt, g l))). Qed.

Lemma cut_gets {A} (f : log → A) : cut_world (gets (λ w, f (lg w))).
Proof. by apply (cut_pure _ _ (λ l, (Ok (f l), l))). Qed.

Lemma cut_gets_log : cut_world (gets lg).
Proof. by apply (cut_pure _ _ (λ l, (Ok l, l))). Qed.

Lemma cut_gets_active : cut_world (gets (λ w, active (lg w))).
Proof. apply cut_gets. Qed.

Lemma cut_via s (m : M Disk.disk unit) : cut_disk m → cut_disk (via s m).
Proof. intros Hm. unfold via. destruct (f s); cuts. Qed.

#[export] Hint Resolve cut_onDisk cut_setLog cut_gets_log cut_gets_active cut_via : cut.

Lemma cut_discard s : cut_disk (discard s).
Proof. unfold discard. cuts. Qed.

Lemma cut_clearEmpty p first : cut_disk (clearEmpty p first).
Proof. unfold clearEmpty. cuts. Qed.
#[export] Hint Resolve cut_discard cut_clearEmpty : cut.

Lemma cut_createSegment b p : cut_disk (createSegment b p).
Proof. unfold createSegment. cuts. Qed.

Lemma cut_replaceFile name data : cut_disk (MarkFiles.replaceFile name data).
Proof. unfold MarkFiles.replaceFile. cuts. Qed.
#[export] Hint Resolve cut_createSegment cut_replaceFile : cut.

Lemma cut_AppendBatchAsync ps : cut_world (AppendBatchAsync ps).
Proof. unfold AppendBatchAsync, stage, MarkFiles.writeReserved. cuts. Qed.

Lemma cut_rotate first : cut_world (rotate first).
Proof. unfold rotate. cuts. Qed.

Lemma cut_maybe (b : bool) first : cut_world (if b then rotate first else ret tt).
Proof. destruct b; [apply cut_rotate | apply cut_ret]. Qed.

Lemma cut_appendBatch mode b n : cut_world (appendBatch mode b n).
Proof. unfold appendBatch. cuts. Qed.

Lemma cut_rollback : cut_world rollback.
Proof. unfold rollback. cuts. Qed.

Lemma cut_removeFiles ss : ∀ k, cut_disk (removeFiles ss k).
Proof. induction ss as [|s ss IH]; intros k; cbn [removeFiles]; cuts. Qed.
#[export] Hint Resolve cut_removeFiles : cut.

Lemma cut_Truncate u : cut_world (Truncate u).
Proof. unfold Truncate. cuts. Qed.
#[export] Hint Resolve cut_AppendBatchAsync cut_rotate cut_appendBatch cut_rollback cut_Truncate : cut.

(** ** The steps of the log *)

(** The same log, over the same directory, with other calls failing. *)
Definition replan (used : list Disk.fault) (w : world) : world :=
  World (lg w) (Disk.Disk (Disk.img (dk w)) used (Disk.trail (dk w))).

(** An operation cut short: it ends in some way, with the image the process died
    at. *)
Lemma cut_short {A} (m : M world A) w r w' i :
  cut_world m → m w = (r, w') →
  (i = Disk.img (dk w) ∨ ∃ added, Disk.trail (dk w') = Disk.trail (dk w) ++ added ∧ i ∈ added) →
  ∃ used r2 w2, m (replan used w) = (r2, w2) ∧ Disk.img (dk w2) = i ∧ drawn (Disk.plan (dk w)) used.
Proof.
  intros [Hi Hs] H Hm. destruct w as [l d].
  assert (Hr : reaches World m l (Disk.img d) (Disk.plan d) i).
  { destruct Hm as [->|(added & Et & Hin)]; simpl in *.
    - destruct (Hi l (Disk.img d)) as (n & r2 & t2 & added & P).
      exists (replicate n stop), r2, t2, added. split; [exact P | apply drawn_stops].
    - destruct (Hs _ _ _ _ H) as (t' & d' & u & a & -> & _ & _ & _ & Ht & Hx). simpl in Et.
      rewrite Ht in Et. apply app_inv_head in Et as ->. by apply Hx. }
  destruct Hr as (used & r2 & t2 & added & P & D). specialize (P (Disk.trail d) []). rewrite app_nil_r in P.
  eexists used, r2, _. split; [exact P|]. done.
Qed.

Definition rewind (used : list Disk.fault) (s : sys) : sys :=
  Sys (replan used (sw s)) (ph s) (staged s) (upto s).

Lemma core_replan used w gs pa fly st junk h : core w gs pa fly st junk h → core (replan used w) gs pa fly st junk h.
Proof. intros C. by apply (core_view_same C). Qed.

Lemma good_rewind used init s gs pa fly st junk h flown old :
  good init s gs pa fly st junk h flown old → good init (rewind used s) gs pa fly st junk h flown old.
Proof. intros G. destruct G. split; try done. by apply core_replan. Qed.

(** A step of the log that makes no call has one moment. *)
Lemma still {s s' : sys} {i} : dk (sw s') = dk (sw s) → moment s s' i → i = Disk.img (dk (sw s)).
Proof.
  intros E [->|(added & Et & Hin)]; [done|]. rewrite E in Et.
  apply (f_equal length) in Et. rewrite length_app in Et. destruct added; [by apply not_elem_of_nil in Hin|].
  simpl in Et. lia.
Qed.

(** Every moment of a step is the end of such a step, with other calls failing. *)
Lemma running_cut {init s s' i gs pa fly st junk h flown old} :
  good init s gs pa fly st junk h flown old → running s s' → moment s s' i →
  ∃ used s2, running (rewind used s) s2 ∧ Disk.img (dk (sw s2)) = i ∧ drawn (Disk.plan (dk (sw s))) used.
Proof.
  intros G Hstep Hm. pose proof (failErr_set (good_rewind [] _ _ _ _ _ _ _ _ _ _ G)) as Hf.
  assert (Hpure : ∀ s1, running (rewind [] s) s1 → dk (sw s') = dk (sw s) → Disk.img (dk (sw s1)) = Disk.img (dk (sw s)) →
    ∃ used s2, running (rewind used s) s2 ∧ Disk.img (dk (sw s2)) = i ∧ drawn (Disk.plan (dk (sw s))) used).
  { intros s1 R E E1. exists [], s1. split; [done|]. split; [by rewrite E1, (still E Hm) | constructor]. }
  assert (Happend : ∀ ps r w', ps ≠ [] → room s ps → AppendBatchAsync ps (sw s) = (r, w') →
    moment s (Sys w' (ph s) (staged s) (upto s)) i → ∃ used s2, running (rewind used s) s2 ∧
    Disk.img (dk (sw s2)) = i ∧ drawn (Disk.plan (dk (sw s))) used).
  { intros ps r w' Hps Hroom H Hm'.
    destruct (cut_short _ _ _ _ _ (cut_AppendBatchAsync ps) H Hm') as (used & r2 & w2 & H2 & Hi & Hd).
    pose proof (core_replan used _ _ _ _ _ _ _ (i_core _ _ _ _ _ _ _ _ _ _ G)) as C.
    pose proof H2 as H3. apply (AppendBatchAsync_spec _ _ _ _ _ _ _ _ _ _ C Hf Hps Hroom) in H3
      as [(want & -> & _)|(e & -> & _)].
    - exists used. eexists. split; [by eapply (run_append (rewind used s) ps) | done].
    - exists used. eexists. split; [by apply (run_refused _ ps e w2) | done]. }
  destruct Hstep as [s ps first last r w' Hps Hroom H|s ps e w' Hroom H|s j l' Hp H|s j r w' Hp H
    |s j r w' Hp H|s j e r w' Hp H|s j e rb Hp|s].
  - by apply (Happend ps (Ok (MkCommit first last (Some r))) w').
  - apply (Happend ps (Fail e) w'); try done. by intros ->.
  - by eapply Hpure; [apply (run_begin (rewind [] s))|..].
  - destruct (cut_short _ (sw s) r w' i (cut_maybe _ _) H Hm) as (used & r2 & w2 & H2 & Hi & Hd).
    exists used. eexists. split; [by apply (run_rotate (rewind used s) j r2 w2) | done].
  - destruct (cut_short _ _ _ _ _ (cut_appendBatch _ _ _) H Hm) as (used & r2 & w2 & H2 & Hi & Hd).
    exists used. eexists. split; [by apply (run_store (rewind used s) j r2 w2) | done].
  - destruct (cut_short _ _ _ _ _ cut_rollback H Hm) as (used & r2 & w2 & H2 & Hi & Hd).
    exists used. eexists. split; [by apply (run_undo (rewind used s) j e r2 w2) | done].
  - by eapply Hpure; [apply (run_end (rewind [] s))|..].
  - by eapply Hpure; [apply (run_close (rewind [] s))|..].
Qed.

Lemma checkpoint_cut m r d' s i :
  MarkFiles.WriteCheckpoint m (dk (sw s)) = (r, d') →
  moment s (Sys (World (log_of s) d') (ph s) (staged s) (upto s)) i →
  ∃ used r2 d2, MarkFiles.WriteCheckpoint m (dk (sw (rewind used s))) = (r2, d2) ∧ Disk.img d2 = i ∧
    drawn (Disk.plan (dk (sw s))) used.
Proof.
  intros H Hm.
  assert (H' : onDisk (MarkFiles.WriteCheckpoint m) (sw s) = (r, World (log_of s) d')) by (unfold onDisk; by rewrite H).
  destruct (cut_short _ _ _ _ i (cut_onDisk _ (cut_replaceFile _ _)) H' Hm) as (used & r2 & w2 & H2 & Hi & Hd).
  apply onDisk_inv in H2 as (d2 & H2 & ->). by exists used, r2, d2.
Qed.

Lemma step_cut {init s s' i gs pa fly st junk h flown old} :
  good init s gs pa fly st junk h flown old → step s s' → moment s s' i →
  ∃ used s2, step (rewind used s) s2 ∧ Disk.img (dk (sw s2)) = i ∧ upto s2 = upto s' ∧
    drawn (Disk.plan (dk (sw s))) used.
Proof.
  intros G Hstep Hm. destruct Hstep as [s s' H|s u r w' H|s m r d' Hu H].
  - destruct (running_cut G H Hm) as (used & s2 & H2 & Hi & Hd). exists used, s2.
    split; [by apply step_running|]. by rewrite (running_upto _ _ H2), (running_upto _ _ H).
  - destruct (cut_short _ _ _ _ _ (cut_Truncate u) H Hm) as (used & r2 & w2 & H2 & Hi & Hd).
    exists used. eexists. split; [by apply (step_truncate (rewind used s) u r2 w2) | done].
  - destruct (checkpoint_cut _ _ _ _ _ H Hm) as (used & r2 & d2 & H2 & Hi & Hd).
    exists used. eexists. split; [by apply (step_checkpoint (rewind used s) m r2 d2) | done].
Qed.

End Replay.
