(* ===== verification/Recovery.v ===== *)
(** * Opening a log (src/internal/wal/wal.go, salvage.go, lock_unix.go)

    [Open] and the recovery scan behind it: every segment is scanned, a torn
    tail of the last one is cut, damage is refused or salvaged, the chain of
    segments is checked, and numbering resumes above the reservation.  The
    theorems take a directory as a crash leaves it and say what log comes up. *)

From stdpp Require Import strings.
From S2P Require Import Prelude Errors Text Record Disk Segment MarkFiles Log LogInv LogSteps.
Local Open Scope Z_scope.
Local Open Scope go_scope.

Module Recovery.
Import Record Segment Log LogInv LogSteps.

Record segName := SegName { base : Z; sprev : Z }.

(** What [Options.Salvage] is told. *)
Record Salvage := MkSalvage {
  s_path : bytes;
  s_offset : Z;
  s_discarded : Z;
  s_kept : bytes;
  s_cause : error
}.

(** [defer c()]: the cleanup runs however [m] ends, its own error ignored. *)
Definition deferring {A} (m : M Disk.disk A) (c : M Disk.disk unit) : M Disk.disk A := λ d,
  let '(r, d1) := m d in (r, (c d1).2).

(** ** Salvage *)

Definition keepBytes (src : bytes) (off : Z) (path : bytes) : M Disk.disk unit :=
  Disk.openExcl path ;;;
  let copy :=
    contents <- Disk.readAll src ;;
    let '(data, failing) := contents in
    Disk.write path (drop (Z.to_nat off) data) ;;;
    match failing with Some e => throw e | None => ret tt end in
  let closing := Disk.close path in
  on_error copy closing ;;;
  on_error (Disk.fsync path) closing ;;;
  Disk.close path.

(** [%s.corrupt-%d-%d] *)
Definition keptName (path : bytes) (good now : Z) : bytes :=
  path ++ Text.str ".corrupt-"%string ++ Text.show good ++ Text.str "-"%string ++ Text.show now.

(** [salvage]; [now] is the clock.  Returns the relinked successor, the
    reservation and the report. *)
Definition salvage (now : Z) (path : bytes) (baseLSN count good : Z) (next : option segName)
    (cause : error) (reserved : Z) : M Disk.disk (option segName * Z * Salvage) :=
  let wrap msg := wrapping (λ e, Errorf msg [e]) in
  Disk.openExisting path ;;;
  deferring (
    size <- Disk.stat path ;;
    let discarded := size - good in
    let kept := keptName path good now in
    wrap "wal: salvage: keep damaged bytes"%string (keepBytes path good kept) ;;;
    let lastGood := u64 (baseLSN + count - 1) in
    next' <- match next with
             | Some n =>
                 if negb (sprev n =? lastGood) then
                   wrap "wal: salvage: relink"%string
                     (Disk.rename (segmentName (base n) (sprev n)) (segmentName (base n) lastGood)) ;;;
                   ret (Some (SegName (base n) lastGood))
                 else ret next
             | None => ret None
             end ;;
    reserved' <- match next with
                 | None =>
                     let bound := u64 (lastGood + u64 (Z.quot discarded headerSize) + 1) in
                     if reserved <? bound then
                       wrap "wal: salvage: reserve lost LSNs"%string (MarkFiles.writeReserved bound) ;;;
                       ret bound
                     else ret reserved
                 | Some _ => ret reserved
                 end ;;
    Disk.syncDir ;;;
    Disk.truncate path good ;;;
    Disk.fsync path ;;;
    ret (next', reserved', MkSalvage path good discarded kept cause))
    (Disk.close path).

(** ** Recovery *)

(** One turn of the loop over the segments: [next] is [names[i+1]] if there is
    one, [prev] the segment recovered before. *)
Definition recoverSeg (o : Options) (now : Z) (n : segName) (next : option segName)
    (prev : option segment) (reserved : Z)
    : M Disk.disk (segment * option segName * Z * list Salvage) :=
  let path := segmentName (base n) (sprev n) in
  scan <- try (scanSegment path (maxRecordBytes o)) ;;
  let sc := match scan with
            | Ok (Some sc) => sc
            | Ok None => Scanned 0 0 false (Some (Errorf "" []))
            | Fail e => Scanned 0 0 false (Some e)
            end in
  let last := match next with None => true | Some _ => false end in
  let err := match scan_err sc with
             | None => if truncated sc && negb last
                       then Some (Errorf "segment is truncated but is not the last segment"%string [Sentinel Corrupt])
                       else None
             | Some e => Some e
             end in
  fixed <- match err with
           | Some e =>
               if errorsIs e Corrupt && salvageSet o then
                 s <- salvage now path (base n) (n_records sc) (Segment.good sc) next e reserved ;;
                 let '(next', reserved', rep) := s in
                 ret (next', reserved', [rep], false)
               else throw e
           | None => ret (next, reserved, [], truncated sc)
           end ;;
  let '(next', reserved', reps, torn) := fixed in
  (if torn then Disk.truncate path (Segment.good sc) else ret tt) ;;;
  let s := Seg (base n) path (sprev n) HNil (Segment.good sc) (n_records sc) in
  match prev with
  | Some p => if negb (lastLSN p =? prevEnd s) then throw (Errorf "wal: segment chain broken"%string [])
              else ret (s, next', reserved', reps)
  | None => ret (s, next', reserved', reps)
  end.

(** The loop; [n] is the current name, which the turn before may have
    relinked, [ns] the names after it. *)
Fixpoint recoverLoop (o : Options) (clock : nat → Z) (i : nat) (n : segName) (ns : list segName)
    (segs : list segment) (reserved : Z) : M Disk.disk (list segment * Z * list Salvage) :=
  r <- recoverSeg o (clock i) n (head ns) (last segs) reserved ;;
  let '(s, next, reserved', reps) := r in
  match ns, next with
  | _ :: ns', Some n' =>
      rest <- recoverLoop o clock (S i) n' ns' (segs ++ [s]) reserved' ;;
      let '(segs', reserved'', reps') := rest in
      ret (segs', reserved'', reps ++ reps')
  | _, _ => ret (segs ++ [s], reserved', reps)
  end.

Definition nameOf (f : bytes) : option segName :=
  '(b, p) ← parseSegmentName f; Some (SegName b p).

Definition baseLe (a b : segName) : Prop := base a <= base b.
#[global] Instance baseLe_dec : RelDecision baseLe.
Proof. intros a b. apply Z.le_dec. Defined.
#[global] Instance baseLe_total : Total baseLe.
Proof. intros a b. apply Z.le_ge_cases. Qed.
#[global] Instance baseLe_trans : Transitive baseLe.
Proof. intros a b c. apply Z.le_trans. Qed.
#[global] Instance segName_eq_dec : EqDecision segName.
Proof. solve_decision. Defined.

(** The names in the directory that are segments, by base. *)
Definition sortedNames (entries : list bytes) : list segName :=
  merge_sort baseLe (omap nameOf entries).

Definition makeLog (o : Options) (sealed : list segment) (active : segment) (reserved : Z) (id : bytes) : log :=
  let segs := sealed ++ [active] in
  MkLog o sealed active (baseLSN active +u count active)
    (match segs with s :: _ => baseLSN s | [] => 0 end) reserved id
    [] 0 0 (lastRecordLSN segs) false [Undecided] 0 None None false None.

(** The last segment of a non-empty list and the ones before it. *)
Fixpoint splitLast (s : segment) (ss : list segment) : list segment * segment :=
  match ss with
  | [] => ([], s)
  | s' :: ss' => let '(l, a) := splitLast s' ss' in (s :: l, a)
  end.

(** The [switch] at the end of [recover]. *)
Definition resume (o : Options) (segs : list segment) (reserved : Z) (id : bytes) : M Disk.disk log :=
  match segs with
  | [] =>
      s <- createSegment (reserved +u 1) 0 ;;
      ret (makeLog o [] s reserved id)
  | s0 :: ss =>
      let '(older, tailSeg) := splitLast s0 ss in
      let tail := lastLSN tailSeg in
      if tail <? reserved then
        s <- createSegment (reserved +u 1) tail ;;
        ret (makeLog o segs s reserved id)
      else
        Disk.openExisting (path tailSeg) ;;;
        ret (makeLog o older (set_f HOpen tailSeg) reserved id)
  end.

Definition recover (o : Options) (clock : nat → Z) (newId : bytes) : M Disk.disk (log * list Salvage) :=
  entries <- Disk.readDir ;;
  let names := sortedNames entries in
  reserved <- MarkFiles.readReserved ;;
  id <- MarkFiles.loadIdentity newId (bool_decide (names = []) && (reserved =? 0)) ;;
  scanned <- match names with
             | [] => ret ([], reserved, [])
             | n :: ns => recoverLoop o clock 0 n ns [] reserved
             end ;;
  let '(segs, reserved', reps) := scanned in
  l <- resume o segs reserved' id ;;
  ret (l, reps).

Definition lockName : bytes := Text.str "LOCK"%string.

Definition lockDir : M Disk.disk unit :=
  Disk.openCreate lockName ;;;
  wrapping (λ e, Errorf "wal: already open by another process"%string [e])
    (on_error (Disk.flock lockName) (Disk.close lockName)).

(** [Open] on a directory that exists. *)
Definition Open (o : Options) (clock : nat → Z) (newId : bytes) : M Disk.disk (log * list Salvage) :=
  let o := withDefaults o in
  if maxRecordLimit <? maxRecordBytes o then throw (Errorf "wal: MaxRecordBytes exceeds the format"%string [])
  else
    lockDir ;;;
    on_error (recover o clock newId) (Disk.close lockName).

(** ** A directory as a crash leaves it *)

Definition nm (s : segment) : segName := SegName (baseLSN s) (prevEnd s).
Definition bare (s : segment) : segment := set_f HNil s.

(** The segments [ss] are whole, the last one [a] may end in a torn record, and
    no other file is named like a segment. *)
Record crashed (v : gmap bytes bytes) (max : Z) (ss : list segment) (a : segment)
    (gs : list (list bytes)) (pa : list bytes) (tail : bytes) : Prop := {
  cr_sealed : Forall2 (seg_rep v max []) ss gs;
  cr_last : seg_rep v max tail a pa;
  cr_torn : torn max tail;
  cr_linked : linked (ss ++ [a]);
  cr_only : ∀ f n, is_Some (v !! f) → nameOf f = Some n → ∃ s, s ∈ ss ++ [a] ∧ f = path s
}.

Lemma nameOf_path v max j s ps : seg_rep v max j s ps → nameOf (path s) = Some (nm s).
Proof.
  intros H. rewrite (rep_path _ _ _ _ _ H). unfold nameOf.
  destruct (rep_is_u64 _ _ _ _ _ H) as [Hb Hp]. by rewrite parse_segmentName.
Qed.

Section crashed.
Context {v : gmap bytes bytes} {max : Z} {ss : list segment} {a : segment}
  {gs : list (list bytes)} {pa : list bytes} {tail : bytes}.
Context (C : crashed v max ss a gs pa tail).

Lemma crashed_rep s : s ∈ ss ++ [a] → ∃ ps j, seg_rep v max j s ps.
Proof using C.
  intros [Hs| ->%list_elem_of_singleton]%elem_of_app; [|by eexists _, _; apply C].
  apply list_elem_of_lookup in Hs as [i Hi].
  destruct (Forall2_lookup_l _ _ _ _ _ (cr_sealed _ _ _ _ _ _ _ C) Hi) as (ps & _ & Hr). eauto.
Qed.

Lemma crashed_names_sorted l : linked l → StronglySorted baseLe (nm <$> l).
Proof.
  induction l as [|s l IH]; intros Hl; [constructor|]. constructor.
  - apply IH. by eapply linked_tail.
  - apply Forall_fmap, Forall_forall. intros x Hx. unfold baseLe. simpl.
    pose proof (linked_head_lt _ _ _ Hl Hx). lia.
Qed.

(** The scan of the directory finds the segments in order. *)
Lemma crashed_names : sortedNames (elements (dom v)) = nm <$> (ss ++ [a]).
Proof using C.
  pose proof (cr_linked _ _ _ _ _ _ _ C) as Hl.
  assert (Hin : ∀ n, n ∈ omap nameOf (elements (dom v)) ↔ n ∈ nm <$> (ss ++ [a])).
  { intros n. rewrite list_elem_of_omap, list_elem_of_fmap. split.
    - intros (f & Hf%elem_of_elements%elem_of_dom & Hn).
      destruct (cr_only _ _ _ _ _ _ _ C f n Hf Hn) as (s & Hs & ->). exists s. split; [|done].
      destruct (crashed_rep s Hs) as (ps & j & Hr). rewrite (nameOf_path _ _ _ _ _ Hr) in Hn.
      by injection Hn.
    - intros (s & -> & Hs). destruct (crashed_rep s Hs) as (ps & j & Hr).
      exists (path s). split; [|by eapply nameOf_path].
      apply elem_of_elements, elem_of_dom. eexists. apply (rep_file _ _ _ _ _ Hr). }
  unfold sortedNames. apply (StronglySorted_unique_strong baseLe).
  - intros x y Hx Hy H1 H2. rewrite merge_sort_Permutation, Hin in Hx.
    apply list_elem_of_fmap in Hx as (s & -> & Hs), Hy as (s' & -> & Hs').
    unfold baseLe in *. simpl in *. f_equal. apply (linked_inj (ss ++ [a])); try done. lia.
  - apply (StronglySorted_merge_sort baseLe).
  - by apply crashed_names_sorted.
  - rewrite merge_sort_Permutation. apply NoDup_Permutation; [..|done].
    + apply NoDup_omap_inj; [apply NoDup_elements|]. intros f f' n Hf Hf' En En'.
      apply elem_of_elements, elem_of_dom in Hf, Hf'.
      destruct (cr_only _ _ _ _ _ _ _ C f n Hf En) as (s & Hs & ->).
      destruct (cr_only _ _ _ _ _ _ _ C f' n Hf' En') as (s' & Hs' & ->).
      destruct (crashed_rep s Hs) as (ps & j & Hr), (crashed_rep s' Hs') as (ps' & j' & Hr').
      rewrite (nameOf_path _ _ _ _ _ Hr) in En. rewrite (nameOf_path _ _ _ _ _ Hr') in En'.
      f_equal. apply (linked_inj (ss ++ [a])); try done. unfold nm in *. congruence.
    + apply NoDup_fmap_2_strong; [|].
      * intros s s' Hs Hs' E. apply (linked_inj (ss ++ [a])); try done. by injection E.
      * clear -Hl. induction (ss ++ [a]) as [|s l IH]; constructor.
        -- intros Hs. pose proof (linked_head_lt _ _ _ Hl Hs). lia.
        -- apply IH. by eapply linked_tail.
Qed.
End crashed.

(** ** The loop over the segments *)

Section loop.
Context (o : Options) (clock : nat → Z) (R : Z).
Context (Hmax : 0 <= maxRecordBytes o < 4294967296 - 8).
Local Abbreviation max := (maxRecordBytes o).
Implicit Types (v : gmap bytes bytes).

Lemma rep_scan v t s ps : seg_rep v max t s ps → torn max t →
  Disk.yields (scanSegment (path s) max) v
    (Some (Scanned (len ps) (len (frames ps)) (bool_decide (t ≠ [])) None)) v.
Proof using Hmax.
  intros H Ht. eapply yields_scanSegment; [apply (rep_file _ _ _ _ _ H)|].
  apply scan_torn; [done | apply (rep_payloads _ _ _ _ _ H) | done].
Qed.

Lemma bare_eq v t s ps : seg_rep v max t s ps →
  Seg (baseLSN s) (path s) (prevEnd s) HNil (len (frames ps)) (len ps) = bare s.
Proof. intros H. unfold bare, set_f. by rewrite (rep_size _ _ _ _ _ H), (rep_count _ _ _ _ _ H). Qed.

Definition follows (prev : option segment) (s : segment) : Prop :=
  match prev with Some p => lastLSN p = prevEnd s | None => True end.

(** One segment: a torn tail is cut if it is the last. *)
Lemma yields_recoverSeg v t s ps now next prev :
  seg_rep v max t s ps → torn max t → (t = [] ∨ next = None) → follows prev s →
  Disk.yields (recoverSeg o now (nm s) next prev R) v (bare s, next, R, []) (<[path s := frames ps]> v).
Proof using Hmax.
  intros H Ht Hn Hf. unfold recoverSeg. cbn [base sprev nm].
  rewrite <- (rep_path _ _ _ _ _ H).
  eapply Disk.yields_bind; [by apply Disk.yields_try, (rep_scan v t)|].
  cbv zeta beta iota. cbn [scan_err truncated n_records Segment.good].
  assert (Hnt : bool_decide (t ≠ []) && negb (match next with None => true | Some _ => false end) = false).
  { destruct Hn as [->| ->]; [done|]. by rewrite andb_false_r. }
  rewrite Hnt. eapply Disk.yields_bind; [apply Disk.yields_ret|]. cbv beta iota.
  eapply Disk.yields_bind.
  - assert (Hcut : Disk.yields (if bool_decide (t ≠ []) then Disk.truncate (path s) (len (frames ps)) else ret tt)
      v tt (<[path s := frames ps]> v)); [|exact Hcut].
    pose proof (rep_file _ _ _ _ _ H) as Hfile.
    destruct (decide (t = [])) as [Ht0|Ht0]; cycle 1; [rewrite bool_decide_true by done|rewrite bool_decide_false by tauto].
    + pose proof (Disk.yields_truncate (path s) (len (frames ps)) _ v Hfile) as Hy.
      unfold len in *. rewrite Nat2Z.id, take_app_length in Hy. apply Hy. rewrite length_app. lia.
    + rewrite Ht0, app_nil_r in Hfile. rewrite insert_id by done. apply Disk.yields_ret.
  - rewrite (bare_eq _ _ _ _ H).
    unfold follows in Hf. destruct prev as [p|]; [|apply Disk.yields_ret].
    simpl. rewrite Hf, Z.eqb_refl. apply Disk.yields_ret.
Qed.

Lemma yields_recoverLoop a pa t v ss : ∀ gs acc i n ns,
  Forall2 (seg_rep v max []) ss gs → seg_rep v max t a pa → torn max t → linked (ss ++ [a]) →
  follows (last acc) (default a (head ss)) → nm <$> (ss ++ [a]) = n :: ns →
  Disk.yields (recoverLoop o clock i n ns acc R) v
    (acc ++ (bare <$> ss ++ [a]), R, []) (<[path a := frames pa]> v).
Proof using Hmax.
  induction ss as [|s ss IH]; intros gs acc i n ns Hss Ha Ht Hl Hf [= <- <-].
  - cbn [recoverLoop]. eapply Disk.yields_bind; [by apply (yields_recoverSeg v t a pa); auto|].
    cbv beta iota. apply Disk.yields_ret.
  - apply Forall2_cons_inv_l in Hss as (ps & gs' & Hs & Hss & ->).
    assert (Ht0 : torn max []).
    { destruct Ht as (p & u & Hp & _). exists p, (frame p). split; [done|]. split; [done|].
      intros E. apply (f_equal len) in E. rewrite len_frame in E. unfold recordSize, headerSize in E.
      pose proof (len_nonneg p). rewrite len_nil in E. lia. }
    assert (Hhd : ∃ n' ns', nm <$> ss ++ [a] = n' :: ns' ∧ n' = nm (default a (head ss))).
    { destruct ss; simpl; eauto. }
    destruct Hhd as (n' & ns' & E & En').
    assert (Hlink : lastLSN s = prevEnd (default a (head ss)) ∧ linked (ss ++ [a])).
    { destruct ss; simpl in Hl; destruct Hl as (Hp & _ & Hl); by split. }
    destruct Hlink as [Hp Hl'].
    change (list_fmap segment segName nm (ss ++ [a])) with (nm <$> (ss ++ [a])). rewrite E.
    cbn [recoverLoop].
    eapply Disk.yields_bind; [by apply (yields_recoverSeg v [] s ps); auto|].
    cbv beta iota. cbn [head hd_error]. rewrite insert_id by (rewrite (rep_file _ _ _ _ _ Hs); by rewrite app_nil_r).
    eapply Disk.yields_bind.
    + eapply (IH gs' (acc ++ [bare s])); try done. by rewrite last_snoc.
    + cbv beta iota. rewrite <- app_assoc. apply Disk.yields_ret.
Qed.
End loop.

Lemma splitLast_snoc (l : list segment) a : match l ++ [a] with
  | s :: ss => splitLast s ss = (l, a) | [] => False end.
Proof.
  induction l as [|s l IH]; [done|]. simpl. destruct l as [|s' l]; [done|]. simpl in *. by rewrite IH.
Qed.

Lemma resume_snoc o l x R id : resume o (l ++ [x]) R id =
  if lastLSN x <? R
  then (s <- createSegment (R +u 1) (lastLSN x) ;; ret (makeLog o (l ++ [x]) s R id))
  else (Disk.openExisting (path x) ;;; ret (makeLog o l (set_f HOpen x) R id)).
Proof.
  pose proof (splitLast_snoc l x) as H. unfold resume. destruct (l ++ [x]); [done|]. by rewrite H.
Qed.

(** ** What comes up *)

Definition reps (v : gmap bytes bytes) (max : Z) := λ s ps, ∃ j, seg_rep v max j s ps.

(** A log over whole segments, built by [makeLog], is a log as appenders find
    it. *)
Lemma fresh_makeLog o sealed a gs pa R id d :
  0 <= maxRecordBytes o <= maxRecordLimit →
  Forall2 (seg_rep (Disk.view d) (maxRecordBytes o) []) sealed gs →
  seg_rep (Disk.view d) (maxRecordBytes o) [] a pa → f a = HOpen → linked (sealed ++ [a]) →
  lastLSN a = R → R < maxU64 →
  MarkFiles.markIn (Disk.view d) MarkFiles.reservedName = Some R →
  fresh (World (makeLog o sealed a R id) d) gs pa ∧ nextLSN (makeLog o sealed a R id) = R + 1.
Proof.
  intros Hmax Hs Ha Hh Hl HR Hlt Hm.
  pose proof (rep_lastLSN _ _ _ _ _ Ha) as Hla. pose proof (rep_base _ _ _ _ _ Ha).
  pose proof (rep_bound _ _ _ _ _ Ha). pose proof (len_nonneg pa).
  assert (Hnext : baseLSN a +u count a = R + 1).
  { rewrite (rep_count _ _ _ _ _ Ha). unfold maxU64 in *. ulia. }
  assert (Hall : Forall2 (reps (Disk.view d) (maxRecordBytes o)) (sealed ++ [a]) (gs ++ [pa])).
  { apply Forall2_app; [|constructor; [by eexists | constructor]]. eapply Forall2_impl; [exact Hs|]. by eexists. }
  destruct (lastRecordLSN_spec _ _ _ _ Hall Hl) as (Hz & Hcov & Hlast).
  rewrite last_snoc in Hlast. specialize (Hlast a eq_refl).
  split; [|done].
  split; simpl; try done; [|rewrite Hnext; lia].
  split; simpl; try done; rewrite ?Hnext, ?len_nil; try lia.
  exists R. split; [done | lia].
Qed.

(** Files not named like a segment do not matter to the segments. *)
Lemma crashed_frame v v' max ss a gs pa t :
  crashed v max ss a gs pa t → (∀ n, is_Some (nameOf n) → v' !! n = v !! n) →
  crashed v' max ss a gs pa t.
Proof.
  intros C E.
  assert (Hp : ∀ s, s ∈ ss ++ [a] → v' !! path s = v !! path s).
  { intros s Hs. destruct (crashed_rep C s Hs) as (ps & j & Hr). apply E. eexists. by eapply nameOf_path. }
  destruct C. split; try done.
  - eapply sealed_frame; [done|]. intros s Hs. apply Hp, elem_of_app. by left.
  - eapply rep_frame; [done|]. apply Hp, elem_of_app. right. by apply list_elem_of_singleton.
  - intros g n Hg Hn. apply (cr_only0 g n); [|done]. rewrite <- E; [done | by eexists].
Qed.

(** A file recovery has no business with. *)
Definition bystander (n : bytes) : Prop :=
  nameOf n = None ∧ n ≠ MarkFiles.identityName ∧ n ≠ MarkFiles.tmpOf MarkFiles.identityName ∧ n ≠ lockName.

(** What recovering [v] has to show: a log as appenders find it, that holds the
    records of the segments and goes on above the reservation. *)
Record comes_up (o : Options) (v : gmap bytes bytes) (ss : list segment) (a : segment) (gs : list (list bytes))
    (pa : list bytes) (R : Z) (l : log) (v' : gmap bytes bytes) (gs' : list (list bytes)) (pa' : list bytes) : Prop := {
  cu_fresh : ∀ d, Disk.view d = v' → fresh (World l d) gs' pa';
  cu_opts : opts l = o;
  cu_next : nextLSN l = R + 1;
  cu_reserved : reserved l = R;
  cu_records : all_records l gs' pa' = records (ss ++ [a]) (gs ++ [pa]);
  cu_head : FirstPrevEnd l = match ss ++ [a] with s :: _ => prevEnd s | [] => 0 end;
  cu_first : FirstLSN l = match segs l with s :: _ => baseLSN s | [] => 0 end;
  cu_files : ∀ n, bystander n → v' !! n = v !! n
}.

Section recover.
Context {o : Options} {v : gmap bytes bytes} {ss : list segment} {a : segment}
  {gs : list (list bytes)} {pa : list bytes} {t : bytes} {R : Z}.
Context (C : crashed v (maxRecordBytes o) ss a gs pa t).
Context (Hmax : 0 <= maxRecordBytes o <= maxRecordLimit).
Context (Hm : MarkFiles.markIn v MarkFiles.reservedName = Some R).
Context (Htail : lastLSN a <= R) (HR : R < maxU64).
Local Abbreviation max := (maxRecordBytes o).
Local Abbreviation cut := (<[path a := frames pa]> v).

Lemma Hmax' : 0 <= max < 4294967296 - 8.
Proof using Hmax. unfold maxRecordLimit, headerSize in Hmax. lia. Qed.

(** Cutting the torn tail leaves whole segments. *)
Lemma cut_sealed : Forall2 (seg_rep cut max []) ss gs.
Proof using C.
  eapply sealed_frame; [apply C|]. intros s Hs. apply lookup_insert_ne. apply not_eq_sym.
  pose proof (linked_last_gt _ _ _ (cr_linked _ _ _ _ _ _ _ C) Hs).
  destruct (crashed_rep C s) as (ps & j & Hr); [apply elem_of_app; by left|].
  eapply rep_path_ne; [exact Hr | apply C | lia].
Qed.
Lemma cut_last : seg_rep cut max [] a pa.
Proof using C.
  eapply rep_change; [apply C|]. rewrite app_nil_r. apply lookup_insert_eq.
Qed.

Lemma bare_reps v' (l : list segment) g : Forall2 (seg_rep v' max []) l g → Forall2 (seg_rep v' max []) (bare <$> l) g.
Proof.
  intros H. apply Forall2_fmap_l. eapply Forall2_impl; [exact H|]. intros s ps Hs. by apply rep_set_f.
Qed.

Lemma linked_bare l : linked l → linked (bare <$> l).
Proof.
  induction l as [|s l IH]; [done|]. destruct l as [|s' l]; [done|]. intros (? & ? & H).
  split; [done|]. split; [done|]. by apply IH.
Qed.

Lemma records_bare l g : records (bare <$> l) g = records l g.
Proof. unfold records. by rewrite zip_with_fmap_l. Qed.

Lemma path_not_reserved : path a ≠ MarkFiles.reservedName.
Proof using C. apply (rep_not_reserved _ _ _ _ _ (cr_last _ _ _ _ _ _ _ C)). Qed.

(** The segment opened above the reservation has a name of its own. *)
Lemma next_absent : lastLSN a < R → cut !! segmentName (R + 1) (lastLSN a) = None.
Proof using C HR Hmax.
  intros Hlt. pose proof (cr_last _ _ _ _ _ _ _ C) as Ha.
  pose proof (rep_lastLSN _ _ _ _ _ Ha) as Hla. pose proof (rep_base _ _ _ _ _ Ha).
  pose proof (len_nonneg pa). destruct (rep_is_u64 _ _ _ _ _ Ha) as [Hb1 Hb2].
  assert (Hu : is_u64 (R + 1) ∧ is_u64 (lastLSN a)) by (unfold is_u64, maxU64 in *; lia).
  destruct (cut !! segmentName (R + 1) (lastLSN a)) as [c|] eqn:E; [|done]. exfalso.
  assert (Hn : nameOf (segmentName (R + 1) (lastLSN a)) = Some (SegName (R + 1) (lastLSN a))).
  { unfold nameOf. by rewrite parse_segmentName by apply Hu. }
  assert (Hs : is_Some (v !! segmentName (R + 1) (lastLSN a))).
  { destruct (decide (path a = segmentName (R + 1) (lastLSN a))) as [En|Hne].
    - rewrite <- En, (rep_file _ _ _ _ _ Ha). by eexists.
    - rewrite lookup_insert_ne in E by done. by eexists. }
  destruct (cr_only _ _ _ _ _ _ _ C _ _ Hs Hn) as (s & Hin & Ep).
  destruct (crashed_rep C s Hin) as (ps & j & Hr). destruct (rep_is_u64 _ _ _ _ _ Hr).
  rewrite (rep_path _ _ _ _ _ Hr) in Ep. apply segmentName_inj in Ep as [Ep _]; [|tauto..].
  apply elem_of_app in Hin as [Hin| ->%list_elem_of_singleton]; [|lia].
  pose proof (linked_last_gt _ _ _ (cr_linked _ _ _ _ _ _ _ C) Hin). lia.
Qed.

Lemma bare_snoc : bare <$> ss ++ [a] = (bare <$> ss) ++ [bare a].
Proof. by rewrite fmap_app. Qed.

Lemma cut_mark : MarkFiles.markIn cut MarkFiles.reservedName = Some R.
Proof using C Hm.
  unfold MarkFiles.markIn. rewrite lookup_insert_ne; [done | apply path_not_reserved].
Qed.

Lemma cut_path s : s ∈ bare <$> ss ++ [a] → is_Some (cut !! path s).
Proof using C.
  intros (s' & -> & Hs')%list_elem_of_fmap.
  apply elem_of_app in Hs' as [Hs'| ->%list_elem_of_singleton].
  - apply list_elem_of_lookup in Hs' as [i Hi].
    destruct (Forall2_lookup_l _ _ _ _ _ cut_sealed Hi) as (ps & _ & Hr).
    eexists. apply (rep_file _ _ _ _ _ Hr).
  - eexists. apply (rep_file _ _ _ _ _ cut_last).
Qed.

(** Numbering resumes in a segment of its own above the reservation. *)
Lemma fresh_above id d : lastLSN a < R →
  let n := segmentName (R + 1) (lastLSN a) in
  let l := makeLog o ((bare <$> ss) ++ [bare a]) (Seg (R + 1) n (lastLSN a) HOpen 0 0) R id in
  Disk.view d = <[n := []]> cut → fresh (World l d) (gs ++ [pa]) [] ∧ nextLSN l = R + 1.
Proof using C Hmax Hm HR Htail.
  intros Hlt n l Hd. pose proof (cr_last _ _ _ _ _ _ _ C) as Ha.
  pose proof (rep_lastLSN _ _ _ _ _ Ha) as Hla. pose proof (rep_base _ _ _ _ _ Ha) as Hb.
  pose proof (len_nonneg pa). pose proof (next_absent Hlt) as Hn. fold n in Hn.
  assert (Hnr : n ≠ MarkFiles.reservedName).
  { intros En. apply (f_equal length) in En. unfold n in En. by rewrite length_segmentName in En. }
  apply fresh_makeLog; rewrite ?Hd; try done.
  - eapply sealed_frame.
    + apply Forall2_app; [apply bare_reps, cut_sealed|].
      constructor; [apply rep_set_f, cut_last | constructor].
    + intros s Hs. apply lookup_insert_ne. intros En. rewrite <- bare_snoc in Hs.
      apply cut_path in Hs as [c Hc]. congruence.
  - split; try done; simpl; rewrite ?len_nil; unfold maxU64 in *; try lia. apply lookup_insert_eq.
  - apply linked_snoc; [|done | simpl; lia].
    rewrite <- bare_snoc. apply linked_bare, C.
  - unfold lastLSN at 1. simpl. unfold maxU64 in *. ulia.
  - unfold MarkFiles.markIn. rewrite lookup_insert_ne by done. apply cut_mark.
Qed.

(** Numbering resumes at the end of the last segment. *)
Lemma fresh_at id d : lastLSN a = R →
  let l := makeLog o (bare <$> ss) (set_f HOpen (bare a)) R id in
  Disk.view d = cut → fresh (World l d) gs pa ∧ nextLSN l = R + 1.
Proof using C Hmax Hm HR Htail.
  intros Heq l Hd. apply fresh_makeLog; rewrite ?Hd; try done.
  - apply bare_reps, cut_sealed.
  - do 2 apply rep_set_f. apply cut_last.
  - apply (linked_replace_last _ (bare a)); [|done|done]. rewrite <- bare_snoc. apply linked_bare, C.
  - apply cut_mark.
Qed.

(** A disk showing a given directory. *)
Definition shows (w : gmap bytes bytes) : Disk.disk :=
  Disk.Disk (Disk.Image ((λ c, Disk.File c c) <$> w) ∅) [] [].
Lemma view_shows w : Disk.view (shows w) = w.
Proof. unfold Disk.view. simpl. rewrite <- map_fmap_compose. apply map_fmap_id. Qed.

Lemma nameOf_next b p : is_u64 b → is_u64 p → nameOf (segmentName b p) = Some (SegName b p).
Proof. intros Hb Hp. unfold nameOf. by rewrite parse_segmentName. Qed.

Lemma yields_resume id : ∃ l v' gs' pa',
  Disk.yields (resume o (bare <$> ss ++ [a]) R id) cut l v' ∧ comes_up o v ss a gs pa R l v' gs' pa'.
Proof using C Hmax Hm Htail HR.
  pose proof (rep_base _ _ _ _ _ (cr_last _ _ _ _ _ _ _ C)) as Hb.
  pose proof (rep_lastLSN _ _ _ _ _ (cr_last _ _ _ _ _ _ _ C)) as Hla.
  pose proof (len_nonneg pa). pose proof (Forall2_length _ _ _ (cr_sealed _ _ _ _ _ _ _ C)) as Hlen.
  assert (Hcut : ∀ n, nameOf n = None → cut !! n = v !! n).
  { intros n Hn. apply lookup_insert_ne. intros <-. rewrite (nameOf_path _ _ _ _ _ (cr_last _ _ _ _ _ _ _ C)) in Hn. done. }
  rewrite bare_snoc, resume_snoc. change (lastLSN (bare a)) with (lastLSN a).
  destruct (Z.ltb_spec (lastLSN a) R) as [Hlt|Hge].
  - assert (Hu : R +u 1 = R + 1) by (unfold maxU64 in *; ulia). rewrite Hu.
    eexists _, _, (gs ++ [pa]), [].
    split. { eapply Disk.yields_bind; [apply yields_createSegment, (next_absent Hlt) | apply Disk.yields_ret]. }
    destruct (fresh_above id (shows _) Hlt (view_shows _)) as [_ Hnx].
    split; [intros d Hd; by apply fresh_above | done | done | done | | | done |].
    + unfold all_records, segs. simpl. rewrite records_app.
      2: { rewrite !length_app, length_fmap. simpl. lia. }
      rewrite records_single. simpl. by rewrite app_nil_r, <- bare_snoc, records_bare.
    + unfold FirstPrevEnd, segs. simpl. by destruct ss.
    + intros n (Hn & _). rewrite lookup_insert_ne; [by apply Hcut|]. intros <-.
      rewrite nameOf_next in Hn by (unfold is_u64, maxU64 in *; lia). done.
  - eexists _, _, gs, pa. assert (Heq : lastLSN a = R) by lia.
    split. { eapply Disk.yields_bind; [|apply Disk.yields_ret]. apply Disk.yields_openExisting.
             eexists. apply (rep_file _ _ _ _ _ cut_last). }
    destruct (fresh_at id (shows _) Heq (view_shows _)) as [_ Hnx].
    split; [intros d Hd; by apply fresh_at | done | done | done | | | done |].
    + unfold all_records, segs. simpl. rewrite !records_app by (rewrite ?length_fmap; done).
      rewrite records_bare, !records_single. done.
    + unfold FirstPrevEnd, segs. simpl. by destruct ss.
    + intros n (Hn & _). by apply Hcut.
Qed.
End recover.

Lemma not_a_segment n : nameOf n = None → ∀ n', is_Some (nameOf n') → n' ≠ n.
Proof. intros Hn n' [s Hs] ->. by rewrite Hn in Hs. Qed.

(** A change to files that are not segments, before the recovery. *)
Lemma comes_up_behind o v v1 ss a gs pa R l v' gs' pa' :
  (∀ n, bystander n → v1 !! n = v !! n) →
  comes_up o v1 ss a gs pa R l v' gs' pa' → comes_up o v ss a gs pa R l v' gs' pa'.
Proof. intros E []. split; try done. intros n Hn. rewrite <- E by done. by apply cu_files0. Qed.

(** Recovery of a directory left by a crash always succeeds. *)
Lemma yields_recover o clock newId v ss a gs pa t R :
  crashed v (maxRecordBytes o) ss a gs pa t → 0 <= maxRecordBytes o <= maxRecordLimit →
  MarkFiles.markIn v MarkFiles.reservedName = Some R → lastLSN a <= R < maxU64 →
  MarkFiles.identity_ok v →
  ∃ l v' gs' pa', Disk.yields (recover o clock newId) v (l, []) v' ∧ comes_up o v ss a gs pa R l v' gs' pa'.
Proof.
  intros C Hmax Hm [Htail HR] Hid. unfold recover.
  pose proof (crashed_names C) as Hnames.
  destruct (MarkFiles.yields_loadIdentity newId
     (bool_decide (sortedNames (elements (dom v)) = []) && (R =? 0)) v Hid) as (id & v1 & Hy & Hv1 & _).
  assert (C1 : crashed v1 (maxRecordBytes o) ss a gs pa t).
  { eapply crashed_frame; [exact C|]. intros n Hn. apply Hv1; by apply not_a_segment. }
  assert (Hm1 : MarkFiles.markIn v1 MarkFiles.reservedName = Some R).
  { unfold MarkFiles.markIn in *. by rewrite Hv1. }
  destruct (yields_resume C1 Hmax Hm1 Htail HR id) as (l & v' & gs' & pa' & Hr & Hrest).
  exists l, v', gs', pa'. split; [|by eapply comes_up_behind; [intros n (_ & ? & ? & _); by apply Hv1|]].
  eapply Disk.yields_bind; [apply Disk.yields_readDir|].
  eapply Disk.yields_bind; [by apply MarkFiles.yields_readMark|].
  eapply Disk.yields_bind; [exact Hy|].
  assert (Hnil : ∃ n ns, sortedNames (elements (dom v)) = n :: ns).
  { rewrite Hnames. destruct ss; simpl; eauto. }
  destruct Hnil as (n & ns & En). rewrite En. rewrite Hnames in En.
  eapply Disk.yields_bind.
  - apply (yields_recoverLoop o clock R (Hmax' Hmax) a pa t v1 ss gs []); try done; apply C1.
  - cbv beta iota. eapply Disk.yields_bind; [exact Hr | apply Disk.yields_ret].
Qed.

(** The same behind the lock of the directory. *)
Lemma yields_Open o clock newId v ss a gs pa t R :
  crashed v (maxRecordBytes (withDefaults o)) ss a gs pa t →
  0 <= maxRecordBytes (withDefaults o) <= maxRecordLimit →
  MarkFiles.markIn v MarkFiles.reservedName = Some R → lastLSN a <= R < maxU64 →
  MarkFiles.identity_ok v →
  ∃ l v' gs' pa', Disk.yields (Open o clock newId) v (l, []) v' ∧
    comes_up (withDefaults o) v ss a gs pa R l v' gs' pa'.
Proof.
  intros C Hmax Hm HR Hid. unfold Open. cbv zeta.
  set (v1 := match v !! lockName with Some _ => v | None => <[lockName := []]> v end).
  assert (Hv1 : ∀ n, n ≠ lockName → v1 !! n = v !! n).
  { intros n Hn. unfold v1. destruct (v !! lockName); [done|]. rewrite lookup_insert_ne; [done | by apply not_eq_sym]. }
  assert (C1 : crashed v1 (maxRecordBytes (withDefaults o)) ss a gs pa t).
  { eapply crashed_frame; [exact C|]. intros n Hn. apply Hv1. by apply not_a_segment. }
  assert (Hm1 : MarkFiles.markIn v1 MarkFiles.reservedName = Some R).
  { unfold MarkFiles.markIn in *. by rewrite Hv1. }
  assert (Hid1 : MarkFiles.identity_ok v1) by (unfold MarkFiles.identity_ok in *; by rewrite Hv1).
  destruct (yields_recover _ clock newId _ _ _ _ _ _ R C1 Hmax Hm1 HR Hid1) as (l & v' & gs' & pa' & Hy & Hup).
  exists l, v', gs', pa'. split; [|by eapply comes_up_behind; [intros n (_ & _ & _ & ?); by apply Hv1|]].
  destruct (Z.ltb_spec maxRecordLimit (maxRecordBytes (withDefaults o))); [lia|].
  eapply Disk.yields_bind; [|by apply Disk.yields_on_error].
  eapply Disk.yields_bind; [apply Disk.yields_openCreate|].
  apply Disk.yields_wrapping, Disk.yields_on_error, Disk.yields_flock.
Qed.

Definition ex_id : bytes := Text.str "ABCDEFGHIJKLMNOP"%string.

(** ** Two corners recovery does not cover *)

(** A rotation whose fsync fails and whose new segment cannot be removed again:
    the empty file stays behind, the log goes on in the old segment, and the
    next [Open] refuses the chain, with every record acknowledged. *)
Definition ex_plan_stray : list Disk.fault :=
  replicate 10 Disk.Pass ++ [Disk.Trip (Sentinel EIO) 0; Disk.Pass; Disk.Trip (Sentinel EIO) 0].
Definition p_long : bytes := replicate 30 Byte.x61.
Definition ex_stray : sys :=
  round_trip [p1] (round_trip [p_long] (round_trip [p1; p2] (Sys (ex_world ex_plan_stray) Idle [] 0))).

Theorem stray_segment_refuses_open :
  acknowledged (log_of ex_stray) (staged ex_stray) = [(1, p1); (2, p2); (3, p1)] ∧
  broken (log_of ex_stray) = false ∧
  (recover ex_opts (λ _, 0) ex_id (shows (Disk.view (dk (sw ex_stray))))).1
    = Fail (Errorf "wal: segment chain broken" []).
Proof. by vm_compute. Qed.

(** A write that is complete when its fsync fails, and a rollback that fails:
    the appender is told of the failure, and the next [Open] finds the record
    whole and keeps it. *)
Definition ex_plan_revive : list Disk.fault :=
  replicate 7 Disk.Pass ++ [Disk.Trip (Sentinel EIO) 0; Disk.Trip (Sentinel EIO) 0].
Definition ex_revive : sys := round_trip [p1] (Sys (ex_world ex_plan_revive) Idle [] 0).

Theorem broken_fragment_can_come_back :
  broken (log_of ex_revive) = true ∧ acknowledged (log_of ex_revive) (staged ex_revive) = [] ∧
  match (recover ex_opts (λ _, 0) ex_id (shows (Disk.view (dk (sw ex_revive))))).1 with
  | Ok (l, _) => durable l = 1 ∧ map count (segs l) = [1; 0]
  | Fail _ => False
  end.
Proof. by vm_compute. Qed.

End Recovery.
