(* ===== verification/Kill.v ===== *)
(** * Killing a running log (src/internal/wal)

    The process dies at any call of any step of a log and the directory is opened
    again.  A step cut short leaves what the step leaves when it lives and its
    later calls fail (file Replay), so the invariant of the running log speaks of
    it; what is added here is which files are named like segments then.  A kill
    inside a rotation can leave the next segment behind, empty: recovery takes it
    for the newest. *)

From stdpp Require Import strings.
From S2P Require Import Prelude Errors Text Record Disk Segment MarkFiles Log LogInv Frame LogSteps Durable Replay Recovery.
Local Open Scope Z_scope.
Local Open Scope go_scope.

Module Kill.
Import Record Segment Log LogInv Frame LogSteps Durable Replay Recovery.

(** ** Files named like segments *)

(** No file is named like a segment without being one of the log's. *)
Definition no_strays (w : world) : bool :=
  forallb (λ f, match nameOf f with
                | Some _ => bool_decide (f ∈ path <$> segs (lg w))
                | None => true
                end) (elements (dom (Disk.view (dk w)))).

(** The segment a rotation makes next, empty, with nothing written to the active
    one behind its published records. *)
Record spare (w : world) (g : bytes) : Prop := {
  sp_name : g = segmentName (baseLSN (active (lg w)) + count (active (lg w)))
                  (baseLSN (active (lg w)) + count (active (lg w)) - 1);
  sp_empty : Disk.view (dk w) !! g = Some [];
  sp_behind : 0 < count (active (lg w));
  sp_whole : ∀ c, Disk.view (dk w) !! path (active (lg w)) = Some c → len c = size (active (lg w))
}.

(** A file named like a segment is one of the log's, or that. *)
Definition tidy (w : world) : Prop :=
  ∀ g n, is_Some (Disk.view (dk w) !! g) → nameOf g = Some n → g ∈ path <$> segs (lg w) ∨ spare w g.

Lemma no_strays_only w : no_strays w = true ↔
  ∀ g n, is_Some (Disk.view (dk w) !! g) → nameOf g = Some n → g ∈ path <$> segs (lg w).
Proof.
  unfold no_strays. rewrite forallb_forall. split.
  - intros H g n Hg Hn. specialize (H g). rewrite Hn in H.
    assert (Hin : In g (elements (dom (Disk.view (dk w))))).
    { by apply list_elem_of_In, elem_of_elements, elem_of_dom. }
    by apply H, bool_decide_eq_true in Hin.
  - intros H g Hg%list_elem_of_In%elem_of_elements%elem_of_dom. destruct (nameOf g) as [n|] eqn:En; [|done].
    apply bool_decide_eq_true. by apply (H g n).
Qed.

Lemma no_strays_tidy w : no_strays w = true → tidy w.
Proof. intros H g n Hg Hn. left. by apply (proj1 (no_strays_only w) H g n). Qed.

Lemma tidy_cases w : tidy w → no_strays w = true ∨ ∃ g, spare w g.
Proof.
  intros H. destruct (decide (Exists (λ g, is_Some (nameOf g) ∧ g ∉ path <$> segs (lg w))
                                (elements (dom (Disk.view (dk w)))))) as [He|He].
  - right. apply Exists_exists in He as (g & Hg%elem_of_elements%elem_of_dom & [n Hn] & Hno).
    destruct (H g n Hg Hn) as [?|Hs]; [done | by exists g].
  - left. apply no_strays_only. intros g n Hg Hn.
    destruct (decide (g ∈ path <$> segs (lg w))) as [|Hno]; [done|]. exfalso. apply He, Exists_exists.
    exists g. split; [by apply elem_of_elements, elem_of_dom|]. by rewrite Hn.
Qed.

(** ** What a kill leaves *)

(** The records that recovery will find: those of the log, and whole ones of an
    interrupted write. *)
Record crash_site (w : world) (gs : list (list bytes)) (pa ps : list bytes) (ss : list segment) (a : segment)
    (gs' : list (list bytes)) (pa' : list bytes) (t : bytes) (qs : list bytes) : Prop := {
  ks_crashed : crashed (Disk.view (dk w)) (maxRecordBytes (opts (lg w))) ss a gs' pa' t;
  ks_last : lastLSN a <= reserved (lg w);
  ks_whole : qs `prefix_of` ps;
  ks_records : records (ss ++ [a]) (gs' ++ [pa'])
    = all_records (lg w) gs pa ++ entries (baseLSN (active (lg w)) + len pa) qs;
  ks_head : match ss ++ [a] with s :: _ => prevEnd s | [] => 0 end = FirstPrevEnd (lg w)
}.

Lemma records_grow w gs pa qs k : length (sealed (lg w)) = length gs →
  records (sealed (lg w) ++ [grow k (len qs) (active (lg w))]) (gs ++ [pa ++ qs])
  = all_records (lg w) gs pa ++ entries (baseLSN (active (lg w)) + len pa) qs.
Proof.
  intros Hlen. unfold all_records, segs. rewrite !records_app by done.
  rewrite !records_single. simpl. by rewrite entries_app, app_assoc.
Qed.

(** With no stray, the whole records of an interrupted write become part of the
    last segment. *)
Lemma crash_in_place w gs pa fly st k h ps :
  core w gs pa fly st (take k (frames ps)) h → no_strays w = true →
  Forall (payload_ok (maxRecordBytes (opts (lg w)))) ps →
  baseLSN (active (lg w)) + len pa + len ps - 1 <= reserved (lg w) ∨ ps = [] →
  reserved (lg w) < maxU64 →
  ∃ ss a gs' pa' t qs, crash_site w gs pa ps ss a gs' pa' t qs.
Proof.
  intros C Hstray Hps Hbound Htop.
  assert (Hmax : 0 <= maxRecordBytes (opts (lg w)) < 4294967296 - 8).
  { pose proof (c_max _ _ _ _ _ _ _ C). unfold maxRecordLimit, headerSize in *. lia. }
  destruct (take_frames _ Hmax k ps Hps) as (i & t & E & Ht).
  set (qs := take i ps) in *. rewrite E in C. clear E.
  exists (sealed (lg w)), (grow (len (frames qs)) (len qs) (active (lg w))), gs, (pa ++ qs), t, qs.
  pose proof (c_reserved _ _ _ _ _ _ _ C) as Hres. pose proof (c_next _ _ _ _ _ _ _ C) as Hn.
  pose proof (len_nonneg fly). pose proof (len_nonneg st). pose proof (len_nonneg qs).
  assert (Hlq : baseLSN (active (lg w)) + len pa + len qs - 1 <= reserved (lg w)).
  { destruct Hbound as [Hb|Hb].
    - assert (len qs <= len ps); [|lia]. unfold qs, len. rewrite length_take. lia.
    - unfold qs. rewrite Hb, take_nil, len_nil. lia. }
  assert (Hrep : seg_rep (Disk.view (dk w)) (maxRecordBytes (opts (lg w))) t
    (grow (len (frames qs)) (len qs) (active (lg w))) (pa ++ qs)).
  { destruct (c_active _ _ _ _ _ _ _ C). pose proof (len_nonneg pa).
    split; simpl; rewrite ?frames_app, ?len_app; try done; try lia.
    - by rewrite rep_file0, app_assoc.
    - rewrite rep_count0. unfold maxU64 in *. ulia.
    - apply Forall_app. split; [done|]. by apply Forall_take. }
  split.
  - split; [apply C | done | done | by eapply linked_replace_last; [apply C|..] |].
    intros g n Hg Hn'. pose proof (proj1 (no_strays_only w) Hstray g n Hg Hn') as (s & -> & Hs)%list_elem_of_fmap.
    apply elem_of_app in Hs as [Hs| ->%list_elem_of_singleton].
    + exists s. split; [|done]. apply elem_of_app. by left.
    + eexists. split; [apply elem_of_app; right; by apply list_elem_of_singleton | done].
  - rewrite (rep_lastLSN _ _ _ _ _ Hrep), len_app. simpl. lia.
  - apply prefix_take.
  - apply records_grow, (core_length C).
  - unfold FirstPrevEnd, segs. by destruct (sealed (lg w)).
Qed.

(** The next segment, empty, is the last one recovery finds. *)
Lemma crash_at_rotation w gs pa fly st junk h g :
  core w gs pa fly st junk h → tidy w → spare w g → ∃ ss a gs' pa' t qs, crash_site w gs pa [] ss a gs' pa' t qs.
Proof.
  intros C Htidy [Hg He Hpos Hwhole].
  pose proof (c_active _ _ _ _ _ _ _ C) as Ha. pose proof (rep_count _ _ _ _ _ Ha) as Hcnt.
  pose proof (rep_base _ _ _ _ _ Ha) as Hb. pose proof (rep_lastLSN _ _ _ _ _ Ha) as Hla.
  pose proof (c_next _ _ _ _ _ _ _ C) as Hn. pose proof (c_bound _ _ _ _ _ _ _ C) as Hbd.
  pose proof (c_reserved _ _ _ _ _ _ _ C) as Hres. pose proof (len_nonneg fly). pose proof (len_nonneg st).
  assert (junk = []) as ->.
  { specialize (Hwhole _ (rep_file _ _ _ _ _ Ha)). rewrite len_app, (rep_size _ _ _ _ _ Ha) in Hwhole.
    destruct junk; [done|]. rewrite len_cons in Hwhole. pose proof (len_nonneg junk). lia. }
  set (first := baseLSN (active (lg w)) + count (active (lg w))) in *.
  set (a := Seg first g (first - 1) HNil 0 0).
  exists (segs (lg w)), a, (gs ++ [pa]), [], [], [].
  assert (Hlink : linked (segs (lg w) ++ [a])).
  { unfold segs. apply linked_snoc; [apply C| |]; simpl; lia. }
  assert (Hrep : seg_rep (Disk.view (dk w)) (maxRecordBytes (opts (lg w))) [] a []).
  { split; try done; simpl; rewrite ?len_nil; lia. }
  split.
  - split; [|done| |done|].
    2:{ apply torn_nil. pose proof (c_max _ _ _ _ _ _ _ C). unfold maxRecordLimit, headerSize in *. lia. }
    + unfold segs. apply Forall2_app; [apply C|]. constructor; [done|constructor].
    + intros f n Hf Hn'. destruct (Htidy f n Hf Hn') as [(s & -> & Hs)%list_elem_of_fmap|[]].
      * exists s. split; [|done]. apply elem_of_app. by left.
      * exists a. split; [apply elem_of_app; right; by apply list_elem_of_singleton | by change (path a) with g; rewrite sp_name0, Hg].
  - rewrite (rep_lastLSN _ _ _ _ _ Hrep). simpl. rewrite len_nil. lia.
  - done.
  - unfold all_records. rewrite records_app by (unfold segs; rewrite !length_app, (core_length C); done).
    by rewrite records_single.
  - unfold FirstPrevEnd, segs. by destruct (sealed (lg w)).
Qed.

Lemma killed_crashed w gs pa fly st k h ps :
  core w gs pa fly st (take k (frames ps)) h → tidy w →
  Forall (payload_ok (maxRecordBytes (opts (lg w)))) ps →
  baseLSN (active (lg w)) + len pa + len ps - 1 <= reserved (lg w) ∨ ps = [] →
  reserved (lg w) < maxU64 →
  ∃ ss a gs' pa' t qs, crash_site w gs pa ps ss a gs' pa' t qs.
Proof.
  intros C Ht Hps Hb Htop. destruct (tidy_cases w Ht) as [Hs|[g Hg]]; [by eapply crash_in_place|].
  destruct (crash_at_rotation _ _ _ _ _ _ _ _ C Ht Hg) as (ss & a & gs' & pa' & t & qs & []).
  exists ss, a, gs', pa', t, qs. split; try done. apply prefix_nil_inv in ks_whole0 as ->. apply prefix_nil.
Qed.

(** ** A step from a directory without strays leaves a tidy one *)

(** A call does not fail with the absence of a file that is there. *)
Definition never_absent (f : Disk.fault) : Prop :=
  match f with Disk.Pass => True | Disk.Trip e _ => errorsIs e NotExist = false end.

Lemma drawn_never_absent p used : Forall never_absent p → drawn p used → Forall never_absent used.
Proof.
  rewrite !Forall_forall. intros Hp Hu f Hf. unfold drawn in Hu. rewrite Forall_forall in Hu.
  destruct (Hu f Hf) as [->|[->|Hin]]; [done | done | by apply Hp].
Qed.

(** What is gone stays gone. *)
Definition stays_gone (n : bytes) : relation Disk.disk := λ d d',
  Disk.view d !! n = None → Disk.view d' !! n = None.

#[global] Instance stays_gone_preorder n : PreOrder (stays_gone n).
Proof. split; [intros d H; exact H|]. intros d1 d2 d3 H1 H2 H. auto. Qed.

Lemma stays_gone_remove n p : within (stays_gone n) (Disk.remove p).
Proof.
  intros d r d' [(_ & _ & V)|(e & _ & V)]%Disk.remove_inv H; rewrite V; [|done].
  by apply lookup_delete_None; right.
Qed.
#[local] Hint Resolve stays_gone_remove : within.

Lemma stays_gone_removeFiles n ss : ∀ k, within (stays_gone n) (removeFiles ss k).
Proof. induction ss as [|s ss IH]; intros k; cbn [removeFiles]; stays. Qed.

Lemma remove_gone p d r d' : Forall never_absent (Disk.plan d) → Disk.remove p d = (r, d') →
  (match r with Ok _ => True | Fail e => errorsIs e NotExist = true end → Disk.view d' !! p = None) ∧
  Forall never_absent (Disk.plan d').
Proof.
  unfold Disk.remove, Disk.call, Disk.view. intros Hp H.
  destruct (Disk.plan d) as [|[|e k] q] eqn:Ep.
  3:{ injection H as <- <-. apply Forall_cons in Hp as [Hn Hp]. split; [|done]. simpl in *. congruence. }
  all: split; [|by destruct (Disk.files (Disk.img d) !! p); injection H as <- <-; [..|]; inversion Hp].
  all: destruct (Disk.files (Disk.img d) !! p) as [fl|] eqn:E; injection H as <- <-; intros _; simpl;
    rewrite lookup_fmap; [by rewrite lookup_delete_eq | by rewrite E].
Qed.

Lemma removeFiles_gone ss : ∀ m d k rerr d', Forall never_absent (Disk.plan d) →
  removeFiles ss m d = (Ok ((m + k)%nat, rerr), d') → ∀ s, s ∈ take k ss → Disk.view d' !! path s = None.
Proof.
  induction ss as [|s ss IH]; intros m d k rerr d' Hp H x Hx; [by rewrite take_nil in Hx; apply not_elem_of_nil in Hx|].
  cbn [removeFiles] in H. apply bind_try_inv in H as (y & d1 & H1 & H).
  destruct (remove_gone _ _ _ _ Hp H1) as [Hg Hp1]. destruct k as [|k]; [by apply not_elem_of_nil in Hx|].
  assert (Hrest : removeFiles ss (S m) d1 = (Ok ((m + S k)%nat, rerr), d') →
    Disk.view d1 !! path s = None → Disk.view d' !! path x = None).
  { intros E Hn. apply elem_of_cons in Hx as [->|Hx]; [by apply (stays_gone_removeFiles _ _ _ _ _ _ E)|].
    replace (m + S k)%nat with (S m + k)%nat in E by lia. by apply (IH (S m) d1 k rerr d'). }
  destruct y as [u|e]; [by apply Hrest, Hg|]. destruct (errorsIs e NotExist); [by apply Hrest, Hg|].
  injection H as H _ _. lia.
Qed.

Lemma Truncate_gone u w r w' : Forall never_absent (Disk.plan (dk w)) → Truncate u w = (r, w') →
  ∃ k, segs (lg w') = drop k (sealed (lg w)) ++ [active (lg w)] ∧
    (∀ n, (∀ s, s ∈ take k (sealed (lg w)) → path s ≠ n) → Disk.view (dk w') !! n = Disk.view (dk w) !! n) ∧
    ∀ s, s ∈ take k (sealed (lg w)) → Disk.view (dk w') !! path s = None.
Proof.
  intros Hp H. unfold Truncate in H. apply bind_gets_inv in H. cbv beta zeta in H.
  destruct (doomed u (sealed (lg w))) as [|m] eqn:Ed.
  { injection H as _ <-. exists 0%nat. split; [by rewrite drop_0|]. split; [done|]. by intros s ?%not_elem_of_nil. }
  set (n := S m) in *.
  apply bind_inv in H as [([removed rerr] & w1 & H1 & H)|(e & H & _)].
  2: { apply onDisk_inv in H as (d1 & H & _). by apply removeFiles_spec in H as (? & ? & [=] & _). }
  apply onDisk_inv in H1 as (d1 & H1 & ->). pose proof H1 as H2.
  apply removeFiles_spec in H1 as (k & re & [= -> ->] & Hk & _ & Hv). simpl Nat.add in *.
  rewrite length_take in Hk. rewrite take_take, Nat.min_l in Hv by lia.
  pose proof (removeFiles_gone _ 0 _ _ _ _ Hp H2) as Hg. rewrite take_take, Nat.min_l in Hg by lia.
  exists k.
  assert (Hend : segs (lg w') = drop k (sealed (lg w)) ++ [active (lg w)] ∧ Disk.view (dk w') = Disk.view d1).
  { apply bind_inv in H as [([] & w2 & H3 & H)|(e & [=] & _)]. injection H3 as <-. destruct re as [e|].
    - by injection H as _ <-.
    - apply onDisk_inv in H as (d2 & H & ->). by apply Disk.syncDir_inv in H as [_ V]. }
  destruct Hend as [-> ->]. split; [done|]. split; [done | exact Hg].
Qed.

(** Nothing new is named like a segment, and nothing that was one of the log's
    has stayed behind. *)
Lemma strays_kept w w' :
  no_strays w = true →
  (∀ g n, nameOf g = Some n → is_Some (Disk.view (dk w') !! g) → g ∈ path <$> segs (lg w') ∨
     (is_Some (Disk.view (dk w) !! g) ∧ (g ∈ path <$> segs (lg w) → g ∈ path <$> segs (lg w')))) →
  no_strays w' = true.
Proof.
  intros H Hw. apply no_strays_only. intros g n Hg Hn. destruct (Hw g n Hn Hg) as [|[Hs Hp]]; [done|].
  apply Hp, (proj1 (no_strays_only w) H g n Hs Hn).
Qed.

Lemma strays_same w w' :
  no_strays w = true → path <$> segs (lg w') = path <$> segs (lg w) →
  (∀ g n, nameOf g = Some n → g ∉ path <$> segs (lg w) → Disk.view (dk w') !! g = Disk.view (dk w) !! g) →
  no_strays w' = true.
Proof.
  intros H Ep Hv. apply (strays_kept w); [done|]. rewrite Ep. intros g n Hn Hg.
  destruct (decide (g ∈ path <$> segs (lg w))) as [|Hno]; [by left|]. right. rewrite <- (Hv g n Hn Hno). done.
Qed.

Lemma not_named n g m : nameOf n = None → nameOf g = Some m → n ≠ g.
Proof. intros Hn Hg ->. congruence. Qed.

(** Contents that are nothing or empty. *)
Definition blank (n : bytes) (d : Disk.disk) : Prop := Disk.view d !! n = None ∨ Disk.view d !! n = Some [].
Definition stays_blank (n : bytes) : relation Disk.disk := λ d d', blank n d → blank n d'.

#[global] Instance stays_blank_preorder n : PreOrder (stays_blank n).
Proof. split; [intros d H; exact H|]. intros d1 d2 d3 H1 H2 H. auto. Qed.

Lemma blank_same n {A} (m : M Disk.disk A) : within (same_contents n) m → within (stays_blank n) m.
Proof.
  intros Hm d r d' H. pose proof (Hm _ _ _ H) as E.
  unfold same_contents, same_view, fileOf in E. unfold stays_blank, blank. by rewrite E.
Qed.

Lemma blank_openExcl n p : within (stays_blank n) (Disk.openExcl p).
Proof.
  intros d r d' H Hb. apply Disk.openExcl_inv in H as [(_ & _ & V)|(e & _ & V)]; unfold blank in *; rewrite V; [|done].
  destruct (decide (p = n)) as [->|Hne]; [right; apply lookup_insert_eq | by rewrite lookup_insert_ne].
Qed.

Lemma blank_remove n p : within (stays_blank n) (Disk.remove p).
Proof.
  intros d r d' H Hb. apply Disk.remove_inv in H as [(_ & _ & V)|(e & _ & V)]; unfold blank in *; rewrite V; [|done].
  destruct (decide (p = n)) as [->|Hne]; [left; apply lookup_delete_eq | by rewrite lookup_delete_ne].
Qed.

Lemma blank_onDisk n {A} (m : M Disk.disk A) : within (stays_blank n) m → within (on_disk (stays_blank n)) (onDisk m).
Proof. intros Hm w r w' H. apply onDisk_inv in H as (d & H & ->). by apply (Hm _ _ _ H). Qed.

Lemma blank_setLog n g : within (on_disk (stays_blank n)) (setLog g).
Proof. intros w r w' [= _ <-] H. exact H. Qed.

Lemma blank_stat n p : within (stays_blank n) (Disk.stat p). Proof. apply blank_same. stays. Qed.
Lemma blank_fsync n p : within (stays_blank n) (Disk.fsync p). Proof. apply blank_same. stays. Qed.
Lemma blank_close n p : within (stays_blank n) (Disk.close p). Proof. apply blank_same. stays. Qed.
Lemma blank_syncDir n : within (stays_blank n) Disk.syncDir. Proof. apply blank_same. stays. Qed.
#[local] Hint Resolve blank_openExcl blank_remove blank_onDisk blank_setLog blank_stat blank_fsync blank_close blank_syncDir : within.

Lemma blank_discard n s : within (stays_blank n) (discard s).
Proof. unfold discard. stays. Qed.
#[local] Hint Resolve blank_discard : within.

Lemma blank_rotate n first : within (on_disk (stays_blank n)) (rotate first).
Proof. unfold rotate, createSegment, clearEmpty, via. stays. all: apply blank_onDisk; stays. Qed.

Section step.
Context {init : list (Z * bytes)} {s : sys} {gs : list (list bytes)} {pa fly st : list bytes}
  {junk : bytes} {h : handle} {flown : list bytes} {old : list (nat * (Z * bytes))}.
Context (G : good init s gs pa fly st junk h flown old) (Hs : no_strays (sw s) = true).

(** A rotation that fails may leave the segment it made. *)
Lemma tidy_rotate j r w' : ph s = Writing j → mustRotate (log_of s) (buf j) = true →
  rotate (jfirst j) (sw s) = (r, w') → tidy w'.
Proof using G Hs.
  intros Hp Em H. pose proof (i_core _ _ _ _ _ _ _ _ _ _ G) as C.
  pose proof (i_job _ _ _ _ _ _ _ _ _ _ G) as J. pose proof (i_clean _ _ _ _ _ _ _ _ _ _ G) as Hc.
  rewrite Hp in J, Hc. simpl in J, Hc. destruct (Hc I) as [-> ->]. destruct (j_where _ _ _ _ _ _ J) as [_ Hfirst].
  pose proof (c_active _ _ _ _ _ _ _ C) as Ha. pose proof (rep_base _ _ _ _ _ Ha) as Hb.
  pose proof (rep_count _ _ _ _ _ Ha) as Hcnt. pose proof (rep_size _ _ _ _ _ Ha) as Hsz.
  pose proof (c_next _ _ _ _ _ _ _ C). pose proof (c_bound _ _ _ _ _ _ _ C).
  pose proof (len_nonneg fly). pose proof (len_nonneg st).
  unfold mustRotate in Em. bools. unfold log_of in *.
  assert (Hpa : pa ≠ []) by (intros E; rewrite E in Hsz; change (len (frames [])) with 0 in Hsz; lia).
  pose proof (len_pos pa Hpa). assert (Hle : jfirst j <= maxU64) by lia.
  assert (Hu : jfirst j -u 1 = jfirst j - 1) by (unfold maxU64 in *; ulia).
  set (n := segmentName (jfirst j) (jfirst j - 1)).
  assert (Hnn : nameOf n = Some (SegName (jfirst j) (jfirst j - 1))).
  { apply nameOf_next; unfold is_u64, maxU64 in *; lia. }
  assert (Hno : ∀ t, t ∈ segs (lg (sw s)) → path t ≠ n).
  { intros t Ht. apply (next_name_fresh C (jfirst j)); try done. right. by exists t. }
  assert (Hblank : blank n (dk w')).
  { pose proof (blank_rotate n _ _ _ _ H) as Hk. apply Hk. left. apply eq_None_not_Some. intros Hsome.
    pose proof (proj1 (no_strays_only _) Hs n _ Hsome Hnn) as (t & E & Ht)%list_elem_of_fmap. by apply (Hno t). }
  assert (Hother : ∀ g, g ≠ n → Disk.view (dk w') !! g = Disk.view (dk (sw s)) !! g).
  { intros g Hg. apply (sp_rotate g (same_contents g) (jfirst j)) in H; [exact H|]. rewrite Hu. by apply not_eq_sym. }
  assert (Hin : ∀ g m, g ≠ n → is_Some (Disk.view (dk w') !! g) → nameOf g = Some m → g ∈ path <$> segs (lg (sw s))).
  { intros g m Hg Hsome Hm. rewrite (Hother g Hg) in Hsome. by apply (proj1 (no_strays_only _) Hs g m). }
  intros g m Hsome Hm. apply rotate_segs in H as [(_ & El & _)|(_ & hd & El)].
  - left. rewrite El. unfold segs. simpl. rewrite !fmap_app. simpl. rewrite Hu.
    destruct (decide (g = n)) as [->|Hg]; [apply elem_of_app; right; by apply list_elem_of_singleton|].
    specialize (Hin g m Hg Hsome Hm). unfold segs in Hin. rewrite fmap_app in Hin. apply elem_of_app. by left.
  - assert (Ep : path <$> segs (lg w') = path <$> segs (lg (sw s))).
    { rewrite El. unfold segs. simpl. by rewrite !fmap_app. }
    destruct (decide (g = n)) as [->|Hg]; [right | left; rewrite Ep; by apply (Hin g m)].
    split; rewrite ?El; simpl.
    + rewrite Hcnt, <- Hfirst. done.
    + destruct Hblank as [E|E]; [|exact E]. rewrite E in Hsome. by destruct Hsome.
    + lia.
    + intros c. rewrite Hother by (apply Hno, elem_of_app; right; by apply list_elem_of_singleton).
      rewrite (rep_file _ _ _ _ _ Ha), app_nil_r. intros [= <-]. by rewrite Hsz.
Qed.

End step.

(** The other steps leave no file of that kind. *)
Lemma tidy_step init s s2 gs pa fly st junk h flown old : good init s gs pa fly st junk h flown old →
  no_strays (sw s) = true → Forall never_absent (Disk.plan (dk (sw s))) → step s s2 → tidy (sw s2).
Proof.
  intros G Hs Hplan Hstep. pose proof (i_core _ _ _ _ _ _ _ _ _ _ G) as C. pose proof (failErr_set G) as Hf.
  assert (Hmem : ∀ w2, path <$> segs (lg w2) = path <$> segs (log_of s) → dk w2 = dk (sw s) → tidy w2).
  { intros w2 Ep Ed. apply no_strays_tidy, (strays_same (sw s)); [done|done|]. by rewrite Ed. }
  assert (Hin : path (active (log_of s)) ∈ path <$> segs (log_of s)).
  { apply list_elem_of_fmap_2, elem_of_app. right. by apply list_elem_of_singleton. }
  destruct Hstep as [? ? [s ps first last r w' Hps Hroom H|s ps e w' Hroom H|s j l' Hp H|s j r w' Hp H
    |s j r w' Hp H|s j e r w' Hp H|s j e rb Hp|s]|s u r w' H|s m r d' Hu H]; unfold log_of in *; cbn [sw] in *.
  1, 2: apply no_strays_tidy, (strays_same (sw s)); [done| |].
  - apply (AppendBatchAsync_spec _ _ _ _ _ _ _ _ _ _ C Hf Hps Hroom) in H
      as [(want & _ & _ & _ & -> & _)|(? & [=] & _)]. done.
  - intros g n Hn _. apply (sp_AppendBatchAsync g (same_contents g)) in H; [exact H|..]; by eapply not_named.
  - destruct (decide (ps = [])) as [->|Hps]; [done|].
    by apply (AppendBatchAsync_spec _ _ _ _ _ _ _ _ _ _ C Hf Hps Hroom) in H as [(? & [=] & _)|(? & _ & -> & _)].
  - intros g n Hn _. apply (sp_AppendBatchAsync g (same_contents g)) in H; [exact H|..]; by eapply not_named.
  - apply Hmem; [|done]. unfold commitBegin in H. destruct (_ || _); [done|].
    apply Some_inj, (f_equal snd) in H. simpl in H. by subst l'.
  - destruct (mustRotate (lg (sw s)) (buf j)) eqn:Em; [by eapply (tidy_rotate G)|].
    injection H as _ <-. by apply Hmem.
  - apply no_strays_tidy, (strays_same (sw s)); [done| |].
    + unfold appendBatch in H. apply bind_gets_inv in H. cbv beta in H.
      apply bind_inv in H as [([] & w1 & H1 & H)|(e & H & _)]; [|by apply onDisk_inv in H as (d & _ & ->)].
      apply onDisk_inv in H1 as (d1 & _ & ->).
      apply bind_inv in H as [([] & w2 & H2 & H)|(e & H & _)].
      * assert (El : lg w2 = lg (sw s)) by (case_bool_decide; [by injection H2 as <-|by apply onDisk_inv in H2 as (d & _ & ->)]).
        injection H as _ <-. simpl. rewrite El. unfold segs. simpl. by rewrite !fmap_app.
      * case_bool_decide; [done|]. by apply onDisk_inv in H as (d & _ & ->).
    + intros g n _ Hg. apply (sp_appendBatch g (same_contents g)) in H; [exact H|].
      apply sp_write. by intros <-.
  - apply no_strays_tidy, (strays_same (sw s)); [done|by rewrite (rollback_log _ _ _ H)|].
    intros g n _ Hg. apply (sp_rollback g (same_contents g)) in H; [exact H|].
    apply sp_truncate. by intros <-.
  - apply Hmem; [|done]. by destruct e.
  - by apply Hmem.
  - destruct (Truncate_gone _ _ _ _ Hplan H) as (k & Esegs & Hv & Hgone).
    apply no_strays_tidy, (strays_kept (sw s)); [done|]. intros g n Hn Hg. rewrite Esegs.
    destruct (decide (g ∈ path <$> take k (sealed (lg (sw s))))) as [(t & -> & Ht)%list_elem_of_fmap|Hno].
    + rewrite (Hgone t Ht) in Hg. by destruct Hg.
    + right. rewrite <- Hv; [|intros t Ht <-; by apply Hno, list_elem_of_fmap_2]. split; [done|].
      unfold segs. rewrite <- (take_drop k (sealed (lg (sw s)))) at 1. rewrite <- app_assoc, fmap_app.
      by intros [?|?]%elem_of_app.
  - apply no_strays_tidy, (strays_same (sw s)); [done|done|].
    intros g n Hn _. apply (sp_replaceFile g (same_contents g)) in H; [exact H|..]; by eapply not_named.
Qed.

(** ** What comes up *)

(** The records of the rounds that have begun. *)
Definition begun (s : sys) : list (Z * bytes) :=
  snd <$> filter (λ x, x.1 ≠ curRound (log_of s)) (staged s).

Lemma begun_staged s e : e ∈ begun s → e ∈ snd <$> staged s.
Proof. intros (x & -> & Hx)%list_elem_of_fmap. apply list_elem_of_filter in Hx as [_ Hx]. by apply list_elem_of_fmap_2. Qed.

Section site.
Context {init : list (Z * bytes)} {s : sys} {gs : list (list bytes)} {pa fly st : list bytes}
  {junk : bytes} {h : handle} {flown : list bytes} {old : list (nat * (Z * bytes))}.
Context (G : good init s gs pa fly st junk h flown old).

(** What the leftover of an interrupted round can add to the log. *)
Lemma left_over_reserved : claimed s → ∃ k ps, junk = take k (frames ps) ∧
  Forall (payload_ok (maxRecordBytes (opts (log_of s)))) ps ∧
  (baseLSN (active (log_of s)) + len pa + len ps - 1 <= reserved (log_of s) ∨ ps = []) ∧
  ∀ e, e ∈ entries (baseLSN (active (log_of s)) + len pa) ps → e ∈ begun s.
Proof using G.
  intros Hc. destruct (i_junk _ _ _ _ _ _ _ _ _ _ G) as [->|(k & r & ps & -> & Hps & Hr & _ & _ & Ho)].
  { exists 0%nat, []. split; [done|]. split; [constructor|]. split; [by right|].
    intros e He. by apply not_elem_of_nil in He. }
  set (at_ := baseLSN (active (log_of s)) + len pa) in *.
  assert (Hin : ∀ e, e ∈ entries at_ ps → e ∈ begun s).
  { intros e He. rewrite <- Ho in He. unfold of_round in He.
    apply list_elem_of_fmap in He as (x & -> & Hx). apply list_elem_of_filter in Hx as [Hxr Hx].
    apply list_elem_of_fmap_2, list_elem_of_filter. split; [congruence | done]. }
  exists k, ps. split; [done|]. split; [done|]. split; [|done].
  destruct ps as [|p ps] using rev_ind; [by right|left]. clear IHps.
  assert (He : (at_ + len ps, p) ∈ entries at_ (ps ++ [p])).
  { rewrite entries_app. apply elem_of_app. right.
    change (entries (at_ + len ps) [p]) with [(at_ + len ps + 0, p)].
    rewrite Z.add_0_r. by apply list_elem_of_singleton. }
  apply Hin, begun_staged, list_elem_of_fmap in He as (x & Hx & Hxin).
  unfold claimed in Hc. rewrite Forall_forall in Hc. apply Hc in Hxin. rewrite <- Hx in Hxin. simpl in Hxin.
  rewrite len_app, len_cons, len_nil. lia.
Qed.

(** What is in the files was handed to a round that has begun. *)
Lemma stored_was_begun e : e ∈ acknowledged (log_of s) (staged s) ++ published (ph s) (staged s) → e ∈ begun s.
Proof using G.
  assert (Hsub : ∀ (P : nat * (Z * bytes) → Prop) (D : ∀ x, Decision (P x)),
    (∀ x, P x → x.1 ≠ curRound (log_of s)) → e ∈ snd <$> filter P (staged s) → e ∈ begun s).
  { intros P D HP (x & -> & Hx)%list_elem_of_fmap. apply list_elem_of_filter in Hx as [HPx Hx].
    apply list_elem_of_fmap_2, list_elem_of_filter. split; [by apply HP | done]. }
  intros [He|He]%elem_of_app.
  - refine (Hsub _ _ _ He). intros x Hx E. cbv beta in Hx. by rewrite E, (good_cur_open G) in Hx.
  - destruct (ph s) as [| | | |j [e0|] rb] eqn:Ep; try (by apply not_elem_of_nil in He).
    pose proof (i_job _ _ _ _ _ _ _ _ _ _ G) as J. rewrite Ep in J. simpl in J.
    refine (Hsub _ _ _ He). intros x ->. apply (j_cur _ _ _ _ _ _ J).
Qed.

(** An acknowledged record that was not truncated is in the log. *)
Lemma acknowledged_in_log e :
  e ∈ init ++ acknowledged (log_of s) (staged s) ++ published (ph s) (staged s) → upto s <= e.1 →
  e ∈ all_records (log_of s) gs pa.
Proof using G.
  intros He Hu. destruct (good_refines G) as (gone & Hg & Hgu). rewrite Hg in He.
  apply elem_of_app in He as [He|He]; [|done]. rewrite Forall_forall in Hgu. apply Hgu in He. lia.
Qed.
End site.

(** What the directory of a log comes up as when its process dies, in full. *)
Record reopened (init : list (Z * bytes)) (s : sys) (gs : list (list bytes)) (pa : list bytes) (R : Z)
    (l : log) (v' : gmap bytes bytes) (gs' : list (list bytes)) (pa' : list bytes) : Prop := {
  ro_fresh : ∀ d, Disk.view d = v' → fresh (World l d) gs' pa';
  ro_next : nextLSN l = R + 1;
  ro_reserved : reserved (log_of s) <= R;
  ro_head : FirstPrevEnd l = FirstPrevEnd (log_of s);
  ro_first : FirstLSN l = match segs l with s :: _ => baseLSN s | [] => 0 end;
  ro_files : ∀ n, bystander n → v' !! n = Disk.view (dk (sw s)) !! n;
  ro_kept : ∀ e, e ∈ all_records (log_of s) gs pa → e ∈ all_records l gs' pa';
  ro_known : ∀ e, e ∈ all_records l gs' pa' → e ∈ init ∨ e ∈ begun s
}.

Lemma site_comes_up init s gs pa fly st junk h flown old o clock newId :
  good init s gs pa fly st junk h flown old → claimed s → tidy (sw s) →
  (∀ R, MarkFiles.markIn (Disk.view (dk (sw s))) MarkFiles.reservedName = Some R → R < maxU64) →
  MarkFiles.identity_ok (Disk.view (dk (sw s))) →
  maxRecordBytes (withDefaults o) = maxRecordBytes (opts (log_of s)) →
  ∃ R l v' gs' pa', MarkFiles.markIn (Disk.view (dk (sw s))) MarkFiles.reservedName = Some R ∧
    Disk.yields (Open o clock newId) (Disk.view (dk (sw s))) (l, []) v' ∧
    reopened init s gs pa R l v' gs' pa'.
Proof.
  intros G Hc Ht HR Hid Ho.
  pose proof (i_core _ _ _ _ _ _ _ _ _ _ G) as C. destruct (c_mark _ _ _ _ _ _ _ C) as (R & Hm & Hle).
  specialize (HR R Hm). destruct (left_over_reserved G Hc) as (k & ps & -> & Hps & Hb & Hin).
  unfold log_of in *.
  destruct (killed_crashed _ _ _ _ _ _ _ _ C Ht Hps Hb) as (ss & a & gs1 & pa1 & t & qs & [Cr Hlast Hq Hrec Hhd]); [lia|].
  pose proof (c_max _ _ _ _ _ _ _ C) as Hmax. rewrite <- Ho in Cr, Hmax.
  destruct (yields_Open o clock newId _ _ _ _ _ _ R Cr Hmax Hm) as (l & v' & gs' & pa' & Hy & Hup); [lia | done |].
  destruct Hup as [Hf _ Hn _ Hr Hh Hfst Hfiles]. rewrite Hrec in Hr. rewrite Hhd in Hh.
  exists R, l, v', gs', pa'. split; [done|]. split; [exact Hy|]. unfold log_of in *.
  split; try done; unfold log_of in *; rewrite ?Hr; [lia | |].
  - intros e He. apply elem_of_app. by left.
  - intros e [He|He]%elem_of_app.
    + destruct (good_refines G) as (gone & Hg & _). unfold log_of in Hg.
      assert (He' : e ∈ init ++ acknowledged (lg (sw s)) (staged s) ++ published (ph s) (staged s))
        by (rewrite Hg; apply elem_of_app; by right).
      apply elem_of_app in He' as [He'|He']; [by left|right]. by apply (stored_was_begun G).
    + right. apply Hin. destruct Hq as [rest ->]. rewrite entries_app. apply elem_of_app. by left.
Qed.

(** *** A step that was cut short *)

Lemma begun_step init s s2 gs pa fly st junk h flown old e :
  good init s gs pa fly st junk h flown old → step s s2 → e ∈ begun s2 → e ∈ snd <$> staged s.
Proof.
  intros G Hstep He. pose proof (i_core _ _ _ _ _ _ _ _ _ _ G) as C. pose proof (failErr_set G) as Hf.
  destruct Hstep as [? ? [s ps first last r w' Hps Hroom H|s ps e0 w' Hroom H|s j l' Hp H|s j r w' Hp H
    |s j r w' Hp H|s j e0 r w' Hp H|s j e0 rb Hp|s]|s u r w' H|s m r d' Hu H]; try (by apply begun_staged in He).
  unfold log_of in *. apply (AppendBatchAsync_spec _ _ _ _ _ _ _ _ _ _ C Hf Hps Hroom) in H
    as [(want & [= -> -> ->] & _ & _ & El & _)|(? & [=] & _)].
  unfold begun in He. apply list_elem_of_fmap in He as (x & -> & Hx).
  apply list_elem_of_filter in Hx as [Hr Hx]. unfold log_of in Hr. simpl in Hr, Hx. rewrite El in Hr. simpl in Hr.
  apply list_elem_of_fmap_2. apply elem_of_app in Hx as [Hx|Hx]; [done|].
  by apply list_elem_of_fmap in Hx as (y & -> & _).
Qed.

(** No step changes the options or gives numbers back. *)
Lemma step_keeps {init s s2 gs pa fly st junk h flown old} : good init s gs pa fly st junk h flown old → step s s2 →
  opts (log_of s2) = opts (log_of s) ∧ reserved (log_of s) <= reserved (log_of s2).
Proof.
  intros G Hstep. pose proof (i_core _ _ _ _ _ _ _ _ _ _ G) as C. pose proof (failErr_set G) as Hf.
  assert (Hso : ∀ l', segs_only (log_of s) l' → opts l' = opts (log_of s) ∧ reserved (log_of s) <= reserved l')
    by (intros l' (ss & a & ->); done).
  destruct Hstep as [? ? [s ps first last r w' Hps Hroom H|s ps e w' Hroom H|s j l' Hp H|s j r w' Hp H
    |s j r w' Hp H|s j e r w' Hp H|s j e rb Hp|s]|s u r w' H|s m r d' Hu H]; unfold log_of in *; simpl in *; try done.
  - split; [|by eapply stage_claims].
    by apply (AppendBatchAsync_spec _ _ _ _ _ _ _ _ _ _ C Hf Hps Hroom) in H as [(want & _ & _ & _ & -> & _)|(? & [=] & _)].
  - destruct (decide (ps = [])) as [->|Hps]; [done|].
    by apply (AppendBatchAsync_spec _ _ _ _ _ _ _ _ _ _ C Hf Hps Hroom) in H as [(? & [=] & _)|(? & _ & -> & _)].
  - unfold commitBegin in H. destruct (_ || _); [done|]. apply Some_inj, (f_equal snd) in H. simpl in H. by subst l'.
  - destruct (mustRotate _ _); [by apply Hso, (rotate_log _ _ _ _ H) | by injection H as _ <-].
  - by apply Hso, (appendBatch_log _ _ _ _ _ _ H).
  - by rewrite (rollback_log _ _ _ H).
  - by destruct e.
  - by destruct (Truncate_spec _ _ _ _ _ _ _ _ _ _ C H) as (k & _ & _ & (k' & first & ->) & _).
Qed.

(** A record is kept by a step that does not truncate above it. *)
Lemma grown_keeps w gs pa fly st junk h w' gs' pa' fly' st' junk' h' u e :
  core w gs pa fly st junk h → core w' gs' pa' fly' st' junk' h' →
  grown u (book (lg w) gs pa) (book (lg w') gs' pa') → u <= e.1 →
  e ∈ all_records (lg w) gs pa → e ∈ all_records (lg w') gs' pa'.
Proof.
  intros C C' Hg Hu He. apply (book_records C) in He as (t & ps & Hbk & Hen).
  destruct (gr_keep _ _ _ Hg t ps Hbk) as [Hle|(t' & qs & Hbk' & [_ Eb _])]; [apply entries_lsn in Hen; lia|].
  apply (book_records C'). exists t', (ps ++ qs). split; [done|]. rewrite Eb, entries_app. apply elem_of_app. by left.
Qed.

(** The directory as a process finds it that opens it at this image. *)
Definition shown (i : Disk.image) : gmap bytes bytes := Disk.cur <$> Disk.files i.

(** No step touches the identity of the directory. *)
Lemma identity_kept init s s2 gs pa fly st junk h flown old : good init s gs pa fly st junk h flown old → step s s2 →
  Disk.view (dk (sw s2)) !! MarkFiles.identityName = Disk.view (dk (sw s)) !! MarkFiles.identityName.
Proof.
  intros G Hstep. set (n := MarkFiles.identityName). change (same_contents n (dk (sw s)) (dk (sw s2))).
  assert (Hseg : ∀ b p, segmentName b p ≠ n) by (intros b p E; apply (f_equal length) in E; by rewrite length_segmentName in E).
  assert (Hpath : ∀ t, t ∈ segs (log_of s) → path t ≠ n).
  { intros t Ht. apply not_eq_sym, (seg_not_mark G t n Ht). by vm_compute. }
  assert (Ha : path (active (log_of s)) ≠ n) by (apply Hpath, elem_of_app; right; by apply list_elem_of_singleton).
  destruct Hstep as [s s' H|s u r w' H|s m r d' _ H].
  - revert H. apply (running_spares n (same_contents n)).
    + intros ps r w'. apply (sp_AppendBatchAsync n (same_contents n) ps); by vm_compute.
    + intros j _ _. apply Hseg.
    + intros b. by apply sp_write.
    + by apply sp_truncate.
  - apply (sp_Truncate n (same_contents n)) in H; [exact H|]. apply Forall_forall. intros t Ht.
    apply Hpath, elem_of_app. left. apply elem_of_take in Ht as (k & Hk & _). by apply list_elem_of_lookup_2 in Hk.
  - apply (sp_replaceFile n (same_contents n)) in H; [exact H|by vm_compute..].
Qed.

(** The log a kill inside a step is a kill of: a good one, in a tidy directory,
    with the records of the log before the step that the step does not truncate. *)
Lemma killed_inside init s s' i gs pa fly st junk h flown old :
  good init s gs pa fly st junk h flown old → claimed s → no_strays (sw s) = true →
  Forall never_absent (Disk.plan (dk (sw s))) → step s s' → moment s s' i →
  ∃ s2 gs2 pa2 fly2 st2 junk2 h2 flown2 old2,
    good init s2 gs2 pa2 fly2 st2 junk2 h2 flown2 old2 ∧ claimed s2 ∧ tidy (sw s2) ∧
    Disk.img (dk (sw s2)) = i ∧ opts (log_of s2) = opts (log_of s) ∧ reserved (log_of s) <= reserved (log_of s2) ∧
    (∀ e, upto s' <= e.1 → e ∈ all_records (log_of s) gs pa → e ∈ all_records (log_of s2) gs2 pa2) ∧
    (∀ e, e ∈ begun s2 → e ∈ snd <$> staged s) ∧
    Disk.view (dk (sw s2)) !! MarkFiles.identityName = Disk.view (dk (sw s)) !! MarkFiles.identityName.
Proof.
  intros G Hc Hs Hplan Hstep Hm. destruct (step_cut G Hstep Hm) as (used & s2 & Hst & Hi & Hu & Hd).
  pose proof (good_rewind used _ _ _ _ _ _ _ _ _ _ G) as G1.
  destruct (good_step G1 Hst) as (gs2 & pa2 & fly2 & st2 & junk2 & h2 & flown2 & old2 & G2 & Hg).
  assert (Hc1 : claimed (rewind used s)) by exact Hc.
  exists s2, gs2, pa2, fly2, st2, junk2, h2, flown2, old2. split; [done|].
  split; [eapply claimed_step; [|exact Hc1|exact Hst]; by do 8 eexists|].
  split; [eapply (tidy_step _ (rewind used s)); [exact G1 | exact Hs | by eapply drawn_never_absent | exact Hst]|].
  split; [done|]. destruct (step_keeps G1 Hst) as [Ho Hr]. split; [exact Ho|]. split; [exact Hr|].
  split; [|split; [intros e He; by apply (begun_step _ (rewind used s) _ _ _ _ _ _ _ _ _ _ G1 Hst)|
    exact (identity_kept _ _ _ _ _ _ _ _ _ _ _ G1 Hst)]].
  intros e He Hin. rewrite <- Hu in He.
  by apply (grown_keeps _ _ _ _ _ _ _ _ _ _ _ _ _ _ _ e (i_core _ _ _ _ _ _ _ _ _ _ G1) (i_core _ _ _ _ _ _ _ _ _ _ G2) Hg).
Qed.

Lemma identity_reachable w0 gs0 pa0 s : fresh w0 gs0 pa0 → reachable w0 s →
  Disk.view (dk (sw s)) !! MarkFiles.identityName = Disk.view (dk w0) !! MarkFiles.identityName.
Proof.
  intros F. induction 1 as [|s s' R IH Hs]; [done|]. rewrite <- IH.
  destruct (reachable_inv _ _ _ _ F R) as (gs & pa & fly & st & junk & h & flown & old & G). by eapply identity_kept.
Qed.

(** C8: durability across a kill.  Stop the process at any moment of any run:
    between two steps or inside one, behind any of the calls an append, a
    rotation, a write, a rollback, a truncation or a checkpoint makes, with
    whatever a failing or unfinished round left in the file, and open the
    directory again, no call failing this time.  Recovery succeeds, the log that
    comes up accepts work, it holds every acknowledged record not truncated, it
    holds nothing that was not there at the start or handed to an append before
    the step, and it numbers new records above every number handed out.

    The conditions: the record limit is the same; the directory's identity, if
    it has one, was well formed at the start; the reservation is below the last
    number; no call that fails from the interrupted step on fails by saying that a
    file is absent; and no stray segment was there before the step.  A rotation
    that fails and cannot remove the segment it made leaves one, while the process
    lives on, and [stray_segment_refuses_open] (file Recovery) shows that the
    condition is needed. *)
Theorem reopen_after_kill w0 gs0 pa0 s s' i o clock newId :
  fresh w0 gs0 pa0 → reachable w0 s → step s s' → moment s s' i →
  no_strays (sw s) = true → Forall never_absent (Disk.plan (dk (sw s))) →
  MarkFiles.identity_ok (Disk.view (dk w0)) →
  (∀ R, MarkFiles.markIn (shown i) MarkFiles.reservedName = Some R → R < maxU64) →
  maxRecordBytes (withDefaults o) = maxRecordBytes (opts (log_of s)) →
  ∃ l v' gs' pa',
    Disk.yields (Open o clock newId) (shown i) (l, []) v' ∧
    (∀ d, Disk.view d = v' → fresh (World l d) gs' pa') ∧
    (∀ e, e ∈ all_records (lg w0) gs0 pa0 ++ acknowledged (log_of s) (staged s) → upto s' <= e.1 →
          e ∈ all_records l gs' pa') ∧
    (∀ e, e ∈ all_records l gs' pa' → e ∈ all_records (lg w0) gs0 pa0 ∨ e ∈ snd <$> staged s) ∧
    Forall (λ x, x.2.1 < nextLSN l) (staged s).
Proof.
  intros F HR Hstep Hm Hstray Hplan Hid Hroom Ho. pose proof (reachable_claimed _ _ _ _ F HR) as Hc.
  destruct (reachable_inv _ _ _ _ F HR) as (gs & pa & fly & st & junk & h & flown & old & G).
  destruct (killed_inside _ _ _ _ _ _ _ _ _ _ _ _ G Hc Hstray Hplan Hstep Hm)
    as (s2 & gs2 & pa2 & fly2 & st2 & junk2 & h2 & flown2 & old2 & G2 & Hc2 & Ht2 & <- & Eo & Hres & Hkeep & Hknown & Eid).
  destruct (site_comes_up _ _ _ _ _ _ _ _ _ _ o clock newId G2 Hc2 Ht2 Hroom) as (R & l & v' & gs' & pa' & _ & Hy & []).
  { unfold MarkFiles.identity_ok in *. by rewrite Eid, (identity_reachable _ _ _ _ F HR). }
  { by rewrite Eo. }
  exists l, v', gs', pa'. split; [exact Hy|]. split; [done|]. split; [|split].
  - intros e He Hu. apply ro_kept0, Hkeep; [done|]. pose proof (step_upto _ _ Hstep).
    apply (acknowledged_in_log G); [|lia]. rewrite app_assoc. apply elem_of_app. by left.
  - intros e He. destruct (ro_known0 e He) as [|He']; [by left | right; by apply Hknown].
  - eapply Forall_impl; [exact Hc|]. simpl. intros x. lia.
Qed.

(** *** A process killed inside a rotation

    Two records are acknowledged; the next batch does not fit their segment, and
    the process dies when the file of the next one is there and nothing more. *)
Definition ex_long : bytes := replicate 30 Byte.x61.
Definition ex_staged : sys := after_append [ex_long] (round_trip [p1; p2] (Sys (ex_world []) Idle [] 0)).
Definition ex_job : option (job * log) := commitBegin (log_of ex_staged).
Definition ex_rotating : sys :=
  match ex_job with
  | Some (j, l') => Sys (World l' (dk (sw ex_staged))) (Writing j) (staged ex_staged) (upto ex_staged)
  | None => ex_staged
  end.
Definition ex_rotated : sys :=
  match ex_job with
  | Some (j, _) =>
      let '(r, w') := rotate (jfirst j) (sw ex_rotating) in
      Sys w' (after_rotate j r) (staged ex_rotating) (upto ex_rotating)
  | None => ex_staged
  end.
Definition ex_before : list Disk.image := Disk.trail (dk (sw ex_rotating)).
Definition ex_during : list Disk.image := drop (length ex_before) (Disk.trail (dk (sw ex_rotated))).
Definition ex_moment : Disk.image := default (Disk.img (dk (sw ex_rotating))) (ex_during !! 0%nat).

Lemma ex_rotating_reachable : reachable (ex_world []) ex_rotating ∧ step ex_rotating ex_rotated.
Proof.
  assert (R1 : reachable (ex_world []) (round_trip [p1; p2] (Sys (ex_world []) Idle [] 0))).
  { apply (round_trip_run _ (reachable_runs _) _ _ 2); [constructor | done | done | done | by vm_compute]. }
  assert (R2 : reachable (ex_world []) ex_staged).
  { apply (append_run _ (reachable_runs _) _ _ 3); [exact R1 | done | done | unfold room; by vm_compute | by vm_compute]. }
  assert (Hj : match ex_job with Some (j, l') => mustRotate l' (buf j) = true | None => False end) by by vm_compute.
  unfold ex_rotated, ex_rotating. destruct ex_job as [[j l']|] eqn:Ej; [|destruct Hj].
  set (s1 := Sys (World l' (dk (sw ex_staged))) (Writing j) (staged ex_staged) (upto ex_staged)).
  split; [exact (reachable_runs _ _ _ R2 (run_begin ex_staged j l' eq_refl Ej))|].
  destruct (rotate (jfirst j) (sw s1)) as [r w'] eqn:E. apply step_running, (run_rotate s1 j r w' eq_refl).
  change (log_of s1) with l'. by rewrite Hj.
Qed.

Lemma ex_moment_moment : moment ex_rotating ex_rotated ex_moment.
Proof.
  right. exists ex_during. split; [vm_compute; reflexivity|].
  apply (list_elem_of_lookup_2 _ 0). vm_compute. reflexivity.
Qed.

Lemma reopen_after_kill_witness :
  acknowledged (log_of ex_rotating) (staged ex_rotating) = [(1, p1); (2, p2)] ∧
  shown ex_moment !! segmentName 3 2 = Some [] ∧
  ∃ l v' gs' pa', Disk.yields (Open (opts (log_of ex_rotating)) (λ _, 0) ex_id) (shown ex_moment) (l, []) v' ∧
    ∀ e, e ∈ [] ++ acknowledged (log_of ex_rotating) (staged ex_rotating) → 0 <= e.1 → e ∈ all_records l gs' pa'.
Proof.
  split; [by vm_compute|]. split; [by vm_compute|].
  assert (H1 : no_strays (sw ex_rotating) = true) by by vm_compute.
  assert (H2 : Disk.plan (dk (sw ex_rotating)) = []) by by vm_compute.
  assert (H3 : MarkFiles.identity_ok (Disk.view (dk (ex_world [])))) by by vm_compute.
  assert (H4 : MarkFiles.markIn (shown ex_moment) MarkFiles.reservedName = Some 1048576) by by vm_compute.
  assert (H5 : maxRecordBytes (withDefaults (opts (log_of ex_rotating))) = maxRecordBytes (opts (log_of ex_rotating))) by by vm_compute.
  assert (H6 : upto ex_rotated = 0) by by vm_compute.
  destruct (reopen_after_kill _ _ _ ex_rotating ex_rotated ex_moment (opts (log_of ex_rotating)) (λ _, 0) ex_id (ex_fresh [])
    (proj1 ex_rotating_reachable) (proj2 ex_rotating_reachable) ex_moment_moment H1
    ltac:(rewrite H2; constructor) H3 ltac:(rewrite H4; intros R [= <-]; reflexivity) H5) as (l & v' & gs' & pa' & Hy & _ & Ha & _).
  rewrite H6 in Ha. exists l, v', gs', pa'. exact (conj Hy Ha).
Defined.

End Kill.
