(* ===== verification/CleanClose.v ===== *)
(** * A log that was closed properly (src/internal/wal/wal.go: [Close], [Open])

    After a clean shutdown the numbering of a log just continues: [Close] drains
    what is staged, gives the unused rest of the reservation back and syncs, and
    [Open] over the directory brings up a log with the same records whose next
    number is the one the closed log would have given out. *)

From stdpp Require Import strings.
From S2P Require Import Prelude Errors Text Record Disk Segment MarkFiles Log LogInv Frame LogSteps Committer Recovery Kill.
Local Open Scope Z_scope.
Local Open Scope go_scope.

Module CleanClose.
Import Segment Log LogInv Frame LogSteps Recovery Kill.

(** The last rounds are steps of the running log and leave nothing staged. *)
Lemma lastRounds_run w0 s early r w : LogSteps.reachable w0 s → ph s = Idle → lastRounds early (sw s) = (r, w) →
  (∃ final, r = Ok final) ∧ LogSteps.reachable w0 (Sys w Idle (staged s) (upto s)) ∧
  (broken (lg w) = false → pending (lg w) = []).
Proof.
  intros R Hp H. unfold lastRounds in H.
  assert (Hlast : ∀ s1, LogSteps.reachable w0 s1 → ph s1 = Idle → staged s1 = staged s → upto s1 = upto s →
    try commit (sw s1) = (r, w) → (∃ final, r = Ok final) ∧ LogSteps.reachable w0 (Sys w Idle (staged s) (upto s)) ∧
      (broken (lg w) = false → pending (lg w) = [])).
  { intros s1 R1 Hp1 <- <- H1. apply try_inv in H1 as (r1 & H1 & ->). split; [eauto|].
    split; [by eapply (commit_run _ (reachable_runs _))|]. intros Hb.
    pose proof (f_equal snd H1) as E. simpl in E. rewrite <- E. apply Committer.committed_empty.
    intros Hb1. unfold commit, commitBegin in H1. rewrite Hb1, orb_true_r in H1. injection H1 as _ H1. congruence. }
  apply bind_inv in H as [(x & w1 & H1 & H)|(e & H & _)].
  - destruct early; [|injection H1 as _ <-; by apply (Hlast s)].
    apply try_inv in H1 as (r1 & H1 & _). apply (Hlast (Sys w1 Idle (staged s) (upto s))); [|done..].
    by eapply (commit_run _ (reachable_runs _)).
  - exfalso. destruct early; [|done]. apply try_inv in H as (? & _ & [=]).
Qed.

(** The active segment was closed without an error, or there was none open. *)
Lemma closeActive_ok err w w' : closeActive err w = (Ok None, w') →
  err = None ∧ Disk.view (dk w') = Disk.view (dk w) ∧
  (lg w' = lg w ∨ lg w' = set_segs (sealed (lg w)) (set_f HNil (active (lg w))) (lg w)).
Proof.
  intros H. unfold closeActive in H. apply bind_gets_inv in H. cbv beta in H.
  assert (Hn : ∀ a b, firstErr a b = None → a = None ∧ b = None) by by intros [] [].
  assert (Hv : ∀ m d r d', (∀ d r d', m d = (r, d') → Disk.view d' = Disk.view d) →
    via (active (lg w)) m d = (r, d') → Disk.view d' = Disk.view d).
  { intros m d r d' Hm [[_ Hv]|(_ & _ & ->)]%via_inv; [by apply Hm in Hv | done]. }
  destruct (f (active (lg w))); [injection H as -> <-; auto|..].
  all: apply bind_try_inv in H as (r1 & w1 & H1 & H); apply onDisk_inv in H1 as (d1 & H1 & ->);
    apply bind_try_inv in H as (r2 & w2 & H2 & H); apply onDisk_inv in H2 as (d2 & H2 & ->);
    injection H as H <-; apply Hn in H as [[-> _]%Hn _]; split; [done|]; split; [|by right]; simpl in *;
    apply Hv in H2; [|by intros ? ? ? [_ E]%Disk.close_inv]; rewrite H2;
    by apply Hv in H1; [|by intros ? ? ? [_ E]%Disk.fsync_inv].
Qed.

(** What a [Close] that returns nil has done, statement by statement. *)
Lemma Close_ok early w w' : closed (lg w) = false → Close early w = (Ok tt, w') →
  ∃ w2 d3, lastRounds early (World (set_closed (lg w)) (dk w)) = (Ok (Ok tt), w2) ∧
    (if nextLSN (lg w2) -u 1 <? reserved (lg w2)
     then MarkFiles.writeReserved (nextLSN (lg w2) -u 1) (dk w2) = (Ok tt, d3) else d3 = dk w2) ∧
    Disk.view (dk w') = Disk.view d3 ∧
    (lg w' = lg w2 ∨ lg w' = set_segs (sealed (lg w2)) (set_f HNil (active (lg w2))) (lg w2)).
Proof.
  intros Hc H. unfold Close in H. apply bind_gets_inv in H. cbv beta in H. rewrite Hc in H.
  apply bind_inv in H as [([] & w1 & H1 & H)|(e & _ & [=])]. injection H1 as <-.
  apply bind_inv in H as [(final & w2 & H2 & H)|(e & _ & [=])].
  apply bind_inv in H as [([] & w3 & H3 & H)|(e & _ & [=])]. injection H3 as <-.
  apply bind_gets_inv in H. cbv beta zeta in H.
  apply bind_inv in H as [(err & w4 & H4 & H)|(e & _ & [=])].
  apply bind_inv in H as [(err5 & w5 & H5 & H)|(e & _ & [=])].
  apply bind_try_inv in H as (c & w6 & H6 & H). apply onDisk_inv in H6 as (d6 & H6 & ->).
  apply Disk.close_inv in H6 as [_ V6].
  destruct (firstErr err5 (errOf c)) eqn:E5; [discriminate|]. injection H as <-. cbn [lg dk] in *.
  assert (err5 = None) as -> by by destruct err5.
  apply closeActive_ok in H5 as (-> & V5 & L5). rewrite V6, V5. clear V6 V5 d6 E5.
  assert (H3 : final = Ok tt).
  { destruct final as [[]|e]; [done|exfalso]. simpl in H4. destruct (_ <? _); [|by injection H4].
    apply bind_try_inv in H4 as (x & w5' & _ & H4). by injection H4. }
  subst final. rewrite world_eta in H4.
  destruct (nextLSN (lg w2) -u 1 <? reserved (lg w2)) eqn:Er.
  - apply bind_try_inv in H4 as (x & w6 & H6 & H4). apply onDisk_inv in H6 as (d3 & H6 & ->).
    injection H4 as H4 <-. exists w2, d3. rewrite Er. split; [done|]. split; [|done].
    rewrite H6. destruct x as [[]|e]; [done|]. simpl in H4. by destruct (closeErr (lg w2)).
  - injection H4 as _ <-. exists w2, (dk w2). by rewrite Er.
Qed.

(** Giving the unused rest back leaves the log what it is, under a reservation
    that ends at the last number handed out. *)
Lemma core_given_back w gs pa fly st junk h d' :
  core w gs pa fly st junk h →
  (if nextLSN (lg w) -u 1 <? reserved (lg w)
   then MarkFiles.writeReserved (nextLSN (lg w) -u 1) (dk w) = (Ok tt, d') else d' = dk w) →
  core (World (set_reserved (nextLSN (lg w) - 1) (lg w)) d') gs pa fly st junk h ∧
  (nextLSN (lg w) <= reserved (lg w) →
   MarkFiles.markIn (Disk.view d') MarkFiles.reservedName = Some (nextLSN (lg w) - 1)).
Proof.
  intros C H. pose proof (rep_base _ _ _ _ _ (c_active _ _ _ _ _ _ _ C)).
  pose proof (c_next _ _ _ _ _ _ _ C). pose proof (c_bound _ _ _ _ _ _ _ C). pose proof (c_reserved _ _ _ _ _ _ _ C).
  pose proof (len_nonneg pa). pose proof (len_nonneg fly). pose proof (len_nonneg st).
  replace (nextLSN (lg w) -u 1) with (nextLSN (lg w) - 1) in H by (unfold maxU64 in *; ulia).
  assert (C1 : core (World (set_reserved (nextLSN (lg w) - 1) (lg w)) (dk w)) gs pa fly st junk h).
  { destruct C. split; simpl; try done; [lia|]. destruct c_mark0 as (k & Hk & Hle). exists k. split; [done | lia]. }
  destruct (Z.ltb_spec (nextLSN (lg w) - 1) (reserved (lg w))); [|subst d'; split; [done | lia]].
  destruct (core_writeReserved _ _ _ _ _ _ _ (nextLSN (lg w) - 1) (Ok tt) d' C1) as [C2 Hm]; [simpl; lia | lia | exact H |].
  split; [exact C2|]. auto.
Qed.

(** The files named like segments are not touched by the last lines of [Close]. *)
Lemma tidy_same w w' :
  tidy w → path <$> segs (lg w') = path <$> segs (lg w) →
  path (active (lg w')) = path (active (lg w)) → baseLSN (active (lg w')) = baseLSN (active (lg w)) →
  count (active (lg w')) = count (active (lg w)) → size (active (lg w')) = size (active (lg w)) →
  Disk.view (dk w') = Disk.view (dk w) → tidy w'.
Proof.
  intros H Es Ep Eb Ec Ez V g n Hg Hn. rewrite V in Hg. destruct (H g n Hg Hn) as [Hin|[]]; [left; by rewrite Es|right].
  split; rewrite ?V, ?Ep, ?Eb, ?Ec, ?Ez; done.
Qed.

(** C9: a log closed properly is reopened as it was.  Over the directory [Close]
    leaves after an answer of nil, [Open] succeeds when no call of its own fails;
    the log that comes up accepts work and holds exactly the records that were
    there at the start and those acknowledged since, the last rounds' included,
    less a truncated front; it numbers on above every number handed out, and from
    the very next one when [Close] had a rest of the reservation to give back.

    The conditions: the log is not broken (no rollback has failed); no file is
    named like a segment but the log's, and at most the one of a rotation that
    failed right behind the last record, empty (another one, left by a failed
    rotation whose removal failed as well, can make [Open] refuse:
    [stray_segment_refuses_open], file Recovery); the record limit is the same;
    the directory's identity was well formed at the start; and the reservation is
    below the last number. *)
Theorem clean_close_reopens_as_it_was w0 gs0 pa0 s early w' o clock newId :
  fresh w0 gs0 pa0 → LogSteps.reachable w0 s → ph s = Idle → closed (log_of s) = false →
  Close early (sw s) = (Ok tt, w') → broken (lg w') = false → tidy w' →
  MarkFiles.identity_ok (Disk.view (dk w0)) →
  (∀ R, MarkFiles.markIn (Disk.view (dk w')) MarkFiles.reservedName = Some R → R < maxU64) →
  maxRecordBytes (withDefaults o) = maxRecordBytes (opts (lg w')) →
  ∃ l v' gs' pa' gone, Disk.yields (Open o clock newId) (Disk.view (dk w')) (l, []) v' ∧
    (∀ d, Disk.view d = v' → fresh (World l d) gs' pa') ∧
    all_records (lg w0) gs0 pa0 ++ acknowledged (lg w') (staged s) = gone ++ all_records l gs' pa' ∧
    Forall (λ e, e.1 < upto s) gone ∧
    nextLSN (lg w') <= nextLSN l ∧ (nextLSN (lg w') <= reserved (lg w') → nextLSN l = nextLSN (lg w')).
Proof.
  intros F HR Hp Hc H Hb Htidy Hid HRlt Ho.
  destruct (Close_ok _ _ _ Hc H) as (w2 & d3 & H2 & H3 & V & L). clear H.
  pose proof (reachable_runs _ _ _ HR (run_close s)) as R1.
  apply (lastRounds_run w0 _ early _ w2 R1) in H2 as (_ & R2 & Hdrained); [|done].
  assert (Htidy3 : tidy (World (set_reserved (nextLSN (lg w2) - 1) (lg w2)) d3)).
  { eapply tidy_same; [exact Htidy|..]; try done; destruct L as [-> | ->]; simpl; try done.
    unfold segs. simpl. by rewrite !fmap_app. }
  assert (E : nextLSN (lg w') = nextLSN (lg w2) ∧ reserved (lg w') = reserved (lg w2) ∧ broken (lg w') = broken (lg w2) ∧
    opts (lg w') = opts (lg w2) ∧ rounds (lg w') = rounds (lg w2)) by (by destruct L as [-> | ->]).
  destruct E as (-> & -> & Eb & Eo & Er). rewrite Eb in Hb. rewrite Eo in Ho. rewrite V in *.
  replace (acknowledged (lg w') (staged s)) with (acknowledged (lg w2) (staged s)) by (unfold acknowledged, acked; by rewrite Er).
  assert (Hid3 : MarkFiles.identity_ok (Disk.view d3)).
  { assert (Ei : same_contents MarkFiles.identityName (dk w2) d3).
    { destruct (_ <? _); [|subst d3; reflexivity]. apply (sp_replaceFile MarkFiles.identityName (same_contents MarkFiles.identityName)) in H3; [exact H3|by vm_compute..]. }
    unfold same_contents, same_view, fileOf in Ei. pose proof (identity_reachable _ _ _ _ F R2) as Ei2. simpl in Ei2.
    unfold MarkFiles.identity_ok in *. by rewrite Ei, Ei2. }
  destruct (reachable_inv _ _ _ _ F R2) as (gs & pa & fly & st & junk & h & flown & old & G).
  destruct (good_refines G) as (gone & Hg & Hgu). unfold log_of in Hg. simpl in Hg, Hgu. rewrite app_nil_r in Hg. rewrite Hg.
  destruct (i_clean _ _ _ _ _ _ _ _ _ _ G Hb) as [-> ->]. destruct (i_job _ _ _ _ _ _ _ _ _ _ G) as (-> & _ & _).
  pose proof (i_core _ _ _ _ _ _ _ _ _ _ G) as C. simpl in C, Hdrained.
  assert (st = []) as ->.
  { pose proof (c_pending _ _ _ _ _ _ _ C) as Hpd. rewrite (Hdrained Hb) in Hpd. by destruct st. }
  destruct (core_given_back _ _ _ _ _ _ _ d3 C H3) as [C3 Hmark].
  destruct (c_mark _ _ _ _ _ _ _ C3) as (R & Hm & HkR). simpl in Hm, HkR. specialize (HRlt R Hm).
  pose proof (c_max _ _ _ _ _ _ _ C3) as Hmax. simpl in Hmax. rewrite <- Ho in Hmax.
  destruct (killed_crashed _ _ _ _ _ 0 _ [] C3 Htidy3) as (ss & a & gs1 & pa1 & t & qs & [Cr Hlast Hq Hrec _]);
    [constructor | by right | simpl; lia |].
  simpl in Cr, Hlast. rewrite <- Ho in Cr. apply prefix_nil_inv in Hq as ->.
  destruct (yields_Open o clock newId _ _ _ _ _ _ R Cr Hmax Hm) as (l & v' & gs' & pa' & Hy & []); [lia | done |].
  rewrite Hrec, app_nil_r in cu_records0. change (all_records (lg w2) gs pa) with (all_records (set_reserved (nextLSN (lg w2) - 1) (lg w2)) gs pa).
  exists l, v', gs', pa', gone. split; [exact Hy|]. split; [done|]. rewrite cu_records0. split; [done|]. split; [done|].
  split; [lia|]. intros Hle. specialize (Hmark Hle). rewrite Hm in Hmark. injection Hmark as ->. lia.
Qed.

(** Two records committed and a third staged when the log is closed. *)
Definition ex_stop : sys := after_append [p2] (round_trip [p1; p2] (Sys (ex_world []) Idle [] 0)).
Definition ex_closed : world := (Close true (sw ex_stop)).2.

Lemma ex_stop_reachable : LogSteps.reachable (ex_world []) ex_stop.
Proof.
  assert (R1 : LogSteps.reachable (ex_world []) (round_trip [p1; p2] (Sys (ex_world []) Idle [] 0))).
  { apply (round_trip_run _ (reachable_runs _) _ _ 2); [by constructor | done | done | done | by vm_compute]. }
  apply (append_run _ (reachable_runs _) _ _ 3); [exact R1 | done | done | | by vm_compute].
  unfold room. by vm_compute.
Qed.

(** The three records come back and the next one is the fourth. *)
Lemma clean_close_reopens_as_it_was_witness :
  ∃ l v' gs' pa', Disk.yields (Open ex_opts (λ _, 0) ex_id) (Disk.view (dk ex_closed)) (l, []) v' ∧
    all_records l gs' pa' = [(1, p1); (2, p2); (3, p2)] ∧ nextLSN l = 4.
Proof.
  assert (H0 : (Close true (sw ex_stop)).1 = Ok tt) by by vm_compute.
  assert (H1 : Close true (sw ex_stop) = (Ok tt, ex_closed))
    by exact (eq_trans (surjective_pairing _) (f_equal (λ r, (r, ex_closed)) H0)).
  assert (H2 : tidy ex_closed) by (apply no_strays_tidy; by vm_compute).
  assert (H3 : MarkFiles.markIn (Disk.view (dk ex_closed)) MarkFiles.reservedName = Some 3) by by vm_compute.
  assert (H4 : MarkFiles.identity_ok (Disk.view (dk (ex_world [])))) by by vm_compute.
  assert (H5 : maxRecordBytes (withDefaults ex_opts) = maxRecordBytes (opts (lg ex_closed))) by by vm_compute.
  assert (Hb : broken (lg ex_closed) = false) by by vm_compute.
  destruct (clean_close_reopens_as_it_was _ _ _ ex_stop true ex_closed ex_opts (λ _, 0) ex_id
    (ex_fresh []) ex_stop_reachable eq_refl eq_refl H1 Hb H2 H4
    ltac:(rewrite H3; intros R [= <-]; reflexivity) H5)
    as (l & v' & gs' & pa' & gone & Hy & _ & Hr & Hg & _ & Hn).
  exists l, v', gs', pa'. split; [exact Hy|]. split.
  - assert (Ha : [] ++ acknowledged (lg ex_closed) (staged ex_stop) = [(1, p1); (2, p2); (3, p2)]) by by vm_compute.
    change (all_records (lg (ex_world [])) [] []) with (@nil (Z * bytes)) in Hr. rewrite Ha in Hr.
    destruct gone as [|e gone]; [symmetry; exact Hr|exfalso].
    assert (e = (1, p1)) as -> by exact (eq_sym (f_equal (hd (0, [])) Hr)). apply Forall_inv in Hg. vm_compute in Hg. discriminate Hg.
  - rewrite Hn; vm_compute; [reflexivity|]. intros E. discriminate E.
Defined.

End CleanClose.
