(* ===== verification/PowerLoss.v ===== *)
(** * Opening a log after a loss of power

    What power loss leaves is not what a kill leaves: anything may follow the
    synced bytes of a file, and names may be missing or back.  The theorems say
    what [Open] can be relied on for over such a directory, whatever else is in it
    and whatever calls fail: if it returns a log, no file has lost whole records
    it began with, and the log has them. *)

From stdpp Require Import strings.
From S2P Require Import Prelude Errors Text Record Disk Segment MarkFiles Log LogInv Frame LogSteps Durable Recovery.
Local Open Scope Z_scope.
Local Open Scope go_scope.

Module PowerLoss.
Import Record Segment Log LogInv Frame LogSteps Durable Recovery.

(** ** Files that keep what they begin with *)

(** A failing call fails with an error of its own: not with the end of a file
    or with its absence, which are answers. *)
Definition honest_fault (f : Disk.fault) : Prop :=
  match f with
  | Disk.Pass => True
  | Disk.Trip e _ => errorsIs e EOF = false ∧ errorsIs e UnexpectedEOF = false ∧ errorsIs e NotExist = false
  end.

Definition begins (n c : bytes) (d : Disk.disk) : Prop := ∃ rest, Disk.view d !! n = Some (c ++ rest).

(** Over an honest plan, [n] keeps the bytes it begins with, and if they were
    secured they still are. *)
Definition keeping (n c : bytes) : relation Disk.disk := λ d d',
  Forall honest_fault (Disk.plan d) → Forall honest_fault (Disk.plan d') ∧
    (begins n c d → begins n c d' ∧ (secured n c (Disk.img d) → secured n c (Disk.img d'))).

#[global] Instance keeping_preorder n c : PreOrder (keeping n c).
Proof.
  split; [by intros d|]. intros d1 d2 d3 H1 H2 Hp. destruct (H1 Hp) as [Hp2 B1], (H2 Hp2) as [Hp3 B2].
  split; [done|]. intros Hb. destruct (B1 Hb) as [Hb2 S1], (B2 Hb2) as [Hb3 S2]. auto.
Qed.

Lemma call_plan {A} (ok : Disk.image → result (A * Disk.image)) bad d r d' :
  Disk.call ok bad d = (r, d') → Disk.plan d' = tail (Disk.plan d).
Proof.
  unfold Disk.call. intros H. destruct (Disk.plan d) as [|[|e k] p]; [..|by injection H as _ <-];
    destruct (ok (Disk.img d)) as [[x i]|e]; by injection H as _ <-.
Qed.

Lemma keeping_intro n c d d' :
  Disk.plan d' = tail (Disk.plan d) → (begins n c d → begins n c d') → holding (secured n c) d d' → keeping n c d d'.
Proof. intros Hp Hb (a & _ & Hs) H. split; [rewrite Hp; by destruct H|]. intros Hi. split; [by apply Hb | by apply Hs]. Qed.

Lemma keeping_from n c {A} (m : M Disk.disk A) :
  within (same_contents n) m → within (holding (secured n c)) m →
  (∀ d r d', m d = (r, d') → Disk.plan d' = tail (Disk.plan d)) → within (keeping n c) m.
Proof.
  intros Hw Hs Hp d r d' H. apply keeping_intro; [by eapply Hp | | by apply (Hs _ _ _ H)].
  intros [rest E]. exists rest. rewrite <- E. apply (Hw _ _ _ H).
Qed.

#[global] Instance keeping_sparing n c : Sparing n (keeping n c).
Proof.
  split; [apply _|..]; intros; (apply keeping_from; [by stays | by stays|]); intros d r d' E; try by apply call_plan in E.
  unfold Disk.readAll in E. by destruct (Disk.plan d) as [|[|e k] pl]; injection E as _ <-.
Qed.

Lemma keeping_truncate n c p z : (p = n → len c <= z) → within (keeping n c) (Disk.truncate p z).
Proof.
  intros Hz d r d' H. apply keeping_intro; [by eapply call_plan | | by apply (secured_truncate n c p z Hz _ _ _ H)].
  intros [rest E]. destruct (decide (p = n)) as [->|Hp].
  2: { exists rest. rewrite <- E. apply (sp_truncate (R := same_contents n) p z Hp _ _ _ H). }
  specialize (Hz eq_refl). unfold begins, Disk.view in *.
  apply Disk.call_inv in H as [(e & k & _ & ->)|[(x & i & Ei & _ & ->)|(e & _ & _ & ->)]]; [by exists rest | | by exists rest].
  rewrite lookup_fmap in E. destruct (Disk.files (Disk.img d) !! n) as [fl|]; [|done]. injection E as E. injection Ei as _ <-.
  simpl. rewrite fmap_insert, lookup_insert_eq. simpl. rewrite E, take_app_ge by (unfold len in Hz; lia).
  rewrite <- app_assoc. eauto.
Qed.

(** ** Scanning a segment *)

Lemma plan_kept {A} (m : M Disk.disk A) d r d' : m d = (r, d') → within (keeping [] []) m →
  Forall honest_fault (Disk.plan d) → Forall honest_fault (Disk.plan d').
Proof. intros H W Hp. by apply (W _ _ _ H). Qed.

(** A scan that found nothing wrong read the whole file. *)
Lemma scanSegment_inv q max d sc d' :
  Forall honest_fault (Disk.plan d) → scanSegment q max d = (Ok (Some sc), d') → scan_err sc = None →
  ∃ data, Disk.view d !! q = Some data ∧ Disk.view d' = Disk.view d ∧ scan (len data) max data None = Some sc.
Proof.
  intros Hp H He. unfold scanSegment in H.
  apply bind_inv in H as [([] & d1 & H1 & H)|(e & _ & [=])]. pose proof H1 as V1. apply Disk.openExisting_inv in V1 as [_ V1].
  apply (plan_kept _ _ _ _ H1) in Hp; [|by stays]. clear H1.
  apply bind_inv in H as [(total & d2 & H2 & H)|(e & _ & [=])]. pose proof H2 as V2.
  apply (plan_kept _ _ _ _ H2) in Hp; [|by stays]. clear H2.
  apply Disk.stat_inv in V2 as [[(data & Hc & [= ->])|[e [=]]] V2].
  apply bind_inv in H as [([got failing] & d3 & H3 & H)|(e & _ & [=])]. injection H as H <-.
  pose proof H3 as V3. apply Disk.readAll_inv in V3 as [_ V3]. exists data. rewrite V3, V2, <- V1. split; [done|]. split; [done|].
  unfold Disk.readAll in H3. rewrite <- V2, Disk.view_lookup in Hc.
  destruct (Disk.files (Disk.img d2) !! q) as [fl|]; [|done]. injection Hc as Hfl. rewrite Hfl in H3.
  destruct (Disk.plan d2) as [|[|e k] pl]; [injection H3 as <- <- _ .. | injection H3 as <- <- _]; try done.
  apply Forall_cons in Hp as [(H4 & H5 & _) _].
  destruct (scan_fault max (len data) data k e H4 H5) as [E|E]; rewrite E in H; [done|]. by injection H as <-.
Qed.

(** A mark that was read is the one in the file. *)
Lemma readMark_honest name msg d n d' :
  Forall honest_fault (Disk.plan d) → MarkFiles.readMark name msg d = (Ok n, d') →
  MarkFiles.markIn (Disk.view d) name = Some n.
Proof.
  intros Hp H. unfold MarkFiles.readMark in H. apply bind_try_inv in H as (r & d1 & H1 & H).
  unfold MarkFiles.markIn. rewrite Disk.view_lookup. destruct r as [c|e].
  - apply Disk.readFile_inv in H1 as [[(c' & Hc & [= <-])|[? [=]]] _]. rewrite Disk.view_lookup in Hc. rewrite Hc.
    destruct (MarkFiles.parseMark c); [|done]. by injection H as <- _.
  - destruct (errorsIs e NotExist) eqn:E; [|done]. injection H as <- _. unfold Disk.readFile, Disk.call in H1.
    destruct (Disk.plan d) as [|[|e' k] pl]; [| |apply Forall_cons in Hp as [(_ & _ & Hne) _]; injection H1 as <- _; congruence];
      by destruct (Disk.files (Disk.img d) !! name).
Qed.

(** ** Files [Open] has no business with *)

Section sparing.
Context (n : bytes) (R : relation Disk.disk) `{!Sparing n R}.
Context (Hseg : ∀ b p, segmentName b p ≠ n) (Hlock : lockName ≠ n).
Context (Hid : MarkFiles.identityName ≠ n) (Htmp : MarkFiles.tmpOf MarkFiles.identityName ≠ n).

Lemma sp_recoverSeg o now nm next prev R0 : salvageSet o = false → within R (recoverSeg o now nm next prev R0).
Proof using All.
  intros Hs. unfold recoverSeg, scanSegment. apply within_bind; [apply _ | stays|]. intros sc.
  apply within_bind; [apply _| |].
  - destruct sc as [[sc|]|e]; cbn [scan_err]; rewrite Hs.
    1: destruct (scan_err sc); [|destruct (truncated sc && _)].
    all: rewrite ?andb_false_r; stays.
  - intros [[[nx R1] reps] torn]. assert (Hq := Hseg (base nm) (sprev nm)). stays.
Qed.

Lemma sp_recoverLoop o clock ns : salvageSet o = false → ∀ i nm acc R0, within R (recoverLoop o clock i nm ns acc R0).
Proof using All.
  intros Hs. induction ns as [|nm' ns IH]; intros i nm acc R0; cbn [recoverLoop];
    (apply within_bind; [apply _ | by apply sp_recoverSeg|]); intros [[[s next] R1] reps]; [apply within_ret, _|].
  destruct next as [n'|]; [|apply within_ret, _]. apply within_bind; [apply _ | apply IH|]. intros [[ss R2] reps2]. apply within_ret, _.
Qed.

Lemma sp_resume o ss R0 id : within R (resume o ss R0 id).
Proof using All.
  assert (Hc : ∀ b p, within R (createSegment b p)) by (intros b p; by apply (sp_createSegment n)).
  unfold resume. destruct ss as [|s ss]; [stays|]. destruct (splitLast s ss). stays.
Qed.

Lemma sp_recover o clock newId : salvageSet o = false → within R (recover o clock newId).
Proof using All.
  intros Hs. assert (Hw : within R (MarkFiles.writeIdentity newId)) by by apply (sp_replaceFile n). unfold recover.
  apply within_bind; [apply _ | stays|]. intros entries.
  apply within_bind; [apply _ | unfold MarkFiles.readReserved, MarkFiles.readMark; stays|]. intros R0.
  apply within_bind; [apply _ | unfold MarkFiles.loadIdentity; stays|]. intros id.
  apply within_bind; [apply _ | destruct (sortedNames entries); [stays | by apply sp_recoverLoop]|].
  intros [[ss R1] reps]. apply within_bind; [apply _ | apply sp_resume | stays].
Qed.

Lemma sp_Open o clock newId : salvageSet o = false → within R (Open o clock newId).
Proof using All.
  intros Hs. unfold Open. case_if; [stays|]. apply within_bind; [apply _ | unfold lockDir; stays|]. intros _.
  apply within_on_error; [apply _ | by apply sp_recover | stays].
Qed.
End sparing.

(** ** What [Open] keeps *)

Section opening.
Context (o : Options) (Hsalv : salvageSet o = false) (Hmax : 0 <= maxRecordBytes o < 4294967296 - 8).
Context (b p : Z) (ps : list bytes) (Hps : Forall (payload_ok (maxRecordBytes o)) ps).
Local Abbreviation n := (segmentName b p).
Local Abbreviation c := (frames ps).
Local Abbreviation K := (keeping n c).

(** A segment of the opened log that has the records. *)
Definition has (s : segment) : Prop :=
  path s = n ∧ baseLSN s = b ∧ len ps <= count s ∧ len c <= size s.

Lemma scanSegment_keeps q : within K (scanSegment q (maxRecordBytes o)).
Proof using All. unfold scanSegment. stays. Qed.

Lemma scanSegment_counts d sc d' :
  Forall honest_fault (Disk.plan d) → begins n c d → scanSegment n (maxRecordBytes o) d = (Ok (Some sc), d') →
  scan_err sc = None → len ps <= n_records sc ∧ len c <= Segment.good sc.
Proof using All.
  intros Hp [rest Hb] H He. destruct (scanSegment_inv _ _ _ _ _ Hp H He) as (data & Hd & _ & Hs).
  rewrite Hb in Hd. injection Hd as <-. exact (scan_keeps_prefix _ Hmax ps rest sc Hps Hs He).
Qed.

(** One turn: without salvage the segment is taken as the scan found it. *)
Lemma recoverSeg_keeps now nm next prev R d s next' R' reps d' :
  recoverSeg o now nm next prev R d = (Ok (s, next', R', reps), d') → Forall honest_fault (Disk.plan d) →
  next' = next ∧ K d d' ∧ (begins n c d → base nm = b → sprev nm = p → has s).
Proof using All.
  intros H Hp. unfold recoverSeg in H. set (q := segmentName (base nm) (sprev nm)) in *.
  apply bind_try_inv in H as (sc & d1 & H1 & H). pose proof (scanSegment_keeps q _ _ _ H1) as K1. destruct (K1 Hp) as [Hp1 Hb1].
  cbv zeta in H.
  set (res := match sc with Ok (Some x) => x | Ok None => _ | Fail e => _ end) in H.
  apply bind_inv in H as [([[[nx R1] reps1] torn] & d2 & H2 & H)|(e & _ & [=])].
  assert (He : scan_err res = None ∧ d2 = d1 ∧ nx = next ∧ torn = truncated res).
  { rewrite Hsalv in H2. destruct (scan_err res) as [e|]; [by rewrite andb_false_r in H2|].
    destruct (truncated res && _); [by rewrite andb_false_r in H2|]. by injection H2 as <- _ _ <- <-. }
  destruct He as (He & -> & -> & ->). clear H2.
  assert (Hn : begins n c d → q = n → len ps <= n_records res ∧ len c <= Segment.good res).
  { intros Hb E. rewrite E in H1. subst res. destruct sc as [[x|]|e]; [|done..]. simpl in He |- *. exact (scanSegment_counts d x d1 Hp Hb H1 He). }
  apply bind_inv in H as [([] & d3 & H3 & H)|(e & _ & [=])].
  assert (Hd' : d' = d3 ∧ s = Seg (base nm) q (sprev nm) HNil (Segment.good res) (n_records res) ∧ next' = next).
  { destruct prev as [pr|]; [destruct (negb _); [done|]|]; by injection H as <- <- _ _ <-. }
  destruct Hd' as (-> & -> & ->). split; [done|].
  split.
  - intros _. destruct (truncated res); [|by injection H3 as <-].
    split; [rewrite (call_plan _ _ _ _ _ H3); by destruct Hp1|]. intros Hb. destruct (Hb1 Hb) as [Hb2 S1].
    apply (keeping_truncate n c q (Segment.good res)) in H3.
    { destruct (H3 Hp1) as [_ H3']. destruct (H3' Hb2) as [Hb3 S3]. auto. }
    intros E. by destruct (Hn Hb E).
  - intros Hb Eb Ep. destruct (Hn Hb) as [H4 H5]; [by unfold q; rewrite Eb, Ep|].
    split; [simpl; unfold q; by rewrite Eb, Ep | done].
Qed.

Lemma recoverLoop_keeps clock ns : ∀ i nm acc R d ss R' reps d',
  recoverLoop o clock i nm ns acc R d = (Ok (ss, R', reps), d') → Forall honest_fault (Disk.plan d) →
  K d d' ∧ (∃ x more, ss = acc ++ x :: more) ∧
  (begins n c d → SegName b p ∈ nm :: ns → ∃ s, s ∈ ss ∧ has s).
Proof using All.
  induction ns as [|nm' ns IH]; intros i nm acc R d ss R' reps d' H Hp; cbn [recoverLoop] in H;
    apply bind_inv in H as [([[[s next] R1] reps1] & d1 & H1 & H)|(e & _ & [=])];
    apply recoverSeg_keeps in H1 as (-> & K1 & Hhas); try done; cbn [head hd_error] in H.
  - injection H as <- <- <- <-. split; [done|]. split; [by exists s, []|].
    intros Hb Hin%list_elem_of_singleton. exists s. split; [apply elem_of_app; right; by apply list_elem_of_singleton|].
    by apply Hhas; rewrite <- ?Hin.
  - apply bind_inv in H as [([[ss1 R2] reps2] & d2 & H2 & H)|(e & _ & [=])]. injection H as <- <- <- <-.
    destruct (K1 Hp) as [Hp1 Hb1]. apply IH in H2 as (K2 & (x & more & ->) & Hin2); [|done].
    split; [by etrans|]. split; [exists s, (x :: more); by rewrite <- app_assoc|].
    intros Hb [E|Hin]%elem_of_cons; [|by apply Hin2; [apply (Hb1 Hb)|]].
    exists s. split; [|by apply Hhas; rewrite <- ?E].
    apply elem_of_app. left. apply elem_of_app. right. by apply list_elem_of_singleton.
Qed.

(** A segment is only created where no file has anything. *)
Lemma createSegment_spares b' p' d s d' :
  c ≠ [] → begins n c d → createSegment b' p' d = (Ok s, d') → segmentName b' p' ≠ n.
Proof using Type.
  intros Hc [rest Hr] H E. apply createSegment_inv in H as [(_ & Hn & _)|(? & [=] & _)]. rewrite E, Hr in Hn.
  destruct Hn as [[=]|[= Hn]]. by apply app_eq_nil in Hn as [? _].
Qed.

Lemma resume_keeps ss R id d l d' x :
  resume o ss R id d = (Ok l, d') → c ≠ [] → begins n c d → x ∈ ss → has x → K d d' ∧ ∃ t, t ∈ segs l ∧ has t.
Proof using Type.
  intros H Hc Hb Hx Hh. destruct ss as [|y ss' _] using rev_ind; [by apply not_elem_of_nil in Hx|].
  rewrite resume_snoc in H. destruct (lastLSN y <? R).
  - apply bind_inv in H as [(s & d1 & H1 & H)|(e & _ & [=])]. injection H as <- <-.
    pose proof (createSegment_spares _ _ _ _ _ Hc Hb H1) as Hne.
    split; [exact (sp_createSegment n K _ _ Hne _ _ _ H1)|].
    exists x. split; [|done]. apply elem_of_app. by left.
  - apply bind_inv in H as [([] & d1 & H1 & H)|(e & _ & [=])]. injection H as <- <-.
    split; [exact (sp_openExisting (R := K) _ _ _ _ H1)|].
    apply elem_of_app in Hx as [Hx| ->%list_elem_of_singleton].
    + exists x. split; [|done]. apply elem_of_app. by left.
    + exists (set_f HOpen y). split; [|done]. apply elem_of_app. right. by apply list_elem_of_singleton.
Qed.

Lemma recover_keeps clock newId d l reps d' :
  is_u64 b → is_u64 p → recover o clock newId d = (Ok (l, reps), d') → Forall honest_fault (Disk.plan d) → c ≠ [] →
  begins n c d → K d d' ∧ ∃ t, t ∈ segs l ∧ has t.
Proof using All.
  intros Hub Hup H Hp Hc Hb. unfold recover in H.
  assert (Hmark : ∀ m, length m ≠ 45%nat → m ≠ n) by (intros m Hm ->; by rewrite length_segmentName in Hm).
  apply bind_inv in H as [(entries & d1 & H1 & H)|(e & _ & [=])].
  pose proof (sp_readDir (n := n) (R := K) _ _ _ H1) as K1.
  assert (Hin : SegName b p ∈ sortedNames entries).
  { apply Disk.readDir_inv in H1 as [[[= ->]|[e [=]]] V]. destruct Hb as [rest Hr]. unfold sortedNames.
    rewrite merge_sort_Permutation. apply list_elem_of_omap. exists n. split; [|by apply nameOf_next].
    apply elem_of_elements, elem_of_dom. by rewrite Hr. }
  cbv zeta in H. apply bind_inv in H as [(R0 & d2 & H2 & H)|(e & _ & [=])].
  assert (W2 : within K MarkFiles.readReserved) by (unfold MarkFiles.readReserved, MarkFiles.readMark; stays).
  apply bind_inv in H as [(id & d3 & H3 & H)|(e & _ & [=])].
  assert (Hwr : within K (MarkFiles.writeIdentity newId)) by (apply (sp_replaceFile n); [apply _ | by apply Hmark..]).
  assert (W3 : ∀ fresh, within K (MarkFiles.loadIdentity newId fresh)) by (intros fresh; unfold MarkFiles.loadIdentity; stays).
  assert (K3 : K d d3) by (etrans; [exact K1|]; etrans; [exact (W2 _ _ _ H2) | exact (W3 _ _ _ _ H3)]).
  destruct (K3 Hp) as [Hp3 B3]. destruct (B3 Hb) as [Hb3 _].
  destruct (sortedNames entries) as [|nm ns]; [by apply not_elem_of_nil in Hin|].
  apply bind_inv in H as [([[ss R1] reps1] & d4 & H4 & H)|(e & _ & [=])].
  apply recoverLoop_keeps in H4 as (K4 & _ & Hhas); [|done]. destruct (K4 Hp3) as [_ B4].
  destruct (Hhas Hb3 Hin) as (x & Hx & Hh). destruct (B4 Hb3) as [Hb4 _].
  apply bind_inv in H as [(l0 & d5 & H5 & H)|(e & _ & [=])]. injection H as <- _ <-.
  destruct (resume_keeps _ _ _ _ _ _ x H5 Hc Hb4 Hx Hh) as [K5 Ht]. split; [|done]. by do 2 (etrans; [eassumption|]).
Qed.
End opening.

(** ** What the log returned by [Open] has *)

(** The log has the record in one of its segments, within the published
    bytes. *)
Definition stored (max : Z) (l : log) (v : gmap bytes bytes) (e : Z * bytes) : Prop :=
  ∃ t ps rest, t ∈ segs l ∧ Forall (payload_ok max) ps ∧ v !! path t = Some (frames ps ++ rest) ∧
    len (frames ps) <= size t ∧ len ps <= count t ∧ e ∈ entries (baseLSN t) ps.

Lemma maxRecordBytes_default o : 0 <= maxRecordBytes (withDefaults o).
Proof. unfold withDefaults. simpl. destruct (Z.leb_spec (maxRecordBytes o) 0); [done | lia]. Qed.

Lemma lock_not_segment b p : lockName ≠ segmentName b p.
Proof. intros E. apply (f_equal length) in E. by rewrite length_segmentName in E. Qed.

(** What [Open] without salvage does with a file that begins with whole records:
    they stay, and are in one of the segments. *)
Lemma Open_keeps o clock newId d l reps d' b p ps :
  is_u64 b → is_u64 p → Forall (payload_ok (maxRecordBytes (withDefaults o))) ps → ps ≠ [] →
  begins (segmentName b p) (frames ps) d → salvageSet o = false →
  Forall honest_fault (Disk.plan d) → Open o clock newId d = (Ok (l, reps), d') →
  keeping (segmentName b p) (frames ps) d d' ∧ ∃ t, t ∈ segs l ∧ has b p ps t.
Proof.
  intros Hub Hup Hps Hne Hb Hs Hp H. unfold Open in H. cbv zeta in H.
  destruct (Z.ltb_spec maxRecordLimit (maxRecordBytes (withDefaults o))) as [|Hlim]; [done|].
  pose proof (maxRecordBytes_default o) as Hpos. unfold maxRecordLimit, headerSize in Hlim.
  assert (Hm : 0 <= maxRecordBytes (withDefaults o) < 4294967296 - 8) by lia.
  assert (Hc : frames ps ≠ []).
  { destruct ps as [|x ps]; [done|]. rewrite frames_cons. intros E.
    apply (f_equal len) in E. rewrite len_app, len_frame, len_nil in E. unfold recordSize, headerSize in E.
    pose proof (len_nonneg x). pose proof (len_nonneg (frames ps)). lia. }
  apply bind_inv in H as [([] & d1 & H1 & H)|(e0 & _ & [=])].
  assert (W : within (keeping (segmentName b p) (frames ps)) lockDir).
  { pose proof (lock_not_segment b p). unfold lockDir. stays. }
  pose proof (W _ _ _ H1) as K1. destruct (K1 Hp) as [Hp1 Hb1]. destruct (Hb1 Hb) as [Hb2 _].
  apply on_error_inv in H as [(lr & H & E)|(? & ? & ? & _ & _ & [=])]. injection E as <-.
  destruct (recover_keeps (withDefaults o) Hs Hm b p ps Hps clock newId _ _ _ _ Hub Hup H Hp1 Hc Hb2) as [K2 Ht].
  split; [by etrans | done].
Qed.

(** [Open] without salvage never costs a record that is whole in the directory
    and preceded by whole records in its file.  Whatever else the directory
    holds, and whatever calls fail, if [Open] returns a log the log has the
    record, in a file that still begins with it. *)
Lemma open_keeps_whole_records o clock newId d l reps d' max b p ps e :
  in_file (Disk.view d) max b p ps e → max <= maxRecordBytes (withDefaults o) → salvageSet o = false →
  Forall honest_fault (Disk.plan d) → Open o clock newId d = (Ok (l, reps), d') → stored (maxRecordBytes (withDefaults o)) l (Disk.view d') e.
Proof.
  intros (Hub & Hup & Hps & He & Hb) Hmax Hs Hp H.
  assert (Hps' : Forall (payload_ok (maxRecordBytes (withDefaults o))) ps).
  { eapply Forall_impl; [exact Hps|]. unfold payload_ok. intros x. lia. }
  assert (Hne : ps ≠ []) by (intros ->; by apply not_elem_of_nil in He).
  destruct (Open_keeps _ _ _ _ _ _ _ _ _ _ Hub Hup Hps' Hne Hb Hs Hp H) as (K & t & Ht & (Ep & Eb & Hcnt & Hsz)).
  destruct (K Hp) as [_ B]. destruct (B Hb) as [[rest Hr] _]. exists t, ps, rest. by rewrite Ep, Eb.
Qed.

(** C10: durability across a loss of power.  In a mode that syncs, cut the power at
    any moment of any run of a log opened by [Open], inside any operation and
    whatever calls have failed before: every record some appender was told is
    durable, and that was not given up for truncation, is whole in the file of
    its segment, behind whole records, whatever else the loss has left in the
    directory; and a log that [Open] returns over that directory has it. *)
Theorem acknowledged_survives_power_loss w0 gs0 pa0 s s' i d e :
  fresh w0 gs0 pa0 → syncMode (opts (lg w0)) ≠ SyncNever → reserved (lg w0) = nextLSN (lg w0) - 1 →
  reachable w0 s → step s s' → moment s s' i → Disk.power_loss i (Disk.view d) →
  e ∈ acknowledged (log_of s) (staged s) → upto s' <= e.1 →
  (∃ b p ps, in_file (Disk.view d) (maxRecordBytes (opts (log_of s))) b p ps e) ∧
  ∀ o clock newId l reps d',
    maxRecordBytes (opts (log_of s)) <= maxRecordBytes (withDefaults o) → salvageSet o = false →
    Forall honest_fault (Disk.plan d) → Open o clock newId d = (Ok (l, reps), d') → stored (maxRecordBytes (withDefaults o)) l (Disk.view d') e.
Proof.
  intros F Hm Hr R Hstep Hi Hl He Hu.
  pose proof (reachable_shielded _ _ _ _ _ F (settled_as_opened _ _ _ F Hm Hr) R) as Hsh.
  destruct (staged_from _ _ _ _ F R) as [_ Hfrom]. pose proof (step_upto _ _ Hstep) as Hup.
  destruct (reachable_inv _ _ _ _ F R) as (gs & pa & fly & st & junk & h & flown & old & G).
  assert (Hin : e ∈ all_records (log_of s) gs pa).
  { destruct (good_refines G) as (gone & Hg & Hgu).
    assert (Hin : e ∈ gone ++ all_records (log_of s) gs pa).
    { rewrite <- Hg. apply elem_of_app. right. apply elem_of_app. by left. }
    apply elem_of_app in Hin as [Hin|]; [|done]. rewrite Forall_forall in Hgu. apply Hgu in Hin. lia. }
  assert (HF : nextLSN (lg w0) <= e.1).
  { apply list_elem_of_fmap in He as (x & -> & Hx). apply list_elem_of_filter in Hx as [_ Hx].
    rewrite Forall_forall in Hfrom. by apply Hfrom. }
  destruct (shielded_survives _ _ _ _ _ _ _ _ _ _ _ _ _ _ _ G Hsh Hstep Hi Hl Hin HF Hu) as (b & p & ps & Hfile).
  split; [by exists b, p, ps|]. intros o clock newId l reps d' Hmax Hs Hp H.
  by eapply open_keeps_whole_records.
Qed.
(** ** The worst a loss can do *)

(** Only what was synced is left. *)
Definition worst (i : Disk.image) : gmap bytes bytes := Disk.dur <$> Disk.files i.

Lemma common_prefix_r a b : Disk.common_prefix a b `prefix_of` b.
Proof.
  revert b. induction a as [|x a IH]; intros [|y b]; simpl; try apply prefix_nil.
  case_bool_decide as E; [subst; by apply prefix_cons | apply prefix_nil].
Qed.

Lemma worst_is_possible i : Disk.power_loss i (worst i).
Proof.
  intros n. unfold worst. rewrite lookup_fmap. cbv zeta.
  destruct (Disk.files i !! n) as [fl|]; simpl; [|left].
  exists fl. split; [left|]. unfold Disk.survives. case_decide; [done | apply common_prefix_r].
Qed.

(** The example's third round is over and the power goes: what is left opens,
    and all that was acknowledged is there. *)
Definition ex_left : Disk.disk := shows (worst (Disk.img (dk (sw ex_s3)))).

Lemma acknowledged_survives_power_loss_witness :
  (3, p1) ∈ acknowledged (log_of ex_s3) (staged ex_s3) ∧
  match Open ex_opts (λ _, 0) ex_id ex_left with
  | (Ok (l, _), d') => stored (maxRecordBytes (withDefaults ex_opts)) l (Disk.view d') (3, p1)
  | (Fail _, _) => False
  end.
Proof.
  assert (Hin : (3, p1) ∈ acknowledged (log_of ex_s3) (staged ex_s3)).
  { assert (E : acknowledged (log_of ex_s3) (staged ex_s3) = [(1, p1); (2, p2)] ++ [(3, p1)]) by by vm_compute.
    rewrite E. apply elem_of_app. right. by apply list_elem_of_singleton. }
  split; [exact Hin|].
  assert (Hok : is_ok (Open ex_opts (λ _, 0) ex_id ex_left).1 = true) by by vm_compute.
  assert (Hl : Disk.power_loss (Disk.img (dk (sw ex_s3))) (Disk.view ex_left)).
  { unfold ex_left. rewrite view_shows. apply worst_is_possible. }
  assert (Hlim : maxRecordBytes (opts (log_of ex_s3)) <= maxRecordBytes (withDefaults ex_opts)) by by vm_compute.
  assert (Hmode : syncMode (opts (lg (ex_world ex_plan))) ≠ SyncNever) by done.
  assert (Hup : 0 <= 3) by done.
  pose proof (proj2 (acknowledged_survives_power_loss _ _ _ _ _ _ ex_left (3, p1) (ex_fresh ex_plan) Hmode eq_refl ex_reachable
    (step_running _ _ (run_close ex_s3)) (or_introl eq_refl) Hl Hin Hup)) as Hopen.
  assert (Hall : ∀ out, Open ex_opts (λ _, 0) ex_id ex_left = out → is_ok out.1 = true →
    match out with (Ok (l, _), d') => stored (maxRecordBytes (withDefaults ex_opts)) l (Disk.view d') (3, p1) | (Fail _, _) => False end).
  { intros [[[l reps]|e] d'] E H; [|done]. exact (Hopen ex_opts (λ _, 0) ex_id l reps d' Hlim eq_refl (Forall_nil_2 _) E). }
  exact (Hall _ eq_refl Hok).
Defined.

(** In [SyncNever] the same run can lose what it acknowledged: nothing of the
    segment was ever synced. *)
Section never.
Definition never_opts : Options := MkOptions SyncNever 5000000 60 100 1048576 false.
Definition never_world : world :=
  World (MkLog never_opts [] ex_seg 1 1 0 [] [] 0 0 0 false [Undecided] 0 None None false None) (ex_disk []).
Definition ex_never : sys := round_trip [p1; p2] (Sys never_world Idle [] 0).

Lemma sync_never_can_lose :
  acknowledged (log_of ex_never) (staged ex_never) = [(1, p1); (2, p2)] ∧
  worst (Disk.img (dk (sw ex_never))) !! segmentName 1 0 = Some [].
Proof. by vm_compute. Qed.
End never.

(** ** Zeros behind the records *)

(** A file whose length was extended on disk while its bytes were not written
    reads as zeros from there.  Eight of them pass for a torn header; with one
    more the scan takes the header of zeros for a damaged record with something
    after it, and reports corruption instead of cutting the tail. *)
Lemma zeros_are_corruption max ps k :
  0 <= max < 4294967296 - 8 → Forall (payload_ok max) ps → (8 < k)%nat →
  let data := frames ps ++ replicate k Byte.x00 in
  ∃ e, scan (len data) max data None = Some (Scanned (len ps) (len (frames ps)) false (Some e)) ∧ errorsIs e Corrupt = true.
Proof.
  intros Hmax Hps Hk. cbv zeta. rewrite scan_good_prefix by done. cbn [scan_loop].
  assert (Er : Stream (replicate k Byte.x00) None
             = Stream (replicate 8 Byte.x00 ++ replicate (k - 8) Byte.x00) None).
  { rewrite <- replicate_add. do 2 f_equal. lia. }
  unfold scan_step. rewrite Er. change (readFull ?r 8) with (readFull r (length (replicate 8 Byte.x00))).
  rewrite readFull_app.
  assert (Eh : decodeHeader (replicate 8 Byte.x00) = (0, 0)) by by vm_compute. rewrite Eh.
  rewrite (u32_max max Hmax). replace (max <? 0) with false by lia.
  assert (E0 : ∀ r, readFull r (Z.to_nat 0) = Ok ([], r)) by (intros []; done). rewrite E0.
  assert (Ec : (checksum 0 [] =? 0) = false) by by vm_compute. rewrite Ec. simpl negb. cbv iota.
  assert (Hlt : (len (frames ps) + recordSize 0 <? len (frames ps ++ replicate k Byte.x00)) = true).
  { rewrite len_app. unfold recordSize, headerSize, len at 3. rewrite length_replicate. lia. }
  rewrite Hlt. cbv iota beta. eexists. split; [reflexivity | by vm_compute].
Qed.
(** A batch of two records behind two acknowledged ones, and the power goes
    after its write and before its fsync. *)
Definition zs_first : sys := round_trip [p1; p2] (Sys (ex_world []) Idle [] 0).
Definition zs_append : sys := after_append [p1; p2] zs_first.
Definition zs_job : option (job * log) := commitBegin (log_of zs_append).
Definition zs_storing : sys :=
  match zs_job with
  | Some (j, l') => Sys (World l' (dk (sw zs_append))) (Storing j) (staged zs_append) (upto zs_append)
  | None => zs_append
  end.
Definition zs_stored : sys :=
  match zs_job with
  | Some (j, _) =>
      let '(r, w') := appendBatch SyncAlways (buf j) 2 (sw zs_storing) in
      Sys w' (after_store j r) (staged zs_storing) (upto zs_storing)
  | None => zs_append
  end.
Definition zs_moment : Disk.image :=
  default (Disk.img (dk (sw zs_storing))) (drop (length (Disk.trail (dk (sw zs_storing)))) (Disk.trail (dk (sw zs_stored))) !! 0%nat).
Definition zs_name : bytes := segmentName 1 0.
Definition zs_left : gmap bytes bytes :=
  <[zs_name := frames [p1; p2] ++ replicate 25 Byte.x00]> (worst zs_moment).

Lemma zs_loss : Disk.power_loss zs_moment zs_left.
Proof.
  intros n. destruct (decide (n = zs_name)) as [->|Hn].
  - unfold zs_left. rewrite lookup_insert_eq. cbv zeta.
    assert (E : Disk.files zs_moment !! zs_name
              = Some (Disk.File (frames [p1; p2] ++ frames [p1; p2]) (frames [p1; p2]))) by by vm_compute.
    rewrite E. eexists. split; [left|]. unfold Disk.survives. simpl Disk.cur. simpl Disk.dur.
    rewrite decide_False by by vm_compute. etrans; [apply common_prefix_r | by apply prefix_app_r].
  - unfold zs_left. rewrite lookup_insert_ne by congruence. exact (worst_is_possible zs_moment n).
Qed.

(** The first image after the one a step starts from. *)
Lemma first_moment init s s' : inv init s → step s s' →
  (length (Disk.trail (dk (sw s))) < length (Disk.trail (dk (sw s'))))%nat →
  moment s s' (default (Disk.img (dk (sw s))) (drop (length (Disk.trail (dk (sw s)))) (Disk.trail (dk (sw s'))) !! 0%nat)).
Proof.
  intros (gs & pa & fly & st & junk & h & flown & old & G) Hstep Hlt. right.
  destruct (step_holds G (active (log_of s)) [] s') as (added & E & _); [apply core_active_in | | by left | done |].
  { unfold log_of. rewrite len_nil, (rep_size _ _ _ _ _ (c_active _ _ _ _ _ _ _ (i_core _ _ _ _ _ _ _ _ _ _ G))). apply len_nonneg. }
  exists added. split; [done|]. rewrite E, drop_app_length. rewrite E, length_app in Hlt.
  destruct added as [|x added]; [simpl in Hlt; lia | left].
Qed.

(** Nothing that was acknowledged is damaged, and [Open] refuses the
    directory as corrupt. *)
Lemma lost_write_can_refuse_open :
  reachable (ex_world []) zs_storing ∧ step zs_storing zs_stored ∧ moment zs_storing zs_stored zs_moment ∧
  Disk.power_loss zs_moment zs_left ∧
  acknowledged (log_of zs_storing) (staged zs_storing) = [(1, p1); (2, p2)] ∧
  match (Open ex_opts (λ _, 0) ex_id (shows zs_left)).1 with
  | Ok _ => False
  | Fail e => errorsIs e Corrupt = true
  end.
Proof.
  assert (R1 : reachable (ex_world []) zs_first).
  { apply (round_trip_run _ (reachable_runs _) _ _ 2); [constructor | done | done | done | by vm_compute]. }
  assert (R2 : reachable (ex_world []) zs_append).
  { apply (append_run _ (reachable_runs _) _ _ 4); [exact R1 | done | done | unfold room; by vm_compute | by vm_compute]. }
  assert (Hj : match zs_job with
    | Some (j, l') => mustRotate l' (buf j) = false ∧ u64 (jlast j - jfirst j + 1) = 2 ∧ syncMode (opts l') = SyncAlways
    | None => False end) by by vm_compute.
  assert (R3 : reachable (ex_world []) zs_storing ∧ step zs_storing zs_stored).
  { unfold zs_stored, zs_storing. destruct zs_job as [[j l']|] eqn:Ej; [|destruct Hj]. destruct Hj as (Hrot & Hn & Hmode).
    set (s1 := Sys (World l' (dk (sw zs_append))) (Writing j) (staged zs_append) (upto zs_append)).
    assert (Rb : reachable (ex_world []) s1) by exact (reachable_runs _ _ _ R2 (run_begin zs_append j l' eq_refl Ej)).
    split.
    - apply (reachable_runs _ _ _ Rb). apply (run_rotate s1 j (Ok tt) (sw s1) eq_refl).
      change (log_of s1) with l'. by rewrite Hrot.
    - set (s2 := Sys (World l' (dk (sw zs_append))) (Storing j) (staged zs_append) (upto zs_append)).
      destruct (appendBatch _ _ _ _) as [r w'] eqn:E. apply step_running, (run_store s2 j r w' eq_refl).
      change (log_of s2) with l'. by rewrite Hmode, Hn. }
  destruct R3 as [R3 S].
  split; [exact R3|]. split; [exact S|]. split; [|split; [exact zs_loss | split; vm_compute; reflexivity]].
  unfold zs_moment. apply (first_moment _ _ _ (reachable_inv _ _ _ _ (ex_fresh []) R3) S). apply Nat.ltb_lt. vm_compute. reflexivity.
Qed.

(** ** Records recovery adopts

    The same batch, its process killed before the fsync instead: the next [Open]
    finds the two records whole and counts them in, and names the segment it
    starts above the reservation after them; but it syncs only the directory.
    When the power goes then, the records are gone, the name is there, and the
    chain is broken: [Open] refuses a directory in which every acknowledged record
    is whole. *)
Lemma adopted_records_can_refuse_open :
  acknowledged (log_of zs_storing) (staged zs_storing) = [(1, p1); (2, p2)] ∧
  match Open ex_opts (λ _, 0) ex_id (Disk.Disk zs_moment [] []) with
  | (Ok (l, _), d') =>
      map count (segs l) = [4; 0] ∧ Disk.power_loss (Disk.img d') (worst (Disk.img d')) ∧
      worst (Disk.img d') !! zs_name = Some (frames [p1; p2]) ∧
      (Open ex_opts (λ _, 0) ex_id (shows (worst (Disk.img d')))).1 = Fail (Errorf "wal: segment chain broken"%string [])
  | (Fail _, _) => False
  end.
Proof.
  split; [vm_compute; reflexivity|].
  assert (H : match Open ex_opts (λ _, 0) ex_id (Disk.Disk zs_moment [] []) with
    | (Ok (l, _), d') => map count (segs l) = [4; 0] ∧ worst (Disk.img d') !! zs_name = Some (frames [p1; p2]) ∧
        (Open ex_opts (λ _, 0) ex_id (shows (worst (Disk.img d')))).1 = Fail (Errorf "wal: segment chain broken"%string [])
    | (Fail _, _) => False
    end) by (vm_compute; repeat split; reflexivity).
  destruct (Open ex_opts (λ _, 0) ex_id (Disk.Disk zs_moment [] [])) as [[[l reps]|e] d']; [|exact H].
  destruct H as (H1 & H2 & H3). split; [exact H1|]. split; [apply worst_is_possible|]. split; [exact H2 | exact H3].
Qed.
End PowerLoss.
