(* ===== verification/Sound.v ===== *)
(** * A log that opens is a log (src/internal/wal/wal.go: [recover])

    Recovery takes the directory as it finds it: after a loss of power, or with
    files somebody has put there.  If it returns a log at all, without salvage and
    over numbers that are in order, the log is what appenders, readers and the
    checkpointer rely on: its segments hold exactly their whole records, each
    follows the one in front of it, and numbers go on above all of them. *)

From stdpp Require Import strings sorting.
From S2P Require Import Prelude Errors Text Record Disk Segment MarkFiles Log LogInv Frame LogSteps Durable Recovery PowerLoss.
Local Open Scope Z_scope.
Local Open Scope go_scope.

Module Sound.
Import Record Segment Log LogInv Frame LogSteps Durable Recovery PowerLoss.

(** The file of [s] is the frames of [ps] and nothing else. *)
Record whole (v : gmap bytes bytes) (max : Z) (s : segment) (ps : list bytes) : Prop := {
  wh_file : v !! path s = Some (frames ps);
  wh_path : path s = segmentName (baseLSN s) (prevEnd s);
  wh_size : size s = len (frames ps);
  wh_count : count s = len ps;
  wh_payloads : Forall (payload_ok max) ps;
  wh_base : is_u64 (baseLSN s);
  wh_prev : is_u64 (prevEnd s)
}.

Lemma whole_frame v v' max s ps : whole v max s ps → v' !! path s = v !! path s → whole v' max s ps.
Proof. intros [] E. split; try done. by rewrite E. Qed.

(** What is in the segment files of [v'] was at their beginning in [v]. *)
Definition cuts (v v' : gmap bytes bytes) : Prop :=
  ∀ n c, length n = 45%nat → c ≠ [] → v' !! n = Some c → ∃ rest, v !! n = Some (c ++ rest).

#[global] Instance cuts_preorder : PreOrder cuts.
Proof.
  split.
  - intros v n c _ _ H. exists []. by rewrite app_nil_r.
  - intros v1 v2 v3 H1 H2 n c Hn Hc H. destruct (H2 n c Hn Hc H) as (r2 & E2).
    destruct (H1 n (c ++ r2) Hn) as (r1 & E1); [|done|exists (r2 ++ r1); by rewrite app_assoc].
    intros [? _]%app_eq_nil. done.
Qed.

Lemma cuts_same v v' : (∀ n, length n = 45%nat → v' !! n = v !! n) → cuts v v'.
Proof. intros E n c Hn _ H. exists []. by rewrite app_nil_r, <- E. Qed.

(** Cutting one file, or emptying it. *)
Lemma cuts_one v v' q c rest :
  v' !! q = Some c → c = [] ∨ v !! q = Some (c ++ rest) → (∀ n, n ≠ q → v' !! n = v !! n) → cuts v v'.
Proof.
  intros Hq Hc Hother n c' _ Hne H. destruct (decide (n = q)) as [->|Hn].
  - rewrite Hq in H. injection H as <-. destruct Hc as [->|Hc]; [done | by exists rest].
  - exists []. by rewrite app_nil_r, <- Hother.
Qed.

(** What has no business with segments. *)
Lemma cuts_spared {A} (m : M Disk.disk A) d r d' :
  m d = (r, d') → (∀ n, length n = 45%nat → within (same_contents n) m) → cuts (Disk.view d) (Disk.view d').
Proof. intros H W. apply cuts_same. intros n Hn. exact (W n Hn _ _ _ H). Qed.

(** Each segment says it follows the one in front of it. *)
Fixpoint chained (ss : list segment) : Prop :=
  match ss with
  | s :: ((s' :: _) as rest) => prevEnd s' = lastLSN s ∧ chained rest
  | _ => True
  end.

Lemma chained_snoc ss s : chained ss → (∀ p, last ss = Some p → lastLSN p = prevEnd s) → chained (ss ++ [s]).
Proof.
  induction ss as [|x [|y ss] IH]; intros Hc Hl; [done | |].
  - simpl. split; [symmetry; by apply Hl | done].
  - destruct Hc as [H1 H2]. split; [done|]. by apply IH.
Qed.

Lemma chained_last ss x y : chained (ss ++ [x]) → prevEnd y = prevEnd x → chained (ss ++ [y]).
Proof.
  induction ss as [|a [|b ss] IH]; intros Hc E; [done | |].
  - destruct Hc as [H _]. split; [by rewrite E | done].
  - destruct Hc as [H1 H2]. split; [done|]. by apply IH.
Qed.

Section recovery.
Context (o : Options) (Hsalv : salvageSet o = false) (Hmax : 0 <= maxRecordBytes o < 4294967296 - 8).
Local Abbreviation max := (maxRecordBytes o).
Local Abbreviation held d := (λ s, ∃ ps, whole (Disk.view d) max s ps).

(** One turn of the loop: the file of the segment is cut to its whole records,
    or was nothing else. *)
Lemma recoverSeg_whole now nm next prev R d s next' R' reps d' :
  is_u64 (base nm) → is_u64 (sprev nm) → Forall honest_fault (Disk.plan d) →
  recoverSeg o now nm next prev R d = (Ok (s, next', R', reps), d') →
  (next' = next ∧ R' = R ∧ reps = [] ∧ Forall honest_fault (Disk.plan d')) ∧
  baseLSN s = base nm ∧ held d' s ∧ (∀ n, n ≠ path s → Disk.view d' !! n = Disk.view d !! n) ∧
  cuts (Disk.view d) (Disk.view d') ∧ ∀ p, prev = Some p → lastLSN p = prevEnd s.
Proof using Hsalv Hmax.
  intros Hub Hup Hp H. unfold recoverSeg in H. set (q := segmentName (base nm) (sprev nm)) in *.
  apply bind_try_inv in H as (sc & d1 & H1 & H). cbv zeta in H.
  assert (Hp1 : Forall honest_fault (Disk.plan d1)).
  { refine (plan_kept _ _ _ _ H1 _ Hp). unfold scanSegment. stays. }
  set (res := match sc with Ok (Some x) => x | Ok None => _ | Fail e => _ end) in H.
  apply bind_inv in H as [([[[nx R1] reps1] torn] & d2 & H2 & H)|(e & _ & [=])].
  assert (He : scan_err res = None ∧ d2 = d1 ∧ nx = next ∧ R1 = R ∧ reps1 = [] ∧ torn = truncated res).
  { rewrite Hsalv in H2. destruct (scan_err res) as [e|]; [by rewrite andb_false_r in H2|].
    destruct (truncated res && _); [by rewrite andb_false_r in H2|]. by injection H2 as <- <- <- <- <-. }
  destruct He as (He & -> & -> & -> & -> & ->). clear H2.
  destruct sc as [[x|]|e]; [|done..]. subst res. cbv beta iota in H, He.
  destruct (scanSegment_inv _ _ _ _ _ Hp H1 He) as (data & Hd & V1 & Hsc).
  destruct (scan_sound max Hmax data x Hsc) as [(e & Ee & _)|(ps & rest & Ed & Hps & _ & Hn & Hg & Ht)]; [by rewrite Ee in He|].
  rewrite He in Ht. apply bind_inv in H as [([] & d3 & H3 & H)|(e & _ & [=])].
  assert (H4 : d' = d3 ∧ s = Seg (base nm) q (sprev nm) HNil (Segment.good x) (n_records x) ∧
               (next', R', reps) = (next, R, []) ∧ ∀ p, prev = Some p → lastLSN p = sprev nm).
  { destruct prev as [pr|]; [|by injection H as <- <- <- <- <-].
    destruct (Z.eqb_spec (lastLSN pr) (sprev nm)) as [E|E]; simpl in H.
    - rewrite (proj2 (Z.eqb_eq _ _) E) in H. injection H as <- <- <- <- <-. repeat split; try done. by intros p [= ->].
    - by rewrite (proj2 (Z.eqb_neq _ _) E) in H. }
  destruct H4 as (-> & -> & [= -> -> ->] & Hprev).
  assert (H5 : Forall honest_fault (Disk.plan d3) ∧ Disk.view d3 !! q = Some (frames ps) ∧
               ∀ n, n ≠ q → Disk.view d3 !! n = Disk.view d !! n).
  { assert (Hd1 := Hd). rewrite <- V1 in Hd1. destruct (truncated x).
    - split; [rewrite (call_plan _ _ _ _ _ H3); by destruct Hp1|].
      apply (Disk.truncate_inv _ _ data) in H3 as [[_ V3]|(? & [=] & _)]; [|done|].
      + rewrite V3, lookup_insert_eq, Hg, Ed. unfold len. rewrite Nat2Z.id, take_app_length. split; [done|].
        intros n Hne. by rewrite lookup_insert_ne, V1.
      + rewrite Hg, Ed, len_app. pose proof (len_nonneg rest). pose proof (len_nonneg (frames ps)). lia.
    - injection H3 as <-. symmetry in Ht. apply bool_decide_eq_false in Ht. split; [done|].
      rewrite Hd1, Ed, V1. split; [|done]. destruct rest; [by rewrite app_nil_r|]. by destruct Ht. }
  destruct H5 as (Hp3 & Hf & Hother). split; [done|]. split; [done|]. split; [by exists ps; split|]. split; [done|].
  split; [|done]. apply (cuts_one _ _ q (frames ps) rest); [done | right; by rewrite Hd, Ed | done].
Qed.

Lemma recoverLoop_extends clock ns : ∀ i nm acc R d ss R' reps d',
  recoverLoop o clock i nm ns acc R d = (Ok (ss, R', reps), d') → ∃ s more, ss = acc ++ s :: more.
Proof using Type.
  induction ns as [|nm' ns IH]; intros i nm acc R d ss R' reps d' H; cbn [recoverLoop] in H;
    apply bind_inv in H as [([[[s next] R1] reps1] & d1 & _ & H)|(e & _ & [=])]; [by injection H as <- _ _ _; exists s, []|].
  destruct next as [n'|]; [|by injection H as <- _ _ _; exists s, []].
  apply bind_inv in H as [([[ss1 R2] reps2] & d2 & H & E)|(e & _ & [=])]. injection E as <- _ _ _.
  apply IH in H as (x & more & ->). exists s, (x :: more). by rewrite <- app_assoc.
Qed.

(** The segments so far and the one the turn has returned. *)
Lemma held_snoc acc d d1 s :
  Forall (held d) acc → held d1 s → (∀ n, n ≠ path s → Disk.view d1 !! n = Disk.view d !! n) → NoDup (baseLSN <$> acc ++ [s]) →
  Forall (held d1) (acc ++ [s]).
Proof using Type.
  intros Hacc (qs & Hs) Hother Hnd. apply Forall_app. split; [|constructor; [by exists qs | constructor]].
  apply Forall_forall. intros t Ht. rewrite Forall_forall in Hacc. destruct (Hacc t Ht) as (ps & Hw).
  exists ps. apply (whole_frame _ _ _ _ _ Hw), Hother. rewrite (wh_path _ _ _ _ Hw), (wh_path _ _ _ _ Hs). intros E.
  apply segmentName_inj in E as [E _]; [|apply Hw || apply Hs..].
  rewrite fmap_app in Hnd. apply NoDup_app in Hnd as (_ & Hnd & _).
  apply (Hnd (baseLSN t)); [by apply list_elem_of_fmap_2 | rewrite E; left].
Qed.

(** The loop: what it returns is chained and whole, provided no two of its
    segments have the same first number. *)
Lemma recoverLoop_whole clock ns : ∀ i nm acc R d ss R' reps d',
  recoverLoop o clock i nm ns acc R d = (Ok (ss, R', reps), d') → Forall honest_fault (Disk.plan d) →
  Forall (λ x, is_u64 (base x) ∧ is_u64 (sprev x)) (nm :: ns) →
  Forall (held d) acc → chained acc → NoDup (baseLSN <$> ss) →
  R' = R ∧ reps = [] ∧ Forall (held d') ss ∧ chained ss ∧ cuts (Disk.view d) (Disk.view d').
Proof using Hsalv Hmax.
  induction ns as [|nm' ns IH]; intros i nm acc R d ss R' reps d' H Hp Hns Hacc Hch Hnd; cbn [recoverLoop] in H;
    apply bind_inv in H as [([[[s next] R1] reps1] & d1 & H1 & H)|(e & _ & [=])];
    apply Forall_cons in Hns as [[Hu1 Hu2] Hns];
    apply recoverSeg_whole in H1 as ((-> & -> & -> & Hp1) & Hb & Hs & Hother & Hcut & Hprev); try done; cbn [head hd_error] in H.
  - injection H as <- <- <- <-. split; [done|]. split; [done|]. split; [by apply (held_snoc acc d)|].
    split; [by apply chained_snoc | done].
  - apply bind_inv in H as [([[ss1 R2] reps2] & d2 & H2 & H)|(e & _ & [=])]. injection H as <- <- <- <-.
    destruct (recoverLoop_extends _ _ _ _ _ _ _ _ _ _ _ H2) as (x & more & E).
    assert (Hnd1 : NoDup (baseLSN <$> acc ++ [s])).
    { rewrite E, fmap_app in Hnd. by apply NoDup_app in Hnd as [? _]. }
    apply IH in H2 as (-> & -> & Hall & Hch2 & Hcut2); try done; [|by apply (held_snoc acc d) | by apply chained_snoc].
    do 4 (split; [done|]). by etrans.
Qed.
End recovery.

(** ** The log that comes up *)

(** Numbers in order: every segment starts above the ones before it and above
    what it says it follows, and nothing is numbered beyond the reservation.  The
    code does not check it; it is what the names and the reservation in the
    directory have to say for themselves. *)
Record orderly (l : log) : Prop := {
  od_segs : Forall (λ s, 1 <= baseLSN s ∧ prevEnd s < baseLSN s ∧ baseLSN s + count s <= maxU64) (segs l);
  od_bases : StronglySorted Z.lt (baseLSN <$> segs l);
  od_spent : nextLSN l <= reserved l + 1 < maxU64
}.

#[global] Instance orderly_dec l : Decision (orderly l).
Proof.
  destruct (decide (Forall (λ s, 1 <= baseLSN s ∧ prevEnd s < baseLSN s ∧ baseLSN s + count s <= maxU64) (segs l))) as [H1|H1];
    [|right; by intros []].
  destruct (decide (StronglySorted Z.lt (baseLSN <$> segs l))) as [H2|H2]; [|right; by intros []].
  destruct (decide (nextLSN l <= reserved l + 1 < maxU64)) as [H3|H3]; [left; by split | right; by intros []].
Defined.

Lemma whole_rep v max s ps : whole v max s ps → 1 <= baseLSN s → prevEnd s < baseLSN s → baseLSN s + count s <= maxU64 →
  seg_rep v max [] s ps.
Proof.
  intros [] H1 H2 H3. unfold is_u64 in *. split; try done; [by rewrite app_nil_r | lia..].
Qed.

Lemma chained_linked ss : chained ss → StronglySorted Z.lt (baseLSN <$> ss) → linked ss.
Proof.
  induction ss as [|s [|s' ss] IH]; intros Hc Hs; [done..|]. destruct Hc as [H1 H2].
  apply StronglySorted_cons in Hs as [Hf Hs]. split; [done|]. split; [|by apply IH].
  rewrite Forall_forall in Hf. apply Hf. left.
Qed.

Lemma sorted_NoDup (zs : list Z) : StronglySorted Z.lt zs → NoDup zs.
Proof.
  induction zs as [|z zs IH]; intros Hs; [constructor|]. apply StronglySorted_cons in Hs as [Hf Hs].
  constructor; [|by apply IH]. intros Hin. rewrite Forall_forall in Hf. specialize (Hf z Hin). lia.
Qed.

(** Segments that are whole and orderly, as [core] has them. *)
Lemma whole_sealed v max ss :
  Forall (λ s, ∃ ps, whole v max s ps) ss →
  Forall (λ s, 1 <= baseLSN s ∧ prevEnd s < baseLSN s ∧ baseLSN s + count s <= maxU64) ss →
  ∃ gs, Forall2 (seg_rep v max []) ss gs.
Proof.
  induction 1 as [|s ss (ps & Hw) _ IH]; intros Hf; [by exists []|].
  apply Forall_cons in Hf as [(H1 & H2 & H3) Hf]. destruct (IH Hf) as (gs & Hgs). exists (ps :: gs).
  constructor; [by apply whole_rep | done].
Qed.

(** What [recover] ends with. *)
Record sound (o : Options) (w : world) (gs : list (list bytes)) (pa : list bytes) : Prop := {
  so_fresh : fresh w gs pa;
  so_opts : opts (lg w) = o;
  so_reserved : reserved (lg w) = nextLSN (lg w) - 1;
  so_first : FirstLSN (lg w) = match segs (lg w) with s :: _ => baseLSN s | [] => 0 end
}.

Lemma sound_makeLog o sealed a R id d ps :
  0 <= maxRecordBytes o <= maxRecordLimit → orderly (makeLog o sealed a R id) →
  Forall (λ s, ∃ qs, whole (Disk.view d) (maxRecordBytes o) s qs) sealed → whole (Disk.view d) (maxRecordBytes o) a ps →
  chained (sealed ++ [a]) → f a = HOpen → R <= lastLSN a →
  MarkFiles.markIn (Disk.view d) MarkFiles.reservedName = Some R →
  ∃ gs pa, sound o (World (makeLog o sealed a R id) d) gs pa.
Proof.
  intros Hmax [Hsegs Hb Hsp] Hs Ha Hch Hh HR Hm. unfold segs, makeLog in Hsegs, Hb. cbn [Log.sealed active] in Hsegs, Hb.
  apply Forall_app in Hsegs as [Hs1 (H1 & H2 & H3)%Forall_singleton].
  pose proof (whole_rep _ _ _ _ Ha H1 H2 H3) as Hrep. destruct (whole_sealed _ _ _ Hs Hs1) as (gs & Hgs).
  pose proof (rep_lastLSN _ _ _ _ _ Hrep) as Hla. pose proof (rep_count _ _ _ _ _ Hrep). pose proof (len_nonneg ps).
  unfold makeLog in Hsp. cbn [nextLSN reserved] in Hsp.
  assert (Hnx : baseLSN a +u count a = baseLSN a + count a).
  { clear Hsp. unfold maxU64 in *. ulia. }
  rewrite Hnx in Hsp.
  destruct (fresh_makeLog o sealed a gs ps R id d) as [F Hn]; try done; [by apply chained_linked | lia | lia |].
  exists gs, ps. split; [done | done | | done]. cbn [lg]. rewrite Hn. simpl. lia.
Qed.

(** The end of recovery, over the segments the loop has returned. *)
Lemma resume_sound o ss R id d l d' :
  0 <= maxRecordBytes o <= maxRecordLimit → is_u64 R →
  Forall (λ s, ∃ ps, whole (Disk.view d) (maxRecordBytes o) s ps) ss → chained ss →
  resume o ss R id d = (Ok l, d') → orderly l → MarkFiles.markIn (Disk.view d') MarkFiles.reservedName = Some R →
  ∃ gs pa, sound o (World l d') gs pa.
Proof.
  intros Hmax HR Hss Hch H Hod Hm.
  assert (Hnew : ∀ prev d1 s, is_u64 prev → (∀ x, last ss = Some x → lastLSN x = prev) →
    createSegment (R +u 1) prev d = (Ok s, d1) → l = makeLog o ss s R id → d' = d1 →
    ∃ gs pa, sound o (World l d') gs pa).
  { intros prev d1 s Hu Hlast Hc -> ->. apply createSegment_inv in Hc as [([= ->] & _ & V)|(e & [=] & _)].
    set (n := segmentName (R +u 1) prev) in *. set (s := Seg (R +u 1) n prev HOpen 0 0) in *.
    assert (Hu1 : is_u64 (R +u 1)) by apply u64_range.
    eapply (sound_makeLog o ss s R id d1 []); try done.
    - pose proof (sorted_NoDup _ (od_bases _ Hod)) as Hnd. unfold segs in Hnd. cbn [Log.sealed active makeLog] in Hnd.
      rewrite fmap_app in Hnd. apply NoDup_app in Hnd as (_ & Hnd & _). apply Forall_forall. intros t Ht.
      rewrite Forall_forall in Hss. destruct (Hss t Ht) as (ps & Hw). exists ps. apply (whole_frame _ _ _ _ _ Hw).
      rewrite V. apply lookup_insert_ne. rewrite (wh_path _ _ _ _ Hw). intros E.
      apply segmentName_inj in E as [E _]; [|done|done|apply Hw..].
      apply (Hnd (baseLSN t)); [by apply list_elem_of_fmap_2 | rewrite <- E; left].
    - split; try done. simpl. rewrite V. apply lookup_insert_eq.
    - apply chained_snoc; [done|]. exact Hlast.
    - pose proof (od_spent _ Hod) as Hsp. cbn [reserved makeLog] in Hsp.
      unfold lastLSN. simpl. unfold is_u64, maxU64 in *. ulia. }
  destruct ss as [|x ss _] using rev_ind.
  - unfold resume in H. apply bind_inv in H as [(s & d1 & H1 & H)|(e & _ & [=])]. injection H as <- <-.
    eapply (Hnew 0 d1 s); [by unfold is_u64 | done | exact H1 | done | done].
  - rewrite resume_snoc in H. destruct (Z.ltb_spec (lastLSN x) R) as [Hlt|Hge].
    + apply bind_inv in H as [(s & d1 & H1 & H)|(e & _ & [=])]. injection H as <- <-.
      eapply (Hnew (lastLSN x) d1 s); [apply u64_range | | exact H1 | done | done].
      intros y. rewrite last_snoc. by intros [= ->].
    + apply bind_inv in H as [([] & d1 & H1 & H)|(e & _ & [=])]. injection H as <- <-.
      apply Disk.openExisting_inv in H1 as [_ V]. apply Forall_app in Hss as [Hss (ps & Hw)%Forall_singleton].
      rewrite <- V in Hss. eapply (sound_makeLog o ss (set_f HOpen x) R id d1 ps); try done.
      * destruct Hw. split; try done. by rewrite V.
      * by eapply chained_last.
Qed.

(** What [resume] builds on. *)
Lemma resume_numbers o ss R id d l d' : resume o ss R id d = (Ok l, d') →
  reserved l = R ∧ cuts (Disk.view d) (Disk.view d') ∧ ∃ more, baseLSN <$> segs l = (baseLSN <$> ss) ++ more.
Proof.
  assert (Hnew : ∀ b p s d1, createSegment b p d = (Ok s, d1) → cuts (Disk.view d) (Disk.view d1)).
  { intros b p s d1 H. apply createSegment_inv in H as [(_ & _ & ->)|(? & [=] & _)].
    apply (cuts_one _ _ (segmentName b p) [] []); [apply lookup_insert_eq | by left | intros n Hn; by apply lookup_insert_ne, not_eq_sym]. }
  intros H. destruct ss as [|x ss _] using rev_ind.
  - unfold resume in H. apply bind_inv in H as [(s & d1 & H1 & H)|(e & _ & [=])]. injection H as <- <-.
    split; [done|]. split; [by eapply Hnew | by eexists].
  - rewrite resume_snoc in H. case_if.
    + apply bind_inv in H as [(s & d1 & H1 & H)|(e & _ & [=])]. injection H as <- <-.
      split; [done|]. split; [by eapply Hnew|]. unfold segs. simpl. rewrite (fmap_app _ _ [s]). by eexists.
    + apply bind_inv in H as [(s & d1 & H1 & H)|(e & _ & [=])]. injection H as <- <-.
      apply Disk.openExisting_inv in H1 as [_ ->]. split; [done|]. split; [done|]. exists [].
      unfold segs. simpl. by rewrite !fmap_app, app_nil_r.
Qed.

Lemma mark_is_u64 v name n : MarkFiles.markIn v name = Some n → is_u64 n.
Proof.
  unfold MarkFiles.markIn. destruct (v !! name) as [b|]; [|by intros [= <-]; unfold is_u64].
  apply Text.parse_is_u64.
Qed.

(** The recovery inside [Open]. *)
Lemma open_recovers o clock newId d l reps d' :
  Open o clock newId d = (Ok (l, reps), d') → Forall honest_fault (Disk.plan d) →
  ∃ d1, 0 <= maxRecordBytes (withDefaults o) <= maxRecordLimit ∧ Forall honest_fault (Disk.plan d1) ∧
    cuts (Disk.view d) (Disk.view d1) ∧
    MarkFiles.markIn (Disk.view d1) MarkFiles.reservedName = MarkFiles.markIn (Disk.view d) MarkFiles.reservedName ∧
    recover (withDefaults o) clock newId d1 = (Ok (l, reps), d').
Proof.
  intros H Hp. unfold Open in H. cbv zeta in H.
  destruct (Z.ltb_spec maxRecordLimit (maxRecordBytes (withDefaults o))) as [|Hlim]; [done|].
  pose proof (maxRecordBytes_default o).
  apply bind_inv in H as [([] & d1 & H1 & H)|(e0 & _ & [=])].
  apply (plan_kept _ _ _ _ H1) in Hp; [|unfold lockDir; by stays].
  apply on_error_inv in H as [(lr & H & E)|(? & ? & ? & _ & _ & [=])]. injection E as <-. exists d1.
  assert (W : ∀ n, lockName ≠ n → within (same_contents n) lockDir) by (intros n Hn; unfold lockDir; stays).
  split; [lia|]. split; [done|]. split; [|split; [|done]].
  - apply (cuts_spared _ _ _ _ H1). intros n Hn. apply W. by intros <-.
  - unfold MarkFiles.markIn. pose proof (W MarkFiles.reservedName ltac:(by vm_compute) _ _ _ H1) as E.
    unfold same_contents, same_view, fileOf in E. by rewrite E.
Qed.

Lemma sortedNames_u64 entries : Forall (λ x, is_u64 (base x) ∧ is_u64 (sprev x)) (sortedNames entries).
Proof.
  apply Forall_forall. intros x Hx. unfold sortedNames in Hx. rewrite merge_sort_Permutation in Hx.
  apply list_elem_of_omap in Hx as (n & _ & Hn). unfold nameOf, parseSegmentName in Hn.
  destruct (negb _); [done|]. destruct (Text.cut _ _) as [[b p]|]; [|done].
  destruct (Text.parseUint b) as [b'|] eqn:Eb; [|done]. destruct (Text.parseUint p) as [p'|] eqn:Ep; [|done].
  injection Hn as <-. split; [exact (Text.parse_is_u64 _ _ Eb) | exact (Text.parse_is_u64 _ _ Ep)].
Qed.

Lemma reservation_spared o clock newId d r d' : salvageSet o = false → recover o clock newId d = (r, d') →
  MarkFiles.markIn (Disk.view d') MarkFiles.reservedName = MarkFiles.markIn (Disk.view d) MarkFiles.reservedName.
Proof.
  intros Hs H. unfold MarkFiles.markIn. assert (E : Disk.view d' !! MarkFiles.reservedName = Disk.view d !! MarkFiles.reservedName); [|by rewrite E].
  refine (sp_recover MarkFiles.reservedName (same_contents MarkFiles.reservedName) _ _ _ _ o clock newId Hs _ _ _ H); [|by vm_compute..].
  intros b p E. apply (f_equal length) in E. by rewrite length_segmentName in E.
Qed.

Lemma recover_sound o clock newId d l reps d' :
  salvageSet o = false → 0 <= maxRecordBytes o <= maxRecordLimit → Forall honest_fault (Disk.plan d) →
  recover o clock newId d = (Ok (l, reps), d') → orderly l →
  reps = [] ∧ cuts (Disk.view d) (Disk.view d') ∧
  MarkFiles.markIn (Disk.view d) MarkFiles.reservedName = Some (reserved l) ∧ ∃ gs pa, sound o (World l d') gs pa.
Proof.
  intros Hs Hmax Hp H Hod. pose proof (Hmax' Hmax) as Hm'. pose proof H as Hres.
  apply (reservation_spared _ _ _ _ _ _ Hs) in Hres. unfold recover in H.
  apply bind_inv in H as [(entries & d1 & H1 & H)|(e & _ & [=])].
  apply (plan_kept _ _ _ _ H1) in Hp; [|by stays]. cbv zeta in H.
  pose proof (cuts_spared _ _ _ _ H1 ltac:(intros; stays)) as Hcut1.
  apply bind_inv in H as [(R0 & d2 & H2 & H)|(e & _ & [=])].
  pose proof (readMark_honest _ _ _ _ _ Hp H2) as Hm. apply Disk.readDir_inv in H1 as [_ V1].
  apply (plan_kept _ _ _ _ H2) in Hp; [|unfold MarkFiles.readReserved, MarkFiles.readMark; by stays].
  pose proof (cuts_spared _ _ _ _ H2 ltac:(intros; unfold MarkFiles.readReserved, MarkFiles.readMark; stays)) as Hcut2.
  apply bind_inv in H as [(id & d3 & H3 & H)|(e & _ & [=])].
  assert (Hcut3 : cuts (Disk.view d2) (Disk.view d3)).
  { apply (cuts_spared _ _ _ _ H3). intros n Hn.
    assert (within (same_contents n) (MarkFiles.writeIdentity newId)).
    { apply (sp_replaceFile n); [apply _ | by intros <-..]. }
    unfold MarkFiles.loadIdentity. stays. }
  assert (Hwr : within (keeping [] []) (MarkFiles.writeIdentity newId)) by (apply (sp_replaceFile []); [apply _ | done..]).
  apply (plan_kept _ _ _ _ H3) in Hp; [|unfold MarkFiles.loadIdentity; by stays].
  apply bind_inv in H as [([[ss R1] reps1] & d4 & H4 & H)|(e & _ & [=])].
  apply bind_inv in H as [(l0 & d5 & H5 & H)|(e & _ & [=])]. injection H as <- <- <-.
  pose proof (sortedNames_u64 entries) as Hu. pose proof (mark_is_u64 _ _ _ Hm) as HR0. rewrite V1 in Hm. rewrite Hm in Hres.
  destruct (resume_numbers _ _ _ _ _ _ _ H5) as (Er & Hcut5 & more & Eb).
  assert (Hnd : NoDup (baseLSN <$> ss)).
  { pose proof (sorted_NoDup _ (od_bases _ Hod)) as Hnd. rewrite Eb in Hnd. by apply NoDup_app in Hnd as [? _]. }
  assert (Hall : R1 = R0 ∧ reps1 = [] ∧ Forall (λ s, ∃ ps, whole (Disk.view d4) (maxRecordBytes o) s ps) ss ∧ chained ss ∧
    cuts (Disk.view d3) (Disk.view d4)).
  { destruct (sortedNames entries) as [|nm ns]; [by injection H4 as <- <- <- <-|].
    apply recoverLoop_whole in H4 as (-> & -> & Hw & Hch & Hcut); done. }
  destruct Hall as (-> & -> & Hw & Hch & Hcut4). split; [done|]. split.
  - etrans; [exact Hcut1|]. etrans; [exact Hcut2|]. etrans; [exact Hcut3|]. by etrans.
  - split; [by rewrite Er|]. exact (resume_sound _ _ _ _ _ _ _ Hmax HR0 Hw Hch H5 Hod Hres).
Qed.

(** The records of a sound log are the ones its files begin with. *)
Lemma sound_records o w gs pa v e :
  sound o w gs pa → cuts v (Disk.view (dk w)) → e ∈ all_records (lg w) gs pa →
  ∃ b p ps, in_file v (maxRecordBytes o) b p ps e.
Proof.
  intros [F Ho _ _] Hcut (t & ps & Hin & He)%(book_records (fr_core _ _ _ F)). pose proof (fr_core _ _ _ F) as C.
  destruct (book_rep C t ps Hin) as (Ht & j & Hr). destruct (rep_is_u64 _ _ _ _ _ Hr) as [Hb Hp].
  pose proof (rep_file _ _ _ _ _ Hr) as Hf. rewrite (rep_path _ _ _ _ _ Hr) in Hf.
  apply Hcut in Hf as (rest & Hf); [| by apply length_segmentName|].
  - exists (baseLSN t), (prevEnd t), ps. rewrite <- Ho. split; [done|]. split; [done|]. split; [apply Hr|]. split; [done|].
    exists (j ++ rest). by rewrite app_assoc.
  - destruct ps as [|p0 ps]; [by apply not_elem_of_nil in He|]. rewrite frames_cons. intros E.
    apply (f_equal len) in E. rewrite !len_app, len_frame, len_nil in E. unfold recordSize, headerSize in E.
    pose proof (len_nonneg p0). pose proof (len_nonneg (frames ps)). pose proof (len_nonneg j). lia.
Qed.

Lemma stored_records o w gs pa max e :
  sound o w gs pa → max <= maxRecordBytes o → stored max (lg w) (Disk.view (dk w)) e → e ∈ all_records (lg w) gs pa.
Proof.
  intros [F Ho _ _] Hmax (t & ps & rest & Ht & Hps & Hf & _ & Hcnt & He). pose proof (fr_core _ _ _ F) as C.
  assert (Hbook : ∃ qs, (t, qs) ∈ book (lg w) gs pa).
  { rewrite <- (book_fst C) in Ht. by apply list_elem_of_fmap in Ht as ([t' qs] & -> & Hin); exists qs. }
  destruct Hbook as (qs & Hin). destruct (book_rep C t qs Hin) as (_ & j & Hr).
  rewrite (rep_file _ _ _ _ _ Hr) in Hf. injection Hf as Hf. rewrite (rep_count _ _ _ _ _ Hr) in Hcnt.
  pose proof (c_max _ _ _ _ _ _ _ C) as Hm. unfold maxRecordLimit, headerSize in Hm. rewrite Ho in Hm, Hr.
  assert (Hps' : Forall (payload_ok (maxRecordBytes o)) ps).
  { eapply Forall_impl; [exact Hps|]. unfold payload_ok. intros x. lia. }
  destruct (frames_prefix (maxRecordBytes o) ltac:(lia) ps qs rest j Hps' (rep_payloads _ _ _ _ _ Hr)) as (more & ->);
    [unfold len in Hcnt; lia | done|].
  apply (book_records C). exists t, (ps ++ more). split; [done|]. rewrite entries_app. apply elem_of_app. by left.
Qed.

(** What [Open] without salvage has to show for a log whose numbers are in
    order. *)
Lemma open_sound o clock newId d l reps d' :
  salvageSet o = false → Forall honest_fault (Disk.plan d) →
  Open o clock newId d = (Ok (l, reps), d') → orderly l →
  reps = [] ∧ MarkFiles.markIn (Disk.view d) MarkFiles.reservedName = Some (reserved l) ∧ cuts (Disk.view d) (Disk.view d') ∧
  ∃ gs pa, sound (withDefaults o) (World l d') gs pa ∧
    ∀ e, e ∈ all_records l gs pa ↔ ∃ b p ps, in_file (Disk.view d) (maxRecordBytes (withDefaults o)) b p ps e.
Proof.
  intros Hs Hp H Hod. destruct (open_recovers _ _ _ _ _ _ _ H Hp) as (d1 & Hmax & Hp1 & Hcut & Hres & H1).
  destruct (recover_sound (withDefaults o) _ _ _ _ _ _ Hs Hmax Hp1 H1 Hod) as (-> & Hcut2 & Hm & gs & pa & So).
  assert (Hcuts : cuts (Disk.view d) (Disk.view d')) by by etrans.
  split; [done|]. split; [by rewrite <- Hres|]. split; [done|]. exists gs, pa. split; [done|]. intros e. split.
  - by apply (sound_records _ _ _ _ _ _ So).
  - intros (b & p & ps & Hin). apply (stored_records _ _ _ _ _ _ So (Z.le_refl _)).
    by apply (open_keeps_whole_records _ _ _ _ _ _ _ _ _ _ _ _ Hin (Z.le_refl _) Hs Hp H).
Qed.

(** C11: a log that opens is sound.  Whatever the directory holds and whatever calls
    fail (with errors of their own, not with the end or the absence of a file),
    if [Open] without salvage returns a log whose numbers are in order, it
    salvaged nothing and the log is as appenders, readers and the checkpointer
    need it: every segment file is exactly the frames of whole records within the
    limit, as many and as long as the log believes, each segment continues the
    one in front of it, and the next number is the one after the reservation
    found.  And its records are exactly those that were whole in a segment file
    of the directory, with nothing but whole records in front of them. *)
Theorem opened_log_is_sound o clock newId d l reps d' :
  salvageSet o = false → Forall honest_fault (Disk.plan d) →
  Open o clock newId d = (Ok (l, reps), d') → orderly l →
  reps = [] ∧ MarkFiles.markIn (Disk.view d) MarkFiles.reservedName = Some (nextLSN l - 1) ∧
  ∃ gs pa, fresh (World l d') gs pa ∧ opts l = withDefaults o ∧ reserved l = nextLSN l - 1 ∧
    ∀ e, e ∈ all_records l gs pa ↔ ∃ b p ps, in_file (Disk.view d) (maxRecordBytes (withDefaults o)) b p ps e.
Proof.
  intros Hs Hp H Hod. destruct (open_sound _ _ _ _ _ _ _ Hs Hp H Hod) as (-> & Hm & _ & gs & pa & [F Ho Hr _] & Hall).
  split; [done|]. simpl in Hr. split; [by rewrite <- Hr|]. by exists gs, pa.
Qed.

(** C12: numbers are not handed out twice, not even when the power goes.  Cut the
    power at any moment of any run of a log whose reservation was synced when it
    was opened, and open what is left: if that succeeds, the log numbers new
    records above every number any appender was ever given. *)
Theorem numbers_survive_power_loss w0 gs0 pa0 s s' i o clock newId d l reps d' :
  fresh w0 gs0 pa0 → spends (reserved (lg w0)) (Disk.img (dk w0)) → reachable w0 s → step s s' →
  moment s s' i → Disk.power_loss i (Disk.view d) → salvageSet o = false → Forall honest_fault (Disk.plan d) →
  Open o clock newId d = (Ok (l, reps), d') → orderly l →
  nextLSN (log_of s) <= nextLSN l ∧ Forall (λ x, x.2.1 < nextLSN l) (staged s).
Proof.
  intros F Hsp R Hstep Hi Hl Hs Hp H Hod.
  destruct (reservation_survives _ _ _ _ _ _ _ F Hsp R Hstep Hi Hl) as (k & Hk & Hle).
  destruct (open_sound _ _ _ _ _ _ _ Hs Hp H Hod) as (_ & Hm & _ & gs & pa & [_ _ Hr _] & _).
  rewrite Hk in Hm. injection Hm as ->.
  destruct (reachable_inv _ _ _ _ F R) as (gs1 & pa1 & fly & st & junk & h & flown & old & G).
  pose proof (c_reserved _ _ _ _ _ _ _ (i_core _ _ _ _ _ _ _ _ _ _ G)). simpl in Hr. unfold log_of in *. split; [lia|].
  eapply Forall_impl; [exact (reachable_claimed _ _ _ _ F R)|]. unfold log_of. intros x. simpl. lia.
Qed.

Lemma ex_spends : spends (reserved (lg (ex_world ex_plan))) (Disk.img (dk (ex_world ex_plan))).
Proof.
  intros b Hb. unfold Disk.bindings in Hb. simpl in Hb. rewrite lookup_empty, lookup_singleton_ne in Hb.
  - apply list_elem_of_singleton in Hb as ->. by exists 0.
  - intros E. apply (f_equal length) in E. by rewrite length_segmentName in E.
Qed.

Lemma numbers_survive_power_loss_witness :
  match (Open ex_opts (λ _, 0) ex_id ex_left).1 with
  | Ok (l, _) => Forall (λ x, x.2.1 < nextLSN l) (staged ex_s3)
  | Fail _ => False
  end.
Proof.
  assert (Hc : match (Open ex_opts (λ _, 0) ex_id ex_left).1 with
    | Ok (l, _) => bool_decide (orderly l) = true
    | Fail _ => False
    end) by (vm_compute; reflexivity).
  destruct (Open ex_opts (λ _, 0) ex_id ex_left) as [[[l reps]|e] d'] eqn:E; [|exact Hc].
  apply bool_decide_eq_true_1 in Hc as Hod.
  assert (Hl : Disk.power_loss (Disk.img (dk (sw ex_s3))) (Disk.view ex_left)).
  { unfold ex_left. rewrite view_shows. apply worst_is_possible. }
  exact (proj2 (numbers_survive_power_loss _ _ _ _ _ _ ex_opts (λ _, 0) ex_id ex_left l reps d' (ex_fresh ex_plan) ex_spends
    ex_reachable (step_running _ _ (run_close ex_s3)) (or_introl eq_refl) Hl eq_refl (Forall_nil_2 _) E Hod)).
Defined.

(** What the loss of power has left of the example: the log comes up sound, with
    the third record. *)
Lemma opened_log_is_sound_witness :
  match Open ex_opts (λ _, 0) ex_id ex_left with
  | (Ok (l, reps), d') => ∃ gs pa, fresh (World l d') gs pa ∧ (3, p1) ∈ all_records l gs pa
  | (Fail _, _) => False
  end.
Proof.
  assert (Hc : match Open ex_opts (λ _, 0) ex_id ex_left with
    | (Ok (l, _), _) => bool_decide (orderly l) = true
    | (Fail _, _) => False
    end) by (vm_compute; reflexivity).
  assert (Hf : Disk.view ex_left !! segmentName 1 0 = Some (frames [p1; p2; p1])) by by vm_compute.
  destruct (Open ex_opts (λ _, 0) ex_id ex_left) as [[[l reps]|e] d'] eqn:E; [|exact Hc].
  apply bool_decide_eq_true_1 in Hc as Hod.
  destruct (opened_log_is_sound ex_opts (λ _, 0) ex_id ex_left l reps d' eq_refl (Forall_nil_2 _) E Hod)
    as (_ & _ & gs & pa & F & _ & _ & Hall). exists gs, pa. split; [exact F|]. apply Hall. clear E Hc Hod F Hall. exists 1, 0, [p1; p2; p1].
  split; [unfold is_u64; lia|]. split; [unfold is_u64; lia|]. split; [repeat constructor; vm_compute; discriminate|].
  split; [apply (list_elem_of_lookup_2 _ 2); reflexivity|]. exists []. rewrite app_nil_r. exact Hf.
Defined.
End Sound.
