(* ===== verification/Reader.v ===== *)
(** * Readers (src/internal/wal/reader.go)

    A sequential cursor over the log: it works on a snapshot of the segments,
    refreshed when it runs out, reads through a window, and steps over the gaps
    recovery leaves.  The theorems say that it yields the log's records in
    order, each once, whatever reads fail on the way.

    One call of [Next] is taken as one step of the system: the snapshots it
    takes are of one log.  Reading goes through [files], what the operating
    system offers on segment files; a file removed while it is open can still
    be read, and any call may fail. *)

From stdpp Require Import strings.
From S2P Require Import Prelude Errors Text Record Disk Segment MarkFiles Log LogInv LogSteps Recovery.
Local Open Scope Z_scope.
Local Open Scope go_scope.

Module Reader.
Import Record Segment Log LogInv.

Definition readWindow : Z := Z.shiftl 256 10.

(** [os.Open] and [File.ReadAt]. *)
Record files := Files {
  openFile : bytes → result unit;
  readAt : bytes → Z → Z → result bytes
}.

Record reader := Rd {
  views : list segView;
  durable : Z;
  nextLSN : Z;
  idx : nat;
  isOpen : bool;
  rpath : bytes;
  off : Z;
  posLSN : Z;
  win : bytes;
  winOff : Z
}.

Definition set_snapshot (s : list segView * Z) (r : reader) : reader :=
  Rd s.1 s.2 (nextLSN r) (idx r) (isOpen r) (rpath r) (off r) (posLSN r) (win r) (winOff r).
Definition set_nextLSN (n : Z) (r : reader) : reader :=
  Rd (views r) (durable r) n (idx r) (isOpen r) (rpath r) (off r) (posLSN r) (win r) (winOff r).
Definition set_idx (i : nat) (r : reader) : reader :=
  Rd (views r) (durable r) (nextLSN r) i (isOpen r) (rpath r) (off r) (posLSN r) (win r) (winOff r).
Definition set_open (b : bool) (r : reader) : reader :=
  Rd (views r) (durable r) (nextLSN r) (idx r) b (rpath r) (off r) (posLSN r) (win r) (winOff r).
Definition set_file (p : bytes) (i : nat) (r : reader) : reader :=
  Rd (views r) (durable r) (nextLSN r) i true p (off r) (posLSN r) (win r) (winOff r).
Definition set_pos (o p : Z) (r : reader) : reader :=
  Rd (views r) (durable r) (nextLSN r) (idx r) (isOpen r) (rpath r) o p (win r) (winOff r).
Definition set_win (w : bytes) (o : Z) (r : reader) : reader :=
  Rd (views r) (durable r) (nextLSN r) (idx r) (isOpen r) (rpath r) (off r) (posLSN r) w o.

Definition refresh (l : log) : M reader unit := modify (set_snapshot (snapshot l)).

Definition dropWindow : reader → reader := set_win [] (-1).

Definition NewReader (l : log) (fromLSN : Z) : result reader :=
  let '(vs, d) := snapshot l in
  let start := if fromLSN =? 0 then match vs with v :: _ => v_baseLSN v | [] => 1 end else fromLSN in
  let at_ n := Ok (Rd vs d n 0 false [] 0 0 [] (-1)) in
  match vs with
  | v :: _ =>
      if start <? v_baseLSN v then
        if negb (gapBefore v start) then Fail (Sentinel Truncated) else at_ (v_baseLSN v)
      else at_ start
  | [] => at_ start
  end.

Section reader.
Context (E : files) (maxRecordBytes : Z).

Definition fill (o need limit : Z) : M reader unit := λ r,
  let size := Z.max readWindow need in
  let size := if limit <? o + size then limit - o else size in
  if size <? need then (Fail (Sentinel NoData), r)
  else match readAt E (rpath r) o size with
       | Fail e => (Fail e, dropWindow r)
       | Ok b => (Ok tt, set_win b o r)
       end.

Definition at_ (o n limit : Z) : M reader bytes :=
  r <- get ;;
  (if (o <? winOff r) || (winOff r + len (win r) <? o + n) then fill o n limit else ret tt) ;;;
  r <- get ;;
  ret (take (Z.to_nat n) (drop (Z.to_nat (o - winOff r)) (win r))).

(** [skipTo] with [k] headers still to walk. *)
Fixpoint skipTo (v : segView) (k : nat) (o : Z) : M reader Z :=
  match k with
  | O => ret o
  | S k =>
      hdr <- at_ o headerSize (v_size v) ;;
      let '(length, _) := decodeHeader hdr in
      skipTo v k (o + recordSize length)
  end.

Fixpoint find_from (i : nat) (lsn : Z) (vs : list segView) : option nat :=
  match vs with
  | [] => None
  | v :: vs => if (v_baseLSN v <=? lsn) && (lsn <? v_baseLSN v +u v_count v) then Some i
               else find_from (S i) lsn vs
  end.
Definition find (lsn : Z) (vs : list segView) : option nat := find_from 0 lsn vs.

Definition openAt (i : nat) : M reader unit :=
  r <- get ;;
  match views r !! i with
  | None => throw (Errorf "index out of range"%string [])
  | Some v =>
      if isOpen r && bool_decide (rpath r = v_path v) && (posLSN r =? nextLSN r)
      then modify (set_idx i)
      else
        modify (set_open false) ;;;
        match openFile E (v_path v) with
        | Fail err => throw (if errorsIs err NotExist then Sentinel Truncated else err)
        | Ok _ =>
            modify (set_file (v_path v) i) ;;;
            modify dropWindow ;;;
            r <- get ;;
            o <- on_error (skipTo v (Z.to_nat (nextLSN r - v_baseLSN v)) 0) (modify (set_open false)) ;;
            modify (λ r, set_pos o (nextLSN r) r)
        end
  end.

(** The first segment after the gap the cursor is in. *)
Fixpoint gap_from (i : nat) (lsn : Z) (vs : list segView) : option (nat * segView) :=
  match vs with
  | [] => None
  | v :: vs => if gapBefore v lsn && (0 <? v_count v) then Some (i, v) else gap_from (S i) lsn vs
  end.

Definition position (l : log) : M reader unit :=
  r <- get ;;
  match find (nextLSN r) (views r) with
  | Some i => openAt i
  | None =>
      refresh l ;;;
      r <- get ;;
      match find (nextLSN r) (views r) with
      | Some i => openAt i
      | None =>
          match gap_from 0 (nextLSN r) (views r) with
          | Some (i, v) => modify (set_nextLSN (v_baseLSN v)) ;;; openAt i
          | None =>
              match views r with
              | v :: _ => if nextLSN r <? v_baseLSN v then throw (Sentinel Truncated)
                          else throw (Sentinel NoData)
              | [] => throw (Sentinel NoData)
              end
          end
      end
  end.

(** [Next] from the point where the segment is known to hold a header. *)
Definition readRecord (v : segView) : M reader (Z * bytes) :=
  r <- get ;;
  hdr <- at_ (off r) headerSize (v_size v) ;;
  let '(length, crc) := decodeHeader hdr in
  let fin := off r + recordSize length in
  if (u32 maxRecordBytes <? length) || (v_size v <? fin) then throw (Sentinel Corrupt)
  else
    rec <- at_ (off r) (headerSize + length) (v_size v) ;;
    let payload := drop (Z.to_nat headerSize) rec in
    if negb (checksum length payload =? crc) then throw (Sentinel Corrupt)
    else
      modify (λ r, let n := nextLSN r +u 1 in set_pos fin n (set_nextLSN n r)) ;;;
      ret (nextLSN r, payload).

Definition currentView : M reader segView :=
  r <- get ;;
  match views r !! idx r with
  | Some v => ret v
  | None => throw (Errorf "index out of range"%string [])
  end.

Definition Next (l : log) : M reader (Z * bytes) :=
  r <- get ;;
  (if durable r <? nextLSN r then
     refresh l ;;;
     r <- get ;;
     if durable r <? nextLSN r then throw (Sentinel NoData) else ret tt
   else ret tt) ;;;
  position l ;;;
  v <- currentView ;;
  r <- get ;;
  if v_size v <? off r + headerSize then
    refresh l ;;;
    position l ;;;
    v <- currentView ;;
    r <- get ;;
    if v_size v <? off r + headerSize then throw (Sentinel NoData) else readRecord v
  else readRecord v.
End reader.

(** ** The files a reader reads *)

Definition slice (c : bytes) (o n : Z) : bytes := take (Z.to_nat n) (drop (Z.to_nat o) c).

(** What a read returns, when it returns, is what the file holds; any call may
    fail. *)
Definition truthful (E : files) (bk : list (segment * list bytes)) : Prop :=
  ∀ s ps o n b, (s, ps) ∈ bk → 0 <= o → 0 <= n → o + n <= len (frames ps) →
    readAt E (path s) o n = Ok b → b = slice (frames ps) o n.

(** No call fails. *)
Definition sound_disk (E : files) (bk : list (segment * list bytes)) : Prop :=
  ∀ s ps, (s, ps) ∈ bk → openFile E (path s) = Ok tt ∧
    ∀ o n, 0 <= o → 0 <= n → o + n <= len (frames ps) →
      readAt E (path s) o n = Ok (slice (frames ps) o n).

(** An error that opening or reading a segment's file answered, within what the
    segment holds. *)
Definition refused (E : files) (bk : list (segment * list bytes)) (err : error) : Prop :=
  ∃ s ps, (s, ps) ∈ bk ∧
    ((∃ err0, openFile E (path s) = Fail err0 ∧ err = if errorsIs err0 NotExist then Sentinel Truncated else err0) ∨
     (∃ o n, 0 <= o ∧ 0 <= n ∧ o + n <= len (frames ps) ∧ readAt E (path s) o n = Fail err)).

Lemma sound_never_refuses E bk err : sound_disk E bk → ¬ refused E bk err.
Proof.
  intros Hd (s & ps & Hin & H). destruct (Hd s ps Hin) as [Ho Hr].
  destruct H as [(e0 & He & _)|(o & n & H1 & H2 & H3 & He)]; [by rewrite Ho in He|by rewrite Hr in He].
Qed.

(** A result that fails only with such an error. *)
Definition faithful {A} (E : files) (bk : list (segment * list bytes)) (res : result A) : Prop :=
  ∀ err, res = Fail err → refused E bk err.

Lemma faithful_fail {A B} E bk e : faithful E bk (Fail e : result A) → faithful E bk (Fail e : result B).
Proof. intros H err [= <-]. by apply H. Qed.

Lemma sound_succeeds {A} E bk (res : result A) : sound_disk E bk → faithful E bk res → is_ok res = true.
Proof. intros Hd Hf. destruct res as [a|e]; [done|]. by destruct (sound_never_refuses E bk e Hd (Hf e eq_refl)). Qed.

Record shelf (bk : list (segment * list bytes)) (max : Z) : Prop := {
  sh_max : 0 <= max < 4294967296 - 8;
  sh_rep : ∀ s ps, (s, ps) ∈ bk →
    Forall (payload_ok max) ps ∧ 1 <= baseLSN s ∧ baseLSN s + len ps <= maxU64 ∧ prevEnd s < baseLSN s ∧
    lastLSN s = baseLSN s + len ps - 1;
  sh_inj : ∀ s ps s' ps', (s, ps) ∈ bk → (s', ps') ∈ bk → path s = path s' → s = s' ∧ ps = ps';
  sh_linked : linked bk.*1;
  sh_name : ∀ s ps, (s, ps) ∈ bk →
    path s = segmentName (baseLSN s) (prevEnd s) ∧ is_u64 (baseLSN s) ∧ is_u64 (prevEnd s)
}.

(** ** Windows *)

Lemma slice_slice c o n o' n' : 0 <= o → 0 <= n' → o <= o' → o' + n' <= o + n →
  slice (slice c o n) (o' - o) n' = slice c o' n'.
Proof.
  intros Ho Hn' Hle Hfit. unfold slice. rewrite skipn_firstn_comm, take_take, drop_drop.
  f_equal; [lia|]. f_equal. lia.
Qed.

Lemma len_slice c o n : 0 <= o → 0 <= n → o + n <= len c → len (slice c o n) = n.
Proof. intros. unfold slice, len in *. rewrite length_take, length_drop. lia. Qed.

(** The cached window is part of the file [c]. *)
Definition window_ok (c : bytes) (r : reader) : Prop :=
  (win r = [] ∧ winOff r = -1) ∨
  (0 <= winOff r ∧ winOff r + len (win r) <= len c ∧ win r = slice c (winOff r) (len (win r))).

(** The bytes of a file only grow at its end. *)
Lemma window_grows c c' r : c `prefix_of` c' → window_ok c r → window_ok c' r.
Proof.
  intros [k ->] [H|(H1 & H2 & H3)]; [by left|right]. rewrite len_app. pose proof (len_nonneg k).
  split; [done|]. split; [lia|]. rewrite H3 at 1. unfold slice, len in *.
  rewrite drop_app_le by lia. rewrite take_app_le; [done|]. rewrite length_drop. lia.
Qed.

(** The open file is a segment's that is no newer than the newest there is. *)
Definition of_log (bk : list (segment * list bytes)) (p : bytes) : Prop :=
  ∃ b e s ps, p = segmentName b e ∧ is_u64 b ∧ is_u64 e ∧ (s, ps) ∈ bk ∧ b <= baseLSN s.

(** The cursor is where [posLSN] says it is. *)
Definition cursor_ok (bk : list (segment * list bytes)) (r : reader) : Prop :=
  isOpen r = true → of_log bk (rpath r) ∧ ∀ s ps, (s, ps) ∈ bk → rpath r = path s →
    baseLSN s <= posLSN r <= baseLSN s + len ps ∧
    off r = len (frames (take (Z.to_nat (posLSN r - baseLSN s)) ps)) ∧
    window_ok (frames ps) r.

(** A snapshot's segment is one of the log's, perhaps shorter then, or all of
    it is behind the cursor. *)
Definition seen (bk : list (segment * list bytes)) (next : Z) (v : segView) : Prop :=
  (∃ s ps k, (s, ps) ∈ bk ∧ v_path v = path s ∧ v_baseLSN v = baseLSN s ∧ v_prevEnd v = prevEnd s ∧
     v_count v = len (take k ps) ∧ v_size v = len (frames (take k ps))) ∨
  (0 <= v_baseLSN v ∧ 0 <= v_count v ∧ v_baseLSN v + v_count v <= next ∧ v_baseLSN v + v_count v <= maxU64).

Record reader_inv (bk : list (segment * list bytes)) (r : reader) : Prop := {
  ri_views : Forall (seen bk (nextLSN r)) (views r);
  ri_cursor : cursor_ok bk r
}.

Section reading.
Context {bk : list (segment * list bytes)} {max : Z} {E : files}.
Context (Sh : shelf bk max) (T : truthful E bk).

Definition same_but_win (r r' : reader) : Prop := ∃ b o, r' = set_win b o r.

Lemma at_spec s ps r o n limit res r' :
  (s, ps) ∈ bk → rpath r = path s → window_ok (frames ps) r →
  0 <= o → 0 <= n → o + n <= limit → limit <= len (frames ps) →
  at_ E o n limit r = (res, r') →
  same_but_win r r' ∧ window_ok (frames ps) r' ∧ (∀ b, res = Ok b → b = slice (frames ps) o n) ∧
  faithful E bk res.
Proof using T.
  intros Hin Hp Hw Ho Hn Hlim Hlen H. unfold at_, bind, get in H.
  assert (Hgot : ∀ r0, same_but_win r r0 → window_ok (frames ps) r0 →
    (o <? winOff r0) || (winOff r0 + len (win r0) <? o + n) = false →
    (ret (take (Z.to_nat n) (drop (Z.to_nat (o - winOff r0)) (win r0))) r0 : result bytes * reader) = (res, r') →
    same_but_win r r' ∧ window_ok (frames ps) r' ∧ (∀ b, res = Ok b → b = slice (frames ps) o n) ∧
    faithful E bk res).
  { intros r0 Hs Hw0 Hin0 [= <- <-]. split; [done|]. split; [done|]. split; [|done].
    intros b [= <-]. bools. destruct Hw0 as [[Hnil Ho0]|(W1 & W2 & W3)].
    - rewrite Hnil, len_nil in *. lia.
    - rewrite W3. apply slice_slice; lia. }
  destruct ((o <? winOff r) || (winOff r + len (win r) <? o + n)) eqn:Ec.
  - unfold fill in H. set (sz := if limit <? o + Z.max readWindow n then limit - o else Z.max readWindow n) in H.
    assert (Hsz : n <= sz ∧ o + sz <= limit).
    { unfold sz. destruct (Z.ltb_spec limit (o + Z.max readWindow n)); lia. }
    destruct (Z.ltb_spec sz n) as [|_]; [lia|]. rewrite Hp in H.
    destruct (readAt E (path s) o sz) as [b|e] eqn:Er.
    + assert (Hb : b = slice (frames ps) o sz) by (apply (T s ps); try done; lia).
      apply (Hgot (set_win b o r)); [by exists b, o | | | done].
      * right. simpl. rewrite Hb, len_slice by lia. split; [done|]. split; [lia | done].
      * simpl. rewrite Hb, len_slice by lia. apply orb_false_iff. lia.
    + injection H as <- <-. split; [by exists [], (-1)|]. split; [by left|]. split; [done|].
      intros err [= <-]. exists s, ps. split; [done|]. right. exists o, sz. split_and!; [lia..|done].
  - apply (Hgot r); try done. exists (win r), (winOff r). by destruct r.
Qed.

(** The frame of record [i] is where the records before it end. *)
Lemma slice_frame ps i p : ps !! i = Some p →
  let o := len (frames (take i ps)) in
  slice (frames ps) o headerSize = take 8 (frame p) ∧
  slice (frames ps) o (len (frame p)) = frame p ∧
  len (frames (take (S i) ps)) = o + len (frame p) ∧ o + len (frame p) <= len (frames ps).
Proof using.
  intros Hi o. assert (Hlt : (i < length ps)%nat) by (by eapply lookup_lt_Some).
  assert (Ed : drop (Z.to_nat o) (frames ps) = frame p ++ frames (drop (S i) ps)).
  { rewrite <- (take_drop i ps) at 1. rewrite frames_app. unfold o, len. rewrite Nat2Z.id, drop_app_length.
    by rewrite (drop_S _ _ _ Hi), frames_cons. }
  assert (H8 : (8 <= length (frame p))%nat).
  { pose proof (len_frame p). unfold len, recordSize, headerSize in *. lia. }
  split; [|split; [|split]].
  - unfold slice. rewrite Ed, take_app_le; [done|]. unfold headerSize. lia.
  - unfold slice. rewrite Ed. unfold len. by rewrite Nat2Z.id, take_app_length.
  - rewrite (take_S_r _ _ _ Hi), frames_app, len_app, frames_cons, frames_nil, app_nil_r. done.
  - apply (f_equal len) in Ed. rewrite len_app in Ed. pose proof (len_nonneg (frames (drop (S i) ps))).
    unfold len in Ed at 1. rewrite length_drop in Ed. unfold len in *. lia.
Qed.

Lemma frames_take_le (ps : list bytes) i j : (i <= j)%nat →
  len (frames (take i ps)) <= len (frames (take j ps)).
Proof using.
  intros Hij. replace j with (i + (j - i))%nat by lia. rewrite <- take_take_drop, frames_app, len_app.
  pose proof (len_nonneg (frames (take (j - i) (drop i ps)))). lia.
Qed.

Lemma frames_take_all (ps : list bytes) m : len (frames (take m ps)) <= len (frames ps).
Proof using.
  rewrite <- (take_drop m ps) at 2. rewrite frames_app, len_app.
  pose proof (len_nonneg (frames (drop m ps))). lia.
Qed.

Lemma same_win_trans r1 r2 r3 : same_but_win r1 r2 → same_but_win r2 r3 → same_but_win r1 r3.
Proof using. intros (b & o & ->) (b' & o' & ->). by exists b', o'. Qed.

Lemma record_fits s ps i p : (s, ps) ∈ bk → ps !! i = Some p → payload_ok max p ∧ fits32 p.
Proof using Sh.
  intros Hin Hi. destruct (sh_rep _ _ Sh s ps Hin) as (Hok & _).
  assert (Hp : payload_ok max p) by (by eapply Forall_lookup_1).
  split; [done|]. by apply (payload_fits max (sh_max _ _ Sh)).
Qed.

(** Walking headers lands on the record counted to. *)
Lemma skipTo_spec s ps v m : (s, ps) ∈ bk → v_size v = len (frames (take m ps)) → ∀ k i r res r',
  rpath r = path s → window_ok (frames ps) r → (i + k <= m)%nat → (i + k <= length ps)%nat →
  skipTo E v k (len (frames (take i ps))) r = (res, r') →
  same_but_win r r' ∧ window_ok (frames ps) r' ∧
  (∀ o, res = Ok o → o = len (frames (take (i + k) ps))) ∧ faithful E bk res.
Proof using Sh T.
  intros Hin Hv k. induction k as [|k IH]; intros i r res r' Hp Hw Hm Hl H.
  - injection H as <- <-. split; [exists (win r), (winOff r); by destruct r|]. split; [done|].
    split; [|done]. intros o [= <-]. by rewrite Nat.add_0_r.
  - assert (Hi : is_Some (ps !! i)) by (apply lookup_lt_is_Some; lia). destruct Hi as [p Hi].
    destruct (record_fits s ps i p Hin Hi) as [_ Hf].
    destruct (slice_frame ps i p Hi) as (Hhdr & _ & Hnext & Hle).
    pose proof (frames_take_le ps (S i) m ltac:(lia)) as Hmono.
    pose proof (len_frame p) as Hlf. unfold recordSize in Hlf. pose proof (len_nonneg p).
    cbn [skipTo] in H. apply bind_inv in H as [(hdr & r1 & H1 & H)|(e & H & ->)].
    + pose proof (len_nonneg (frames (take i ps))).
      pose proof (frames_take_all ps m) as Hlim. rewrite <- Hv in Hlim.
      apply (at_spec s ps) in H1 as (Hs1 & Hw1 & Hb & _); try done; [|unfold headerSize in *; lia..].
      rewrite (Hb hdr eq_refl), Hhdr, (proj1 (decode_frame p Hf)) in H. cbv beta iota in H.
      assert (Hp1 : rpath r1 = path s) by (by destruct Hs1 as (? & ? & ->)).
      replace (len (frames (take i ps)) + recordSize (len p)) with (len (frames (take (S i) ps))) in H
        by (unfold recordSize in *; lia).
      destruct (IH (S i) r1 res r' Hp1 Hw1 ltac:(lia) ltac:(lia) H) as (Hs2 & Hw2 & Ho & Hd).
      split; [by eapply same_win_trans|]. split; [done|]. split; [|done].
      intros o Eo. rewrite (Ho o Eo). do 3 f_equal. lia.
    + pose proof (len_nonneg (frames (take i ps))).
      pose proof (frames_take_all ps m) as Hlim. rewrite <- Hv in Hlim.
      apply (at_spec s ps) in H as (Hs1 & Hw1 & _ & Hd); try done; try (unfold headerSize in *; lia).
      split; [done|]. split; [done|]. split; [done|]. by eapply faithful_fail.
Qed.

(** *** Opening *)

(** The view [v] of the segment [s] when it held its first [k] records. *)
Definition view_of (v : segView) (s : segment) (ps : list bytes) (k : nat) : Prop :=
  (s, ps) ∈ bk ∧ v_path v = path s ∧ v_baseLSN v = baseLSN s ∧ v_prevEnd v = prevEnd s ∧
  v_count v = len (take k ps) ∧ v_size v = len (frames (take k ps)).

(** The cursor is at the record [nextLSN] of the view it points to. *)
Definition located (r : reader) : Prop := ∃ v s ps k,
  views r !! idx r = Some v ∧ view_of v s ps k ∧
  baseLSN s <= nextLSN r < baseLSN s + v_count v ∧
  isOpen r = true ∧ rpath r = path s ∧ posLSN r = nextLSN r.

(** What moving the cursor leaves alone. *)
Definition same_place (r r' : reader) : Prop :=
  views r' = views r ∧ durable r' = durable r ∧ nextLSN r' = nextLSN r.

Lemma openAt_spec i v s ps k r res r' :
  views r !! i = Some v → view_of v s ps k → baseLSN s <= nextLSN r < baseLSN s + v_count v →
  cursor_ok bk r → openAt E i r = (res, r') →
  same_place r r' ∧ cursor_ok bk r' ∧ (res = Ok tt → located r') ∧ faithful E bk res.
Proof using Sh T.
  intros Hv Hvo Hr Hc H. pose proof Hvo as (Hin & Hp & Hb & _ & Hk & Hsz).
  unfold openAt, bind, get, modify in H. rewrite Hv in H.
  destruct (isOpen r && bool_decide (rpath r = v_path v) && (posLSN r =? nextLSN r)) eqn:Ec.
  { injection H as <- <-. bools. apply bool_decide_eq_true in H1.
    split; [done|]. split; [exact Hc|]. split; [|done]. intros _. exists v, s, ps, k.
    simpl. rewrite <- Hp. auto 10. }
  destruct (openFile E (v_path v)) as [u|err] eqn:Eo.
  - match type of H with match on_error ?m ?c ?r1 with _ => _ end = _ =>
      destruct (on_error m c r1) as [ro r2] eqn:Es; set (r0 := r1) in * end.
    change (nextLSN r0) with (nextLSN r) in Es.
    assert (Hlen : (Z.to_nat (nextLSN r - v_baseLSN v) <= k)%nat ∧
                   (Z.to_nat (nextLSN r - v_baseLSN v) <= length ps)%nat).
    { rewrite Hk in Hr. unfold len in Hr. rewrite length_take in Hr. lia. }
    assert (Hskip : ∀ res2 r3, skipTo E v (Z.to_nat (nextLSN r - v_baseLSN v)) 0 r0 = (res2, r3) →
      same_but_win r0 r3 ∧ window_ok (frames ps) r3 ∧
      (∀ o, res2 = Ok o → o = len (frames (take (Z.to_nat (nextLSN r - v_baseLSN v)) ps))) ∧
      faithful E bk res2).
    { intros res2 r3 Hs. apply (skipTo_spec s ps v k Hin Hsz (Z.to_nat (nextLSN r - v_baseLSN v)) 0 r0 res2 r3); [exact Hp | by left | lia | lia | exact Hs]. }
    apply on_error_inv in Es as [(o & Es & ->)|(e & r3 & rc & Es & Hcl & ->)].
    + destruct (Hskip _ _ Es) as ((wb & wo & Hsame) & Hw & Ho & _). injection H as <- <-.
      rewrite Hsame in Hw |- *. split; [done|]. split.
      * intros _. split.
        { destruct (sh_name _ _ Sh s ps Hin) as (Hn & H1 & H2). exists (baseLSN s), (prevEnd s), s, ps.
          simpl. rewrite Hp. split_and!; [done..|lia]. }
        intros s' ps' Hin' Hp'. simpl in *. rewrite Hp in Hp'.
        destruct (sh_inj _ _ Sh _ _ _ _ Hin Hin' Hp') as [<- <-].
        split; [|split; [by rewrite (Ho o eq_refl), Hb | done]].
        rewrite Hk in Hr. unfold len in *. rewrite length_take in Hr. lia.
      * split; [|done]. intros _. exists v, s, ps, k. simpl. auto 10.
    + destruct (Hskip _ _ Es) as ((wb & wo & Hsame) & _ & _ & Hd). injection Hcl as <- <-.
      injection H as <- <-. rewrite Hsame. split; [done|]. split; [by intros [=]|].
      split; [done|]. by eapply faithful_fail.
  - injection H as <- <-. split; [done|]. split; [by intros [=]|]. split; [done|].
    intros e [= <-]. exists s, ps. split; [done|]. left. exists err. by rewrite <- Hp.
Qed.

(** *** Finding *)

Lemma find_from_spec lsn vs i : match find_from i lsn vs with
  | Some j => ∃ v, (i <= j)%nat ∧ vs !! (j - i)%nat = Some v ∧ v_baseLSN v <= lsn < v_baseLSN v +u v_count v
  | None => ∀ v, v ∈ vs → ¬ (v_baseLSN v <= lsn < v_baseLSN v +u v_count v)
  end.
Proof using.
  revert i. induction vs as [|v vs IH]; intros i; simpl; [by intros v Hv%not_elem_of_nil|].
  destruct ((v_baseLSN v <=? lsn) && (lsn <? v_baseLSN v +u v_count v)) eqn:Ec.
  - bools. exists v. rewrite Nat.sub_diag. split; [lia|]. split; [done | lia].
  - specialize (IH (S i)). destruct (find_from (S i) lsn vs) as [j|].
    + destruct IH as (v' & Hle & Hj & Hv'). exists v'. split; [lia|]. split; [|done].
      replace (j - i)%nat with (S (j - S i)) by lia. done.
    + intros v' [->|Hv']%elem_of_cons; [|by apply IH]. bools. lia.
Qed.

Lemma gap_from_spec lsn vs i : match gap_from i lsn vs with
  | Some (j, v) => (i <= j)%nat ∧ vs !! (j - i)%nat = Some v ∧ gapBefore v lsn = true ∧ 0 < v_count v
  | None => ∀ v, v ∈ vs → ¬ (gapBefore v lsn = true ∧ 0 < v_count v)
  end.
Proof using.
  revert i. induction vs as [|v vs IH]; intros i; simpl; [by intros v Hv%not_elem_of_nil|].
  destruct (gapBefore v lsn && (0 <? v_count v)) eqn:Ec.
  - apply andb_true_iff in Ec as [Hg Hc]. bools. rewrite Nat.sub_diag. auto.
  - specialize (IH (S i)). destruct (gap_from (S i) lsn vs) as [[j v']|].
    + destruct IH as (Hle & Hj & Hv'). split; [lia|]. split; [|done].
      replace (j - i)%nat with (S (j - S i)) by lia. done.
    + intros v' [->|Hv']%elem_of_cons; [|by apply IH]. intros [Hg Hc].
      rewrite Hg in Ec. simpl in Ec. bools. lia.
Qed.

(** Everything in the segments before [s] is at or below its link. *)
Lemma before_link s ps s' ps' :
  (s, ps) ∈ bk → (s', ps') ∈ bk → baseLSN s' < baseLSN s → baseLSN s' + len ps' - 1 <= prevEnd s.
Proof using Sh.
  pose proof (sh_linked _ _ Sh) as Hl. pose proof (sh_rep _ _ Sh) as Hrep. clear Sh T.
  revert s ps s' ps'.
  induction bk as [|[x xs] bk' IH]; intros s ps s' ps' Hs Hs' Hlt; [by apply not_elem_of_nil in Hs|].
  assert (Hl' : linked bk'.*1) by (by eapply linked_tail).
  assert (Hrep' := λ s ps H, Hrep s ps (list_elem_of_further (s, ps) (x, xs) bk' H)).
  specialize (IH Hl' Hrep').
  assert (Hhead : ∀ y ys, (y, ys) ∈ bk' → baseLSN x < baseLSN y).
  { intros y ys Hy. apply (linked_head_lt x bk'.*1); [done|].
    apply list_elem_of_fmap. by exists (y, ys). }
  apply elem_of_cons in Hs as [[= -> ->]|Hs], Hs' as [[= -> ->]|Hs'].
  - lia.
  - specialize (Hhead _ _ Hs'). lia.
  - destruct (Hrep x xs ltac:(left)) as (_ & _ & _ & _ & Hlx). rewrite <- Hlx.
    destruct bk' as [|[y ys] bk'']; [by apply not_elem_of_nil in Hs|].
    destruct Hl as (Hp & _). simpl in Hp. rewrite <- Hp.
    apply elem_of_cons in Hs as [[= -> ->]|Hs]; [lia|].
    destruct (Hrep' y ys ltac:(left)) as (_ & _ & _ & Hpy & _). pose proof (len_nonneg ys).
    assert (baseLSN y + len ys - 1 <= prevEnd s); [|lia].
    apply (IH s ps y ys); [by right | left |].
    eapply linked_head_lt; [exact Hl'|]. apply list_elem_of_fmap. by exists (s, ps).
  - by apply (IH s ps s' ps').
Qed.

(** *** Positioning *)

(** A snapshot of the log shows every segment, whole. *)
Definition shows_all (vs : list segView) : Prop :=
  (∀ v, v ∈ vs → ∃ s ps, view_of v s ps (length ps)) ∧
  (∀ s ps, (s, ps) ∈ bk → ∃ v, v ∈ vs ∧ view_of v s ps (length ps)).

(** No record has a number from [a] up to [b]. *)
Definition vacant (a b : Z) : Prop :=
  ∀ s ps e, (s, ps) ∈ bk → e ∈ entries (baseLSN s) ps → ¬ (a <= e.1 < b).

Context {l : log} (Hsnap : shows_all (snapshot l).1).

Lemma view_range v s ps k : view_of v s ps k →
  v_baseLSN v +u v_count v = baseLSN s + v_count v ∧ 0 <= v_count v <= len ps.
Proof using Sh.
  intros (Hin & _ & Hb & _ & Hc & _). destruct (sh_rep _ _ Sh s ps Hin) as (_ & H1 & H2 & _).
  assert (0 <= v_count v <= len ps).
  { rewrite Hc. unfold len. rewrite length_take. lia. }
  split; [|done]. rewrite Hb. unfold maxU64 in *. ulia.
Qed.

Lemma seen_all next : Forall (seen bk next) (snapshot l).1.
Proof using Hsnap.
  apply Forall_forall. intros v Hv. left. destruct (proj1 Hsnap v Hv) as (s & ps & H). by exists s, ps, (length ps).
Qed.

Lemma seen_mono next next' v : next <= next' → seen bk next v → seen bk next' v.
Proof using. intros Hle [H|(H1 & H2 & H3 & H4)]; [by left|right]. split; [done|]. split; [done|]. split; [lia | done]. Qed.

(** A view found for [nextLSN] is of a segment of the log. *)
Lemma found r i : reader_inv bk r → find (nextLSN r) (views r) = Some i →
  ∃ v s ps k, views r !! i = Some v ∧ view_of v s ps k ∧ baseLSN s <= nextLSN r < baseLSN s + v_count v.
Proof using Sh.
  intros [Hvs _] Hf. unfold find in Hf. pose proof (find_from_spec (nextLSN r) (views r) 0) as H.
  rewrite Hf in H. destruct H as (v & _ & Hv & Hr). rewrite Nat.sub_0_r in Hv.
  pose proof (Forall_lookup_1 _ _ _ _ Hvs Hv) as [(s & ps & k & Hvo)|(H0 & Hgone & Hmax)].
  - destruct (view_range v s ps k Hvo) as [Hu _]. pose proof Hvo as (_ & _ & Hb & _).
    exists v, s, ps, k. split; [done|]. split; [done|]. lia.
  - exfalso. unfold maxU64 in *. revert Hr. unwrap_u64. lia.
Qed.

Lemma not_found r : find (nextLSN r) (views r) = None →
  ∀ v, v ∈ views r → ¬ (v_baseLSN v <= nextLSN r < v_baseLSN v +u v_count v).
Proof using.
  intros Hf. pose proof (find_from_spec (nextLSN r) (views r) 0) as H. unfold find in Hf. by rewrite Hf in H.
Qed.

(** The numbers skipped are in front of the next segment with records. *)
Lemma gap_vacant v s ps a : view_of v s ps (length ps) → gapBefore v a = true → vacant a (baseLSN s).
Proof using Sh.
  intros (Hin & _ & Hb & Hpe & _) Hg s' ps' e Hin' He [H1 H2]. unfold gapBefore in Hg. bools.
  apply entries_lsn in He.
  destruct (decide (baseLSN s' < baseLSN s)) as [Hlt|Hge]; [|lia].
  pose proof (before_link s ps s' ps' Hin Hin' Hlt). lia.
Qed.

(** The cursor stays or lands at the start of a segment. *)
Definition landed (a b : Z) : Prop := b = a ∨ ∃ s ps, (s, ps) ∈ bk ∧ b = baseLSN s.

Definition position_ok (r r' : reader) (res : result unit) : Prop :=
  reader_inv bk r' ∧ nextLSN r <= nextLSN r' ∧ vacant (nextLSN r) (nextLSN r') ∧
  landed (nextLSN r) (nextLSN r') ∧ (res = Ok tt → located r').

Lemma vacant_refl a : vacant a a.
Proof using. intros s ps e _ _. lia. Qed.

Lemma openAt_position r r0 i v s ps k res r' :
  reader_inv bk r0 → nextLSN r <= nextLSN r0 → vacant (nextLSN r) (nextLSN r0) →
  landed (nextLSN r) (nextLSN r0) → views r0 !! i = Some v → view_of v s ps k → baseLSN s <= nextLSN r0 < baseLSN s + v_count v →
  openAt E i r0 = (res, r') → position_ok r r' res.
Proof using Sh T.
  intros [Hvs Hc] Hle Hva Hla Hv Hvo Hr H.
  destruct (openAt_spec _ _ _ _ _ _ _ _ Hv Hvo Hr Hc H) as ((E1 & E2 & E3) & Hc' & Hloc & _).
  split; [split; [by rewrite E1, E3 | done]|]. rewrite E3. done.
Qed.

Lemma refresh_inv r : reader_inv bk r → reader_inv bk (set_snapshot (snapshot l) r).
Proof using Hsnap. intros [_ Hc]. split; [apply seen_all | exact Hc]. Qed.

Lemma position_spec r res r' :
  reader_inv bk r → position E l r = (res, r') → position_ok r r' res.
Proof using Sh T Hsnap.
  intros Hi H. unfold position, bind at 1, get at 1 in H. simpl in H.
  destruct (find (nextLSN r) (views r)) as [i|] eqn:Ef.
  { destruct (found r i Hi Ef) as (v & s & ps & k & Hv & Hvo & Hr).
    eapply (openAt_position r r); eauto using vacant_refl; [lia | by left]. }
  unfold refresh, bind at 1, modify at 1, bind at 1, get at 1 in H.
  pose proof (refresh_inv r Hi) as Hi'. set (r0 := set_snapshot (snapshot l) r) in *.
  assert (Hn0 : nextLSN r0 = nextLSN r) by done.
  destruct (find (nextLSN r0) (views r0)) as [i|] eqn:Ef2.
  { destruct (found r0 i Hi' Ef2) as (v & s & ps & k & Hv & Hvo & Hr).
    eapply (openAt_position r r0); eauto using vacant_refl; [lia | by left]. }
  pose proof (gap_from_spec (nextLSN r0) (views r0) 0) as Hg.
  destruct (gap_from 0 (nextLSN r0) (views r0)) as [[i v]|].
  - destruct Hg as (_ & Hv & Hgap & Hpos). rewrite Nat.sub_0_r in Hv.
    unfold bind, modify in H.
    assert (Hvin : v ∈ (snapshot l).1) by (by eapply list_elem_of_lookup_2).
    destruct (proj1 Hsnap v Hvin) as (s & ps & Hvo). pose proof Hvo as (_ & _ & Hb & _).
    pose proof (gap_vacant _ _ _ _ Hvo Hgap) as Hva.
    assert (Hlt : nextLSN r < baseLSN s) by (unfold gapBefore in Hgap; bools; lia).
    eapply (openAt_position r (set_nextLSN (v_baseLSN v) r0)); simpl; rewrite ?Hb; try done; try lia.
    + destruct Hi' as [Hvs Hc]. split; [|exact Hc]. simpl.
      eapply Forall_impl; [exact Hvs|]. intros v'. apply seen_mono. lia.
    + right. exists s, ps. by destruct Hvo as (? & _).
    + by rewrite <- Hb.
  - assert (Hfail : ∃ e, res = Fail e ∧ r' = r0).
    { destruct (views r0) as [|v vs]; [injection H as <- <-; eauto|].
      destruct (nextLSN r0 <? v_baseLSN v); injection H as <- <-; eauto. }
    destruct Hfail as (e & -> & ->). split; [done|]. rewrite Hn0. split; [lia|].
    split; [apply vacant_refl|]. split; [by left | done].
Qed.

(** *** Reading the record under the cursor *)

(** A read that moves nothing but the window keeps the invariant. *)
Lemma window_kept s ps r r1 :
  reader_inv bk r → (s, ps) ∈ bk → rpath r = path s → same_but_win r r1 → window_ok (frames ps) r1 →
  reader_inv bk r1 ∧ nextLSN r1 = nextLSN r.
Proof using Sh.
  intros [Hvs Hc] Hin Hp (b & o & ->) Hw1. split; [|done]. split; [done|]. intros Hop.
  destruct (Hc Hop) as [Hof Hat]. split; [done|]. intros s' ps' Hin' Hp'. simpl in *.
  rewrite Hp in Hp'. destruct (sh_inj _ _ Sh _ _ _ _ Hin Hin' Hp') as [<- <-].
  by destruct (Hat s ps Hin Hp) as (? & ? & _).
Qed.

(** [at_] on a reader that has only moved its window since. *)
Lemma at_within s ps r r0 o n limit res r1 :
  (s, ps) ∈ bk → rpath r = path s → same_but_win r r0 → window_ok (frames ps) r0 →
  0 <= o → 0 <= n → o + n <= limit → limit <= len (frames ps) →
  at_ E o n limit r0 = (res, r1) →
  same_but_win r r1 ∧ window_ok (frames ps) r1 ∧ (∀ b, res = Ok b → b = slice (frames ps) o n) ∧
  faithful E bk res.
Proof using Sh T.
  intros Hin Hp Hs0 Hw0 Ho Hn Hl Hlim Ea.
  assert (Hp0 : rpath r0 = path s) by (by destruct Hs0 as (? & ? & ->)).
  destruct (at_spec s ps r0 o n limit res r1 Hin Hp0 Hw0) as (A & B & Cc & D); try done; try lia.
  split; [by eapply same_win_trans | done].
Qed.

Lemma readRecord_spec r v res r' :
  reader_inv bk r → located r → views r !! idx r = Some v →
  readRecord E max v r = (res, r') →
  reader_inv bk r' ∧
  match res with
  | Ok (lsn, payload) => lsn = nextLSN r ∧ nextLSN r' = lsn + 1 ∧
      ∃ s ps, (s, ps) ∈ bk ∧ (lsn, payload) ∈ entries (baseLSN s) ps
  | Fail e => nextLSN r' = nextLSN r
  end ∧ faithful E bk res.
Proof using Sh T.
  intros [Hvs Hc] (v0 & s & ps & k & Hv0 & Hvo & Hr & Hop & Hp & Hpos) Hv H.
  rewrite Hv in Hv0. injection Hv0 as <-. pose proof Hvo as (Hin & Hvp & Hb & _ & Hk & Hsz).
  destruct (Hc Hop) as [Hof Hcur]. destruct (Hcur s ps Hin Hp) as (Hrange & Hoff & Hw). rewrite Hpos in *.
  set (i := Z.to_nat (nextLSN r - baseLSN s)) in *.
  assert (Hik : (i < k)%nat ∧ (i < length ps)%nat).
  { rewrite Hk in Hr. unfold len in Hr. rewrite length_take in Hr. lia. }
  destruct Hik as [Hik Hil]. destruct (lookup_lt_is_Some_2 ps i Hil) as [p Hi].
  destruct (record_fits s ps i p Hin Hi) as [Hok Hf].
  destruct (slice_frame ps i p Hi) as (Hhdr & Hfr & Hnext & Hle).
  pose proof (frames_take_le ps (S i) k ltac:(lia)) as Hmono. pose proof (frames_take_all ps k) as Hlim.
  pose proof (len_frame p) as Hlf. unfold recordSize in Hlf. pose proof (len_nonneg p) as Hlp.
  rewrite <- Hsz in Hmono, Hlim. rewrite <- Hoff in *.
  assert (Ho : 0 <= off r) by (rewrite Hoff; apply len_nonneg).
  assert (Hkeep : ∀ r1, same_but_win r r1 → window_ok (frames ps) r1 → reader_inv bk r1 ∧ nextLSN r1 = nextLSN r)
    by (intros r1 Hs1 Hw1; by apply (window_kept s ps r r1)).
  assert (Hat : ∀ n r0 res0 r1, same_but_win r r0 → window_ok (frames ps) r0 → 0 <= n <= len (frame p) →
    at_ E (off r) n (v_size v) r0 = (res0, r1) →
    same_but_win r r1 ∧ window_ok (frames ps) r1 ∧ (∀ b, res0 = Ok b → b = slice (frames ps) (off r) n) ∧
    faithful E bk res0).
  { intros n r0 res0 r1 Hs0 Hw0 Hn. apply (at_within s ps); try done; lia. }
  assert (Hself : same_but_win r r) by (exists (win r), (winOff r); by destruct r).
  unfold readRecord, bind at 1, get at 1 in H.
  apply bind_inv in H as [(hdr & r1 & H1 & H)|(e & H & ->)].
  2: { destruct (Hat headerSize r _ _ Hself Hw ltac:(unfold headerSize in *; lia) H) as (A & B & _ & D).
       destruct (Hkeep r' A B). split; [done|]. split; [done|]. by eapply faithful_fail. }
  destruct (Hat headerSize r _ _ Hself Hw ltac:(unfold headerSize in *; lia) H1) as (A1 & B1 & C1 & _).
  rewrite (C1 hdr eq_refl), Hhdr, (proj1 (decode_frame p Hf)) in H. cbv beta iota zeta in H.
  rewrite (u32_max max (sh_max _ _ Sh)) in H. unfold payload_ok in Hok.
  replace (max <? len p) with false in H by lia.
  replace (v_size v <? off r + recordSize (len p)) with false in H by (unfold recordSize; lia).
  simpl orb in H. cbv iota in H.
  apply bind_inv in H as [(rec & r2 & H2 & H)|(e & H & ->)].
  2: { destruct (Hat (headerSize + len p) r1 _ _ A1 B1 ltac:(unfold headerSize in *; lia) H) as (A & B & _ & D).
       destruct (Hkeep r' A B). split; [done|]. split; [done|]. by eapply faithful_fail. }
  destruct (Hat (headerSize + len p) r1 _ _ A1 B1 ltac:(unfold headerSize in *; lia) H2) as (A2 & B2 & C2 & _).
  rewrite (C2 rec eq_refl), <- Hlf, Hfr in H.
  change (Z.to_nat headerSize) with 8%nat in H. rewrite (proj2 (decode_frame p Hf)), Z.eqb_refl in H.
  injection H as <- <-. destruct A2 as (b & o & ->).
  destruct (sh_rep _ _ Sh s ps Hin) as (_ & Hb1 & Hbm & _).
  assert (Hu : nextLSN r +u 1 = nextLSN r + 1) by (unfold maxU64, len in *; ulia).
  simpl. rewrite Hu. split.
  - split; simpl.
    + eapply Forall_impl; [exact Hvs|]. intros v'. apply seen_mono. lia.
    + intros _. split; [exact Hof|]. intros s' ps' Hin' Hp'. simpl in *. rewrite Hp in Hp'.
      destruct (sh_inj _ _ Sh _ _ _ _ Hin Hin' Hp') as [<- <-].
      split; [unfold len in *; lia|]. split; [|exact B2].
      replace (Z.to_nat (nextLSN r + 1 - baseLSN s)) with (S i) by (unfold i; lia).
      unfold recordSize. lia.
  - split; [|done]. split; [done|]. split; [done|]. exists s, ps. split; [done|].
    apply elem_of_lookup_imap. exists i, p. split; [|done]. f_equal. unfold i. lia.
Qed.

(** *** One call *)

(** A located cursor has a whole record in front of it. *)
Lemma located_fits r : reader_inv bk r → located r → ∃ v, views r !! idx r = Some v ∧
  (v_size v <? off r + headerSize) = false.
Proof using Sh.
  intros [_ Hc] (v & s & ps & k & Hv & Hvo & Hr & Hop & Hp & Hpos). exists v. split; [done|].
  pose proof Hvo as (Hin & _ & Hb & _ & Hk & Hsz). destruct (proj2 (Hc Hop) s ps Hin Hp) as (_ & Hoff & _).
  rewrite Hpos in Hoff. set (i := Z.to_nat (nextLSN r - baseLSN s)) in *.
  assert (Hik : (i < k)%nat ∧ (i < length ps)%nat).
  { rewrite Hk in Hr. unfold len in Hr. rewrite length_take in Hr. lia. }
  destruct (lookup_lt_is_Some_2 ps i (proj2 Hik)) as [p Hi].
  destruct (slice_frame ps i p Hi) as (_ & _ & Hnext & _).
  pose proof (frames_take_le ps (S i) k ltac:(lia)). pose proof (len_frame p) as Hlf.
  unfold recordSize in Hlf. pose proof (len_nonneg p). lia.
Qed.

Definition next_ok (r r' : reader) (res : result (Z * bytes)) : Prop :=
  reader_inv bk r' ∧
  match res with
  | Ok (lsn, payload) => nextLSN r <= lsn ∧ vacant (nextLSN r) lsn ∧ nextLSN r' = lsn + 1 ∧
      ∃ s ps, (s, ps) ∈ bk ∧ (lsn, payload) ∈ entries (baseLSN s) ps
  | Fail _ => nextLSN r <= nextLSN r' ∧ vacant (nextLSN r) (nextLSN r') ∧ landed (nextLSN r) (nextLSN r')
  end.

(** From the positioning on. *)
Lemma Next_position r r0 res r' :
  reader_inv bk r0 → nextLSN r0 = nextLSN r →
  (position E l ;;;
   v <- currentView ;;
   r <- get ;;
   if v_size v <? off r + headerSize then
     refresh l ;;;
     position E l ;;;
     v <- currentView ;;
     r <- get ;;
     if v_size v <? off r + headerSize then throw (Sentinel NoData) else readRecord E max v
   else readRecord E max v) r0 = (res, r') →
  next_ok r r' res ∧
  ((∃ r1, position E l r0 = (Ok tt, r1)) → faithful E bk res).
Proof using Sh T Hsnap.
  intros Hi Hn H. apply bind_inv in H as [([] & r1 & H1 & H)|(e & H & ->)].
  - destruct (position_spec _ _ _ Hi H1) as (Hi1 & Hle & Hva & Hla & Hloc). specialize (Hloc eq_refl).
    destruct (located_fits r1 Hi1 Hloc) as (v & Hv & Hfit).
    assert (Hcv : currentView r1 = (Ok v, r1)).
    { unfold currentView, bind, get. by rewrite Hv. }
    unfold bind at 1 in H. rewrite Hcv in H. unfold bind at 1, get at 1 in H. rewrite Hfit in H.
    destruct (readRecord_spec _ _ _ _ Hi1 Hloc Hv H) as (Hi' & Hres & Hd).
    rewrite Hn in Hle, Hva, Hla. split; [split; [done|]|by auto]. destruct res as [[lsn p]|e].
    + destruct Hres as (-> & Hn' & Hin). auto 10.
    + rewrite Hres. done.
  - destruct (position_spec _ _ _ Hi H) as (Hi1 & Hle & Hva & Hla & _). rewrite Hn in Hle, Hva, Hla.
    split; [by split|]. intros [r1 Hp]. congruence.
Qed.

Lemma Next_spec r res r' : reader_inv bk r → Next E max l r = (res, r') → next_ok r r' res.
Proof using Sh T Hsnap.
  intros Hi H. unfold Next, bind at 1, get at 1 in H.
  destruct (durable r <? nextLSN r).
  - unfold refresh at 1, bind at 1, modify at 1, bind at 1, get at 1 in H.
    pose proof (refresh_inv r Hi) as Hi0. set (r0 := set_snapshot (snapshot l) r) in *.
    unfold bind at 1 in H. destruct (durable r0 <? nextLSN r0).
    + injection H as <- <-. split; [done|]. split; [simpl; lia|]. split; [apply vacant_refl | by left].
    + by apply (Next_position r) in H as [? _].
  - unfold bind at 1 in H. by apply (Next_position r) in H as [? _].
Qed.

(** *** Nothing is missed *)

(** Only the newest segment may be empty, and the cursor is not below what was
    truncated. *)
Definition filled : Prop := ∀ s s' ps', (s, []) ∈ bk → (s', ps') ∈ bk → baseLSN s' <= baseLSN s.
Definition above_head (next : Z) : Prop :=
  match bk with (s, _) :: _ => prevEnd s < next | [] => True end.

(** In front of a number between the segments there is the gap before the
    first of the segments above it. *)
Lemma gap_exists next s ps :
  (s, ps) ∈ bk → next < baseLSN s → above_head next →
  (∀ s' ps', (s', ps') ∈ bk → ¬ (baseLSN s' <= next < baseLSN s' + len ps')) →
  ∃ s1 ps1, (s1, ps1) ∈ bk ∧ prevEnd s1 < next < baseLSN s1 ∧ baseLSN s1 <= baseLSN s.
Proof using Sh.
  pose proof (sh_linked _ _ Sh) as Hl. pose proof (sh_rep _ _ Sh) as Hrep. clear Sh T Hsnap.
  unfold above_head.
  induction bk as [|[x xs] bk' IH]; intros Hs Hlt Hhd Hno; [by apply not_elem_of_nil in Hs|].
  destruct (decide (next < baseLSN x)) as [Hx|Hx].
  - exists x, xs. split; [left|]. split; [lia|].
    apply elem_of_cons in Hs as [[= -> ->]|Hs]; [lia|].
    assert (baseLSN x < baseLSN s); [|lia].
    eapply linked_head_lt; [exact Hl|]. apply list_elem_of_fmap. by exists (s, ps).
  - apply elem_of_cons in Hs as [[= -> ->]|Hs]; [lia|].
    assert (Hxn := Hno x xs ltac:(left)).
    destruct (Hrep x xs ltac:(left)) as (_ & _ & _ & _ & Hlx).
    destruct IH as (s1 & ps1 & Hin1 & H1); try done.
    + by eapply linked_tail.
    + intros s' ps' Hs'. apply Hrep. by right.
    + destruct bk' as [|[y ys] bk'']; [done|]. destruct Hl as (Hp & _). simpl in Hp. lia.
    + intros s' ps' Hs'. apply Hno. by right.
    + exists s1, ps1. split; [by right | done].
Qed.

Lemma base_inj s ps s' ps' : (s, ps) ∈ bk → (s', ps') ∈ bk → baseLSN s = baseLSN s' → s = s' ∧ ps = ps'.
Proof using Sh.
  intros H H' Hb. assert (s = s') as <-.
  { apply (linked_inj bk.*1); [apply Sh | | | done]; apply list_elem_of_fmap; by eexists (_, _). }
  by apply (sh_inj _ _ Sh).
Qed.

Lemma snapshot_no_hit r v s ps : v ∈ (snapshot l).1 → view_of v s ps (length ps) →
  ¬ (v_baseLSN v <= nextLSN r < v_baseLSN v +u v_count v) → ¬ (baseLSN s <= nextLSN r < baseLSN s + len ps).
Proof using Sh.
  intros Hv Hvo Hno Hr. destruct (view_range _ _ _ _ Hvo) as [Hu _].
  destruct Hvo as (_ & _ & Hb & _ & Hc & _). rewrite firstn_all in Hc. apply Hno. lia.
Qed.

Lemma opening r0 i v s ps k : reader_inv bk r0 → views r0 !! i = Some v → view_of v s ps k →
  baseLSN s <= nextLSN r0 < baseLSN s + v_count v → faithful E bk (openAt E i r0).1.
Proof using Sh T.
  intros [_ Hc] Hv Hvo Hr. destruct (openAt E i r0) as [res r'] eqn:Eo.
  by destruct (openAt_spec _ _ _ _ _ _ _ _ Hv Hvo Hr Hc Eo) as (_ & _ & _ & Hok).
Qed.

(** With a record at or above the cursor, positioning fails only when the disk
    does. *)
Lemma position_complete r s ps e :
  filled → above_head (nextLSN r) → reader_inv bk r →
  (s, ps) ∈ bk → e ∈ entries (baseLSN s) ps → nextLSN r <= e.1 → faithful E bk (position E l r).1.
Proof using Sh T Hsnap.
  intros Hfill Hhd Hi Hin He Hle. pose proof opening as Hopen.
  unfold position, bind at 1, get at 1. simpl.
  destruct (find (nextLSN r) (views r)) as [i|] eqn:Ef.
  { destruct (found r i Hi Ef) as (v & s0 & ps0 & k & Hv & Hvo & Hr). by eapply Hopen. }
  unfold refresh, bind at 1, modify at 1, bind at 1, get at 1.
  pose proof (refresh_inv r Hi) as Hi'. set (r0 := set_snapshot (snapshot l) r) in *.
  destruct (find (nextLSN r0) (views r0)) as [i|] eqn:Ef2.
  { destruct (found r0 i Hi' Ef2) as (v & s0 & ps0 & k & Hv & Hvo & Hr). by eapply Hopen. }
  pose proof (not_found r0 Ef2) as Hno. pose proof (gap_from_spec (nextLSN r0) (views r0) 0) as Hg.
  assert (Hmiss : ∀ s' ps', (s', ps') ∈ bk → ¬ (baseLSN s' <= nextLSN r < baseLSN s' + len ps')).
  { intros s' ps' Hin'. destruct (proj2 Hsnap s' ps' Hin') as (v & Hv & Hvo).
    apply (snapshot_no_hit r v); try done. by apply Hno. }
  apply entries_lsn in He.
  assert (Hlt : nextLSN r < baseLSN s) by (specialize (Hmiss s ps Hin); lia).
  destruct (gap_exists _ _ _ Hin Hlt Hhd Hmiss) as (s1 & ps1 & Hin1 & Hg1 & Hle1).
  destruct (proj2 Hsnap s1 ps1 Hin1) as (v1 & Hv1 & Hvo1).
  assert (Hne : 0 < v_count v1).
  { pose proof Hvo1 as (_ & _ & _ & _ & Hc & _). rewrite Hc, firstn_all.
    destruct ps1 as [|p1 ps1]; [|rewrite len_cons; pose proof (len_nonneg ps1); lia].
    specialize (Hfill s1 s ps Hin1 Hin).
    destruct (base_inj s1 [] s ps Hin1 Hin) as [_ <-]; [lia|]. rewrite len_nil in He. lia. }
  destruct (gap_from 0 (nextLSN r0) (views r0)) as [[i v]|].
  - destruct Hg as (_ & Hv & Hgap & Hpos). rewrite Nat.sub_0_r in Hv. unfold bind, modify.
    assert (Hvin : v ∈ (snapshot l).1) by (by eapply list_elem_of_lookup_2).
    destruct (proj1 Hsnap v Hvin) as (s2 & ps2 & Hvo). pose proof Hvo as (_ & _ & Hb & _).
    eapply (Hopen (set_nextLSN (v_baseLSN v) r0)); [|done|done|simpl; lia].
    destruct Hi' as [Hvs Hc]. split; [|exact Hc]. simpl.
    eapply Forall_impl; [exact Hvs|]. intros v'. apply seen_mono. unfold gapBefore in Hgap. bools. simpl in *. lia.
  - exfalso. apply (Hg v1 Hv1). split; [|done]. unfold gapBefore.
    destruct Hvo1 as (_ & _ & Hb & Hpe & _). rewrite Hb, Hpe. apply andb_true_iff. simpl. lia.
Qed.

Lemma Next_complete r s ps e res r' :
  filled → above_head (nextLSN r) → reader_inv bk r →
  (s, ps) ∈ bk → e ∈ entries (baseLSN s) ps → nextLSN r <= e.1 <= Log.durable l →
  Next E max l r = (res, r') → faithful E bk res.
Proof using Sh T Hsnap.
  intros Hfill Hhd Hi Hin He Hle H. unfold Next, bind at 1, get at 1 in H.
  assert (Hpos : ∀ r0, reader_inv bk r0 → nextLSN r0 = nextLSN r → ∀ k : unit → M reader (Z * bytes),
    bind (position E l) k r0 = (res, r') →
    ((∃ r1, position E l r0 = (Ok tt, r1)) → faithful E bk res) → faithful E bk res).
  { intros r0 Hi0 Hn k Hk Hok. unfold bind in Hk.
    pose proof (position_complete r0 s ps e Hfill ltac:(by rewrite Hn) Hi0 Hin He ltac:(lia)) as Hf.
    destruct (position E l r0) as [[[]|e'] r1] eqn:Ep; [apply Hok; eauto|].
    injection Hk as <- _. by eapply faithful_fail. }
  destruct (durable r <? nextLSN r).
  - unfold refresh at 1, bind at 1, modify at 1, bind at 1, get at 1 in H.
    pose proof (refresh_inv r Hi) as Hi0. set (r0 := set_snapshot (snapshot l) r) in *.
    unfold bind at 1 in H. destruct (Z.ltb_spec (durable r0) (nextLSN r0)) as [Hlt|_]; [simpl in Hlt; lia|].
    eapply (Hpos r0); [done|done|exact H|]. by apply (Next_position r) in H as [_ Hok].
  - unfold bind at 1 in H. eapply (Hpos r); [done|done|exact H|]. by apply (Next_position r) in H as [_ Hok].
Qed.

(** *** How a call can fail *)

Definition at_or_above_head (next : Z) : Prop :=
  match (snapshot l).1 with v :: _ => v_baseLSN v <= next | [] => True end.

(** At or above the first segment positioning fails only for want of a record,
    or because the disk does. *)
Lemma position_quiet r e r' :
  at_or_above_head (nextLSN r) → reader_inv bk r →
  position E l r = (Fail e, r') → e = Sentinel NoData ∨ refused E bk e.
Proof using Sh T Hsnap.
  intros Hhd Hi H.
  assert (Hopen : ∀ r0 i v s ps k, reader_inv bk r0 → views r0 !! i = Some v → view_of v s ps k →
    baseLSN s <= nextLSN r0 < baseLSN s + v_count v → openAt E i r0 = (Fail e, r') →
    e = Sentinel NoData ∨ refused E bk e).
  { intros r0 i v s0 ps0 k Hi0 Hv Hvo Hr Eo. pose proof (opening _ _ _ _ _ _ Hi0 Hv Hvo Hr) as Hf.
    right. apply Hf. by rewrite Eo. }
  unfold position, bind at 1, get at 1 in H. simpl in H.
  destruct (find (nextLSN r) (views r)) as [i|] eqn:Ef.
  { destruct (found r i Hi Ef) as (v & s0 & ps0 & k & Hv & Hvo & Hr). by eapply Hopen. }
  unfold refresh, bind at 1, modify at 1, bind at 1, get at 1 in H.
  pose proof (refresh_inv r Hi) as Hi'. set (r0 := set_snapshot (snapshot l) r) in *.
  destruct (find (nextLSN r0) (views r0)) as [i|] eqn:Ef2.
  { destruct (found r0 i Hi' Ef2) as (v & s0 & ps0 & k & Hv & Hvo & Hr). by eapply Hopen. }
  pose proof (gap_from_spec (nextLSN r0) (views r0) 0) as Hg.
  destruct (gap_from 0 (nextLSN r0) (views r0)) as [[i v]|].
  - destruct Hg as (_ & Hv & Hgap & Hpos). rewrite Nat.sub_0_r in Hv. unfold bind, modify in H.
    assert (Hvin : v ∈ (snapshot l).1) by (by eapply list_elem_of_lookup_2).
    destruct (proj1 Hsnap v Hvin) as (s2 & ps2 & Hvo). pose proof Hvo as (_ & _ & Hb & _).
    eapply (Hopen (set_nextLSN (v_baseLSN v) r0)); [|done|done|simpl; lia|exact H].
    destruct Hi' as [Hvs Hc]. split; [|exact Hc]. simpl.
    eapply Forall_impl; [exact Hvs|]. intros v'. apply seen_mono. unfold gapBefore in Hgap. bools. simpl in *. lia.
  - unfold at_or_above_head in Hhd. change (views r0) with (snapshot l).1 in H.
    destruct (snapshot l).1 as [|v vs]; [left; by injection H as <- _|]. left.
    destruct (Z.ltb_spec (nextLSN r0) (v_baseLSN v)) as [Hlt|]; [simpl in Hlt; lia | by injection H as <- _].
Qed.

Lemma Next_quiet r e r' :
  at_or_above_head (nextLSN r) → reader_inv bk r →
  Next E max l r = (Fail e, r') → e = Sentinel NoData ∨ refused E bk e.
Proof using Sh T Hsnap.
  intros Hhd Hi H.
  assert (Hany : ∀ r0, reader_inv bk r0 → nextLSN r0 = nextLSN r → ∀ k : unit → M reader (Z * bytes),
    bind (position E l) k r0 = (Fail e, r') →
    ((∃ r1, position E l r0 = (Ok tt, r1)) → faithful E bk (Fail e : result (Z * bytes))) →
    e = Sentinel NoData ∨ refused E bk e).
  { intros r0 Hi0 Hn k Hk Hok. destruct (position E l r0) as [[[]|e'] r1] eqn:Ep.
    { right. apply Hok; eauto. }
    unfold bind in Hk. rewrite Ep in Hk. injection Hk as -> _.
    by eapply (position_quiet r0); [rewrite Hn | |]. }
  unfold Next, bind at 1, get at 1 in H.
  destruct (durable r <? nextLSN r).
  - unfold refresh at 1, bind at 1, modify at 1, bind at 1, get at 1 in H.
    pose proof (refresh_inv r Hi) as Hi0. set (r0 := set_snapshot (snapshot l) r) in *.
    unfold bind at 1 in H. destruct (durable r0 <? nextLSN r0); [left; by injection H as <- _|].
    eapply (Hany r0); [done | done | exact H|]. by apply (Next_position r) in H as [_ Hok].
  - unfold bind at 1 in H. eapply (Hany r); [done | done | exact H|]. by apply (Next_position r) in H as [_ Hok].
Qed.
End reading.

(** ** Readers of a running log *)

(** The files of a directory, with no call failing. *)
Definition disk_files (v : gmap bytes bytes) : files :=
  Files (λ p, match v !! p with Some _ => Ok tt | None => Fail (Sentinel NotExist) end)
        (λ p o n, match v !! p with
                  | Some c => if o + n <=? len c then Ok (slice c o n) else Fail (Sentinel EOF)
                  | None => Fail (Sentinel NotExist)
                  end).

Section core.
Context {w : world} {gs : list (list bytes)} {pa fly st : list bytes} {junk : bytes} {h : handle}.
Context (C : core w gs pa fly st junk h).
Local Abbreviation bk := (book (lg w) gs pa).
Local Abbreviation max := (Log.maxRecordBytes (opts (lg w))).

Lemma shelf_core : shelf bk max.
Proof using C.
  pose proof (c_max _ _ _ _ _ _ _ C) as Hm. split.
  - unfold maxRecordLimit, headerSize in Hm. lia.
  - intros s ps Hin. destruct (book_rep C s ps Hin) as (_ & j & Hr).
    pose proof (rep_lastLSN _ _ _ _ _ Hr). destruct Hr. repeat split; try done; lia.
  - intros s ps s' ps' Hin Hin' Hp.
    assert (Hi : ∀ x y, (x, y) ∈ bk → ∃ i, segs (lg w) !! i = Some x ∧ (gs ++ [pa]) !! i = Some y).
    { intros x y Hxy. apply elem_of_lookup_zip_with in Hxy as (i & x' & y' & [= <- <-] & Hx & Hy). eauto. }
    destruct (Hi _ _ Hin) as (i & Hx & Hy), (Hi _ _ Hin') as (i' & Hx' & Hy').
    destruct (book_rep C s ps Hin) as (_ & j & Hr), (book_rep C s' ps' Hin') as (_ & j' & Hr').
    assert (Hb : baseLSN s = baseLSN s').
    { destruct (decide (baseLSN s = baseLSN s')) as [|Hne]; [done|]. by apply (rep_path_ne _ _ _ _ _ _ _ _ Hr Hr') in Hne. }
    assert (i = i') as <-.
    { pose proof (c_linked _ _ _ _ _ _ _ C) as Hl. clear -Hx Hx' Hb Hl. revert i i' Hx Hx'.
      induction (segs (lg w)) as [|x l IH]; intros i i' Hx Hx'; [done|].
      assert (Hlt := λ y, linked_head_lt x l y Hl).
      destruct i as [|i], i' as [|i']; simpl in *; try done.
      - injection Hx as ->. apply list_elem_of_lookup_2, Hlt in Hx'. lia.
      - injection Hx' as ->. apply list_elem_of_lookup_2, Hlt in Hx. lia.
      - f_equal. apply IH; try done. by eapply linked_tail. }
    split; congruence.
  - rewrite (book_fst C). apply C.
  - intros s ps Hin. destruct (book_rep C s ps Hin) as (_ & j & Hr). destruct (rep_is_u64 _ _ _ _ _ Hr).
    split; [apply (rep_path _ _ _ _ _ Hr) | done].
Qed.

Lemma snapshot_shows_all : shows_all (bk := bk) (snapshot (lg w)).1.
Proof using C.
  assert (Hvo : ∀ s ps, (s, ps) ∈ bk →
    view_of (bk := bk) (SegView (path s) (baseLSN s) (prevEnd s) (count s) (size s)) s ps (length ps)).
  { intros s ps Hin. destruct (book_rep C s ps Hin) as (_ & j & Hr). unfold view_of. rewrite firstn_all. simpl.
    by rewrite (rep_count _ _ _ _ _ Hr), (rep_size _ _ _ _ _ Hr). }
  split.
  - intros v Hv. simpl in Hv. apply list_elem_of_In, in_map_iff in Hv as (s & <- & Hs%list_elem_of_In).
    rewrite <- (book_fst C) in Hs. apply list_elem_of_fmap in Hs as ([s' ps] & -> & Hin). eauto.
  - intros s ps Hin. eexists. split; [|by apply Hvo]. simpl. apply list_elem_of_In, in_map_iff.
    exists s. split; [done|]. rewrite <- list_elem_of_In, <- (book_fst C). apply list_elem_of_fmap. by exists (s, ps).
Qed.

Lemma disk_files_sound : sound_disk (disk_files (Disk.view (dk w))) bk.
Proof using C.
  intros s ps Hin. destruct (book_rep C s ps Hin) as (_ & j & Hr). simpl.
  rewrite (rep_file _ _ _ _ _ Hr). split; [done|]. intros o n Ho Hn Hle.
  rewrite len_app. pose proof (len_nonneg j).
  destruct (Z.leb_spec (o + n) (len (frames ps) + len j)); [|lia].
  f_equal. unfold slice, len in *. rewrite drop_app_le by lia. rewrite take_app_le; [done|].
  rewrite length_drop. lia.
Qed.

Lemma sound_truthful E : sound_disk E bk → truthful E bk.
Proof using.
  intros Hd s ps o n b Hin Ho Hn Hle Hr. destruct (Hd s ps Hin) as [_ Hd'].
  rewrite Hd' in Hr by done. by injection Hr.
Qed.

Lemma NewReader_inv from r : NewReader (lg w) from = Ok r → reader_inv bk r.
Proof using C.
  intros H. unfold NewReader in H. destruct (snapshot (lg w)) as [vs d] eqn:Es.
  assert (Hvs : ∀ n, Forall (seen bk n) vs).
  { intros n. pose proof (seen_all (l := lg w) snapshot_shows_all n) as Hall. by rewrite Es in Hall. }
  assert (Hr : ∃ n, r = Rd vs d n 0 false [] 0 0 [] (-1)).
  { destruct vs as [|v vs]; [injection H as <-; eauto|].
    destruct (_ <? _); [destruct (negb _); [done|]|]; injection H as <-; eauto. }
  destruct Hr as [n ->]. split; [apply Hvs | done].
Qed.
End core.

(** ** What a reader yields *)

Definition from_on (a : Z) (es : list (Z * bytes)) : list (Z * bytes) := filter (λ e, a <= e.1) es.

Lemma sorted_filter (P : Z * bytes → Prop) `{∀ x, Decision (P x)} (es : list (Z * bytes)) :
  StronglySorted Z.lt es.*1 → StronglySorted Z.lt (filter P es).*1.
Proof.
  induction es as [|e es IH]; [done|]. csimpl. intros Hs. apply StronglySorted_cons in Hs as [He Hs].
  rewrite filter_cons. case_decide; [|by apply IH]. csimpl. apply StronglySorted_cons. split; [|by apply IH].
  rewrite Forall_fmap, Forall_forall in He |- *. intros x Hx.
  apply list_elem_of_filter in Hx as [_ Hx]. by apply He.
Qed.

Lemma from_on_next a es e rest :
  StronglySorted Z.lt es.*1 → from_on a es = e :: rest → from_on (e.1 + 1) es = rest.
Proof.
  intros Hs Hf. assert (Hin : e ∈ from_on a es) by (rewrite Hf; left).
  apply list_elem_of_filter in Hin as [Hae _].
  assert (E : from_on (e.1 + 1) es = from_on (e.1 + 1) (from_on a es)).
  { unfold from_on. rewrite list_filter_filter. apply list_filter_iff. intros x. lia. }
  rewrite E, Hf. unfold from_on. rewrite filter_cons, decide_False by lia.
  pose proof (sorted_filter (λ x, a <= x.1) es Hs) as Hs'. change (filter _ es) with (from_on a es) in Hs'.
  rewrite Hf in Hs'. csimpl in Hs'. apply StronglySorted_cons in Hs' as [Hall _].
  rewrite Forall_fmap in Hall. clear -Hall. induction Hall as [|x l Hx _ IH]; [done|].
  rewrite filter_cons, decide_True by (simpl in Hx; lia). by f_equal.
Qed.

Lemma sorted_unique es (e e' : Z * bytes) :
  StronglySorted Z.lt es.*1 → e ∈ es → e' ∈ es → e.1 = e'.1 → e = e'.
Proof.
  induction es as [|x es IH]; csimpl; intros Hs He He' E; [by apply not_elem_of_nil in He|].
  apply StronglySorted_cons in Hs as [Hx Hs]. rewrite Forall_fmap, Forall_forall in Hx.
  apply elem_of_cons in He as [->|He], He' as [->|He']; [done| | |by apply IH].
  - apply Hx in He'. simpl in He'. lia.
  - apply Hx in He. simpl in He. lia.
Qed.

(** The first record from [a] on is the one nothing precedes. *)
Lemma from_on_first a es e rest x :
  StronglySorted Z.lt es.*1 → from_on a es = e :: rest → x ∈ es → a <= x.1 →
  (∀ y, y ∈ es → ¬ (a <= y.1 < x.1)) → e = x.
Proof.
  intros Hs Hf Hx Ha Hno. assert (He : e ∈ from_on a es) by (rewrite Hf; left).
  apply list_elem_of_filter in He as [Hle Hin]. specialize (Hno e Hin).
  apply (sorted_unique _ _ _ Hs); [done | done|].
  assert (Hxf : x ∈ from_on a es) by (by apply list_elem_of_filter).
  rewrite Hf in Hxf. apply elem_of_cons in Hxf as [->|Hxf]; [done|].
  rewrite <- (from_on_next _ _ _ _ Hs Hf) in Hxf. apply list_elem_of_filter in Hxf as [Hxf _]. lia.
Qed.

(** Calling [Next] until it fails, at most [n] times. *)
Fixpoint drain (E : files) (max : Z) (l : log) (n : nat) (r : reader) : list (Z * bytes) * reader :=
  match n with
  | O => ([], r)
  | S n => match Next E max l r with
           | (Ok e, r') => let '(es, r'') := drain E max l n r' in (e :: es, r'')
           | (Fail _, r') => ([], r')
           end
  end.

Lemma drain_spec w gs pa fly st junk h n r es :
  core w gs pa fly st junk h →
  let bk := book (lg w) gs pa in
  let E := disk_files (Disk.view (dk w)) in
  filled (bk := bk) → above_head (bk := bk) (nextLSN r) → reader_inv bk r →
  Forall (λ e, e.1 <= Log.durable (lg w)) (all_records (lg w) gs pa) →
  from_on (nextLSN r) (all_records (lg w) gs pa) = es → n = length es →
  (drain E (Log.maxRecordBytes (opts (lg w))) (lg w) n r).1 = es.
Proof.
  intros C bk E Hfill Hhd Hi Hdur. revert r es Hhd Hi.
  pose proof (disk_files_sound C) as Hd. pose proof (sound_truthful _ Hd) as T.
  pose proof (core_sorted _ _ _ _ _ _ _ C) as Hs.
  induction n as [|n IH]; intros r es Hhd Hi Hes Hn; [by destruct es|].
  destruct es as [|e es]; [done|]. injection Hn as Hn. cbn [drain].
  assert (He : e ∈ from_on (nextLSN r) (all_records (lg w) gs pa)) by (rewrite Hes; left).
  apply list_elem_of_filter in He as [Hle Hin]. pose proof (proj1 (book_records C e) Hin) as (s & ps & Hbk & Hen).
  destruct (Next E _ (lg w) r) as [res r'] eqn:En.
  pose proof (Next_complete (shelf_core C) T (snapshot_shows_all C) r s ps e res r' Hfill Hhd Hi Hbk Hen) as Hok.
  rewrite Forall_forall in Hdur. specialize (Hok ltac:(split; [done | by apply Hdur]) En).
  apply (sound_succeeds _ _ _ Hd) in Hok.
  destruct (Next_spec (shelf_core C) T (snapshot_shows_all C) r _ r' Hi En) as [Hi' Hres].
  destruct res as [[lsn p]|]; [|done]. destruct Hres as (Hge & Hva & Hnx & s' & ps' & Hbk' & Hen').
  assert (Hin' : (lsn, p) ∈ all_records (lg w) gs pa) by (apply (book_records C); eauto).
  assert (e = (lsn, p)) as ->.
  { apply (from_on_first _ _ _ _ _ Hs Hes Hin' Hge). intros x Hx.
    apply (book_records C) in Hx as (s0 & ps0 & Hbk0 & Hen0). by apply (Hva s0 ps0). }
  specialize (IH r' es). rewrite Hnx in IH.
  destruct (drain E _ (lg w) n r') as [es' r''] eqn:Ed. simpl in *. f_equal.
  apply IH; try done.
  - revert Hhd. unfold bk, above_head. destruct (book (lg w) gs pa) as [|[s0 ps0] b0]; [done|]. lia.
  - apply (from_on_next _ _ _ _ Hs Hes).
Qed.

Lemma NewReader_above w gs pa fly st junk h from r :
  core w gs pa fly st junk h → NewReader (lg w) from = Ok r →
  above_head (bk := book (lg w) gs pa) (nextLSN r) ∧
  (FirstLSN (lg w) = match segs (lg w) with s :: _ => baseLSN s | [] => 0 end →
   FirstLSN (lg w) <= from → from ≠ 0 → nextLSN r = from).
Proof.
  intros C H. pose proof (book_fst C) as Hfst. unfold NewReader in H. simpl in H.
  destruct (segs (lg w)) as [|s0 ss] eqn:Es; [by unfold segs in Es; destruct (sealed (lg w))|].
  assert (Hb : ∃ ps b, book (lg w) gs pa = (s0, ps) :: b).
  { destruct (book (lg w) gs pa) as [|[s1 ps1] b]; [done|]. injection Hfst as -> _. eauto. }
  destruct Hb as (ps & b & Hb). simpl in H. unfold above_head. rewrite Hb.
  destruct (sh_rep _ _ (shelf_core C) s0 ps) as (_ & Hb1 & _ & Hp & _); [rewrite Hb; left|].
  destruct (Z.eqb_spec from 0) as [->|Hnz].
  - rewrite Z.ltb_irrefl in H. injection H as <-. simpl. split; [lia | done].
  - destruct (Z.ltb_spec from (baseLSN s0)) as [Hlt|Hge].
    + destruct (gapBefore _ from); simpl in H; [|done]. injection H as <-. simpl.
      split; [lia|]. intros ->. lia.
    + injection H as <-. simpl. split; [lia | done].
Qed.

(** A reader neither skips nor invents.  At every state the log can reach, a
    new reader satisfies the invariant and the directory answers truthfully; and
    whatever calls fail, a record [Next] returns is in the log under the number
    returned, no record lies between the cursor and it, and the cursor moves
    right behind it; an error moves the cursor past no record, so the call can be
    repeated.  The invariant holds again afterwards. *)
Theorem next_is_the_next_record w0 gs0 pa0 s :
  LogSteps.fresh w0 gs0 pa0 → LogSteps.reachable w0 s →
  let l := LogSteps.log_of s in
  ∃ gs pa, LogSteps.holds (LogSteps.sw s) gs pa ∧
    truthful (disk_files (Disk.view (dk (LogSteps.sw s)))) (book l gs pa) ∧
    (∀ from r, NewReader l from = Ok r → reader_inv (book l gs pa) r) ∧
    ∀ E r res r', truthful E (book l gs pa) → reader_inv (book l gs pa) r →
      Next E (maxRecordBytes (opts l)) l r = (res, r') →
      reader_inv (book l gs pa) r' ∧ nextLSN r <= nextLSN r' ∧
      match res with
      | Ok (lsn, payload) =>
          (lsn, payload) ∈ all_records l gs pa ∧ nextLSN r' = lsn + 1 ∧
          ∀ e, e ∈ all_records l gs pa → ¬ (nextLSN r <= e.1 < lsn)
      | Fail _ => ∀ e, e ∈ all_records l gs pa → ¬ (nextLSN r <= e.1 < nextLSN r')
      end.
Proof.
  intros F R l. destruct (LogSteps.reachable_inv _ _ _ _ F R) as (gs & pa & fly & st & junk & h & flown & old & G).
  pose proof (LogSteps.i_core _ _ _ _ _ _ _ _ _ _ G) as C.
  exists gs, pa. split; [by eapply LogSteps.core_holds|].
  split; [apply sound_truthful, (disk_files_sound C)|]. split; [apply (NewReader_inv C)|].
  intros E r res r' T Hi H.
  destruct (Next_spec (shelf_core C) T (snapshot_shows_all C) _ _ _ Hi H) as [Hi' Hres].
  assert (Hvac : ∀ a b, vacant (bk := book l gs pa) a b →
    ∀ e, e ∈ all_records l gs pa → ¬ (a <= e.1 < b)).
  { intros a b Hv e (s1 & ps1 & Hb & He)%(book_records C). by eapply Hv. }
  split; [done|]. destruct res as [[lsn p]|e].
  - destruct Hres as (Hle & Hva & Hn & s1 & ps1 & Hb & He). split; [lia|].
    split; [apply (book_records C); eauto|]. split; [done|]. by apply Hvac.
  - destruct Hres as (Hle & Hva & _). split; [done|]. by apply Hvac.
Qed.

(** The reader of the example log, at its second record. *)
Definition ex_reader : reader :=
  match NewReader (LogSteps.log_of LogSteps.ex_s3) 2 with
  | Ok r => r
  | Fail _ => Rd [] 0 0 0 false [] 0 0 [] (-1)
  end.

(** What it answers, and where it stands then. *)
Definition ex_after : reader :=
  let s := LogSteps.ex_s3 in let l := LogSteps.log_of s in
  (Next (disk_files (Disk.view (dk (LogSteps.sw s)))) (maxRecordBytes (opts l)) l ex_reader).2.

Lemma next_is_the_next_record_witness :
  let s := LogSteps.ex_s3 in let l := LogSteps.log_of s in
  ∃ gs pa, LogSteps.holds (LogSteps.sw s) gs pa ∧
    Next (disk_files (Disk.view (dk (LogSteps.sw s)))) (maxRecordBytes (opts l)) l ex_reader
      = (Ok (2, LogSteps.p2), ex_after) ∧
    reader_inv (book l gs pa) ex_after ∧ (2, LogSteps.p2) ∈ all_records l gs pa.
Proof.
  cbv zeta. set (s := LogSteps.ex_s3). set (l := LogSteps.log_of s).
  destruct (next_is_the_next_record _ _ _ _ (LogSteps.ex_fresh LogSteps.ex_plan) LogSteps.ex_reachable)
    as (gs & pa & Hh & T & Hnew & Hn).
  assert (H1 : NewReader l 2 = Ok ex_reader) by (vm_compute; reflexivity).
  assert (H2 : Next (disk_files (Disk.view (dk (LogSteps.sw s)))) (maxRecordBytes (opts l)) l ex_reader
             = (Ok (2, LogSteps.p2), ex_after)) by (vm_compute; reflexivity).
  exists gs, pa. split; [exact Hh|]. split; [exact H2|].
  destruct (Hn _ _ _ _ T (Hnew 2 ex_reader H1) H2) as (Hi & _ & Hin & _).
  split; [exact Hi | exact Hin].
Defined.

(** On a quiet log with no call failing, a reader opened at any number
    yields every record from there on, in order, once. *)
Theorem reader_yields_log w gs pa from r :
  LogSteps.fresh w gs pa → filled (bk := book (lg w) gs pa) → NewReader (lg w) from = Ok r →
  let records := from_on (nextLSN r) (all_records (lg w) gs pa) in
  (drain (disk_files (Disk.view (dk w))) (maxRecordBytes (opts (lg w))) (lg w) (length records) r).1 = records.
Proof.
  intros F Hfill Hr. pose proof (LogSteps.fr_core _ _ _ F) as C.
  destruct (NewReader_above _ _ _ _ _ _ _ _ _ C Hr) as [Hhd _].
  by apply (drain_spec _ _ _ _ _ _ _ _ _ _ C Hfill Hhd (NewReader_inv C _ _ Hr) (LogSteps.fr_covers _ _ _ F)).
Qed.

(** A log that was opened with two records in its segment. *)
Definition two : bytes := frames [LogSteps.p1; LogSteps.p2].
Definition ex_two_dir : gmap bytes bytes :=
  <[MarkFiles.reservedName := Text.show 2 ++ MarkFiles.newline]> {[ segmentName 1 0 := two ]}.
Definition ex_two : world :=
  World (MkLog LogSteps.ex_opts [] (Seg 1 (segmentName 1 0) 0 HOpen 25 2) 3 1 2 [] [] 0 0 2 false
           [Undecided] 0 None None false None)
    (Recovery.shows ex_two_dir).

Lemma ex_two_dir_segment : ex_two_dir !! segmentName 1 0 = Some two.
Proof. unfold ex_two_dir. rewrite lookup_insert_ne by (by vm_compute). apply lookup_singleton_eq. Qed.
Lemma ex_two_dir_mark : MarkFiles.markIn ex_two_dir MarkFiles.reservedName = Some 2.
Proof. unfold MarkFiles.markIn, ex_two_dir. rewrite lookup_insert_eq. by vm_compute. Qed.
Lemma ex_two_rep :
  seg_rep ex_two_dir 100 [] (Seg 1 (segmentName 1 0) 0 HOpen 25 2) [LogSteps.p1; LogSteps.p2].
Proof.
  assert (Hlen : len two = 25) by reflexivity.
  split; cbn [path baseLSN prevEnd size count].
  - rewrite app_nil_r. apply ex_two_dir_segment.
  - reflexivity.
  - symmetry. exact Hlen.
  - reflexivity.
  - repeat constructor; unfold payload_ok; by vm_compute.
  - lia.
  - unfold len, maxU64. simpl. lia.
  - lia.
Qed.

Lemma ex_two_fresh : LogSteps.fresh ex_two [] [LogSteps.p1; LogSteps.p2].
Proof.
  assert (Hv : Disk.view (dk ex_two) = ex_two_dir) by apply Recovery.view_shows.
  split; [|reflexivity..|simpl; lia|].
  2: { unfold all_records, records. simpl. by repeat constructor. }
  split; rewrite ?Hv; simpl; rewrite ?len_nil; unfold maxU64; try reflexivity; try lia.
  - unfold maxRecordLimit, headerSize. lia.
  - constructor.
  - apply ex_two_rep.
  - constructor.
  - constructor.
  - intros []. reflexivity.
  - exists 2. split; [apply ex_two_dir_mark | lia].
Qed.

Lemma reader_yields_log_witness :
  let r := Rd (snapshot (lg ex_two)).1 2 2 0 false [] 0 0 [] (-1) in
  NewReader (lg ex_two) 2 = Ok r ∧
  (drain (disk_files (Disk.view (dk ex_two))) 100 (lg ex_two) 1 r).1 = [(2, LogSteps.p2)].
Proof.
  intros r. assert (Hr : NewReader (lg ex_two) 2 = Ok r) by done. split; [done|].
  apply (reader_yields_log ex_two [] [LogSteps.p1; LogSteps.p2] 2 r ex_two_fresh); [|done].
  intros s1 s' ps' Hin. apply list_elem_of_singleton in Hin. done.
Defined.

(** ** A stall

    Two crashes with nothing committed in between leave an empty segment
    between two gaps.  A reader in front of the first gap does not get past
    it: the empty segment is skipped, and the next one's link is above the
    cursor. *)
Definition open_again (w : world) : world :=
  match Recovery.recover (opts (lg w)) (λ _, 0) Recovery.ex_id (Recovery.shows (Disk.view (dk w))) with
  | (Ok (l, _), d) => World l d
  | (Fail _, d) => World (lg w) d
  end.

Definition after_one : world := (commit (AppendBatchAsync [LogSteps.p1] (LogSteps.ex_world [])).2).2.
Definition staged_only : world := (AppendBatchAsync [LogSteps.p2] (open_again after_one)).2.
Definition after_both : world := (commit (AppendBatchAsync [LogSteps.p2] (open_again staged_only)).2).2.

Theorem reader_stalls_before_an_empty_segment :
  let l := lg after_both in
  map count (segs l) = [1; 0; 1] ∧ Log.durable l = 2097153 ∧
  match NewReader l 1 with
  | Ok r =>
      let E := disk_files (Disk.view (dk after_both)) in
      let '(es, r') := drain E 100 l 1 r in
      es = [(1, LogSteps.p1)] ∧ nextLSN r' = 2 ∧ (Next E 100 l r').1 = Fail (Sentinel NoData)
  | Fail _ => False
  end.
Proof. by vm_compute. Qed.

End Reader.
