(* ===== verification/Tail.v ===== *)
(** * A reader beside a running log (src/internal/wal/reader.go and wal.go)

    The flusher's reader follows the log while appenders stage records, the
    committer writes, fails and rolls back, segments rotate and truncation
    removes what is behind the cursor.  The records it returns, over any such
    interleaving, are the log's records from where it was opened up to its
    cursor, in order, each once. *)

From stdpp Require Import strings sorting.
From S2P Require Import Prelude Errors Text Record Disk Segment MarkFiles Log LogInv LogSteps Reader.
Local Open Scope Z_scope.
Local Open Scope go_scope.

Module Tail.
Import Record Segment Log LogInv LogSteps Reader.

(** ** Growth of the log *)

(** Every record the log ever published, in order. *)
Definition history (init : list (Z * bytes)) (s : sys) : list (Z * bytes) :=
  init ++ acknowledged (log_of s) (staged s) ++ published (ph s) (staged s).

Lemma ack_same l l' h : (∀ r, acked l' r = acked l r) → acknowledged l' h = acknowledged l h.
Proof. intros E. apply ack_ext, Forall_true. intros x. apply E. Qed.

Lemma acked_rounds l l' : rounds l' = rounds l → ∀ r, acked l' r = acked l r.
Proof. intros E r. unfold acked. by rewrite E. Qed.

Lemma settled_snoc (rs : list round) r :
  match (rs ++ [Undecided]) !! r with Some (Decided None) => true | _ => false end
  = match rs !! r with Some (Decided None) => true | _ => false end.
Proof.
  destruct (decide (r < length rs)%nat).
  - by rewrite lookup_app_l.
  - rewrite lookup_app_r, (lookup_ge_None_2 rs) by lia. by destruct (r - _)%nat as [|[]].
Qed.

Lemma acked_opened l l' : rounds l' = rounds l ++ [Undecided] → ∀ r, acked l' r = acked l r.
Proof.
  intros E r. unfold acked. rewrite E. apply settled_snoc.
Qed.

(** Above every record of a book. *)
Definition beyond (bk : list (segment * list bytes)) (new : list (Z * bytes)) : Prop :=
  ∀ t ps e, (t, ps) ∈ bk → e ∈ new → baseLSN t + len ps <= e.1.

Lemma beyond_nil bk : beyond bk [].
Proof. intros t ps e _ He. by apply not_elem_of_nil in He. Qed.

Section growth.
Context {init : list (Z * bytes)} {s : sys} {gs : list (list bytes)} {pa fly st : list bytes}
  {junk : bytes} {h : handle} {flown : list bytes} {old : list (nat * (Z * bytes))}.
Context (G : good init s gs pa fly st junk h flown old).
Local Abbreviation bk := (book (log_of s) gs pa).

Lemma beyond_active ps : beyond bk (entries (baseLSN (active (log_of s)) + len pa) ps).
Proof using G.
  pose proof (i_core _ _ _ _ _ _ _ _ _ _ G) as C. intros t qs e Hin He%entries_lsn. unfold log_of in *.
  rewrite (book_split C) in Hin. apply elem_of_app in Hin as [Hin|[= -> ->]%list_elem_of_singleton]; [|lia].
  destruct (sealed_below C t qs Hin) as (_ & ? & _). pose proof (len_nonneg pa). lia.
Qed.

Lemma history_same s' :
  (∀ r, acked (log_of s') r = acked (log_of s) r) → staged s' = staged s →
  published (ph s') (staged s) = published (ph s) (staged s) →
  ∃ new, history init s' = history init s ++ new ∧ beyond bk new.
Proof using.
  intros Ha Hs Hp. exists []. split; [|apply beyond_nil].
  unfold history. by rewrite app_nil_r, Hs, Hp, (ack_same _ _ _ Ha).
Qed.

Lemma history_append ps w' l' :
  lg w' = l' → rounds l' = rounds (log_of s) →
  history init (Sys w' (ph s) (staged s ++ (pair (curRound (log_of s)) <$> ps)) (upto s)) = history init s.
Proof using G.
  intros <- Hr. unfold history, log_of at 1. simpl. rewrite ack_app, ack_batch.
  rewrite (ack_same _ _ _ (acked_rounds _ _ Hr)), (acked_rounds _ _ Hr), (good_cur_open G), app_nil_r.
  do 2 f_equal. pose proof (i_job _ _ _ _ _ _ _ _ _ _ G) as J.
  destruct (ph s) as [| | | |j [e|] rb]; simpl; try done. simpl in J.
  rewrite of_round_app, of_round_batch, bool_decide_false by (apply not_eq_sym, (j_cur _ _ _ _ _ _ J)).
  by rewrite app_nil_r.
Qed.

(** The store of a batch publishes it. *)
Lemma history_store j r w' :
  ph s = Storing j →
  appendBatch (syncMode (opts (log_of s))) (buf j) (u64 (jlast j - jfirst j + 1)) (sw s) = (r, w') →
  ∃ new, history init (Sys w' (after_store j r) (staged s) (upto s)) = history init s ++ new ∧ beyond bk new.
Proof using G.
  intros Hp H. pose proof (i_job _ _ _ _ _ _ _ _ _ _ G) as J. rewrite Hp in J. simpl in J.
  pose proof (j_where _ _ _ _ _ _ J) as [_ Hfirst].
  assert (Ha : ∀ r, acked (lg w') r = acked (log_of s) r).
  { destruct (appendBatch_log _ _ _ _ _ _ H) as (ss & a & E). apply acked_rounds. unfold log_of. by rewrite E. }
  destruct r as [u|e].
  - exists (entries (jfirst j) flown). split; [|rewrite Hfirst; apply beyond_active].
    unfold history, log_of at 1. simpl. rewrite (ack_same _ _ _ Ha), Hp. simpl.
    rewrite (good_job_round G) by (by rewrite Hp). by rewrite app_nil_r, app_assoc.
  - apply history_same; [done | done | by rewrite Hp].
Qed.

(** Announcing it makes it acknowledged. *)
Lemma history_end j err rb :
  ph s = Ending j err rb →
  history init (Sys (World (commitEnd j err rb (log_of s)) (dk (sw s))) Idle (staged s) (upto s)) = history init s.
Proof using G.
  intros Hp.
  pose proof (i_job _ _ _ _ _ _ _ _ _ _ G) as J. rewrite Hp in J. simpl in J.
  pose proof (j_round _ _ _ _ _ _ J) as Hr. pose proof (j_cur _ _ _ _ _ _ J) as Hc.
  pose proof (lookup_lt_Some _ _ _ Hr) as Hlt. pose proof (lookup_lt_Some _ _ _ (i_cur _ _ _ _ _ _ _ _ _ _ G)).
  unfold history, log_of at 1. cbn [sw lg ph staged]. rewrite Hp. simpl published.
  destruct err as [e|].
  - f_equal. rewrite !app_nil_r. apply ack_same. intros r. unfold acked. simpl. unfold resolve.
    destruct (decide (r = curRound (log_of s))) as [->|Hn1].
    { rewrite list_lookup_insert_eq by (rewrite length_insert, length_app; lia).
      by rewrite (i_cur _ _ _ _ _ _ _ _ _ _ G). }
    rewrite list_lookup_insert_ne by done. destruct (decide (r = jround j)) as [->|Hn2].
    { rewrite list_lookup_insert_eq by (rewrite length_app; lia). by rewrite Hr. }
    rewrite list_lookup_insert_ne by done. apply settled_snoc.
  - set (l' := commitEnd j None rb (log_of s)).
    assert (Hne : ∀ r, r ≠ jround j → rounds l' !! r = rounds (log_of s) !! r).
    { intros r Hne. simpl. unfold resolve. by rewrite list_lookup_insert_ne. }
    assert (Hj : acked l' (jround j) = true).
    { unfold acked. simpl. unfold resolve. by rewrite list_lookup_insert_eq. }
    assert (Hcur : acked l' (curRound (log_of s)) = false).
    { unfold acked. rewrite Hne by done. by rewrite (i_cur _ _ _ _ _ _ _ _ _ _ G). }
    assert (Hold : acknowledged l' old = acknowledged (log_of s) old).
    { apply ack_ext, Forall_forall. intros x Hx. apply (acked_old G _ _ Hx). intros r _ Hr' _.
      apply Hne. rewrite (j_inflight _ _ _ _ _ _ J) in Hr'. congruence. }
    rewrite (good_acknowledged G), (good_job_round G) by (by rewrite Hp).
    rewrite (i_staged _ _ _ _ _ _ _ _ _ _ G), Hp. simpl.
    by rewrite !ack_app, !ack_batch, Hj, Hcur, Hold, !app_nil_r.
Qed.

Lemma history_sorted : StronglySorted Z.lt (history init s).*1.
Proof using G.
  unfold history. rewrite (good_acknowledged G), (good_published G), app_assoc. destruct G.
  destruct (unwritten (ph s)); [by rewrite app_nil_r|].
  destruct (job_of (ph s)) as [j|]; [|by rewrite app_nil_r].
  apply (sorted_snoc _ _ (jfirst j)); [done | apply entries_sorted | |].
  - eapply Forall_impl; [exact i_durable0|]. simpl. intros e. lia.
  - apply Forall_forall. intros e He%entries_lsn. lia.
Qed.

(** What the log holds of it, down to the bound given to [Truncate]. *)
Lemma history_held e : upto s <= e.1 → e ∈ history init s ↔ e ∈ all_records (log_of s) gs pa.
Proof using G.
  intros Hu. destruct (good_refines G) as (gone & Hg & Hgu). unfold history. rewrite Hg, elem_of_app.
  split; [|by right]. intros [Hin|Hin]; [|done].
  rewrite Forall_forall in Hgu. apply Hgu in Hin. lia.
Qed.
End growth.

(** A step adds records only behind all there are. *)
Lemma history_step {init s s' gs pa fly st junk h flown old} :
  good init s gs pa fly st junk h flown old → step s s' →
  ∃ new, history init s' = history init s ++ new ∧ beyond (book (log_of s) gs pa) new.
Proof.
  intros G Hstep. pose proof (i_core _ _ _ _ _ _ _ _ _ _ G) as C. pose proof (failErr_set G) as Hf.
  destruct Hstep as [? ? [s ps first last r w' Hps Hroom H|s ps e w' Hroom H|s j l' Hp H|s j r w' Hp H
    |s j r w' Hp H|s j e r w' Hp H|s j e rb Hp|s]|s u r w' H|s m r d' Hm H].
  - apply (AppendBatchAsync_spec _ _ _ _ _ _ _ _ _ _ C Hf Hps Hroom) in H
      as [(want & [= -> -> ->] & _ & _ & Hl & _)|(? & [=] & _)].
    exists []. rewrite app_nil_r. split; [|apply beyond_nil]. by eapply (history_append G).
  - assert (Hl : lg w' = log_of s).
    { destruct (decide (ps = [])) as [->|Hps]; [done|].
      by apply (AppendBatchAsync_spec _ _ _ _ _ _ _ _ _ _ C Hf Hps Hroom) in H as [(? & [=] & _)|(? & _ & ? & _)]. }
    apply history_same; [|done|done]. unfold log_of at 1. simpl. by rewrite Hl.
  - apply history_same; [|done|by rewrite Hp]. unfold commitBegin in H. destruct (_ || _); [done|].
    apply Some_inj, (f_equal snd) in H. simpl in H. subst l'. by apply acked_opened.
  - apply history_same; [|done|rewrite Hp; by destruct r]. apply acked_rounds. unfold log_of at 1. simpl.
    destruct (mustRotate _ _); [|by injection H as _ <-].
    apply rotate_log in H as (ss & a & E). by rewrite E.
  - by apply (history_store G).
  - apply history_same; [|done|rewrite Hp; by destruct r]. apply acked_rounds. unfold log_of at 1. simpl.
    apply rollback_log in H. by rewrite H.
  - exists []. rewrite app_nil_r. split; [by apply (history_end G) | apply beyond_nil].
  - by apply history_same.
  - destruct (Truncate_spec _ _ _ _ _ _ _ _ _ _ C H) as (k & _ & _ & (k' & first & E) & _).
    apply history_same; [|done|done]. apply acked_rounds. unfold log_of at 1. simpl. by rewrite E.
  - by apply history_same.
Qed.

(** ** The records between two numbers *)

Definition window (a b : Z) (es : list (Z * bytes)) : list (Z * bytes) := filter (λ e, a <= e.1 ∧ e.1 < b) es.

Lemma window_app a b es es' : window a b (es ++ es') = window a b es ++ window a b es'.
Proof. apply filter_app. Qed.

Lemma window_none a b es : (∀ e, e ∈ es → ¬ (a <= e.1 < b)) → window a b es = [].
Proof.
  intros H. unfold window. induction es as [|e es IH]; [done|].
  rewrite filter_cons, IH by (intros x Hx; apply H; by right). specialize (H e ltac:(left)).
  case_decide; [lia | done].
Qed.

Lemma window_ext a b b' es : b <= b' → (∀ e, e ∈ es → ¬ (b <= e.1 < b')) → window a b' es = window a b es.
Proof.
  intros Hle H. unfold window. induction es as [|e es IH]; [done|].
  rewrite !filter_cons, IH by (intros x Hx; apply H; by right). specialize (H e ltac:(left)).
  case_decide; case_decide; done || lia.
Qed.

(** The next record closes the window behind itself. *)
Lemma window_snoc a b es e :
  StronglySorted Z.lt es.*1 → e ∈ es → a <= b <= e.1 → (∀ x, x ∈ es → ¬ (b <= x.1 < e.1)) →
  window a (e.1 + 1) es = window a b es ++ [e].
Proof.
  intros Hs He Hb Hva. apply list_elem_of_split in He as (l1 & l2 & ->).
  assert (H2 : ∀ x, x ∈ l2 → e.1 < x.1).
  { intros x Hx. rewrite fmap_app in Hs. apply StronglySorted_app in Hs as (_ & _ & Hs). csimpl in Hs.
    apply StronglySorted_cons in Hs as [Hall _]. rewrite Forall_fmap, Forall_forall in Hall. by apply Hall. }
  assert (H1 : ∀ x, x ∈ l1 → x.1 < e.1).
  { intros x Hx. rewrite fmap_app in Hs. apply StronglySorted_app in Hs as (Hs & _). apply Hs.
    - by apply list_elem_of_fmap_2.
    - csimpl. left. }
  change (e :: l2) with ([e] ++ l2). rewrite !window_app.
  rewrite (window_none _ _ l2), (window_none _ b l2), !app_nil_r by (intros x Hx; specialize (H2 x Hx); lia).
  rewrite (window_ext a b (e.1 + 1) l1); [|lia|].
  2: { intros x Hx. specialize (H1 x Hx). specialize (Hva x ltac:(apply elem_of_app; by left)). lia. }
  rewrite (window_none a b [e]) by (intros x ->%list_elem_of_singleton; lia). rewrite app_nil_r. f_equal.
  unfold window. rewrite filter_cons, decide_True; [done | lia].
Qed.

(** ** The reader while the log grows *)

Section grown.
Context {bk bk' : list (segment * list bytes)} {max max' u : Z}.
Context (Sh : shelf bk max) (Sh' : shelf bk' max') (Gr : grown u bk bk').

Lemma seen_grown next v : u <= next → seen bk next v → seen bk' next v.
Proof using Sh Gr.
  intros Hu [(s & ps & k & Hin & H1 & H2 & H3 & H4 & H5)|H]; [|by right].
  destruct (sh_rep _ _ Sh s ps Hin) as (_ & Hb & Hm & _).
  assert (Hk : 0 <= len (take k ps) <= len ps) by (unfold len; rewrite length_take; lia).
  destruct (gr_keep _ _ _ Gr s ps Hin) as [Hle|(t & qs & Ht & [P B E])]; [right; lia|].
  left. exists t, (ps ++ qs), (k `min` length ps)%nat.
  assert (Htake : take (k `min` length ps) (ps ++ qs) = take k ps).
  { rewrite take_app_le by lia. destruct (decide (k <= length ps)%nat) as [|Hgt]; [by rewrite Nat.min_l|].
    by rewrite Nat.min_r, !take_ge by lia. }
  rewrite Htake. split_and!; congruence.
Qed.

Lemma of_log_grown p : of_log bk p → of_log bk' p.
Proof using Gr.
  intros (b & e & s & ps & -> & Hb & He & Hin & Hle). destruct (gr_top _ _ _ Gr s ps Hin) as (t & qs & Ht & _ & Hlt).
  exists b, e, t, qs. split_and!; [done..|lia].
Qed.

(** A file that is open is not the file of a segment created since. *)
Lemma not_new p t qs : of_log bk p → (t, qs) ∈ bk' →
  (∀ s ps, (s, ps) ∈ bk → baseLSN s < baseLSN t) → p ≠ path t.
Proof using Sh'.
  intros (b & e & s & ps & -> & Hb & He & Hin & Hle) Ht Hnew E. specialize (Hnew s ps Hin).
  destruct (sh_name _ _ Sh' t qs Ht) as (Hn & Hb' & He'). rewrite Hn in E.
  apply segmentName_inj in E as [-> _]; try done. lia.
Qed.

Lemma cursor_grown r : cursor_ok bk r → cursor_ok bk' r.
Proof using Gr Sh'.
  intros Hc Hop. destruct (Hc Hop) as [Hof Hcur]. split; [by apply of_log_grown|].
  intros t qs Ht Hp. destruct (gr_from _ _ _ Gr t qs Ht) as [(s & ps & k & Hs & -> & [P B E])|Hnew].
  - rewrite P in Hp. destruct (Hcur s ps Hs Hp) as (Hr & Ho & Hw). rewrite B, len_app.
    pose proof (len_nonneg k). split; [lia|]. split.
    + rewrite take_app_le; [done|]. unfold len in Hr. lia.
    + eapply window_grows; [|done]. rewrite frames_app. by apply prefix_app_r.
  - by destruct (not_new (rpath r) t qs Hof Ht Hnew).
Qed.

Lemma reader_grown r : u <= nextLSN r → reader_inv bk r → reader_inv bk' r.
Proof using Sh Sh' Gr.
  intros Hu [Hv Hc]. split; [|by apply cursor_grown].
  eapply Forall_impl; [exact Hv|]. intros v. by apply seen_grown.
Qed.
End grown.

(** ** The system *)

(** What a read of a file in the directory returns, when it returns, is what
    the file holds; nothing is said of files that are not there. *)
Definition dir_truthful (E : files) (v : gmap bytes bytes) : Prop :=
  ∀ p c o n b, v !! p = Some c → 0 <= o → 0 <= n → o + n <= len c → readAt E p o n = Ok b → b = slice c o n.

Lemma dir_truthful_book E w gs pa fly st junk h :
  core w gs pa fly st junk h → dir_truthful E (Disk.view (dk w)) → truthful E (book (lg w) gs pa).
Proof.
  intros C T s ps o n b Hin Ho Hn Hle Hr. destruct (book_rep C s ps Hin) as (_ & j & Hrep).
  pose proof (len_nonneg j).
  assert (Hb : b = slice (frames ps ++ j) o n).
  { apply (T (path s)); try done; [apply (rep_file _ _ _ _ _ Hrep) | rewrite len_app; lia]. }
  rewrite Hb. unfold slice, len in *. rewrite drop_app_le by lia. rewrite take_app_le; [done|].
  rewrite length_drop. lia.
Qed.

(** The log, a reader opened at [start], and the records [Next] has returned.
    [Truncate] is only given bounds the reader has passed; what the operating
    system answers a reader may be different at each call. *)
Inductive tailing (w0 : world) (start : Z) : sys → reader → list (Z * bytes) → Prop :=
| tail_new s from r :
    reachable w0 s → NewReader (log_of s) from = Ok r → start = nextLSN r → upto s <= start →
    start <= baseLSN (active (log_of s)) + count (active (log_of s)) → tailing w0 start s r []
| tail_log s s' r got :
    tailing w0 start s r got → step s s' → upto s' <= nextLSN r → tailing w0 start s' r got
| tail_next s r got E res r' :
    tailing w0 start s r got → dir_truthful E (Disk.view (dk (sw s))) →
    Next E (maxRecordBytes (opts (log_of s))) (log_of s) r = (res, r') →
    tailing w0 start s r' (got ++ match res with Ok e => [e] | Fail _ => [] end).

(** The cursor is not above the end of the log. *)
Definition within (bk : list (segment * list bytes)) (n : Z) : Prop :=
  ∃ s ps, (s, ps) ∈ bk ∧ n <= baseLSN s + len ps.

Lemma within_grown u bk bk' n : grown u bk bk' → within bk n → within bk' n.
Proof.
  intros Gr (s & ps & Hin & Hle). destruct (gr_top _ _ _ Gr s ps Hin) as (t & qs & Ht & ? & _).
  exists t, qs. split; [done | lia].
Qed.

Record tail_ok (init : list (Z * bytes)) (start : Z) (s : sys) (r : reader) (got : list (Z * bytes))
    (gs : list (list bytes)) (pa : list bytes) : Prop := {
  t_reader : reader_inv (book (log_of s) gs pa) r;
  t_start : start <= nextLSN r;
  t_passed : upto s <= nextLSN r;
  t_within : within (book (log_of s) gs pa) (nextLSN r);
  t_got : got = window start (nextLSN r) (history init s)
}.

Definition tail_inv (init : list (Z * bytes)) (start : Z) (s : sys) (r : reader) (got : list (Z * bytes)) : Prop :=
  ∃ gs pa fly st junk h flown old,
    good init s gs pa fly st junk h flown old ∧ tail_ok init start s r got gs pa.

Lemma tail_inv_log init start s s' r got :
  tail_inv init start s r got → step s s' → upto s' <= nextLSN r → tail_inv init start s' r got.
Proof.
  intros (gs & pa & fly & st & junk & h & flown & old & G & [Hr Hst Hp Hw Hg]) Hstep Hu.
  destruct (history_step G Hstep) as (new & Hh & Hb).
  destruct (good_step G Hstep) as (gs' & pa' & fly' & st' & junk' & h' & flown' & old' & G' & Gr).
  exists gs', pa', fly', st', junk', h', flown', old'. split; [done|]. split; [|done|done| |].
  - by apply (reader_grown (shelf_core (i_core _ _ _ _ _ _ _ _ _ _ G))
      (shelf_core (i_core _ _ _ _ _ _ _ _ _ _ G')) Gr).
  - by eapply within_grown.
  - rewrite Hh, window_app, (window_none _ _ new), app_nil_r; [done|].
    intros e He. destruct Hw as (t & ps & Ht & Hle). specialize (Hb t ps e Ht He). lia.
Qed.

Lemma tail_inv_next init start s r got E res r' :
  tail_inv init start s r got → dir_truthful E (Disk.view (dk (sw s))) →
  Next E (maxRecordBytes (opts (log_of s))) (log_of s) r = (res, r') →
  tail_inv init start s r' (got ++ match res with Ok e => [e] | Fail _ => [] end).
Proof.
  intros (gs & pa & fly & st & junk & h & flown & old & G & [Hr Hst Hp Hw Hg]) Ht H.
  pose proof (i_core _ _ _ _ _ _ _ _ _ _ G) as C. pose proof (history_sorted G) as Hs.
  destruct (Next_spec (shelf_core C) (dir_truthful_book _ _ _ _ _ _ _ _ C Ht) (snapshot_shows_all C) _ _ _ Hr H)
    as [Hr' Hres].
  exists gs, pa, fly, st, junk, h, flown, old. split; [done|].
  assert (Hvac : ∀ b, vacant (bk := book (log_of s) gs pa) (nextLSN r) b →
    ∀ e, e ∈ history init s → ¬ (nextLSN r <= e.1 < b)).
  { intros b Hv e He [H1 H2]. apply (history_held G) in He; [|lia].
    apply (book_records C) in He as (t & ps & Hbk & Hen). by apply (Hv t ps e). }
  destruct res as [[lsn p]|e].
  - destruct Hres as (Hle & Hva & Hn & t & ps & Hbk & Hen). pose proof (entries_lsn _ _ _ Hen) as Hin. simpl in Hin.
    split; [done | lia | lia | exists t, ps; split; [done | lia]|].
    rewrite Hg, Hn. symmetry. apply (window_snoc _ _ _ (lsn, p)); [done | | simpl; lia | by apply Hvac].
    apply (history_held G); [simpl; lia|]. apply (book_records C). eauto.
  - destruct Hres as (Hle & Hva & Hla). rewrite app_nil_r. split; [done | lia | lia | |].
    + destruct Hla as [->|(t & ps & Hbk & ->)]; [done|]. exists t, ps. split; [done|]. pose proof (len_nonneg ps). lia.
    + rewrite Hg. symmetry. apply window_ext; [done|]. by apply Hvac.
Qed.

Lemma tail_inv_new w0 gs0 pa0 s from r :
  fresh w0 gs0 pa0 → reachable w0 s → NewReader (log_of s) from = Ok r → upto s <= nextLSN r →
  nextLSN r <= baseLSN (active (log_of s)) + count (active (log_of s)) →
  tail_inv (all_records (lg w0) gs0 pa0) (nextLSN r) s r [].
Proof.
  intros F R Hnew Hu Hle.
  destruct (reachable_inv _ _ _ _ F R) as (gs & pa & fly & st & junk & h & flown & old & G).
  pose proof (i_core _ _ _ _ _ _ _ _ _ _ G) as C.
  exists gs, pa, fly, st, junk, h, flown, old. split; [done|]. split; [|lia|done| |].
  - by apply (NewReader_inv C from).
  - exists (active (log_of s)), pa. unfold log_of. rewrite (book_split C).
    split; [apply elem_of_app; right; by apply list_elem_of_singleton|].
    by rewrite <- (rep_count _ _ _ _ _ (c_active _ _ _ _ _ _ _ C)).
  - symmetry. apply window_none. intros. lia.
Qed.

Lemma tailing_inv w0 gs0 pa0 start s r got :
  fresh w0 gs0 pa0 → tailing w0 start s r got → tail_inv (all_records (lg w0) gs0 pa0) start s r got.
Proof.
  intros F. induction 1 as [s from r R Hn -> Hu Hle|s s' r got _ IH Hs Hu|s r got E res r' _ IH Ht Hn].
  - by eapply tail_inv_new.
  - by eapply tail_inv_log.
  - by eapply tail_inv_next.
Qed.

(** C16: the reader follows a running log exactly.  While records are staged,
    committed, rolled back, rotated away and truncated behind the cursor, in any
    interleaving with the calls of [Next] and whatever calls fail, the records
    returned so far are the records the log published between the reader's start
    and its cursor: all of them, once, in order, with their bytes. *)
Theorem tailing_reader_is_exact w0 gs0 pa0 start s r got :
  fresh w0 gs0 pa0 → tailing w0 start s r got →
  got = window start (nextLSN r)
    (all_records (lg w0) gs0 pa0 ++ acknowledged (log_of s) (staged s) ++ published (ph s) (staged s)).
Proof.
  intros F T. destruct (tailing_inv _ _ _ _ _ _ _ F T) as (gs & pa & fly & st & junk & h & flown & old & _ & K).
  apply (t_got _ _ _ _ _ _ _ K).
Qed.

(** *** A run *)

Lemma disk_files_truthful v : dir_truthful (disk_files v) v.
Proof. intros p c o n b Hp _ _ Hle. simpl. rewrite Hp. destruct (Z.leb_spec (o + n) (len c)); [|lia]. by intros [= <-]. Qed.

Definition nextOf (s : sys) (r : reader) : result (Z * bytes) * reader :=
  Next (disk_files (Disk.view (dk (sw s)))) (maxRecordBytes (opts (log_of s))) (log_of s) r.

Lemma tail_nextOf w0 start s r got e r' :
  tailing w0 start s r got → nextOf s r = (Ok e, r') → tailing w0 start s r' (got ++ [e]).
Proof. intros T H. apply (tail_next _ _ _ _ _ _ _ _ T (disk_files_truthful _) H). Qed.

Lemma tail_nextOf_err w0 start s r got e r' :
  tailing w0 start s r got → nextOf s r = (Fail e, r') → tailing w0 start s r' got.
Proof.
  intros T H. rewrite <- (app_nil_r got). apply (tail_next _ _ _ _ _ _ _ _ T (disk_files_truthful _) H).
Qed.

Lemma tailing_runs w0 start r got s s' :
  upto s <= nextLSN r ∧ tailing w0 start s r got → running s s' → upto s' <= nextLSN r ∧ tailing w0 start s' r got.
Proof.
  intros [Hu T] H. pose proof (running_upto _ _ H). split; [lia|].
  apply (tail_log _ _ _ _ _ _ T (step_running _ _ H)). lia.
Qed.

(** Opened on the empty log of LogSteps.v, which then commits two records; one
    is read; a round fails, a round commits, and the first segment goes. *)
Definition ex_r0 : reader :=
  match NewReader (log_of ex_s0) 1 with Ok r => r | Fail _ => Rd [] 0 0 0 false [] 0 0 [] (-1) end.
Definition ex_r1 : reader := (nextOf ex_s0 ex_r0).2.
Definition ex_r2 : reader := (nextOf ex_s1 ex_r1).2.
Definition ex_s4 : sys := Sys (Truncate 2 (sw ex_s3)).2 (ph ex_s3) (staged ex_s3) 2.
Definition ex_r3 : reader := (nextOf ex_s4 ex_r2).2.
Definition ex_r4 : reader := (nextOf ex_s4 ex_r3).2.

Lemma ex_tailing : tailing (ex_world ex_plan) 1 ex_s4 ex_r4 [(1, p1); (2, p2); (3, p1)].
Proof.
  pose proof (tailing_runs (ex_world ex_plan) 1) as Run.
  assert (T0 : tailing (ex_world ex_plan) 1 ex_s0 ex_r0 []).
  { apply (tail_new _ _ _ 1); [constructor | by vm_compute | by vm_compute | by vm_compute | by vm_compute]. }
  assert (T1 : tailing (ex_world ex_plan) 1 ex_s0 ex_r1 []).
  { apply (tail_nextOf_err _ _ _ _ _ (Sentinel NoData) _ T0). by vm_compute. }
  assert (T2 : upto ex_s1 <= nextLSN ex_r1 ∧ tailing (ex_world ex_plan) 1 ex_s1 ex_r1 []).
  { apply (round_trip_run _ (Run _ _) _ _ 2); [split; [by vm_compute | done] | done | done | done | by vm_compute]. }
  assert (T3 : tailing (ex_world ex_plan) 1 ex_s1 ex_r2 [(1, p1)]).
  { apply (tail_nextOf _ _ _ _ [] _ _ (proj2 T2)). by vm_compute. }
  assert (T4 : upto ex_s2 <= nextLSN ex_r2 ∧ tailing (ex_world ex_plan) 1 ex_s2 ex_r2 [(1, p1)]).
  { apply (round_trip_run _ (Run _ _) _ _ 3); [split; [by vm_compute | done] | done | done | unfold room; by vm_compute | by vm_compute]. }
  assert (T5 : upto ex_s3 <= nextLSN ex_r2 ∧ tailing (ex_world ex_plan) 1 ex_s3 ex_r2 [(1, p1)]).
  { apply (round_trip_run _ (Run _ _) _ _ 3); [exact T4 | done | done | unfold room; by vm_compute | by vm_compute]. }
  assert (T6 : tailing (ex_world ex_plan) 1 ex_s4 ex_r2 [(1, p1)]).
  { apply (tail_log _ _ _ _ _ _ (proj2 T5)); [|by vm_compute].
    apply (step_truncate ex_s3 2 (Truncate 2 (sw ex_s3)).1). by destruct (Truncate 2 (sw ex_s3)). }
  assert (T7 : tailing (ex_world ex_plan) 1 ex_s4 ex_r3 ([(1, p1)] ++ [(2, p2)])).
  { apply (tail_nextOf _ _ _ _ _ _ _ T6). by vm_compute. }
  apply (tail_nextOf _ _ _ _ _ (3, p1) ex_r4 T7). by vm_compute.
Qed.

Lemma tailing_reader_is_exact_witness :
  tailing (ex_world ex_plan) 1 ex_s4 ex_r4 [(1, p1); (2, p2); (3, p1)] ∧
  [(1, p1); (2, p2); (3, p1)] = window 1 (nextLSN ex_r4)
    ([] ++ acknowledged (log_of ex_s4) (staged ex_s4) ++ published (ph ex_s4) (staged ex_s4)).
Proof.
  split; [exact ex_tailing|].
  exact (tailing_reader_is_exact _ _ _ _ _ _ _ (ex_fresh ex_plan) ex_tailing).
Defined.

End Tail.
