(* ===== verification/Tracker.v ===== *)
(** * The acknowledgement tracker (src/internal_support.go)

    [ackTracker] turns completions that arrive in any order into a low-water
    mark.  The flusher's ranges tile the numbering: each starts right behind
    the one before it.  Against such a tiling the tracker is proved to compute
    the end of the longest prefix of completed ranges, to give the capacity of
    exactly that prefix back, and to come out the same whatever the order. *)

From S2P Require Import Prelude.
Local Open Scope Z_scope.
Local Open Scope go_scope.

Module Tracker.

(** [acked]: a completed range waiting for the mark, with its capacity. *)
Record acked := Acked { last : Z; acount : Z; abytes : Z }.

Record ackTracker := AckTracker { low : Z; done : gmap Z acked }.

Definition newAckTracker (low : Z) : ackTracker := AckTracker low ∅.

(** The [for] loop of [ack].  Every turn removes an entry, so [size done] turns
    are enough. *)
Fixpoint absorb (fuel : nat) (a : ackTracker) (freedCount freedBytes : Z) : ackTracker * Z * Z :=
  match fuel with
  | O => (a, freedCount, freedBytes)
  | S fuel =>
      match done a !! (low a +u 1) with
      | None => (a, freedCount, freedBytes)
      | Some next =>
          absorb fuel (AckTracker (last next) (delete (low a +u 1) (done a)))
            (i64 (freedCount + acount next)) (i64 (freedBytes + abytes next))
      end
  end.

(** [ack]: the tracker, the mark, and the capacity freed. *)
Definition ack (first lst count bytes : Z) (a : ackTracker) : ackTracker * Z * Z * Z :=
  if negb (first =? low a +u 1)
  then (AckTracker (low a) (<[first := Acked lst count bytes]> (done a)), low a, 0, 0)
  else
    let '(a', fc, fb) := absorb (size (done a)) (AckTracker lst (done a)) count bytes in
    (a', low a', fc, fb).

Definition mark (a : ackTracker) : Z := low a.

(** ** Tilings *)

(** A range of numbers and the capacity its records hold. *)
Record range := Range { from : Z; to : Z; rcount : Z; rbytes : Z }.

Fixpoint tiles (low : Z) (rs : list range) : Prop :=
  match rs with
  | [] => True
  | r :: rs => from r = low + 1 ∧ from r <= to r < maxU64 ∧ tiles (to r) rs
  end.

Definition entry (r : range) : acked := Acked (to r) (rcount r) (rbytes r).
Definition endOf (low : Z) (rs : list range) : Z := List.last (map to rs) low.
Definition sumBy (f : range → Z) (rs : list range) : Z := foldr (λ r s, f r + s) 0 rs.

Lemma endOf_cons l0 x l : endOf l0 (x :: l) = endOf (to x) l.
Proof.
  unfold endOf. simpl. destruct (map to l) as [|y m]; [done|].
  revert y. induction m as [|z m IH]; intros y; [done|]. simpl in *. destruct m; [done|]. apply (IH z).
Qed.

Lemma endOf_snoc l0 l x : endOf l0 (l ++ [x]) = to x.
Proof. unfold endOf. rewrite map_app. apply List.last_last. Qed.

Lemma tiles_snoc l x : ∀ l0, tiles l0 l → from x = endOf l0 l + 1 → from x <= to x < maxU64 →
  tiles l0 (l ++ [x]).
Proof.
  induction l as [|y l IH]; intros l0; simpl.
  - intros _ -> ?. done.
  - rewrite endOf_cons. intros (? & ? & ?) E ?. split; [done|]. split; [done|]. by apply IH.
Qed.

Section tiling.
Context (low0 : Z) (rs : list range).
Context (H0 : 0 <= low0 < maxU64) (Ht : tiles low0 rs).

Lemma tiles_bounds l l0 : 0 <= l0 < maxU64 → tiles l0 l → ∀ i r, l !! i = Some r →
  from r = endOf l0 (take i l) + 1 ∧ endOf l0 (take (S i) l) = to r ∧
  0 <= endOf l0 (take i l) < maxU64 ∧ from r <= to r < maxU64.
Proof.
  revert l0. induction l as [|x l IH]; intros l0 Hl0 Hl i r Hi; [done|].
  destruct Hl as (Hf & Hr & Hl). destruct i as [|i].
  - injection Hi as ->. simpl. unfold endOf. simpl. lia.
  - simpl in Hi. destruct (IH (to x) ltac:(lia) Hl i r Hi) as (H1 & H2 & H3 & H4).
    simpl. by rewrite !endOf_cons.
Qed.

(** Later ranges start higher. *)
Lemma tiles_mono l l0 : 0 <= l0 < maxU64 → tiles l0 l → ∀ i j r r', (i < j)%nat →
  l !! i = Some r → l !! j = Some r' → to r < from r'.
Proof.
  revert l0. induction l as [|x l IH]; intros l0 Hl0 Hl i j r r' Hij Hi Hj; [done|].
  destruct Hl as (Hf & Hr & Hl). destruct j as [|j]; [lia|]. simpl in Hj.
  destruct i as [|i].
  - injection Hi as ->. clear IH Hij.
    assert (Hge : ∀ l z, tiles z l → ∀ j r', l !! j = Some r' → z < from r').
    { clear. intros l. induction l as [|y l IH]; intros z Hl j r' Hj; [done|].
      destruct Hl as (Hf & Hr & Hl). destruct j; [injection Hj as <-; lia|].
      specialize (IH (to y) Hl j r' Hj). lia. }
    by eapply Hge.
  - simpl in Hi. eapply (IH (to x) ltac:(lia) Hl i j); [lia | done | done].
Qed.

Lemma from_inj i j r r' : rs !! i = Some r → rs !! j = Some r' → from r = from r' → i = j.
Proof using H0 Ht.
  intros Hi Hj E. pose proof (tiles_bounds rs low0 H0 Ht i r Hi) as (_ & _ & _ & H1).
  pose proof (tiles_bounds rs low0 H0 Ht j r' Hj) as (_ & _ & _ & H2).
  destruct (decide (i = j)) as [|Hne]; [done|]. exfalso.
  destruct (decide (i < j)%nat) as [Hlt|Hge].
  - pose proof (tiles_mono rs low0 H0 Ht i j r r' Hlt Hi Hj). lia.
  - pose proof (tiles_mono rs low0 H0 Ht j i r' r ltac:(lia) Hj Hi). lia.
Qed.

Lemma next_first k : (k <= length rs)%nat → 0 <= endOf low0 (take k rs) < maxU64.
Proof using H0 Ht.
  intros Hk. destruct k as [|k]; [done|].
  destruct (lookup_lt_is_Some_2 rs k ltac:(lia)) as [r Hr].
  destruct (tiles_bounds rs low0 H0 Ht k r Hr) as (_ & -> & _ & Hb). unfold maxU64 in *.
  pose proof (tiles_bounds rs low0 H0 Ht k r Hr) as (H1 & _ & H2 & _). lia.
Qed.

(** What [done] holds while the first [k] ranges are below the mark. *)
Definition waits (A : gset nat) (k : nat) (d : gmap Z acked) : Prop :=
  ∀ x e, d !! x = Some e ↔ ∃ i r, rs !! i = Some r ∧ i ∈ A ∧ (k <= i)%nat ∧ x = from r ∧ e = entry r.

Lemma waits_next A k d r : waits A k d → rs !! k = Some r → k ∈ A → d !! from r = Some (entry r).
Proof. intros W Hr HA. apply W. by exists k, r. Qed.

Lemma waits_none A k d : waits A k d → (k <= length rs)%nat → k ∉ A →
  d !! (endOf low0 (take k rs) + 1) = None.
Proof using H0 Ht.
  intros W Hk HA. apply eq_None_not_Some. intros [e He].
  apply W in He as (i & r & Hr & HiA & Hki & Hx & _).
  assert (k < i)%nat by (destruct (decide (i = k)) as [->|]; [done | lia]).
  pose proof (lookup_lt_Some _ _ _ Hr). destruct (lookup_lt_is_Some_2 rs k ltac:(lia)) as [rk Hrk].
  destruct (tiles_bounds rs low0 H0 Ht k rk Hrk) as (Hf & _).
  assert (k = i) by (eapply from_inj; [done..|lia]). lia.
Qed.

Lemma waits_delete A k d r : waits A k d → rs !! k = Some r → waits A (S k) (delete (from r) d).
Proof using H0 Ht.
  intros W Hr x e. rewrite lookup_delete_Some, (W x e). split.
  - intros (Hne & i & r' & Hr' & HA & Hki & -> & ->). exists i, r'. repeat split; [done..|].
    destruct (decide (i = k)) as [->|]; [|lia]. by simplify_eq.
  - intros (i & r' & Hr' & HA & Hki & -> & ->). split.
    + intros E. pose proof (from_inj _ _ _ _ Hr Hr' E). lia.
    + exists i, r'. repeat split; [done..|lia].
Qed.

Lemma waits_insert A k d i r : waits A k d → rs !! i = Some r → (k <= i)%nat → i ∉ A →
  waits ({[i]} ∪ A) k (<[from r := entry r]> d).
Proof using H0 Ht.
  intros W Hr Hki HA x e. rewrite lookup_insert_Some, (W x e). split.
  - intros [[<- <-] | (Hne & j & r' & Hr' & HjA & Hkj & -> & ->)]; [exists i, r | exists j, r'];
      repeat split; set_solver.
  - intros (j & r' & Hr' & HjA & Hkj & -> & ->). destruct (decide (j = i)) as [->|Hne].
    + simplify_eq. by left.
    + right. split; [by intros E; pose proof (from_inj _ _ _ _ Hr Hr' E)|].
      exists j, r'. repeat split; set_solver.
Qed.

Lemma waits_front A k d : waits A k d → k ∉ A → waits ({[k]} ∪ A) (S k) d.
Proof.
  intros W HA x e. rewrite (W x e). split; intros (i & r & Hr & HiA & Hki & -> & ->); exists i, r.
  - assert (i ≠ k) by (by intros ->). repeat split; [done | set_solver | lia].
  - assert (i ≠ k) by lia. repeat split; [done | set_solver | lia].
Qed.

(** The tracker after the ranges [A] of the tiling have been acknowledged: the
    mark is the end of the first [k], the completed ones beyond it wait. *)
Record tracks (A : gset nat) (k : nat) (a : ackTracker) : Prop := {
  t_dom : ∀ i, i ∈ A → (i < length rs)%nat;
  t_len : (k <= length rs)%nat;
  t_low : low a = endOf low0 (take k rs);
  t_below : ∀ i, (i < k)%nat → i ∈ A;
  t_next : k ∉ A;
  t_done : waits A k (done a)
}.

(** The capacity of the ranges from the [k]th up to the [k']th. *)
Definition between (k k' : nat) : list range := take (k' - k) (drop k rs).

Lemma sumBy_app f l l' : sumBy f (l ++ l') = sumBy f l + sumBy f l'.
Proof. induction l as [|r l IH]; simpl; [done|]. unfold sumBy in *. simpl. lia. Qed.

Lemma sumBy_between f k k' : (k <= k')%nat →
  sumBy f (take k' rs) = sumBy f (take k rs) + sumBy f (between k k').
Proof.
  intros Hk. unfold between. rewrite <- sumBy_app, take_take_drop. do 2 f_equal. lia.
Qed.

Lemma i64_add x y : i64 (i64 x + y) = i64 (x + y).
Proof.
  unfold i64. f_equal.
  replace ((x + 9223372036854775808) mod 18446744073709551616 - 9223372036854775808 + y
           + 9223372036854775808) with ((x + 9223372036854775808) mod 18446744073709551616 + y) by lia.
  rewrite Zplus_mod_idemp_l. f_equal. lia.
Qed.

(** The loop stops at the first range that is not completed, and the fuel is
    enough. *)
Lemma absorb_spec fuel : ∀ A k d c b,
  (∀ i, i ∈ A → (i < length rs)%nat) → (k <= length rs)%nat → waits A k d → (size d <= fuel)%nat →
  ∃ k' d', (k <= k' <= length rs)%nat ∧ (∀ i, (k <= i < k')%nat → i ∈ A) ∧ (k' ∉ A) ∧ waits A k' d' ∧
    absorb fuel (AckTracker (endOf low0 (take k rs)) d) (i64 c) (i64 b) =
      (AckTracker (endOf low0 (take k' rs)) d',
       i64 (c + sumBy rcount (between k k')), i64 (b + sumBy rbytes (between k k'))).
Proof using H0 Ht.
  induction fuel as [|fuel IH]; intros A k d c b Hd Hk W Hs.
  - assert (d = ∅) as -> by (apply map_size_empty_inv; lia).
    assert (Hn : k ∉ A).
    { intros HA. destruct (lookup_lt_is_Some_2 rs k (Hd k HA)) as [r Hr].
      by pose proof (waits_next _ _ _ _ W Hr HA). }
    exists k, ∅. unfold between. rewrite Nat.sub_diag, !take_0. simpl.
    repeat split; [lia.. | intros; lia | done | apply W | apply W |].
    unfold sumBy. simpl. by rewrite !Z.add_0_r.
  - simpl. pose proof (next_first k Hk) as Hl.
    assert ((endOf low0 (take k rs) +u 1)%go = endOf low0 (take k rs) + 1) as ->
      by (apply u64_id; unfold is_u64, maxU64 in *; lia).
    destruct (decide (k ∈ A)) as [HA|HA].
    + destruct (lookup_lt_is_Some_2 rs k (Hd k HA)) as [r Hr].
      destruct (tiles_bounds rs low0 H0 Ht k r Hr) as (Hf & He & _).
      rewrite <- Hf, (waits_next _ _ _ _ W Hr HA). simpl.
      rewrite <- He, !i64_add.
      assert (Hks : (S k <= length rs)%nat) by (apply lookup_lt_Some in Hr; lia).
      assert (Hss : (size (delete (from r) d) <= fuel)%nat).
      { rewrite map_size_delete_Some by (eexists; by eapply waits_next). lia. }
      destruct (IH A (S k) _ (c + rcount r) (b + rbytes r) Hd Hks (waits_delete _ _ _ _ W Hr) Hss)
        as (k' & d' & Hk' & Hin & Hout & W' & E).
      exists k', d'. split; [lia|]. split.
      { intros i Hi. destruct (decide (i = k)) as [->|]; [done|]. apply Hin. lia. }
      split; [done|]. split; [done|].
      assert (EB : between k k' = r :: between (S k) k').
      { unfold between. rewrite (drop_S _ _ _ Hr). by replace (k' - k)%nat with (S (k' - S k)) by lia. }
      rewrite E, EB. unfold sumBy. simpl. by rewrite !Z.add_assoc.
    + rewrite (waits_none _ _ _ W Hk HA).
      exists k, d. unfold between. rewrite Nat.sub_diag, !take_0. simpl.
      repeat split; [lia.. | intros; lia | done | apply W | apply W |].
      unfold sumBy. simpl. by rewrite !Z.add_0_r.
Qed.

Lemma tracks_new : tracks ∅ 0 (newAckTracker low0).
Proof.
  constructor; [set_solver | lia | done | lia | set_solver |].
  intros x e. simpl. rewrite lookup_empty. split; [done|]. intros (i & r & _ & Hi & _). set_solver.
Qed.

(** One acknowledgement, on both branches: the mark moves from the [k]th range
    to the first one still open and gives the capacity in between back. *)
Lemma ack_spec A k a i r :
  tracks A k a → rs !! i = Some r → i ∉ A →
  (i64 (rcount r) = rcount r) → (i64 (rbytes r) = rbytes r) →
  ∃ a' k', ack (from r) (to r) (rcount r) (rbytes r) a =
             (a', low a', i64 (sumBy rcount (between k k')), i64 (sumBy rbytes (between k k'))) ∧
           (k <= k')%nat ∧ tracks ({[i]} ∪ A) k' a'.
Proof using H0 Ht.
  intros T Hr Hi Hc Hb. destruct T as [Hd Hl Hlow Hbel Hnx W]. unfold ack. rewrite Hlow.
  pose proof (next_first k Hl) as Hn. pose proof (lookup_lt_Some _ _ _ Hr) as Hil.
  assert (Hki : (k <= i)%nat) by (destruct (decide (i < k)%nat); [by destruct Hi; apply Hbel | lia]).
  destruct (tiles_bounds rs low0 H0 Ht i r Hr) as (Hf & He & _).
  assert (Hd' : ∀ j, j ∈ {[i]} ∪ A → (j < length rs)%nat).
  { intros j [->%elem_of_singleton | HA]%elem_of_union; auto. }
  assert ((endOf low0 (take k rs) +u 1)%go = endOf low0 (take k rs) + 1) as ->
    by (apply u64_id; unfold is_u64, maxU64 in *; lia).
  destruct (decide (i = k)) as [->|Hne].
  - rewrite <- Hf, Z.eqb_refl. simpl. rewrite <- He, <- Hc, <- Hb.
    destruct (absorb_spec (size (done a)) ({[k]} ∪ A) (S k) (done a) (rcount r) (rbytes r)) as
      (k' & d' & Hk' & Hin & Hout & W' & ->); [done | lia | by apply waits_front | done |].
    exists (AckTracker (endOf low0 (take k' rs)) d'), k'. simpl.
    assert (EB : between k k' = r :: between (S k) k').
    { unfold between. rewrite (drop_S _ _ _ Hr). by replace (k' - k)%nat with (S (k' - S k)) by lia. }
    rewrite EB. split; [done|]. split; [lia|]. constructor; simpl; [done | lia | done | | done | done].
    intros j Hj. destruct (decide (j < k)%nat) as [Hjk|]; [by apply elem_of_union_r, Hbel|].
    destruct (decide (j = k)) as [->|]; [set_solver | apply Hin; lia].
  - assert (from r ≠ endOf low0 (take k rs) + 1) as Hx.
    { destruct (lookup_lt_is_Some_2 rs k ltac:(lia)) as [rk Hrk].
      destruct (tiles_bounds rs low0 H0 Ht k rk Hrk) as (Hfk & _). rewrite <- Hfk.
      intros E. by pose proof (from_inj _ _ _ _ Hr Hrk E). }
    apply Z.eqb_neq in Hx. rewrite Hx. simpl.
    exists (AckTracker (endOf low0 (take k rs)) (<[from r:=entry r]> (done a))), k.
    unfold between. rewrite Nat.sub_diag. split; [done|]. split; [done|].
    constructor; simpl; [done | done | done | | set_solver | by apply waits_insert].
    intros j Hj. by apply elem_of_union_r, Hbel.
Qed.

(** Ranges completed one after the other, adding up what each call frees. *)
Fixpoint acks (js : list nat) (a : ackTracker) (fc fb : Z) : option (ackTracker * Z * Z) :=
  match js with
  | [] => Some (a, fc, fb)
  | i :: js =>
      r ← rs !! i;
      let '(a, _, c, b) := ack (from r) (to r) (rcount r) (rbytes r) a in
      acks js a (i64 (fc + c)) (i64 (fb + b))
  end.

(** Capacities that fit an [int64]. *)
Definition fitting : Prop := ∀ i r, rs !! i = Some r → i64 (rcount r) = rcount r ∧ i64 (rbytes r) = rbytes r.

Lemma i64_add_r x y : i64 (x + i64 y) = i64 (x + y).
Proof. by rewrite Z.add_comm, i64_add, Z.add_comm. Qed.

Lemma acks_spec js : ∀ A k a,
  fitting → tracks A k a → NoDup js → (∀ i, i ∈ js → (i ∉ A) ∧ (i < length rs)%nat) →
  ∃ a' k', acks js a (i64 (sumBy rcount (take k rs))) (i64 (sumBy rbytes (take k rs))) =
             Some (a', i64 (sumBy rcount (take k' rs)), i64 (sumBy rbytes (take k' rs))) ∧
           (k <= k')%nat ∧ tracks (list_to_set js ∪ A) k' a'.
Proof using H0 Ht.
  induction js as [|i js IH]; intros A k a F T Hnd Hjs.
  - exists a, k. split; [done|]. split; [done|].
    by replace (list_to_set [] ∪ A) with A by set_solver.
  - apply NoDup_cons in Hnd as [Hni Hnd]. destruct (Hjs i ltac:(left)) as [HiA Hil].
    destruct (lookup_lt_is_Some_2 rs i Hil) as [r Hr]. destruct (F i r Hr) as [Fc Fb].
    destruct (ack_spec A k a i r T Hr HiA Fc Fb) as (a1 & k1 & E1 & Hk1 & T1).
    destruct (IH ({[i]} ∪ A) k1 a1 F T1 Hnd) as (a2 & k2 & E2 & Hk2 & T2).
    { intros j Hj. destruct (Hjs j ltac:(by right)) as [HjA Hjl]. split; [|done].
      intros [->%elem_of_singleton | ?]%elem_of_union; done. }
    exists a2, k2. simpl. rewrite Hr. simpl. rewrite E1, !i64_add_r, !i64_add.
    rewrite <- !sumBy_between by done. split; [done|]. split; [lia|].
    by replace ({[i]} ∪ list_to_set js ∪ A) with (list_to_set js ∪ ({[i]} ∪ A)) by set_solver.
Qed.

Definition settled (js : list nat) : Prop := NoDup js ∧ ∀ i, i ∈ js → (i < length rs)%nat.

Lemma acks_new js : fitting → settled js →
  ∃ a k, acks js (newAckTracker low0) 0 0 =
           Some (a, i64 (sumBy rcount (take k rs)), i64 (sumBy rbytes (take k rs))) ∧
         tracks (list_to_set js) k a.
Proof using H0 Ht.
  intros F [Hnd Hjs].
  destruct (acks_spec js ∅ 0 (newAckTracker low0) F tracks_new Hnd) as (a & k & E & _ & T).
  { intros i Hi. split; [set_solver | by apply Hjs]. }
  exists a, k. split; [done|]. by replace (list_to_set js : gset nat) with (list_to_set js ∪ (∅ : gset nat)) by set_solver.
Qed.

(** C28: whatever order ranges complete in, the mark is the end of the longest
    prefix of completed ranges: everything at or below it is handled, the range
    right behind it is not, and exactly the capacity of that prefix has been
    given back by all the calls together. *)
Theorem mark_is_the_completed_prefix js : fitting → settled js →
  ∃ a k, acks js (newAckTracker low0) 0 0 =
           Some (a, i64 (sumBy rcount (take k rs)), i64 (sumBy rbytes (take k rs))) ∧
         mark a = endOf low0 (take k rs) ∧ (k <= length rs)%nat ∧
         (∀ i, (i < k)%nat → i ∈ js) ∧ (k ∉ js) ∧
         (∀ i r, i ∈ js → rs !! i = Some r → (k <= i)%nat → done a !! from r = Some (entry r)).
Proof using H0 Ht.
  intros F S. destruct (acks_new js F S) as (a & k & E & [Hd Hl Hlow Hbel Hnx W]).
  exists a, k. unfold mark. repeat split; [done..| | |].
  - intros i Hi. specialize (Hbel i Hi). set_solver.
  - set_solver.
  - intros i r Hi Hr Hk. apply W. exists i, r. repeat split; [done | set_solver | done].
Qed.

(** Once every range has completed, in any order, the mark is the end of
    the last one, nothing waits any more and all the capacity is back: the
    result does not depend on the order. *)
Theorem completion_order_is_irrelevant js : fitting → js ≡ₚ seq 0 (length rs) →
  acks js (newAckTracker low0) 0 0 =
    Some (AckTracker (endOf low0 rs) ∅, i64 (sumBy rcount rs), i64 (sumBy rbytes rs)).
Proof using H0 Ht.
  intros F P.
  assert (Hin : ∀ i, i ∈ js ↔ (i < length rs)%nat).
  { intros i. rewrite P, elem_of_seq. lia. }
  destruct (acks_new js F) as (a & k & -> & [Hd Hl Hlow Hbel Hnx W]).
  { split; [rewrite P; apply NoDup_seq | intros i Hi; by apply Hin]. }
  assert (k = length rs) as ->.
  { destruct (decide (k < length rs)%nat) as [Hlt|]; [|lia]. exfalso. apply Hnx.
    apply elem_of_list_to_set. by apply Hin. }
  rewrite firstn_all in *. destruct a as [l d]. simpl in *. subst l.
  assert (d = ∅) as ->; [|done]. apply map_eq. intros x. rewrite lookup_empty.
  apply eq_None_not_Some. intros [e (i & r & Hr & _ & Hi & _)%W].
  apply lookup_lt_Some in Hr. lia.
Qed.
End tiling.

(** More ranges behind change nothing for the tracker. *)
Lemma tracks_app low0 rs rs' A k a : tracks low0 rs A k a → tracks low0 (rs ++ rs') A k a.
Proof.
  intros [Hd Hl Hlow Hbel Hnx W].
  constructor; [| |by rewrite take_app_le | done | done |].
  - intros i Hi. rewrite length_app. specialize (Hd i Hi). lia.
  - rewrite length_app. lia.
  - intros x e. rewrite (W x e). split; intros (i & r & Hr & HA & Hki & E); exists i, r.
    + by rewrite lookup_app_l by (by apply Hd).
    + by rewrite lookup_app_l in Hr by (by apply Hd).
Qed.

Lemma tiles_app_l l l' : ∀ l0, tiles l0 (l ++ l') → tiles l0 l.
Proof. induction l as [|x l IH]; intros l0; simpl; [done|]. intros (? & ? & ?). naive_solver. Qed.

(** The mark does not move back. *)
Lemma endOf_mono low0 rs k k' : 0 <= low0 < maxU64 → tiles low0 rs → (k <= k' <= length rs)%nat →
  endOf low0 (take k rs) <= endOf low0 (take k' rs).
Proof.
  intros H0 Ht Hk. destruct (decide (k = k')) as [->|Hne]; [lia|].
  destruct (lookup_lt_is_Some_2 rs k ltac:(lia)) as [r Hr].
  destruct k' as [|k']; [lia|]. destruct (lookup_lt_is_Some_2 rs k' ltac:(lia)) as [r' Hr'].
  destruct (tiles_bounds rs low0 H0 Ht k r Hr) as (Hf & _ & _ & Hb).
  destruct (tiles_bounds rs low0 H0 Ht k' r' Hr') as (_ & -> & _ & Hb').
  destruct (decide (k = k')) as [->|Hne']; [simplify_eq; lia|].
  pose proof (tiles_mono rs low0 H0 Ht k k' r r' ltac:(lia) Hr Hr'). lia.
Qed.

(** Three batches, the middle one last. *)
Definition ex_ranges : list range := [Range 11 13 3 30; Range 14 14 1 7; Range 15 20 6 60].

Lemma ex_tiles : tiles 10 ex_ranges.
Proof. unfold ex_ranges, maxU64. simpl. repeat split; lia. Qed.

Lemma ex_fitting : fitting ex_ranges.
Proof. intros i r Hr. do 3 (destruct i as [|i]; [by injection Hr as <-|]). done. Qed.

Lemma mark_is_the_completed_prefix_witness :
  ∃ a k, acks ex_ranges [2; 0]%nat (newAckTracker 10) 0 0 =
           Some (a, i64 (sumBy rcount (take k ex_ranges)), i64 (sumBy rbytes (take k ex_ranges))) ∧
         mark a = endOf 10 (take k ex_ranges).
Proof.
  destruct (mark_is_the_completed_prefix 10 ex_ranges ltac:(unfold maxU64; lia) ex_tiles [2; 0]%nat ex_fitting)
    as (a & k & E & M & _); [|by exists a, k].
  split; [by apply (bool_decide_unpack _) | intros i Hi; simpl]. set_unfold. lia.
Defined.

Lemma completion_order_is_irrelevant_witness :
  acks ex_ranges [2; 0; 1]%nat (newAckTracker 10) 0 0 = Some (AckTracker 20 ∅, 10, 97).
Proof.
  rewrite (completion_order_is_irrelevant 10 ex_ranges ltac:(unfold maxU64; lia) ex_tiles [2; 0; 1]%nat ex_fitting).
  - reflexivity.
  - simpl. by rewrite (Permutation_app_comm [2%nat] [0; 1]%nat).
Defined.

End Tracker.
