(* ===== verification/Age.v ===== *)
(** * The age tracker (src/internal_support.go)

    [ageTracker] approximates how long the oldest unflushed record has waited
    with a bounded queue of marks.  The theorems bound the error in both
    directions and show that a backlog that is not there leaves no mark. *)

From S2P Require Import Prelude.
Local Open Scope Z_scope.

Module Age.

(** [ageMark]: the highest number covered and the time it was opened at. *)
Record ageMark := AgeMark { lsn : Z; at_ : Z }.

Record ageTracker := AgeTracker { marks : list ageMark; trimmed : Z }.

Definition ageGranularity : Z := 100000000.
Definition ageMaxMarks : Z := 512.

(** The merging loop of [note]: adjacent pairs, with the earlier time and the
    higher number. *)
Fixpoint halve (l : list ageMark) : list ageMark :=
  match l with
  | m :: m' :: l => AgeMark (lsn m') (at_ m) :: halve l
  | l => l
  end.

(** The last mark and those before it. *)
Fixpoint unsnoc (l : list ageMark) : option (list ageMark * ageMark) :=
  match l with
  | [] => None
  | m :: l => match unsnoc l with
              | None => Some ([], m)
              | Some (l, n) => Some (m :: l, n)
              end
  end.

(** The end of [note]: make room if the queue is full, then append. *)
Definition appendMark (n now : Z) (a : ageTracker) : ageTracker :=
  let ms := if ageMaxMarks <=? len (marks a) then halve (marks a) else marks a in
  AgeTracker (ms ++ [AgeMark n now]) (trimmed a).

Definition note (n now : Z) (a : ageTracker) : ageTracker :=
  if n <=? trimmed a then a
  else match unsnoc (marks a) with
       | None => appendMark n now a
       | Some (ms, m) =>
           if n <=? lsn m then a
           else if i64 (now - at_ m) <? ageGranularity
           then AgeTracker (ms ++ [AgeMark n (at_ m)]) (trimmed a)
           else appendMark n now a
       end.

(** The scan of [trim]: marks wholly covered by [mark] go. *)
Fixpoint dropCovered (mark : Z) (l : list ageMark) : list ageMark :=
  match l with
  | m :: l' => if lsn m <=? mark then dropCovered mark l' else l
  | [] => []
  end.

Definition trim (mark : Z) (a : ageTracker) : ageTracker :=
  AgeTracker (dropCovered mark (marks a)) (Z.max (trimmed a) mark).

Definition oldest (now : Z) (a : ageTracker) : Z :=
  match marks a with
  | [] => 0
  | m :: _ => i64 (now - at_ m)
  end.

(** ** Histories *)

Inductive event := Noted (n now : Z) | Trimmed (mark : Z).

Definition apply (a : ageTracker) (e : event) : ageTracker :=
  match e with Noted n now => note n now a | Trimmed m => trim m a end.

(** The zero value the buffer starts from, then the events in order. *)
Definition run (es : list event) : ageTracker := foldl apply (AgeTracker [] 0) es.

(** The highest number acknowledged. *)
Definition ackedUpTo (es : list event) : Z :=
  foldl (λ x e, match e with Trimmed m => Z.max x m | _ => x end) 0 es.

(** Clock readings of a few centuries: no difference of two of them wraps. *)
Definition clock (t : Z) : Prop := 0 <= t < 4611686018427387904.

(** Writers read the clock before they take the lock, so notes may come in up
    to [δ] out of order. *)
Definition skewed (δ : Z) (es : list event) : Prop :=
  ∀ i j n t n' t', (i < j)%nat → es !! i = Some (Noted n t) → es !! j = Some (Noted n' t') → t - δ <= t'.

Definition clocked (es : list event) : Prop := ∀ n t, Noted n t ∈ es → clock t.

(** ** The queue *)

Definition rising (l : list ageMark) : Prop :=
  StronglySorted (λ m m', lsn m < lsn m' ∧ at_ m + ageGranularity <= at_ m') l.

(** What holds of the tracker after the events [es]. *)
Record ages (δ : Z) (es : list event) (a : ageTracker) : Prop := {
  a_trim : trimmed a = ackedUpTo es;
  a_rising : rising (marks a);
  a_size : len (marks a) <= ageMaxMarks;
  a_open : Forall (λ m, trimmed a < lsn m) (marks a);
  a_noted : Forall (λ m, ∃ t, Noted (lsn m) t ∈ es) (marks a);
  a_times : Forall (λ m, ∃ n, Noted n (at_ m) ∈ es) (marks a);
  a_covers : ∀ n t, Noted n t ∈ es → trimmed a < n →
               ∃ m, m ∈ marks a ∧ n <= lsn m ∧ at_ m <= t + δ
}.

Lemma unsnoc_spec l : match unsnoc l with None => l = [] | Some (k, m) => l = k ++ [m] end.
Proof. induction l as [|m l IH]; [done|]. simpl. destruct (unsnoc l) as [[k n]|]; by subst. Qed.

Lemma rising_snoc l m : rising (l ++ [m]) ↔
  rising l ∧ Forall (λ x, lsn x < lsn m ∧ at_ x + ageGranularity <= at_ m) l.
Proof.
  unfold rising. induction l as [|x l IH]; simpl.
  - split; [repeat constructor | intros _; repeat constructor].
  - rewrite !StronglySorted_cons, Forall_app, Forall_singleton, IH, Forall_cons. naive_solver.
Qed.

Lemma pairs_ind (P : list ageMark → Prop) :
  P [] → (∀ x, P [x]) → (∀ x y l, P l → P (x :: y :: l)) → ∀ l, P l.
Proof.
  intros H0 H1 H2. fix IH 1. intros [|x [|y l]]; [done | apply H1 | apply H2, IH].
Qed.

Lemma halve_in l : ∀ m, m ∈ halve l → ∃ x y, x ∈ l ∧ y ∈ l ∧ lsn m = lsn y ∧ at_ m = at_ x.
Proof.
  induction l as [|x|x y l IH] using pairs_ind; intros m Hm; simpl in Hm.
  - by apply elem_of_nil in Hm.
  - by exists m, m.
  - apply elem_of_cons in Hm as [-> | Hm]; [exists x, y; set_solver|].
    destruct (IH m Hm) as (x' & y' & ? & ? & ?). exists x', y'. set_solver.
Qed.

Lemma halve_len l : len (halve l) * 2 <= len l + 1.
Proof.
  induction l as [|x|x y l IH] using pairs_ind; [done | done |]. cbn [halve]. rewrite !len_cons. lia.
Qed.

Lemma halve_rising l : rising l → rising (halve l).
Proof.
  unfold rising. induction l as [|x|x y l IH] using pairs_ind; [done | done |].
  rewrite !StronglySorted_cons. intros (Hx & Hy & Hl). cbn [halve]. apply StronglySorted_cons.
  split; [|by apply IH]. apply Forall_forall. intros m (a & b & Ha & Hb & -> & ->)%halve_in. simpl.
  apply Forall_cons in Hx as [[_ _] Hx].
  rewrite Forall_forall in Hx, Hy. split; [by apply Hy | by apply Hx].
Qed.

(** Merging keeps every mark covered by one that is no younger. *)
Lemma halve_covers l : rising l → ∀ m, m ∈ l → ∃ m', m' ∈ halve l ∧ lsn m <= lsn m' ∧ at_ m' <= at_ m.
Proof.
  unfold rising. induction l as [|x|x y l IH] using pairs_ind; intros Hr m Hm.
  - by apply elem_of_nil in Hm.
  - exists m. split; [done | lia].
  - rewrite !StronglySorted_cons in Hr. destruct Hr as (Hx & _ & Hl).
    apply Forall_cons in Hx as [[Hxy Ht] _]. cbn [halve]. unfold ageGranularity in *.
    apply elem_of_cons in Hm as [-> | Hm]; [|apply elem_of_cons in Hm as [-> | Hm]].
    + exists (AgeMark (lsn y) (at_ x)). split; [left|]. simpl. lia.
    + exists (AgeMark (lsn y) (at_ x)). split; [left|]. simpl. lia.
    + destruct (IH Hl m Hm) as (m' & Hm' & ?). exists m'. split; [by right | done].
Qed.

Lemma dropCovered_in mark l m : rising l → m ∈ dropCovered mark l ↔ m ∈ l ∧ mark < lsn m.
Proof.
  unfold rising. induction l as [|x l IH]; intros Hr; simpl; [set_solver|].
  apply StronglySorted_cons in Hr as [Hx Hl]. rewrite Forall_forall in Hx.
  case_if.
  - rewrite (IH Hl), elem_of_cons. split; [naive_solver|]. intros [[-> | ?] ?]; [lia | done].
  - rewrite elem_of_cons. split; [|naive_solver]. intros [-> | Hm]; [naive_solver|].
    specialize (Hx m Hm). split; [by right | lia].
Qed.

Lemma dropCovered_suffix mark l : ∃ k, dropCovered mark l = drop k l.
Proof.
  induction l as [|x l [k IH]]; simpl; [by exists O|]. case_if; [by exists (S k) | by exists O].
Qed.

Lemma rising_drop k l : rising l → rising (drop k l).
Proof.
  unfold rising. revert k. induction l as [|x l IH]; intros [|k] Hr; try done.
  apply StronglySorted_cons in Hr as [_ Hl]. by apply IH.
Qed.

Lemma rising_head l m m' : rising (m :: l) → m' ∈ m :: l → at_ m <= at_ m'.
Proof.
  intros [Hx Hl]%StronglySorted_cons Hm. rewrite Forall_forall in Hx. unfold ageGranularity in *.
  apply elem_of_cons in Hm as [-> | Hm]; [lia | specialize (Hx m' Hm); lia].
Qed.

Section histories.
Context (δ : Z) (Hδ : 0 <= δ).

Lemma ackedUpTo_snoc es e : ackedUpTo (es ++ [e]) =
  match e with Trimmed m => Z.max (ackedUpTo es) m | _ => ackedUpTo es end.
Proof. unfold ackedUpTo. rewrite foldl_app. by destruct e. Qed.

Lemma widen {B} (f : ageMark → B → event) es e ms :
  Forall (λ m, ∃ t, f m t ∈ es) ms → Forall (λ m, ∃ t, f m t ∈ es ++ [e]) ms.
Proof. intros H. eapply Forall_impl; [exact H|]. intros m [t Ht]. exists t. set_solver. Qed.

Definition newest (es : list event) (now : Z) : Prop :=
  clock now ∧ ∀ n t, Noted n t ∈ es → clock t ∧ t - δ <= now.

(** A new mark at the end of the queue, merged or not. *)
Lemma appendMark_ages es a n now :
  ages δ es a → trimmed a < n → Forall (λ m, lsn m < n ∧ at_ m + ageGranularity <= now) (marks a) →
  ages δ (es ++ [Noted n now]) (appendMark n now a).
Proof using Hδ.
  intros [Ht Hr Hs Ho Hn Htm Hc] Hlt Hend. unfold appendMark.
  set (ms := if _ <=? _ then _ else _).
  assert (Hms : rising ms ∧ len ms < ageMaxMarks ∧
                (∀ m, m ∈ ms → ∃ x y, x ∈ marks a ∧ y ∈ marks a ∧ lsn m = lsn y ∧ at_ m = at_ x) ∧
                (∀ m, m ∈ marks a → ∃ m', m' ∈ ms ∧ lsn m <= lsn m' ∧ at_ m' <= at_ m)).
  { unfold ms. case_if; unfold ageMaxMarks in *.
    - pose proof (halve_len (marks a)). pose proof (len_nonneg (halve (marks a))).
      split; [by apply halve_rising|]. split; [lia|]. split; [apply halve_in | by apply halve_covers].
    - split; [done|]. split; [done|]. split; [intros m Hm; by exists m, m|].
      intros m Hm. exists m. split; [done | lia]. }
  destruct Hms as (Hr' & Hs' & Hin & Hcov). clearbody ms. rewrite Forall_forall in *.
  constructor; simpl; try apply Forall_forall.
  - by rewrite ackedUpTo_snoc.
  - apply rising_snoc. split; [done|]. apply Forall_forall.
    intros m (x & y & Hx & Hy & -> & ->)%Hin. split; [by apply Hend | by apply Hend].
  - rewrite len_app, len_cons, len_nil. lia.
  - intros m [(x & y & Hx & Hy & -> & _)%Hin | ->%list_elem_of_singleton]%elem_of_app; [by apply Ho | done].
  - intros m [(x & y & Hx & Hy & -> & _)%Hin | ->%list_elem_of_singleton]%elem_of_app.
    + destruct (Hn y Hy) as [t ?]. exists t. set_solver.
    + exists now. set_solver.
  - intros m [(x & y & Hx & Hy & _ & ->)%Hin | ->%list_elem_of_singleton]%elem_of_app.
    + destruct (Htm x Hx) as [t ?]. exists t. set_solver.
    + exists n. set_solver.
  - intros n' t [Hin' | [= -> ->]%list_elem_of_singleton]%elem_of_app Hlt'.
    + destruct (Hc n' t Hin' Hlt') as (m & Hm & ? & ?). destruct (Hcov m Hm) as (m' & Hm' & ? & ?).
      exists m'. split; [set_solver | lia].
    + exists (AgeMark n now). split; [set_solver | simpl; lia].
Qed.

(** Events that leave the queue as it is. *)
Lemma same_ages es a n now m :
  ages δ es a → newest es now → m ∈ marks a → n <= lsn m → ages δ (es ++ [Noted n now]) a.
Proof using Hδ.
  intros [Ht Hr Hs Ho Hn Htm Hc] Hnew Hm Hle. constructor; try done.
  - by rewrite ackedUpTo_snoc.
  - by apply (widen (λ m t, Noted (lsn m) t)).
  - by apply (widen (λ m n, Noted n (at_ m))).
  - intros n' t [Hin' | [= -> ->]%list_elem_of_singleton]%elem_of_app Hlt'; [by apply Hc|].
    exists m. rewrite Forall_forall in Htm. destruct (Htm m Hm) as [k Hk].
    destruct Hnew as [_ Hnew]. destruct (Hnew _ _ Hk). split; [done | lia].
Qed.

Lemma note_ages es a n now :
  ages δ es a → newest es now → ages δ (es ++ [Noted n now]) (note n now a).
Proof using Hδ.
  intros A Hnew. pose proof A as [Ht Hr Hs Ho Hn Htm Hc]. unfold note. case_if.
  { constructor; try done; [by rewrite ackedUpTo_snoc | by apply (widen (λ m t, Noted (lsn m) t))
      | by apply (widen (λ m n, Noted n (at_ m))) |].
    intros n' t [Hin' | [= -> ->]%list_elem_of_singleton]%elem_of_app Hlt'; [by apply Hc | lia]. }
  pose proof (unsnoc_spec (marks a)) as U. destruct (unsnoc (marks a)) as [[ms m]|].
  2:{ apply appendMark_ages; [done | done | by rewrite U]. }
  assert (Hm : m ∈ marks a) by (rewrite U; set_solver).
  case_if; [by apply (same_ages es a n now m)|].
  destruct Hnew as [Hnow Hold]. rewrite Forall_forall in Htm. destruct (Htm m Hm) as [k Hk].
  destruct (Hold _ _ Hk) as [Hcm Hskew]. unfold clock in *. rewrite i64_id by lia.
  rewrite U in Hr. apply rising_snoc in Hr as [Hr1 Hr2]. case_if.
  - rewrite U in *. rewrite Forall_app, Forall_singleton in Ho, Hn. destruct Ho as [Ho _], Hn as [Hn _].
    constructor; simpl.
    + by rewrite ackedUpTo_snoc.
    + apply rising_snoc. split; [done|]. eapply Forall_impl; [exact Hr2|]. simpl. lia.
    + rewrite len_app in *. done.
    + apply Forall_app. split; [done|]. by apply Forall_singleton.
    + apply Forall_app. split; [by apply (widen (λ m t, Noted (lsn m) t))|].
      apply Forall_singleton. exists now. set_solver.
    + apply Forall_app. rewrite Forall_singleton, Forall_forall. simpl. split; [|exists k; set_solver].
      intros x Hx. destruct (Htm x ltac:(set_solver)) as [t ?]. exists t. set_solver.
    + intros n' t [Hin' | [= -> ->]%list_elem_of_singleton]%elem_of_app Hlt'.
      * destruct (Hc n' t Hin' Hlt') as (m' & Hm' & ? & ?).
        apply elem_of_app in Hm' as [Hm' | ->%list_elem_of_singleton]; [exists m'; set_solver|].
        exists (AgeMark n (at_ m)). split; [set_solver | simpl; lia].
      * exists (AgeMark n (at_ m)). split; [set_solver | simpl; lia].
  - apply appendMark_ages; [done | done |]. rewrite U, Forall_app, Forall_singleton. split; [|lia].
    eapply Forall_impl; [exact Hr2|]. simpl. intros x [? ?]. unfold ageGranularity in *. lia.
Qed.

Lemma trim_ages es a mark : ages δ es a → ages δ (es ++ [Trimmed mark]) (trim mark a).
Proof.
  intros [Ht Hr Hs Ho Hn Htm Hc]. rewrite Forall_forall in Ho, Hn, Htm.
  assert (Hin := λ m, dropCovered_in mark (marks a) m Hr).
  constructor; simpl; try apply Forall_forall.
  - by rewrite ackedUpTo_snoc, Ht.
  - destruct (dropCovered_suffix mark (marks a)) as [k ->]. by apply rising_drop.
  - destruct (dropCovered_suffix mark (marks a)) as [k ->]. unfold len in *. rewrite length_drop. lia.
  - intros m [Hm ?]%Hin. specialize (Ho m Hm). lia.
  - intros m [Hm ?]%Hin. destruct (Hn m Hm) as [t ?]. exists t. set_solver.
  - intros m [Hm ?]%Hin. destruct (Htm m Hm) as [t ?]. exists t. set_solver.
  - intros n t Hnt Hlt. apply elem_of_app in Hnt as [Hnt | Hnt]; [|set_solver].
    destruct (Hc n t Hnt ltac:(lia)) as (m & Hm & ? & ?). exists m. split; [apply Hin; split; [done | lia] | done].
Qed.

Lemma skewed_snoc es n now :
  skewed δ (es ++ [Noted n now]) → clocked (es ++ [Noted n now]) → newest es now.
Proof.
  intros Hs Hc. split; [apply (Hc n); set_solver|]. intros n' t Hin. split; [apply (Hc n'); set_solver|].
  apply list_elem_of_lookup in Hin as [i Hi]. eapply (Hs i (length es)).
  - by eapply lookup_lt_Some.
  - by apply lookup_app_l_Some.
  - by apply list_lookup_middle.
Qed.

Lemma run_ages es : skewed δ es → clocked es → ages δ es (run es).
Proof using Hδ.
  induction es as [|e es IH] using rev_ind; intros Hs Hc.
  - constructor; simpl; try done; [constructor.. |]. intros n t Hn. by apply elem_of_nil in Hn.
  - assert (A : ages δ es (run es)).
    { apply IH; [|intros n t Hn; apply (Hc n t); set_solver].
      intros i j n t n' t' Hij Hi Hj. eapply (Hs i j); [done | by apply lookup_app_l_Some..]. }
    unfold run in *. rewrite foldl_app. simpl. destruct e as [n now|m]; simpl.
    + apply note_ages; [done | by eapply skewed_snoc].
    + by apply trim_ages.
Qed.

(** C37: [OldestAge] never understates the age since a note.  For every write
    noted, by the number of its last record, that is not yet acknowledged to its
    end, the time since the note is at most what is reported, up to the [δ] by
    which concurrent writers may note their times out of order; the merging of
    marks does not change that, and the queue never holds more than 512 of them.
    [accept] notes a write once the log has taken it, so for the records of this
    process that is the time since then; the backlog inherited from an earlier run
    is noted as one write when the buffer is opened ([countBacklog]), so for it
    the age starts there, short of its true wait. *)
Theorem age_never_understated es n t now :
  skewed δ es → clocked es → Noted n t ∈ es → ackedUpTo es < n → clock now →
  now - t - δ <= oldest now (run es) ∧ len (marks (run es)) <= ageMaxMarks.
Proof using Hδ.
  intros Hs Hc Hin Hlt Hnow. destruct (run_ages es Hs Hc) as [Ht Hr Hz Ho Hn Htm Hcov].
  split; [|done]. rewrite <- Ht in Hlt. destruct (Hcov n t Hin Hlt) as (m & Hm & Hle & Hat).
  unfold oldest. destruct (marks (run es)) as [|h l]; [by apply elem_of_nil in Hm|].
  pose proof (rising_head _ _ _ Hr Hm). apply Forall_cons in Htm as [[k Hk] _].
  pose proof (Hc _ _ Hk) as Hh. unfold clock in *. rewrite i64_id; lia.
Qed.

(** The queue is empty exactly when every noted record has been
    acknowledged, also when the note arrives after the acknowledgement; then
    the reported age is zero. *)
Theorem idle_reports_nothing es :
  skewed δ es → clocked es →
  (marks (run es) = [] ↔ ∀ n t, Noted n t ∈ es → n <= ackedUpTo es) ∧
  ((∀ n t, Noted n t ∈ es → n <= ackedUpTo es) → ∀ now, oldest now (run es) = 0).
Proof using Hδ.
  intros Hs Hc. destruct (run_ages es Hs Hc) as [Ht Hr Hz Ho Hn Htm Hcov].
  assert (E : marks (run es) = [] ↔ ∀ n t, Noted n t ∈ es → n <= ackedUpTo es).
  { rewrite <- Ht. split.
    - intros E n t Hin. destruct (decide (trimmed (run es) < n)) as [Hlt|]; [|lia].
      destruct (Hcov n t Hin Hlt) as (m & Hm & _). rewrite E in Hm. by apply elem_of_nil in Hm.
    - intros Hall. destruct (marks (run es)) as [|h l]; [done|]. exfalso.
      apply Forall_cons in Hn as [[t Hk] _]. apply Forall_cons in Ho as [Ho _].
      specialize (Hall _ _ Hk). lia. }
  split; [done|]. intros Hall now. apply E in Hall. unfold oldest. by rewrite Hall.
Qed.
End histories.

(** Two writers 30ms apart in the wrong order, then a third far later. *)
Definition ex_events : list event :=
  [Noted 4 1000000000; Noted 9 970000000; Trimmed 4; Noted 12 2000000000].

Lemma ex_skewed : skewed 30000000 ex_events.
Proof.
  intros i j n t n' t' Hij Hi Hj.
  do 4 (destruct i as [|i]; [do 4 (destruct j as [|j]; [simpl in *; simplify_eq; try lia|]); try done|]).
  done.
Qed.

Lemma ex_clocked : clocked ex_events.
Proof. intros n t H. unfold ex_events in H. set_unfold. unfold clock. naive_solver lia. Qed.

Lemma age_never_understated_witness : 1030000000 <= oldest 2030000000 (run ex_events) + 30000000.
Proof.
  destruct (age_never_understated 30000000 ltac:(lia) ex_events 9 970000000 2030000000 ex_skewed ex_clocked)
    as [H _]; [| done | unfold clock; lia | lia].
  unfold ex_events. set_solver.
Defined.

Lemma idle_reports_nothing_witness :
  oldest 5 (run (ex_events ++ [Trimmed 12])) = 0 ∧ (oldest 5 (run ex_events) = 0 → False).
Proof.
  split; [|by vm_compute].
  eapply (proj2 (idle_reports_nothing 30000000 ltac:(lia) (ex_events ++ [Trimmed 12]) _ _)).
  Unshelve.
  - intros n t H. unfold ex_events in H. set_unfold. change (n <= 12). naive_solver lia.
  - intros i j n t n' t' Hij Hi Hj. apply (ex_skewed i j n t n' t' Hij).
    + apply lookup_app_Some in Hi as [? | [? Hi]]; [done|]. by destruct (i - length ex_events)%nat.
    + apply lookup_app_Some in Hj as [? | [? Hj]]; [done|]. by destruct (j - length ex_events)%nat.
  - intros n t H. unfold ex_events in H. set_unfold. unfold clock. naive_solver lia.
Defined.

(** The comment on [ageTracker] says that coarsening never touches the head.
    Merging does start at the head: one record a second for 513 seconds fills the
    queue, and once the first is acknowledged the second, accepted a second
    later, is still reported with the time of the first, ten times the
    granularity off. *)
Definition seconds : list event := map (λ i, Noted (Z.of_nat i) (Z.of_nat i * 1000000000)) (seq 1 513).

Theorem merged_head_overstates :
  oldest 600000000000 (run (seconds ++ [Trimmed 1])) = 599000000000 ∧
  seconds !! 1%nat = Some (Noted 2 2000000000) ∧ 600000000000 - 2000000000 = 598000000000.
Proof. vm_compute. done. Qed.

End Age.
