(* ===== verification/Backoff.v ===== *)
(** * The backoff ladder (src/internal_support.go: [Backoff])

    The delay between two attempts, in the floating-point arithmetic the code
    computes it in: IEEE 754 binary64, rounding to nearest even, each operation on
    its own, as the Standard Library specifies it.  A ladder that starts within its
    ceiling climbs by its factor, attempt after attempt, to the ceiling and stays
    there, as long as durations fit in a float; one that starts above it falls to
    it after the first delay.  A ceiling near the end of [time.Duration] does not
    survive the way back. *)

From S2P Require Import Prelude.
From Stdlib Require Import SpecFloat.
Local Open Scope Z_scope.

Module Backoff.

(** ** [float64] *)

Abbreviation float64 := spec_float.

Definition mul : float64 → float64 → float64 := SFmul 53 1024.
Definition add : float64 → float64 → float64 := SFadd 53 1024.
Definition sub : float64 → float64 → float64 := SFsub 53 1024.
Definition leb : float64 → float64 → bool := SFleb.
Definition ltb : float64 → float64 → bool := SFltb.

(** [float64(z)] *)
Definition ofInt (z : Z) : float64 := binary_normalize 53 1024 z 0 false.

Definition zero : float64 := S754_zero false.
Definition one : float64 := ofInt 1.
Definition two : float64 := ofInt 2.

(** The constant [0.2]. *)
Definition fifth : float64 := SFdiv 53 1024 one (ofInt 5).

Definition truncated (s : bool) (m : positive) (e : Z) : Z :=
  let z := if 0 <=? e then Z.pos m * 2 ^ e else Z.pos m / 2 ^ (- e) in if s then - z else z.

(** [int64(x)]: the fraction is dropped.  What becomes of a value an [int64]
    cannot hold depends on the implementation. *)
Definition toInt (x : float64) : option Z :=
  match x with
  | S754_zero _ => Some 0
  | S754_infinity _ | S754_nan => None
  | S754_finite s m e =>
      let z := truncated s m e in
      if (-9223372036854775808 <=? z) && (z <? 9223372036854775808) then Some z else None
  end.

(** The built-ins [min] and [max]: not a number if either argument is none, and
    positive zero above negative zero. *)
Definition isNaN (x : float64) : bool := match x with S754_nan => true | _ => false end.
Definition negative (x : float64) : bool :=
  match x with S754_zero s | S754_infinity s | S754_finite s _ _ => s | S754_nan => false end.
Definition fmax (x y : float64) : float64 :=
  if isNaN x || isNaN y then S754_nan
  else if ltb x y then y else if ltb y x then x else if negative x then y else x.
Definition fmin (x y : float64) : float64 :=
  if isNaN x || isNaN y then S754_nan
  else if ltb x y then x else if ltb y x then y else if negative x then x else y.

(** ** The ladder *)

Record Backoff := MkBackoff { Initial : Z; Max : Z; Factor : float64; Jitter : float64 }.

Definition withDefaults (b : Backoff) : Backoff :=
  MkBackoff (if Initial b <=? 0 then 100000000 else Initial b)
            (if Max b <=? 0 then 30000000000 else Max b)
            (if leb (Factor b) one then two else Factor b)
            (fmin (fmax (Jitter b) zero) one).

(** The loop of [delay], [n] turns of it. *)
Fixpoint climb (b : Backoff) (n : nat) (d : float64) : float64 :=
  match n with
  | O => d
  | S n =>
      let d := mul d (Factor b) in
      if leb (ofInt (Max b)) d then ofInt (Max b) else climb b n d
  end.

(** [delay]; [rnd] is what [rand.Float64] answers. *)
Definition delay (b : Backoff) (attempt : Z) (rnd : float64) : option Z :=
  let d := climb b (Z.to_nat (attempt - 1)) (ofInt (Initial b)) in
  toInt (if ltb zero (Jitter b)
         then mul d (add (sub one (Jitter b)) (mul (mul two (Jitter b)) rnd))
         else d).

(** *** Evaluated: the buffer's own ladder, without and with jitter. *)
Definition ex_plain : Backoff := withDefaults (MkBackoff 0 0 zero zero).
Definition ex_jittered : Backoff := withDefaults (MkBackoff 0 0 zero fifth).
Example ex_ladder : map (λ n, delay ex_plain n zero) [1; 2; 3; 9; 10; 50]
  = map Some [100000000; 200000000; 400000000; 25600000000; 30000000000; 30000000000].
Proof. by vm_compute. Qed.
Example ex_jitter : delay ex_jittered 1 zero = Some 80000000 ∧ delay ex_jittered 2 (SFdiv 53 1024 one two) = Some 200000000.
Proof. by vm_compute. Qed.

(** ** Where it goes wrong *)

(** A ceiling meant as none: the longest duration is rounded up to 2^63 on the way
    into the float, and 2^63 has no way back. *)
Example endless_ceiling_overflows :
  delay (withDefaults (MkBackoff 100000000 9223372036854775807 two zero)) 60 zero = None.
Proof. by vm_compute. Qed.

(** A factor that is not a number passes for one above 1. *)
Example nan_factor_is_kept :
  Factor (withDefaults (MkBackoff 0 0 S754_nan zero)) = S754_nan ∧
  delay (withDefaults (MkBackoff 0 0 S754_nan zero)) 2 zero = None.
Proof. by vm_compute. Qed.

(** ** Normal floats of at least one *)

(** The value as a multiple of 2^-1074, the least float. *)
Definition units (m : positive) (e : Z) : Z := Z.pos m * 2 ^ (e + 1074).

(** [x] is normal and [v] is its value. *)
Inductive is_val : float64 → Z → Prop :=
| is_val_finite m e : 2 ^ 52 <= Z.pos m < 2 ^ 53 → -1074 <= e → is_val (S754_finite false m e) (units m e).

Definition unit_ : Z := 2 ^ 1074.

Lemma pow_split a b : 0 <= a → 0 <= b → 2 ^ (a + b) = 2 ^ a * 2 ^ b.
Proof. intros. by apply Z.pow_add_r. Qed.

Lemma pow_pos a : 0 <= a → 0 < 2 ^ a.
Proof. intros. by apply Z.pow_pos_nonneg. Qed.

Lemma digits_bounds p : 2 ^ (Z.pos (digits2_pos p) - 1) <= Z.pos p < 2 ^ Z.pos (digits2_pos p).
Proof.
  assert (Hdbl : ∀ k, 1 <= k → 2 ^ (k + 1 - 1) = 2 * 2 ^ (k - 1) ∧ 2 ^ k = 2 * 2 ^ (k - 1) ∧ 2 ^ (k + 1) = 4 * 2 ^ (k - 1)).
  { intros k Hk. replace (k + 1 - 1) with (1 + (k - 1)) by lia. replace k with (1 + (k - 1)) at 3 by lia.
    replace (k + 1) with (2 + (k - 1)) by lia. by rewrite !pow_split by lia. }
  induction p as [p IH|p IH|]; simpl digits2_pos; [| |done];
    destruct (Hdbl (Z.pos (digits2_pos p)) ltac:(lia)) as (E1 & E2 & E3);
    rewrite Pos2Z.inj_succ; unfold Z.succ; rewrite E1, E3; rewrite E2 in IH; lia.
Qed.

Lemma digits_unique p d : 2 ^ (d - 1) <= Z.pos p < 2 ^ d → 1 <= d → Z.pos (digits2_pos p) = d.
Proof.
  intros H Hd. pose proof (digits_bounds p) as B. set (k := Z.pos (digits2_pos p)) in *.
  assert (1 <= k) by (unfold k; lia).
  destruct (Z.lt_trichotomy k d) as [Hlt|[->|Hgt]]; [|done|].
  - assert (2 ^ k <= 2 ^ (d - 1)) by (apply Z.pow_le_mono_r; lia). lia.
  - assert (2 ^ d <= 2 ^ (k - 1)) by (apply Z.pow_le_mono_r; lia). lia.
Qed.

(** Comparing two normal floats compares their values. *)
Lemma compare_units m1 e1 m2 e2 :
  2 ^ 52 <= Z.pos m1 < 2 ^ 53 → 2 ^ 52 <= Z.pos m2 < 2 ^ 53 → -1074 <= e1 → -1074 <= e2 → e1 < e2 →
  units m1 e1 < units m2 e2.
Proof.
  intros H1 H2 He1 He2 Hlt. unfold units. replace (e2 + 1074) with (e2 - e1 - 1 + (1 + (e1 + 1074))) by lia.
  rewrite (pow_split (e2 - e1 - 1)), (pow_split 1) by lia. pose proof (pow_pos (e2 - e1 - 1) ltac:(lia)) as Ha. pose proof (pow_pos (e1 + 1074) ltac:(lia)) as Hp.
  generalize dependent (2 ^ (e2 - e1 - 1)). generalize dependent (2 ^ (e1 + 1074)). intros P HP A HA.
  rewrite Z.mul_assoc. assert (Z.pos m2 <= Z.pos m2 * A) by nia. assert (Z.pos m1 < 2 * Z.pos m2) by lia.
  generalize dependent (Z.pos m2 * A). intros X HX. change (2 ^ 1) with 2. nia.
Qed.

Lemma leb_units x vx y vy : is_val x vx → is_val y vy → leb x y = (vx <=? vy).
Proof.
  intros [m1 e1 H1 He1] [m2 e2 H2 He2]. unfold leb, SFleb. simpl.
  destruct (Z.compare_spec e1 e2) as [<-|Hlt|Hgt].
  - change (Pos.compare_cont Eq m1 m2) with (Pos.compare m1 m2). unfold units.
    pose proof (pow_pos (e1 + 1074) ltac:(lia)).
    destruct (Pos.compare_spec m1 m2) as [->|?|?]; symmetry; rewrite ?Z.leb_le, ?Z.leb_gt; nia.
  - pose proof (compare_units m1 e1 m2 e2). symmetry. apply Z.leb_le. lia.
  - pose proof (compare_units m2 e2 m1 e1). symmetry. apply Z.leb_gt. lia.
Qed.

(** *** Shifting and rounding *)

Lemma shr_1_half r : 0 <= shr_m r → shr_m (shr_1 r) = shr_m r / 2.
Proof.
  destruct r as [m r s]. simpl. intros H. destruct m as [|p|p]; [done| |lia]. destruct p as [p|p|]; simpl; [| |done].
  - apply (Z.div_unique _ _ _ 1); lia.
  - apply (Z.div_unique _ _ _ 0); lia.
Qed.

Lemma shr_iter p : ∀ r, 0 <= shr_m r → shr_m (iter_pos shr_1 p r) = shr_m r / 2 ^ Z.pos p.
Proof.
  assert (Hd : ∀ z a b, 0 <= a → 0 <= b → z / 2 ^ a / 2 ^ b = z / 2 ^ (a + b)).
  { intros z a b Ha Hb. rewrite pow_split by done. rewrite Z.div_div; [done | |]; pose proof (pow_pos a Ha); pose proof (pow_pos b Hb); lia. }
  assert (Hn : ∀ z a, 0 <= a → 0 <= z → 0 <= z / 2 ^ a) by (intros z a Ha Hz; apply Z.div_pos; [done | by apply pow_pos]).
  induction p as [p IH|p IH|]; intros r Hr; cbn [iter_pos]; [| |by rewrite shr_1_half].
  - pose proof (shr_1_half r Hr) as E1. assert (H1 : 0 <= shr_m (shr_1 r)) by (rewrite E1; apply Z.div_pos; lia).
    pose proof (IH _ H1) as E2. assert (H2 : 0 <= shr_m (iter_pos shr_1 p (shr_1 r))) by (rewrite E2; by apply Hn).
    rewrite (IH _ H2), E2, E1. change (shr_m r / 2) with (shr_m r / 2 ^ 1). rewrite !Hd by lia. do 2 f_equal. lia.
  - pose proof (IH _ Hr) as E2. assert (H2 : 0 <= shr_m (iter_pos shr_1 p r)) by (rewrite E2; by apply Hn).
    rewrite (IH _ H2), E2, Hd by lia. do 2 f_equal. lia.
Qed.

Lemma nearest_either q l : round_nearest_even q l = q ∨ round_nearest_even q l = q + 1.
Proof. destruct l as [|[]]; simpl; [tauto | destruct (Z.even q) | |]; tauto. Qed.

(** Rounding a mantissa of at least 53 digits: normal, or too large, and never
    below what is left of the mantissa. *)
Lemma round_normal m e d :
  2 ^ (d - 1) <= Z.pos m < 2 ^ d → 53 <= d → -1074 <= e →
  let q := Z.pos m / 2 ^ (d - 53) in
  binary_round_aux 53 1024 false (Z.pos m) e loc_Exact = S754_infinity false ∨
  ∃ m' e', binary_round_aux 53 1024 false (Z.pos m) e loc_Exact = S754_finite false m' e' ∧
    2 ^ 52 <= Z.pos m' < 2 ^ 53 ∧ e + (d - 53) <= e' ∧ q * 2 ^ (e + (d - 53) + 1074) <= units m' e'.
Proof.
  intros Hm Hd He q. assert (Hdig : Z.pos (digits2_pos m) = d) by (apply digits_unique; lia).
  assert (Hq : 2 ^ 52 <= q < 2 ^ 53).
  { unfold q. replace (d - 1) with (52 + (d - 53)) in Hm by lia. replace d with (53 + (d - 53)) in Hm at 2 by lia.
    rewrite !pow_split in Hm by lia. pose proof (pow_pos (d - 53) ltac:(lia)). split.
    - apply Z.div_le_lower_bound; lia.
    - apply Z.div_lt_upper_bound; lia. }
  assert (Hfe : fexp 53 1024 (d + e) - e = d - 53) by (unfold fexp, emin; lia).
  enough (H : ∃ m' e', binary_round_aux 53 1024 false (Z.pos m) e loc_Exact
      = (if e' <=? 971 then S754_finite false m' e' else S754_infinity false) ∧
    2 ^ 52 <= Z.pos m' < 2 ^ 53 ∧ e + (d - 53) <= e' ∧ q * 2 ^ (e + (d - 53) + 1074) <= units m' e').
  { destruct H as (m' & e' & -> & H). destruct (e' <=? 971); [right | by left]. by exists m', e'. }
  unfold binary_round_aux, shr_fexp at 1. cbn [Zdigits2 shr_record_of_loc]. rewrite Hdig, Hfe.
  set (mrs := shr _ e (d - 53)).
  assert (Hmrs : shr_m mrs.1 = q ∧ mrs.2 = e + (d - 53)).
  { unfold mrs, shr, q. destruct (d - 53) as [|k|k] eqn:Ek; [simpl; rewrite Z.div_1_r; lia | |lia].
    cbn [fst snd]. by rewrite shr_iter. }
  destruct mrs as [r e1]. cbn [fst snd] in Hmrs. destruct Hmrs as [Hr ->]. rewrite Hr.
  assert (Hm2 : ∃ m2, round_nearest_even q (loc_of_shr_record r) = Z.pos m2 ∧ q <= Z.pos m2 <= 2 ^ 53 ∧ 2 ^ 52 <= Z.pos m2).
  { destruct (nearest_either q (loc_of_shr_record r)) as [->| ->].
    - exists (Z.to_pos q). rewrite Z2Pos.id by lia. lia.
    - exists (Z.to_pos (q + 1)). rewrite Z2Pos.id by lia. lia. }
  destruct Hm2 as (m2 & -> & Hm2 & Hlow). set (e1 := e + (d - 53)) in *.
  assert (He1 : -1074 <= e1) by lia.
  destruct (Z.eq_dec (Z.pos m2) (2 ^ 53)) as [Htop|Htop].
  - unfold shr_fexp. cbn [Zdigits2 shr_record_of_loc]. rewrite (digits_unique m2 54) by lia.
    replace (fexp 53 1024 (54 + e1) - e1) with 1 by (unfold fexp, emin; lia). cbn [shr iter_pos].
    rewrite shr_1_half by (simpl; lia). simpl shr_m. rewrite Htop. change (2 ^ 53 / 2) with (2 ^ 52).
    exists 4503599627370496%positive, (e1 + 1). split; [done|]. split; [lia|]. split; [lia|].
    unfold units. replace (e1 + 1 + 1074) with (1 + (e1 + 1074)) by lia. rewrite (pow_split 1) by lia.
    pose proof (pow_pos (e1 + 1074) ltac:(lia)). nia.
  - unfold shr_fexp. cbn [Zdigits2 shr_record_of_loc]. rewrite (digits_unique m2 53) by lia.
    replace (fexp 53 1024 (53 + e1) - e1) with 0 by (unfold fexp, emin; lia). cbn [shr shr_m].
    exists m2, e1. split; [done|]. split; [lia|]. split; [lia|].
    unfold units. pose proof (pow_pos (e1 + 1074) ltac:(lia)). nia.
Qed.

(** A mantissa of 53 digits is kept as it is. *)
Lemma round_exact m e : 2 ^ 52 <= Z.pos m < 2 ^ 53 → -1074 <= e <= 971 →
  binary_round_aux 53 1024 false (Z.pos m) e loc_Exact = S754_finite false m e.
Proof.
  intros Hm He. assert (Hd : Z.pos (digits2_pos m) = 53) by (apply digits_unique; lia).
  assert (Hs : ∀ k, k = Z.pos (digits2_pos m) → fexp 53 1024 (k + e) - e = 0) by (intros k ->; rewrite Hd; unfold fexp, emin; lia).
  unfold binary_round_aux, shr_fexp at 1. cbn [Zdigits2 shr_record_of_loc]. rewrite Hs by done. cbn [shr shr_m loc_of_shr_record round_nearest_even].
  unfold shr_fexp. cbn [Zdigits2 shr_record_of_loc]. rewrite Hs by done. cbn [shr shr_m].
  destruct (Z.leb_spec e (1024 - 53)); [done | lia].
Qed.

Lemma iter_double m k : Z.pos (Pos.iter xO m k) = Z.pos m * 2 ^ Z.pos k.
Proof.
  induction k as [|k IH] using Pos.peano_ind; [simpl; lia|].
  rewrite Pos.iter_succ, Pos2Z.inj_succ, Pos2Z.inj_xO, IH. unfold Z.succ. rewrite pow_split by lia. lia.
Qed.

(** Integers below 2^53 are floats. *)
Lemma ofInt_val z : 1 <= z < 2 ^ 53 → is_val (ofInt z) (z * unit_).
Proof.
  intros Hz. destruct z as [|m|m]; [lia| |lia]. pose proof (digits_bounds m) as Hb.
  set (d := Z.pos (digits2_pos m)) in *. assert (Hd1 : 1 <= d) by (unfold d; lia).
  assert (Hd : d <= 53).
  { destruct (Z.le_gt_cases d 53); [done|]. assert (2 ^ 53 <= 2 ^ (d - 1)) by (apply Z.pow_le_mono_r; lia). lia. }
  assert (H : ∃ m', ofInt (Z.pos m) = S754_finite false m' (d - 53) ∧ Z.pos m' = Z.pos m * 2 ^ (53 - d) ∧ 2 ^ 52 <= Z.pos m' < 2 ^ 53).
  { assert (Hr : 2 ^ 52 <= Z.pos m * 2 ^ (53 - d) < 2 ^ 53).
    { assert (E1 : 2 ^ 52 = 2 ^ (d - 1) * 2 ^ (53 - d)) by (rewrite <- pow_split by lia; f_equal; lia).
      assert (E2 : 2 ^ 53 = 2 ^ d * 2 ^ (53 - d)) by (rewrite <- pow_split by lia; f_equal; lia).
      pose proof (pow_pos (53 - d) ltac:(lia)). rewrite E1, E2. nia. }
    unfold ofInt, binary_normalize, binary_round. fold d. replace (fexp 53 1024 (d + 0)) with (d - 53) by (unfold fexp, emin; lia).
    unfold shl_align. rewrite Z.sub_0_r. destruct (d - 53) as [|k|k] eqn:Ek; [|lia|].
    - exists m. replace (53 - d) with 0 in * by lia. rewrite Z.mul_1_r in *. split; [by apply round_exact|]. lia.
    - exists (Pos.iter xO m k). pose proof (iter_double m k) as E. replace (53 - d) with (Z.pos k) in * by lia.
      split; [apply round_exact; rewrite ?E; lia|]. by rewrite E. }
  destruct H as (m' & -> & Em & Hm).
  replace (Z.pos m * unit_) with (units m' (d - 53)); [constructor; [done | lia]|].
  unfold units, unit_. rewrite Em, <- Z.mul_assoc, <- pow_split by lia. do 2 f_equal. lia.
Qed.

(** A float of at least one has an exponent of at least -52. *)
Lemma exponent_bound m e : 2 ^ 52 <= Z.pos m < 2 ^ 53 → -1074 <= e → unit_ <= units m e → -52 <= e.
Proof.
  intros Hm He Hu. destruct (Z.le_gt_cases (-52) e); [done|]. exfalso. unfold unit_, units in Hu.
  assert (E : 2 ^ 1074 = 2 ^ (- e) * 2 ^ (e + 1074)) by (rewrite <- pow_split by lia; f_equal; lia).
  pose proof (pow_pos (e + 1074) ltac:(lia)). assert (2 ^ 53 <= 2 ^ (- e)) by (apply Z.pow_le_mono_r; lia).
  rewrite E in Hu. generalize dependent (2 ^ (e + 1074)). generalize dependent (2 ^ (- e)). intros. nia.
Qed.

(** A product by a factor of at least one does not fall, whatever is rounded
    off; by a factor above one it rises. *)
Lemma mul_grows x vx y vy : is_val x vx → is_val y vy → unit_ <= vx → unit_ <= vy →
  mul x y = S754_infinity false ∨ ∃ vz, is_val (mul x y) vz ∧ vx <= vz ∧ (unit_ < vy → vx < vz).
Proof.
  intros [m1 e1 H1 He1] [m2 e2 H2 He2] Hx Hy.
  pose proof (exponent_bound _ _ H1 He1 Hx). pose proof (exponent_bound _ _ H2 He2 Hy). clear Hx Hy.
  assert (Hp : 2 ^ 104 <= Z.pos (m1 * m2) < 2 ^ 106).
  { rewrite Pos2Z.inj_mul. change (2 ^ 104) with (2 ^ 52 * 2 ^ 52). change (2 ^ 106) with (2 ^ 53 * 2 ^ 53). nia. }
  assert (Hd : ∃ d, 2 ^ (d - 1) <= Z.pos (m1 * m2) < 2 ^ d ∧ 105 <= d <= 106).
  { destruct (Z.lt_ge_cases (Z.pos (m1 * m2)) (2 ^ 105)); [exists 105 | exists 106]; split; lia. }
  destruct Hd as (d & Hd & Hr). unfold mul, SFmul. simpl xorb.
  destruct (round_normal (m1 * m2) (e1 + e2) d Hd ltac:(lia) ltac:(lia)) as [->|(m & e & -> & Hm & He & Hle)]; [by left|right].
  exists (units m e). split; [constructor; [done | lia]|].
  set (q := Z.pos (m1 * m2) / 2 ^ (d - 53)) in *. pose proof (pow_pos (e1 + 1074) ltac:(lia)) as HP.
  replace (e1 + e2 + (d - 53) + 1074) with ((e2 + (d - 53)) + (e1 + 1074)) in Hle by lia.
  rewrite (pow_split (e2 + (d - 53))), Z.mul_assoc in Hle by lia.
  assert (Hq : Z.pos m1 <= q * 2 ^ (e2 + (d - 53)) ∧ (unit_ < units m2 e2 → Z.pos m1 < q * 2 ^ (e2 + (d - 53)))).
  { destruct (Z.eq_dec (e2 + (d - 53)) 0) as [E0|E0].
    - rewrite E0, Z.mul_1_r. assert (d = 105) as -> by lia. assert (e2 = -52) as -> by lia.
      unfold q. rewrite Pos2Z.inj_mul. change (105 - 53) with 52. split.
      + apply Z.div_le_lower_bound; [done|]. nia.
      + intros Hu. assert (2 ^ 52 < Z.pos m2).
        { unfold units, unit_ in Hu. change (-52 + 1074) with 1022 in Hu. change 1074 with (52 + 1022) in Hu.
          rewrite (pow_split 52) in Hu by lia. pose proof (pow_pos 1022 ltac:(lia)). nia. }
        apply Z.lt_le_trans with (Z.pos m1 + 1); [lia|]. apply Z.div_le_lower_bound; [done|]. nia.
    - assert (2 ^ 52 <= q).
      { unfold q. apply Z.div_le_lower_bound; [by apply pow_pos; lia|]. rewrite <- pow_split by lia.
        replace (d - 53 + 52) with (d - 1) by lia. lia. }
      assert (2 ^ 1 <= 2 ^ (e2 + (d - 53))) by (apply Z.pow_le_mono_r; lia). change (2 ^ 1) with 2 in *. nia. }
  unfold units at 1 3. split; [etrans; [|exact Hle] | intros Hu; eapply Z.lt_le_trans; [|exact Hle]].
  - by apply Z.mul_le_mono_nonneg_r; [lia | apply Hq].
  - by apply Z.mul_lt_mono_pos_r; [|apply Hq].
Qed.

Lemma toInt_val x v : is_val x v → v / unit_ < 9223372036854775808 → toInt x = Some (v / unit_).
Proof.
  intros [m e Hm He] Hlt. assert (Ht : truncated false m e = units m e / unit_).
  { unfold truncated, units, unit_. destruct (Z.leb_spec 0 e).
    - rewrite pow_split, Z.mul_assoc by lia. symmetry. apply Z.div_mul. by apply Z.pow_nonzero.
    - assert (E : 2 ^ 1074 = 2 ^ (- e) * 2 ^ (e + 1074)) by (rewrite <- pow_split by lia; f_equal; lia).
      rewrite E. pose proof (pow_pos (e + 1074) ltac:(lia)). pose proof (pow_pos (- e) ltac:(lia)).
      symmetry. apply Z.div_mul_cancel_r; lia. }
  unfold toInt. cbv zeta. rewrite Ht. assert (0 <= units m e / unit_).
  { apply Z.div_pos; [|by apply pow_pos]. unfold units. pose proof (pow_pos (e + 1074) ltac:(lia)). lia. }
  destruct (Z.leb_spec (-9223372036854775808) (units m e / unit_)); [|lia].
  destruct (Z.ltb_spec (units m e / unit_) 9223372036854775808); [done | lia].
Qed.

Lemma is_val_unique x v v' : is_val x v → is_val x v' → v = v'.
Proof. intros [m e _ _] H. by inversion H. Qed.

(** ** The ladder climbs *)

Section ladder.
Context (b : Backoff) (vf : Z).
Context (HI : 1 <= Initial b < 2 ^ 53) (HM : 1 <= Max b < 2 ^ 53).
Context (HF : is_val (Factor b) vf) (Hf : unit_ <= vf).
Local Abbreviation top := (Max b * unit_).

Lemma unit_pos : 0 < unit_.
Proof using. by apply pow_pos. Qed.

(** A turn from [d]: up, to the ceiling at most. *)
Lemma turn d vd : is_val d vd → unit_ <= vd →
  (leb (ofInt (Max b)) (mul d (Factor b)) = true) ∨
  ∃ v, leb (ofInt (Max b)) (mul d (Factor b)) = false ∧ is_val (mul d (Factor b)) v ∧ vd <= v < top ∧ (unit_ < vf → vd < v).
Proof using HM HF Hf.
  intros Hd Hvd. pose proof (ofInt_val (Max b) HM) as HV.
  destruct (mul_grows d vd _ vf Hd HF Hvd Hf) as [->|(v & Hv & Hle & Hlt)].
  - left. by inversion HV.
  - rewrite (leb_units _ _ _ _ HV Hv). destruct (Z.leb_spec top v); [by left | right]. by exists v.
Qed.

Lemma climb_val n : ∀ d vd, is_val d vd → unit_ <= vd → vd <= top →
  ∃ v v', is_val (climb b n d) v ∧ is_val (climb b (S n) d) v' ∧ vd <= v <= v' ∧ v' <= top.
Proof using HM HF Hf.
  induction n as [|n IH]; intros d vd Hd Hvd Hle; pose proof (ofInt_val (Max b) HM) as HV.
  - exists vd. cbn [climb]. destruct (turn d vd Hd Hvd) as [->|(v & -> & Hv & Hr & _)]; [exists top | exists v];
      (split; [done|]; split; [done | lia]).
  - cbn [climb]. destruct (turn d vd Hd Hvd) as [->|(v & -> & Hv & Hr & _)].
    + exists top, top. split; [done|]. split; [done | lia].
    + destruct (IH _ v Hv ltac:(lia) ltac:(lia)) as (v1 & v2 & H1 & H2 & H3). exists v1, v2.
      split; [done|]. split; [exact H2 | lia].
Qed.

(** With a factor above one the ceiling is reached. *)
Lemma climb_reaches n : unit_ < vf → ∀ d vd, is_val d vd → unit_ <= vd → vd <= top → top - vd <= Z.of_nat n →
  is_val (climb b n d) top.
Proof using HM HF Hf.
  intros Hgt. induction n as [|n IH]; intros d vd Hd Hvd Hle Hn; cbn [climb].
  - by replace top with vd by lia.
  - destruct (turn d vd Hd Hvd) as [->|(v & -> & Hv & Hr & Hup)]; [by apply ofInt_val|].
    specialize (Hup Hgt). apply (IH _ v Hv); lia.
Qed.

(** A ladder that starts above the ceiling falls to it at once. *)
Lemma climb_from_above n : Max b < Initial b → climb b (S n) (ofInt (Initial b)) = ofInt (Max b).
Proof using HI HM HF Hf.
  intros Hlt. cbn [climb]. pose proof unit_pos.
  destruct (turn _ _ (ofInt_val _ HI) ltac:(nia)) as [->|(v & _ & _ & Hr & _)]; [done | nia].
Qed.
End ladder.

Lemma delay_plain b n rnd : ltb zero (Jitter b) = false →
  delay b n rnd = toInt (climb b (Z.to_nat (n - 1)) (ofInt (Initial b))).
Proof. intros HJ. unfold delay. by rewrite HJ. Qed.

Lemma toInt_ofInt z : 1 <= z < 2 ^ 53 → toInt (ofInt z) = Some z.
Proof.
  intros Hz. pose proof unit_pos. rewrite (toInt_val _ _ (ofInt_val _ Hz)); rewrite Z.div_mul by lia; [done|]. lia.
Qed.

(** C35: without jitter the ladder climbs to its ceiling and stays there.  With
    durations a float holds exactly (below 2^53 nanoseconds, 104 days), and a
    factor of at least one, the first delay is the initial one.  If that is within
    the ceiling, no delay is shorter than the one before it or above the ceiling, and
    with a factor above one the ceiling is reached.  If it is above the ceiling, so is
    the first delay, and every later one is the ceiling. *)
Theorem ladder_climbs_to_its_ceiling b vf rnd :
  1 <= Initial b < 2 ^ 53 → 1 <= Max b < 2 ^ 53 → is_val (Factor b) vf → unit_ <= vf → ltb zero (Jitter b) = false →
  delay b 1 rnd = Some (Initial b) ∧
  (Initial b <= Max b →
    (∀ n, 1 <= n → ∃ z z', delay b n rnd = Some z ∧ delay b (n + 1) rnd = Some z' ∧ Initial b <= z <= z' ∧ z' <= Max b) ∧
    (unit_ < vf → ∃ N, ∀ n, N <= n → delay b n rnd = Some (Max b))) ∧
  (Max b < Initial b → ∀ n, 2 <= n → delay b n rnd = Some (Max b)).
Proof.
  intros HI HM HF Hf HJ. pose proof unit_pos as Hu. split; [|split].
  - rewrite delay_plain by done. by apply toInt_ofInt.
  - intros Hle. assert (Hstart : Initial b * unit_ <= Max b * unit_) by nia. split.
    + intros n Hn. rewrite !delay_plain by done. replace (Z.to_nat (n + 1 - 1)) with (S (Z.to_nat (n - 1))) by lia.
      destruct (climb_val b vf HM HF Hf (Z.to_nat (n - 1)) _ _ (ofInt_val _ HI) ltac:(nia) Hstart) as (v & v' & H1 & H2 & Hv & Ht).
      assert (Hq : v' / unit_ <= Max b) by (rewrite <- (Z.div_mul (Max b) unit_) by lia; apply Z.div_le_mono; lia).
      assert (Hq' : v / unit_ <= v' / unit_) by (apply Z.div_le_mono; lia).
      exists (v / unit_), (v' / unit_). split; [apply toInt_val; [done | lia]|]. split; [apply toInt_val; [done | lia]|].
      split; [|done]. split; [|done]. apply Z.div_le_lower_bound; lia.
    + intros Hgt. exists (Max b * unit_ + 1). intros n Hn. rewrite delay_plain by done.
      assert (Hval : is_val (climb b (Z.to_nat (n - 1)) (ofInt (Initial b))) (Max b * unit_)).
      { eapply (climb_reaches b vf HM HF Hf _ Hgt _ _ (ofInt_val _ HI)); [nia | done | nia]. }
      rewrite (toInt_val _ _ Hval); rewrite Z.div_mul by lia; [done | lia].
  - intros Hlt n Hn. rewrite delay_plain by done. replace (Z.to_nat (n - 1)) with (S (Z.to_nat (n - 2))) by lia.
    rewrite (climb_from_above b vf) by done. by apply toInt_ofInt.
Qed.

(** The ladder of [withDefaults], and one that starts above its ceiling. *)
Definition ex_above : Backoff := withDefaults (MkBackoff 3600000000000 0 zero zero).

Lemma ladder_climbs_to_its_ceiling_witness :
  delay ex_plain 1 zero = Some 100000000 ∧
  (∃ z z', delay ex_plain 9 zero = Some z ∧ delay ex_plain 10 zero = Some z' ∧ 100000000 <= z <= z' ∧ z' <= 30000000000) ∧
  (∃ N, ∀ n, N <= n → delay ex_plain n zero = Some 30000000000) ∧
  delay ex_above 1 zero = Some 3600000000000 ∧ delay ex_above 2 zero = Some 30000000000.
Proof.
  assert (HF : ∀ b, Factor b = two → is_val (Factor b) (2 * unit_)) by (intros b ->; apply (ofInt_val 2); lia).
  assert (Hf : unit_ <= 2 * unit_ ∧ unit_ < 2 * unit_) by (pose proof unit_pos; lia).
  destruct (ladder_climbs_to_its_ceiling ex_plain (2 * unit_) zero ltac:(by split; vm_compute) ltac:(by split; vm_compute)
    (HF ex_plain eq_refl) (proj1 Hf) ltac:(by vm_compute)) as (H1 & H2 & _).
  destruct (ladder_climbs_to_its_ceiling ex_above (2 * unit_) zero ltac:(by split; vm_compute) ltac:(by split; vm_compute)
    (HF ex_above eq_refl) (proj1 Hf) ltac:(by vm_compute)) as (H3 & _ & H4).
  destruct (H2 ltac:(by vm_compute)) as [H5 H6].
  split; [exact H1|]. split; [exact (H5 9 ltac:(lia))|]. split; [exact (H6 (proj2 Hf))|].
  split; [exact H3 | exact (H4 ltac:(by vm_compute) 2 ltac:(lia))].
Defined.

End Backoff.
