(* ===== verification/Gate.v ===== *)
(** * Gates and the waits on them (src/internal_support.go: [gate])

    A gate is a broadcast: a waiter takes the current channel, tests its
    condition, and waits for that channel to be closed.  A channel is the number
    of signals before it was made, and it is closed once there has been one
    more.  The step machine interleaves one waiter with the goroutines that make
    its condition true and then signal. *)

From S2P Require Import Prelude Errors.
Local Open Scope Z_scope.

Module Gate.

Record gate := MkGate { signals : nat }.

Definition newGate : gate := MkGate 0.
(** [wait] returns the channel, [signal] closes it and makes the next. *)
Definition wait (g : gate) : nat := signals g.
Definition signal (g : gate) : gate := MkGate (S (signals g)).
Definition is_closed (ch : nat) (g : gate) : bool := (ch <? signals g)%nat.

(** ** A waiter and its condition *)

Inductive waiter := Start | Took (ch : nat) | Parked (ch : nat) | Returned.

(** [s_owed] counts signallers between establishing the condition and the
    signal that follows. *)
Record sys := Sys { s_gate : gate; s_cond : bool; s_owed : nat; s_waiter : waiter }.

Inductive step : sys → sys → Prop :=
| take g c o : step (Sys g c o Start) (Sys g c o (Took (wait g)))
| test_true g o ch : step (Sys g true o (Took ch)) (Sys g true o Returned)
| test_false g o ch : step (Sys g false o (Took ch)) (Sys g false o (Parked ch))
| wake g c o ch : is_closed ch g = true → step (Sys g c o (Parked ch)) (Sys g c o Start)
| establish g c o w : step (Sys g c o w) (Sys g true (S o) w)
| broadcast g c o w : step (Sys g c (S o) w) (Sys (signal g) c o w).

Inductive reachable : sys → Prop :=
| reach_init o : reachable (Sys newGate false o Start)
| reach_step s s' : reachable s → step s s' → reachable s'.

(** Whether the waiter itself can move. *)
Definition waiter_moves (s : sys) : Prop := ∃ s', step s s' ∧ s_waiter s' ≠ s_waiter s.

Definition no_missed (s : sys) : Prop :=
  match s_waiter s with
  | Took ch => (ch <= signals (s_gate s))%nat
  | Parked ch => (ch <= signals (s_gate s))%nat ∧
                 (s_cond s = true → (0 < s_owed s)%nat ∨ is_closed ch (s_gate s) = true)
  | _ => True
  end.

Lemma reachable_no_missed s : reachable s → no_missed s.
Proof.
  induction 1 as [|s s' _ IH Hst]; [done|]. unfold no_missed in *.
  destruct Hst as [g c o | g o ch | g o ch | g c o ch Hc | g c o w | g c o w]; simpl in *; try done.
  - destruct w as [|ch|ch|]; simpl in *; try done. destruct IH as [H _]. split; [done|]. intros _. left. lia.
  - destruct w as [|ch|ch|]; simpl in *; try lia. destruct IH as [H _]. split; [lia|].
    intros _. right. unfold is_closed. simpl. apply Nat.ltb_lt. lia.
Qed.

(** No wake-up is lost.  However the waiter's three steps interleave with
    goroutines that make the condition true and then signal, once the signals
    owed have been sent a waiter whose condition holds has returned or can go
    on: it is never parked on a channel nobody will close. *)
Theorem no_lost_wakeup s :
  reachable s → s_cond s = true → s_owed s = 0%nat → s_waiter s ≠ Returned → waiter_moves s.
Proof.
  intros R Hc Ho Hw. apply reachable_no_missed in R. destruct s as [g c o w]. simpl in *. subst c o.
  destruct w as [|ch|ch|]; [| | |done].
  - eexists. split; [constructor | done].
  - eexists. split; [constructor | done].
  - destruct R as [_ R]. simpl in R. destruct (R eq_refl) as [?|E]; [lia|].
    eexists. split; [by constructor | done].
Qed.

Lemma no_lost_wakeup_witness :
  waiter_moves (Sys (signal newGate) true 0 (Parked 0)).
Proof.
  apply (no_lost_wakeup (Sys (signal newGate) true 0 (Parked 0))); [|done..].
  eapply reach_step; [|apply broadcast]. eapply reach_step; [|apply (establish newGate false 0)].
  eapply reach_step; [|apply test_false]. eapply reach_step; [|apply take]. apply reach_init.
Defined.

End Gate.
