(* ===== verification/Sink.v ===== *)
(** * Sinks, codecs and verdicts (src/sink.go, the classification of src/flush.go)

    The interfaces the buffer calls out through: a [Sink] that takes batches, a
    [Codec] that turns records into bytes, the handlers that judge failures.
    All of them are the caller's code: they are arguments of the definitions
    here, and a call of any of them may panic. *)

From S2P Require Import Prelude Errors.
From stdpp Require Import strings.
Local Open Scope Z_scope.

Module Sink.

(** ** Calls out *)

(** A call of the caller's code comes back or panics. *)
Inductive call (A : Type) := Returned (a : A) | Panicked (v : Z).
Arguments Returned {A} a.
Arguments Panicked {A} v.

(** [protect]: a panic becomes an error that matches [ErrPanic]. *)
Definition protect {A} (c : call A) : result A :=
  match c with
  | Returned a => Ok a
  | Panicked v => Fail (Errorf "" [Sentinel Panic; Foreign v])
  end.

(** ** Batches *)

Record Batch (T : Type) := MkBatch { ID : Z; LogID : bytes; Records : list T; Attempt : Z }.
Arguments MkBatch {T} _ _ _ _.
Arguments ID {T} _.
Arguments LogID {T} _.
Arguments Records {T} _.
Arguments Attempt {T} _.

Definition Len {T} (b : Batch T) : Z := len (Records b).

(** ** Verdicts

    The actions are integers in the source, so a handler can return one that
    has no name. *)

Inductive DecodeAction := DropRecord | StopBuffer | UnknownDecodeAction (n : Z).
Inductive RetryAction := RetryBatch | DeadLetterBatch | FailBuffer | UnknownRetryAction (n : Z).

Definition RetryActionString (a : RetryAction) : string :=
  match a with
  | RetryBatch => "retry"
  | DeadLetterBatch => "dead_letter"
  | FailBuffer => "fail"
  | UnknownRetryAction _ => "unknown"
  end.

Record DecodeFailure := MkDecodeFailure { df_LSN : Z; df_Payload : bytes; df_Err : error }.

Record SinkFailure := MkSinkFailure {
  sf_ID : Z; sf_Records : Z; sf_Bytes : Z; sf_Attempt : Z; sf_DeadLetter : bool; sf_Err : option error
}.

Record RetryDecision := MkRetryDecision { Action : RetryAction; After : Z }.

Definition zeroDecision : RetryDecision := MkRetryDecision RetryBatch 0.

(** [RetryAfter]: the delay wrapped around an error, nothing around no error. *)
Definition RetryAfter (d : Z) (err : option error) : option error :=
  match err with
  | None => None
  | Some e => Some (RetryAfterError d e)
  end.

(** [classify]: the decision, and the error [fail] was called with when the
    handler panicked. *)
Definition classify (onSinkError : option (SinkFailure → call RetryDecision)) (f : SinkFailure) :
    RetryDecision * option error :=
  match sf_Err f with
  | None => (zeroDecision, None)
  | Some e =>
      match onSinkError with
      | Some h =>
          match protect (h f) with
          | Fail perr =>
              (MkRetryDecision FailBuffer 0, Some (Errorf "batch: WithOnSinkError handler on batch" [perr]))
          | Ok d => (d, None)
          end
      | None =>
          if errorsIs e Permanent then (MkRetryDecision DeadLetterBatch 0, None)
          else match as_retry_after e with
               | Some d => (MkRetryDecision RetryBatch d, None)
               | None => (zeroDecision, None)
               end
      end
  end.

Definition isRetry (a : RetryAction) : bool := match a with RetryBatch => true | _ => false end.

(** [retryDelay].  The ladder is an argument: it is [Backoff.delay] at the random
    numbers drawn, read as whatever the implementation makes of a delay no
    [time.Duration] can hold. *)
Definition retryDelay (delay : Z → Z) (d : RetryDecision) (attempt : Z) : Z :=
  if isRetry (Action d) && (0 <? After d) then After d else delay attempt.

(** ** Codecs *)

(** The [Codec] interface. *)
Record Codec (T : Type) := MkCodec {
  Encode : bytes → T → result bytes;
  Decode : bytes → call (result T)
}.
Arguments MkCodec {T} _ _.
Arguments Encode {T} _ _ _.
Arguments Decode {T} _ _.

(** What a codec promises: [Encode] appends, [Decode] reads back what was
    appended. *)
Class CodecLaws {T} (c : Codec T) := {
  encode_appends : ∀ dst v out, Encode c dst v = Ok out → ∃ p, out = dst ++ p ∧ Decode c p = Returned (Ok v)
}.

Definition BytesCodec : Codec bytes := MkCodec (λ dst v, Ok (dst ++ v)) (λ src, Returned (Ok src)).

(** A Go string is a sequence of bytes. *)
Record gostring := GoString { gobytes : bytes }.
Definition StringCodec : Codec gostring :=
  MkCodec (λ dst v, Ok (dst ++ gobytes v)) (λ src, Returned (Ok (GoString src))).

(** [JSONCodec], over the two functions of encoding/json. *)
Definition JSONCodec {T} (Marshal : T → result bytes) (Unmarshal : bytes → result T) : Codec T :=
  MkCodec (λ dst v, match Marshal v with Fail e => Fail e | Ok b => Ok (dst ++ b) end)
          (λ src, Returned (Unmarshal src)).

#[global] Instance BytesCodec_laws : CodecLaws BytesCodec.
Proof. constructor. intros dst v out [= <-]. by exists v. Qed.

#[global] Instance StringCodec_laws : CodecLaws StringCodec.
Proof. constructor. intros dst [v] out [= <-]. by exists v. Qed.

#[global] Instance JSONCodec_laws {T} Marshal Unmarshal
  (law : ∀ (v : T) b, Marshal v = Ok b → Unmarshal b = Ok v) : CodecLaws (JSONCodec Marshal Unmarshal).
Proof.
  constructor. intros dst v out H. simpl in *. destruct (Marshal v) as [b|] eqn:E; [|done].
  injection H as <-. exists b. by rewrite (law v b E).
Qed.

(** ** Encoding a write

    The loops of [WriteBatch] that encode every record into one buffer and cut
    it at the recorded ends. *)

Section encoding.
Context {T : Type} (codec : Codec T).

(** The encode loop: the buffer and the [ends]. *)
Fixpoint encodeAll (i : Z) (vs : list T) (enc : bytes) : result (bytes * list Z) :=
  match vs with
  | [] => Ok (enc, [])
  | v :: vs =>
      match Encode codec enc v with
      | Fail e => Fail (Errorf "batch: encode record" [e])
      | Ok enc =>
          match encodeAll (i + 1) vs enc with
          | Fail e => Fail e
          | Ok (out, ends) => Ok (out, len enc :: ends)
          end
      end
  end.

(** The slicing loop. *)
Fixpoint payloadsFrom (start : Z) (ends : list Z) (enc : bytes) : list bytes :=
  match ends with
  | [] => []
  | e :: ends => take (Z.to_nat (e - start)) (drop (Z.to_nat start) enc) :: payloadsFrom e ends enc
  end.

Definition encodePayloads (vs : list T) : result (list bytes * Z) :=
  match encodeAll 0 vs [] with
  | Fail e => Fail e
  | Ok (enc, ends) => Ok (payloadsFrom 0 ends enc, len enc)
  end.

Context {laws : CodecLaws codec}.

Lemma encodeAll_appends vs : ∀ i enc out ends,
  encodeAll i vs enc = Ok (out, ends) →
  ∃ ps, out = enc ++ concat ps ∧ payloadsFrom (len enc) ends out = ps ∧
        Forall2 (λ v p, Decode codec p = Returned (Ok v)) vs ps.
Proof using laws.
  induction vs as [|v vs IH]; intros i enc out ends H; simpl in H.
  - injection H as <- <-. exists []. simpl. rewrite app_nil_r. by repeat constructor.
  - destruct (Encode codec enc v) as [enc1|] eqn:E; [|done].
    destruct (encode_appends _ _ _ E) as (p & -> & Hp).
    destruct (encodeAll (i + 1) vs (enc ++ p)) as [[out' ends']|] eqn:E2; [|done].
    injection H as <- <-. destruct (IH _ _ _ _ E2) as (ps & -> & Hs & HF).
    exists (p :: ps). simpl. split; [by rewrite app_assoc|]. split; [|by constructor].
    f_equal; [|done]. rewrite len_app. replace (len enc + len p - len enc) with (len p) by lia.
    unfold len. rewrite !Nat2Z.id, <- app_assoc, drop_app_length. by apply take_app_length.
Qed.

(** C36: the payloads a write hands to the log are as many as its records, each
    decodes to its record, and together they are the size capacity was asked
    for: no record is cut short or runs into its neighbour. *)
Theorem written_records_decode vs ps size :
  encodePayloads vs = Ok (ps, size) →
  Forall2 (λ v p, Decode codec p = Returned (Ok v)) vs ps ∧ len (concat ps) = size.
Proof using laws.
  unfold encodePayloads. destruct (encodeAll 0 vs []) as [[enc ends]|] eqn:E; [|done].
  intros [= <- <-]. destruct (encodeAll_appends _ _ _ _ _ E) as (ps & -> & Hs & HF).
  rewrite len_nil in Hs. simpl in *. by rewrite Hs.
Qed.
End encoding.

Lemma written_records_decode_witness :
  Forall2 (λ v p, Decode StringCodec p = Returned (Ok v))
    [GoString [Byte.x61]; GoString []; GoString [Byte.x62; Byte.x63]] [[Byte.x61]; []; [Byte.x62; Byte.x63]] ∧
  len (concat [[Byte.x61]; []; [Byte.x62; Byte.x63]]) = 3.
Proof.
  exact (written_records_decode StringCodec [GoString [Byte.x61]; GoString []; GoString [Byte.x62; Byte.x63]]
           [[Byte.x61]; []; [Byte.x62; Byte.x63]] 3 eq_refl).
Defined.

End Sink.
