(* ===== verification/Flusher.v ===== *)
(** * The flusher (src/flush.go, [flusher] and [dispatch])

    One goroutine reads the log, cuts it into batches of consecutive records and
    hands them on.  [pass] is one turn of its outer loop with everything it asks
    the outside for as an argument: whether the buffer has failed, what each
    [Next] and each [floor.Load] returned, whether a flush was forced, whether
    [dispatch] found a slot, and how the [select] ended.  What the flusher does
    to the rest of the buffer is the list of its outputs.

    The theorems compare the outputs with an independent description of a
    correct segmentation of the records read. *)

From S2P Require Import Prelude Errors Tracker Sink.
From stdpp Require Import strings.
Import Sink.
Local Open Scope Z_scope.
Local Open Scope go_scope.

Module Flusher.

Inductive DropReason := ReasonPolicy | ReasonDecode | ReasonRetriesExhausted.

Section flusher.
Context {T : Type}.

(** [pending]: a batch with the range it acknowledges. *)
Record pending := Pending {
  records : list T; id : Z; rangeFrom : Z; rangeTo : Z;
  count : Z; bytes_ : Z; skipCount : Z; skipBytes : Z
}.

(** What the flusher does to the buffer, in order. *)
Inductive out :=
| OComplete (from to count bytes : Z)
| ODispatch (p : pending)
| ODrop (reason : DropReason)
| OFail (err : error).

(** One answer of [Next] with the floor loaded after it.  The end of the list
    stands for [ErrNoData]. *)
Inductive reading := Got (lsn : Z) (payload : bytes) (floor : Z) | NotGot (err : error).

(** How the [select] at the end of a turn came back. *)
Inductive selected := Woken | Ticked | Drain | Aborted.

Record env := Env {
  e_failed : bool; e_reads : list reading; e_forced : bool; e_slot : bool; e_select : selected
}.

Context (codec : Codec T) (onDecodeFailure : option (DecodeFailure → call DecodeAction)).
Context (flushRecords flushBytes : Z).

(** [decode]: a panicking codec is one that could not decode. *)
Definition decode (payload : bytes) : result T :=
  match protect (Decode codec payload) with
  | Fail perr => Fail (Errorf "codec" [perr])
  | Ok r => r
  end.

(** [decodeFailure]: the action, and the error of a handler that panicked. *)
Definition decodeFailure (lsn : Z) (payload : bytes) (err : error) : DecodeAction * option error :=
  match onDecodeFailure with
  | None => (DropRecord, None)
  | Some f =>
      match protect (f (MkDecodeFailure lsn payload err)) with
      | Fail perr => (StopBuffer, Some (Errorf "WithOnDecodeFailure handler" [perr]))
      | Ok action => (action, None)
      end
  end.

(** The first half of the inner loop's body: what becomes of one record. *)
Inductive verdict := Keep (v : T) | Skip (reason : DropReason) | Stop (err : error).

Definition judge (floor lsn : Z) (payload : bytes) : verdict :=
  if lsn <? floor then Skip ReasonPolicy
  else match decode payload with
       | Ok v => Keep v
       | Fail derr =>
           match decodeFailure lsn payload derr with
           | (StopBuffer, herr) => Stop (default derr herr)
           | _ => Skip ReasonDecode
           end
       end.

(** The flusher's local variables. *)
Record fl := Fl {
  recs : list T; fid : Z; wantLSN : Z; rFrom : Z; rTo : Z; nbytes : Z;
  sCount : Z; sBytes : Z; expired : bool; draining : bool; cut : bool;
  stopped : option (Z * error);
  held : option (T * Z * Z)  (* the record, its number, its size *)
}.

Definition initial (from : Z) : fl :=
  Fl [] 0 0 from (from -u 1) 0 0 0 false false false None None.

(** [startBatch] *)
Definition startBatch (lsn : Z) (s : fl) : fl * list out :=
  if rFrom s <? lsn
  then (Fl (recs s) lsn lsn lsn (rTo s) (nbytes s) 0 0 (expired s) (draining s) (cut s) (stopped s) (held s),
        [OComplete (rFrom s) (lsn -u 1) (sCount s) (sBytes s)])
  else (Fl (recs s) lsn lsn (rFrom s) (rTo s) (nbytes s) (sCount s) (sBytes s) (expired s) (draining s)
          (cut s) (stopped s) (held s), []).

(** Append a record to the batch being filled. *)
Definition extend (v : T) (lsn size : Z) (s : fl) : fl :=
  Fl (recs s ++ [v]) (fid s) (wantLSN s +u 1) (rFrom s) lsn (nbytes s + size)
     (sCount s) (sBytes s) (expired s) (draining s) (cut s) (stopped s) (held s).

(** A record that will not be delivered: its range still covers it. *)
Definition skipOver (lsn size : Z) (s : fl) : fl :=
  Fl (recs s) (fid s) (wantLSN s) (rFrom s) lsn (nbytes s) (sCount s + 1) (sBytes s + size)
     (expired s) (draining s) (0 <? len (recs s)) (stopped s) (held s).

Definition stopAt (lsn : Z) (err : error) (s : fl) : fl :=
  Fl (recs s) (fid s) (wantLSN s) (rFrom s) (rTo s) (nbytes s) (sCount s) (sBytes s)
     (expired s) (draining s) (cut s) (Some (lsn, err)) (held s).

Definition holdOver (v : T) (lsn size : Z) (s : fl) : fl :=
  Fl (recs s) (fid s) (wantLSN s) (rFrom s) (rTo s) (nbytes s) (sCount s) (sBytes s)
     (expired s) (draining s) true (stopped s) (Some (v, lsn, size)).

(** The rest of the inner loop's body for a record that is kept. *)
Definition take1 (v : T) (lsn size : Z) (s : fl) : fl * list out :=
  let '(s, o) := match recs s with [] => startBatch lsn s | _ => (s, []) end in
  if lsn =? wantLSN s then (extend v lsn size s, o) else (holdOver v lsn size s, o).

(** The inner loop: the state, the outputs, the readings consumed, and the
    error that ended it if [Next] reported one. *)
Fixpoint fill (rs : list reading) (s : fl) : fl * list out * list reading * option error :=
  if negb (cut s) && (len (recs s) <? flushRecords) && (nbytes s <? flushBytes)
  then match rs with
       | [] => (s, [], [], None)
       | NotGot err :: _ => if errorsIs err NoData then (s, [], [], None) else (s, [], [], Some err)
       | Got lsn payload floor as r :: rs =>
           match judge floor lsn payload with
           | Stop err => (stopAt lsn err s, [], [r], None)
           | Skip why =>
               let '(s', o, seen, e) := fill rs (skipOver lsn (len payload) s) in
               (s', ODrop why :: o, r :: seen, e)
           | Keep v =>
               let '(s1, o1) := take1 v lsn (len payload) s in
               let '(s', o, seen, e) := fill rs s1 in
               (s', o1 ++ o, r :: seen, e)
           end
       end
  else (s, [], [], None).

(** The held-over record opens the next batch. *)
Definition takeHeld (s : fl) : fl * list out :=
  match held s, recs s with
  | Some (v, lsn, size), [] =>
      let '(s, o) := startBatch lsn s in
      (Fl (recs s ++ [v]) (fid s) (lsn +u 1) (rFrom s) lsn (nbytes s + size) (sCount s) (sBytes s)
          (expired s) (draining s) (cut s) (stopped s) None, o)
  | _, _ => (s, [])
  end.

Definition pendingOf (s : fl) : pending :=
  Pending (recs s) (fid s) (rFrom s) (rTo s) (len (recs s)) (nbytes s) (sCount s) (sBytes s).

(** The variables after a batch has been handed on, and after a range of
    skipped records has been acknowledged. *)
Definition dispatched (s : fl) : fl :=
  Fl [] (fid s) (wantLSN s) (rTo s +u 1) (rTo s) 0 0 0 false (draining s) false (stopped s) (held s).
Definition acknowledged (s : fl) : fl :=
  Fl (recs s) (fid s) (wantLSN s) (rTo s +u 1) (rTo s) (nbytes s) 0 0 (expired s) (draining s) false
     (stopped s) (held s).

Definition setExpired (s : fl) : fl :=
  Fl (recs s) (fid s) (wantLSN s) (rFrom s) (rTo s) (nbytes s) (sCount s) (sBytes s)
     true (draining s) (cut s) (stopped s) (held s).
Definition setDraining (s : fl) : fl :=
  Fl (recs s) (fid s) (wantLSN s) (rFrom s) (rTo s) (nbytes s) (sCount s) (sBytes s)
     (expired s) true (cut s) (stopped s) (held s).

(** Whether the loop goes round again. *)
Inductive turn := Again (s : fl) | Return (s : fl).

(** The part of the loop's body after the inner loop. *)
Definition settle (e : env) (s : fl) : turn * list out :=
  match stopped s with
  | Some (lsn, err) =>
      let o := match recs s with
               | _ :: _ => if e_slot e then [ODispatch (pendingOf s)] else []
               | [] => if rFrom s <=? rTo s then [OComplete (rFrom s) (rTo s) (sCount s) (sBytes s)] else []
               end in
      (Return s, o ++ [OFail (Errorf "batch: decode record" [err])])
  | None =>
      let s := if e_forced e then setExpired s else s in
      let full := (flushRecords <=? len (recs s)) || (flushBytes <=? nbytes s) in
      if (0 <? len (recs s)) && (full || expired s || draining s || cut s)
      then if e_slot e then (Again (dispatched s), [ODispatch (pendingOf s)]) else (Return s, [])
      else match recs s with
           | [] =>
               if rFrom s <=? rTo s
               then (Again (acknowledged s), [OComplete (rFrom s) (rTo s) (sCount s) (sBytes s)])
               else if draining s then (Return s, [])
               else (match e_select e with
                     | Woken => Again s
                     | Ticked => Again (setExpired s)
                     | Drain => Again (setDraining s)
                     | Aborted => Return s
                     end, [])
           | _ => (match e_select e with
                   | Woken => Again s
                   | Ticked => Again (setExpired s)
                   | Drain => Again (setDraining s)
                   | Aborted => Return s
                   end, [])
           end
  end.

(** One turn of the outer loop: how it ends, what it did, what it read. *)
Definition pass (e : env) (s : fl) : turn * list out * list reading :=
  if e_failed e then (Return s, [], [])
  else
    let '(s, o1) := takeHeld s in
    let '(s, o2, seen, err) := fill (e_reads e) s in
    match err with
    | Some err => (Return s, o1 ++ o2 ++ [OFail (Errorf "batch: read log" [err])], seen)
    | None => let '(t, o3) := settle e s in (t, o1 ++ o2 ++ o3, seen)
    end.

(** The loop over a sequence of answers from outside. *)
Fixpoint flusher (es : list env) (s : fl) : turn * list out * list reading :=
  match es with
  | [] => (Again s, [], [])
  | e :: es =>
      match pass e s with
      | (Again s', o, seen) =>
          let '(t, o', seen') := flusher es s' in (t, o ++ o', seen ++ seen')
      | (Return s', o, seen) => (Return s', o, seen)
      end
  end.

(** ** What a correct segmentation is *)

Definition rlsn (r : reading) : Z := match r with Got l _ _ => l | NotGot _ => 0 end.
Definition rsize (r : reading) : Z := match r with Got _ p _ => len p | NotGot _ => 0 end.
Definition verdictOf (r : reading) : option verdict :=
  match r with Got l p f => Some (judge f l p) | NotGot _ => None end.
Definition kept (r : reading) (v : T) : Prop := verdictOf r = Some (Keep v).
Definition skipped (r : reading) : bool :=
  match verdictOf r with Some (Skip _) => true | _ => false end.

Definition sizes (l : list reading) : Z := foldr (λ r z, rsize r + z) 0 l.

(** What the reader promises of the records it returns: numbers above [top],
    rising. *)
Fixpoint rising (top : Z) (l : list reading) : Prop :=
  match l with
  | [] => True
  | Got lsn _ _ :: l => top < lsn < maxU64 ∧ rising lsn l
  | NotGot _ :: _ => False
  end.

(** The highest number read so far. *)
Definition topOf (top : Z) (l : list reading) : Z := foldl (λ _ r, rlsn r) top l.

Lemma rising_app l l' : ∀ top, rising top (l ++ l') ↔ rising top l ∧ rising (topOf top l) l'.
Proof.
  induction l as [|[n p f|] l IH]; intros top; simpl; [naive_solver | rewrite (IH n); naive_solver | naive_solver].
Qed.

Fixpoint consecutive (n : Z) (l : list reading) : Prop :=
  match l with
  | [] => True
  | r :: l => rlsn r = n ∧ consecutive (n + 1) l
  end.

(** The range an output acknowledges, now or once its batch is delivered: what
    [completeRange] passes on. *)
Definition rangeOf (o : out) : option Tracker.range :=
  match o with
  | OComplete f t c b => Some (Tracker.Range f t c b)
  | ODispatch p =>
      Some (Tracker.Range (rangeFrom p) (rangeTo p) (count p + skipCount p) (bytes_ p + skipBytes p))
  | _ => None
  end.
Definition ranges (os : list out) : list Tracker.range := omap rangeOf os.
Definition isDrop (o : out) : bool := match o with ODrop _ => true | _ => false end.
Definition drops (os : list out) : Z := len (List.filter isDrop os).

(** Within the triggers: at most [flushRecords] records, and below [flushBytes]
    bytes before the last of them. *)
Definition within (l : list reading) : Prop :=
  len l <= flushRecords ∧ ∀ i r, l = i ++ [r] → sizes i < flushBytes.

(** An output is explained by the records read in its range: skipped ones only,
    or a run of consecutive kept ones with the skipped ones that ended it. *)
Definition explains (o : out) (g : list reading) : Prop :=
  match o with
  | OComplete f t c b =>
      Forall (λ r, f <= rlsn r <= t ∧ skipped r = true) g ∧ c = len g ∧ b = sizes g
  | ODispatch p =>
      ∃ ks ss, g = ks ++ ss ∧ ks ≠ [] ∧ Forall2 kept ks (records p) ∧ consecutive (id p) ks ∧ within ks ∧
        rangeFrom p = id p ∧ Forall (λ r, rangeFrom p <= rlsn r <= rangeTo p) g ∧
        Forall (λ r, skipped r = true) ss ∧
        count p = len ks ∧ bytes_ p = sizes ks ∧ skipCount p = len ss ∧ skipBytes p = sizes ss
  | _ => False
  end.

Definition emits (o : out) : bool := match rangeOf o with Some _ => true | None => false end.

(** [os] is a segmentation of the records [seen]: tiling ranges, each explained
    by its records; none reaches above [top]; what is left lies above all of
    them; and every skipped record was counted once. *)
Definition segments (low top : Z) (os : list out) (seen : list reading) : Prop :=
  ∃ G rest, seen = concat G ++ rest ∧
    Forall2 explains (List.filter emits os) G ∧
    Tracker.tiles low (ranges os) ∧ Tracker.endOf low (ranges os) <= top ∧
    Forall (λ r, Tracker.endOf low (ranges os) < rlsn r) rest ∧
    drops os = len (List.filter skipped seen).

(** ** The invariant of the loop

    Of the records [S] read so far, [G] are in emitted ranges, [ks] in the batch
    being filled, [ss] skipped behind or instead of it, [hs] held over, and [st]
    is the one the flusher stopped at. *)

Context (from : Z) (Hfrom : 1 <= from < maxU64).
Context (Hfr : 1 <= flushRecords) (Hfb : 1 <= flushBytes).

Record mid (top : Z) (s : fl) (O : list out) (S : list reading) (G : list (list reading))
    (ks ss hs st : list reading) : Prop := {
  m_seen : S = concat G ++ ks ++ ss ++ hs ++ st;
  m_groups : Forall2 explains (List.filter emits O) G;
  m_tiles : Tracker.tiles (from - 1) (ranges O);
  m_end : Tracker.endOf (from - 1) (ranges O) = rFrom s - 1;
  m_kept : Forall2 kept ks (recs s);
  m_cons : consecutive (rFrom s) ks;
  m_want : ks ≠ [] → fid s = rFrom s ∧ wantLSN s = rFrom s + len ks;
  m_bytes : nbytes s = sizes ks;
  m_within : within ks;
  m_skip : Forall (λ r, skipped r = true) ss;
  m_scount : sCount s = len ss;
  m_sbytes : sBytes s = sizes ss;
  m_range : Forall (λ r, rFrom s <= rlsn r <= rTo s) (ks ++ ss);
  m_to : (rTo s = rFrom s - 1 ∧ ks = [] ∧ ss = []) ∨ (rFrom s <= rTo s ∧ ks ++ ss ≠ []);
  m_from : from <= rFrom s;
  m_top : rFrom s - 1 <= top < maxU64 ∧ rTo s <= top;
  m_held : match held s with
           | None => hs = []
           | Some (v, l, z) => ∃ p f, hs = [Got l p f] ∧ kept (Got l p f) v ∧ z = len p ∧ rTo s < l <= top
           end;
  m_stop : match stopped s with
           | None => st = []
           | Some (l, err) => ∃ p f, st = [Got l p f] ∧ verdictOf (Got l p f) = Some (Stop err) ∧ rTo s < l
           end;
  m_drops : drops O = len (List.filter skipped S)
}.

Lemma sizes_app l l' : sizes (l ++ l') = sizes l + sizes l'.
Proof. induction l as [|r l IH]; [done|]. unfold sizes in *. simpl. lia. Qed.

Lemma consecutive_snoc l : ∀ n r, consecutive n l → rlsn r = n + len l → consecutive n (l ++ [r]).
Proof.
  induction l as [|x l IH]; intros n r; simpl.
  - rewrite len_nil. intros _ E. split; [lia | done].
  - rewrite len_cons. intros [? ?] E. split; [done|]. apply IH; [done | lia].
Qed.

Lemma ranges_app os os' : ranges (os ++ os') = ranges os ++ ranges os'.
Proof. apply omap_app. Qed.

Lemma drops_app os os' : drops (os ++ os') = drops os + drops os'.
Proof. unfold drops. by rewrite List.filter_app, len_app. Qed.

(** The facts about lists the invariant needs when an output is added. *)
Lemma emit_groups O o G g :
  Forall2 explains (List.filter emits O) G → emits o = true → explains o g →
  Forall2 explains (List.filter emits (O ++ [o])) (G ++ [g]).
Proof.
  intros HF He Hx. rewrite List.filter_app. simpl. rewrite He. apply Forall2_app; [done|]. by repeat constructor.
Qed.

Lemma emit_tiles O o r :
  Tracker.tiles (from - 1) (ranges O) → rangeOf o = Some r →
  Tracker.from r = Tracker.endOf (from - 1) (ranges O) + 1 → Tracker.from r <= Tracker.to r < maxU64 →
  Tracker.tiles (from - 1) (ranges (O ++ [o])) ∧ Tracker.endOf (from - 1) (ranges (O ++ [o])) = Tracker.to r.
Proof.
  intros Ht Hr Hf Hb. rewrite ranges_app. unfold ranges at 2 4. simpl. rewrite Hr.
  split; [by apply Tracker.tiles_snoc | apply Tracker.endOf_snoc].
Qed.

Lemma emit_drops O o : emits o = true → drops (O ++ [o]) = drops O.
Proof.
  intros He. rewrite drops_app. unfold drops at 2. destruct o; try done; simpl; rewrite len_nil; lia.
Qed.

Lemma kept_not_skipped r v : kept r v → skipped r = false.
Proof. unfold kept, skipped. by intros ->. Qed.

Lemma filter_kept S r v : kept r v → List.filter skipped (S ++ [r]) = List.filter skipped S.
Proof. intros Hk. rewrite List.filter_app. simpl. by rewrite (kept_not_skipped r v Hk), app_nil_r. Qed.

(** The fields of a batch that has just been opened with one record. *)
Definition opened (s1 s' : fl) (v : T) (l z : Z) : Prop :=
  recs s' = [v] ∧ fid s' = fid s1 ∧ wantLSN s' = l + 1 ∧ rFrom s' = rFrom s1 ∧ rTo s' = l ∧
  nbytes s' = nbytes s1 + z ∧ sCount s' = sCount s1 ∧ sBytes s' = sBytes s1 ∧
  stopped s' = None ∧ held s' = None.

Lemma within_one r : within [r].
Proof using Hfr Hfb.
  split; [by rewrite len_cons, len_nil|]. intros [|x i] r' E; [simpl; lia|].
  apply (f_equal length) in E. rewrite length_app in E. simpl in E. lia.
Qed.

(** Opening a batch: the stretch in front of it is acknowledged first. *)
Lemma open_mid top s O S G ss hs l p f v s1 o s' :
  mid top s O S G [] ss hs [] → hs = [] ∨ hs = [Got l p f] →
  kept (Got l p f) v → rTo s < l < maxU64 → (hs = [] → top < l) →
  startBatch l s = (s1, o) → opened s1 s' v l (len p) →
  ∃ G', mid (Z.max top l) s' (O ++ o) (concat G ++ ss ++ [Got l p f]) G' [Got l p f] [] [] [].
Proof using Hfrom Hfr Hfb.
  intros M Hh Hk Hl Ht Hs (E1 & E2 & E3 & E4 & E5 & E6 & E7 & E8 & E9 & E10).
  destruct M. simpl in *. unfold maxU64 in *.
  assert (HS : List.filter skipped (concat G ++ ss ++ [Got l p f]) = List.filter skipped S).
  { rewrite app_assoc, (filter_kept _ _ v Hk), m_seen0. destruct Hh as [-> | ->]; simpl.
    - by rewrite !app_nil_r.
    - by rewrite app_assoc, (filter_kept _ _ v Hk). }
  assert (Hrest : rFrom s <= l) by (destruct m_to0 as [[? _] | [? _]]; lia).
  assert (Hfid : fid s1 = l ∧ rFrom s1 = l ∧ nbytes s1 = nbytes s ∧ sCount s1 = 0 ∧ sBytes s1 = 0 ∧
    ∃ G', concat G' = concat G ++ ss ∧ Forall2 explains (List.filter emits (O ++ o)) G' ∧
      Tracker.tiles (from - 1) (ranges (O ++ o)) ∧ Tracker.endOf (from - 1) (ranges (O ++ o)) = l - 1 ∧
      drops (O ++ o) = drops O).
  { unfold startBatch in Hs. case_if; injection Hs as <- <-; simpl.
    - repeat (split; [done|]). exists (G ++ [ss]). rewrite concat_app. simpl. rewrite app_nil_r.
      split; [done|]. assert (Hw : l -u 1 = l - 1) by (apply u64_id; unfold is_u64; lia). rewrite Hw.
      destruct (emit_tiles O (OComplete (rFrom s) (l - 1) (sCount s) (sBytes s)) _ m_tiles0 eq_refl) as [T1 T2];
        [simpl; lia | simpl; unfold maxU64; lia |].
      split; [|split_and!; [done | done | by apply emit_drops]].
      + apply emit_groups; [done | done |]. simpl. rewrite m_scount0, m_sbytes0. split; [|done].
        apply Forall_forall. intros r Hr. rewrite Forall_forall in m_skip0, m_range0.
        split; [|by apply m_skip0]. specialize (m_range0 r Hr). lia.
    - assert (l = rFrom s) as -> by lia.
      destruct m_to0 as [(Hto & _ & ->) | [? _]]; [|lia]. rewrite !app_nil_r.
      rewrite m_scount0, m_sbytes0. repeat (split; [done|]). by exists G. }
  destruct Hfid as (F1 & F2 & F3 & F4 & F5 & G' & HG & HF & HT & HE & HD).
  exists G'. constructor; rewrite ?E1, ?E2, ?E3, ?E4, ?E5, ?E6, ?E7, ?E8, ?E9, ?E10, ?F1, ?F2, ?F4, ?F5; try done.
  - by rewrite HG, <- app_assoc.
  - by repeat constructor.
  - rewrite F3, m_bytes0. unfold sizes. simpl. lia.
  - apply within_one.
  - simpl. apply Forall_singleton. simpl. lia.
  - right. split; [lia | done].
  - lia.
  - unfold maxU64. lia.
  - by rewrite HD, HS.
Qed.

Lemma extend_mid top s O S G ks l p f v :
  mid top s O S G ks [] [] [] → ks ≠ [] → kept (Got l p f) v → top < l < maxU64 → l = wantLSN s →
  len (recs s) < flushRecords → nbytes s < flushBytes →
  mid l (extend v l (len p) s) O (S ++ [Got l p f]) G (ks ++ [Got l p f]) [] [] [].
Proof using Hfrom.
  intros M Hne Hk Hl Hw Hr Hb. destruct M. destruct (m_want0 Hne) as [W1 W2]. unfold maxU64 in *.
  pose proof (len_nonneg ks). constructor; simpl; try done.
  - rewrite m_seen0, !app_nil_r. by rewrite app_assoc.
  - apply Forall2_app; [done | by repeat constructor].
  - apply consecutive_snoc; [done | simpl; lia].
  - intros _. split; [done|]. rewrite len_app, len_cons, len_nil, Hw in *.
    rewrite u64_id; [lia | unfold is_u64; lia].
  - rewrite sizes_app, m_bytes0. unfold sizes at 3. simpl. lia.
  - apply Forall2_length in m_kept0. unfold within, len in *. rewrite length_app. simpl. split; [lia|].
    intros i r E. apply app_inj_tail in E as [<- _]. lia.
  - rewrite app_nil_r in *. apply Forall_app. split; [|apply Forall_singleton; simpl; lia].
    eapply Forall_impl; [exact m_range0|]. simpl. lia.
  - right. split; [lia|]. by destruct ks.
  - unfold maxU64. lia.
  - destruct (held s) as [[[]]|]; [|done]. by destruct m_held0 as (? & ? & ? & _).
  - destruct (stopped s) as [[]|]; [|done]. by destruct m_stop0 as (? & ? & ? & _).
  - by rewrite (filter_kept _ _ v Hk).
Qed.

Lemma skip_mid top s O S G ks ss l p f why :
  mid top s O S G ks ss [] [] → verdictOf (Got l p f) = Some (Skip why) → top < l < maxU64 →
  mid l (skipOver l (len p) s) (O ++ [ODrop why]) (S ++ [Got l p f]) G ks (ss ++ [Got l p f]) [] [].
Proof using Hfrom.
  intros M Hk Hl. destruct M. unfold maxU64 in *.
  assert (Hsk : skipped (Got l p f) = true) by (unfold skipped; by rewrite Hk).
  constructor; simpl; try done.
  - rewrite m_seen0, !app_nil_r. by rewrite !app_assoc.
  - rewrite List.filter_app. simpl. by rewrite app_nil_r.
  - rewrite ranges_app. simpl. by rewrite app_nil_r.
  - rewrite ranges_app. simpl. by rewrite app_nil_r.
  - apply Forall_app. split; [done | by apply Forall_singleton].
  - rewrite len_app, len_cons, len_nil. lia.
  - rewrite sizes_app, m_sbytes0. unfold sizes at 3. simpl. lia.
  - rewrite app_assoc. apply Forall_app. split; [|apply Forall_singleton; simpl; lia].
    eapply Forall_impl; [exact m_range0|]. simpl. lia.
  - right. split; [lia|]. by destruct ks, ss.
  - unfold maxU64. lia.
  - destruct (held s) as [[[]]|]; [|done]. by destruct m_held0 as (? & ? & ? & _).
  - destruct (stopped s) as [[]|]; [|done]. by destruct m_stop0 as (? & ? & ? & _).
  - rewrite drops_app, m_drops0, List.filter_app, len_app. cbn [List.filter]. by rewrite Hsk.
Qed.

Lemma hold_mid top s O S G ks l p f v :
  mid top s O S G ks [] [] [] → kept (Got l p f) v → top < l < maxU64 →
  mid l (holdOver v l (len p) s) O (S ++ [Got l p f]) G ks [] [Got l p f] [].
Proof using Hfrom.
  intros M Hk Hl. destruct M. unfold maxU64 in *. constructor; simpl; try done.
  - rewrite m_seen0, !app_nil_r. by rewrite !app_assoc.
  - unfold maxU64. lia.
  - exists p, f. repeat split; [done | lia..].
  - by rewrite (filter_kept _ _ v Hk).
Qed.

Lemma stop_mid top s O S G ks ss l p f err :
  mid top s O S G ks ss [] [] → verdictOf (Got l p f) = Some (Stop err) → top < l < maxU64 →
  mid l (stopAt l err s) O (S ++ [Got l p f]) G ks ss [] [Got l p f].
Proof using Hfrom.
  intros M Hk Hl. destruct M. unfold maxU64 in *. constructor; simpl; try done.
  - rewrite m_seen0, !app_nil_r. by rewrite !app_assoc.
  - unfold maxU64. lia.
  - destruct (held s) as [[[]]|]; [|done]. by destruct m_held0 as (? & ? & ? & _).
  - exists p, f. repeat split; [done | lia].
  - rewrite m_drops0, List.filter_app. cbn [List.filter]. unfold skipped at 3. rewrite Hk. by rewrite app_nil_r.
Qed.

(** How the flags constrain the parts: a batch that has been cut has records,
    one that has not is all kept or all skipped, and holds nothing over. *)
Definition shape (s : fl) (ks ss hs : list reading) : Prop :=
  (cut s = false → hs = [] ∧ (ks = [] ∨ ss = [])) ∧ (cut s = true → ks ≠ []).

Lemma recs_nil top s O S G ks ss hs st : mid top s O S G ks ss hs st → recs s = [] ↔ ks = [].
Proof.
  intros M. apply m_kept in M. apply Forall2_length in M. destruct (recs s), ks; simpl in *; naive_solver lia.
Qed.

Lemma take1_mid top s O S G ks ss l p f v s' o :
  mid top s O S G ks ss [] [] → shape s ks ss [] → cut s = false → stopped s = None →
  kept (Got l p f) v → top < l < maxU64 → len (recs s) < flushRecords → nbytes s < flushBytes →
  take1 v l (len p) s = (s', o) →
  stopped s' = None ∧ ∃ G' ks' ss' hs', mid l s' (O ++ o) (S ++ [Got l p f]) G' ks' ss' hs' [] ∧ shape s' ks' ss' hs'.
Proof using Hfrom Hfr Hfb.
  intros M [Hsh _] Hcut Hst Hk Hl Hr Hb. destruct (Hsh Hcut) as [_ Hks]. unfold take1.
  destruct (recs s) as [|x xs] eqn:Er.
  - assert (ks = []) as -> by (by eapply recs_nil). destruct (startBatch l s) as [s1 o1] eqn:Es.
    assert (Hs1 : fid s1 = l ∧ wantLSN s1 = l ∧ recs s1 = [] ∧ cut s1 = false ∧ stopped s1 = None ∧ held s1 = held s).
    { unfold startBatch in Es. case_if; injection Es as <- _; by simpl. }
    destruct Hs1 as (F1 & F2 & F3 & F4 & F5 & F6). rewrite F2, Z.eqb_refl. intros [= <- <-].
    split; [done|]. assert (Hto : rTo s < l) by (destruct M; lia).
    assert (Hhs : held s = None).
    { destruct M. destruct (held s) as [[[]]|]; [|done]. by destruct m_held0 as (? & ? & ? & _). }
    destruct (open_mid top s O S G ss [] l p f v s1 o1 (extend v l (len p) s1) M) as [G' M'];
      [by left | done | lia | lia | done | |].
    { unfold opened. simpl. rewrite F2, F3, F5, F6, Hhs. unfold maxU64 in *. destruct M.
      repeat split. apply u64_id. unfold is_u64. lia. }
    exists G', [Got l p f], [], []. replace (Z.max top l) with l in M' by lia.
    assert (S = concat G ++ ss) as -> by (destruct M; simpl in *; by rewrite app_nil_r in *).
    rewrite <- app_assoc. split; [done|]. split; simpl; [intros _; split; [done | by right] | by rewrite F4].
  - assert (Hne : ks ≠ []) by (intros ->; pose proof (proj2 (recs_nil _ _ _ _ _ _ _ _ _ M) eq_refl); congruence).
    destruct Hks as [? | ->]; [done|]. case_if; intros [= <- <-]; rewrite app_nil_r; (split; [done|]).
    + exists G, (ks ++ [Got l p f]), [], []. split; [apply (extend_mid top); try done; by rewrite Er|].
      split; simpl; [by auto | by rewrite Hcut].
    + exists G, ks, [], [Got l p f]. split; [by apply (hold_mid top)|]. split; simpl; done.
Qed.

Lemma fill_mid rs : ∀ top s O S G ks ss hs s' o seen e,
  mid top s O S G ks ss hs [] → shape s ks ss hs → stopped s = None →
  fill rs s = (s', o, seen, e) → rising top seen →
  ∃ G' ks' ss' hs' st', mid (topOf top seen) s' (O ++ o) (S ++ seen) G' ks' ss' hs' st' ∧ shape s' ks' ss' hs'.
Proof using Hfrom Hfr Hfb.
  assert (Hend : ∀ top s O S G ks ss hs, mid top s O S G ks ss hs [] → shape s ks ss hs →
    ∃ G' ks' ss' hs' st', mid top s (O ++ []) (S ++ []) G' ks' ss' hs' st' ∧ shape s ks' ss' hs').
  { intros top s O S G ks ss hs M Hsh. rewrite !app_nil_r. by exists G, ks, ss, hs, []. }
  induction rs as [|r rs IH]; intros top s O S G ks ss hs s' o seen e M Hsh Hst Hf Hri; simpl in Hf.
  { by case_if; injection Hf as <- <- <- <-; eapply Hend. }
  case_if; [|injection Hf as <- <- <- <-; by eapply Hend]. bools.
  match goal with H : cut s = false |- _ => rename H into Hcut end.
  destruct (proj1 Hsh Hcut) as [-> Hks].
  destruct r as [l p f|err]; [|by case_if; injection Hf as <- <- <- <-; eapply Hend].
  destruct (judge f l p) as [v|why|err] eqn:Ej.
  - destruct (take1 v l (len p) s) as [s1 o1] eqn:Et.
    destruct (fill rs s1) as [[[s2 o2] seen2] e2] eqn:Ef. injection Hf as <- <- <- <-.
    destruct Hri as [Hl Hri].
    destruct (take1_mid top s O S G ks ss l p f v s1 o1 M Hsh Hcut Hst) as (Hst1 & G1 & ks1 & ss1 & hs1 & M1 & Hsh1);
      [unfold kept; simpl; by rewrite Ej | done | lia | lia | done |].
    destruct (IH _ _ _ _ _ _ _ _ _ _ _ _ M1 Hsh1 Hst1 Ef Hri) as (G' & R). exists G'.
    by rewrite <- !app_assoc in R.
  - destruct (fill rs (skipOver l (len p) s)) as [[[s2 o2] seen2] e2] eqn:Ef. injection Hf as <- <- <- <-.
    destruct Hri as [Hl Hri].
    assert (Hsh1 : shape (skipOver l (len p) s) ks (ss ++ [Got l p f]) []).
    { pose proof (Forall2_length _ _ _ (m_kept _ _ _ _ _ _ _ _ _ M)) as Hlen.
      split; simpl; [intros Hc%Z.ltb_ge; split; [done|left] | intros Hc%Z.ltb_lt ->];
        unfold len in Hc; [|simpl in Hlen; lia]. destruct ks; [done|]. simpl in *. lia. }
    assert (Hv : verdictOf (Got l p f) = Some (Skip why)) by (simpl; by rewrite Ej).
    destruct (IH _ _ _ _ _ _ _ _ _ _ _ _ (skip_mid _ _ _ _ _ _ _ _ _ _ _ M Hv Hl) Hsh1 Hst Ef Hri)
      as (G' & R). exists G'. by rewrite <- !app_assoc in R.
  - injection Hf as <- <- <- <-. destruct Hri as [Hl _].
    assert (Hv : verdictOf (Got l p f) = Some (Stop err)) by (simpl; by rewrite Ej).
    pose proof (stop_mid _ _ _ _ _ _ _ _ _ _ _ M Hv Hl) as M'. rewrite app_nil_r.
    by exists G, ks, ss, [], [Got l p f].
Qed.

(** The invariant at the top of the outer loop. *)
Definition ready (top : Z) (s : fl) (O : list out) (S : list reading) : Prop :=
  ∃ G ks ss hs, mid top s O S G ks ss hs [] ∧ stopped s = None ∧ cut s = false ∧
    (ks = [] ∨ ss = []) ∧ (hs ≠ [] → ks = [] ∧ ss = []).

Lemma initial_ready : ready (from - 1) (initial from) [] [].
Proof using Hfrom Hfr Hfb.
  exists [], [], [], []. split; [|by repeat split; auto].
  assert (Hw : from -u 1 = from - 1) by (apply u64_id; unfold is_u64, maxU64 in *; lia).
  constructor; simpl; try done; try (rewrite Hw); try lia.
  - split; [rewrite len_nil; lia|]. intros i r E. by destruct i.
  - by left.
Qed.

Lemma takeHeld_mid top s O S s' o :
  ready top s O S → takeHeld s = (s', o) →
  stopped s' = None ∧ ∃ G ks ss, mid top s' (O ++ o) S G ks ss [] [] ∧ shape s' ks ss [].
Proof using Hfrom Hfr Hfb.
  intros (G & ks & ss & hs & M & Hst & Hcut & Hks & Hhs) Ht. unfold takeHeld in Ht.
  destruct (held s) as [[[v l] z]|] eqn:Eh.
  - assert (Hh := m_held _ _ _ _ _ _ _ _ _ M). rewrite Eh in Hh.
    destruct Hh as (p & f & -> & Hk & -> & Hl).
    destruct (Hhs ltac:(done)) as [-> ->]. rewrite (proj2 (recs_nil _ _ _ _ _ _ _ _ _ M) eq_refl) in Ht.
    destruct (startBatch l s) as [s1 o1] eqn:Es. injection Ht as <- <-. split.
    { unfold startBatch in Es. case_if; injection Es as <- _; done. }
    assert (Hmx : l < maxU64) by (destruct M; lia).
    destruct (open_mid top s O S G [] [Got l p f] l p f v s1 o1
      (Fl (recs s1 ++ [v]) (fid s1) (l +u 1) (rFrom s1) l (nbytes s1 + len p) (sCount s1) (sBytes s1)
         (expired s1) (draining s1) (cut s1) (stopped s1) None) M) as [G' M'];
      [by right | done | lia | done | done | |].
    { assert (Er : recs s1 = [] ∧ stopped s1 = None).
      { pose proof (proj2 (recs_nil _ _ _ _ _ _ _ _ _ M) eq_refl).
        unfold startBatch in Es. case_if; injection Es as <- _; simpl; done. }
      destruct Er as [Er Es1]. unfold opened. simpl. rewrite Er, Es1. repeat split.
      apply u64_id. destruct M. unfold is_u64, maxU64 in *. lia. }
    exists G', [Got l p f], []. replace (Z.max top l) with top in M' by lia.
    assert (S = concat G ++ [Got l p f]) as E by (destruct M; simpl in *; done).
    rewrite E. split; [done|]. split; simpl; [by auto | done].
  - assert (Hh := m_held _ _ _ _ _ _ _ _ _ M). rewrite Eh in Hh. subst hs.
    injection Ht as <- <-. split; [done|]. exists G, ks, ss. rewrite app_nil_r. split; [done|].
    split; [done | by rewrite Hcut].
Qed.

Lemma mid_segments top s O S G ks ss hs st : mid top s O S G ks ss hs st → segments (from - 1) top O S.
Proof.
  intros M. destruct M. exists G, (ks ++ ss ++ hs ++ st). split; [done|]. split; [done|]. split; [done|].
  split; [lia|]. split; [|done]. rewrite m_end0. rewrite app_assoc, !Forall_app. split; [|split].
  - by apply Forall_app; eapply Forall_impl; [exact m_range0|]; simpl; lia.
  - destruct (held s) as [[[]]|]; [|by subst]. destruct m_held0 as (? & ? & -> & _ & _ & ?).
    apply Forall_singleton. simpl. destruct m_to0 as [[? _] | [? _]]; lia.
  - destruct (stopped s) as [[]|]; [|by subst]. destruct m_stop0 as (? & ? & -> & _ & ?).
    apply Forall_singleton. simpl. destruct m_to0 as [[? _] | [? _]]; lia.
Qed.

(** Both ways of emitting the current range leave an empty one behind it. *)
Lemma emit_mid top s O S G ks ss hs st o s' :
  mid top s O S G ks ss hs st → rFrom s <= rTo s →
  rangeOf o = Some (Tracker.Range (rFrom s) (rTo s) (len ks + len ss) (sizes ks + sizes ss)) →
  explains o (ks ++ ss) →
  recs s' = [] ∧ rFrom s' = (rTo s +u 1) ∧ rTo s' = rTo s ∧ nbytes s' = 0 ∧ sCount s' = 0 ∧ sBytes s' = 0 ∧
    held s' = held s ∧ stopped s' = stopped s →
  mid top s' (O ++ [o]) S (G ++ [ks ++ ss]) [] [] hs st.
Proof using Hfrom Hfr Hfb.
  intros M Hr Ho Hx (E1 & E2 & E3 & E4 & E5 & E6 & E7 & E8). destruct M.
  assert (Hw : rTo s +u 1 = rTo s + 1) by (apply u64_id; unfold is_u64, maxU64 in *; lia).
  destruct (emit_tiles O o _ m_tiles0 Ho) as [T1 T2]; [simpl; lia | simpl; lia |]. simpl in T2.
  assert (He : emits o = true) by (unfold emits; by rewrite Ho).
  constructor; rewrite ?E1, ?E2, ?E3, ?E4, ?E5, ?E6, ?E7, ?E8, ?Hw; try done.
  - rewrite m_seen0, concat_app. simpl. by rewrite app_nil_r, <- !app_assoc.
  - by apply emit_groups.
  - rewrite T2. lia.
  - split; [rewrite len_nil; lia|]. intros i r E. by destruct i.
  - left. split; [lia | done].
  - lia.
  - lia.
  - by rewrite emit_drops.
Qed.

Lemma dispatch_mid top s O S G ks ss hs st :
  mid top s O S G ks ss hs st → ks ≠ [] →
  mid top (dispatched s) (O ++ [ODispatch (pendingOf s)]) S (G ++ [ks ++ ss]) [] [] hs st.
Proof using Hfrom Hfr Hfb.
  intros M Hne. assert (Hlen : len (recs s) = len ks).
  { pose proof (Forall2_length _ _ _ (m_kept _ _ _ _ _ _ _ _ _ M)). unfold len. lia. }
  pose proof M as M'. destruct M'. destruct (m_want0 Hne) as [W _].
  apply (emit_mid top s O S G ks ss hs st); [done | | | | done].
  - destruct m_to0 as [(_ & ? & _) | [? _]]; done.
  - simpl. by rewrite Hlen, m_scount0, m_bytes0, m_sbytes0.
  - simpl. exists ks, ss. rewrite W, Hlen. by repeat (split; [done|]).
Qed.

Lemma complete_mid top s O S G ss hs st s' :
  mid top s O S G [] ss hs st → rFrom s <= rTo s →
  recs s' = [] ∧ rFrom s' = (rTo s +u 1) ∧ rTo s' = rTo s ∧ nbytes s' = 0 ∧ sCount s' = 0 ∧ sBytes s' = 0 ∧
    held s' = held s ∧ stopped s' = stopped s →
  mid top s' (O ++ [OComplete (rFrom s) (rTo s) (sCount s) (sBytes s)]) S (G ++ [ss]) [] [] hs st.
Proof using Hfrom Hfr Hfb.
  intros M Hr Hs'. pose proof M as M'. destruct M'.
  apply (emit_mid top s O S G [] ss hs st); [done | done | | | done].
  - simpl. by rewrite m_scount0, m_sbytes0.
  - simpl. split; [|done]. apply Forall_forall. intros r Hin. rewrite Forall_forall in m_range0, m_skip0.
    split; [by apply m_range0 | by apply m_skip0].
Qed.

(** Variables the invariant does not mention may change. *)
Lemma mid_ext top s s' O S G ks ss hs st :
  mid top s O S G ks ss hs st →
  recs s' = recs s ∧ fid s' = fid s ∧ wantLSN s' = wantLSN s ∧ rFrom s' = rFrom s ∧ rTo s' = rTo s ∧
    nbytes s' = nbytes s ∧ sCount s' = sCount s ∧ sBytes s' = sBytes s ∧ held s' = held s ∧ stopped s' = stopped s →
  mid top s' O S G ks ss hs st.
Proof.
  intros M (E1 & E2 & E3 & E4 & E5 & E6 & E7 & E8 & E9 & E10). destruct M.
  by constructor; rewrite ?E1, ?E2, ?E3, ?E4, ?E5, ?E6, ?E7, ?E8, ?E9, ?E10.
Qed.

(** Nothing the flusher was asked interrupted it: no failure elsewhere, no abort. *)
Definition undisturbed (e : env) : Prop := e_failed e = false ∧ e_slot e = true ∧ e_select e ≠ Aborted.
Definition noFail (o : list out) : Prop := ∀ err, OFail err ∉ o.

(** Every record read is in a range. *)
Definition complete (O : list out) (S : list reading) : Prop :=
  ∃ G, S = concat G ∧ Forall2 explains (List.filter emits O) G.

(** How a turn that ends the flusher must have ended. *)
Definition ended (e : env) (o O : list out) (S : list reading) : Prop := undisturbed e → noFail o → complete O S.

Lemma mid_complete top s O S G ks ss st :
  mid top s O S G ks ss [] st → recs s = [] → stopped s = None → rTo s < rFrom s → complete O S.
Proof using.
  intros M Hr Hs Hlt. pose proof (m_kept _ _ _ _ _ _ _ _ _ M) as Hk. rewrite Hr in Hk. apply Forall2_nil_inv_r in Hk as ->.
  pose proof (m_stop _ _ _ _ _ _ _ _ _ M) as Hst. rewrite Hs in Hst. subst st.
  destruct (m_to _ _ _ _ _ _ _ _ _ M) as [(_ & _ & ->)|[? _]]; [|lia]. exists G.
  split; [|apply (m_groups _ _ _ _ _ _ _ _ _ M)]. rewrite (m_seen _ _ _ _ _ _ _ _ _ M). by rewrite !app_nil_r.
Qed.

Lemma segments_fail low top O S err : segments low top O S → segments low top (O ++ [OFail err]) S.
Proof.
  intros (G & rest & HS & HF & HT & HU & HR & HD). exists G, rest.
  assert (E : ranges (O ++ [OFail err]) = ranges O) by (rewrite ranges_app; simpl; by rewrite app_nil_r).
  rewrite E, List.filter_app, drops_app. simpl. rewrite app_nil_r.
  repeat (split; [done|]). rewrite HD. unfold drops. simpl. rewrite len_nil. lia.
Qed.

(** A decode failure that stops the flusher: what was read is handed on first. *)
Lemma settle_stopped e top s O S G ks ss hs st t o l err :
  mid top s O S G ks ss hs st → stopped s = Some (l, err) → settle e s = (t, o) →
  segments (from - 1) top (O ++ o) S ∧ match t with Again s' => ready top s' (O ++ o) S | Return _ => ended e o (O ++ o) S end.
Proof using Hfrom Hfr Hfb.
  intros M Est. pose proof (recs_nil _ _ _ _ _ _ _ _ _ M) as Hnil. unfold settle. rewrite Est.
  intros [= <- <-]. split.
  2: { intros _ Hno. destruct (Hno (Errorf "batch: decode record" [err])). apply elem_of_app. right. left. }
  rewrite app_assoc. apply segments_fail.
    destruct (recs s) as [|x xs] eqn:Er; case_if; rewrite ?app_nil_r; try by eapply mid_segments.
    - assert (ks = []) as -> by (by apply Hnil). eapply mid_segments, (complete_mid top s); [done | done |].
      by instantiate (1 := dispatched s).
    - eapply mid_segments, dispatch_mid; [done|]. intros ->. by pose proof (proj2 Hnil eq_refl).
Qed.

Lemma settle_segments e top s O S G ks ss hs st t o :
  mid top s O S G ks ss hs st → shape s ks ss hs → settle e s = (t, o) →
  segments (from - 1) top (O ++ o) S ∧ match t with Again s' => ready top s' (O ++ o) S | Return _ => ended e o (O ++ o) S end.
Proof using Hfrom Hfr Hfb.
  intros M Hsh. destruct (stopped s) as [[l err]|] eqn:Est; [by eapply settle_stopped|].
  pose proof (recs_nil _ _ _ _ _ _ _ _ _ M) as Hnil. unfold settle. rewrite Est.
  set (s0 := if e_forced e then setExpired s else s).
  assert (M0 : mid top s0 O S G ks ss hs st) by (unfold s0; destruct (e_forced e); by apply (mid_ext top s)).
  assert (F0 : recs s0 = recs s ∧ cut s0 = cut s ∧ stopped s0 = None ∧ rFrom s0 = rFrom s ∧ rTo s0 = rTo s)
    by (unfold s0; by destruct (e_forced e)).
  clearbody s0. destruct F0 as (F1 & F2 & F3 & F4 & F5).
  assert (st = []) as -> by (apply m_stop in M0; by rewrite F3 in M0).
  case_if.
  - match goal with H : _ ∨ _ |- _ => clear H end. case_if; intros [= <- <-].
    + assert (Hne : ks ≠ []).
      { intros ->. assert (E0 : len (recs s0) = 0) by (rewrite F1, (proj2 Hnil eq_refl); done). lia. }
      pose proof (dispatch_mid _ _ _ _ _ _ _ _ _ M0 Hne) as M1. split; [by eapply mid_segments|].
      exists (G ++ [ks ++ ss]), [], [], hs. split; [done|]. simpl. by repeat split; auto.
    + rewrite app_nil_r. split; [by eapply mid_segments | intros (_ & ? & _); congruence].
  - assert (Hc : cut s0 = false).
    { destruct (cut s0) eqn:Ec; [|done]. exfalso. match goal with H : _ ∨ _ |- _ => destruct H as [H | H] end; bools.
      - destruct Hsh as [_ Hsh]. apply Hsh; [congruence|]. apply Hnil. rewrite <- F1. apply len_zero.
        pose proof (len_nonneg (recs s0)). lia.
      - congruence. }
    destruct Hsh as [Hsh _]. destruct (Hsh ltac:(congruence)) as [-> Hks].
    assert (Hidle : ∀ s', recs s' = recs s0 ∧ fid s' = fid s0 ∧ wantLSN s' = wantLSN s0 ∧ rFrom s' = rFrom s0 ∧
      rTo s' = rTo s0 ∧ nbytes s' = nbytes s0 ∧ sCount s' = sCount s0 ∧ sBytes s' = sBytes s0 ∧
      held s' = held s0 ∧ stopped s' = stopped s0 → cut s' = false → ready top s' O S).
    { intros s' E Hc'. exists G, ks, ss, []. split; [by apply (mid_ext top s0)|].
      destruct E as (_ & _ & _ & _ & _ & _ & _ & _ & _ & ->). repeat split; try done. }
    assert (Hsel : ∀ t, (match e_select e with Woken => Again s0 | Ticked => Again (setExpired s0)
                         | Drain => Again (setDraining s0) | Aborted => Return s0 end) = t →
      match t with Again s' => ready top s' O S | Return _ => ended e [] O S end).
    { intros t' <-. destruct (e_select e) eqn:Ee; try by apply Hidle. intros (_ & _ & Ha). congruence. }
    destruct (recs s0) as [|x xs] eqn:Er.
    + assert (ks = []) as -> by (apply Hnil; congruence). case_if; [|case_if]; intros [= <- <-]; rewrite ?app_nil_r.
      * assert (M1 : mid top (acknowledged s0) (O ++ [OComplete (rFrom s0) (rTo s0) (sCount s0) (sBytes s0)]) S
                   (G ++ [ss]) [] [] [] []).
        { apply complete_mid; [done | done |]. simpl. pose proof (m_bytes _ _ _ _ _ _ _ _ _ M0) as Hb.
          by rewrite Er, Hb. }
        split; [by eapply mid_segments|]. exists (G ++ [ss]), [], [], []. split; [done|]. by repeat split; auto.
      * split; [by eapply mid_segments|]. intros _ _. eapply mid_complete; [exact M0 | done | done | lia].
      * split; [by eapply mid_segments | by apply Hsel].
    + intros [= <- <-]. rewrite app_nil_r. split; [by eapply mid_segments | by apply Hsel].
Qed.

Lemma pass_segments e top s O S t o seen :
  ready top s O S → pass e s = (t, o, seen) → rising top seen →
  segments (from - 1) (topOf top seen) (O ++ o) (S ++ seen) ∧
  match t with Again s' => ready (topOf top seen) s' (O ++ o) (S ++ seen) | Return _ => ended e o (O ++ o) (S ++ seen) end.
Proof using Hfrom Hfr Hfb.
  intros R Hp Hri. unfold pass in Hp. destruct (e_failed e) eqn:Efa.
  { injection Hp as <- <- <-. rewrite !app_nil_r. split; [|intros (? & _); congruence].
    destruct R as (G & ks & ss & hs & M & _). by eapply mid_segments. }
  destruct (takeHeld s) as [s1 o1] eqn:Eh.
  destruct (takeHeld_mid _ _ _ _ _ _ R Eh) as (Hst & G & ks & ss & M & Hsh).
  destruct (fill (e_reads e) s1) as [[[s2 o2] seen2] err] eqn:Ef.
  assert (seen2 = seen) as -> by (destruct err, (settle e s2); by injection Hp).
  destruct (fill_mid _ _ _ _ _ _ _ _ _ _ _ _ _ M Hsh Hst Ef Hri) as (G' & ks' & ss' & hs' & st' & M' & Hsh').
  destruct err as [err|].
  - injection Hp as <- <-. rewrite !app_assoc. split; [by eapply segments_fail, mid_segments|].
    intros _ Hno. destruct (Hno (Errorf "batch: read log" [err])). rewrite !elem_of_app. right. left.
  - destruct (settle e s2) as [t3 o3] eqn:Es. injection Hp as <- <-.
    rewrite !app_assoc. destruct (settle_segments _ _ _ _ _ _ _ _ _ _ _ _ M' Hsh' Es) as [H1 H2]. split; [done|].
    destruct t3; [done|]. intros He Hno. apply H2; [done|]. intros er Hin. apply (Hno er). rewrite !elem_of_app. tauto.
Qed.

Lemma flusher_ended es : ∀ top s O S s' o seen,
  ready top s O S → flusher es s = (Return s', o, seen) → rising top seen →
  (∀ e, e ∈ es → undisturbed e) → noFail o → complete (O ++ o) (S ++ seen).
Proof using Hfrom Hfr Hfb.
  induction es as [|e es IH]; intros top s O S s' o seen R Hf Hri Hu Hno; simpl in Hf; [done|].
  destruct (pass e s) as [[[s1|s1] o1] seen1] eqn:Ep.
  - destruct (flusher es s1) as [[t2 o2] seen2] eqn:Ef. injection Hf as -> <- <-. apply rising_app in Hri as [H1 H2].
    destruct (pass_segments _ _ _ _ _ _ _ _ R Ep H1) as [_ R1]. rewrite !app_assoc.
    eapply IH; [exact R1 | exact Ef | exact H2 | intros; apply Hu; by right |].
    intros er Hin. apply (Hno er). apply elem_of_app. by right.
  - injection Hf as <- <- <-. destruct (pass_segments _ _ _ _ _ _ _ _ R Ep Hri) as [_ R1].
    apply R1; [apply Hu; left | done].
Qed.

Lemma flusher_segments es : ∀ top s O S t o seen,
  ready top s O S → flusher es s = (t, o, seen) → rising top seen →
  segments (from - 1) (topOf top seen) (O ++ o) (S ++ seen).
Proof using Hfrom Hfr Hfb.
  induction es as [|e es IH]; intros top s O S t o seen R Hf Hri; simpl in Hf.
  - injection Hf as <- <- <-. rewrite !app_nil_r. destruct R as (G & ks & ss & hs & M & _). by eapply mid_segments.
  - destruct (pass e s) as [[[s1|s1] o1] seen1] eqn:Ep.
    + destruct (flusher es s1) as [[t2 o2] seen2] eqn:Ef. injection Hf as <- <- <-.
      apply rising_app in Hri as [H1 H2].
      destruct (pass_segments _ _ _ _ _ _ _ _ R Ep H1) as [_ R1]. rewrite !app_assoc.
      unfold topOf at 1. rewrite foldl_app. by eapply IH.
    + injection Hf as <- <- <-. by eapply pass_segments.
Qed.

Lemma fresh_segments es t o seen :
  flusher es (initial from) = (t, o, seen) → rising (from - 1) seen → segments (from - 1) (topOf (from - 1) seen) o seen.
Proof using Hfrom Hfr Hfb. intros Hf Hri. by apply (flusher_segments es _ _ [] [] t o seen initial_ready Hf). Qed.

Lemma fresh_ended es s' o seen :
  flusher es (initial from) = (Return s', o, seen) → rising (from - 1) seen →
  (∀ e, e ∈ es → undisturbed e) → noFail o → complete o seen.
Proof using Hfrom Hfr Hfb. intros Hf Hri. by apply (flusher_ended es _ _ [] [] s' o seen initial_ready Hf). Qed.

(** C17: the flusher hands on a segmentation of the log.  Whatever the outside
    answers, the ranges it acknowledges or dispatches tile the numbering from its
    start with no overlap and no hole; every record read below their end is
    accounted for in exactly one of them, as a member of a batch of consecutive
    records or as a record skipped and counted once; the records it has not
    decided about, the one a decode failure stopped it at included, lie above
    all of them, so nothing acknowledges them; and no range reaches above the
    highest number read. *)
Theorem flusher_segments_the_log es t o seen :
  flusher es (initial from) = (t, o, seen) → rising (from - 1) seen →
  segments (from - 1) (topOf (from - 1) seen) o seen.
Proof using Hfrom Hfr Hfb. apply fresh_segments. Qed.

Lemma consecutive_lookup l : ∀ n i r, consecutive n l → l !! i = Some r → rlsn r = n + Z.of_nat i.
Proof.
  induction l as [|x l IH]; intros n i r Hc Hi; [done|]. destruct Hc as [H1 H2].
  destruct i as [|i]; [injection Hi as <-; lia|]. rewrite (IH (n + 1) i r H2 Hi). lia.
Qed.

(** C18: [Records[i]] has the number [ID + i].  Every record of every batch
    dispatched is the decoding of the payload the log holds under exactly that
    number, and a batch is never empty, never above the configured record count,
    and below the configured size before its last record. *)
Theorem batch_ids_name_their_records es t o seen p :
  flusher es (initial from) = (t, o, seen) → rising (from - 1) seen → ODispatch p ∈ o →
  (∀ i v, records p !! i = Some v →
     ∃ payload floor, Got (id p + Z.of_nat i) payload floor ∈ seen ∧
                      decode payload = Ok v ∧ floor <= id p + Z.of_nat i) ∧
  1 <= len (records p) <= flushRecords ∧ count p = len (records p) ∧
  rangeFrom p = id p ∧ id p + len (records p) - 1 <= rangeTo p.
Proof using Hfrom Hfr Hfb.
  intros Hf Hri Hin. destruct (fresh_segments _ _ _ _ Hf Hri)
    as (G & rest & HS & HF & _). simpl in HS.
  assert (Hin' : ODispatch p ∈ List.filter emits o).
  { apply list_elem_of_In, List.filter_In. split; [by apply list_elem_of_In | done]. }
  apply list_elem_of_lookup in Hin' as [j Hj]. destruct (Forall2_lookup_l _ _ _ _ _ HF Hj) as (g & Hg & Hx).
  destruct Hx as (ks & ss & -> & Hne & Hk & Hc & [Hw _] & Hrf & Hr & _ & Hcnt & _).
  pose proof (Forall2_length _ _ _ Hk) as Hlen.
  split; [|split; [|split; [|split]]].
  - intros i v Hi. destruct (Forall2_lookup_r _ _ _ _ _ Hk Hi) as (r & Hri' & Hkv).
    pose proof (consecutive_lookup _ _ _ _ Hc Hri') as Hn.
    destruct r as [l pl f|]; [|done]. simpl in Hn. subst l. exists pl, f.
    split; [|unfold kept in Hkv; simpl in Hkv; injection Hkv as Hkv; unfold judge in Hkv; case_if; [done|];
      destruct (decode pl) as [v'|]; [injection Hkv as ->; by split|]; by destruct (decodeFailure _ _ _) as [[] ?]].
    rewrite HS. apply elem_of_app. left. apply list_elem_of_In, List.in_concat.
    exists (ks ++ ss). split; apply list_elem_of_In; [by eapply list_elem_of_lookup_2|].
    apply elem_of_app. left. by eapply list_elem_of_lookup_2.
  - unfold len in *. rewrite <- Hlen. destruct ks; [done|]. simpl in *. lia.
  - rewrite Hcnt. unfold len. by rewrite Hlen.
  - done.
  - apply Forall_app in Hr as [Hr _]. rewrite Forall_forall in Hr.
    destruct (lookup_lt_is_Some_2 ks (pred (length ks))) as [r Hl]; [destruct ks; [done | simpl; lia]|].
    pose proof (consecutive_lookup _ _ _ _ Hc Hl) as Hn.
    specialize (Hr r ltac:(by eapply list_elem_of_lookup_2)).
    unfold len. rewrite <- Hlen. destruct ks; [done|]. simpl in *. lia.
Qed.

Lemma ranges_lookup os : ∀ i o, List.filter emits os !! i = Some o → ranges os !! i = rangeOf o.
Proof.
  induction os as [|x os IH]; intros i o Hi; [done|]. unfold ranges in *. simpl in *. unfold emits at 1 in Hi.
  destruct (rangeOf x) as [r|] eqn:Er; [|by apply IH].
  destruct i as [|i]; [injection Hi as <-; by rewrite Er | by apply IH].
Qed.

Lemma explained_range o g r : explains o g → r ∈ g →
  ∃ rg, rangeOf o = Some rg ∧ Tracker.from rg <= rlsn r <= Tracker.to rg.
Proof.
  destruct o as [f t c b|p| |]; simpl; [| |done|done].
  - intros [HF _] Hr. rewrite Forall_forall in HF. eexists. split; [done|]. simpl. by apply HF.
  - intros (ks & ss & _ & _ & _ & _ & _ & _ & HF & _) Hr. rewrite Forall_forall in HF.
    eexists. split; [done|]. simpl. by apply HF.
Qed.

(** Every record up to the end of the first [k] ranges is explained by one of
    them. *)
Lemma explained_below top O seen k r :
  segments (from - 1) top O seen → (k <= length (ranges O))%nat →
  r ∈ seen → rlsn r <= Tracker.endOf (from - 1) (take k (ranges O)) →
  ∃ i o g, (i < k)%nat ∧ List.filter emits O !! i = Some o ∧ explains o g ∧ r ∈ g.
Proof using Hfrom.
  intros (G & rest & HS & HF & HT & _ & HR & _) Hk Hr Hle. assert (H0 : 0 <= from - 1 < maxU64) by lia.
  pose proof (Tracker.tiles_bounds _ _ H0 HT) as HB.
  assert (Hmono : ∀ i rg, ranges O !! i = Some rg → (k <= i)%nat →
    Tracker.endOf (from - 1) (take k (ranges O)) < Tracker.from rg).
  { intros i rg Hi Hki. destruct (lookup_lt_is_Some_2 (ranges O) k) as [rk Hrk];
      [apply lookup_lt_Some in Hi; lia|].
    destruct (HB k rk Hrk) as (Hfk & _ & _ & Hbk). destruct (decide (k = i)) as [<-|Hne]; [simplify_eq; lia|].
    pose proof (Tracker.tiles_mono _ _ H0 HT k i rk rg ltac:(lia) Hrk Hi). lia. }
  rewrite HS in Hr. apply elem_of_app in Hr as [Hr | Hr].
  - apply list_elem_of_In, List.in_concat in Hr as (g & Hg & Hrg).
    apply list_elem_of_In, list_elem_of_lookup in Hg as [i Hg]. apply list_elem_of_In in Hrg.
    destruct (Forall2_lookup_r _ _ _ _ _ HF Hg) as (oo & Ho & Hx).
    exists i, oo, g. split; [|done]. destruct (explained_range _ _ _ Hx Hrg) as (rg & Hro & Hin).
    pose proof (ranges_lookup _ _ _ Ho) as Hlk. rewrite Hro in Hlk.
    destruct (decide (k <= i)%nat) as [Hki|]; [|lia]. specialize (Hmono i rg Hlk Hki). lia.
  - exfalso. rewrite Forall_forall in HR. specialize (HR r Hr).
    enough (Tracker.endOf (from - 1) (take k (ranges O)) <= Tracker.endOf (from - 1) (ranges O)) by lia.
    destruct (decide (k = length (ranges O))) as [->|Hne]; [by rewrite firstn_all|].
    destruct (lookup_lt_is_Some_2 (ranges O) (pred (length (ranges O)))) as [rl Hlast]; [lia|].
    pose proof (HB _ _ Hlast) as (_ & He & _ & Hb). specialize (Hmono _ _ Hlast ltac:(lia)).
    rewrite take_ge in He by lia. lia.
Qed.

(** The low-water mark never passes a record that has not been resolved.
    Let any of the flusher's ranges complete, in any order: every record read at
    or below the resulting mark lies in a range that has completed. *)
Theorem mark_never_passes_unresolved es t o seen js :
  flusher es (initial from) = (t, o, seen) → rising (from - 1) seen →
  Tracker.fitting (ranges o) → Tracker.settled (ranges o) js →
  ∃ a fc fb, Tracker.acks (ranges o) js (Tracker.newAckTracker (from - 1)) 0 0 = Some (a, fc, fb) ∧
    ∀ r, r ∈ seen → rlsn r <= Tracker.mark a →
      ∃ i rg, i ∈ js ∧ ranges o !! i = Some rg ∧ Tracker.from rg <= rlsn r <= Tracker.to rg.
Proof using Hfrom Hfr Hfb.
  intros Hf Hri Hfit Hset. pose proof (fresh_segments _ _ _ _ Hf Hri) as HS. destruct HS as (G & rest & Hseg). pose proof Hseg as (_ & _ & HT & _).
  destruct (Tracker.acks_new _ _ (ltac:(lia) : 0 <= from - 1 < maxU64) HT js Hfit Hset) as (a & k & E & [Hd Hl Hlow Hbel Hnx _]).
  eexists a, _, _. split; [exact E|]. unfold Tracker.mark. rewrite Hlow. intros r Hr Hle.
  destruct (explained_below (topOf (from - 1) seen) o seen k r ltac:(by exists G, rest) Hl Hr Hle)
    as (i & oo & g & Hi & Ho & Hx & Hrg).
  destruct (explained_range _ _ _ Hx Hrg) as (rg & Hro & Hin). exists i, rg.
  specialize (Hbel i Hi). apply elem_of_list_to_set in Hbel.
  pose proof (ranges_lookup _ _ _ Ho) as Hlk. by rewrite Hro in Hlk.
Qed.
End flusher.

(** A backlog with a gap behind number 6 and a record that does not decode; the
    handler drops it.  Batches hold two records. *)
Definition ex_codec : Codec bytes :=
  MkCodec (λ dst v, Ok (dst ++ v))
    (λ src, match src with [] => Panicked 1 | _ => Returned (Ok src) end).

Definition ex_reads : list reading :=
  [Got 5 [Byte.x61] 0; Got 6 [Byte.x62] 0; Got 9 [Byte.x63] 0; Got 10 [] 0; Got 11 [Byte.x64] 0].

Definition ex_env (rs : list reading) : env := Env false rs false true Ticked.

Definition ex_envs : list env :=
  [ex_env ex_reads; ex_env (drop 2 ex_reads); ex_env (drop 4 ex_reads); ex_env []].

Definition ex_turn : @turn bytes :=
  Eval vm_compute in (flusher ex_codec None 2 100 ex_envs (initial 4)).1.1.

Definition ex_seen : list reading := ex_reads.

Definition ex_outs : list (@out bytes) :=
  [OComplete 4 4 0 0; ODispatch (Pending [[Byte.x61]; [Byte.x62]] 5 5 6 2 2 0 0);
   OComplete 7 8 0 0; ODrop ReasonDecode; ODispatch (Pending [[Byte.x63]] 9 9 10 1 1 1 0);
   ODispatch (Pending [[Byte.x64]] 11 11 11 1 1 0 0)].

Lemma ex_run : flusher ex_codec None 2 100 ex_envs (initial 4) = (ex_turn, ex_outs, ex_seen).
Proof. vm_compute. reflexivity. Qed.

Lemma ex_rising : rising (4 - 1) ex_seen.
Proof. unfold ex_seen, ex_reads, maxU64. simpl. repeat split; lia. Qed.

Lemma flusher_segments_the_log_witness :
  segments ex_codec None 2 100 (4 - 1) 11 ex_outs ex_seen ∧ drops ex_outs = 1.
Proof.
  split; [|done].
  exact (flusher_segments_the_log ex_codec None 2 100 4 ltac:(unfold maxU64; lia) ltac:(lia) ltac:(lia)
           ex_envs ex_turn ex_outs ex_seen ex_run ex_rising).
Defined.

Lemma batch_ids_name_their_records_witness :
  ∃ payload floor, Got (5 + 1) payload floor ∈ ex_seen ∧ decode ex_codec payload = Ok [Byte.x62] ∧ floor <= 5 + 1.
Proof.
  exact (proj1 (batch_ids_name_their_records ex_codec None 2 100 4 ltac:(unfold maxU64; lia) ltac:(lia) ltac:(lia)
            ex_envs ex_turn ex_outs ex_seen (Pending [[Byte.x61]; [Byte.x62]] 5 5 6 2 2 0 0) ex_run ex_rising
            (list_elem_of_lookup_2 ex_outs 1 _ eq_refl)) 1%nat [Byte.x62] eq_refl).
Defined.

(** The last range has not completed, so the mark stays below its record. *)
Lemma mark_never_passes_unresolved_witness :
  ∃ a fc fb, Tracker.acks (ranges ex_outs) [3; 0; 1; 2]%nat (Tracker.newAckTracker (4 - 1)) 0 0 = Some (a, fc, fb) ∧
    ∀ r, r ∈ ex_seen → rlsn r <= Tracker.mark a →
      ∃ i rg, i ∈ [3; 0; 1; 2]%nat ∧ ranges ex_outs !! i = Some rg ∧ Tracker.from rg <= rlsn r <= Tracker.to rg.
Proof.
  eapply (mark_never_passes_unresolved ex_codec None 2 100 4 ltac:(unfold maxU64; lia) ltac:(lia) ltac:(lia)
            ex_envs ex_turn ex_outs ex_seen _ ex_run ex_rising).
  - intros i r Hr. do 5 (destruct i as [|i]; [by injection Hr as <-|]). done.
  - split; [by apply (bool_decide_unpack _)|]. intros i Hi. change (length (ranges ex_outs)) with 5%nat.
    set_unfold. lia.
Defined.

End Flusher.
