(* ===== verification/Delivery.v ===== *)
(** * Deliveries (src/flush.go: [deliver], [deadLetter], [awaitRetry],
      [sinkPanicked], [completeRange])

    A delivery is the goroutine that carries one batch to the sink, and to the
    dead-letter sink when the sink will not have it.  Each attempt is a record of
    what the outside answered: the floor loaded, what the sink's [Flush] did,
    whether the buffer was aborting at each of the two points where that is
    asked, and how the wait before the next attempt went.  What the delivery
    does to the buffer is a list of effects. *)

From S2P Require Import Prelude Errors Tracker Sink Flusher.
From stdpp Require Import strings.
Import Sink Flusher.
Local Open Scope Z_scope.

Module Delivery.

(** [FlushInfo], without the measured duration. *)
Record FlushInfo := MkFlushInfo {
  fi_ID : Z; fi_Records : Z; fi_Bytes : Z; fi_Attempt : Z; fi_DeadLetter : bool;
  fi_Action : RetryAction; fi_Err : option error
}.

(** The settings a delivery reads. *)
Record settings := Settings {
  maxAttempts : Z; dlqAttempts : Z; hasDlq : bool;
  onSinkError : option (SinkFailure → call RetryDecision);
  backoff : Z → Z; deadLetterBackoff : Z → Z
}.

(** One turn of [awaitRetry]: the floor loaded after taking the gate, and which
    case of the [select] came. *)
Inductive waited := TimerFired | Shed | AbortClosed.
Record wake := Wake { w_floor : Z; w_case : waited }.

Record attempt_env := AttemptEnv {
  a_floor : Z;
  a_flush : call (option error);
  a_aborting1 : bool;
  a_failing : Z;            (* failingBatches.Load() after a success *)
  a_aborting2 : bool;
  a_wakes : list wake
}.

Section delivery.
Context {T : Type}.

(** What a delivery does to the rest of the buffer. *)
Inductive effect :=
| Called (dlq : bool) (b : Batch T)
| Observed (i : FlushInfo)
| Flushed (n : Z)
| Dropped (n : Z) (why : DropReason)
| DeadLettered (n : Z)
| Completed (from to count bytes : Z)
| Failed (err : error)
| Retried
| SinkFailed
| SinkRecovered
| Failing (d : Z)
| Waiting (delay : Z).

(** How far the answers given carried it: finished, or waiting for more. *)
Inductive status := Finished | Unfinished.

Definition awaitRetry : Z → list wake → option bool :=
  fix go (id : Z) (ws : list wake) : option bool :=
  match ws with
  | [] => None
  | w :: ws =>
      if id <? w_floor w then Some true
      else match w_case w with
           | TimerFired => Some true
           | Shed => go id ws
           | AbortClosed => Some false
           end
  end.

Definition completeRange (p : @pending T) : effect :=
  Completed (rangeFrom p) (rangeTo p) (count p + skipCount p) (bytes_ p + skipBytes p).

Context (cfg : settings).

Definition sinkPanicked (b : Batch T) (p : @pending T) (attempt : Z) (dlq : bool) (perr : error) : list effect :=
  [Observed (MkFlushInfo (ID b) (count p) (bytes_ p) attempt dlq FailBuffer (Some perr));
   Failed (Errorf (if dlq then "batch: dead-letter sink on batch" else "batch: sink on batch") [perr])].

Definition withAttempt (n : Z) (b : Batch T) : Batch T := MkBatch (ID b) (LogID b) (Records b) n.

(** The classification of one answer, skipped while aborting: the decision and
    the effect of a handler that panicked. *)
Definition consult (dlq aborting : bool) (b : Batch T) (p : @pending T) (attempt : Z) (err : option error) :
    RetryDecision * list effect :=
  if aborting then (zeroDecision, [])
  else match classify (onSinkError cfg) (MkSinkFailure (ID b) (count p) (bytes_ p) attempt dlq err) with
       | (d, None) => (d, [])
       | (d, Some perr) => (d, [Failed perr])
       end.

(** What one call of a sink reports: the call, what asking about its answer did,
    and the observer's event. *)
Definition reported (dlq : bool) (b : Batch T) (p : @pending T) (attempt : Z) (d : RetryDecision)
    (fx : list effect) (err : option error) : list effect :=
  Called dlq b :: fx ++ [Observed (MkFlushInfo (ID b) (count p) (bytes_ p) attempt dlq (Action d) err)].

(** The counters a refusal by the primary sink moves. *)
Definition refused (failing : bool) : list effect :=
  [SinkFailed] ++ (if failing then [] else [Failing 1]) ++ [Retried].

(** [deadLetter] past its test for a missing sink: the retry loop. *)
Fixpoint dlqLoop (b : Batch T) (p : @pending T) (attempt : Z) (es : list attempt_env) : list effect * status :=
  match es with
  | [] => ([], Unfinished)
  | e :: es =>
      if id p <? a_floor e then ([Dropped (count p) ReasonPolicy; completeRange p], Finished)
      else
        let b := withAttempt attempt b in
        match protect (a_flush e) with
        | Fail perr => (Called true b :: sinkPanicked b p attempt true perr, Finished)
        | Ok err =>
            let '(d, fx) := consult true (a_aborting1 e) b p attempt err in
            let seen := reported true b p attempt d fx err in
            match err with
            | None => (seen ++ [DeadLettered (count p); completeRange p], Finished)
            | Some err =>
                let seen := seen ++ [Retried] in
                if a_aborting2 e then (seen, Finished)
                else match Action d with
                     | DeadLetterBatch =>
                         (seen ++ [Dropped (count p) ReasonRetriesExhausted; completeRange p], Finished)
                     | FailBuffer =>
                         (seen ++ [Failed (Errorf "batch: dead-letter sink rejected batch" [err])], Finished)
                     | _ =>
                         if (0 <? dlqAttempts cfg) && (dlqAttempts cfg <=? attempt)
                         then (seen ++ [Dropped (count p) ReasonRetriesExhausted; completeRange p], Finished)
                         else
                           let seen := seen ++ [Waiting (retryDelay (deadLetterBackoff cfg) d attempt)] in
                           match awaitRetry (id p) (a_wakes e) with
                           | None => (seen, Unfinished)
                           | Some false => (seen, Finished)
                           | Some true => let '(fx, st) := dlqLoop b p (attempt + 1) es in (seen ++ fx, st)
                           end
                     end
            end
        end
  end.

Definition deadLetter (b : Batch T) (p : @pending T) (es : list attempt_env) : list effect * status :=
  if hasDlq cfg then dlqLoop b p 1 es
  else ([Dropped (count p) ReasonRetriesExhausted; completeRange p], Finished).

(** The deferred call of [deliver]. *)
Definition leave (failing : bool) : list effect := if failing then [Failing (-1)] else [].

(** [deliver], one attempt after another; [failing] is its local variable. *)
Fixpoint deliverLoop (b : Batch T) (p : @pending T) (failing : bool) (attempt : Z) (es : list attempt_env) :
    list effect * status :=
  match es with
  | [] => ([], Unfinished)
  | e :: es =>
      if id p <? a_floor e
      then ([Dropped (count p) ReasonPolicy; completeRange p] ++ leave failing, Finished)
      else
        let b := withAttempt attempt b in
        match protect (a_flush e) with
        | Fail perr => (Called false b :: sinkPanicked b p attempt false perr ++ leave failing, Finished)
        | Ok err =>
            let '(d, fx) := consult false (a_aborting1 e) b p attempt err in
            let seen := reported false b p attempt d fx err in
            match err with
            | None =>
                (seen ++ leave failing ++ (if a_failing e =? 0 then [SinkRecovered] else []) ++
                   [Flushed (count p); completeRange p], Finished)
            | Some err =>
                let seen := seen ++ refused failing in
                if a_aborting2 e then (seen ++ leave true, Finished)
                else match Action d with
                     | DeadLetterBatch =>
                         let '(fx, st) := deadLetter b p es in
                         (seen ++ fx ++ (match st with Finished => leave true | Unfinished => [] end), st)
                     | FailBuffer =>
                         (seen ++ [Failed (Errorf "batch: sink rejected batch" [err])] ++ leave true, Finished)
                     | _ =>
                         if (0 <? maxAttempts cfg) && (maxAttempts cfg <=? attempt)
                         then
                           let '(fx, st) := deadLetter b p es in
                           (seen ++ fx ++ (match st with Finished => leave true | Unfinished => [] end), st)
                         else
                           let seen := seen ++ [Waiting (retryDelay (backoff cfg) d attempt)] in
                           match awaitRetry (id p) (a_wakes e) with
                           | None => (seen, Unfinished)
                           | Some false => (seen ++ leave true, Finished)
                           | Some true => let '(fx, st) := deliverLoop b p true (attempt + 1) es in (seen ++ fx, st)
                           end
                     end
            end
        end
  end.

Definition deliver (b : Batch T) (p : @pending T) (es : list attempt_env) : list effect * status :=
  deliverLoop b p false 1 es.

(** ** What became of the batch *)

Definition loud (x : effect) : bool :=
  match x with Flushed _ | Dropped _ _ | DeadLettered _ | Completed _ _ _ _ | Failed _ => true | _ => false end.
Definition isFailed (x : effect) : bool := match x with Failed _ => true | _ => false end.

(** The effects that decide about records. *)
Definition marks (fx : list effect) : list effect := List.filter loud fx.

Definition abortSeen (e : attempt_env) : Prop :=
  a_aborting2 e = true ∨ ∃ w, w ∈ a_wakes e ∧ w_case w = AbortClosed.

(** The ways a batch's records are resolved, each counting all of them. *)
Inductive resolution (p : @pending T) : effect → Prop :=
| resolved_flushed : resolution p (Flushed (count p))
| resolved_dropped why : resolution p (Dropped (count p) why)
| resolved_dead : resolution p (DeadLettered (count p)).

(** One resolution followed by the acknowledgement of the range; or a failed
    buffer or an abort, with neither. *)
Definition disposed (p : @pending T) (es : list attempt_env) (m : list effect) (st : status) : Prop :=
  match st with
  | Unfinished => m = []
  | Finished =>
      (∃ x, resolution p x ∧ m = [x; completeRange p]) ∨
      (m ≠ [] ∧ Forall (λ x, isFailed x = true) m) ∨
      (m = [] ∧ Exists abortSeen es)
  end.

Lemma marks_app fx fx' : marks (fx ++ fx') = marks fx ++ marks fx'.
Proof. apply List.filter_app. Qed.

Lemma marks_leave failing : marks (leave failing) = [].
Proof. by destruct failing. Qed.

Lemma awaitRetry_abort id ws : awaitRetry id ws = Some false → ∃ w, w ∈ ws ∧ w_case w = AbortClosed.
Proof.
  induction ws as [|w ws IH]; simpl; [done|]. case_if; [done|]. destruct (w_case w) eqn:E; [done | |].
  - intros H. destruct (IH H) as (w' & ? & ?). exists w'. set_solver.
  - intros _. exists w. set_solver.
Qed.

(** Only a handler that panicked has an effect, and then the buffer fails. *)
Lemma consult_cases dlq ab b p n err d fx :
  consult dlq ab b p n err = (d, fx) →
  fx = [] ∨ (∃ e, fx = [Failed e]) ∧ Action d = FailBuffer ∧ is_Some err.
Proof.
  unfold consult, classify. simpl. destruct ab; [intros [= <- <-]; by left|].
  destruct err as [e|]; [|intros [= <- <-]; by left].
  destruct (onSinkError cfg) as [h|].
  - destruct (protect _) as [d'|perr]; intros [= <- <-]; [by left|]. right. eauto.
  - case_if; [intros [= <- <-]; by left|]. destruct (as_retry_after e); intros [= <- <-]; by left.
Qed.

Lemma disposed_cons p e es m st : disposed p es m st → disposed p (e :: es) m st.
Proof. destruct st; simpl; [|done]. intros [? | [? | [? ?]]]; auto. Qed.

Lemma disposed_failed p es m : m ≠ [] → Forall (λ x, isFailed x = true) m → disposed p es m Finished.
Proof. simpl. auto. Qed.

Lemma marks_reported dlq b p n d fx err : marks (reported dlq b p n d fx err) = marks fx.
Proof. unfold reported. cbn. fold (marks (fx ++ [Observed (MkFlushInfo (ID b) (count p) (bytes_ p) n dlq (Action d) err)])).
  rewrite marks_app. apply app_nil_r. Qed.

Lemma marks_refused failing : marks (refused failing) = [].
Proof. by destruct failing. Qed.

(** The marks of a run whose beginning is known. *)
Ltac marking :=
  rewrite ?marks_app, ?marks_reported, ?marks_refused, ?marks_leave; cbn [app]; rewrite ?app_nil_r.

Lemma resolved p es x : resolution p x → disposed p es [x; completeRange p] Finished.
Proof. simpl. eauto. Qed.

Lemma dlqLoop_disposed p es : ∀ b attempt fx st,
  dlqLoop b p attempt es = (fx, st) → disposed p es (marks fx) st.
Proof.
  induction es as [|e es IH]; intros b attempt fx st H; cbn [dlqLoop] in H; [by apply pair_equal_spec in H as [<- <-]|].
  case_if; [apply pair_equal_spec in H as [<- <-]; apply resolved; constructor|].
  destruct (protect (a_flush e)) as [err|perr] eqn:Ef; cycle 1.
  { apply pair_equal_spec in H as [<- <-]. by apply disposed_failed; [|repeat constructor]. }
  destruct (consult true _ _ p attempt err) as [d cfx] eqn:Ec. apply consult_cases in Ec.
  destruct err as [err|].
  2:{ apply pair_equal_spec in H as [<- <-]. destruct Ec as [-> | (_ & _ & [? ?])]; [|done]. marking. apply resolved. constructor. }
  destruct (a_aborting2 e) eqn:Ea2.
  { apply pair_equal_spec in H as [<- <-]. destruct Ec as [-> | ([x ->] & _)]; marking.
    - right. right. split; [done|]. left. by left.
    - by apply disposed_failed; [|repeat constructor]. }
  destruct Ec as [-> | ([x ->] & Hd & _)]; cycle 1.
  { rewrite Hd in H. apply pair_equal_spec in H as [<- <-]. marking. by apply disposed_failed; [|repeat constructor]. }
  destruct (Action d) eqn:Hd.
  2: { apply pair_equal_spec in H as [<- <-]. marking. apply resolved. constructor. }
  2: { apply pair_equal_spec in H as [<- <-]. marking. by apply disposed_failed; [|repeat constructor]. }
  all: case_if; [apply pair_equal_spec in H as [<- <-]; marking; apply resolved; constructor|].
  all: destruct (awaitRetry _ _) as [[]|] eqn:Ew;
    [| apply pair_equal_spec in H as [<- <-]; right; right; split; [done | left; right; by eapply awaitRetry_abort]
     | by apply pair_equal_spec in H as [<- <-]].
  all: destruct (dlqLoop _ p _ es) as [fx' st'] eqn:El; apply pair_equal_spec in H as [<- <-].
  all: apply IH in El; marking; by apply disposed_cons.
Qed.

Lemma deadLetter_disposed p es b fx st :
  deadLetter b p es = (fx, st) → disposed p es (marks fx) st.
Proof.
  unfold deadLetter. case_if; [by apply dlqLoop_disposed|]. intros [= <- <-]. apply resolved. constructor.
Qed.

(** A batch handed over to [deadLetter] in the middle of a delivery. *)
Lemma handed_over_disposed pre b p e es fx st :
  marks pre = [] →
  (let '(fx, st) := deadLetter b p es in
   (pre ++ fx ++ (match st with Finished => leave true | Unfinished => [] end), st)) = (fx, st) →
  disposed p (e :: es) (marks fx) st.
Proof.
  intros Hpre H. destruct (deadLetter b p es) as [fx' st'] eqn:El. apply deadLetter_disposed in El.
  apply pair_equal_spec in H as [<- <-]. rewrite !marks_app, Hpre. apply disposed_cons.
  destruct st'; by marking.
Qed.

Lemma deliverLoop_disposed p es : ∀ b failing attempt fx st,
  deliverLoop b p failing attempt es = (fx, st) → disposed p es (marks fx) st.
Proof.
  induction es as [|e es IH]; intros b failing attempt fx st H; cbn [deliverLoop] in H; [by apply pair_equal_spec in H as [<- <-]|].
  case_if; [apply pair_equal_spec in H as [<- <-]; destruct failing; apply (resolved p _ (Dropped _ _)); constructor|].
  destruct (protect (a_flush e)) as [err|perr] eqn:Ef; cycle 1.
  { apply pair_equal_spec in H as [<- <-]. apply disposed_failed; destruct failing; by repeat constructor. }
  destruct (consult false _ _ p attempt err) as [d cfx] eqn:Ec. apply consult_cases in Ec.
  destruct err as [err|].
  2:{ apply pair_equal_spec in H as [<- <-]. destruct Ec as [-> | (_ & _ & [? ?])]; [|done].
      destruct failing, (a_failing e =? 0); apply (resolved p _ (Flushed _)); constructor. }
  destruct (a_aborting2 e) eqn:Ea2.
  { apply pair_equal_spec in H as [<- <-]. destruct Ec as [-> | ([x ->] & _)]; marking.
    - right. right. split; [done|]. left. by left.
    - by apply disposed_failed; [|repeat constructor]. }
  destruct Ec as [-> | ([x ->] & Hd & _)]; cycle 1.
  { rewrite Hd in H. apply pair_equal_spec in H as [<- <-]. marking. by apply disposed_failed; [|repeat constructor]. }
  destruct (Action d) eqn:Hd.
  2: { eapply handed_over_disposed; [|exact H]. by marking. }
  2: { apply pair_equal_spec in H as [<- <-]. marking. by apply disposed_failed; [|repeat constructor]. }
  all: case_if; [eapply handed_over_disposed; [|exact H]; by marking|].
  all: destruct (awaitRetry _ _) as [[]|] eqn:Ew;
    [| apply pair_equal_spec in H as [<- <-]; marking; right; right; split; [done | left; right; by eapply awaitRetry_abort]
     | apply pair_equal_spec in H as [<- <-]; by marking].
  all: destruct (deliverLoop _ p _ _ es) as [fx' st'] eqn:El; apply pair_equal_spec in H as [<- <-].
  all: apply IH in El; marking; by apply disposed_cons.
Qed.

(** C19: a delivery disposes of its batch exactly once or not at all.  Once it
    has finished, either all of the batch's records were counted under exactly
    one of flushed, dropped and dead-lettered, and the range was acknowledged
    right after; or the buffer failed, or was aborting, and nothing was counted
    and nothing acknowledged, so the next Open replays the batch. *)
Theorem delivery_disposes_once p b es fx st :
  deliver b p es = (fx, st) → disposed p es (marks fx) st.
Proof. apply deliverLoop_disposed. Qed.

(** ** The calls a delivery makes *)

(** Follow a run down to the end of every branch. *)
Ltac unroll H :=
  repeat match type of H with
  | (match ?x with _ => _ end) = _ => destruct x eqn:?
  end; apply pair_equal_spec in H as [<- <-].

Definition called (dlq : bool) (x : effect) : option (Batch T) :=
  match x with Called d b => if Bool.eqb d dlq then Some b else None | _ => None end.
Definition calls (dlq : bool) (fx : list effect) : list (Batch T) := omap (called dlq) fx.

(** The same batch, with the attempts numbered from [a]. *)
Fixpoint resend (b : Batch T) (a : Z) (k : nat) : list (Batch T) :=
  match k with O => [] | S k => withAttempt a b :: resend b (a + 1) k end.

Lemma calls_app dlq fx fx' : calls dlq (fx ++ fx') = calls dlq fx ++ calls dlq fx'.
Proof. apply omap_app. Qed.

Lemma resend_again b a a' k : resend (withAttempt a' b) a k = resend b a k.
Proof. revert a. induction k as [|k IH]; intros a; [done|]. simpl. by rewrite IH. Qed.

(** Asking about an answer calls no sink, whatever the handler does. *)
Lemma calls_consult dlq ab b p n err d fx d' : consult dlq ab b p n err = (d, fx) → calls d' fx = [].
Proof. intros [-> | ([e ->] & _)]%consult_cases; done. Qed.

Lemma calls_reported d' dlq ab b p n err d fx : consult dlq ab b p n err = (d, fx) →
  calls d' (reported dlq b p n d fx err) = if Bool.eqb dlq d' then [b] else [].
Proof.
  intros Hc. unfold reported.
  match goal with |- context [Called dlq b :: ?l] => change (Called dlq b :: l) with ([Called dlq b] ++ l) end.
  rewrite !calls_app, (calls_consult _ _ _ _ _ _ _ _ _ Hc).
  simpl. by destruct (Bool.eqb dlq d').
Qed.

Lemma calls_refused d' failing : calls d' (refused failing) = [].
Proof. by destruct failing. Qed.
Lemma calls_leave d' failing : calls d' (leave failing) = [].
Proof. by destruct failing. Qed.
Lemma calls_recovered d' (z : bool) : calls d' (if z then [SinkRecovered] else []) = [].
Proof. by destruct z. Qed.

(** Every attempt is within the limit, if there is one. *)
Definition limited (limit a : Z) (k : nat) : Prop := 0 < limit → a <= limit → a + Z.of_nat k - 1 <= limit.

Lemma dlqLoop_calls p es : ∀ b a fx st, dlqLoop b p a es = (fx, st) →
  calls false fx = [] ∧ ∃ k, calls true fx = resend b a k ∧ limited (dlqAttempts cfg) a k.
Proof.
  assert (Hone : ∀ a, limited (dlqAttempts cfg) a 1) by (unfold limited; lia).
  induction es as [|e es IH]; intros b a fx st H; cbn [dlqLoop] in H.
  { apply pair_equal_spec in H as [<- <-]. split; [done|]. exists O. split; [done|]. unfold limited. lia. }
  unroll H.
  1: { split; [done|]. exists O. split; [done|]. unfold limited. lia. }
  all: try (match goal with H : consult _ _ _ _ _ _ = _ |- _ =>
    rewrite ?calls_app, !(calls_reported _ _ _ _ _ _ _ _ _ H) end; simpl).
  all: try match goal with H : dlqLoop _ _ _ _ = _ |- _ =>
    destruct (IH _ _ _ _ H) as (IH1 & k & IH2 & IH3) end.
  all: try (split; [by rewrite ?IH1|]).
  all: try (exists 1%nat; by split).
  all: exists (S k); rewrite IH2, resend_again; split; [done|]; bools;
    unfold limited in *; intros; specialize (IH3 ltac:(done)); lia.
Qed.

Lemma limited_zero l a : limited l a 0.
Proof. unfold limited. lia. Qed.
Lemma limited_one l a : limited l a 1.
Proof. unfold limited. lia. Qed.

Lemma deadLetter_calls p es b fx st : deadLetter b p es = (fx, st) →
  calls false fx = [] ∧ ∃ k, calls true fx = resend b 1 k ∧ limited (dlqAttempts cfg) 1 k.
Proof.
  unfold deadLetter. case_if; [apply dlqLoop_calls|]. intros [= <- <-]. split; [done|].
  exists O. split; [done | apply limited_zero].
Qed.

Lemma deliverLoop_calls p es : ∀ b failing a fx st, deliverLoop b p failing a es = (fx, st) →
  (∃ k, calls false fx = resend b a k ∧ limited (maxAttempts cfg) a k) ∧
  (∃ m, calls true fx = resend b 1 m ∧ limited (dlqAttempts cfg) 1 m).
Proof.
  induction es as [|e es IH]; intros b failing a fx st H; cbn [deliverLoop] in H.
  { apply pair_equal_spec in H as [<- <-]. split; exists O; (split; [done | apply limited_zero]). }
  unroll H.
  1: { destruct failing; split; exists O; (split; [done | apply limited_zero]). }
  all: try match goal with H : protect _ = Fail _ |- _ =>
    by destruct failing; (split; [exists 1%nat | exists O]; (split; [done | apply limited_one || apply limited_zero])) end.
  all: match goal with H : consult _ _ _ _ _ _ = _ |- _ =>
    rewrite ?calls_app, !(calls_reported _ _ _ _ _ _ _ _ _ H), ?calls_refused, ?calls_leave, ?calls_recovered end; simpl.
  all: try match goal with H : deadLetter _ _ _ = (_, ?st) |- _ =>
    apply deadLetter_calls in H as (-> & m & -> & Hm); rewrite resend_again; destruct st; simpl end.
  all: try (rewrite app_nil_r; split; [exists 1%nat; split; [done | apply limited_one] | by exists m]).
  all: try (split; [exists 1%nat; split; [done | apply limited_one] | exists O; split; [done | apply limited_zero]]).
  all: match goal with H : deliverLoop _ _ _ _ _ = _ |- _ =>
    destruct (IH _ _ _ _ _ H) as ((k & -> & Hk) & (m & -> & Hm)) end.
  all: rewrite !resend_again; split; [exists (S k) | by exists m]; split; [done|]; bools;
    unfold limited in *; intros; specialize (Hk ltac:(done)); lia.
Qed.

(** C33: retries resend the same batch.  Every call of the sink, and of the
    dead-letter sink after it, carries the same ID and the same records, numbered
    1, 2, 3 and so on for each sink; a configured limit on either is never
    exceeded. *)
Theorem retries_resend_the_batch p b es fx st :
  deliver b p es = (fx, st) →
  ∃ k m, calls false fx = resend b 1 k ∧ calls true fx = resend b 1 m ∧
    (0 < maxAttempts cfg → Z.of_nat k <= maxAttempts cfg) ∧ (0 < dlqAttempts cfg → Z.of_nat m <= dlqAttempts cfg).
Proof.
  intros H. destruct (deliverLoop_calls p es b false 1 fx st H) as ((k & Hk & Lk) & (m & Hm & Lm)).
  exists k, m. unfold limited in *. split; [done|]. split; [done|]. split; intros; [specialize (Lk ltac:(done)) | specialize (Lm ltac:(done))]; lia.
Qed.

(** ** Termination *)

(** Every wait comes back. *)
Definition waits_end (p : @pending T) (es : list attempt_env) : Prop :=
  Forall (λ e, awaitRetry (id p) (a_wakes e) ≠ None) es.

Lemma dlqLoop_finishes p es : ∀ b a fx st,
  0 < dlqAttempts cfg → 1 <= a <= dlqAttempts cfg → dlqAttempts cfg - a < len es → waits_end p es →
  dlqLoop b p a es = (fx, st) → st = Finished.
Proof.
  induction es as [|e es IH]; intros b a fx st Hd Ha Hl Hw H; [rewrite len_nil in Hl; lia|].
  apply Forall_cons in Hw as [Hwe Hw]. rewrite len_cons in Hl. cbn [dlqLoop] in H. unroll H; try done.
  all: match goal with H : dlqLoop _ _ _ _ = _ |- _ => eapply IH in H; [done | done | | | done] end; bools.
  all: destruct (decide (dlqAttempts cfg <= a)) as [Hle|]; [exfalso|lia].
  all: match goal with H : _ ∨ _ |- _ => destruct H; bools; lia end.
Qed.

Lemma deliverLoop_finishes p es : ∀ b failing a fx st,
  0 < maxAttempts cfg → 0 < dlqAttempts cfg → 1 <= a <= maxAttempts cfg →
  maxAttempts cfg - a + dlqAttempts cfg < len es → waits_end p es →
  deliverLoop b p failing a es = (fx, st) → st = Finished.
Proof.
  induction es as [|e es IH]; intros b failing a fx st Hm Hd Ha Hl Hw H; [rewrite len_nil in Hl; lia|].
  apply Forall_cons in Hw as [Hwe Hw]. rewrite len_cons in Hl. cbn [deliverLoop] in H.
  assert (Hdl : ∀ fx st, deadLetter (withAttempt a b) p es = (fx, st) → st = Finished).
  { intros fx0 st0. unfold deadLetter. case_if; [|by intros [= _ <-]]. apply dlqLoop_finishes; [done | lia | lia | done]. }
  unroll H; try done; try by eapply Hdl.
  all: match goal with H : deliverLoop _ _ _ _ _ = _ |- _ => eapply IH in H; [done | done | done | | | done] end; bools.
  all: destruct (decide (maxAttempts cfg <= a)) as [Hle|]; [exfalso|lia].
  all: match goal with H : _ ∨ _ |- _ => destruct H; bools; lia end.
Qed.

(** C34: with both limits set a delivery ends.  If every wait comes back, the
    answers to as many calls as the two limits allow together are enough for the
    batch to be disposed of (or for the buffer to have failed or aborted), so it
    cannot hold its delivery slot for ever. *)
Theorem bounded_delivery_ends p b es :
  0 < maxAttempts cfg → 0 < dlqAttempts cfg → maxAttempts cfg + dlqAttempts cfg <= len es → waits_end p es →
  ∃ fx, deliver b p es = (fx, Finished) ∧ disposed p es (marks fx) Finished.
Proof.
  intros Hm Hd Hl Hw. unfold deliver. destruct (deliverLoop b p false 1 es) as [fx st] eqn:E.
  assert (st = Finished) as -> by (apply (deliverLoop_finishes p es b false 1 fx st); first [done | lia]).
  exists fx. split; [done | by eapply deliverLoop_disposed].
Qed.

(** ** The failing-batches count *)

Definition net (fx : list effect) : Z := foldr (λ x z, match x with Failing d => d + z | _ => z end) 0 fx.

Lemma net_app fx fx' : net (fx ++ fx') = net fx + net fx'.
Proof. induction fx as [|x fx IH]; [done|]. simpl. destruct x; rewrite IH; lia. Qed.

Lemma net_reported dlq ab b p n err d fx : consult dlq ab b p n err = (d, fx) →
  net (reported dlq b p n d fx err) = 0.
Proof. intros [-> | ([e ->] & _)]%consult_cases; done. Qed.

Lemma dlqLoop_net p es : ∀ b a fx st, dlqLoop b p a es = (fx, st) → net fx = 0.
Proof.
  induction es as [|e es IH]; intros b a fx st H; cbn [dlqLoop] in H; [by apply pair_equal_spec in H as [<- _]|].
  unroll H; try done;
    match goal with H : consult _ _ _ _ _ _ = _ |- _ => rewrite !net_app, (net_reported _ _ _ _ _ _ _ _ H) end; try done.
  all: match goal with H : dlqLoop _ _ _ _ = _ |- _ => apply IH in H; simpl; lia end.
Qed.

Definition armed (failing : bool) : Z := if failing then 1 else 0.

Lemma deliverLoop_net p es : ∀ b failing a fx st, deliverLoop b p failing a es = (fx, st) →
  match st with Finished => net fx = - armed failing | Unfinished => 0 <= net fx + armed failing <= 1 end.
Proof.
  assert (Hd : ∀ b es fx st, deadLetter b p es = (fx, st) → net fx = 0).
  { intros b0 es0 fx0 st0. unfold deadLetter. case_if; [apply dlqLoop_net|]. by intros [= <- _]. }
  induction es as [|e es IH]; intros b failing a fx st H; cbn [deliverLoop] in H.
  { apply pair_equal_spec in H as [<- <-]. by destruct failing. }
  unroll H; try (by destruct failing);
    match goal with H : consult _ _ _ _ _ _ = _ |- _ => rewrite !net_app, (net_reported _ _ _ _ _ _ _ _ H) end;
    try (destruct failing; done).
  all: try match goal with H : deadLetter _ _ _ = _ |- _ => apply Hd in H; rewrite H end.
  all: try (match goal with |- context [leave true] => idtac end; repeat case_match; destruct failing; simpl in *; lia).
  all: try (destruct failing, (a_failing e =? 0); done).
  all: match goal with H : deliverLoop _ _ _ _ _ = _ |- _ => apply IH in H; repeat case_match; destruct failing; simpl in *; lia end.
Qed.

(** Every finished delivery gives back its place among the failing batches,
    on every way out; while it runs it holds at most one. *)
Theorem failing_count_is_returned p b es fx st :
  deliver b p es = (fx, st) →
  match st with Finished => net fx = 0 | Unfinished => 0 <= net fx <= 1 end.
Proof. intros H%deliverLoop_net. destruct st; simpl in H; lia. Qed.

(** ** Causes *)

(** A call the sink refused. *)
Definition failedCall (e : attempt_env) : Prop := ∃ err, a_flush e = Returned (Some err).

(** The [n]th answer of a sink is a verdict on the batch: an error that wraps
    [ErrPermanent] or, with a handler, the handler's own word for it. *)
Definition verdict (dlq : bool) (b : Batch T) (p : @pending T) (n : Z) (e : attempt_env) (err : error) : Prop :=
  a_aborting1 e = false ∧
  match onSinkError cfg with
  | None => errorsIs err Permanent = true
  | Some h => ∃ d, h (MkSinkFailure (ID b) (count p) (bytes_ p) n dlq (Some err)) = Returned d ∧ Action d = DeadLetterBatch
  end.

(** After the answers [es] a sink with the limit [limit] is asked no more: it
    refused every call, and the last one was final or the [limit]th. *)
Definition givesUp (dlq : bool) (limit : Z) (b : Batch T) (p : @pending T) (es : list attempt_env) : Prop :=
  ∃ pre e err, es = pre ++ [e] ∧ Forall failedCall pre ∧ a_flush e = Returned (Some err) ∧ a_aborting2 e = false ∧
    (verdict dlq b p (len es) e err ∨ 0 < limit <= len es).

(** The last of the answers [es] accepts the batch, after refusals only. *)
Definition accepts (es : list attempt_env) : Prop :=
  ∃ pre e, es = pre ++ [e] ∧ Forall failedCall pre ∧ a_flush e = Returned None.

(** What must have happened for an effect on records: [E] are the answers in the
    order they came, the sink's first. *)
Definition grounded (b : Batch T) (p : @pending T) (E : list attempt_env) (x : effect) : Prop :=
  let gaveUp es := givesUp false (maxAttempts cfg) b p es in
  match x with
  | Flushed _ => ∃ es rest, E = es ++ rest ∧ accepts es
  | DeadLettered _ => hasDlq cfg = true ∧ ∃ es es' rest, E = es ++ es' ++ rest ∧ gaveUp es ∧ accepts es'
  | Dropped _ ReasonPolicy => ∃ e, e ∈ E ∧ id p < a_floor e
  | Dropped _ ReasonDecode => False
  | Dropped _ ReasonRetriesExhausted =>
      ∃ es rest, E = es ++ rest ∧ gaveUp es ∧
        (hasDlq cfg = false ∨ ∃ es' rest', rest = es' ++ rest' ∧ givesUp true (dlqAttempts cfg) b p es')
  | Called true _ => hasDlq cfg = true ∧ ∃ es rest, E = es ++ rest ∧ gaveUp es
  | _ => True
  end.

Lemma protect_ok {A} (c : call A) a : protect c = Ok a → c = Returned a.
Proof. by destruct c; intros [= ->]. Qed.

Lemma consult_verdict dlq e b b' p n err d fx : ID b' = ID b → consult dlq (a_aborting1 e) b' p n (Some err) = (d, fx) →
  Action d = DeadLetterBatch → verdict dlq b p n e err.
Proof.
  intros Hid. unfold consult, classify, verdict. simpl. rewrite Hid.
  destruct (a_aborting1 e); [by intros [= <- _]|]. intros H Ha. split; [done|].
  destruct (onSinkError cfg) as [h|].
  - destruct (protect _) as [d'|perr] eqn:Ep; [|by injection H as <- _]. injection H as -> _. apply protect_ok in Ep. eauto.
  - case_if; [done|]. destruct (as_retry_after err); by injection H as <- _.
Qed.

(** Check a list of effects one by one. *)
Ltac grounds :=
  repeat first [apply Forall_nil_2 | apply Forall_cons_2;
    [first [exact I | (eexists; split; eassumption) | match goal with H : ∀ _, grounded _ _ _ _ |- _ => apply H end]|]].

Lemma grounded_reported E dlq ab b b' p n err d fx :
  consult dlq ab b p n err = (d, fx) → (dlq = true → ∀ b1, grounded b' p E (Called true b1)) →
  Forall (grounded b' p E) (reported dlq b p n d fx err).
Proof.
  intros Hc Hd. unfold reported. apply Forall_cons. split; [destruct dlq; [by apply Hd | done]|].
  apply Forall_app. split; [|by repeat constructor].
  by apply consult_cases in Hc as [-> | ([e ->] & _)]; repeat constructor.
Qed.

(** The attempts are the answers: after [pre] refusals the next one has number
    [len pre + 1]. *)
Lemma given_up dlq limit b b' p pre e err d fx : ID b' = ID b →
  Forall failedCall pre → protect (a_flush e) = Ok (Some err) → a_aborting2 e = false →
  consult dlq (a_aborting1 e) b' p (len pre + 1) (Some err) = (d, fx) →
  Action d = DeadLetterBatch ∨ 0 < limit <= len pre + 1 → givesUp dlq limit b p (pre ++ [e]).
Proof.
  intros Hid Hp He%protect_ok H2 Hc Hd. exists pre, e, err. split; [done|]. split; [done|]. split; [done|]. split; [done|].
  rewrite len_app. change (len [e]) with 1. destruct Hd as [Hd|Hd]; [left; by eapply consult_verdict | by right].
Qed.

Lemma refused_again pre e err : Forall failedCall pre → protect (a_flush e) = Ok (Some err) →
  Forall failedCall (pre ++ [e]).
Proof. intros Hp He%protect_ok. apply Forall_app. split; [done|]. repeat constructor. by exists err. Qed.

Lemma accepted pre e : Forall failedCall pre → protect (a_flush e) = Ok None → accepts (pre ++ [e]).
Proof. intros Hp He%protect_ok. by exists pre, e. Qed.

Lemma len_snoc {A} (l : list A) x : len (l ++ [x]) = len l + 1.
Proof. by rewrite len_app. Qed.

Lemma dlqLoop_grounded b p E es0 : hasDlq cfg = true → givesUp false (maxAttempts cfg) b p es0 →
  ∀ es pre b' fx st, E = es0 ++ pre ++ es → Forall failedCall pre → ID b' = ID b →
  dlqLoop b' p (len pre + 1) es = (fx, st) → Forall (grounded b p E) fx.
Proof.
  intros Hq Hg. induction es as [|e es IH]; intros pre b' fx st HE Hp Hid H; cbn [dlqLoop] in H.
  { apply pair_equal_spec in H as [<- _]. constructor. }
  assert (He : e ∈ E) by (rewrite HE; set_solver).
  assert (HE' : E = es0 ++ (pre ++ [e]) ++ es) by (by rewrite <- !app_assoc).
  assert (Hcall : ∀ b1, grounded b p E (Called true b1)) by (intros b1; split; [done | by exists es0, (pre ++ e :: es)]).
  assert (Hgive : givesUp true (dlqAttempts cfg) b p (pre ++ [e]) →
    Forall (grounded b p E) [Dropped (count p) ReasonRetriesExhausted; completeRange p]).
  { intros Hu. apply Forall_cons_2; [|by grounds]. exists es0, (pre ++ e :: es). split; [done|]. split; [done|]. right.
    exists (pre ++ [e]), es. by rewrite <- app_assoc. }
  unroll H; bools.
  1: { by grounds. }
  all: try (by grounds).
  all: rewrite ?Forall_app; repeat split;
    try (match goal with H : consult _ _ _ _ _ _ = _ |- _ => by apply (grounded_reported _ _ _ _ _ _ _ _ _ _ H) end).
  all: try (by grounds).
  all: try (apply Hgive; eapply given_up; [|done..|]; [done | first [by left | right; lia]]).
  all: try match goal with H : dlqLoop _ _ _ _ = _ |- _ =>
    rewrite <- (len_snoc pre e) in H; eapply IH in H; [exact H | exact HE' | by eapply refused_again | done] end.
  apply Forall_cons_2; [|by grounds]. split; [done|]. exists es0, (pre ++ [e]), es. split; [done|]. split; [done|]. by apply accepted.
Qed.

Lemma deliverLoop_grounded b p E es : ∀ pre b' failing fx st, E = pre ++ es → Forall failedCall pre → ID b' = ID b →
  deliverLoop b' p failing (len pre + 1) es = (fx, st) → Forall (grounded b p E) fx.
Proof.
  assert (Hleave : ∀ f, Forall (grounded b p E) (leave f)) by (intros []; by grounds).
  assert (Href : ∀ f, Forall (grounded b p E) (refused f)) by (intros []; by grounds).
  induction es as [|e es IH]; intros pre b' failing fx st HE Hp Hid H; cbn [deliverLoop] in H.
  { apply pair_equal_spec in H as [<- _]. constructor. }
  assert (He : e ∈ E) by (rewrite HE; set_solver).
  assert (HE' : E = (pre ++ [e]) ++ es) by (by rewrite <- !app_assoc).
  assert (Hdl : ∀ b1 fx st, ID b1 = ID b → givesUp false (maxAttempts cfg) b p (pre ++ [e]) →
    deadLetter b1 p es = (fx, st) → Forall (grounded b p E) fx).
  { intros b1 fx0 st0 Hid1 Hu. unfold deadLetter. destruct (hasDlq cfg) eqn:Eq.
    - by apply (dlqLoop_grounded b p E (pre ++ [e]) Eq Hu es []).
    - intros [= <- _]. apply Forall_cons_2; [|by grounds]. exists (pre ++ [e]), es. split; [done|]. split; [done|]. by left. }
  unroll H.
  1: { apply Forall_app. split; [|done]. bools. by grounds. }
  all: try (apply Forall_cons; split; [done|]; apply Forall_app; split; [by grounds | done]).
  all: rewrite ?Forall_app; repeat split; try apply Hleave; try apply Href;
    try (match goal with H : consult _ _ _ _ _ _ = _ |- _ => by apply (grounded_reported _ _ _ _ _ _ _ _ _ _ H) end).
  all: try (by grounds).
  all: try (by repeat case_match; grounds).
  all: try match goal with H : deliverLoop _ _ _ _ _ = _ |- _ =>
    rewrite <- (len_snoc pre e) in H; eapply IH in H; [exact H | exact HE' | by eapply refused_again | done] end.
  all: try (eapply Hdl; [|eapply given_up|eassumption]; done || (bools; first [by left | right; lia])).
  apply Forall_cons_2; [|by grounds]. exists (pre ++ [e]), es. split; [done|]. by apply accepted.
Qed.

Lemma deliver_grounded p b es fx st x : deliver b p es = (fx, st) → x ∈ fx → grounded b p es x.
Proof.
  intros H Hx. pose proof (deliverLoop_grounded b p es es [] b false fx st eq_refl ltac:(constructor) eq_refl H) as HF.
  rewrite Forall_forall in HF. by apply HF.
Qed.

(** C32: nothing is counted without its cause, and the cause is in the answers in
    their order.  A batch counts as flushed only if its sink accepted it after
    nothing but refusals, and as dropped by policy only if the floor passed its first
    record.  The dead-letter sink is called only after the sink has given up: every
    call was refused, and the last refusal was a verdict on the batch or the attempt
    that a configured limit allows as the last.  It counts as dead-lettered only if the
    dead-letter sink then accepted it, and as dropped for want of retries only if there
    is no such sink or that one has given up in the same way, by its own limit. *)
Theorem nothing_without_a_cause p b es fx st x :
  deliver b p es = (fx, st) → x ∈ fx → grounded b p es x.
Proof. apply deliver_grounded. Qed.
End delivery.

(** A batch the sink refuses twice, its limit, and the dead-letter sink takes. *)
Definition ex_cfg : settings := Settings 2 3 true None (λ _, 100) (λ _, 100).
Definition ex_pending : @pending Z := Pending [41; 42] 7 7 8 2 20 0 0.
Definition ex_batch : Batch Z := MkBatch 7 [] [41; 42] 0.
Definition ex_refusal : attempt_env :=
  AttemptEnv 0 (Returned (Some (Sentinel EIO))) false 0 false [Wake 0 Shed; Wake 0 TimerFired].
Definition ex_answers : list attempt_env :=
  [ex_refusal; ex_refusal; AttemptEnv 0 (Returned None) false 0 false []].
Definition ex_effects : list (@effect Z) := Eval vm_compute in (deliver ex_cfg ex_batch ex_pending ex_answers).1.

Lemma ex_delivery : deliver ex_cfg ex_batch ex_pending ex_answers = (ex_effects, Finished).
Proof. reflexivity. Qed.

Lemma delivery_disposes_once_witness :
  disposed ex_pending ex_answers (marks ex_effects) Finished ∧
  marks ex_effects = [DeadLettered 2; Completed 7 8 2 20].
Proof.
  split; [exact (delivery_disposes_once ex_cfg ex_pending ex_batch ex_answers ex_effects Finished ex_delivery)|].
  reflexivity.
Defined.

Lemma retries_resend_the_batch_witness :
  ∃ k m, calls false ex_effects = resend ex_batch 1 k ∧ calls true ex_effects = resend ex_batch 1 m ∧
    (0 < 2 → Z.of_nat k <= 2) ∧ (0 < 3 → Z.of_nat m <= 3).
Proof. exact (retries_resend_the_batch ex_cfg ex_pending ex_batch ex_answers ex_effects Finished ex_delivery). Defined.

Lemma bounded_delivery_ends_witness :
  ∃ fx, deliver ex_cfg ex_batch ex_pending (replicate 5 ex_refusal) = (fx, Finished) ∧
        disposed ex_pending (replicate 5 ex_refusal) (marks fx) Finished.
Proof.
  apply (bounded_delivery_ends ex_cfg ex_pending ex_batch (replicate 5 ex_refusal)); [done | done | done |].
  by repeat constructor.
Defined.

Lemma failing_count_is_returned_witness : net ex_effects = 0.
Proof. exact (failing_count_is_returned ex_cfg ex_pending ex_batch ex_answers ex_effects Finished ex_delivery). Defined.

Lemma nothing_without_a_cause_witness : grounded ex_cfg ex_batch ex_pending ex_answers (DeadLettered 2).
Proof.
  apply (nothing_without_a_cause ex_cfg ex_pending ex_batch ex_answers ex_effects Finished (DeadLettered 2) ex_delivery).
  unfold ex_effects. set_solver.
Defined.

End Delivery.
