(* ===== verification/Policy.v ===== *)
(** * Backpressure policies (src/policy.go) *)

From S2P Require Import Prelude.
From stdpp Require Import strings.
Local Open Scope Z_scope.

Module Policy.

(** [Decision] is an integer in the source: a policy can return one that has no
    name, which the callers treat like a block. *)
Inductive Decision :=
| DecisionBlock | DecisionReject | DecisionDropNewest | DecisionDropOldest | UnknownDecision (n : Z).

Definition DecisionString (d : Decision) : string :=
  match d with
  | DecisionBlock => "block"
  | DecisionReject => "reject"
  | DecisionDropNewest => "drop_newest"
  | DecisionDropOldest => "drop_oldest"
  | UnknownDecision _ => "unknown"
  end.

Record State := MkState {
  Records : Z; Bytes : Z; MaxRecords : Z; MaxBytes : Z; OldestAge : Z; SinkFailures : Z;
  DiskFull : bool; Attempt : Z; Waited : Z
}.

(** [Policy.OnFull], without the context: only a policy of the caller's own can
    look at it. *)
Definition Policy := State → Decision.

Definition constant (d : Decision) : Policy := λ _, d.
Definition Block : Policy := constant DecisionBlock.
Definition Reject : Policy := constant DecisionReject.
Definition DropNewest : Policy := constant DecisionDropNewest.
Definition DropOldest : Policy := constant DecisionDropOldest.

Definition BlockThenDropOldest (grace : Z) : Policy := λ s,
  if grace <? OldestAge s then DecisionDropOldest else DecisionBlock.

End Policy.
