(* ===== verification/Contexts.v ===== *)
(** * The context a policy is handed (src/batch.go: [policyCtx])

    A policy gets its write's own context, cancelled as well when Close begins.  It
    is derived on first use and hooked to the closing context with
    [context.AfterFunc]; a deferred [release] undoes both.  Any number of writes
    do this side by side, against one closing context. *)

From S2P Require Import Prelude.
From stdpp Require Import relations gmap sets.

Module Contexts.

(** A context of [context.WithCancel]: what it derives from, and whether its cancel
    function has been called. *)
Record derived := Derived { parent : nat; cancelled : bool }.

(** What the contexts share.  [ended] are the callers' contexts that are done,
    [closingOver] is whether [closingCancel] has been called, [armed] are the derived
    contexts whose hook waits on it, and [firing] those whose hook has been started and
    has not called [cancel] yet. *)
Record contexts := MkContexts {
  ended : gset nat;
  closingOver : bool;
  made : list derived;
  armed : gset nat;
  firing : gset nat
}.

(** [policyCtx]: its [ctx], and with it its [stop], is set on first use. *)
Definition policyCtx : Type := option nat.

Definition cancel (i : nat) (c : contexts) : contexts :=
  MkContexts (ended c) (closingOver c) (alter (λ d, Derived (parent d) true) i (made c)) (armed c) (firing c).

(** [context.AfterFunc] on the closing context: at once if that is over. *)
Definition afterClosing (i : nat) (c : contexts) : contexts :=
  if closingOver c then MkContexts (ended c) true (made c) (armed c) ({[i]} ∪ firing c)
  else MkContexts (ended c) false (made c) ({[i]} ∪ armed c) (firing c).

(** [unhook]: in time only while the hook has not been started. *)
Definition unhook (i : nat) (c : contexts) : contexts :=
  MkContexts (ended c) (closingOver c) (made c) (armed c ∖ {[i]}) (firing c).

Definition get (p : policyCtx) (own : nat) (c : contexts) : policyCtx * contexts :=
  match p with
  | Some i => (Some i, c)
  | None =>
      let i := length (made c) in
      (Some i, afterClosing i (MkContexts (ended c) (closingOver c) (made c ++ [Derived own false]) (armed c) (firing c)))
  end.

Definition release (p : policyCtx) (c : contexts) : contexts :=
  match p with
  | Some i => cancel i (unhook i c)
  | None => c
  end.

(** Whether a derived context is done. *)
Definition isDone (i : nat) (c : contexts) : Prop :=
  ∃ d, made c !! i = Some d ∧ (cancelled d = true ∨ parent d ∈ ended c).

(** A write: the context it was called with, its [policyCtx], and whether it has
    returned. *)
Record write := MkWrite { own : nat; pc : policyCtx; returned : bool }.

Record sys := Sys { ctxs : contexts; writes : list write }.

Definition start : sys := Sys (MkContexts ∅ false [] ∅ ∅) [].

(** Writes arrive, consult their policy any number of times and return; callers end
    their contexts; Close begins; hooks it has started run. *)
Inductive step : sys → sys → Prop :=
| st_arrive s o : step s (Sys (ctxs s) (writes s ++ [MkWrite o None false]))
| st_consult s k w p c :
    writes s !! k = Some w → returned w = false → get (pc w) (own w) (ctxs s) = (p, c) →
    step s (Sys c (<[k := MkWrite (own w) p false]> (writes s)))
| st_return s k w :
    writes s !! k = Some w → returned w = false →
    step s (Sys (release (pc w) (ctxs s)) (<[k := MkWrite (own w) (pc w) true]> (writes s)))
| st_end s o :
    step s (Sys (MkContexts ({[o]} ∪ ended (ctxs s)) (closingOver (ctxs s)) (made (ctxs s)) (armed (ctxs s)) (firing (ctxs s)))
             (writes s))
| st_close s :
    step s (Sys (MkContexts (ended (ctxs s)) true (made (ctxs s)) ∅ (armed (ctxs s) ∪ firing (ctxs s))) (writes s))
| st_fire s i :
    i ∈ firing (ctxs s) →
    step s (Sys (cancel i (MkContexts (ended (ctxs s)) (closingOver (ctxs s)) (made (ctxs s)) (armed (ctxs s))
                             (firing (ctxs s) ∖ {[i]}))) (writes s)).

Definition reachable (s : sys) : Prop := rtc step start s.

(** ** The invariant *)

(** The context of a write: while the write runs, it is cancelled only by Close, and is
    hooked to it, or its hook is running, or has. *)
Definition attended (c : contexts) (w : write) (i : nat) : Prop :=
  ∃ d, made c !! i = Some d ∧ parent d = own w ∧
    if returned w then cancelled d = true ∧ i ∉ armed c
    else (cancelled d = true → closingOver c = true) ∧
         (if closingOver c then cancelled d = true ∨ i ∈ firing c else i ∈ armed c).

Record inv (s : sys) : Prop := {
  v_attended : ∀ k w i, writes s !! k = Some w → pc w = Some i → attended (ctxs s) w i;
  v_apart : ∀ k k' w w' i, writes s !! k = Some w → writes s !! k' = Some w' → pc w = Some i → pc w' = Some i → k = k';
  v_armed : ∀ i, i ∈ armed (ctxs s) → ∃ k w, writes s !! k = Some w ∧ pc w = Some i ∧ returned w = false;
  v_firing : ∀ i, i ∈ firing (ctxs s) → closingOver (ctxs s) = true
}.

Lemma inv_start : inv start.
Proof. split; simpl; try done; set_solver. Qed.

(** What happens to other contexts leaves a write's own alone. *)
Lemma attended_mono c c' w i :
  made c' !! i = made c !! i → closingOver c' = closingOver c → (i ∈ armed c' ↔ i ∈ armed c) →
  (i ∈ firing c → i ∈ firing c') → attended c w i → attended c' w i.
Proof.
  intros Em Ec Ha Hf (d & Hd & Hp & H). exists d. rewrite Em, Ec. split; [done|]. split; [done|].
  destruct (returned w); [by destruct H; split; [|rewrite Ha]|]. destruct H as [H1 H2]. split; [done|].
  destruct (closingOver c); [destruct H2; auto | by apply Ha].
Qed.

Lemma attended_lt c w i : attended c w i → i < length (made c).
Proof. intros (d & Hd & _). by eapply lookup_lt_Some. Qed.

Lemma get_same i o c : get (Some i) o c = (Some i, c).
Proof. done. Qed.

(** A first consultation derives a context of its own. *)
Lemma inv_first s k w c p :
  inv s → writes s !! k = Some w → returned w = false → pc w = None → get None (own w) (ctxs s) = (p, c) →
  inv (Sys c (<[k := MkWrite (own w) p false]> (writes s))).
Proof.
  intros [Hat Hap Har Hfi] Hk Hr Hp H. unfold get in H. injection H as <- <-. set (i := length (made (ctxs s))).
  assert (Hother : ∀ k' w' j, writes s !! k' = Some w' → pc w' = Some j → k ≠ k' ∧ j ≠ i).
  { intros k' w' j Hk' Hj. split; [intros <-; congruence|]. pose proof (attended_lt _ _ _ (Hat _ _ _ Hk' Hj)). unfold i. lia. }
  split; simpl.
  - intros k' w' j Hk' Hj. apply list_lookup_insert_Some in Hk' as [(<- & <- & _)|(Hne & Hk')]; simpl in *.
    + injection Hj as <-. exists (Derived (own w) false). unfold afterClosing. simpl.
      destruct (closingOver (ctxs s)); simpl; (split; [by rewrite lookup_app_r, Nat.sub_diag|]); split; try done; split; try done; set_solver.
    + destruct (Hother _ _ _ Hk' Hj) as [_ Hji]. pose proof (Hat _ _ _ Hk' Hj) as A. pose proof (attended_lt _ _ _ A).
      eapply attended_mono; [| | | | exact A]; unfold afterClosing; simpl; destruct (closingOver (ctxs s)) eqn:Ec; simpl; try done;
        try (by apply lookup_app_l); try (by rewrite Ec); set_solver.
  - intros k1 k2 w1 w2 j H1 H2 Hj1 Hj2.
    apply list_lookup_insert_Some in H1 as [(<- & <- & _)|(Hne1 & H1)], H2 as [(<- & <- & _)|(Hne2 & H2)].
    + done.
    + injection Hj1 as <-. by destruct (Hother _ _ _ H2 Hj2).
    + injection Hj2 as <-. by destruct (Hother _ _ _ H1 Hj1).
    + by eapply Hap.
  - intros j Hj. assert (Hold : j ∈ armed (ctxs s) → ∃ k' w', <[k:=MkWrite (own w) (Some i) false]> (writes s) !! k' = Some w' ∧ pc w' = Some j ∧ returned w' = false).
    { intros Hj'. destruct (Har _ Hj') as (k' & w' & Hk' & Hp' & Hr'). exists k', w'. split; [|done].
      rewrite list_lookup_insert_ne; [done|]. by destruct (Hother _ _ _ Hk' Hp'). }
    unfold afterClosing in Hj. destruct (closingOver (ctxs s)); simpl in Hj; [auto|].
    apply elem_of_union in Hj as [->%elem_of_singleton|Hj]; [|auto].
    exists k, (MkWrite (own w) (Some i) false). split; [|done]. apply list_lookup_insert_eq. by eapply lookup_lt_Some.
  - intros j. unfold afterClosing. simpl. destruct (closingOver (ctxs s)) eqn:Ec; simpl; [done|]. intros Hj. apply Hfi in Hj. congruence.
Qed.

(** A write that returns leaves nothing registered. *)
Lemma inv_return s k w : inv s → writes s !! k = Some w → returned w = false →
  inv (Sys (release (pc w) (ctxs s)) (<[k := MkWrite (own w) (pc w) true]> (writes s))).
Proof.
  intros [Hat Hap Har Hfi] Hk Hr. split; simpl.
  - intros k' w' j Hk' Hj. apply list_lookup_insert_Some in Hk' as [(<- & <- & _)|(Hne & Hk')]; simpl in *.
    + rewrite Hj. destruct (Hat _ _ _ Hk Hj) as (d & Hd & Hpa & _). exists (Derived (parent d) true). simpl.
      rewrite list_lookup_alter_eq, Hd. simpl. split; [done|]. split; [done|]. set_solver.
    + pose proof (Hat _ _ _ Hk' Hj) as A. destruct (pc w) as [i|] eqn:Ei; [|done].
      assert (Hji : j ≠ i) by (intros ->; exact (Hne (Hap _ _ _ _ _ Hk Hk' Ei Hj))).
      eapply attended_mono; [| | | | exact A]; simpl; [by rewrite list_lookup_alter_ne | done | set_solver | done].
  - assert (Hsame : ∀ k1 w1, <[k:=MkWrite (own w) (pc w) true]> (writes s) !! k1 = Some w1 → ∃ w0, writes s !! k1 = Some w0 ∧ pc w0 = pc w1).
    { intros k1 w1 H1. apply list_lookup_insert_Some in H1 as [(<- & <- & _)|(_ & H1)]; eauto. }
    intros k1 k2 w1 w2 j H1 H2 Hj1 Hj2. destruct (Hsame _ _ H1) as (v1 & H1' & E1), (Hsame _ _ H2) as (v2 & H2' & E2).
    eapply Hap; [exact H1' | exact H2' | by rewrite E1 | by rewrite E2].
  - intros j Hj. assert (Hj' : j ∈ armed (ctxs s) ∧ pc w ≠ Some j).
    { destruct (pc w) as [i|]; simpl in Hj; [split; [set_solver|]|split; done]. intros [= ->]. set_solver. }
    destruct Hj' as [Hj' Hne]. destruct (Har _ Hj') as (k' & w' & Hk' & Hp' & Hr'). exists k', w'. split; [|done].
    rewrite list_lookup_insert_ne; [done|]. intros <-. congruence.
  - intros j. destruct (pc w); simpl; apply Hfi.
Qed.

Lemma contexts_step s s' : inv s → step s s' → inv s'.
Proof.
  intros I Hstep. pose proof I as [Hat Hap Har Hfi].
  destruct Hstep as [s o|s k w p c Hk Hr H|s k w Hk Hr|s o|s|s i Hi].
  - assert (Hold : ∀ k w, (writes s ++ [MkWrite o None false]) !! k = Some w → is_Some (pc w) → writes s !! k = Some w).
    { intros k w [H|[_ H]]%lookup_app_Some [i Hi]; [done|]. apply list_lookup_singleton_Some in H as [_ <-]. done. }
    split; simpl.
    + intros k w i Hk Hi. eapply Hat; [|done]. eauto.
    + intros k k' w w' i H H' Hi Hi'. eapply Hap; eauto.
    + intros i Hi. destruct (Har _ Hi) as (k & w & Hk & H). exists k, w. split; [by apply lookup_app_l_Some | done].
    + done.
  - destruct (pc w) as [i|] eqn:Ep; [|by eapply inv_first]. injection H as <- <-.
    rewrite list_insert_id; [done|]. rewrite Hk. destruct w; simpl in *. by subst.
  - by apply inv_return.
  - split; done.
  - split; simpl; try done; try set_solver. intros k w i Hk Hi. destruct (Hat _ _ _ Hk Hi) as (d & Hd & Hp & H).
    exists d. simpl. split; [done|]. split; [done|]. destruct (returned w); [set_solver|]. destruct H as [_ H]. split; [done|].
    destruct (closingOver (ctxs s)); [destruct H; [by left|] |]; right; set_solver.
  - split; simpl; try done; try set_solver. intros k w j Hk Hj. pose proof (Hat _ _ _ Hk Hj) as A.
    destruct (decide (j = i)) as [->|Hne].
    + destruct A as (d & Hd & Hp & H). exists (Derived (parent d) true). simpl.
      rewrite list_lookup_alter_eq, Hd, (Hfi _ Hi). simpl. split; [done|]. split; [done|]. destruct (returned w); [tauto|]. auto.
    + eapply attended_mono; [| | | | exact A]; simpl; [by rewrite list_lookup_alter_ne | done | done | set_solver].
Qed.

(** The context a policy is handed is done once its write's own context is, and once
    Close has begun and the hook it started has run, and never before one of the
    two; a write has one such context however often it asks; and a hook stays
    registered on the buffer's closing context for no longer than its write
    runs. *)
Lemma policy_contexts_released s k w i :
  reachable s → writes s !! k = Some w → pc w = Some i →
  (returned w = false →
     (own w ∈ ended (ctxs s) → isDone i (ctxs s)) ∧
     (closingOver (ctxs s) = true → isDone i (ctxs s) ∨ i ∈ firing (ctxs s)) ∧
     (isDone i (ctxs s) → own w ∈ ended (ctxs s) ∨ closingOver (ctxs s) = true)) ∧
  (returned w = true → isDone i (ctxs s) ∧ i ∉ armed (ctxs s)) ∧
  (∀ j, j ∈ armed (ctxs s) → ∃ k' w', writes s !! k' = Some w' ∧ pc w' = Some j ∧ returned w' = false).
Proof.
  intros R Hk Hi.
  assert (I : inv s).
  { enough (H : ∀ x, rtc step x s → inv x → inv s) by (by apply (H start), inv_start). induction 1; eauto using contexts_step. }
  destruct (v_attended _ I _ _ _ Hk Hi) as (d & Hd & Hp & H). unfold isDone. split; [|split; [|apply (v_armed _ I)]].
  - intros Hr. rewrite Hr in H. destruct H as [H1 H2]. split; [|split].
    + intros Ho. exists d. rewrite Hp. auto.
    + intros Hc. rewrite Hc in H2. destruct H2; [left; eauto | by right].
    + intros (d' & Hd' & H). rewrite Hd in Hd'. injection Hd' as <-. rewrite Hp in H. destruct H; auto.
  - intros Hr. rewrite Hr in H. destruct H. eauto.
Qed.

End Contexts.
