(* ===== verification/Options.v ===== *)
(** * Configuration (src/options.go)

    The options a buffer is opened with, their validation, and how they become
    the log's.  Durations are nanoseconds; a [SyncMode] is an integer. *)

From S2P Require Import Prelude Errors Log Policy Backoff Sink.
From stdpp Require Import strings.
From Stdlib Require Import SpecFloat.
Local Open Scope Z_scope.

Module Options.

Import Backoff.

(** [wal.Options] as the buffer sets them, before the log's own defaults. *)
Record walOptions := WalOptions {
  w_SyncInterval : Z; w_MaxSegmentBytes : Z; w_MaxRecordBytes : Z; w_Salvage : bool
}.

Record config := Config {
  wal : walOptions;
  syncMode : Z;
  maxRecords : Z; maxBytes : Z;
  flushRecords : Z; flushBytes : Z; flushInterval : Z;
  maxInFlight : Z;
  policy : Policy.Policy;
  backoff : Backoff; maxAttempts : Z; deadLetter : bool;
  dlqBackoff : option Backoff; dlqAttempts : Z;
  onDecodeFailure : option (Sink.DecodeFailure → Sink.call Sink.DecodeAction);
  onSinkError : option (Sink.SinkFailure → Sink.call Sink.RetryDecision);
  checkpointInterval : Z;
  observerQueue : Z
}.

Definition deadLetterBackoff (c : config) : Backoff :=
  match dlqBackoff c with Some b => b | None => backoff c end.

Definition defaults : config :=
  Config (WalOptions 0 0 0 false) 0 1000000 (Z.shiftl 1 30) 1000 (Z.shiftl 4 20) 1000000000 1 Policy.Block
    (withDefaults (MkBackoff 0 0 zero fifth)) 0 false None 3 None None 200000000 0.

(** [walSyncMode] *)
Definition walSyncMode (m : Z) : option Log.SyncMode :=
  if m =? 0 then Some Log.SyncPeriodic
  else if m =? 1 then Some Log.SyncAlways
  else if m =? 2 then Some Log.SyncNever
  else None.

(** One complaint of [validate]. *)
Definition bad (msg : string) : error := Errorf msg [Sentinel InvalidOption].

(** Every option that makes no sense, in the order they are looked at. *)
Definition complaints (c : config) : list error :=
  (match walSyncMode (syncMode c) with None => [bad "WithSync"] | Some _ => [] end) ++
  (if w_SyncInterval (wal c) <? 0 then [bad "WithSync"] else []) ++
  (if w_MaxSegmentBytes (wal c) <? 0 then [bad "WithSegmentBytes"] else []) ++
  (if (w_MaxRecordBytes (wal c) <? 0) || (Log.maxRecordLimit <? w_MaxRecordBytes (wal c))
   then [bad "WithMaxRecordBytes"] else []) ++
  (if (maxRecords c <? 0) || (maxBytes c <? 0) then [bad "WithCapacity"] else []) ++
  (if (flushRecords c <? 0) || (flushBytes c <? 0) || (flushInterval c <? 0) then [bad "WithFlush"] else []) ++
  (if maxInFlight c <? 0 then [bad "WithMaxInFlight"] else []) ++
  (if maxAttempts c <? 0 then [bad "WithRetry"] else []) ++
  (if dlqAttempts c <? 0 then [bad "WithDeadLetterRetry"] else []) ++
  (if checkpointInterval c <? 0 then [bad "WithCheckpointInterval"] else []).

(** [validate]: [errors.Join] of nothing is nil. *)
Definition validate (c : config) : option error :=
  match complaints c with [] => None | es => Some (Errorf "" es) end.

(** ** Options

    An option changes the configuration it is given.  The hooks of an observer
    and the sink of [WithDeadLetter] are not part of the configuration here:
    only whether they are set changes what the buffer does. *)

Definition Option : Type := config → config.

(** [if n != 0 { field = n }] *)
Definition unlessZero (n old : Z) : Z := if n =? 0 then old else n.

Definition defaultObserverQueue : Z := 1024.

Definition WithSync (mode interval : Z) : Option := λ c,
    Config (WalOptions interval (w_MaxSegmentBytes (wal c)) (w_MaxRecordBytes (wal c)) (w_Salvage (wal c))) mode
      (maxRecords c) (maxBytes c) (flushRecords c) (flushBytes c) (flushInterval c) (maxInFlight c) (policy c)
      (backoff c) (maxAttempts c) (deadLetter c) (dlqBackoff c) (dlqAttempts c) (onDecodeFailure c)
      (onSinkError c) (checkpointInterval c) (observerQueue c).

Definition WithSegmentBytes (n : Z) : Option := λ c,
    Config (WalOptions (w_SyncInterval (wal c)) n (w_MaxRecordBytes (wal c)) (w_Salvage (wal c))) (syncMode c)
      (maxRecords c) (maxBytes c) (flushRecords c) (flushBytes c) (flushInterval c) (maxInFlight c) (policy c)
      (backoff c) (maxAttempts c) (deadLetter c) (dlqBackoff c) (dlqAttempts c) (onDecodeFailure c)
      (onSinkError c) (checkpointInterval c) (observerQueue c).

Definition WithMaxRecordBytes (n : Z) : Option := λ c,
    Config (WalOptions (w_SyncInterval (wal c)) (w_MaxSegmentBytes (wal c)) n (w_Salvage (wal c))) (syncMode c)
      (maxRecords c) (maxBytes c) (flushRecords c) (flushBytes c) (flushInterval c) (maxInFlight c) (policy c)
      (backoff c) (maxAttempts c) (deadLetter c) (dlqBackoff c) (dlqAttempts c) (onDecodeFailure c)
      (onSinkError c) (checkpointInterval c) (observerQueue c).

Definition WithCapacity (records bytes : Z) : Option := λ c,
    Config (wal c) (syncMode c) records bytes (flushRecords c) (flushBytes c) (flushInterval c) (maxInFlight c)
      (policy c) (backoff c) (maxAttempts c) (deadLetter c) (dlqBackoff c) (dlqAttempts c) (onDecodeFailure c)
      (onSinkError c) (checkpointInterval c) (observerQueue c).

Definition WithFlush (records bytes interval : Z) : Option := λ c,
    Config (wal c) (syncMode c) (maxRecords c) (maxBytes c) (unlessZero records (flushRecords c))
      (unlessZero bytes (flushBytes c)) (unlessZero interval (flushInterval c)) (maxInFlight c) (policy c)
      (backoff c) (maxAttempts c) (deadLetter c) (dlqBackoff c) (dlqAttempts c) (onDecodeFailure c)
      (onSinkError c) (checkpointInterval c) (observerQueue c).

Definition WithMaxInFlight (n : Z) : Option := λ c,
    Config (wal c) (syncMode c) (maxRecords c) (maxBytes c) (flushRecords c) (flushBytes c) (flushInterval c)
      (unlessZero n (maxInFlight c)) (policy c) (backoff c) (maxAttempts c) (deadLetter c) (dlqBackoff c)
      (dlqAttempts c) (onDecodeFailure c) (onSinkError c) (checkpointInterval c) (observerQueue c).

Definition WithOnFull (p : option Policy.Policy) : Option := λ c,
    Config (wal c) (syncMode c) (maxRecords c) (maxBytes c) (flushRecords c) (flushBytes c) (flushInterval c)
      (maxInFlight c) (default (policy c) p) (backoff c) (maxAttempts c) (deadLetter c) (dlqBackoff c)
      (dlqAttempts c) (onDecodeFailure c) (onSinkError c) (checkpointInterval c) (observerQueue c).

Definition WithRetry (b : Backoff) (attempts : Z) : Option := λ c,
    Config (wal c) (syncMode c) (maxRecords c) (maxBytes c) (flushRecords c) (flushBytes c) (flushInterval c)
      (maxInFlight c) (policy c) (withDefaults b) attempts (deadLetter c) (dlqBackoff c) (dlqAttempts c)
      (onDecodeFailure c) (onSinkError c) (checkpointInterval c) (observerQueue c).

Definition WithDeadLetter : Option := λ c,
    Config (wal c) (syncMode c) (maxRecords c) (maxBytes c) (flushRecords c) (flushBytes c) (flushInterval c)
      (maxInFlight c) (policy c) (backoff c) (maxAttempts c) true (dlqBackoff c) (dlqAttempts c)
      (onDecodeFailure c) (onSinkError c) (checkpointInterval c) (observerQueue c).

Definition WithDeadLetterRetry (b : Backoff) (attempts : Z) : Option := λ c,
    Config (wal c) (syncMode c) (maxRecords c) (maxBytes c) (flushRecords c) (flushBytes c) (flushInterval c)
      (maxInFlight c) (policy c) (backoff c) (maxAttempts c) (deadLetter c) (Some (withDefaults b))
      attempts (onDecodeFailure c) (onSinkError c) (checkpointInterval c) (observerQueue c).

Definition WithOnDecodeFailure (f : option (Sink.DecodeFailure → Sink.call Sink.DecodeAction)) : Option := λ c,
    Config (wal c) (syncMode c) (maxRecords c) (maxBytes c) (flushRecords c) (flushBytes c) (flushInterval c)
      (maxInFlight c) (policy c) (backoff c) (maxAttempts c) (deadLetter c) (dlqBackoff c) (dlqAttempts c) f
      (onSinkError c) (checkpointInterval c) (observerQueue c).

Definition WithOnSinkError (f : option (Sink.SinkFailure → Sink.call Sink.RetryDecision)) : Option := λ c,
    Config (wal c) (syncMode c) (maxRecords c) (maxBytes c) (flushRecords c) (flushBytes c) (flushInterval c)
      (maxInFlight c) (policy c) (backoff c) (maxAttempts c) (deadLetter c) (dlqBackoff c) (dlqAttempts c)
      (onDecodeFailure c) f (checkpointInterval c) (observerQueue c).

Definition WithObserver : Option := λ c,
    Config (wal c) (syncMode c) (maxRecords c) (maxBytes c) (flushRecords c) (flushBytes c) (flushInterval c)
      (maxInFlight c) (policy c) (backoff c) (maxAttempts c) (deadLetter c) (dlqBackoff c) (dlqAttempts c)
      (onDecodeFailure c) (onSinkError c) (checkpointInterval c) 0.

Definition WithAsyncObserver (queue : Z) : Option := λ c,
    Config (wal c) (syncMode c) (maxRecords c) (maxBytes c) (flushRecords c) (flushBytes c) (flushInterval c)
      (maxInFlight c) (policy c) (backoff c) (maxAttempts c) (deadLetter c) (dlqBackoff c) (dlqAttempts c)
      (onDecodeFailure c) (onSinkError c) (checkpointInterval c)
      (if queue <=? 0 then defaultObserverQueue else queue).

Definition WithSalvage : Option := λ c,
    Config (WalOptions (w_SyncInterval (wal c)) (w_MaxSegmentBytes (wal c)) (w_MaxRecordBytes (wal c)) true)
      (syncMode c) (maxRecords c) (maxBytes c) (flushRecords c) (flushBytes c) (flushInterval c) (maxInFlight c)
      (policy c) (backoff c) (maxAttempts c) (deadLetter c) (dlqBackoff c) (dlqAttempts c) (onDecodeFailure c)
      (onSinkError c) (checkpointInterval c) (observerQueue c).

Definition WithCheckpointInterval (d : Z) : Option := λ c,
    Config (wal c) (syncMode c) (maxRecords c) (maxBytes c) (flushRecords c) (flushBytes c) (flushInterval c)
      (maxInFlight c) (policy c) (backoff c) (maxAttempts c) (deadLetter c) (dlqBackoff c) (dlqAttempts c)
      (onDecodeFailure c) (onSinkError c) (unlessZero d (checkpointInterval c)) (observerQueue c).

(** The options the package exports. *)
Inductive exported : Option → Prop :=
| by_WithSync mode interval : exported (WithSync mode interval)
| by_WithSegmentBytes n : exported (WithSegmentBytes n)
| by_WithMaxRecordBytes n : exported (WithMaxRecordBytes n)
| by_WithCapacity records bytes : exported (WithCapacity records bytes)
| by_WithFlush records bytes interval : exported (WithFlush records bytes interval)
| by_WithMaxInFlight n : exported (WithMaxInFlight n)
| by_WithOnFull p : exported (WithOnFull p)
| by_WithRetry b attempts : exported (WithRetry b attempts)
| by_WithDeadLetter : exported WithDeadLetter
| by_WithDeadLetterRetry b attempts : exported (WithDeadLetterRetry b attempts)
| by_WithOnDecodeFailure f : exported (WithOnDecodeFailure f)
| by_WithOnSinkError f : exported (WithOnSinkError f)
| by_WithObserver : exported WithObserver
| by_WithAsyncObserver queue : exported (WithAsyncObserver queue)
| by_WithSalvage : exported WithSalvage
| by_WithCheckpointInterval d : exported (WithCheckpointInterval d).

(** The options in the order they were given. *)
Definition configure (os : list Option) : config := foldl (λ c o, o c) defaults os.

(** What [Open] hands the log: the mode mapped, the rest as set, the log's own
    defaults filled in by [wal.Open]. *)
Definition logOptions (c : config) : Log.Options :=
  Log.withDefaults (Log.MkOptions (default Log.SyncPeriodic (walSyncMode (syncMode c)))
    (w_SyncInterval (wal c)) (w_MaxSegmentBytes (wal c)) (w_MaxRecordBytes (wal c)) 0 (w_Salvage (wal c))).

(** ** What the buffer relies on *)

(** Delays that are positive, a factor above one, a jitter between zero and one;
    but a NaN is neither replaced nor refused. *)
Definition ladder (b : Backoff) : Prop :=
  1 <= Initial b ∧ 1 <= Max b ∧ (isNaN (Factor b) = true ∨ ltb one (Factor b) = true) ∧
  (isNaN (Jitter b) = true ∨ leb zero (Jitter b) = true ∧ leb (Jitter b) one = true).

(** The settings a running buffer cannot do without: batches of at least one
    record and one byte, tickers with an interval, a delivery slot, limits that are
    not negative, a queue [make] accepts (none for hooks that run inline), and
    ladders to climb for either sink. *)
Record usable (c : config) : Prop := {
  u_flushRecords : 1 <= flushRecords c;
  u_flushBytes : 1 <= flushBytes c;
  u_flushInterval : 1 <= flushInterval c;
  u_checkpointInterval : 1 <= checkpointInterval c;
  u_maxInFlight : 1 <= maxInFlight c;
  u_limits : 0 <= maxRecords c ∧ 0 <= maxBytes c;
  u_attempts : 0 <= maxAttempts c ∧ 0 <= dlqAttempts c;
  u_mode : is_Some (walSyncMode (syncMode c));
  u_record : 1 <= Log.maxRecordBytes (logOptions c) <= Log.maxRecordLimit;
  u_segment : 1 <= Log.maxSegmentBytes (logOptions c);
  u_interval : 1 <= Log.syncInterval (logOptions c);
  u_queue : 0 <= observerQueue c;
  u_backoff : ladder (backoff c);
  u_dlqBackoff : ladder (deadLetterBackoff c)
}.

Lemma clamped_jitter x : let j := fmin (fmax x zero) one in
  isNaN j = true ∨ leb zero j = true ∧ leb j one = true.
Proof.
  assert (Hpos : ∀ y, negative y = false → leb zero y = true → let j := fmin y one in
    isNaN j = true ∨ leb zero j = true ∧ leb j one = true).
  { intros y Hn Hz. unfold fmin. destruct (isNaN y) eqn:En; [by left|]. cbn [orb isNaN one]. right.
    change (isNaN one) with false. cbv iota. destruct (ltb y one) eqn:E1.
    - split; [done|]. revert E1. unfold ltb, SFltb, leb, SFleb. by destruct (SFcompare y one) as [[]|].
    - rewrite Hn. destruct (ltb one y); by vm_compute. }
  destruct x as [[]|[]| |[] m e].
  - right. split; by vm_compute.
  - right. split; by vm_compute.
  - right. split; by vm_compute.
  - right. split; by vm_compute.
  - by left.
  - by apply (Hpos zero).
  - by apply (Hpos (S754_finite false m e)).
Qed.

(** What is not one or less is more, or a NaN. *)
Lemma above_one x : leb x one = false → isNaN x = true ∨ ltb one x = true.
Proof.
  assert (E : ∃ m1 e1, one = S754_finite false m1 e1) by (do 2 eexists; by vm_compute). destruct E as (m1 & e1 & ->).
  destruct x as [[]|[]| |[] m e]; try done; [by right | by left|].
  unfold leb, SFleb, ltb, SFltb. cbn [SFcompare]. rewrite (Z.compare_antisym e e1).
  destruct (e ?= e1); cbn [CompOpp]; [|done | by right].
  change (Pos.compare_cont Eq) with Pos.compare. rewrite (Pos.compare_antisym m m1).
  destruct (Pos.compare m m1); [done | done | by right].
Qed.

Lemma withDefaults_ladder b : ladder (withDefaults b).
Proof.
  unfold ladder, withDefaults. cbn [Initial Max Factor Jitter]. split; [case_if; lia|]. split; [case_if; lia|].
  split; [|apply clamped_jitter]. destruct (leb (Factor b) one) eqn:E; [right; by vm_compute | by apply above_one].
Qed.

(** What no sequence of options can undo: zero never replaces a default. *)
Record kept (c : config) : Prop := {
  k_flush : flushRecords c ≠ 0 ∧ flushBytes c ≠ 0 ∧ flushInterval c ≠ 0;
  k_checkpoint : checkpointInterval c ≠ 0;
  k_inflight : maxInFlight c ≠ 0;
  k_queue : 0 <= observerQueue c;
  k_ladder : ladder (backoff c);
  k_dlq : ∀ b, dlqBackoff c = Some b → ladder b
}.

Lemma unlessZero_kept n old : old ≠ 0 → unlessZero n old ≠ 0.
Proof. unfold unlessZero. case_if; lia. Qed.

Lemma exported_kept c o : exported o → kept c → kept (o c).
Proof.
  intros Ho [(F1 & F2 & F3) C I Q L D].
  destruct Ho; constructor; simpl; auto using withDefaults_ladder, unlessZero_kept; try lia.
  - intros ? [= <-]. apply withDefaults_ladder.
  - case_if; unfold defaultObserverQueue; lia.
Qed.

Lemma configure_kept os : Forall exported os → kept (configure os).
Proof.
  unfold configure. assert (H : kept defaults).
  { constructor; simpl; [done.. | apply withDefaults_ladder | done]. }
  intros Hos. revert H. generalize defaults. induction Hos as [|o os Ho _ IH]; intros c H; [done|].
  simpl. by apply IH, exported_kept.
Qed.

Lemma complaints_invalid c e : e ∈ complaints c → errorsIs e InvalidOption = true.
Proof.
  unfold complaints. rewrite !elem_of_app.
  intros H. repeat destruct_or!; repeat case_match; set_solver.
Qed.

(** C38: validation is the only gate a configuration has to pass.  Whatever
    options are given in whatever order, a configuration [validate] accepts gives
    the buffer what [usable] lists: positive batch triggers and ticker intervals, a
    delivery slot, limits and a hook queue that are not negative, a known sync mode, a
    record limit the log's header can describe, and for the sink and the dead-letter
    sink a ladder with positive delays, a factor above one and a jitter between zero
    and one, unless the factor or the jitter is a NaN.  One it refuses is reported as
    [ErrInvalidOption]. *)
Theorem validated_options_are_usable os :
  Forall exported os →
  match validate (configure os) with
  | None => usable (configure os)
  | Some e => errorsIs e InvalidOption = true
  end.
Proof.
  intros Hos. unfold validate. pose proof (configure_kept os Hos) as [(F1 & F2 & F3) C I Q L D].
  pose proof (complaints_invalid (configure os)) as Hin.
  destruct (complaints (configure os)) as [|e es] eqn:E.
  - clear Hin. unfold complaints in E. repeat (apply app_eq_nil in E as [? E]).
    repeat match goal with H : context [if ?b then _ else _] |- _ => destruct b eqn:?; [done|]; clear H end.
    destruct (walSyncMode (syncMode (configure os))) eqn:Em; [|done]. bools.
    assert (Hl : 1 <= Log.maxRecordLimit) by (by vm_compute).
    constructor; try lia; try done; unfold logOptions, Log.withDefaults; simpl; try (case_if; lia).
    + case_if; [|lia]. split; [done|]. by vm_compute.
    + case_if; [by vm_compute | lia].
    + unfold deadLetterBackoff. destruct (dlqBackoff (configure os)) as [b|] eqn:Eb; [by apply D | done].
  - simpl. rewrite (Hin e ltac:(left)). done.
Qed.

(** A large record limit, then a zero that keeps the default batch size, and a
    dead-letter ladder with delays that are not; and a negative capacity. *)
Lemma validated_options_are_usable_witness :
  usable (configure [WithMaxRecordBytes 8388608; WithFlush 0 0 5; WithSync 1 0; WithDeadLetterRetry (MkBackoff 0 (-1) zero zero) 5]) ∧
  (∃ e, validate (configure [WithCapacity (-1) 0]) = Some e ∧ errorsIs e InvalidOption = true).
Proof.
  split.
  - exact (validated_options_are_usable
      [WithMaxRecordBytes 8388608; WithFlush 0 0 5; WithSync 1 0; WithDeadLetterRetry (MkBackoff 0 (-1) zero zero) 5]
      ltac:(repeat constructor)).
  - eexists. split; [reflexivity|].
    exact (validated_options_are_usable [WithCapacity (-1) 0] ltac:(repeat constructor)).
Defined.

End Options.
