(* ===== verification/Capacity.v ===== *)
(** * Capacity and admission (src/batch.go)

    Writers take capacity with two atomic additions and undo them when either
    went over its limit; nothing locks the pair.  [step] interleaves the writers
    instruction by instruction.  [admit], [onDiskFull] and [WriteBatch] are the
    loops around it, each over a list of what the outside answered. *)

From S2P Require Import Prelude Errors Policy.
From stdpp Require Import strings.
Import Policy.
Local Open Scope Z_scope.
Local Open Scope go_scope.

Module Capacity.

Record limits := Limits { maxRecords : Z; maxBytes : Z }.

(** [fits]: the error, if the write is above the whole capacity. *)
Definition fits (c : limits) (n size : Z) : option error :=
  if (0 <? maxRecords c) && (maxRecords c <? n) then Some (Errorf "records" [Sentinel TooLarge])
  else if (0 <? maxBytes c) && (maxBytes c <? size) then Some (Errorf "bytes" [Sentinel TooLarge])
  else None.

(** The test of [reserve] on the two sums its additions returned. *)
Definition over (c : limits) (records bytes : Z) : bool :=
  ((0 <? maxRecords c) && (maxRecords c <? records)) || ((0 <? maxBytes c) && (maxBytes c <? bytes)).

(** ** Interleaved writers *)

(** Where a writer is: after its first addition (with the sum it returned), after
    the second, holding what it reserved, or half way through undoing it. *)
Inductive phase :=
| Adding (n size r : Z)
| Checking (n size r b : Z)
| Held (n size r b : Z)
| Returning (n size : Z).

Record counters := Counters { pendingRecords : Z; pendingBytes : Z; writers : gmap nat phase }.

(** [reserve] and [release] with nothing in between. *)
Definition reserve (c : limits) (n size : Z) (s : Z * Z) : bool * (Z * Z) :=
  let records := s.1 + n in
  let bytes := s.2 + size in
  if over c records bytes then (false, (records + - n, bytes + - size)) else (true, (records, bytes)).

Definition release (n size : Z) (s : Z * Z) : Z * Z := (s.1 + - n, s.2 + - size).

(** One instruction of one writer.  [release] gives back what is held in any
    portions: the flusher releases the capacity of ranges, not of writes. *)
Inductive step (c : limits) : counters → counters → Prop :=
| s_add_records w n size pr pb ws :
    ws !! w = None → 0 <= n → 0 <= size →
    step c (Counters pr pb ws) (Counters (pr + n) pb (<[w := Adding n size (pr + n)]> ws))
| s_add_bytes w n size r pr pb ws :
    ws !! w = Some (Adding n size r) →
    step c (Counters pr pb ws) (Counters pr (pb + size) (<[w := Checking n size r (pb + size)]> ws))
| s_admit w n size r b pr pb ws :
    ws !! w = Some (Checking n size r b) → over c r b = false →
    step c (Counters pr pb ws) (Counters pr pb (<[w := Held n size r b]> ws))
| s_refuse w n size r b pr pb ws :
    ws !! w = Some (Checking n size r b) → over c r b = true →
    step c (Counters pr pb ws) (Counters (pr + - n) pb (<[w := Returning n size]> ws))
| s_returned w n size pr pb ws :
    ws !! w = Some (Returning n size) →
    step c (Counters pr pb ws) (Counters pr (pb + - size) (delete w ws))
| s_release_records w n size r b k pr pb ws :
    ws !! w = Some (Held n size r b) → 0 <= k <= n →
    step c (Counters pr pb ws) (Counters (pr + - k) pb (<[w := Held (n - k) size r b]> ws))
| s_release_bytes w n size r b k pr pb ws :
    ws !! w = Some (Held n size r b) → 0 <= k <= size →
    step c (Counters pr pb ws) (Counters pr (pb + - k) (<[w := Held n (size - k) r b]> ws)).

(** A buffer opened on a backlog: writer 0 stands for the previous run. *)
Definition opened (records bytes : Z) : counters :=
  Counters records bytes {[ 0%nat := Held records bytes records bytes ]}.

(** ** Ledgers

    What a writer has added to one of the two counters, and what the addition
    returned.  A ledger lists the writers by the time of their addition, newest
    first: whatever has been taken back since, an addition returned at least the
    sum of what it and the older ones still contribute. *)

Definition recOf (p : phase) : Z :=
  match p with Adding n _ _ | Checking n _ _ _ | Held n _ _ _ => n | Returning _ _ => 0 end.
Definition recSeen (p : phase) : option Z :=
  match p with Adding _ _ r | Checking _ _ r _ | Held _ _ r _ => Some r | Returning _ _ => None end.
Definition byOf (p : phase) : Z :=
  match p with Adding _ _ _ => 0 | Checking _ s _ _ | Held _ s _ _ | Returning _ s => s end.
Definition bySeen (p : phase) : option Z :=
  match p with Checking _ _ _ b | Held _ _ _ b => Some b | _ => None end.

Section ledgers.
Context (f : phase → Z) (seen : phase → option Z).

Definition at_ (ws : gmap nat phase) (w : nat) : Z := match ws !! w with Some p => f p | None => 0 end.
Definition sumL (ws : gmap nat phase) (l : list nat) : Z := foldr (λ w z, at_ ws w + z) 0 l.

(** Each addition returned at least what is contributed up to it. *)
Fixpoint ordered (ws : gmap nat phase) (l : list nat) : Prop :=
  match l with
  | [] => True
  | w :: l => (∀ p r, ws !! w = Some p → seen p = Some r → sumL ws (w :: l) <= r) ∧ ordered ws l
  end.

Record ledger (ws : gmap nat phase) (l : list nat) (sum : Z) : Prop := {
  l_nodup : NoDup l;
  l_in : ∀ w, w ∈ l → is_Some (ws !! w);
  l_out : ∀ w p, ws !! w = Some p → (w ∉ l) → f p = 0 ∧ seen p = None;
  l_pos : ∀ w p, ws !! w = Some p → 0 <= f p;
  l_sum : sum = sumL ws l;
  l_ordered : ordered ws l
}.

Lemma sumL_le ws ws' l : (∀ w, w ∈ l → at_ ws' w <= at_ ws w) → sumL ws' l <= sumL ws l.
Proof.
  induction l as [|w l IH]; intros H; simpl; [lia|].
  pose proof (H w ltac:(left)). specialize (IH ltac:(intros; apply H; by right)). lia.
Qed.

Lemma sumL_eq ws ws' l : (∀ w, w ∈ l → at_ ws' w = at_ ws w) → sumL ws' l = sumL ws l.
Proof.
  intros H. apply Z.le_antisymm; apply sumL_le; intros w Hw; rewrite (H w Hw); lia.
Qed.

Lemma at_insert ws w p : at_ (<[w := p]> ws) w = f p.
Proof. unfold at_. by rewrite lookup_insert_eq. Qed.
Lemma at_insert_ne ws w w' p : w ≠ w' → at_ (<[w := p]> ws) w' = at_ ws w'.
Proof. intros H. unfold at_. by rewrite lookup_insert_ne. Qed.

Lemma sumL_insert ws l w p : NoDup l → w ∈ l → sumL (<[w := p]> ws) l = sumL ws l - at_ ws w + f p.
Proof.
  intros Hnd Hin. induction l as [|x l IH]; [by apply elem_of_nil in Hin|].
  apply NoDup_cons in Hnd as [Hx Hnd]. simpl. destruct (decide (x = w)) as [->|Hne].
  - rewrite at_insert, (sumL_eq ws); [lia|]. intros y Hy. apply at_insert_ne. by intros ->.
  - rewrite at_insert_ne by done. rewrite IH; [lia | done | set_solver].
Qed.

(** Contributions only shrink, so what an addition returned stays an upper
    bound. *)
Lemma ordered_shrink ws ws' l :
  ordered ws l → (∀ w, w ∈ l → at_ ws' w <= at_ ws w) →
  (∀ w p r, w ∈ l → ws' !! w = Some p → seen p = Some r → ∃ p', ws !! w = Some p' ∧ seen p' = Some r) →
  ordered ws' l.
Proof.
  induction l as [|w l IH]; intros Ho Hle Hseen; [done|]. destruct Ho as [Hw Ho]. split.
  - intros p r Hp Hr. destruct (Hseen w p r ltac:(left) Hp Hr) as (p' & Hp' & Hr').
    specialize (Hw p' r Hp' Hr'). pose proof (sumL_le ws ws' (w :: l) Hle). lia.
  - apply IH; [done | intros; apply Hle; by right | intros; eapply Hseen; [by right | done | done]].
Qed.

(** A writer moves on, taking back some or none of what it added. *)
Lemma ledger_update ws l sum w p p' :
  ledger ws l sum → ws !! w = Some p → 0 <= f p' <= f p → seen p' = seen p ∨ seen p' = None →
  ledger (<[w := p']> ws) l (sum - (f p - f p')).
Proof.
  intros [Hnd Hin Hout Hpos Hsum Hord] Hw Hf Hs.
  assert (Hat : at_ ws w = f p) by (unfold at_; by rewrite Hw).
  constructor; [done | | | | |].
  - intros x Hx. destruct (decide (x = w)) as [->|]; [by rewrite lookup_insert_eq|].
    rewrite lookup_insert_ne by done. by apply Hin.
  - intros x q Hq Hx. apply lookup_insert_Some in Hq as [[<- <-] | [_ Hq]]; [|by apply (Hout x)].
    destruct (Hout w p Hw Hx) as [E1 E2]. split; [lia | by destruct Hs as [-> | ->]].
  - intros x q Hq. apply lookup_insert_Some in Hq as [[<- <-] | [_ Hq]]; [lia | by apply (Hpos x)].
  - destruct (decide (w ∈ l)) as [Hl|Hl]; [rewrite sumL_insert by done; lia|].
    destruct (Hout w p Hw Hl) as [E1 _]. rewrite (sumL_eq ws); [lia|].
    intros x Hx. apply at_insert_ne. by intros ->.
  - eapply ordered_shrink; [exact Hord | |].
    + intros x Hx. destruct (decide (w = x)) as [->|]; [rewrite at_insert; lia | by rewrite at_insert_ne].
    + intros x q r Hx Hq Hr. apply lookup_insert_Some in Hq as [[<- <-] | [_ Hq]]; [|by exists q].
      exists p. split; [done|]. destruct Hs as [<- | E]; [done | by rewrite E in Hr].
Qed.

(** A writer that has not touched this counter yet. *)
Lemma ledger_enter ws l sum w p' :
  ledger ws l sum → ws !! w = None → f p' = 0 → seen p' = None → ledger (<[w := p']> ws) l sum.
Proof.
  intros [Hnd Hin Hout Hpos Hsum Hord] Hw Hf Hs.
  assert (Hl : w ∉ l) by (intros H; apply Hin in H as [? ?]; congruence).
  assert (Heq : ∀ x, x ∈ l → at_ (<[w := p']> ws) x = at_ ws x).
  { intros x Hx. apply at_insert_ne. by intros ->. }
  constructor; [done | | | | by rewrite (sumL_eq ws) |].
  - intros x Hx. destruct (decide (x = w)) as [->|]; [done|]. rewrite lookup_insert_ne by done. by apply Hin.
  - intros x q Hq Hx. apply lookup_insert_Some in Hq as [[<- <-] | [_ Hq]]; [done | by apply (Hout x)].
  - intros x q Hq. apply lookup_insert_Some in Hq as [[<- <-] | [_ Hq]]; [lia | by apply (Hpos x)].
  - eapply ordered_shrink; [exact Hord | intros x Hx; rewrite Heq by done; lia |].
    intros x q r Hx Hq Hr. rewrite lookup_insert_ne in Hq by (by intros ->). by exists q.
Qed.

(** The addition itself: the newest entry. *)
Lemma ledger_push ws l sum w p' :
  ledger ws l sum → (w ∉ l) → 0 <= f p' → (∀ r, seen p' = Some r → r = sum + f p') →
  ledger (<[w := p']> ws) (w :: l) (sum + f p').
Proof.
  intros [Hnd Hin Hout Hpos Hsum Hord] Hl Hf Hs.
  assert (Heq : ∀ x, x ∈ l → at_ (<[w := p']> ws) x = at_ ws x).
  { intros x Hx. apply at_insert_ne. by intros ->. }
  constructor.
  - by constructor.
  - intros x Hx. destruct (decide (x = w)) as [->|]; [by rewrite lookup_insert_eq|].
    rewrite lookup_insert_ne by done. apply Hin. set_solver.
  - intros x q Hq Hx. apply lookup_insert_Some in Hq as [[<- _] | [_ Hq]]; [set_solver|].
    apply (Hout x); [done | set_solver].
  - intros x q Hq. apply lookup_insert_Some in Hq as [[<- <-] | [_ Hq]]; [lia | by apply (Hpos x)].
  - simpl. rewrite at_insert, (sumL_eq ws) by done. lia.
  - split.
    + intros q r Hq Hr. rewrite lookup_insert_eq in Hq. injection Hq as <-.
      specialize (Hs r Hr). simpl. rewrite at_insert, (sumL_eq ws) by done. lia.
    + eapply ordered_shrink; [exact Hord | intros x Hx; rewrite Heq by done; lia |].
      intros x q r Hx Hq Hr. rewrite lookup_insert_ne in Hq by (by intros ->). by exists q.
Qed.

Definition without (w : nat) (l : list nat) : list nat := filter (λ x, x ≠ w) l.

(** A writer that is through. *)
Lemma ledger_delete ws l sum w p :
  ledger ws l sum → ws !! w = Some p → ledger (delete w ws) (without w l) (sum - f p).
Proof.
  intros [Hnd Hin Hout Hpos Hsum Hord] Hw. unfold without.
  assert (Heq : ∀ x, x ≠ w → at_ (delete w ws) x = at_ ws x).
  { intros x Hx. unfold at_. by rewrite lookup_delete_ne by done. }
  assert (Hsplit : ∀ k, NoDup k → sumL (delete w ws) (filter (λ x, x ≠ w) k) =
                                   sumL ws k - (if decide (w ∈ k) then f p else 0)).
  { induction k as [|x k IH]; intros Hk; [simpl; done|]. apply NoDup_cons in Hk as [Hx Hk].
    rewrite filter_cons. specialize (IH Hk). destruct (decide (x ≠ w)) as [Hne|He].
    - simpl. rewrite (Heq x Hne), IH. repeat case_decide; [lia | set_solver | set_solver | lia].
    - apply dec_stable in He as ->. rewrite IH. simpl. assert (Hat : at_ ws w = f p) by (unfold at_; by rewrite Hw). rewrite Hat.
      repeat case_decide; [done | set_solver | lia | set_solver]. }
  constructor.
  - by apply NoDup_filter.
  - intros x [Hne Hx]%list_elem_of_filter. rewrite lookup_delete_ne by done. by apply Hin.
  - intros x q [Hne Hq]%lookup_delete_Some Hx. apply (Hout x); [done|].
    intros H. apply Hx, list_elem_of_filter. split; [by intros -> | done].
  - intros x q [Hne Hq]%lookup_delete_Some. by apply (Hpos x).
  - rewrite Hsplit by done. case_decide; [lia|]. destruct (Hout w p Hw ltac:(done)). lia.
  - clear Hsum Hin Hout. induction l as [|x l IH]; [done|]. rewrite filter_cons.
    apply NoDup_cons in Hnd as [Hx Hnd]. destruct Hord as [Ho Hord].
    destruct (decide (x ≠ w)) as [Hne|He]; [|by apply IH]. split; [|by apply IH].
    intros q r Hq Hr. rewrite lookup_delete_ne in Hq by done. specialize (Ho q r Hq Hr).
    simpl in *. rewrite (Heq x Hne), Hsplit by done. pose proof (Hpos w p Hw). case_decide; lia.
Qed.

Lemma sumL_submseteq ws l k : (∀ w p, ws !! w = Some p → 0 <= f p) → l ⊆+ k → sumL ws l <= sumL ws k.
Proof.
  intros Hpos. assert (Ha : ∀ w, 0 <= at_ ws w).
  { intros w. unfold at_. destruct (ws !! w) eqn:E; [by eapply Hpos | lia]. }
  induction 1; simpl in *; try lia. pose proof (Ha x). lia.
Qed.

(** Of any set of writers the newest one's sum bounds them all. *)
Lemma ledger_newest ws l sum hs : ledger ws l sum → NoDup hs → hs ≠ [] → (∀ w, w ∈ hs → w ∈ l) →
  ∃ newer w older, l = newer ++ w :: older ∧ w ∈ hs ∧ (∀ x, x ∈ hs → x ∈ w :: older) ∧
    ∀ p r, ws !! w = Some p → seen p = Some r → sumL ws hs <= r.
Proof.
  intros [Hnd _ _ Hpos _ Hord]. revert Hnd Hord. induction l as [|x l IH]; intros Hnd Hord Hh Hne Hin.
  - destruct hs as [|h hs]; [done|]. by pose proof (Hin h ltac:(left)) as ?%elem_of_nil.
  - destruct Hord as [Ho Hord]. apply NoDup_cons in Hnd as [Hx Hnd]. destruct (decide (x ∈ hs)) as [Hxh|Hxh].
    + exists [], x, l. repeat (split; [done|]). intros p r Hp Hr. specialize (Ho p r Hp Hr).
      pose proof (sumL_submseteq ws hs (x :: l) Hpos (NoDup_submseteq _ _ Hh Hin)). lia.
    + destruct (IH Hnd Hord Hh Hne) as (newer & w & older & -> & Hw & Hall & Hb).
      { intros w Hw. specialize (Hin w Hw). apply elem_of_cons in Hin as [-> | ?]; done. }
      by exists (x :: newer), w, older.
Qed.
End ledgers.

(** The inherited backlog stays at the old end of a ledger. *)
Definition rooted (l : list nat) : Prop := ∃ l', l = l' ++ [0%nat].

Record inv (c : limits) (s : counters) : Prop := {
  i_backlog : ∃ n size r b, writers s !! 0%nat = Some (Held n size r b);
  i_checked : ∀ w n size r b, writers s !! w = Some (Held n size r b) → w ≠ 0%nat → over c r b = false;
  i_size : ∀ w n size r, writers s !! w = Some (Adding n size r) → 0 <= size;
  i_records : ∃ l, ledger recOf recSeen (writers s) l (pendingRecords s) ∧ rooted l;
  i_bytes : ∃ l, ledger byOf bySeen (writers s) l (pendingBytes s) ∧ rooted l ∧
              ∀ w n size r, writers s !! w = Some (Adding n size r) → (w ∉ l)
}.

Lemma rooted_without w l : w ≠ 0%nat → rooted l → rooted (without w l).
Proof.
  intros Hw [l' ->]. exists (without w l'). unfold without. rewrite filter_app. f_equal.
  rewrite filter_cons_True by done. done.
Qed.

Lemma rooted_cons w l : rooted l → rooted (w :: l).
Proof. intros [l' ->]. by exists (w :: l'). Qed.

Lemma opened_inv c records bytes : 0 <= records → 0 <= bytes → inv c (opened records bytes).
Proof.
  intros Hr Hb. constructor; simpl.
  - exists records, bytes, records, bytes. apply lookup_singleton_eq.
  - intros w n size r b [<- _]%lookup_singleton_Some. done.
  - by intros w n size r [_ H]%lookup_singleton_Some.
  - exists [0%nat]. split; [|by exists []]. rewrite <- (Z.add_0_l records) at 2.
    apply (ledger_push recOf recSeen ∅ [] 0); [|set_solver | done | by intros r [= <-]].
    by constructor; [constructor | set_solver | done..].
  - exists [0%nat]. split; [|split; [by exists [] | by intros w n size r [_ H]%lookup_singleton_Some]].
    rewrite <- (Z.add_0_l bytes) at 2.
    apply (ledger_push byOf bySeen ∅ [] 0); [|set_solver | done | by intros r [= <-]].
    by constructor; [constructor | set_solver | done..].
Qed.

(** What every instruction other than the two additions does to the ledgers. *)
Lemma update_inv c pr pb ws w p p' :
  inv c (Counters pr pb ws) → ws !! w = Some p →
  0 <= recOf p' <= recOf p → recSeen p' = recSeen p ∨ recSeen p' = None →
  0 <= byOf p' <= byOf p → bySeen p' = bySeen p ∨ bySeen p' = None →
  (∀ n size r b, p' = Held n size r b → w ≠ 0%nat → over c r b = false) →
  (w = 0%nat → ∃ n size r b, p' = Held n size r b) → (∀ n size r, p' ≠ Adding n size r) →
  inv c (Counters (pr - (recOf p - recOf p')) (pb - (byOf p - byOf p')) (<[w := p']> ws)).
Proof.
  intros [Hb Hc Hz (lr & Lr & Rr) (lb & Lb & Rb & Fb)] Hw H1 H2 H3 H4 Hch H0 Hna. simpl in *.
  constructor; simpl.
  - destruct (decide (w = 0%nat)) as [->|]; [rewrite lookup_insert_eq | by rewrite lookup_insert_ne].
    destruct (H0 eq_refl) as (n & size & r & b & ->). by exists n, size, r, b.
  - intros x n size r b [[<- E] | [Hne E]]%lookup_insert_Some Hx; [by eapply Hch | by eapply Hc].
  - intros x n size r [[<- E] | [Hne E]]%lookup_insert_Some; [by destruct (Hna n size r) | by eapply Hz].
  - exists lr. split; [by apply ledger_update | done].
  - exists lb. split; [by apply ledger_update|]. split; [done|].
    intros x n size r [[<- E] | [Hne E]]%lookup_insert_Some; [by destruct (Hna n size r) | by eapply Fb].
Qed.

Lemma held_amounts c s w p : inv c s → writers s !! w = Some p → 0 <= recOf p ∧ 0 <= byOf p.
Proof.
  intros [_ _ _ (lr & Lr & _) (lb & Lb & _)] Hw. split; [by eapply (l_pos _ _ _ _ _ Lr) | by eapply (l_pos _ _ _ _ _ Lb)].
Qed.

(** The first addition opens an account in the ledger of records. *)
Lemma add_records_inv c pr pb ws w n size :
  inv c (Counters pr pb ws) → ws !! w = None → 0 <= n → 0 <= size →
  inv c (Counters (pr + n) pb (<[w := Adding n size (pr + n)]> ws)).
Proof.
  intros I Hw Hn Hs.
  destruct I as [(n0 & z0 & r0 & b0 & Hb) Hc Hz (lr & Lr & Rr) (lb & Lb & Rb & Fb)]. simpl in *.
  assert (w ≠ 0%nat) by (intros ->; congruence). constructor; simpl.
  + exists n0, z0, r0, b0. by rewrite lookup_insert_ne.
  + intros x n' z' r' b' [[_ E] | [Hne E]]%lookup_insert_Some Hx; [done | by eapply Hc].
  + intros x n' z' r' [[_ [= <- <- <-]] | [Hne E]]%lookup_insert_Some; [done | by eapply Hz].
  + exists (w :: lr). split; [|by apply rooted_cons].
    apply (ledger_push recOf recSeen ws lr pr w (Adding n size (pr + n))); [done | | done | by intros ? [= <-]].
    intros Hin. apply (l_in _ _ _ _ _ Lr) in Hin as [? ?]. congruence.
  + exists lb. split; [by apply ledger_enter|]. split; [done|].
    intros x n' z' r' [[<- _] | [Hne E]]%lookup_insert_Some; [|by eapply Fb].
    intros Hin. apply (l_in _ _ _ _ _ Lb) in Hin as [? ?]. congruence.
Qed.

(** The second does in the ledger of bytes. *)
Lemma add_bytes_inv c pr pb ws w n size r :
  inv c (Counters pr pb ws) → ws !! w = Some (Adding n size r) →
  inv c (Counters pr (pb + size) (<[w := Checking n size r (pb + size)]> ws)).
Proof.
  intros I Hw.
  pose proof I as [(n0 & z0 & r0 & b0 & Hb) Hc Hz (lr & Lr & Rr) (lb & Lb & Rb & Fb)]. simpl in *.
  pose proof (Hz _ _ _ _ Hw) as Hsz. assert (w ≠ 0%nat) by (intros ->; congruence). constructor; simpl.
  + exists n0, z0, r0, b0. by rewrite lookup_insert_ne.
  + intros x n' z' r' b' [[_ E] | [Hne E]]%lookup_insert_Some Hx; [done | by eapply Hc].
  + intros x n' z' r' [[_ E] | [Hne E]]%lookup_insert_Some; [done | by eapply Hz].
  + exists lr. split; [|done]. replace pr with (pr - (n - n)) at 1 by lia.
    apply (ledger_update recOf recSeen ws lr pr w (Adding n size r)); [done | done | | by left].
    pose proof (l_pos _ _ _ _ _ Lr _ _ Hw) as Hp. simpl in *. lia.
  + exists (w :: lb). split; [|split; [by apply rooted_cons|]].
    * apply (ledger_push byOf bySeen ws lb pb w (Checking n size r (pb + size)));
        [done | by eapply Fb | done | by intros ? [= <-]].
    * intros x n' z' r' [[_ E] | [Hne E]]%lookup_insert_Some; [done|]. pose proof (Fb _ _ _ _ E). set_solver.
Qed.

(** A writer that was refused leaves both. *)
Lemma returned_inv c pr pb ws w n size :
  inv c (Counters pr pb ws) → ws !! w = Some (Returning n size) →
  inv c (Counters pr (pb + - size) (delete w ws)).
Proof.
  intros I Hw.
  destruct I as [(n0 & z0 & r0 & b0 & Hb) Hc Hz (lr & Lr & Rr) (lb & Lb & Rb & Fb)]. simpl in *.
  assert (w ≠ 0%nat) by (intros ->; congruence). constructor; simpl.
  + exists n0, z0, r0, b0. by rewrite lookup_delete_ne.
  + intros x n' z' r' b' [Hne E]%lookup_delete_Some Hx. by eapply Hc.
  + intros x n' z' r' [Hne E]%lookup_delete_Some. by eapply Hz.
  + exists (without w lr). split; [|by apply rooted_without]. replace pr with (pr - 0) by lia.
    by apply (ledger_delete recOf recSeen ws lr pr w (Returning n size)).
  + exists (without w lb). split; [|split; [by apply rooted_without|]].
    * by apply (ledger_delete byOf bySeen ws lb pb w (Returning n size)).
    * intros x n' z' r' [Hne E]%lookup_delete_Some. pose proof (Fb _ _ _ _ E).
      intros [_ Hin]%list_elem_of_filter. done.
Qed.

Lemma step_inv c s s' : inv c s → step c s s' → inv c s'.
Proof.
  intros I Hst. destruct Hst as [w n size pr pb ws Hw Hn Hs | w n size r pr pb ws Hw | w n size r b pr pb ws Hw Ho
    | w n size r b pr pb ws Hw Ho | w n size pr pb ws Hw | w n size r b k pr pb ws Hw Hk | w n size r b k pr pb ws Hw Hk].
  - by apply add_records_inv.
  - by apply add_bytes_inv.
  - replace pr with (pr - (n - n)) by lia. replace pb with (pb - (size - size)) by lia.
    destruct (held_amounts _ _ _ _ I Hw) as [? ?]. simpl in *.
    apply (update_inv c pr pb ws w (Checking n size r b) (Held n size r b)); try done; try (by left); try lia.
    + by intros ? ? ? ? [= <- <- <- <-].
    + intros _. by exists n, size, r, b.
  - replace (pr + - n) with (pr - (n - 0)) by lia. replace pb with (pb - (size - size)) by lia.
    destruct (held_amounts _ _ _ _ I Hw) as [? ?]. simpl in *.
    apply (update_inv c pr pb ws w (Checking n size r b) (Returning n size)); simpl; try done; try (by right); try lia.
    intros ->. destruct I as [(? & ? & ? & ? & Hb) _ _ _ _]. simpl in Hb. congruence.
  - by eapply returned_inv.
  - replace (pr + - k) with (pr - (n - (n - k))) by lia. replace pb with (pb - (size - size)) by lia.
    destruct (held_amounts _ _ _ _ I Hw) as [? ?]. simpl in *.
    apply (update_inv c pr pb ws w (Held n size r b) (Held (n - k) size r b)); simpl; try done; try (by left); try lia.
    + intros ? ? ? ? [= <- <- <- <-] Hx. destruct I as [_ Hc _ _ _]. by eapply Hc.
    + intros _. by exists (n - k), size, r, b.
  - replace (pb + - k) with (pb - (size - (size - k))) by lia. replace pr with (pr - (n - n)) by lia.
    destruct (held_amounts _ _ _ _ I Hw) as [? ?]. simpl in *.
    apply (update_inv c pr pb ws w (Held n size r b) (Held n (size - k) r b)); simpl; try done; try (by left); try lia.
    + intros ? ? ? ? [= <- <- <- <-] Hx. destruct I as [_ Hc _ _ _]. by eapply Hc.
    + intros _. by exists n, (size - k), r, b.
Qed.

Inductive reachable (c : limits) (s : counters) : counters → Prop :=
| reach_start : reachable c s s
| reach_step s1 s2 : reachable c s s1 → step c s1 s2 → reachable c s s2.

Lemma capacity_reachable_inv c records bytes s :
  0 <= records → 0 <= bytes → reachable c (opened records bytes) s → inv c s.
Proof. intros Hr Hb. induction 1 as [|s1 s2 _ IH Hst]; [by apply opened_inv | by eapply step_inv]. Qed.

(** The newest of the writers is not the backlog, unless it is alone. *)
Lemma newest_not_backlog (l newer older hs : list nat) w :
  NoDup l → l = newer ++ w :: older → rooted l → (∃ x, x ∈ hs ∧ x ≠ 0%nat) → (∀ x, x ∈ hs → x ∈ w :: older) →
  w ≠ 0%nat.
Proof.
  intros Hnd E [l' E'] (x & Hx & Hne) Hin ->. apply Hne. specialize (Hin x Hx).
  apply elem_of_cons in Hin as [-> | Hin]; [done|]. exfalso.
  rewrite E in E'. destruct older as [|y older _] using rev_ind; [by apply elem_of_nil in Hin|].
  rewrite app_comm_cons, app_assoc in E'. apply app_inj_tail in E' as [_ ->].
  rewrite E in Hnd. apply NoDup_app in Hnd as (_ & _ & Hnd). apply NoDup_cons in Hnd as [H _]. set_solver.
Qed.

Lemma ledger_held f seen ws l sum w p r :
  ledger f seen ws l sum → ws !! w = Some p → seen p = Some r → w ∈ l.
Proof.
  intros L Hw Hs. destruct (decide (w ∈ l)) as [|Hn]; [done|].
  destruct (l_out _ _ _ _ _ L w p Hw Hn) as [_ E]. congruence.
Qed.

(** Beside a write that holds a reservation. *)
Lemma held_within c records bytes s hs :
  0 <= records → 0 <= bytes → reachable c (opened records bytes) s →
  NoDup hs → (∀ w, w ∈ hs → ∃ n size r b, writers s !! w = Some (Held n size r b)) →
  (∃ w, w ∈ hs ∧ w ≠ 0%nat) →
  (0 < maxRecords c → sumL recOf (writers s) hs <= maxRecords c) ∧
  (0 < maxBytes c → sumL byOf (writers s) hs <= maxBytes c).
Proof.
  intros Hr Hb Hreach Hnd Hheld Hother.
  destruct (capacity_reachable_inv _ _ _ _ Hr Hb Hreach) as [_ Hc _ (lr & Lr & Rr) (lb & Lb & Rb & _)].
  assert (Hne : hs ≠ []) by (intros ->; destruct Hother as (? & H & _); by apply elem_of_nil in H).
  assert (Hover : ∀ w, w ∈ hs → w ≠ 0%nat → ∃ n size r b,
    writers s !! w = Some (Held n size r b) ∧ (0 < maxRecords c → r <= maxRecords c) ∧ (0 < maxBytes c → b <= maxBytes c)).
  { intros w Hw H0. destruct (Hheld w Hw) as (n & size & r & b & E). exists n, size, r, b. split; [done|].
    specialize (Hc _ _ _ _ _ E H0). unfold over in Hc. apply orb_false_iff in Hc as [Ho1 Ho2].
    apply andb_false_iff in Ho1, Ho2. split; intros; [destruct Ho1 | destruct Ho2]; bools; lia. }
  split; intros Hlim.
  - destruct (ledger_newest _ _ _ _ _ hs Lr Hnd Hne) as (newer & w & older & El & Hw & Hall & Hbd).
    { intros w Hw. destruct (Hheld w Hw) as (n & size & r & b & E). by eapply ledger_held. }
    pose proof (newest_not_backlog _ _ _ _ _ (l_nodup _ _ _ _ _ Lr) El Rr Hother Hall) as H0.
    destruct (Hover w Hw H0) as (n & size & r & b & E & H1 & _). specialize (Hbd _ _ E eq_refl). specialize (H1 Hlim). lia.
  - destruct (ledger_newest _ _ _ _ _ hs Lb Hnd Hne) as (newer & w & older & El & Hw & Hall & Hbd).
    { intros w Hw. destruct (Hheld w Hw) as (n & size & r & b & E). by eapply ledger_held. }
    pose proof (newest_not_backlog _ _ _ _ _ (l_nodup _ _ _ _ _ Lb) El Rb Hother Hall) as H0.
    destruct (Hover w Hw H0) as (n & size & r & b & E & _ & H1). specialize (Hbd _ _ E eq_refl). specialize (H1 Hlim). lia.
Qed.

(** The backlog is only given back. *)
Lemma backlog_shrinks c records bytes s : reachable c (opened records bytes) s →
  ∃ n size r b, writers s !! 0%nat = Some (Held n size r b) ∧ n <= records ∧ size <= bytes.
Proof.
  induction 1 as [|s1 s2 _ (n & size & r & b & E & Hn & Hs) Hst].
  - exists records, bytes, records, bytes. split; [apply lookup_singleton_eq|]. lia.
  - destruct Hst as [w n0 s0 pr pb ws Hw|w n0 s0 r0 pr pb ws Hw|w n0 s0 r0 b0 pr pb ws Hw Ho|w n0 s0 r0 b0 pr pb ws Hw Ho
      |w n0 s0 pr pb ws Hw|w n0 s0 r0 b0 k pr pb ws Hw Hk|w n0 s0 r0 b0 k pr pb ws Hw Hk]; cbn [writers] in *;
      (destruct (decide (w = 0%nat)) as [->|Hne];
        [rewrite E in Hw; try done; injection Hw as <- <- <- <-; rewrite lookup_insert_eq
        |rewrite ?lookup_insert_ne, ?lookup_delete_ne by done; by exists n, size, r, b]).
    + exists (n - k), size, r, b. split; [done|]. lia.
    + exists n, (size - k), r, b. split; [done|]. lia.
Qed.

(** C27: what is admitted never exceeds the capacity.  However the additions,
    tests and releases of concurrent writers interleave, take any set of holders
    of reservations at one time, the backlog inherited from the previous run
    counting as one of them.  If a write is among them, then together, backlog
    included, they hold no more than each configured limit; so beside a backlog
    above a limit (a buffer reopened with lower limits has one) no write holds
    anything until enough of it was given back.  The backlog alone holds no more
    than was inherited. *)
Theorem admitted_within_capacity c records bytes s hs :
  0 <= records → 0 <= bytes → reachable c (opened records bytes) s →
  NoDup hs → (∀ w, w ∈ hs → ∃ n size r b, writers s !! w = Some (Held n size r b)) →
  ((∃ w, w ∈ hs ∧ w ≠ 0%nat) →
     (0 < maxRecords c → sumL recOf (writers s) hs <= maxRecords c) ∧
     (0 < maxBytes c → sumL byOf (writers s) hs <= maxBytes c)) ∧
  ((∀ w, w ∈ hs → w = 0%nat) → sumL recOf (writers s) hs <= records ∧ sumL byOf (writers s) hs <= bytes).
Proof.
  intros Hr Hb Hreach Hnd Hheld. split; [by apply (held_within c records bytes)|]. intros H0.
  destruct (backlog_shrinks _ _ _ _ Hreach) as (n & size & r & b & E & Hn & Hs).
  destruct hs as [|w hs]; [simpl; lia|].
  assert (hs = []) as ->.
  { destruct hs as [|w' hs]; [done|]. rewrite (H0 w), (H0 w') in Hnd by set_solver.
    apply NoDup_cons in Hnd as [Hx _]. set_solver. }
  rewrite (H0 w) by set_solver. simpl. unfold at_. rewrite E. simpl. lia.
Qed.

(** A write that passes [fits] is admitted by an empty buffer, and one that does
    not is refused by every buffer: the error says what it means to. *)
Theorem too_large_is_permanent c n size :
  0 <= n → 0 <= size →
  (fits c n size = None → (reserve c n size (0, 0)).1 = true) ∧
  (∀ e, fits c n size = Some e → errorsIs e TooLarge = true ∧
     ∀ pr pb, 0 <= pr → 0 <= pb → (reserve c n size (pr, pb)).1 = false).
Proof.
  intros Hn Hs. unfold fits, reserve, over. simpl. split.
  - repeat case_if; try done; intros _; bools; repeat destruct_or?; bools; lia.
  - intros e He. repeat case_if; try done; injection He as <-; (split; [done|]); intros pr pb Hpr Hpb;
      repeat case_if; try done; bools; repeat destruct_or?; bools; lia.
Qed.

(** A backlog of three records and a write of two into room for six. *)
Definition ex_limits : limits := Limits 6 100.
Definition ex_full : counters :=
  Counters 5 50 (<[1%nat := Held 2 20 5 50]> (<[1%nat := Checking 2 20 5 50]> (<[1%nat := Adding 2 20 5]>
    {[ 0%nat := Held 3 30 3 30 ]}))).

Lemma ex_full_capacity_reachable : reachable ex_limits (opened 3 30) ex_full.
Proof.
  eapply reach_step; [eapply reach_step; [eapply reach_step; [apply reach_start|]|]|].
  - by apply (s_add_records _ 1%nat 2 20 3 30).
  - by apply (s_add_bytes _ 1%nat 2 20 5 5 30).
  - by apply (s_admit _ 1%nat 2 20 5 50 5 50).
Qed.

Lemma admitted_within_capacity_witness :
  sumL recOf (writers ex_full) [0; 1]%nat <= 6 ∧ sumL byOf (writers ex_full) [0; 1]%nat <= 100.
Proof.
  destruct (admitted_within_capacity ex_limits 3 30 ex_full [0; 1]%nat ltac:(lia) ltac:(lia) ex_full_capacity_reachable) as [H1 H2].
  - by apply (bool_decide_unpack _).
  - intros w Hw. apply elem_of_cons in Hw as [-> | ->%list_elem_of_singleton]; by do 4 eexists.
  - destruct (H1 ltac:(exists 1%nat; set_solver)) as [Ha Hb]. split; [by apply Ha | by apply Hb].
Defined.

Lemma too_large_is_permanent_witness :
  (reserve ex_limits 6 100 (0, 0)).1 = true ∧ (reserve ex_limits 7 10 (0, 0)).1 = false.
Proof.
  split; [by apply (too_large_is_permanent ex_limits 6 100)|].
  by eapply (proj2 (too_large_is_permanent ex_limits 7 10 ltac:(lia) ltac:(lia))).
Defined.

(** ** The drop floor *)

(** [raiseFloor]: one turn per compare-and-swap; [others] are the floors other
    writers raised it to between the load and the swap of each turn. *)
Fixpoint raiseFloor (to : Z) (others : list Z) (floor : Z) : option Z :=
  if to <=? floor then Some floor
  else match others with
       | [] => Some to
       | o :: others =>
           let floor' := Z.max floor o in
           if floor' =? floor then Some to else raiseFloor to others floor'
       end.

(** [want] of [dropOldest]: how many records to abandon.  Division of
    non-negative numbers. *)
Definition wanted (n size records bytes : Z) : Z :=
  let avg := Z.max (Z.quot bytes records) 1 in
  Z.min (Z.max (n + Z.quot n 4 + 1) (Z.quot size avg)) records.

(** [dropOldest]: the floor it raises to, if there is anything to drop. *)
Definition dropOldest (n size records bytes mark : Z) : option Z :=
  if records <=? 0 then None else Some (u64 (mark + 1 + u64 (wanted n size records bytes))).

Lemma raiseFloor_spec to : ∀ others floor,
  ∃ f, raiseFloor to others floor = Some f ∧ floor <= f ∧ to <= f ∧
       (f = to ∨ f = floor ∨ f ∈ others).
Proof.
  induction others as [|o others IH]; intros floor; simpl; case_if.
  1, 3: exists floor; split; [done|]; split; [lia|]; split; [lia | right; by left].
  - eexists. split; [done|]. split; [lia|]. split; [lia | by left].
  - case_if.
    + eexists. split; [done|]. split; [lia|]. split; [lia | by left].
    + destruct (IH (Z.max floor o)) as (f & -> & H1 & H2 & H3). exists f. split; [done|]. split; [lia|].
      split; [lia|]. destruct H3 as [? | [-> | ?]]; [by left | | right; right; by right].
      destruct (Z.max_spec floor o) as [[_ ->] | [_ ->]]; [right; right; left | right; by left].
Qed.

(** The floor only moves forward and the highest wins: whatever other
    writers raise it to meanwhile, it ends no lower than it was and no lower than
    asked, at a value some writer asked for.  What [dropOldest] asks for abandons
    at least one record, no more than are pending, and, unless that is all of
    them, more records than the write brings. *)
Theorem floor_moves_forward n size records bytes mark others floor to :
  0 < n → 0 <= size → 0 <= bytes → 0 <= mark → mark + records + 1 < 18446744073709551616 →
  dropOldest n size records bytes mark = Some to →
  (mark + 2 <= to <= mark + 1 + records ∧ (to = mark + 1 + records ∨ mark + 1 + n < to)) ∧
  ∃ f, raiseFloor to others floor = Some f ∧ floor <= f ∧ to <= f ∧ (f = to ∨ f = floor ∨ f ∈ others).
Proof.
  intros Hn Hs Hb Hm Hmax. unfold dropOldest. case_if; [done|]. intros [= <-]. split; [|apply raiseFloor_spec].
  unfold wanted. set (avg := Z.max _ 1).
  assert (0 <= Z.quot n 4) by (apply Z.quot_pos; lia).
  assert (0 <= Z.quot size avg) by (apply Z.quot_pos; [lia | unfold avg; lia]).
  rewrite (u64_id (Z.min _ _)) by (unfold is_u64; lia). rewrite u64_id by (unfold is_u64; lia). lia.
Qed.

Lemma floor_moves_forward_witness :
  ∃ f, raiseFloor 104 [102; 0] 101 = Some f ∧ 101 <= f ∧ 104 <= f ∧ (f = 104 ∨ f = 101 ∨ f ∈ [102; 0]).
Proof.
  exact (proj2 (floor_moves_forward 1 40 50 500 99 [102; 0] 101 104 ltac:(lia) ltac:(lia) ltac:(lia) ltac:(lia)
                  ltac:(lia) eq_refl)).
Defined.

End Capacity.
