(* ===== verification/Writer.v ===== *)
(** * Writes (src/batch.go: [WriteBatch], [admit], [decide], [onDiskFull],
      [enter], [accept], [settle])

    A write is one goroutine of the caller's.  Its definitions run over the
    answers of the outside (whether [reserve] found room, what the policy is
    shown, how each [select] came back, what the log said) and produce the list
    of what the write did to the buffer's accounting. *)

From S2P Require Import Prelude Errors Policy Sink Capacity.
From stdpp Require Import strings.
Import Policy.
Local Open Scope Z_scope.

Module Writer.

Inductive effect :=
| Reserved (n size : Z)
| Released (n size : Z)
| DroppedNewest (n : Z)
| DroppedOldest (n size : Z)
| Accepted (last n size : Z)
| Settling (n size : Z)
| MarkedFailed (err : error)
| DiskFullCounted
| Consulted (s : State) (d : Decision)
| Parked (wait : Z).

(** How a parked writer woke up. *)
Inductive woken := SpaceFreed | TimerFired | CtxDone (err : error) | Closing.

(** One turn of [admit_]. *)
Record admit_env := AdmitEnv {
  ad_reserved : bool; ad_ctx : option error; ad_failure : option error;
  ad_state : State; ad_closing : bool; ad_woken : woken
}.

Definition blockRetryFloor : Z := 1000000.
Definition blockRetryInterval : Z := 100000000.
Definition diskFullRetryInterval : Z := 100000000.

(** The fields [state] fills in for one consultation. *)
Definition consulted (attempt : Z) (diskFull : bool) (s : State) : State :=
  MkState (Records s) (Bytes s) (MaxRecords s) (MaxBytes s) (OldestAge s) (SinkFailures s) diskFull attempt (Waited s).

(** [failure]: the fatal error wrapped in [ErrFailed]. *)
Definition failure (fatal : option error) : option error :=
  match fatal with None => None | Some e => Some (Errorf "failed" [Sentinel Failed; e]) end.

(** [decide]: the decision, told to the observer; a Close that began meanwhile
    outranks it. *)
Definition decide (policy : Policy) (s : State) (closing : bool) : Decision * list effect * option error :=
  let d := policy s in
  (d, [Consulted s d], if closing then Some (Sentinel Closed) else None).

(** [admit] of the source: what it did, and its answer unless it is still parked. *)
Fixpoint admit_ (policy : Policy) (n size wait attempt : Z) (es : list admit_env) :
    list effect * option (result bool) :=
  match es with
  | [] => ([], None)
  | e :: es =>
      if ad_reserved e then ([Reserved n size], Some (Ok true))
      else match ad_ctx e with
      | Some err => ([], Some (Fail err))
      | None =>
      match failure (ad_failure e) with
      | Some err => ([], Some (Fail err))
      | None =>
          match decide policy (consulted attempt false (ad_state e)) (ad_closing e) with
          | (_, fx, Some err) => (fx, Some (Fail err))
          | (DecisionReject, fx, None) => (fx, Some (Fail (Sentinel Full)))
          | (DecisionDropNewest, fx, None) => (fx ++ [DroppedNewest n], Some (Ok false))
          | (d, fx, None) =>
              let fx := fx ++ (match d with DecisionDropOldest => [DroppedOldest n size] | _ => [] end) ++ [Parked wait] in
              match ad_woken e with
              | CtxDone err => (fx, Some (Fail err))
              | Closing => (fx, Some (Fail (Sentinel Closed)))
              | _ =>
                  let '(fx', r) := admit_ policy n size (Z.min (2 * wait) blockRetryInterval) (attempt + 1) es in
                  (fx ++ fx', r)
              end
          end
      end
      end
  end.

(** [isDiskFull] *)
Definition isDiskFull (e : error) : bool := errorsIs e ENOSPC || errorsIs e EDQUOT.

Record disk_env := DiskEnv { dk_state : State; dk_closing : bool; dk_woken : woken }.

(** [onDiskFull]: whether to try again. *)
Definition onDiskFull (policy : Policy) (n size attempt : Z) (e : disk_env) : list effect * result bool :=
  match decide policy (consulted attempt true (dk_state e)) (dk_closing e) with
  | (_, fx, Some err) => (DiskFullCounted :: fx, Fail err)
  | (DecisionReject, fx, None) => (DiskFullCounted :: fx, Fail (Sentinel Errors.DiskFull))
  | (DecisionDropNewest, fx, None) => (DiskFullCounted :: fx ++ [DroppedNewest n], Ok false)
  | (d, fx, None) =>
      let fx := DiskFullCounted :: fx ++
        (match d with DecisionDropOldest => [DroppedOldest n size] | _ => [] end) ++ [Parked diskFullRetryInterval] in
      (fx, match dk_woken e with
           | CtxDone err => Fail err
           | Closing => Fail (Sentinel Closed)
           | _ => Ok true
           end)
  end.

(** One turn of [WriteBatch]'s loop: the answers [admit_] got, what the log said
    to the append (the last number of the block) and to the wait for its commit,
    and what a full disk met. *)
Record write_env := WriteEnv {
  wr_admit : list admit_env; wr_append : result Z; wr_await : option error;
  wr_fatal : option error; wr_disk : disk_env
}.

(** The end of the loop's body, after a failed append or commit has given the
    reservation back; [again] is the rest of the loop. *)
Definition appendFailed (policy : Policy) (n size attempt : Z) (e : write_env) (err : error) (fx : list effect)
    (again : list effect * option (option error)) : list effect * option (option error) :=
  if errorsIs err Broken
  then
    let err := Errorf "batch: append" [err] in
    (fx ++ [MarkedFailed err],
     Some (failure (Some (match wr_fatal e with Some first => first | None => err end))))
  else if negb (isDiskFull err) then (fx, Some (Some (Errorf "batch: append" [err])))
  else match onDiskFull policy n size attempt (wr_disk e) with
       | (dx, Fail err) => (fx ++ dx, Some (Some err))
       | (dx, Ok false) => (fx ++ dx, Some None)
       | (dx, Ok true) => let '(fx', r) := again in (fx ++ dx ++ fx', r)
       end.

(** The loop of [WriteBatch].  The error returned, unless it is still going. *)
Fixpoint writeLoop (policy : Policy) (n size attempt : Z) (es : list write_env) :
    list effect * option (option error) :=
  match es with
  | [] => ([], None)
  | e :: es =>
      let '(fx, r) := admit_ policy n size blockRetryFloor 1 (wr_admit e) in
      match r with
      | None => (fx, None)
      | Some (Fail err) => (fx, Some (Some err))
      | Some (Ok false) => (fx, Some None)
      | Some (Ok true) =>
          let failed err :=
            appendFailed policy n size attempt e err (fx ++ [Released n size]) (writeLoop policy n size (attempt + 1) es) in
          match wr_append e, wr_await e with
          | Fail err, _ => failed err
          | Ok last, None => (fx ++ [Accepted last n size], Some None)
          | Ok _, Some err =>
              if errorsIs err Pending
              then (fx ++ [Settling n size], Some (Some (Errorf "uncertain" [Sentinel Uncertain; err])))
              else failed err
          end
      end
  end.

(** [enter] *)
Definition enter (fatal : option error) (sealed : bool) : option error :=
  match failure fatal with
  | Some err => Some err
  | None => if sealed then Some (Sentinel Closed) else None
  end.

(** [WriteBatch] *)
Definition WriteBatch {T} (codec : Sink.Codec T) (policy : Policy) (c : Capacity.limits) (vs : list T)
    (fatal : option error) (sealed : bool) (ctx : option error) (es : list write_env) :
    list effect * option (option error) :=
  match vs with
  | [] => ([], Some None)
  | _ =>
      match enter fatal sealed with
      | Some err => ([], Some (Some err))
      | None =>
      match ctx with
      | Some err => ([], Some (Some err))
      | None =>
          match Sink.encodePayloads codec vs with
          | Fail err => ([], Some (Some err))
          | Ok (payloads, size) =>
              match Capacity.fits c (len vs) size with
              | Some err => ([], Some (Some err))
              | None => writeLoop policy (len vs) size 1 es
              end
          end
      end
      end
  end.

(** [settle]: what the goroutine left behind does once the round has finished. *)
Definition settle (last n size : Z) (await : option error) : list effect :=
  match await with
  | Some _ => [Released n size]
  | None => [Accepted last n size]
  end.

(** ** The reservation *)

(** What the effects add to the two counters. *)
Definition net (fx : list effect) : Z * Z :=
  foldr (λ x z, match x with
                | Reserved n s => (z.1 + n, z.2 + s)
                | Released n s => (z.1 - n, z.2 - s)
                | _ => z
                end) (0, 0) fx.

(** How a write leaves its records: in the log, to a settler, dropped by the
    policy, or nowhere. *)
Definition fate (x : effect) : bool :=
  match x with Accepted _ _ _ | Settling _ _ | DroppedNewest _ => true | _ => false end.
Definition fates (fx : list effect) : list effect := List.filter fate fx.

(** The errors the outside hands to a parked writer, to one turn of the loop, and to
    a write as a whole. *)
Definition admitSaid (e : admit_env) (err : error) : Prop :=
  ad_ctx e = Some err ∨ ad_failure e = Some err ∨ ad_woken e = CtxDone err.
Definition turnSaid (e : write_env) (err : error) : Prop :=
  (∃ a, a ∈ wr_admit e ∧ admitSaid a err) ∨ wr_append e = Fail err ∨ wr_await e = Some err ∨ wr_fatal e = Some err ∨
  dk_woken (wr_disk e) = CtxDone err.
Definition said {T} (codec : Sink.Codec T) (vs : list T) (fatal ctx : option error) (es : list write_env) (err : error) : Prop :=
  fatal = Some err ∨ ctx = Some err ∨ Sink.encodePayloads codec vs = Fail err ∨ ∃ e, e ∈ es ∧ turnSaid e err.

(** [e] does not call the write uncertain, or only because an error the outside gave
    ([S]) already did. *)
Definition not_uncertain (S : error → Prop) (e : error) : Prop :=
  errorsIs e Uncertain = true → ∃ err, S err ∧ errorsIs err Uncertain = true.

(** What a write returned agrees with what it did. *)
Inductive honest (S : error → Prop) (n size : Z) (fx : list effect) : option (option error) → Prop :=
| h_pending : fates fx = [] → net fx = (0, 0) → honest S n size fx None
| h_written last : fates fx = [Accepted last n size] → net fx = (n, size) → honest S n size fx (Some None)
| h_dropped : fates fx = [DroppedNewest n] → net fx = (0, 0) → honest S n size fx (Some None)
| h_uncertain e : fates fx = [Settling n size] → net fx = (n, size) → errorsIs e Uncertain = true →
    honest S n size fx (Some (Some e))
| h_refused e : fates fx = [] → net fx = (0, 0) → not_uncertain S e → honest S n size fx (Some (Some e)).

Lemma net_capacity_app fx fx' : net (fx ++ fx') = ((net fx).1 + (net fx').1, (net fx).2 + (net fx').2).
Proof.
  induction fx as [|x fx IH]; simpl; [by destruct (net fx')|].
  destruct x; rewrite ?IH; simpl; f_equal; lia.
Qed.

Lemma fates_app fx fx' : fates (fx ++ fx') = fates fx ++ fates fx'.
Proof. apply List.filter_app. Qed.

(** A beginning that left no trace does not matter. *)
Lemma honest_app S n size fx fx' r : fates fx = [] → net fx = (0, 0) → honest S n size fx' r → honest S n size (fx ++ fx') r.
Proof.
  intros Hf Hn H. assert (Ef : fates (fx ++ fx') = fates fx') by (by rewrite fates_app, Hf).
  assert (En : net (fx ++ fx') = net fx') by (rewrite net_capacity_app, Hn; simpl; by destruct (net fx')).
  destruct H; rewrite <- ?Ef, <- ?En in *;
    [by apply h_pending | by eapply h_written | by apply h_dropped | by apply h_uncertain | by apply h_refused].
Qed.

(** An error the outside gave, as it is or wrapped. *)
Lemma said_not_uncertain (S : error → Prop) err : S err → not_uncertain S err.
Proof. intros Hs Hu. by exists err. Qed.

Lemma wrapped_not_uncertain (S : error → Prop) msg err : not_uncertain S err → not_uncertain S (Errorf msg [err]).
Proof. unfold not_uncertain. simpl. by rewrite orb_false_r. Qed.

Lemma failure_not_uncertain (S : error → Prop) e :
  not_uncertain S e → not_uncertain S (Errorf "failed" [Sentinel Failed; e]).
Proof. unfold not_uncertain. simpl. by rewrite orb_false_r. Qed.

Lemma sentinel_not_uncertain S t : t ≠ Uncertain → not_uncertain S (Sentinel t).
Proof. intros Ht H. exfalso. simpl in H. by apply bool_decide_eq_true in H. Qed.

(** [admit_] holds a reservation exactly when it says so. *)
Lemma admit_spec policy n size es : ∀ wait attempt fx r, admit_ policy n size wait attempt es = (fx, r) →
  match r with
  | Some (Ok true) => fates fx = [] ∧ net fx = (n, size)
  | Some (Ok false) => fates fx = [DroppedNewest n] ∧ net fx = (0, 0)
  | Some (Fail err) => fates fx = [] ∧ net fx = (0, 0) ∧ not_uncertain (λ e, ∃ a, a ∈ es ∧ admitSaid a e) err
  | None => fates fx = [] ∧ net fx = (0, 0)
  end.
Proof.
  induction es as [|e es IH]; intros wait attempt fx r H; cbn [admit_] in H; [by injection H as <- <-|].
  assert (Hsaid : ∀ err, admitSaid e err → not_uncertain (λ e0, ∃ a, a ∈ e :: es ∧ admitSaid a e0) err).
  { intros err He. apply said_not_uncertain. exists e. split; [left | done]. }
  destruct (ad_reserved e); [by injection H as <- <-|].
  destruct (ad_ctx e) as [cerr|] eqn:Ec; [injection H as <- <-; split; [done|]; split; [done|]; apply Hsaid; by left|].
  destruct (ad_failure e) as [ferr|] eqn:Ef.
  { injection H as <- <-. split; [done|]. split; [done|]. apply failure_not_uncertain, Hsaid. right. by left. }
  simpl in H.
  unfold decide in H. destruct (ad_closing e).
  { destruct (policy _); injection H as <- <-; (split; [done|]; split; [done|]; by apply sentinel_not_uncertain). }
  destruct (policy _); try (by injection H as <- <-); try (injection H as <- <-; split; [done|]; split; [done|]; by apply sentinel_not_uncertain).
  all: destruct (ad_woken e) as [| |werr|] eqn:Ew;
    try (injection H as <- <-; split; [done|]; split; [done|]; first [by apply sentinel_not_uncertain | apply Hsaid; right; by right]).
  all: destruct (admit_ policy n size _ _ es) as [fx' r'] eqn:E; injection H as <- <-; apply IH in E.
  all: repeat case_match; try done; destruct E as (? & ? & Hn); split; [done|]; split; [done|]; intros Hu;
    destruct (Hn Hu) as (err & (a & Ha & Hs) & He); exists err; split; [exists a; split; [by right | done] | done].
Qed.

(** [onDiskFull] holds nothing, and drops the write only when it says so. *)
Lemma onDiskFull_spec policy n size attempt e fx r : onDiskFull policy n size attempt e = (fx, r) →
  net fx = (0, 0) ∧ fates fx = (match r with Ok false => [DroppedNewest n] | _ => [] end) ∧
  ∀ err, r = Fail err → not_uncertain (λ x, dk_woken e = CtxDone x) err.
Proof.
  unfold onDiskFull, decide. intros H.
  destruct (dk_closing e); destruct (policy (consulted attempt true (dk_state e))); destruct (dk_woken e) as [| |werr|] eqn:Ew;
    injection H as <- <-; (split; [done|]; split; [done|]); intros err Hr; try done; injection Hr as <-;
    first [by apply sentinel_not_uncertain | by apply said_not_uncertain].
Qed.

Lemma writeLoop_honest policy n size es : ∀ attempt fx r,
  writeLoop policy n size attempt es = (fx, r) → honest (λ err, ∃ e, e ∈ es ∧ turnSaid e err) n size fx r.
Proof.
  induction es as [|e es IH]; intros attempt fx r H; cbn [writeLoop] in H; [injection H as <- <-; by apply h_pending|].
  set (S := λ err, ∃ e0, e0 ∈ e :: es ∧ turnSaid e0 err).
  assert (Hturn : ∀ err, turnSaid e err → S err) by (intros err He; exists e; split; [left | done]).
  assert (Hweak : ∀ (P : error → Prop) err, (∀ x, P x → S x) → not_uncertain P err → not_uncertain S err).
  { intros P err HP Hn Hu. destruct (Hn Hu) as (x & Hx & Hxu). exists x. split; [by apply HP | done]. }
  assert (Hlater : ∀ fx r, honest (λ err, ∃ e0, e0 ∈ es ∧ turnSaid e0 err) n size fx r → honest S n size fx r).
  { intros fx0 r0 []; [by apply h_pending | by eapply h_written | by apply h_dropped | by apply h_uncertain|].
    apply h_refused; [done | done |]. eapply Hweak; [|done]. intros x (y & He0 & Hx). exists y. split; [by right | done]. }
  destruct (admit_ policy n size blockRetryFloor 1 (wr_admit e)) as [ax ar] eqn:Ea. apply admit_spec in Ea.
  destruct ar as [[[]|err]|].
  2:{ injection H as <- <-. destruct Ea. by apply h_dropped. }
  2:{ injection H as <- <-. destruct Ea as (? & ? & Hn). apply h_refused; [done | done |].
      eapply Hweak; [|exact Hn]. intros x Hx. apply Hturn. by left. }
  2:{ injection H as <- <-. destruct Ea. by apply h_pending. }
  destruct Ea as [Ef En].
  assert (Hz : fates (ax ++ [Released n size]) = [] ∧ net (ax ++ [Released n size]) = (0, 0)).
  { rewrite fates_app, net_capacity_app, Ef, En. simpl. split; [done|]. f_equal; lia. }
  destruct Hz as [Zf Zn].
  assert (Hfailed : ∀ err, turnSaid e err → appendFailed policy n size attempt e err (ax ++ [Released n size])
    (writeLoop policy n size (attempt + 1) es) = (fx, r) → honest S n size fx r).
  { intros err Herr Hr. unfold appendFailed in Hr.
    assert (Happ : not_uncertain S (Errorf "batch: append" [err])) by (apply wrapped_not_uncertain, said_not_uncertain; auto).
    case_if.
    { injection Hr as <- <-. apply honest_app; [done | done |]. apply h_refused; [done | done |].
      apply failure_not_uncertain. destruct (wr_fatal e) as [first|] eqn:Efa; [|done].
      apply said_not_uncertain, Hturn. right. right. right. by left. }
    case_if; [injection Hr as <- <-; by apply h_refused|].
    destruct (onDiskFull _ _ _ _ _) as [dx dr] eqn:Ed. apply onDiskFull_spec in Ed as (Dn & Df & Dh).
    destruct dr as [[]|derr].
    - destruct (writeLoop policy n size (attempt + 1) es) as [fx' r'] eqn:El. apply IH, Hlater in El.
      injection Hr as <- <-. apply honest_app; [done | done |]. by apply honest_app.
    - injection Hr as <- <-. apply honest_app; [done | done |]. by apply h_dropped.
    - injection Hr as <- <-. apply honest_app; [done | done |]. apply h_refused; [done | done |].
      eapply Hweak; [|by apply Dh]. intros x Hx. apply Hturn. do 4 right. exact Hx. }
  destruct (wr_append e) as [last|err] eqn:Eap; [|eapply Hfailed; [right; by left | done]].
  destruct (wr_await e) as [err|] eqn:Eaw; [case_if; [|eapply Hfailed; [right; right; by left | done]]|].
  - injection H as <- <-. apply h_uncertain; [by rewrite fates_app, Ef | rewrite net_capacity_app, En; simpl; f_equal; lia | done].
  - injection H as <- <-. eapply h_written; [by rewrite fates_app, Ef | rewrite net_capacity_app, En; simpl; f_equal; lia].
Qed.


(** A write that finds the buffer full, blocks, is admitted, meets a full disk,
    and is committed the second time. *)
Definition ex_state : State := MkState 6 60 6 100 0 0 false 0 0.
Definition ex_es : list write_env :=
  [WriteEnv [AdmitEnv false None None ex_state false SpaceFreed; AdmitEnv true None None ex_state false TimerFired]
     (Fail (Errorf "reserve" [Sentinel ENOSPC])) None None (DiskEnv ex_state false TimerFired);
   WriteEnv [AdmitEnv true None None ex_state false TimerFired] (Ok 9) None None (DiskEnv ex_state false TimerFired)].

Definition ex_fx : list effect :=
  Eval vm_compute in (WriteBatch Sink.BytesCodec Block (Capacity.Limits 6 100) [[Byte.x61]; [Byte.x62]] None false None ex_es).1.


End Writer.
