(* ===== verification/Observer.v ===== *)
(** * Observer callbacks (src/observer.go)

    Hooks run inline, where a panic is recovered and counted, or on the
    dispatcher's goroutine behind a bounded queue that drops rather than
    blocks.  [emit] is the shape all six helpers share. *)

From S2P Require Import Prelude Sink.
Local Open Scope Z_scope.
Local Open Scope go_scope.

Module Observer.

Section dispatcher.
Context {A : Type}.

(** [dispatcher]: the channel's contents and capacity, and the count. *)
Record dispatcher := Dispatcher { ch : list A; cap : Z; d_dropped : Z }.

Definition newDispatcher (queue : Z) : dispatcher := Dispatcher [] queue 0.

(** [post] never blocks. *)
Definition post (f : A) (d : dispatcher) : dispatcher :=
  if len (ch d) <? cap d then Dispatcher (ch d ++ [f]) (cap d) (d_dropped d)
  else Dispatcher (ch d) (cap d) (d_dropped d +u 1).

(** [run] takes the next hook from the channel, *)
Definition receive (d : dispatcher) : option (A * dispatcher) :=
  match ch d with
  | [] => None
  | f :: fs => Some (f, Dispatcher fs (cap d) (d_dropped d))
  end.

(** and [call] counts a panic of it. *)
Definition called (r : Sink.call unit) (d : dispatcher) : dispatcher :=
  Dispatcher (ch d) (cap d) (match r with Sink.Returned _ => d_dropped d | Sink.Panicked _ => d_dropped d +u 1 end).

Definition runOne (hook : A → Sink.call unit) (d : dispatcher) : option (A * dispatcher) :=
  match receive d with
  | None => None
  | Some (f, d) => Some (f, called (hook f) d)
  end.

(** Events posted and turns of the dispatcher, interleaved. *)
Inductive action := Post (f : A) | Run.

(** The dispatcher and the hooks it ran, in order. *)
Fixpoint play (hook : A → Sink.call unit) (acts : list action) (d : dispatcher) : dispatcher * list A :=
  match acts with
  | [] => (d, [])
  | Post f :: acts => play hook acts (post f d)
  | Run :: acts =>
      match runOne hook d with
      | None => play hook acts d
      | Some (f, d) => let '(d, ran) := play hook acts d in (d, f :: ran)
      end
  end.

Definition posted (acts : list action) : list A :=
  omap (λ a, match a with Post f => Some f | Run => None end) acts.

Definition panics (hook : A → Sink.call unit) (fs : list A) : Z :=
  len (List.filter (λ f, match hook f with Sink.Panicked _ => true | _ => false end) fs).
Definition completed (hook : A → Sink.call unit) (fs : list A) : Z :=
  len (List.filter (λ f, match hook f with Sink.Panicked _ => false | _ => true end) fs).

Lemma split_count hook fs : panics hook fs + completed hook fs = len fs.
Proof.
  unfold panics, completed. induction fs as [|f fs IH]; [done|]. simpl.
  destruct (hook f); rewrite ?len_cons; lia.
Qed.

Lemma play_spec hook acts : ∀ d d' ran,
  play hook acts d = (d', ran) → 0 <= d_dropped d → len (ch d) <= cap d →
  d_dropped d + len (ch d) + len (posted acts) < 18446744073709551616 →
  len (ch d') <= cap d ∧ cap d' = cap d ∧
  ran ++ ch d' `sublist_of` ch d ++ posted acts ∧
  d_dropped d + len (ch d) + len (posted acts) = d_dropped d' + completed hook ran + len (ch d').
Proof.
  induction acts as [|a acts IH]; intros d d' ran H H0 Hc Hb; cbn [play] in H.
  { injection H as <- <-. simpl. rewrite app_nil_r. split; [done|]. split; [done|]. split; [done|].
    unfold completed. simpl. rewrite len_nil. lia. }
  pose proof (len_nonneg (ch d)) as Hl. destruct a as [f|].
  - change (posted (Post f :: acts)) with (f :: posted acts) in *. rewrite len_cons in *.
    pose proof (len_nonneg (posted acts)).
    unfold post in H. case_if; apply IH in H as (K1 & K2 & K3 & K4); simpl in *; try lia.
    + rewrite len_app, len_cons, len_nil in *. split; [done|]. split; [done|].
      split; [by rewrite <- app_assoc in K3 | lia].
    + rewrite len_app, len_cons, len_nil. lia.
    + rewrite len_app, len_cons, len_nil. lia.
    + rewrite u64_id in K4 by (unfold is_u64; lia). split; [done|]. split; [done|]. split; [|lia].
      etrans; [exact K3|]. apply sublist_app; [done | by apply sublist_cons].
    + rewrite u64_id by (unfold is_u64; lia). lia.
    + rewrite u64_id by (unfold is_u64; lia). lia.
  - change (posted (Run :: acts)) with (posted acts) in *. pose proof (len_nonneg (posted acts)).
    unfold runOne, receive in H. destruct (ch d) as [|f fs] eqn:Ech; [apply IH in H; rewrite ?Ech in *; done|].
    rewrite len_cons in *. pose proof (len_nonneg fs).
    destruct (play hook acts _) as [d2 ran2] eqn:Ep. injection H as <- <-.
    apply IH in Ep as (K1 & K2 & K3 & K4); simpl in *.
    + split; [done|]. split; [done|]. split; [by apply sublist_skip|].
      unfold completed in *. simpl. destruct (hook f); rewrite ?len_cons;
        [lia|]. rewrite u64_id in K4 by (unfold is_u64; lia). lia.
    + destruct (hook f); [lia|]. rewrite u64_id by (unfold is_u64; lia). lia.
    + lia.
    + destruct (hook f); [lia|]. rewrite u64_id by (unfold is_u64; lia). lia.
Qed.

(** An asynchronous observer loses nothing unaccounted.  However posts and
    turns of the dispatcher interleave and whichever hooks panic, the hooks run
    are events posted, in the order posted and each at most once; and every
    event posted has run to its end, is still queued, or is counted in
    [ObserverDropped].  The queue never exceeds its size. *)
Theorem observer_events_accounted hook acts queue :
  0 <= queue → len (posted acts) < 18446744073709551616 →
  let '(d, ran) := play hook acts (newDispatcher queue) in
  ran ++ ch d `sublist_of` posted acts ∧
  len (posted acts) = completed hook ran + len (ch d) + d_dropped d ∧ len (ch d) <= queue.
Proof.
  intros Hq Hb. assert (L0 : len (@nil A) = 0) by done.
  destruct (play hook acts (newDispatcher queue)) as [d ran] eqn:E.
  apply play_spec in E as (K1 & _ & K3 & K4); simpl in *; try lia.
  split; [done|]. split; [lia | done].
Qed.
End dispatcher.
Arguments action : clear implicits.
Arguments dispatcher : clear implicits.

Lemma observer_events_accounted_witness :
  let hook (n : nat) := if (n =? 2)%nat then Sink.Panicked 0 else Sink.Returned tt in
  let '(d, ran) := play hook [Post 1%nat; Post 2%nat; Post 3%nat; Run; Run; Post 4%nat] (newDispatcher 2) in
  ran ++ ch d `sublist_of` [1; 2; 3; 4]%nat ∧ d_dropped d = 2.
Proof.
  pose proof (observer_events_accounted (λ n : nat, if (n =? 2)%nat then Sink.Panicked 0 else Sink.Returned tt)
    [Post 1%nat; Post 2%nat; Post 3%nat; Run; Run; Post 4%nat] 2 ltac:(lia) ltac:(done)) as H.
  simpl in *. split; [exact (proj1 H) | done].
Defined.

End Observer.
