(* ===== verification/State.v ===== *)
(** * The buffer's shared state (src/batch.go: [Buffer]; src/flush.go and
      src/observer.go: the operations every goroutine uses on it)

    The fields of [Buffer] that more than one goroutine changes, the helpers that
    change them, and what the effects of a flusher, a delivery and a write
    (Flusher.v, Delivery.v, Writer.v) do to them.  Every helper runs under atomic
    operations or a lock of its own, so it is one step here. *)

From S2P Require Import Prelude Errors Tracker Age Gate Sink Flusher Delivery Policy Capacity Writer Observer.
From stdpp Require Import strings.
Import Sink Observer.
Local Open Scope Z_scope.
Local Open Scope go_scope.

Module State.

(** ** Observer events *)

(** A call of one of the six hooks, with its arguments. *)
Inductive event :=
| EvDrop (records : Z) (reason : Flusher.DropReason)
| EvWrite (records bytes : Z)
| EvFlush (info : Delivery.FlushInfo)
| EvBackpressure (s : Policy.State) (d : Policy.Decision)
| EvDeadLetter (records : Z)
| EvCheckpoint (lsn : Z).

(** The hooks, each nil or a function of the caller's. *)
Record Observer := MkObserver {
  OnWrite : option (Z → Z → call unit);
  OnFlush : option (Delivery.FlushInfo → call unit);
  OnDrop : option (Z → Flusher.DropReason → call unit);
  OnBackpressure : option (Policy.State → Policy.Decision → call unit);
  OnDeadLetter : option (Z → call unit);
  OnCheckpoint : option (Z → call unit)
}.

(** The hook of an event applied to its arguments, if it is set. *)
Definition hookOf (o : Observer) (e : event) : option (call unit) :=
  match e with
  | EvDrop n r => f ← OnDrop o; Some (f n r)
  | EvWrite n m => f ← OnWrite o; Some (f n m)
  | EvFlush i => f ← OnFlush o; Some (f i)
  | EvBackpressure s d => f ← OnBackpressure o; Some (f s d)
  | EvDeadLetter n => f ← OnDeadLetter o; Some (f n)
  | EvCheckpoint n => f ← OnCheckpoint o; Some (f n)
  end.

(** ** The state *)

(** The cumulative counters, [uint64] each. *)
Record counters := Counters {
  written : Z; flushed : Z; droppedN : Z; deadN : Z; retries : Z; diskFull : Z
}.

(** [ran] is a history no code reads: the events whose hook was run inline. *)
Record buffer := Buf {
  acks : Tracker.ackTracker;
  pendingRecords : Z;
  pendingBytes : Z;
  ages : Age.ageTracker;
  sinkFailures : Z;
  failingBatches : Z;
  floor : Z;
  ctr : counters;
  space : Gate.gate;
  progress : Gate.gate;
  floors : Gate.gate;
  wake : bool;
  lastCP : Z;
  fatalErr : option error;
  cpErr : option error;
  forceFlush : bool;
  observer : Observer;
  obs : option (dispatcher event);
  observerPanics : Z;
  ran : list event
}.

(** Field updates. *)
Definition set_acks (a : Tracker.ackTracker) (b : buffer) : buffer :=
  Buf a (pendingRecords b) (pendingBytes b) (ages b) (sinkFailures b) (failingBatches b) (floor b) (ctr b)
    (space b) (progress b) (floors b) (wake b) (lastCP b) (fatalErr b) (cpErr b) (forceFlush b) (observer b)
    (obs b) (observerPanics b) (ran b).
Definition set_pending (records bytes : Z) (b : buffer) : buffer :=
  Buf (acks b) records bytes (ages b) (sinkFailures b) (failingBatches b) (floor b) (ctr b) (space b)
    (progress b) (floors b) (wake b) (lastCP b) (fatalErr b) (cpErr b) (forceFlush b) (observer b) (obs b)
    (observerPanics b) (ran b).
Definition set_ages (a : Age.ageTracker) (b : buffer) : buffer :=
  Buf (acks b) (pendingRecords b) (pendingBytes b) a (sinkFailures b) (failingBatches b) (floor b) (ctr b)
    (space b) (progress b) (floors b) (wake b) (lastCP b) (fatalErr b) (cpErr b) (forceFlush b) (observer b)
    (obs b) (observerPanics b) (ran b).
Definition set_sink (failures failing : Z) (b : buffer) : buffer :=
  Buf (acks b) (pendingRecords b) (pendingBytes b) (ages b) failures failing (floor b) (ctr b) (space b)
    (progress b) (floors b) (wake b) (lastCP b) (fatalErr b) (cpErr b) (forceFlush b) (observer b) (obs b)
    (observerPanics b) (ran b).
Definition set_floor (to : Z) (b : buffer) : buffer :=
  Buf (acks b) (pendingRecords b) (pendingBytes b) (ages b) (sinkFailures b) (failingBatches b) to (ctr b)
    (space b) (progress b) (floors b) (wake b) (lastCP b) (fatalErr b) (cpErr b) (forceFlush b) (observer b)
    (obs b) (observerPanics b) (ran b).
Definition set_ctr (c : counters) (b : buffer) : buffer :=
  Buf (acks b) (pendingRecords b) (pendingBytes b) (ages b) (sinkFailures b) (failingBatches b) (floor b) c
    (space b) (progress b) (floors b) (wake b) (lastCP b) (fatalErr b) (cpErr b) (forceFlush b) (observer b)
    (obs b) (observerPanics b) (ran b).
Definition set_gates (s p f : Gate.gate) (b : buffer) : buffer :=
  Buf (acks b) (pendingRecords b) (pendingBytes b) (ages b) (sinkFailures b) (failingBatches b) (floor b)
    (ctr b) s p f (wake b) (lastCP b) (fatalErr b) (cpErr b) (forceFlush b) (observer b) (obs b)
    (observerPanics b) (ran b).
Definition set_wake (w : bool) (b : buffer) : buffer :=
  Buf (acks b) (pendingRecords b) (pendingBytes b) (ages b) (sinkFailures b) (failingBatches b) (floor b)
    (ctr b) (space b) (progress b) (floors b) w (lastCP b) (fatalErr b) (cpErr b) (forceFlush b) (observer b)
    (obs b) (observerPanics b) (ran b).
Definition set_cp (last : Z) (err : option error) (b : buffer) : buffer :=
  Buf (acks b) (pendingRecords b) (pendingBytes b) (ages b) (sinkFailures b) (failingBatches b) (floor b)
    (ctr b) (space b) (progress b) (floors b) (wake b) last (fatalErr b) err (forceFlush b) (observer b) (obs b)
    (observerPanics b) (ran b).
Definition set_fatal (err : option error) (b : buffer) : buffer :=
  Buf (acks b) (pendingRecords b) (pendingBytes b) (ages b) (sinkFailures b) (failingBatches b) (floor b)
    (ctr b) (space b) (progress b) (floors b) (wake b) (lastCP b) err (cpErr b) (forceFlush b) (observer b)
    (obs b) (observerPanics b) (ran b).
Definition set_force (f : bool) (b : buffer) : buffer :=
  Buf (acks b) (pendingRecords b) (pendingBytes b) (ages b) (sinkFailures b) (failingBatches b) (floor b)
    (ctr b) (space b) (progress b) (floors b) (wake b) (lastCP b) (fatalErr b) (cpErr b) f (observer b) (obs b)
    (observerPanics b) (ran b).
Definition set_obs (o : option (dispatcher event)) (panics : Z) (h : list event) (b : buffer) : buffer :=
  Buf (acks b) (pendingRecords b) (pendingBytes b) (ages b) (sinkFailures b) (failingBatches b) (floor b)
    (ctr b) (space b) (progress b) (floors b) (wake b) (lastCP b) (fatalErr b) (cpErr b) (forceFlush b)
    (observer b) o panics h.

(** ** Observing *)

(** [recoverObserver] around a hook run inline. *)
Definition recoverObserver (c : call unit) (b : buffer) : Z :=
  match c with Returned _ => observerPanics b | Panicked _ => observerPanics b +u 1 end.

(** What the six emit helpers share: no hook, inline, or posted. *)
Definition emit (e : event) (b : buffer) : buffer :=
  match hookOf (observer b) e with
  | None => b
  | Some c =>
      match obs b with
      | None => set_obs None (recoverObserver c b) (ran b ++ [e]) b
      | Some d => set_obs (Some (post e d)) (observerPanics b) (ran b) b
      end
  end.

Definition dropped (records : Z) (reason : Flusher.DropReason) (b : buffer) : buffer :=
  let c := ctr b in
  emit (EvDrop records reason)
    (set_ctr (Counters (written c) (flushed c) (droppedN c +u u64 records) (deadN c) (retries c) (diskFull c)) b).

Definition wrote (records bytes : Z) (b : buffer) : buffer :=
  let c := ctr b in
  emit (EvWrite records bytes)
    (set_ctr (Counters (written c +u u64 records) (flushed c) (droppedN c) (deadN c) (retries c) (diskFull c)) b).

Definition deadLettered (records : Z) (b : buffer) : buffer :=
  let c := ctr b in
  emit (EvDeadLetter records)
    (set_ctr (Counters (written c) (flushed c) (droppedN c) (deadN c +u u64 records) (retries c) (diskFull c)) b).

Definition observeFlush (i : Delivery.FlushInfo) (b : buffer) : buffer := emit (EvFlush i) b.
Definition observeBackpressure (s : Policy.State) (d : Policy.Decision) (b : buffer) : buffer :=
  emit (EvBackpressure s d) b.
Definition checkpointed (lsn : Z) (b : buffer) : buffer := emit (EvCheckpoint lsn) b.

Definition observerDropped (b : buffer) : Z :=
  match obs b with None => observerPanics b | Some d => observerPanics b +u d_dropped d end.

(** ** Capacity and marks *)

Definition nudge (b : buffer) : buffer := set_wake true b.

(** The additions wrap as [atomic.Int64] does. *)
Definition release (n size : Z) (b : buffer) : buffer :=
  let b := set_pending (i64 (pendingRecords b + - n)) (i64 (pendingBytes b + - size)) b in
  set_gates (Gate.signal (space b)) (progress b) (floors b) b.

Definition complete (from to count bytes : Z) (b : buffer) : buffer :=
  let '(a, mark, freedCount, freedBytes) := Tracker.ack from to count bytes (acks b) in
  let b := release freedCount freedBytes (set_ages (Age.trim mark (ages b)) (set_acks a b)) in
  set_gates (space b) (Gate.signal (progress b)) (floors b) b.

Definition accept (lst n size now : Z) (b : buffer) : buffer :=
  nudge (wrote n size (set_ages (Age.note lst now (ages b)) b)).

(** [raiseFloor] with no other writer in between; Capacity.v has the loop. *)
Definition raiseFloor (to : Z) (b : buffer) : buffer :=
  if to <=? floor b then b
  else let b := set_floor to b in set_gates (space b) (progress b) (Gate.signal (floors b)) b.

Definition dropOldest (n size : Z) (b : buffer) : buffer :=
  match Capacity.dropOldest n size (pendingRecords b) (pendingBytes b) (Tracker.mark (acks b)) with
  | None => b
  | Some to => nudge (raiseFloor to b)
  end.

(** ** Errors *)

Definition err (b : buffer) : option error := fatalErr b.

(** [fail]: the first error stays. *)
Definition fail (e : error) (b : buffer) : buffer :=
  let b := set_fatal (match fatalErr b with None => Some e | Some first => Some first end) b in
  set_gates (Gate.signal (space b)) (progress b) (floors b) b.

Definition noteRetryable (e : error) (b : buffer) : buffer := set_cp (lastCP b) (Some e) b.
Definition clearRetryable (b : buffer) : buffer := set_cp (lastCP b) None b.
Definition retryableErr (b : buffer) : option error := cpErr b.

(** ** Statistics *)

Record Stats := MkStats {
  Written : Z; Flushed : Z; Dropped : Z; DeadLettered : Z; Retries : Z;
  PendingRecords : Z; PendingBytes : Z; OldestAge : Z; DiskFullEvents : Z; ObserverDropped : Z;
  Checkpoint : Z; DurableLSN : Z; SinkFailures : Z; Err : option error; CheckpointErr : option error
}.

(** [Stats], given the clock and the log's durable number. *)
Definition statsOf (now durable : Z) (b : buffer) : Stats :=
  let c := ctr b in
  MkStats (written c) (flushed c) (droppedN c) (deadN c) (retries c)
    (pendingRecords b) (pendingBytes b) (Age.oldest now (ages b)) (diskFull c) (observerDropped b)
    (lastCP b) durable (sinkFailures b) (err b) (retryableErr b).

(** [state]: what a policy is shown; the caller sets [DiskFull]. *)
Definition state (c : Capacity.limits) (attempt waited now : Z) (b : buffer) : Policy.State :=
  Policy.MkState (pendingRecords b) (pendingBytes b) (Capacity.maxRecords c) (Capacity.maxBytes c)
    (Age.oldest now (ages b)) (sinkFailures b) false attempt waited.

(** ** Flush

    [Flush] waits on [progress], which [complete] signals. *)

Inductive flushing := FStart | FTook (ch : nat) | FParked (ch : nat) | FReturned (err : option error).

(** One step of [Flush]: take the channel, then look, then ask for a partial
    batch and park.  [None] while parked on a channel that is open; [ctx] is the
    context's error once it is done. *)
Definition Flush (target : Z) (ctx : option error) (f : flushing) (b : buffer) : option (flushing * buffer) :=
  match f with
  | FStart => Some (FTook (Gate.wait (progress b)), b)
  | FTook ch =>
      if target <=? Tracker.mark (acks b) then Some (FReturned (err b), b)
      else match err b with
           | Some e => Some (FReturned (Some e), b)
           | None => Some (FParked ch, nudge (set_force true b))
           end
  | FParked ch =>
      if Gate.is_closed ch (progress b) then Some (FStart, b)
      else match ctx with Some e => Some (FReturned (Some e), b) | None => None end
  | FReturned _ => None
  end.

(** ** What the goroutines' effects do to it *)

Section effects.
Context {T : Type}.

(** The flusher.  A batch handed on changes nothing here by itself. *)
Definition flusherDoes (o : @Flusher.out T) (b : buffer) : buffer :=
  match o with
  | Flusher.OComplete f t c n => complete f t c n b
  | Flusher.ODispatch _ => b
  | Flusher.ODrop reason => dropped 1 reason b
  | Flusher.OFail e => fail e b
  end.

(** A delivery.  [Called] and [Waiting] are calls out of the package. *)
Definition deliveryDoes (x : @Delivery.effect T) (b : buffer) : buffer :=
  let c := ctr b in
  match x with
  | Delivery.Called _ _ | Delivery.Waiting _ => b
  | Delivery.Observed i => observeFlush i b
  | Delivery.Flushed n =>
      set_ctr (Counters (written c) (flushed c +u u64 n) (droppedN c) (deadN c) (retries c) (diskFull c)) b
  | Delivery.Dropped n why => dropped n why b
  | Delivery.DeadLettered n => deadLettered n b
  | Delivery.Completed f t n m => complete f t n m b
  | Delivery.Failed e => fail e b
  | Delivery.Retried =>
      set_ctr (Counters (written c) (flushed c) (droppedN c) (deadN c) (retries c +u 1) (diskFull c)) b
  | Delivery.SinkFailed => set_sink (i64 (sinkFailures b + 1)) (failingBatches b) b
  | Delivery.SinkRecovered => set_sink 0 (failingBatches b) b
  | Delivery.Failing d => set_sink (sinkFailures b) (i64 (failingBatches b + d)) b
  end.
End effects.

(** A write, with the clock of its [accept].  [Reserved] is a successful
    [reserve]; one that failed leaves the counters as they were. *)
Definition writerDoes (now : Z) (x : Writer.effect) (b : buffer) : buffer :=
  let c := ctr b in
  match x with
  | Writer.Reserved n size => set_pending (i64 (pendingRecords b + n)) (i64 (pendingBytes b + size)) b
  | Writer.Released n size => release n size b
  | Writer.DroppedNewest n => dropped n Flusher.ReasonPolicy b
  | Writer.DroppedOldest n size => dropOldest n size b
  | Writer.Accepted lst n size => accept lst n size now b
  | Writer.Settling _ _ | Writer.Parked _ => b
  | Writer.MarkedFailed e => fail e b
  | Writer.DiskFullCounted =>
      set_ctr (Counters (written c) (flushed c) (droppedN c) (deadN c) (retries c) (diskFull c +u 1)) b
  | Writer.Consulted s d => observeBackpressure s d b
  end.

(** One effect of any goroutine, the checkpointer's report included. *)
Inductive action {T : Type} :=
| ByFlusher (o : @Flusher.out T)
| ByDelivery (x : @Delivery.effect T)
| ByWriter (now : Z) (x : Writer.effect)
| ByCheckpointer (lsn : Z)
| ByDispatcher (hook : event → call unit).
Arguments action : clear implicits.

(** The dispatcher's turn takes the next event off its queue. *)
Definition dispatch1 (hook : event → call unit) (b : buffer) : buffer :=
  match obs b with
  | None => b
  | Some d => match runOne hook d with
              | None => b
              | Some (_, d) => set_obs (Some d) (observerPanics b) (ran b) b
              end
  end.

Definition act {T} (b : buffer) (a : action T) : buffer :=
  match a with
  | ByFlusher o => flusherDoes o b
  | ByDelivery x => deliveryDoes x b
  | ByWriter now x => writerDoes now x b
  | ByCheckpointer lsn => checkpointed lsn b
  | ByDispatcher hook => dispatch1 hook b
  end.

(** ** Observers cannot disturb the pipeline

    Buffers that differ at most in their observer: in which hooks are set, how
    they are run, what they were told and how often they panicked. *)

Definition noObserver : Observer := MkObserver None None None None None None.

Definition blank (b : buffer) : buffer :=
  Buf (acks b) (pendingRecords b) (pendingBytes b) (ages b) (sinkFailures b) (failingBatches b) (floor b) (ctr b)
    (space b) (progress b) (floors b) (wake b) (lastCP b) (fatalErr b) (cpErr b) (forceFlush b) noObserver
    None 0 [].

Definition unobserved (b b' : buffer) : Prop := blank b = blank b'.

#[global] Instance unobserved_equiv : Equivalence unobserved.
Proof. split; [by intros b | by intros b b' H | by intros b b' b'' H H'; etrans]. Qed.

Lemma emit_unobserved e b : unobserved (emit e b) b.
Proof. unfold unobserved, emit. destruct (hookOf _ e); [|done]. by destruct (obs b). Qed.

Lemma blank_unobserved b : unobserved (blank b) b.
Proof. done. Qed.

Lemma emit_quiet e b : observer b = noObserver → emit e b = b.
Proof. intros H. unfold emit. rewrite H. by destruct e. Qed.

Lemma blank_emit e b : blank (emit e b) = blank b.
Proof. apply emit_unobserved. Qed.

Lemma blank_complete f t n m b : blank (complete f t n m b) = complete f t n m (blank b).
Proof.
  unfold complete. change (acks (blank b)) with (acks b).
  by destruct (Tracker.ack f t n m (acks b)) as [[[a mark] fc] fb].
Qed.

Lemma blank_dropOldest n size b : blank (dropOldest n size b) = dropOldest n size (blank b).
Proof.
  unfold dropOldest. simpl. destruct (Capacity.dropOldest _ _ _ _ _) as [to|]; [|done].
  unfold raiseFloor. simpl. by case_if.
Qed.

(** Every effect does to a buffer what it does to one without an observer. *)
Lemma act_blank {T} (a : action T) b : blank (act b a) = act (blank b) a.
Proof.
  destruct a as [[]|[]|now []|n|hook]; simpl;
    unfold dropped, deadLettered, observeFlush, observeBackpressure, accept, wrote, checkpointed;
    rewrite ?blank_complete, ?blank_dropOldest, ?blank_emit, ?emit_quiet by done; try done.
  - unfold nudge.
    assert (Hw : ∀ w b, blank (set_wake w b) = set_wake w (blank b)) by done. by rewrite Hw, blank_emit.
  - unfold dispatch1. simpl. destruct (obs b) as [d|]; [|done]. by destruct (runOne hook d) as [[]|].
Qed.

#[global] Instance act_proper {T} : Proper (unobserved ==> eq ==> unobserved) (@act T).
Proof. intros b b' H a ? <-. unfold unobserved in *. by rewrite !act_blank, H. Qed.

#[global] Instance acts_proper {T} : Proper (eq ==> unobserved ==> unobserved) (λ acts b, foldl (@act T) b acts).
Proof.
  intros acts ? <-. induction acts as [|a acts IH]; intros b b' H; [done|]. simpl. apply IH. by rewrite H.
Qed.

(** [Stats] without the one field about the observer itself. *)
Definition aside (s : Stats) : Stats :=
  MkStats (Written s) (Flushed s) (Dropped s) (DeadLettered s) (Retries s) (PendingRecords s) (PendingBytes s)
    (OldestAge s) (DiskFullEvents s) 0 (Checkpoint s) (DurableLSN s) (SinkFailures s) (Err s) (CheckpointErr s).

#[global] Instance stats_proper now durable : Proper (unobserved ==> eq) (λ b, aside (statsOf now durable b)).
Proof. intros b b' H. change (aside (statsOf now durable (blank b)) = aside (statsOf now durable (blank b'))). by rewrite H. Qed.

(** Observers cannot disturb the pipeline.  Two buffers that differ only in
    their observer (which hooks are set, whether they run inline or behind the
    dispatcher, which of them panic) stay the same in everything else, capacity,
    marks, counters, errors and wake-ups included, whatever the goroutines do and
    however their effects interleave; and report the same statistics except for
    [ObserverDropped]. *)
Theorem observers_do_not_interfere {T} (acts : list (action T)) b b' now durable :
  unobserved b b' →
  unobserved (foldl act b acts) (foldl act b' acts) ∧
  aside (statsOf now durable (foldl act b acts)) = aside (statsOf now durable (foldl act b' acts)).
Proof.
  intros H. assert (E : unobserved (foldl act b acts) (foldl act b' acts)) by (by apply acts_proper).
  split; [exact E | exact (stats_proper now durable _ _ E)].
Qed.

(** ** Counters and callbacks move together *)

Definition dropOf (e : event) : Z := match e with EvDrop n _ => n | _ => 0 end.
Definition writeOf (e : event) : Z := match e with EvWrite n _ => n | _ => 0 end.
Definition deadOf (e : event) : Z := match e with EvDeadLetter n => n | _ => 0 end.
Definition panicOf (o : Observer) (e : event) : Z :=
  match hookOf o e with Some (Panicked _) => 1 | _ => 0 end.
Definition total (f : event → Z) (l : list event) : Z := foldr (λ e z, f e + z) 0 l.

Lemma total_snoc f l e : total f (l ++ [e]) = total f l + f e.
Proof. induction l as [|x l IH]; simpl; [lia|]. rewrite IH. lia. Qed.

Lemma u64_plus x y : (u64 x +u u64 y) = u64 (x + y).
Proof. unfold u64. rewrite <- Zplus_mod. done. Qed.

(** The counters say what the hooks were told. *)
Record mirrored (o : Observer) (b : buffer) : Prop := {
  mi_observer : observer b = o;
  mi_inline : obs b = None;
  mi_dropped : droppedN (ctr b) = u64 (total dropOf (ran b));
  mi_written : written (ctr b) = u64 (total writeOf (ran b));
  mi_dead : deadN (ctr b) = u64 (total deadOf (ran b));
  mi_panics : observerPanics b = u64 (total (panicOf o) (ran b))
}.

Lemma emit_mirrored o e c b :
  is_Some (OnDrop o) → is_Some (OnWrite o) → is_Some (OnDeadLetter o) → mirrored o b →
  droppedN c = (droppedN (ctr b) +u u64 (dropOf e)) → written c = (written (ctr b) +u u64 (writeOf e)) →
  deadN c = (deadN (ctr b) +u u64 (deadOf e)) → mirrored o (emit e (set_ctr c b)).
Proof.
  intros [hd Hd] [hw Hw] [hl Hl] [Ho Hi Md Mw Ml Mp] Ed Ew El. unfold emit. simpl. rewrite Hi, Ho.
  destruct (hookOf o e) as [k|] eqn:Ek.
  - constructor; simpl; rewrite ?total_snoc; try done.
    + by rewrite Ed, Md, u64_plus.
    + by rewrite Ew, Mw, u64_plus.
    + by rewrite El, Ml, u64_plus.
    + unfold recoverObserver, panicOf at 2. rewrite Ek. simpl. rewrite Mp. destruct k; [by rewrite Z.add_0_r|].
      apply (u64_plus _ 1).
  - assert (H0 : dropOf e = 0 ∧ writeOf e = 0 ∧ deadOf e = 0).
    { destruct e; simpl in *; rewrite ?Hd, ?Hw, ?Hl in Ek; try done. }
    destruct H0 as (E1 & E2 & E3). rewrite E1 in Ed. rewrite E2 in Ew. rewrite E3 in El.
    assert (Hz : ∀ x, (u64 x +u u64 0) = u64 x) by (intros; by rewrite u64_plus, Z.add_0_r).
    constructor; simpl; try done; [by rewrite Ed, Md, Hz | by rewrite Ew, Mw, Hz | by rewrite El, Ml, Hz].
Qed.

Lemma emit_ctr e b : emit e b = emit e (set_ctr (ctr b) b).
Proof. by destruct b. Qed.

(** Whatever leaves these three counters and the history alone. *)
Lemma mirrored_ext o b b' : mirrored o b →
  observer b' = observer b → obs b' = obs b → droppedN (ctr b') = droppedN (ctr b) →
  written (ctr b') = written (ctr b) → deadN (ctr b') = deadN (ctr b) → ran b' = ran b →
  observerPanics b' = observerPanics b → mirrored o b'.
Proof. intros [] E1 E2 E3 E4 E5 E6 E7. constructor; by rewrite ?E1, ?E2, ?E3, ?E4, ?E5, ?E6, ?E7. Qed.

(** [complete] and [dropOldest] observe nothing. *)
Lemma complete_mirrored o f t n m b : mirrored o b → mirrored o (complete f t n m b).
Proof.
  intros M. unfold complete. destruct (Tracker.ack f t n m (acks b)) as [[[a mark] fc] fb].
  by apply (mirrored_ext o b).
Qed.

Lemma dropOldest_mirrored o n size b : mirrored o b → mirrored o (dropOldest n size b).
Proof.
  intros M. unfold dropOldest, raiseFloor. destruct (Capacity.dropOldest _ _ _ _ _) as [to|]; [|done].
  case_if; by apply (mirrored_ext o b).
Qed.

Lemma act_mirrored {T} o (a : action T) b :
  is_Some (OnDrop o) → is_Some (OnWrite o) → is_Some (OnDeadLetter o) → mirrored o b → mirrored o (act b a).
Proof.
  intros Hd Hw Hl M. assert (Hz : ∀ x, (u64 x +u u64 0) = u64 x) by (intros; by rewrite u64_plus, Z.add_0_r).
  assert (He : ∀ e, dropOf e = 0 → writeOf e = 0 → deadOf e = 0 → mirrored o (emit e b)).
  { intros e E1 E2 E3. rewrite emit_ctr. pose proof M as [_ _ Md Mw Ml _].
    apply emit_mirrored; [done..| | |]; rewrite ?E1, ?E2, ?E3, ?Md, ?Mw, ?Ml; symmetry; apply Hz. }
  pose proof (mi_inline _ _ M) as Hi. pose proof (mi_dropped _ _ M) as Md.
  pose proof (mi_written _ _ M) as Mw. pose proof (mi_dead _ _ M) as Ml.
  destruct a as [[]|[]|now []|n|hook]; simpl;
    unfold dropped, deadLettered, observeFlush, observeBackpressure, checkpointed;
    try (by apply complete_mirrored); try (by apply dropOldest_mirrored); try (by apply He);
    try (by apply (mirrored_ext o b)); try (by apply emit_mirrored; simpl; rewrite ?Md, ?Mw, ?Ml, ?Hz).
  - match goal with |- mirrored o (accept ?l ?n ?s now b) =>
      apply (mirrored_ext o (wrote n s (set_ages (Age.note l now (ages b)) b))); try done end.
    unfold wrote. simpl. apply emit_mirrored; simpl; rewrite ?Md, ?Mw, ?Ml, ?Hz; try done.
    by apply (mirrored_ext o b).
  - unfold dispatch1. by rewrite Hi.
Qed.

(** The counters and the callbacks never part.  With hooks for drops, writes
    and dead letters run inline, then at any point of any interleaving of the
    goroutines' effects the counters of [Stats] are, modulo 2^64, the sums of what
    the hooks were told, and [ObserverDropped] is the number of hook calls that
    panicked: no drop site updates one and forgets the other. *)
Theorem counters_mirror_callbacks {T} (acts : list (action T)) o b :
  is_Some (OnDrop o) → is_Some (OnWrite o) → is_Some (OnDeadLetter o) → mirrored o b →
  let b' := foldl act b acts in
  droppedN (ctr b') = u64 (total dropOf (ran b')) ∧ written (ctr b') = u64 (total writeOf (ran b')) ∧
  deadN (ctr b') = u64 (total deadOf (ran b')) ∧ observerDropped b' = u64 (total (panicOf o) (ran b')).
Proof.
  intros Hd Hw Hl M. assert (M' : mirrored o (foldl act b acts)).
  { revert b M. induction acts as [|a acts IH]; intros b M; [done|]. simpl. by apply IH, act_mirrored. }
  destruct M' as [Mo Mi Md Mw Ml Mp]. cbv zeta. unfold observerDropped. by rewrite Mi.
Qed.

(** A buffer as [Open] makes it, resuming behind [low]. *)
Definition opened (low : Z) (o : Observer) (queue : Z) (records bytes : Z) : buffer :=
  Buf (Tracker.newAckTracker low) records bytes (Age.AgeTracker [] 0) 0 0 (low +u 1) (Counters 0 0 0 0 0 0)
    Gate.newGate Gate.newGate Gate.newGate false low None None false o
    (if 0 <? queue then Some (newDispatcher queue) else None) 0 [].

(** Hooks of which the one for drops panics; and a few effects. *)
Definition ex_observer : Observer :=
  MkObserver (Some (λ _ _, Returned tt)) None (Some (λ _ _, Panicked 7)) None (Some (λ _, Returned tt)) None.

Definition ex_acts : list (action Z) :=
  [ByWriter 1000 (Writer.Accepted 3 3 30); ByFlusher (Flusher.ODrop Flusher.ReasonDecode);
   ByFlusher (Flusher.OComplete 1 1 1 10); ByDelivery (Delivery.DeadLettered 2);
   ByDelivery (Delivery.Completed 2 3 2 20)].

Lemma observers_do_not_interfere_witness :
  aside (statsOf 2000 3 (foldl act (opened 0 ex_observer 0 3 30) ex_acts)) =
  aside (statsOf 2000 3 (foldl act (opened 0 noObserver 5 3 30) ex_acts)).
Proof.
  exact (proj2 (observers_do_not_interfere ex_acts (opened 0 ex_observer 0 3 30) (opened 0 noObserver 5 3 30)
    2000 3 eq_refl)).
Defined.

Lemma counters_mirror_callbacks_witness :
  let b := foldl act (opened 0 ex_observer 0 3 30) ex_acts in
  droppedN (ctr b) = 1 ∧ written (ctr b) = 3 ∧ deadN (ctr b) = 2 ∧ observerDropped b = 1.
Proof.
  pose proof (counters_mirror_callbacks ex_acts ex_observer (opened 0 ex_observer 0 3 30)
    ltac:(by eexists) ltac:(by eexists) ltac:(by eexists) ltac:(by constructor)) as (H1 & H2 & H3 & H4).
  exact (conj H1 (conj H2 (conj H3 H4))).
Defined.

(** [Flush] is documented to return the buffer's fatal error if it has one.  A
    call that is already parked when the buffer fails is not woken: nothing in
    [fail] closes the channel it holds, and a failed buffer completes nothing
    more.  A call made after the failure does return the error. *)
Theorem parked_flush_misses_failure target b e ch :
  Tracker.mark (acks b) < target → fatalErr b = None → Gate.is_closed ch (progress b) = false →
  Flush target None (FTook ch) b = Some (FParked ch, nudge (set_force true b)) ∧
  Flush target None (FParked ch) (fail e (nudge (set_force true b))) = None ∧
  ∃ b', Flush target None (FTook (Gate.wait (progress b))) (fail e b) = Some (FReturned (Some e), b').
Proof.
  intros Hm Hf Hc. apply Z.leb_gt in Hm. unfold Flush, fail, err. simpl. rewrite Hf, Hc, Hm.
  split; [done|]. split; [done|]. by eexists.
Qed.

End State.
