(* ===== verification/Buffer.v ===== *)
(** * Opening and checkpointing a buffer (src/batch.go: [Open], [countBacklog];
      src/flush.go: [persist], the end of [Close])

    What ties the buffer to its directory: where delivery resumes, how much
    capacity the inherited backlog takes, and in which order the checkpoint is
    written and segments are deleted.  The disk may fail any call. *)

From S2P Require Import Prelude Errors Text Record Disk Segment MarkFiles Log LogInv LogSteps Recovery Reader Tracker Age Gate State.
From stdpp Require Import strings.
Local Open Scope Z_scope.
Local Open Scope go_scope.

Module Buffer.
Import Segment Log LogInv.

(** [min(checkpoint, DurableLSN)], raised to the number before the log's first. *)
Definition clamp (checkpoint : Z) (l : log) : Z :=
  let c := Z.min checkpoint (DurableLSN l) in
  if 0 <? FirstLSN l then Z.max c (FirstLSN l -u 1) else c.

(** The part of [Open] between the log and the buffer: the mark delivery resumes
    from.  Every error path closes the log. *)
Definition resumeMark : M world Z :=
  on_error (
    checkpoint <- onDisk MarkFiles.ReadCheckpoint ;;
    l <- gets lg ;;
    if checkpoint <? FirstPrevEnd l
    then throw (Errorf "segments are missing" [Sentinel Corrupt])
    else
      let mark := clamp checkpoint l in
      (if checkpoint <? mark then onDisk (MarkFiles.WriteCheckpoint mark) else ret tt) ;;;
      Truncate (mark +u 1) ;;;
      ret mark)
    (λ w, (Ok tt, (Log.Close true w).2)).

(** [countBacklog]: records, bytes and the last number, read until [ErrNoData];
    [fuel] bounds the records read. *)
Fixpoint countLoop (E : Reader.files) (l : log) (fuel : nat) (r : Reader.reader) (records bytes last : Z) :
    option (result (Z * Z * Z)) :=
  match fuel with
  | O => None
  | S fuel =>
      match Reader.Next E (maxRecordBytes (opts l)) l r with
      | (Ok (lsn, payload), r') => countLoop E l fuel r' (records + 1) (bytes + len payload) lsn
      | (Fail e, _) => if errorsIs e NoData then Some (Ok (records, bytes, last)) else Some (Fail e)
      end
  end.

Definition countBacklog (E : Reader.files) (l : log) (fuel : nat) (from : Z) : option (result (Z * Z * Z)) :=
  match Reader.NewReader l from with
  | Fail e => if errorsIs e Truncated then Some (Ok (0, 0, 0)) else Some (Fail e)
  | Ok r => countLoop E l fuel r 0 0 0
  end.

(** [countBacklog]'s last lines: the counters, and the inherited backlog dated
    from now. *)
Definition inherit (now : Z) (counted : Z * Z * Z) (b : State.buffer) : State.buffer :=
  let '(records, bytes, lst) := counted in
  let b := State.set_pending records bytes b in
  if 0 <? records then State.set_ages (Age.note lst now (State.ages b)) b else b.

(** [Open] from the log on: the log, the mark, the backlog, the buffer.  [E] are
    the files a reader sees of a directory, [fuel] bounds the backlog; the
    flusher is started from [op_from]. *)
Record opening := Opening {
  op_world : world; op_buffer : State.buffer; op_from : Z; op_salvaged : list Recovery.Salvage
}.

Definition Open (o : Options) (clock : nat → Z) (newId : bytes) (E : gmap bytes bytes → Reader.files) (fuel : nat)
    (now : Z) (obs : State.Observer) (queue : Z) (d : Disk.disk) : option (result opening) * Disk.disk :=
  match Recovery.Open o clock newId d with
  | (Fail e, d) => (Some (Fail e), d)
  | (Ok (l, salvaged), d) =>
      match resumeMark (World l d) with
      | (Fail e, w) => (Some (Fail e), dk w)
      | (Ok mark, w) =>
          match countBacklog (E (Disk.view (dk w))) (lg w) fuel (mark +u 1) with
          | None => (None, dk w)
          | Some (Fail e) => (Some (Fail e), dk (Log.Close true w).2)
          | Some (Ok counted) =>
              (Some (Ok (Opening w (inherit now counted (State.opened mark obs queue 0 0)) (mark +u 1) salvaged)), dk w)
          end
      end
  end.

(** [persist]'s three ways out, for the buffer. *)
Definition checkpointFailed (e : error) (b : State.buffer) : State.buffer :=
  State.noteRetryable (Errorf "batch: write checkpoint" [e]) b.
Definition truncateFailed (e : error) (b : State.buffer) : State.buffer :=
  State.noteRetryable (Errorf "batch: truncate log" [e]) b.
Definition persisted (low : Z) (b : State.buffer) : State.buffer :=
  let b := State.checkpointed low (State.clearRetryable (State.set_cp low (State.cpErr b) b)) in
  State.set_gates (Gate.signal (State.space b)) (State.progress b) (State.floors b) b.

(** [persist]: checkpoint, then truncate, then say so; an error is noted and the
    next tick tries again. *)
Definition persist (b : State.buffer) : M world State.buffer :=
  let low := Tracker.mark (State.acks b) in
  if (low =? 0) || (low =? State.lastCP b) then ret b
  else
    w <- try (onDisk (MarkFiles.WriteCheckpoint low)) ;;
    match w with
    | Fail e => ret (checkpointFailed e b)
    | Ok _ =>
        t <- try (Truncate (low +u 1)) ;;
        match t with
        | Fail e => ret (truncateFailed e b)
        | Ok _ => ret (persisted low b)
        end
    end.

(** The end of [Close], once every goroutine has stopped: a last [persist], the
    log, and the error to report.  [timedOut] is the context's error if [Close]
    stopped waiting for it. *)
Definition shutdown (timedOut : option error) (b : State.buffer) : M world (State.buffer * option error) :=
  b <- persist b ;;
  c <- try (Log.Close true) ;;
  ret (b, Log.firstErr (Log.firstErr (Log.errOf c) timedOut) (State.err b)).

(** ** The checkpoint covers the head *)

(** Whatever the first segment follows is at or below the checkpoint: the test
    [Open] makes. *)
Definition covered (w : world) (cp : Z) : Prop := checkpointIn w = Some cp ∧ FirstPrevEnd (lg w) <= cp.

Definition at_head (l : log) : Prop := FirstLSN l = match segs l with s :: _ => baseLSN s | [] => 0 end.

(** Truncation touches no file but the segments', and keeps [firstLSN] at the
    head. *)
Lemma Truncate_files upto w r w' : Truncate upto w = (r, w') →
  (∀ n, (∀ s, s ∈ sealed (lg w) → path s ≠ n) → Disk.view (dk w') !! n = Disk.view (dk w) !! n) ∧
  (at_head (lg w) → at_head (lg w')).
Proof.
  unfold Truncate. intros H. apply bind_gets_inv in H. cbv beta zeta in H.
  destruct (doomed upto (sealed (lg w))) as [|m]; [by injection H as <- <-|].
  apply bind_inv in H as [([removed rerr] & w1 & H1 & H)|(e & H & ->)].
  2: { apply onDisk_inv in H as (d1 & H & _). by apply removeFiles_spec in H as (? & ? & [=] & _). }
  apply onDisk_inv in H1 as (d1 & H1 & ->).
  apply removeFiles_spec in H1 as (k & re & [= -> ->] & Hk & Hre & Hv).
  apply bind_inv in H as [([] & w2 & H2 & H)|(e & [=] & _)]. injection H2 as <-. simpl in H.
  set (l2 := set_firstLSN _ _) in H.
  assert (Hh : at_head l2) by (unfold at_head, l2, segs, FirstLSN; simpl; by destruct (drop _ (sealed (lg w)))).
  assert (Hv' : ∀ n, (∀ s, s ∈ sealed (lg w) → path s ≠ n) → Disk.view d1 !! n = Disk.view (dk w) !! n).
  { intros n Hn. apply Hv. intros s (i & Hi)%list_elem_of_lookup. apply Hn.
    apply lookup_take_Some in Hi as [(Hi & _)%lookup_take_Some _]. by eapply list_elem_of_lookup_2. }
  destruct re as [e|].
  - injection H as <- <-. done.
  - apply onDisk_inv in H as (d2 & H & ->). apply Disk.syncDir_inv in H as [_ V2]. simpl. by rewrite V2.
Qed.

Lemma sealed_not_checkpoint w gs pa fly st junk h s :
  core w gs pa fly st junk h → s ∈ sealed (lg w) → path s ≠ MarkFiles.checkpointName.
Proof.
  intros C Hs E. apply list_elem_of_lookup in Hs as [i Hi].
  destruct (Forall2_lookup_l _ _ _ _ _ (c_sealed _ _ _ _ _ _ _ C) Hi) as (ps & _ & Hr).
  rewrite (rep_path _ _ _ _ _ Hr) in E. apply (f_equal length) in E. by rewrite length_segmentName in E.
Qed.

Lemma linked_second s s' ss : linked (s :: s' :: ss) → prevEnd s' = lastLSN s.
Proof. simpl. tauto. Qed.

(** What the head follows after segments wholly below [upto] have gone. *)
Lemma doomed_head upto ss a k c :
  linked (ss ++ [a]) → (k <= doomed upto ss)%nat → upto = c + 1 →
  match ss ++ [a] with s :: _ => prevEnd s | [] => 0 end <= c →
  match drop k ss ++ [a] with s :: _ => prevEnd s | [] => 0 end <= c.
Proof.
  revert k. induction ss as [|s ss IH]; intros k Hl Hk -> Hp; [by rewrite drop_nil|].
  simpl in Hk. destruct k as [|k]; [done|]. destruct (Z.leb_spec (c + 1) (lastLSN s)) as [|Hlt]; [lia|].
  simpl. apply IH; [by eapply linked_tail | lia | done |]. simpl in Hl, Hp.
  destruct (ss ++ [a]) as [|s' t] eqn:E; [by destruct ss|]. destruct Hl as (-> & _). lia.
Qed.

(** Truncation up to a mark the checkpoint holds leaves the head covered. *)
Lemma Truncate_covered w gs pa fly st junk h mark cp r w' :
  core w gs pa fly st junk h → is_u64 (mark + 1) → covered w cp → mark <= cp → FirstPrevEnd (lg w) <= mark →
  Truncate (mark +u 1) w = (r, w') →
  covered w' cp ∧ FirstPrevEnd (lg w') <= mark ∧ head_only (lg w) (lg w') ∧
  ∃ k, core w' (drop k gs) pa fly st junk h ∧
    ∃ gone, all_records (lg w) gs pa = gone ++ all_records (lg w') (drop k gs) pa ∧ ∀ e, e ∈ gone → e.1 <= mark.
Proof.
  intros C Hu [Hcp Hpe] Hle Hpm H. rewrite u64_id in H by done.
  destruct (Truncate_files _ _ _ _ H) as [Hf _].
  destruct (Truncate_spec _ _ _ _ _ _ _ _ _ _ C H) as (k & Hk & Hs & (k' & first & El) & C' & (gone & Hg & Hgl) & _).
  assert (Hho : head_only (lg w) (lg w')) by (by exists k', first).
  assert (Hhead : FirstPrevEnd (lg w') <= mark).
  { unfold FirstPrevEnd, segs in *. rewrite Hs, El. simpl.
    by apply (doomed_head (mark + 1) _ _ _ mark (c_linked _ _ _ _ _ _ _ C) Hk). }
  split; [split|].
  - unfold checkpointIn, MarkFiles.markIn in *. rewrite Hf; [done|]. intros s Hs'. exact (sealed_not_checkpoint _ _ _ _ _ _ _ _ C Hs').
  - lia.
  - split; [done|]. split; [done|]. exists k. split; [done|]. exists gone. split; [done|].
    intros e He. specialize (Hgl e He). lia.
Qed.

(** C24: the checkpoint is always ahead of the deletions.  Whatever calls fail
    during [persist], the directory's checkpoint is the old one or the new mark,
    the first segment left follows nothing above it, and only records at or
    below the mark are gone: the next [Open] finds nothing missing. *)
Theorem persist_keeps_head_covered w gs pa fly st junk h cp b r w' :
  let low := Tracker.mark (State.acks b) in
  core w gs pa fly st junk h → covered w cp → cp <= low → is_u64 (low + 1) → 0 <= cp →
  persist b w = (r, w') →
  ∃ cp', (cp' = cp ∨ cp' = low) ∧ covered w' cp' ∧
    ∃ k, core w' (drop k gs) pa fly st junk h ∧
      ∃ gone, all_records (lg w) gs pa = gone ++ all_records (lg w') (drop k gs) pa ∧ ∀ e, e ∈ gone → e.1 <= cp'.
Proof.
  intros low C Hcov Hle Hu H0 H.
  assert (Hstay : ∀ w2, core w2 gs pa fly st junk h → lg w2 = lg w → ∃ k, core w2 (drop k gs) pa fly st junk h ∧
      ∃ gone, all_records (lg w) gs pa = gone ++ all_records (lg w2) (drop k gs) pa ∧ ∀ e, e ∈ gone → e.1 <= cp).
  { intros w2 C2 E2. exists 0%nat. rewrite drop_0. split; [done|]. exists []. rewrite E2. split; [done|].
    intros e He. by apply elem_of_nil in He. }
  unfold persist in H. fold low in H. case_if; [injection H as <- <-; exists cp; split; [by left|]; split; [done | by apply Hstay]|].
  apply bind_try_inv in H as (x & w1 & Hw & H). apply onDisk_inv in Hw as (d1 & Hw & ->).
  assert (Hlow : is_u64 low) by (unfold is_u64 in *; lia).
  destruct (core_writeCheckpoint _ _ _ _ _ _ _ _ _ _ C Hlow Hw) as (C1 & Hk & Hok).
  destruct Hcov as [Hcp Hpe]. destruct x as [[]|e].
  - apply bind_try_inv in H as (y & w2 & Ht & H).
    assert (Hcov1 : covered (World (lg w) d1) low) by (split; [by apply Hok | simpl; lia]).
    destruct (Truncate_covered _ _ _ _ _ _ _ low low _ _ C1 Hu Hcov1 ltac:(lia) ltac:(simpl; lia) Ht)
      as (Hc2 & _ & _ & k & C2 & gone & Hg & Hgl).
    assert (w' = w2) as -> by (by destruct y; injection H as _ <-).
    exists low. split; [by right|]. split; [done|]. exists k. split; [done|]. by exists gone.
  - injection H as <- <-. destruct Hk as [Hk | Hk].
    + exists cp. split; [by left|]. split; [split; [by rewrite Hk | done]|]. by apply Hstay.
    + exists low. split; [by right|]. split; [split; [done | simpl; lia]|].
      destruct (Hstay (World (lg w) d1) C1 eq_refl) as (k & Ck & gone & Hg & Hgl). exists k. split; [done|].
      exists gone. split; [done|]. intros x Hx. specialize (Hgl x Hx). lia.
Qed.

Lemma linked_head s ss x : linked (s :: ss) → x ∈ s :: ss → baseLSN s <= baseLSN x.
Proof.
  revert s. induction ss as [|s' ss IH]; intros s Hl Hx; apply elem_of_cons in Hx as [-> | Hx]; try lia;
    [by apply elem_of_nil in Hx|]. destruct Hl as (_ & Hb & Hl). specialize (IH s' Hl Hx). lia.
Qed.

(** The clamped mark lies between the head and the next number, and below every
    record the checkpoint does not cover. *)
Lemma clamp_bounds w gs pa c :
  core w gs pa [] [] [] HOpen → at_head (lg w) → 0 <= durable (lg w) < nextLSN (lg w) → nextLSN (lg w) < maxU64 →
  0 <= clamp c (lg w) < nextLSN (lg w) ∧
  (∀ e, e ∈ all_records (lg w) gs pa → c < e.1 → clamp c (lg w) < e.1) ∧
  FirstPrevEnd (lg w) <= clamp c (lg w).
Proof.
  intros C Hh Hd Hmax. unfold clamp, FirstPrevEnd, DurableLSN, maxU64 in *. rewrite Hh.
  assert (Hsh := Reader.shelf_core C). assert (Hrec := book_records C). assert (Hfst := book_fst C).
  pose proof (c_linked _ _ _ _ _ _ _ C) as Hl. pose proof (c_next _ _ _ _ _ _ _ C) as Hn.
  destruct (segs (lg w)) as [|s0 ss] eqn:Es; [by unfold segs in Es; destruct (sealed (lg w))|].
  destruct (LogInv.book (lg w) gs pa) as [|[s1 p1] bk] eqn:Ebk; [done|]. injection Hfst as -> Hfst.
  destruct (Reader.sh_rep _ _ Hsh s0 p1 ltac:(left)) as (_ & Hb1 & Hb2 & Hp & _). unfold maxU64 in *.
  pose proof (len_nonneg p1).
  assert (Hpos : (0 <? baseLSN s0) = true) by (apply Z.ltb_lt; lia). rewrite Hpos.
  assert (Hw : baseLSN s0 -u 1 = baseLSN s0 - 1) by (apply u64_id; unfold is_u64; lia). rewrite Hw.
  assert (Ha : baseLSN s0 <= baseLSN (active (lg w))).
  { apply (linked_head s0 ss); [done|]. rewrite <- Es. apply elem_of_app. right. by apply list_elem_of_singleton. }
  rewrite !len_nil in Hn. pose proof (len_nonneg pa). split; [lia|]. split; [|lia].
  intros e He Hc. apply Hrec in He as (s & ps & Hin & He). apply entries_lsn in He.
  assert (baseLSN s0 <= baseLSN s); [|lia]. apply (linked_head s0 ss); [done|].
  apply elem_of_cons in Hin as [[= -> _] | Hin]; [by left|]. right. rewrite <- Hfst.
  apply list_elem_of_fmap. by exists (s, ps).
Qed.

(** A reader can start right behind any mark the head is not above. *)
Lemma new_reader_at l m : FirstPrevEnd l <= m → ∃ r, Reader.NewReader l (m + 1) = Ok r.
Proof.
  unfold FirstPrevEnd, Reader.NewReader. simpl. destruct (segs l) as [|s ss]; simpl; [intros _; by eexists|].
  intros Hp. destruct (m + 1 =? 0); [rewrite Z.ltb_irrefl; by eexists|]. case_if; [|by eexists].
  unfold gapBefore. simpl. assert ((prevEnd s <? m + 1) = true) as -> by (apply Z.ltb_lt; lia).
  assert ((m + 1 <? baseLSN s) = true) as -> by (by apply Z.ltb_lt). by eexists.
Qed.

Lemma new_reader_start l from r : Reader.NewReader l from = Ok r → from ≠ 0 →
  Reader.nextLSN r = from ∨ ∃ s ss, segs l = s :: ss ∧ from < baseLSN s ∧ Reader.nextLSN r = baseLSN s.
Proof.
  unfold Reader.NewReader. simpl. intros H Hn. apply Z.eqb_neq in Hn. rewrite Hn in H.
  destruct (segs l) as [|s ss]; simpl in H; [left; by injection H as <-|].
  destruct (Z.ltb_spec from (baseLSN s)); [|left; by injection H as <-]. case_if; [done|]. injection H as <-. right. eauto.
Qed.

(** A log with segments gone from its front is as fresh as before. *)
Lemma fresh_headless w w' gs gs' pa gone k first :
  LogSteps.fresh w gs pa → core w' gs' pa [] [] [] HOpen →
  lg w' = set_firstLSN first (set_segs (drop k (sealed (lg w))) (active (lg w)) (lg w)) →
  all_records (lg w) gs pa = gone ++ all_records (lg w') gs' pa → LogSteps.fresh w' gs' pa.
Proof.
  intros F C E Hg. pose proof (LogSteps.fr_covers _ _ _ F) as Hcov. rewrite Hg in Hcov. apply Forall_app in Hcov as [_ Hcov].
  destruct F. split; rewrite ?E in *; try done.
Qed.

(** What [resumeMark] leaves: a log as good as new with the segments below the
    mark gone, and a checkpoint that is the one found or the mark. *)
Lemma resume_spec w gs pa cp m w' :
  LogSteps.fresh w gs pa → at_head (lg w) → covered w cp → is_u64 cp → nextLSN (lg w) < maxU64 →
  resumeMark w = (Ok m, w') →
  ∃ k cp', LogSteps.fresh w' (drop k gs) pa ∧ (cp' = cp ∨ cp' = m) ∧ covered w' cp' ∧
    (∀ e, e ∈ all_records (lg w) gs pa → cp < e.1 → m < e.1) ∧
    (∃ gone, all_records (lg w) gs pa = gone ++ all_records (lg w') (drop k gs) pa ∧ ∀ e, e ∈ gone → e.1 <= m) ∧
    0 <= m < nextLSN (lg w') ∧ nextLSN (lg w') = nextLSN (lg w) ∧ FirstPrevEnd (lg w') <= m ∧ at_head (lg w').
Proof.
  intros F Hh [Hcp Hpe] Hu Hmax H. pose proof (LogSteps.fr_core _ _ _ F) as C.
  pose proof (LogSteps.fr_durable _ _ _ F) as Hd. unfold maxU64, is_u64 in *.
  unfold resumeMark in H. apply on_error_inv in H as [(m' & H & [= <-])|(e & s1 & rc & _ & _ & [=])].
  apply bind_inv in H as [(c0 & w1 & H1 & H)|(e & _ & [=])].
  apply onDisk_inv in H1 as (d1 & H1 & ->). apply MarkFiles.readMark_inv in H1 as [V1 Hc0].
  specialize (Hc0 _ eq_refl). apply bind_gets_inv in H. simpl in H.
  assert (Hc : 0 <= c0 <= cp).
  { destruct Hc0 as [Hc0 | ->]; [|lia]. unfold checkpointIn in Hcp.
    assert (Some c0 = Some cp) as [= ->] by (by rewrite <- Hc0, <- Hcp). lia. }
  assert (C1 : core (World (lg w) d1) gs pa [] [] [] HOpen) by (by apply (core_view_same C)).
  assert (Hcp1 : checkpointIn (World (lg w) d1) = Some cp) by (unfold checkpointIn in *; simpl; by rewrite V1).
  case_if; [done|]. destruct (clamp_bounds _ _ _ c0 C1 Hh Hd ltac:(unfold maxU64; simpl; lia)) as (Hm & Hlow & Hprev).
  set (mk := clamp c0 (lg w)) in *. simpl in Hm, Hlow, Hprev.
  assert (Hw2 : ∃ d2 cp2, core (World (lg w) d2) gs pa [] [] [] HOpen ∧ covered (World (lg w) d2) cp2 ∧ mk <= cp2 ∧
    (cp2 = cp ∨ cp2 = mk) ∧ (Truncate (mk +u 1) ;;; ret mk) (World (lg w) d2) = (Ok m, w')).
  { case_if.
    - apply bind_inv in H as [([] & w2 & H2 & H)|(e & _ & [=])]. apply onDisk_inv in H2 as (d2 & H2 & ->).
      destruct (core_writeCheckpoint _ _ _ _ _ _ _ mk _ _ C1 ltac:(unfold is_u64; lia) H2) as (C2 & _ & Hok).
      exists d2, mk. split; [done|]. split; [split; [by apply Hok | simpl; lia]|]. split; [lia|]. split; [by right | done].
    - apply bind_inv in H as [([] & w2 & H2 & H)|(e & _ & [=])]. injection H2 as <-.
      exists d1, cp. split; [done|]. split; [by split|]. split; [lia|]. split; [by left | done]. }
  destruct Hw2 as (d2 & cp2 & C2 & Hcov2 & Hmk & Hcp2 & H').
  apply bind_inv in H' as [([] & w3 & H3 & H')|(e & _ & [=])]. injection H' as <- <-.
  destruct (Truncate_covered _ _ _ _ _ _ _ mk cp2 _ _ C2 ltac:(unfold is_u64; lia) Hcov2 Hmk ltac:(simpl; lia) H3)
    as (Hc3 & Hp3 & (k' & first & E3) & k & C3 & gone & Hg & Hgl). simpl in E3, Hg.
  exists k, cp2. split; [by eapply fresh_headless|]. split; [done|]. split; [done|].
  split; [intros e He Hlt; specialize (Hlow e He); lia|]. split; [by exists gone|]. rewrite E3. simpl. split; [lia|].
  split; [done|]. rewrite <- E3. split; [done|]. by apply (proj2 (Truncate_files _ _ _ _ H3)).
Qed.

(** [Open] resumes delivery where it should.  With a checkpoint [cp] that
    covers the head, and whatever calls fail: if [Open] gets as far as a mark,
    every record above the checkpoint is still in the log and above the mark, so
    nothing undelivered is skipped; every number the log will hand out is above
    the mark, so no new write stays unread; a reader can start right behind the
    mark; and the head is still covered, so the next [Open] will not refuse the
    directory. *)
Theorem open_resumes_after_delivered w gs pa cp m w' :
  LogSteps.fresh w gs pa → at_head (lg w) → covered w cp → is_u64 cp → nextLSN (lg w) < maxU64 →
  resumeMark w = (Ok m, w') →
  ∃ k, core w' (drop k gs) pa [] [] [] HOpen ∧
    (∀ e, e ∈ all_records (lg w) gs pa → cp < e.1 → m < e.1 ∧ e ∈ all_records (lg w') (drop k gs) pa) ∧
    0 <= m < nextLSN (lg w') ∧
    (∃ r, Reader.NewReader (lg w') (m + 1) = Ok r) ∧
    ∃ cp', covered w' cp'.
Proof.
  intros F Hh Hcov Hu Hmax H.
  destruct (resume_spec _ _ _ _ _ _ F Hh Hcov Hu Hmax H) as (k & cp' & F' & _ & Hc & Hlow & (gone & Hg & Hgl) & Hm & _ & Hp & _).
  exists k. split; [apply (LogSteps.fr_core _ _ _ F')|]. split; [|split; [done|split; [by apply new_reader_at | by exists cp']]].
  intros e He Hlt. specialize (Hlow e He Hlt). split; [done|]. rewrite Hg in He. apply elem_of_app in He as [He | He]; [|done].
  specialize (Hgl e He). lia.
Qed.

(** ** Without a fault *)

Lemma removeFiles_clean ss : ∀ k d, Disk.plan d = [] →
  ∃ d', removeFiles ss k d = (Ok ((k + length ss)%nat, None), d') ∧ Disk.plan d' = [].
Proof.
  induction ss as [|s ss IH]; intros k d Hp; simpl; [exists d; by rewrite Nat.add_0_r|].
  replace (k + S (length ss))%nat with (S k + length ss)%nat by lia. unfold bind, try.
  destruct (Disk.view d !! path s) as [c|] eqn:E.
  - destruct (Disk.yields_remove (path s) (Disk.view d) ltac:(by eexists) d Hp eq_refl) as (d1 & -> & Hp1 & _). by apply IH.
  - destruct (Disk.remove_absent _ _ Hp E) as (d1 & -> & Hp1 & _). by apply IH.
Qed.

Lemma Truncate_clean u w : Disk.plan (dk w) = [] →
  ∃ w', Truncate u w = (Ok tt, w') ∧ Disk.plan (dk w') = [].
Proof.
  intros Hp. unfold Truncate, bind, gets. destruct (doomed u (sealed (lg w))) as [|n]; [by exists w|].
  destruct (removeFiles_clean (take (S n) (sealed (lg w))) 0 (dk w) Hp) as (d1 & E & Hp1).
  unfold onDisk. rewrite E. simpl.
  destruct (Disk.yields_syncDir _ d1 Hp1 eq_refl) as (d2 & E2 & Hp2 & _). rewrite E2. by eexists.
Qed.

(** A directory whose checkpoint covers the head is accepted. *)
Lemma resume_succeeds w cp : Disk.plan (dk w) = [] → covered w cp →
  ∃ m w', resumeMark w = (Ok m, w') ∧ Disk.plan (dk w') = [].
Proof.
  intros Hp [Hcp Hpe].
  destruct (MarkFiles.yields_readMark MarkFiles.checkpointName "wal: malformed checkpoint" _ _ Hcp (dk w) Hp eq_refl)
    as (d1 & E1 & Hp1 & V1).
  unfold resumeMark, on_error, bind at 1, onDisk at 1.
  change (MarkFiles.ReadCheckpoint (dk w)) with (MarkFiles.readMark MarkFiles.checkpointName "wal: malformed checkpoint" (dk w)).
  rewrite E1. unfold bind at 1, gets at 1. cbn [lg]. set (mk := clamp cp (lg w)).
  destruct (Z.ltb_spec cp (FirstPrevEnd (lg w))); [lia|].
  assert (Hw : ∃ d2, (if cp <? mk then onDisk (MarkFiles.WriteCheckpoint mk) else ret tt) (World (lg w) d1)
    = (Ok tt, World (lg w) d2) ∧ Disk.plan d2 = []).
  { case_if; [|by exists d1]. unfold onDisk, MarkFiles.WriteCheckpoint. cbn [lg dk].
    destruct (MarkFiles.yields_replaceFile MarkFiles.checkpointName (Text.show mk ++ MarkFiles.newline) _ d1 Hp1 eq_refl)
      as (d2 & E2 & Hp2 & _).
    exists d2. by rewrite E2. }
  destruct Hw as (d2 & E2 & Hp2). unfold bind at 1. rewrite E2.
  destruct (Truncate_clean (mk +u 1) (World (lg w) d2) Hp2) as (w3 & E3 & Hp3). unfold bind at 1. rewrite E3.
  exists mk, w3. done.
Qed.

(** ** The backlog *)

Definition bytesOf (es : list (Z * bytes)) : Z := foldr (λ e z, len e.2 + z) 0 es.
Definition lastOf (lst : Z) (es : list (Z * bytes)) : Z := match last es with Some e => e.1 | None => lst end.

Lemma lastOf_cons lst e es : lastOf lst (e :: es) = lastOf e.1 es.
Proof. unfold lastOf. rewrite last_cons. by destruct (last es). Qed.

(** What counting the records [records] over the files [E] comes to.  Either it
    counts them in order up to a point, which with no empty segment in the way is
    the last of them unless a file's answer posed as the end of the log; or it
    returns the error of the open or the read that failed. *)
Definition counted (E : Reader.files) (bk : list (segment * list bytes)) (records : list (Z * bytes))
    (n b lst : Z) (res : result (Z * Z * Z)) : Prop :=
  match res with
  | Ok c => ∃ es rest, records = es ++ rest ∧ c = (n + len es, b + bytesOf es, lastOf lst es) ∧
      (Reader.filled (bk := bk) → rest = [] ∨ ∃ err, Reader.refused E bk err ∧ errorsIs err NoData = true)
  | Fail err => Reader.refused E bk err ∧ errorsIs err NoData = false
  end.

Lemma counted_cons E bk lsn p records n b lst res :
  counted E bk records (n + 1) (b + len p) lsn res → counted E bk ((lsn, p) :: records) n b lst res.
Proof.
  destruct res as [c|e]; [|done]. intros (es & rest & -> & -> & Hr). exists ((lsn, p) :: es), rest.
  split; [done|]. split; [|done]. rewrite lastOf_cons, len_cons. simpl. f_equal. f_equal; lia.
Qed.

(** A record at the cursor that [Next] does not return. *)
Lemma unread E w gs pa r e r' x es :
  LogSteps.fresh w gs pa → at_head (lg w) → FirstLSN (lg w) <= Reader.nextLSN r →
  let bk := LogInv.book (lg w) gs pa in
  Reader.truthful E bk → Reader.reader_inv bk r → Reader.filled (bk := bk) →
  Reader.Next E (maxRecordBytes (opts (lg w))) (lg w) r = (Fail e, r') →
  Reader.from_on (Reader.nextLSN r) (all_records (lg w) gs pa) = x :: es → Reader.refused E bk e.
Proof.
  intros F Hh Hhd bk T Hi Hfill En Ef. pose proof (LogSteps.fr_core _ _ _ F) as C.
  pose proof (LogSteps.fr_covers _ _ _ F) as Hdur. rewrite Forall_forall in Hdur.
  assert (He : x ∈ Reader.from_on (Reader.nextLSN r) (all_records (lg w) gs pa)) by (rewrite Ef; left).
  apply list_elem_of_filter in He as [Hle Hin]. pose proof (proj1 (book_records C x) Hin) as (s & ps & Hbk & Hen).
  assert (Hab : Reader.above_head (bk := bk) (Reader.nextLSN r)).
  { unfold Reader.above_head, bk. destruct (LogInv.book (lg w) gs pa) as [|[s0 p0] b0] eqn:Eb; [done|].
    assert (Hs0 : segs (lg w) = s0 :: b0.*1) by (rewrite <- (book_fst C), Eb; done).
    unfold at_head in Hh. rewrite Hs0 in Hh.
    destruct (Reader.sh_rep _ _ (Reader.shelf_core C) s0 p0 ltac:(rewrite Eb; left)) as (_ & _ & _ & Hp & _). lia. }
  apply (Reader.Next_complete (Reader.shelf_core C) T (Reader.snapshot_shows_all C) r s ps x _ r' Hfill Hab Hi
    Hbk Hen ltac:(split; [done | by apply Hdur]) En e eq_refl).
Qed.

(** Counting stops by itself, at the first call that returns no record. *)
Lemma countLoop_spec E w gs pa fuel r n b lst :
  LogSteps.fresh w gs pa → at_head (lg w) → FirstLSN (lg w) <= Reader.nextLSN r →
  let bk := LogInv.book (lg w) gs pa in
  Reader.truthful E bk → Reader.reader_inv bk r →
  let records := Reader.from_on (Reader.nextLSN r) (all_records (lg w) gs pa) in
  (length records < fuel)%nat →
  ∃ res, countLoop E (lg w) fuel r n b lst = Some res ∧ counted E bk records n b lst res.
Proof.
  intros F Hh Hhd bk T. pose proof (LogSteps.fr_core _ _ _ F) as C.
  pose proof (core_sorted _ _ _ _ _ _ _ C) as Hs.
  revert r n b lst Hhd. induction fuel as [|fuel IH]; intros r n b lst Hhd Hi records Hlt; [lia|].
  cbn [countLoop]. destruct (Reader.Next _ _ (lg w) r) as [res r'] eqn:En.
  destruct (Reader.Next_spec (Reader.shelf_core C) T (Reader.snapshot_shows_all C) _ _ _ Hi En) as [Hi' Hres].
  destruct res as [[lsn p]|e].
  - destruct Hres as (Hge & Hva & Hnx & s & ps & Hbk & Hen).
    assert (Hin : (lsn, p) ∈ all_records (lg w) gs pa) by (apply (book_records C); eauto).
    destruct records as [|e es] eqn:Ef.
    { assert (Hf : (lsn, p) ∈ records) by (by apply list_elem_of_filter). rewrite Ef in Hf. by apply not_elem_of_nil in Hf. }
    assert (e = (lsn, p)) as ->.
    { apply (Reader.from_on_first _ _ _ _ _ Hs Ef Hin Hge). intros x Hx.
      apply (book_records C) in Hx as (s' & ps' & Hbk' & Hen'). by apply (Hva s' ps'). }
    pose proof (Reader.from_on_next _ _ _ _ Hs Ef) as Hnext. simpl in Hnext. rewrite <- Hnx in Hnext.
    destruct (IH r' (n + 1) (b + len p) lsn ltac:(lia) Hi' ltac:(rewrite Hnext; simpl in Hlt; lia)) as (res & Hc & Hcnt).
    exists res. split; [done|]. rewrite Hnext in Hcnt. by apply counted_cons.
  - assert (Hq : e = Sentinel NoData ∨ Reader.refused E bk e).
    { eapply (Reader.Next_quiet (Reader.shelf_core C) T (Reader.snapshot_shows_all C)); [|exact Hi | exact En].
      unfold Reader.at_or_above_head. simpl. unfold at_head in Hh. destruct (segs (lg w)) as [|s ss]; simpl; [done | lia]. }
    destruct (errorsIs e NoData) eqn:Ee.
    2:{ destruct Hq as [->|Hq]; [done|]. by eexists. }
    eexists. split; [done|]. exists [], records. rewrite len_nil, !Z.add_0_r. split; [done|]. split; [done|].
    intros Hfill. destruct records as [|x es] eqn:Ef; [by left|]. right.
    exists e. split; [by eapply (unread E w gs pa r e r' x es)|done].
Qed.

Lemma reader_at_head w gs pa from r :
  LogSteps.fresh w gs pa → at_head (lg w) → from ≠ 0 → Reader.NewReader (lg w) from = Ok r →
  FirstLSN (lg w) <= Reader.nextLSN r.
Proof.
  intros F Hh H0 Hr.
  unfold at_head in Hh. rewrite Hh. destruct (new_reader_start _ _ _ Hr H0) as [E|(s & ss & E & _ & ->)]; [|by rewrite E].
  revert Hr E. unfold Reader.NewReader. simpl. apply Z.eqb_neq in H0. rewrite H0.
  destruct (segs (lg w)) as [|s ss] eqn:Es; [by unfold segs in Es; destruct (sealed (lg w))|]. simpl.
  destruct (Z.ltb_spec from (baseLSN s)); [|by intros [= <-] _]. case_if; [done|]. by intros [= <-] _.
Qed.

Lemma countBacklog_spec E w gs pa from r :
  LogSteps.fresh w gs pa → at_head (lg w) → from ≠ 0 → Reader.NewReader (lg w) from = Ok r →
  let bk := LogInv.book (lg w) gs pa in
  Reader.truthful E bk →
  let records := Reader.from_on (Reader.nextLSN r) (all_records (lg w) gs pa) in
  ∃ res, countBacklog E (lg w) (S (length records)) from = Some res ∧ counted E bk records 0 0 0 res.
Proof.
  intros F Hh H0 Hr bk T records. pose proof (LogSteps.fr_core _ _ _ F) as C.
  destruct (countLoop_spec E w gs pa (S (length records)) r 0 0 0 F Hh (reader_at_head _ _ _ _ _ F Hh H0 Hr) T
    (Reader.NewReader_inv C _ _ Hr) (Nat.lt_succ_diag_r _)) as (res & Hc & Hcnt).
  exists res. split; [unfold countBacklog; by rewrite Hr|done].
Qed.

(** On a disk whose calls succeed. *)
Lemma backlog_counted w gs pa from r :
  LogSteps.fresh w gs pa → at_head (lg w) → from ≠ 0 → Reader.NewReader (lg w) from = Ok r →
  let records := Reader.from_on (Reader.nextLSN r) (all_records (lg w) gs pa) in
  ∃ es rest, records = es ++ rest ∧
    countBacklog (Reader.disk_files (Disk.view (dk w))) (lg w) (S (length records)) from
      = Some (Ok (len es, bytesOf es, lastOf 0 es)) ∧
    (Reader.filled (bk := LogInv.book (lg w) gs pa) → es = records).
Proof.
  intros F Hh H0 Hr records. pose proof (LogSteps.fr_core _ _ _ F) as C.
  pose proof (Reader.disk_files_sound C) as Hd. pose proof (Reader.sound_truthful _ Hd) as T.
  destruct (countBacklog_spec _ w gs pa from r F Hh H0 Hr T) as (res & Hc & Hcnt).
  pose proof (λ err, Reader.sound_never_refuses _ _ err Hd) as Hno. destruct res as [c|e]; [|by destruct Hcnt as [?%Hno _]].
  destruct Hcnt as (es & rest & He & -> & Hall). exists es, rest. split; [done|]. split; [done|].
  intros [->|(err & ?%Hno & _)]%Hall; [|done]. by rewrite app_nil_r in He.
Qed.

(** C21: the backlog a restart inherits is counted exactly, or the count fails
    with the disk.  Behind any number a reader can start at, whatever gaps
    recovery has left, and whichever opens and reads of the segments' files
    fail, [countBacklog] ends.  If it returns nil, it has counted the records
    from the reader's start on, in order: how many, their bytes, and the number
    of the last; and all of them, when no empty segment stands in front of others
    and no failing call answered [ErrNoData].  If it returns an error, that is
    the error of an open or a read that failed. *)
Theorem backlog_is_counted E w gs pa from r :
  LogSteps.fresh w gs pa → at_head (lg w) → from ≠ 0 → Reader.NewReader (lg w) from = Ok r →
  let bk := LogInv.book (lg w) gs pa in
  Reader.truthful E bk →
  let records := Reader.from_on (Reader.nextLSN r) (all_records (lg w) gs pa) in
  ∃ res, countBacklog E (lg w) (S (length records)) from = Some res ∧
    match res with
    | Ok c => ∃ es rest, records = es ++ rest ∧ c = (len es, bytesOf es, lastOf 0 es) ∧
        (Reader.filled (bk := bk) → rest = [] ∨ ∃ err, Reader.refused E bk err ∧ errorsIs err NoData = true)
    | Fail err => Reader.refused E bk err ∧ errorsIs err NoData = false
    end.
Proof. apply countBacklog_spec. Qed.

(** A log of two records that has never been checkpointed. *)
Lemma ex_covered : covered Reader.ex_two 0.
Proof. split; vm_compute; done. Qed.

(** The buffer over it, with its first record delivered. *)
Definition ex_buffer : State.buffer := State.complete 1 1 1 1 (State.opened 0 State.noObserver 0 2 2).

Lemma persist_keeps_head_covered_witness :
  ∃ cp', (cp' = 0 ∨ cp' = 1) ∧ covered (persist ex_buffer Reader.ex_two).2 cp'.
Proof.
  destruct (persist_keeps_head_covered Reader.ex_two [] _ [] [] [] HOpen 0 ex_buffer
    (persist ex_buffer Reader.ex_two).1 (persist ex_buffer Reader.ex_two).2
    (LogSteps.fr_core _ _ _ Reader.ex_two_fresh) ex_covered) as (cp' & H1 & H2 & _).
  - by vm_compute.
  - by vm_compute.
  - lia.
  - apply surjective_pairing.
  - exists cp'. exact (conj H1 H2).
Defined.

Lemma open_resumes_after_delivered_witness :
  ∃ r, Reader.NewReader (lg (resumeMark Reader.ex_two).2) (0 + 1) = Ok r.
Proof.
  assert (E : resumeMark Reader.ex_two = (Ok 0, (resumeMark Reader.ex_two).2)).
  { rewrite (surjective_pairing (resumeMark Reader.ex_two)) at 1. f_equal; by vm_compute. }
  destruct (open_resumes_after_delivered Reader.ex_two [] _ 0 0 (resumeMark Reader.ex_two).2
    Reader.ex_two_fresh) as (k & _ & _ & _ & Hr & _).
  - by vm_compute.
  - exact ex_covered.
  - unfold is_u64. lia.
  - by vm_compute.
  - exact E.
  - exact Hr.
Defined.

(** Files of which every read fails. *)
Definition ex_failing : Reader.files :=
  Reader.Files (λ _, Ok tt) (λ _ _ _, Fail (Sentinel EIO)).

Lemma backlog_is_counted_witness :
  countBacklog (Reader.disk_files (Disk.view (dk Reader.ex_two))) (lg Reader.ex_two) 2 2 = Some (Ok (1, 4, 2)) ∧
  countBacklog ex_failing (lg Reader.ex_two) 2 2 = Some (Fail (Sentinel EIO)) ∧
  Reader.refused ex_failing (LogInv.book (lg Reader.ex_two) [] [LogSteps.p1; LogSteps.p2]) (Sentinel EIO).
Proof.
  assert (Hr : Reader.NewReader (lg Reader.ex_two) 2 = Ok (Reader.Rd (snapshot (lg Reader.ex_two)).1 2 2 0 false [] 0 0 [] (-1)))
    by by vm_compute.
  assert (Hf : countBacklog ex_failing (lg Reader.ex_two) 2 2 = Some (Fail (Sentinel EIO))) by by vm_compute.
  split; [by vm_compute|]. split; [exact Hf|].
  destruct (backlog_is_counted ex_failing Reader.ex_two [] _ 2 _ Reader.ex_two_fresh eq_refl ltac:(done) Hr
    ltac:(intros ? ? ? ? ? _ _ _ _ [=])) as (res & Hc & Hres).
  assert (E : Some res = Some (Fail (Sentinel EIO))) by (rewrite <- Hc; exact Hf).
  injection E as ->. exact (proj1 Hres).
Defined.

End Buffer.
