(* ===== verification/Lifecycle.v ===== *)
(** * Closing (src/flush.go: [Close]; src/batch.go: [enter], [settle])

    Close seals the buffer and then waits for its goroutines in a fixed order.
    Here the calls of Close, the writers, the flusher, the deliveries and the
    checkpointer run side by side, each step being one channel or counter
    operation of the code.  The log is closed, and the observer's queue with it,
    only after everything that could use them has gone; and Close can always
    finish. *)

From S2P Require Import Prelude Errors.
From stdpp Require Import relations.
Local Open Scope Z_scope.
Local Open Scope go_scope.

Module Lifecycle.

(** Where the call of Close that [closeOnce] lets through is: about to do, or
    waiting in, the statement named. *)
Inductive pc :=
| NotCalled | Sealing | ClosingGate | WritersWait | ClosingDrain | SelectDrained | SelectDeliveries
| ClosingAbort | JoinFlusher | DeliveriesWait | StoppingCheckpointer | JoinCheckpointer | Persisting
| StoppingObserver | ClosingLog | Returned.

(** The position of a statement in the body. *)
Definition rank (p : pc) : Z :=
  match p with
  | NotCalled => 0 | Sealing => 1 | ClosingGate => 2 | WritersWait => 3 | ClosingDrain => 4 | SelectDrained => 5
  | SelectDeliveries => 6 | ClosingAbort => 7 | JoinFlusher => 8 | DeliveriesWait => 9 | StoppingCheckpointer => 10
  | JoinCheckpointer => 11 | Persisting => 12 | StoppingObserver => 13 | ClosingLog => 14 | Returned => 15
  end.

#[export] Instance pc_eq_dec : EqDecision pc.
Proof. solve_decision. Defined.

(** [closing], [drainNow], [abort] and [cpStop] are counted by how often they
    have been closed; [flusherUp] and [cpUp] are [drained] and [cpDone] still
    open. *)
Record life := Life {
  at_ : pc;
  sealed : bool;
  closing : Z; drainNow : Z; abort : Z; cpStop : Z; obsStop : Z;
  writers : Z;
  flusherUp : bool;
  deliveries : Z;
  cpUp : bool;
  failed : bool;
  logClosed : bool
}.

Definition started : life := Life NotCalled false 0 0 0 0 0 0 true 0 true false false.

(** One step of Close.  [None] while it waits; [expired] is its context. *)
Definition close (expired : bool) (s : life) : option life :=
  let go p := Life p (sealed s) (closing s) (drainNow s) (abort s) (cpStop s) (obsStop s) (writers s) (flusherUp s)
                (deliveries s) (cpUp s) (failed s) (logClosed s) in
  match at_ s with
  | NotCalled => Some (go Sealing)
  | Sealing => Some (Life ClosingGate true (closing s) (drainNow s) (abort s) (cpStop s) (obsStop s) (writers s)
                       (flusherUp s) (deliveries s) (cpUp s) (failed s) (logClosed s))
  | ClosingGate => Some (Life WritersWait (sealed s) (closing s + 1) (drainNow s) (abort s) (cpStop s) (obsStop s)
                           (writers s) (flusherUp s) (deliveries s) (cpUp s) (failed s) (logClosed s))
  | WritersWait => if writers s =? 0 then Some (go ClosingDrain) else None
  | ClosingDrain => Some (Life SelectDrained (sealed s) (closing s) (drainNow s + 1) (abort s) (cpStop s) (obsStop s)
                            (writers s) (flusherUp s) (deliveries s) (cpUp s) (failed s) (logClosed s))
  | SelectDrained =>
      if negb (flusherUp s) then Some (go SelectDeliveries) else if expired then Some (go ClosingAbort) else None
  | SelectDeliveries => if (deliveries s =? 0) || expired then Some (go ClosingAbort) else None
  | ClosingAbort => Some (Life JoinFlusher (sealed s) (closing s) (drainNow s) (abort s + 1) (cpStop s) (obsStop s)
                            (writers s) (flusherUp s) (deliveries s) (cpUp s) (failed s) (logClosed s))
  | JoinFlusher => if negb (flusherUp s) then Some (go DeliveriesWait) else None
  | DeliveriesWait => if deliveries s =? 0 then Some (go StoppingCheckpointer) else None
  | StoppingCheckpointer => Some (Life JoinCheckpointer (sealed s) (closing s) (drainNow s) (abort s) (cpStop s + 1)
                                    (obsStop s) (writers s) (flusherUp s) (deliveries s) (cpUp s) (failed s) (logClosed s))
  | JoinCheckpointer => if negb (cpUp s) then Some (go Persisting) else None
  | Persisting => Some (go StoppingObserver)
  | StoppingObserver => Some (Life ClosingLog (sealed s) (closing s) (drainNow s) (abort s) (cpStop s) (obsStop s + 1)
                                (writers s) (flusherUp s) (deliveries s) (cpUp s) (failed s) (logClosed s))
  | ClosingLog => Some (Life Returned (sealed s) (closing s) (drainNow s) (abort s) (cpStop s) (obsStop s)
                          (writers s) (flusherUp s) (deliveries s) (cpUp s) (failed s) true)
  | Returned => None
  end.

Definition set_writers (n : Z) (s : life) : life :=
  Life (at_ s) (sealed s) (closing s) (drainNow s) (abort s) (cpStop s) (obsStop s) n (flusherUp s) (deliveries s)
    (cpUp s) (failed s) (logClosed s).
Definition set_deliveries (n : Z) (s : life) : life :=
  Life (at_ s) (sealed s) (closing s) (drainNow s) (abort s) (cpStop s) (obsStop s) (writers s) (flusherUp s) n
    (cpUp s) (failed s) (logClosed s).
Definition set_up (f c : bool) (s : life) : life :=
  Life (at_ s) (sealed s) (closing s) (drainNow s) (abort s) (cpStop s) (obsStop s) (writers s) f (deliveries s)
    c (failed s) (logClosed s).
Definition set_failed (s : life) : life :=
  Life (at_ s) (sealed s) (closing s) (drainNow s) (abort s) (cpStop s) (obsStop s) (writers s) (flusherUp s)
    (deliveries s) (cpUp s) true (logClosed s).

(** [enter]. *)
Definition enter (s : life) : result life :=
  if failed s then Fail (Sentinel Failed)
  else if sealed s then Fail (Sentinel Closed)
  else Ok (set_writers (writers s + 1) s).

Inductive step : life → life → Prop :=
| step_close s expired s' : close expired s = Some s' → step s s'
| step_enter s s' : enter s = Ok s' → step s s'
| step_settle s : 0 < writers s → step s (set_writers (writers s + 1) s)  (* by a writer, still registered *)
| step_leave s : 0 < writers s → step s (set_writers (writers s - 1) s)
| step_dispatch s : flusherUp s = true → step s (set_deliveries (deliveries s + 1) s)
| step_delivered s : 0 < deliveries s → step s (set_deliveries (deliveries s - 1) s)
| step_flusher s : flusherUp s = true → 0 < drainNow s ∨ 0 < abort s ∨ failed s = true → step s (set_up false (cpUp s) s)
| step_checkpointer s : cpUp s = true → 0 < cpStop s → step s (set_up (flusherUp s) false s)
| step_fail s : flusherUp s = true ∨ 0 < deliveries s ∨ 0 < writers s → step s (set_failed s).

Definition reachable (s : life) : Prop := rtc step started s.

(** ** The invariant: what Close has put behind itself *)

(** A channel is closed once, by the statement [p]. *)
Definition once (p : pc) (s : life) (n : Z) : Prop := n = if rank p <? rank (at_ s) then 1 else 0.

Record inv (s : life) : Prop := {
  i_sealed : sealed s = (rank Sealing <? rank (at_ s));
  i_closing : once ClosingGate s (closing s);
  i_drain : once ClosingDrain s (drainNow s);
  i_abort : once ClosingAbort s (abort s);
  i_cpStop : once StoppingCheckpointer s (cpStop s);
  i_obsStop : once StoppingObserver s (obsStop s);
  i_log : logClosed s = (rank ClosingLog <? rank (at_ s));
  i_writers : 0 <= writers s ∧ (rank WritersWait < rank (at_ s) → writers s = 0);
  i_flusher : rank JoinFlusher < rank (at_ s) → flusherUp s = false;
  i_drained : at_ s = SelectDeliveries → flusherUp s = false;
  i_deliveries : 0 <= deliveries s ∧ (rank DeliveriesWait < rank (at_ s) → deliveries s = 0);
  i_cp : rank JoinCheckpointer < rank (at_ s) → cpUp s = false
}.

Lemma inv_started : inv started.
Proof. by split. Qed.

Lemma close_keeps_inv s expired s' : inv s → close expired s = Some s' → inv s'.
Proof.
  intros I H. destruct s as [p se cl dr ab cs os w fu d cu fa lc]. destruct I; unfold once in *; simpl in *.
  unfold close in H. simpl in H.
  destruct p; simpl in *; repeat case_match; try done; injection H as <-; bools;
    split; unfold once; simpl in *; try done; try lia; try (split; [lia | intros; lia]); subst; try done; try lia.
Qed.

(** A goroutine's step leaves Close where it is. *)
Lemma inv_beside s w f d c fl :
  inv s → 0 <= w → (rank WritersWait < rank (at_ s) → w = 0) → 0 <= d → (rank DeliveriesWait < rank (at_ s) → d = 0) →
  (f = true → flusherUp s = true) → (c = true → cpUp s = true) →
  inv (Life (at_ s) (sealed s) (closing s) (drainNow s) (abort s) (cpStop s) (obsStop s) w f d c fl (logClosed s)).
Proof.
  intros [] Hw Hw' Hd Hd' Hf Hc. split; simpl; try done.
  - intros Hr. specialize (i_flusher0 Hr). destruct f; [by rewrite Hf in i_flusher0 | done].
  - intros Hr. specialize (i_drained0 Hr). destruct f; [by rewrite Hf in i_drained0 | done].
  - intros Hr. specialize (i_cp0 Hr). destruct c; [by rewrite Hc in i_cp0 | done].
Qed.

Lemma lifecycle_step s s' : inv s → step s s' → inv s'.
Proof.
  intros I Hstep. pose proof I as [Hse _ _ _ _ _ _ [Hw Hw'] Hf _ [Hd Hd'] _].
  destruct Hstep as [s b s' H|s s' H|s H|s H|s H|s H|s H _|s H _|s H]; [by eapply close_keeps_inv | ..].
  2-8: apply inv_beside; try done; try lia; try (by intros); intros Hr;
    try (specialize (Hw' Hr)); try (specialize (Hd' Hr)); try lia.
  - unfold enter in H. destruct (failed s); [done|]. destruct (sealed s) eqn:E in H; [done|]. injection H as <-.
    apply inv_beside; try done; [lia|]. intros Hr. rewrite Hse in E. apply Z.ltb_ge in E. simpl in *. lia.
  - simpl in *. rewrite Hf in H; [done | lia].
Qed.

Lemma life_reachable_inv s : reachable s → inv s.
Proof.
  intros R. enough (H : ∀ x, rtc step x s → inv x → inv s) by (by apply (H started), inv_started).
  induction 1; [done|]. eauto using lifecycle_step.
Qed.

(** C22: the log is closed last.  Once the log is closed, or the observer's queue,
    there is no writer left and none can enter, the flusher and the checkpointer
    have returned, and no delivery runs or can start: nobody uses a closed log,
    and nobody raises an event for a closed queue.  However many calls of Close
    there are, no channel is closed twice, which would panic. *)
Theorem log_is_closed_last s :
  reachable s →
  (logClosed s = true ∨ 0 < obsStop s →
     writers s = 0 ∧ (∃ e, enter s = Fail e) ∧ flusherUp s = false ∧ deliveries s = 0 ∧ cpUp s = false) ∧
  closing s <= 1 ∧ drainNow s <= 1 ∧ abort s <= 1 ∧ cpStop s <= 1 ∧ obsStop s <= 1.
Proof.
  intros R. pose proof (life_reachable_inv s R) as []. unfold once in *. split.
  - intros Hc. assert (Hr : rank StoppingObserver < rank (at_ s)).
    { destruct Hc as [Hc|Hc]; [rewrite i_log0 in Hc; apply Z.ltb_lt in Hc; simpl in *; lia|].
      rewrite i_obsStop0 in Hc. case_match; bools; simpl in *; lia. }
    simpl in *. split; [apply i_writers0; lia|]. split; [|split; [apply i_flusher0; lia | split; [apply i_deliveries0; lia | apply i_cp0; lia]]].
    unfold enter. destruct (failed s); [by eexists|]. rewrite i_sealed0.
    assert ((1 <? rank (at_ s)) = true) as -> by (apply Z.ltb_lt; lia). by eexists.
  - rewrite i_closing0, i_drain0, i_abort0, i_cpStop0, i_obsStop0. repeat case_match; lia.
Qed.

(** ** Close can finish *)

Definition active (s : life) : Prop := at_ s ≠ NotCalled ∧ at_ s ≠ Returned.

Definition flag (b : bool) : Z := if b then 1 else 0.

(** What is left to do: statements, and goroutines to wait for. *)
Definition left_ (s : life) : Z :=
  15 - rank (at_ s) + writers s + deliveries s + flag (flusherUp s) + flag (cpUp s).

Lemma left_nonneg s : inv s → 0 <= left_ s.
Proof.
  intros []. unfold left_, flag. assert (rank (at_ s) <= 15) by (by destruct (at_ s)). destruct (flusherUp s), (cpUp s); lia.
Qed.

(** Wherever Close stands, it can go on without its context having ended, or a
    goroutine it waits for can, and that leaves less to do. *)
Lemma close_advances s : inv s → active s →
  ∃ s', (close false s = Some s' ∨ (step s s' ∧ at_ s' = at_ s)) ∧ left_ s' < left_ s ∧ at_ s' ≠ NotCalled.
Proof.
  intros I [Hn Hret]. destruct s as [p se cl dr ab cs os w fu d cu fa lc]. destruct I; unfold once in *; simpl in *.
  set (s := Life p se cl dr ab cs os w fu d cu fa lc).
  assert (Hgo : ∀ s', close false s = Some s' → left_ s' < left_ s → at_ s' ≠ NotCalled →
    ∃ s', (close false s = Some s' ∨ (step s s' ∧ at_ s' = at_ s)) ∧ left_ s' < left_ s ∧ at_ s' ≠ NotCalled).
  { intros s' H Hl Ha. exists s'. auto. }
  unfold left_, close, s in *. destruct p; simpl in *; try done;
    try (eapply Hgo; [reflexivity | simpl; lia | done]).
  - destruct (Z.eqb_spec w 0) as [->|Hw]; [eapply Hgo; [reflexivity | simpl; lia | done]|].
    exists (set_writers (w - 1) s). split; [right; split; [apply (step_leave s); simpl; lia | done] | simpl; split; [lia | done]].
  - destruct fu; simpl in *; [|eapply Hgo; [reflexivity | simpl; lia | done]].
    exists (set_up false cu s). split; [right; split; [apply (step_flusher s); [done | left; simpl; lia] | done] | simpl; split; [lia | done]].
  - destruct (Z.eqb_spec d 0) as [->|Hd]; simpl in *; [eapply Hgo; [reflexivity | simpl; lia | done]|].
    exists (set_deliveries (d - 1) s). split; [right; split; [apply (step_delivered s); simpl; lia | done] | simpl; split; [lia | done]].
  - destruct fu; simpl in *; [|eapply Hgo; [reflexivity | simpl; lia | done]].
    exists (set_up false cu s). split; [right; split; [apply (step_flusher s); [done | left; simpl; lia] | done] | simpl; split; [lia | done]].
  - destruct (Z.eqb_spec d 0) as [->|Hd]; simpl in *; [eapply Hgo; [reflexivity | simpl; lia | done]|].
    exists (set_deliveries (d - 1) s). split; [right; split; [apply (step_delivered s); simpl; lia | done] | simpl; split; [lia | done]].
  - destruct cu; simpl in *; [|eapply Hgo; [reflexivity | simpl; lia | done]].
    exists (set_up fu false s). split; [right; split; [apply (step_checkpointer s); simpl; lia || done | done] | simpl; split; [lia | done]].
Qed.

(** Close is never stuck.  From any state in which a call of Close has begun
    there is a way to its end, of at most as many steps as there are statements
    and goroutines left, in which its context need not expire. *)
Theorem close_can_finish s : reachable s → at_ s ≠ NotCalled →
  ∃ n s', nsteps step n s s' ∧ Z.of_nat n <= left_ s ∧ at_ s' = Returned.
Proof.
  intros R. pose proof (life_reachable_inv s R) as I. clear R. remember (Z.to_nat (left_ s)) as m eqn:Em.
  revert s I Em. induction m as [m IH] using lt_wf_ind. intros s I -> Ha.
  pose proof (left_nonneg s I). destruct (decide (at_ s = Returned)) as [Hr|Hr].
  { exists 0%nat, s. split; [constructor|]. split; [lia | done]. }
  destruct (close_advances s I (conj Ha Hr)) as (s1 & Hs' & Hl & Ha1).
  assert (Hs : step s s1) by (destruct Hs' as [H'|[H' _]]; [by apply (step_close s false) | done]). pose proof (lifecycle_step _ _ I Hs) as I1.
  pose proof (left_nonneg s1 I1).
  destruct (IH (Z.to_nat (left_ s1)) ltac:(lia) s1 I1 eq_refl Ha1) as (n & s' & Hn & Hle & Hr').
  exists (S n), s'. split; [by econstructor|]. split; [lia | done].
Qed.

(** *** A run: one write, then Close. *)
Definition advance (n : nat) (s : life) : life := Nat.iter n (λ s, default s (close false s)) s.

Lemma advance_run n s : rtc step s (advance n s).
Proof.
  induction n as [|n IH]; [apply rtc_refl|]. etrans; [exact IH|].
  change (advance (S n) s) with (default (advance n s) (close false (advance n s))).
  destruct (close false (advance n s)) as [s'|] eqn:E; [|apply rtc_refl]. apply rtc_once. by apply (step_close _ false).
Qed.

Lemma advance_to n s s' : advance n s = s' → rtc step s s'.
Proof. intros <-. apply advance_run. Qed.

Definition ex_written : life := Eval vm_compute in set_writers 0 (set_writers 1 started).
Definition ex_draining : life := Eval vm_compute in advance 5 ex_written.
Definition ex_drained : life := Eval vm_compute in set_up false true ex_draining.
Definition ex_joined : life := Eval vm_compute in advance 6 ex_drained.
Definition ex_stopped : life := Eval vm_compute in set_up false false ex_joined.
Definition ex_closed : life := Eval vm_compute in advance 4 ex_stopped.

Lemma ex_joined_reachable : reachable ex_joined.
Proof.
  unfold reachable. transitivity (set_writers 1 started); [by apply rtc_once, step_enter|].
  transitivity ex_written; [by apply rtc_once, (step_leave (set_writers 1 started))|].
  transitivity ex_draining; [by apply (advance_to 5); vm_compute|].
  transitivity ex_drained; [by apply rtc_once, (step_flusher ex_draining); [|left]|].
  by apply (advance_to 6); vm_compute.
Qed.

Lemma ex_closed_reachable : reachable ex_closed.
Proof.
  unfold reachable. etrans; [exact ex_joined_reachable|].
  transitivity ex_stopped; [by apply rtc_once, (step_checkpointer ex_joined)|].
  by apply (advance_to 4); vm_compute.
Qed.

Lemma log_is_closed_last_witness :
  logClosed ex_closed = true ∧ writers ex_closed = 0 ∧ flusherUp ex_closed = false ∧ closing ex_closed <= 1.
Proof.
  destruct (log_is_closed_last ex_closed ex_closed_reachable) as (H & Hc & _).
  assert (Hl : logClosed ex_closed = true) by by vm_compute.
  destruct (H (or_introl Hl)) as (Hw & _ & Hf & _). exact (conj Hl (conj Hw (conj Hf Hc))).
Defined.

Lemma close_can_finish_witness :
  ∃ n s', nsteps step n ex_joined s' ∧ Z.of_nat n <= left_ ex_joined ∧ at_ s' = Returned.
Proof.
  apply (close_can_finish ex_joined); [exact ex_joined_reachable | done].
Defined.

End Lifecycle.
