(* ===== verification/Shutdown.v ===== *)
(** * Closing with an asynchronous observer (src/flush.go: [Close];
    src/observer.go: [dispatcher], [inDispatcher])

    With WithAsyncObserver there is one more goroutine, the dispatcher, and its
    hooks may call back into the buffer, Close included.  Here any number of calls
    of Close, from hooks and from elsewhere, meet in [closeOnce], the call that gets
    through runs the body of file Lifecycle against the buffer's goroutines, these
    post events, and the dispatcher runs hooks.  No call of Close is ever stuck, and
    no event is posted to the closed queue; [inDispatcher], which looks for the
    dispatcher's frame on the stack, is what keeps a hook from waiting for
    itself. *)

From S2P Require Import Prelude Errors Sink Observer Lifecycle.
From stdpp Require Import strings relations.
Local Open Scope Z_scope.
Local Open Scope go_scope.

Module Shutdown.
Import Observer Lifecycle.

(** ** The call stack

    A stack is the names of its functions, innermost first, with the frames of
    [runtime.Callers] and [inDispatcher] in front. *)

Definition dispatcherCall : string := "github.com/elqsar/better-batch.(*dispatcher).call".

(** [runtime.Callers]: what is left of the stack behind the first [skip], as much as fits. *)
Definition Callers (skip : nat) (stack : list string) (size : nat) : list string := take size (drop skip stack).

(** The first loop of [inDispatcher]: double the buffer until the stack fits. *)
Fixpoint capture (fuel size : nat) (stack : list string) : option (list string) :=
  match fuel with
  | O => None
  | S fuel =>
      let pcs := Callers 2 stack size in
      if (length pcs <? size)%nat then Some pcs else capture fuel (2 * size) stack
  end.

(** The second loop, over the frames. *)
Fixpoint search (frames : list string) : bool :=
  match frames with
  | [] => false
  | f :: more => if String.eqb f dispatcherCall then true else search more
  end.

(** [None] would be a loop that has not ended. *)
Definition inDispatcher (fuel : nat) (stack : list string) : option bool := search <$> capture fuel 64 stack.

Lemma capture_ends fuel : ∀ size stack, (0 < size)%nat → (length stack < fuel + size)%nat →
  capture (S fuel) size stack = Some (drop 2 stack).
Proof.
  induction fuel as [|fuel IH]; intros size stack Hs Hl; cbn [capture]; unfold Callers.
  all: destruct (Nat.ltb_spec (length (take size (drop 2 stack))) size) as [Hlt|Hge];
    [rewrite take_ge; [done|]; rewrite length_take in Hlt; lia |].
  - rewrite length_take, length_drop in Hge. lia.
  - rewrite <- (IH (2 * size)%nat stack); [done | lia | lia].
Qed.

Lemma search_spec frames : search frames = bool_decide (dispatcherCall ∈ frames).
Proof.
  induction frames as [|f frames IH]; [done|]. simpl. destruct (String.eqb_spec f dispatcherCall) as [->|Hf].
  - symmetry. apply bool_decide_eq_true. by left.
  - rewrite IH. apply bool_decide_ext. rewrite elem_of_cons. split; [by right | intros [E|E]; congruence].
Qed.

(** [inDispatcher] ends on every stack, and says whether the dispatcher's frame is
    on it. *)
Lemma inDispatcher_spec stack fuel : (length stack < fuel)%nat →
  inDispatcher fuel stack = Some (bool_decide (dispatcherCall ∈ drop 2 stack)).
Proof.
  intros H. unfold inDispatcher. destruct fuel as [|fuel]; [lia|].
  rewrite capture_ends by lia. simpl. by rewrite search_spec.
Qed.

(** Who calls Close: a hook, [inner] being the frames of the caller's code between
    it and the dispatcher, or some other code on a stack of its own. *)
Inductive caller := Hook (inner : list string) | Elsewhere (below : list string).

Definition stack_of (c : caller) : list string :=
  ["runtime.Callers"; "github.com/elqsar/better-batch.inDispatcher"; "github.com/elqsar/better-batch.(*Buffer[...]).Close"]
  ++ match c with
     | Hook inner => inner ++ [dispatcherCall; "github.com/elqsar/better-batch.(*dispatcher).run"; "runtime.goexit"]
     | Elsewhere below => below
     end.

(** Whether the call that did the shutdown waits for the dispatcher. *)
Definition joins (c : caller) : bool :=
  match inDispatcher (S (length (stack_of c))) (stack_of c) with Some true => false | _ => true end.

Lemma hook_does_not_join inner : joins (Hook inner) = false.
Proof.
  unfold joins. rewrite inDispatcher_spec by lia. rewrite bool_decide_true; [done|]. set_solver.
Qed.

(** Any other goroutine joins, unless it is the dispatcher of another buffer, whose
    hook does not wait although the hooks of this buffer run elsewhere. *)
Lemma elsewhere_joins below : dispatcherCall ∉ below → joins (Elsewhere below) = true.
Proof.
  intros H. unfold joins. rewrite inDispatcher_spec by lia. rewrite bool_decide_false; [done|].
  simpl. rewrite elem_of_cons. intros [E|E]; [discriminate | done].
Qed.

Lemma foreign_hook_does_not_join below : dispatcherCall ∈ below → joins (Elsewhere below) = false.
Proof.
  intros H. unfold joins. rewrite inDispatcher_spec by lia. rewrite bool_decide_true; [done|]. set_solver.
Qed.

(** ** The goroutines *)

Section system.
Context {A : Type}.

(** What a hook does: so many calls of Close, one after another, and then it returns
    or panics.  Its writes are writers of file Lifecycle. *)
Record body := Body { closes : nat; result : Sink.call unit }.
Context (hook : A → body).

(** Where a call of Close is: before or blocked in [closeOnce.Do], running the
    body there, waiting for the dispatcher, or back. *)
Inductive stage := AtOnce | Closer | Joining | Back.

Record closing_call := Calling { who : caller; where_ : stage }.

(** [sync.Once]: not begun, being run, over. *)
Inductive once_state := Fresh | Busy | Over.

(** The dispatcher's goroutine: at the channel, in a hook that has [todo] calls of
    Close left, in the [i]-th call of Close, or returned, with [done] closed. *)
Inductive runner := Receiving | InHook (f : A) (todo : nat) | InClose (f : A) (todo : nat) (i : nat) | Exited.

(** [queueClosed] is that [d.ch] is closed; [sent] and [ran] are the events posted so
    far and the hooks that have ended, and [panicked] that a goroutine has sent on a
    closed channel. *)
Record sys := Sys {
  lives : life;
  disp : dispatcher A;
  queueClosed : bool;
  runs : runner;
  doOnce : once_state;
  calls : list closing_call;
  sent : list A;
  ran : list A;
  panicked : bool
}.

Definition opened (queue : Z) : sys := Sys started (newDispatcher queue) false Receiving Fresh [] [] [] false.

Definition set_lives (l : life) (s : sys) : sys :=
  Sys l (disp s) (queueClosed s) (runs s) (doOnce s) (calls s) (sent s) (ran s) (panicked s).
Definition set_calls (cs : list closing_call) (s : sys) : sys :=
  Sys (lives s) (disp s) (queueClosed s) (runs s) (doOnce s) cs (sent s) (ran s) (panicked s).
Definition set_once (o : once_state) (s : sys) : sys :=
  Sys (lives s) (disp s) (queueClosed s) (runs s) o (calls s) (sent s) (ran s) (panicked s).
Definition set_runs (r : runner) (s : sys) : sys :=
  Sys (lives s) (disp s) (queueClosed s) r (doOnce s) (calls s) (sent s) (ran s) (panicked s).
Definition set_disp (d : dispatcher A) (s : sys) : sys :=
  Sys (lives s) d (queueClosed s) (runs s) (doOnce s) (calls s) (sent s) (ran s) (panicked s).
Definition stop (s : sys) : sys :=
  Sys (lives s) (disp s) true (runs s) (doOnce s) (calls s) (sent s) (ran s) (panicked s).

Definition move (i : nat) (c : closing_call) (p : stage) (s : sys) : sys :=
  set_calls (<[i := Calling (who c) p]> (calls s)) s.

(** Whoever raises events: a writer, the flusher, a delivery, the checkpointer, and
    the last persist of Close. *)
Definition poster (l : life) : Prop :=
  0 < writers l ∨ flusherUp l = true ∨ 0 < deliveries l ∨ cpUp l = true ∨ at_ l = Persisting.

Definition postEvent (f : A) (s : sys) : sys :=
  if queueClosed s
  then Sys (lives s) (disp s) true (runs s) (doOnce s) (calls s) (sent s) (ran s) true
  else Sys (lives s) (post f (disp s)) false (runs s) (doOnce s) (calls s) (sent s ++ [f]) (ran s) (panicked s).

(** One statement of the body.  At its end [closeOnce] is released, and the call goes
    on to wait for the dispatcher, or returns. *)
Definition bodyStep (i : nat) (c : closing_call) (expired : bool) (s : sys) : option sys :=
  match close expired (lives s) with
  | None => None
  | Some l =>
      let s' := set_lives l (match at_ (lives s) with StoppingObserver => stop s | _ => s end) in
      Some (match at_ l with
            | Returned => set_once Over (move i c (if joins (who c) then Joining else Back) s')
            | _ => s'
            end)
  end.

Definition hookEnd (f : A) (s : sys) : sys :=
  Sys (lives s) (called (result (hook f)) (disp s)) (queueClosed s) Receiving (doOnce s) (calls s) (sent s)
    (ran s ++ [f]) (panicked s).

(** [timeouts] is whether contexts of calls of Close may end. *)
Inductive step (timeouts : bool) : sys → sys → Prop :=
| goroutines s l :
    Lifecycle.step (lives s) l → at_ l = at_ (lives s) → step timeouts s (set_lives l s)
| event s f : poster (lives s) → step timeouts s (postEvent f s)
| close_elsewhere s below : step timeouts s (set_calls (calls s ++ [Calling (Elsewhere below) AtOnce]) s)
| close_in_hook s f k inner :
    runs s = InHook f (S k) →
    step timeouts s (set_runs (InClose f k (length (calls s))) (set_calls (calls s ++ [Calling (Hook inner) AtOnce]) s))
| do_first s i c :
    calls s !! i = Some c → where_ c = AtOnce → doOnce s = Fresh → step timeouts s (set_once Busy (move i c Closer s))
| do_later s i c :
    calls s !! i = Some c → where_ c = AtOnce → doOnce s = Over → step timeouts s (move i c Back s)
| do_body s i c expired s' :
    calls s !! i = Some c → where_ c = Closer → (expired = true → timeouts = true) →
    bodyStep i c expired s = Some s' → step timeouts s s'
| joined s i c :
    calls s !! i = Some c → where_ c = Joining → runs s = Exited → step timeouts s (move i c Back s)
| gave_up s i c :
    timeouts = true → calls s !! i = Some c → where_ c = Joining → step timeouts s (move i c Back s)
| hook_resumes s f k i c :
    runs s = InClose f k i → calls s !! i = Some c → where_ c = Back → step timeouts s (set_runs (InHook f k) s)
| hook_starts s f d :
    runs s = Receiving → receive (disp s) = Some (f, d) →
    step timeouts s (set_runs (InHook f (closes (hook f))) (set_disp d s))
| hook_ends s f : runs s = InHook f 0 → step timeouts s (hookEnd f s)
| queue_drained s :
    runs s = Receiving → ch (disp s) = [] → queueClosed s = true → step timeouts s (set_runs Exited s).

Definition reachable (queue : Z) (s : sys) : Prop := rtc (step true) (opened queue) s.

(** ** What the goroutines keep *)

(** A call is past [closeOnce] only when that is over, but for the one inside; only
    calls that may wait for the dispatcher do. *)
Definition placed (o : once_state) (c : closing_call) : Prop :=
  match where_ c with
  | AtOnce => True
  | Closer => o = Busy
  | Joining => o = Over ∧ joins (who c) = true
  | Back => o = Over
  end.

Definition only_closer (cs : list closing_call) (i : nat) : Prop :=
  ∀ j c, cs !! j = Some c → where_ c = Closer → j = i.

Definition hook_call (cs : list closing_call) (i : nat) : Prop :=
  ∃ inner p, cs !! i = Some (Calling (Hook inner) p).

Record gated (s : sys) : Prop := {
  v_life : inv (lives s);
  v_placed : Forall (placed (doOnce s)) (calls s);
  v_once : match doOnce s with
           | Fresh => at_ (lives s) = NotCalled
           | Busy => at_ (lives s) ≠ Returned ∧
               ∃ i c, calls s !! i = Some c ∧ where_ c = Closer ∧ only_closer (calls s) i
           | Over => at_ (lives s) = Returned
           end;
  v_queue : queueClosed s = (rank StoppingObserver <? rank (at_ (lives s)));
  v_exit : runs s = Exited → queueClosed s = true ∧ ch (disp s) = [];
  v_hook : match runs s with InClose _ _ i => hook_call (calls s) i | _ => True end;
  v_quiet : panicked s = false
}.

Lemma gated_opened queue : gated (opened queue).
Proof. by split; try apply inv_started. Qed.

(** Nobody who raises events is left when the queue is closed. *)
Lemma poster_before_close l : inv l → poster l → rank (at_ l) <= rank StoppingObserver.
Proof.
  intros [] H. destruct (Z.le_gt_cases (rank (at_ l)) (rank StoppingObserver)) as [|Hr]; [done|]. exfalso. simpl in *.
  destruct H as [H|[H|[H|[H|H]]]].
  - destruct i_writers0 as [_ Hw]. rewrite Hw in H by lia. lia.
  - rewrite i_flusher0 in H by lia. discriminate.
  - destruct i_deliveries0 as [_ Hd]. rewrite Hd in H by lia. lia.
  - rewrite i_cp0 in H by lia. discriminate.
  - rewrite H in Hr. simpl in Hr. lia.
Qed.

Lemma move_who i c p cs j : cs !! i = Some c → hook_call cs j → hook_call (<[i := Calling (who c) p]> cs) j.
Proof.
  intros Hi (inner & q & Hj). destruct (decide (i = j)) as [->|Hne].
  - rewrite Hi in Hj. injection Hj as ->. exists inner, p. apply list_lookup_insert_eq. by eapply lookup_lt_Some.
  - exists inner, q. by rewrite list_lookup_insert_ne.
Qed.

Lemma only_closer_move i c p cs k : p ≠ Closer → only_closer cs k → only_closer (<[i := Calling (who c) p]> cs) k.
Proof.
  intros Hp Ho j d Hd Hw. apply list_lookup_insert_Some in Hd as [(-> & <- & _)|(Hne & Hd)]; [done|]. by eapply Ho.
Qed.

(** A call that is not the one inside moves on. *)
Lemma gated_move s i c p :
  gated s → calls s !! i = Some c → where_ c ≠ Closer → p ≠ Closer → placed (doOnce s) (Calling (who c) p) →
  gated (move i c p s).
Proof.
  intros [] Hi Hc Hp Hpl. split; simpl; try assumption.
  - by apply Forall_insert.
  - destruct (doOnce s); try assumption. destruct v_once0 as (Ha & k & d & Hd & Hw & Ho). split; [done|].
    exists k, d. split; [|split; [done | by apply only_closer_move]]. rewrite list_lookup_insert_ne; [done|].
    intros ->. congruence.
  - destruct (runs s); try done. by apply move_who.
Qed.

(** A call that has waited for the dispatcher returns. *)
Lemma gated_back s i c : gated s → calls s !! i = Some c → where_ c = Joining → gated (move i c Back s).
Proof.
  intros G Hi Hc. apply gated_move; [done | done | by rewrite Hc | done |].
  pose proof (v_placed _ G) as Ip. rewrite Forall_lookup in Ip. specialize (Ip _ _ Hi). unfold placed in *. rewrite Hc in Ip. by destruct Ip.
Qed.

(** A new call arrives at [closeOnce]. *)
Lemma gated_arrive s w r :
  gated s → (r = Exited → runs s = Exited) → match r with InClose _ _ i => hook_call (calls s ++ [Calling w AtOnce]) i | _ => True end →
  gated (set_runs r (set_calls (calls s ++ [Calling w AtOnce]) s)).
Proof.
  intros [] Hx Hr. split; simpl; try assumption.
  - apply Forall_app. split; [done|]. by repeat constructor.
  - destruct (doOnce s); try assumption. destruct v_once0 as (Ha & k & d & Hd & Hw & Ho). split; [done|].
    exists k, d. split; [by apply lookup_app_l_Some|]. split; [done|]. intros j e He Hwe.
    apply lookup_app_Some in He as [He|[? He]]; [by eapply Ho|].
    apply list_lookup_singleton_Some in He as [_ <-]. discriminate.
  - auto.
Qed.

(** The statement that closes the queue is the one at [StoppingObserver]. *)
Lemma close_rank e l l' : close e l = Some l' →
  (rank StoppingObserver <? rank (at_ l')) =
  match at_ l with StoppingObserver => true | _ => rank StoppingObserver <? rank (at_ l) end.
Proof. unfold close. destruct (at_ l) eqn:E; simpl; repeat case_match; intros Hs; try discriminate; by injection Hs as <-. Qed.

(** The call inside [closeOnce] goes one statement on. *)
Lemma gated_body s i c e s' :
  gated s → calls s !! i = Some c → where_ c = Closer → bodyStep i c e s = Some s' → gated s'.
Proof.
  intros G Hi Hc H. pose proof G as [Il Ip Io Iq Ix Ih Iz]. unfold bodyStep in H.
  destruct (close e (lives s)) as [l|] eqn:El; [|discriminate]. pose proof (close_rank _ _ _ El) as Hrank.
  assert (Hbusy : doOnce s = Busy).
  { rewrite Forall_forall in Ip. apply list_elem_of_lookup_2 in Hi as Hin. specialize (Ip _ Hin). unfold placed in Ip. by rewrite Hc in Ip. }
  rewrite Hbusy in Io. destruct Io as (_ & k & d & Hd & Hw & Ho).
  set (s1 := set_lives l (match at_ (lives s) with StoppingObserver => stop s | _ => s end)) in H.
  assert (E1 : calls s1 = calls s ∧ runs s1 = runs s ∧ disp s1 = disp s ∧ panicked s1 = panicked s ∧ lives s1 = l ∧
    doOnce s1 = Busy ∧ (queueClosed s = true → queueClosed s1 = true) ∧ queueClosed s1 = (rank StoppingObserver <? rank (at_ l))).
  { rewrite Hrank. unfold s1. destruct (at_ (lives s)); simpl; repeat split; auto; by rewrite Iq. }
  clearbody s1. destruct E1 as (Ecs & Er & Ed & Ez & Ell & Eo & Emono & Eq).
  pose proof (close_keeps_inv _ _ _ Il El) as Il'.
  assert (Hx : runs s1 = Exited → queueClosed s1 = true ∧ ch (disp s1) = []).
  { rewrite Er, Ed. intros E. destruct (Ix E). auto. }
  rewrite Er, Ed in Hx.
  destruct (decide (at_ l = Returned)) as [Hret|Hret].
  - rewrite Hret in H. injection H as <-. set (p := if joins (who c) then Joining else Back).
    assert (Hp : placed Over (Calling (who c) p)) by (unfold placed, p; destruct (joins (who c)) eqn:Ej; simpl; auto).
    clearbody p. split; simpl; rewrite ?Ecs, ?Er, ?Ed, ?Ell; try assumption; [| by destruct (runs s); [..| exact (move_who _ _ _ _ _ Hi Ih) |] | by rewrite Ez].
    apply Forall_lookup. intros j x Hx'. apply list_lookup_insert_Some in Hx' as [(_ & <- & _)|(Hne & Hj)]; [done|].
    rewrite Forall_lookup in Ip. specialize (Ip _ _ Hj). unfold placed in *. rewrite Hbusy in Ip.
    destruct (where_ x) eqn:Ew; [done | | by destruct Ip | done]. exfalso. apply Hne.
    rewrite (Ho _ _ Hi Hc). symmetry. by apply Ho with x.
  - assert (Hs : Some s1 = Some s') by (destruct (at_ l); done). injection Hs as <-.
    split; rewrite ?Ecs, ?Er, ?Ed, ?Ell, ?Eo; try assumption; [by rewrite <- Hbusy | split; [done | eauto] | by rewrite Ez].
Qed.

Lemma gated_step b s s' : gated s → step b s s' → gated s'.
Proof.
  intros G Hstep. pose proof G as [Il Ip Io Iq Ix Ih Iz].
  destruct Hstep as [s l Hl Ha|s f Hp|s below|s f k inner Hr|s i c Hi Hc Ho|s i c Hi Hc Ho|s i c e s' Hi Hc _ H
    |s i c Hi Hc Hr|s i c _ Hi Hc|s f k i c Hr Hi Hc|s f d Hr Hd|s f Hr|s Hr Hd Hq].
  - split; simpl; rewrite ?Ha; try assumption. by eapply lifecycle_step.
  - unfold postEvent. destruct (queueClosed s) eqn:Eq.
    { symmetry in Iq. apply Z.ltb_lt in Iq. pose proof (poster_before_close _ Il Hp). lia. }
    split; simpl; try assumption. intros E. destruct (Ix E). discriminate.
  - apply (gated_arrive s (Elsewhere below) (runs s)); [done | done|]. destruct (runs s); try done.
    destruct Ih as (inner & p & Hi). exists inner, p. by apply lookup_app_l_Some.
  - apply (gated_arrive s (Hook inner) (InClose f k (length (calls s)))); [done | done|].
    exists inner, AtOnce. by rewrite lookup_app_r, Nat.sub_diag.
  - rewrite Ho in Io, Ip. split; simpl; try assumption.
    + apply Forall_insert; [|done]. eapply Forall_impl; [exact Ip|]. intros x. unfold placed. by destruct (where_ x); [..|intros []|].
    + split; [by rewrite Io|]. exists i, (Calling (who c) Closer).
      split; [apply list_lookup_insert_eq; by eapply lookup_lt_Some|]. split; [done|]. intros j x Hx Hw.
      apply list_lookup_insert_Some in Hx as [(-> & _)|(_ & Hx)]; [done|].
      rewrite Forall_lookup in Ip. specialize (Ip _ _ Hx). unfold placed in Ip. by rewrite Hw in Ip.
    + destruct (runs s); try done. by apply move_who.
  - apply gated_move; try done. by rewrite Hc.
  - by eapply gated_body.
  - by apply gated_back.
  - by apply gated_back.
  - split; simpl; (assumption || discriminate || exact I).
  - split; simpl; (assumption || discriminate || exact I).
  - split; simpl; (assumption || discriminate || exact I).
  - split; simpl; auto.
Qed.

Lemma reachable_gated queue s : reachable queue s → gated s.
Proof.
  intros R. enough (H : ∀ x, rtc (step true) x s → gated x → gated s) by (by apply (H (opened queue)), gated_opened).
  induction 1; [done|]. eauto using gated_step.
Qed.

(** ** The books of the queue *)

(** The event whose hook is running. *)
Definition hand (r : runner) : list A :=
  match r with InHook f _ | InClose f _ _ => [f] | _ => [] end.

Definition outcome (f : A) : Sink.call unit := result (hook f).

Record accounted (queue : Z) (s : sys) : Prop := {
  a_order : ran s ++ hand (runs s) ++ ch (disp s) `sublist_of` sent s;
  a_count : len (sent s) < 18446744073709551616 → 0 <= d_dropped (disp s) ∧
    len (sent s) = completed outcome (ran s) + len (hand (runs s)) + len (ch (disp s)) + d_dropped (disp s);
  a_cap : cap (disp s) = queue ∧ len (ch (disp s)) <= queue
}.

Lemma accounted_opened queue : 0 <= queue → accounted queue (opened queue).
Proof. by split. Qed.

Lemma accounted_same queue s s' :
  accounted queue s → ran s' = ran s → hand (runs s') = hand (runs s) → disp s' = disp s → sent s' = sent s →
  accounted queue s'.
Proof. intros [] E1 E2 E3 E4. split; by rewrite ?E1, ?E2, ?E3, ?E4. Qed.

Lemma completed_snoc h (fs : list A) f :
  completed h (fs ++ [f]) = completed h fs + match h f with Sink.Panicked _ => 0 | _ => 1 end.
Proof. unfold completed. rewrite List.filter_app, len_app. simpl. by destruct (h f). Qed.

Lemma accounted_post queue s f : accounted queue s → accounted queue (postEvent f s).
Proof.
  intros [Ho Hc [Hcap Hl]]. unfold postEvent. destruct (queueClosed s); [by split|].
  pose proof (len_nonneg (ch (disp s))) as L1. pose proof (len_nonneg (hand (runs s))) as L2.
  assert (L3 : 0 <= completed outcome (ran s)) by (unfold completed; apply len_nonneg).
  unfold post. case_if; split; simpl; rewrite ?len_app, ?len_cons, ?len_nil.
  - rewrite !app_assoc. apply sublist_app; [by rewrite <- app_assoc | done].
  - intros Hb. destruct Hc as [H0 E]; [lia|]. lia.
  - split; [done | lia].
  - rewrite <- (app_nil_r (ran s ++ _)). apply sublist_app; [done | apply sublist_nil_l].
  - intros Hb. destruct Hc as [H0 E]; [lia|]. rewrite u64_id by (unfold is_u64; lia). lia.
  - done.
Qed.

Lemma body_events i c e s s' : bodyStep i c e s = Some s' →
  ran s' = ran s ∧ runs s' = runs s ∧ disp s' = disp s ∧ sent s' = sent s.
Proof.
  unfold bodyStep. destruct (close e (lives s)) as [l|]; [|discriminate]. intros H. injection H as <-.
  destruct (at_ l), (at_ (lives s)); done.
Qed.

Lemma accounted_step queue b s s' : accounted queue s → step b s s' → accounted queue s'.
Proof.
  intros I Hstep. destruct Hstep as [s l Hl Ha|s f Hp|s below|s f k inner Hr|s i c Hi Hc Ho|s i c Hi Hc Ho|s i c e s' Hi Hc _ H
    |s i c Hi Hc Hr|s i c _ Hi Hc|s f k i c Hr Hi Hc|s f d Hr Hd|s f Hr|s Hr Hd Hq].
  - by eapply accounted_same.
  - by apply accounted_post.
  - by eapply accounted_same.
  - eapply accounted_same; simpl; [exact I | done | by rewrite Hr | done | done].
  - by eapply accounted_same.
  - by eapply accounted_same.
  - destruct (body_events _ _ _ _ _ H) as (E1 & E2 & E3 & E4). eapply accounted_same; [exact I | done | by rewrite E2 | done | done].
  - by eapply accounted_same.
  - by eapply accounted_same.
  - eapply accounted_same; simpl; [exact I | done | by rewrite Hr | done | done].
  - destruct I as [Ho Hc [Hcap Hl]]. unfold receive in Hd. destruct (ch (disp s)) as [|g fs] eqn:Ech; [discriminate|].
    injection Hd as -> <-. rewrite Hr in *. rewrite len_cons in *. split; simpl in *; [done | | split; [done | lia]].
    intros Hb. destruct (Hc Hb) as [H0 E]. change (len [f]) with 1. change (len (@nil A)) with 0 in E. lia.
  - destruct I as [Ho Hc Hcap]. rewrite Hr in *. simpl in *. split; simpl; [by rewrite <- app_assoc | | done].
    intros Hb. destruct (Hc Hb) as [H0 E]. rewrite completed_snoc. change (len (@nil A)) with 0. change (len [f]) with 1 in E.
    pose proof (len_nonneg (ch (disp s))). assert (0 <= completed outcome (ran s)) by (unfold completed; apply len_nonneg).
    unfold outcome in *. destruct (result (hook f)); [lia|]. rewrite u64_id by (unfold is_u64; lia). lia.
  - eapply accounted_same; simpl; [exact I | done | by rewrite Hr | done | done].
Qed.

Lemma reachable_accounted queue s : 0 <= queue → reachable queue s → accounted queue s.
Proof.
  intros Hq R. enough (H : ∀ x, rtc (step true) x s → accounted queue x → accounted queue s) by (by apply (H (opened queue)), accounted_opened).
  induction 1; [done|]. eauto using accounted_step.
Qed.

(** ** Nobody is stuck *)

Definition weight (c : closing_call) : nat :=
  match where_ c with AtOnce => 4 | Closer => 3 | Joining => 2 | Back => 0 end.
Definition run_weight (r : runner) : nat :=
  match r with Receiving => 1 | InHook _ k => 2 + 6 * k | InClose _ k _ => 3 + 6 * k | Exited => 0 end.
Definition event_weight (f : A) : nat := 3 + 6 * closes (hook f).

(** What is left to do: statements of Close, goroutines, calls and hooks. *)
Definition remaining (s : sys) : Z :=
  left_ (lives s) + Z.of_nat (sum_list_with weight (calls s) + run_weight (runs s) + sum_list_with event_weight (ch (disp s))).

Lemma remaining_nonneg s : gated s → 0 <= remaining s.
Proof. intros G. pose proof (left_nonneg _ (v_life _ G)). unfold remaining. lia. Qed.

Lemma sum_move i c c' cs : cs !! i = Some c →
  (sum_list_with weight (<[i := c']> cs) + weight c = sum_list_with weight cs + weight c')%nat.
Proof.
  revert i. induction cs as [|x cs IH]; intros [|i] H; simpl in *; [done | done | injection H as ->; lia |].
  specialize (IH _ H). lia.
Qed.

Lemma remaining_move i c p s : calls s !! i = Some c → (weight (Calling (who c) p) < weight c)%nat →
  remaining (move i c p s) < remaining s.
Proof.
  intros Hi Hw. pose proof (sum_move i c (Calling (who c) p) _ Hi). unfold remaining. simpl. lia.
Qed.

(** The body goes on, or a goroutine it waits for does. *)
Lemma body_goes_on s i c : gated s → calls s !! i = Some c → where_ c = Closer → at_ (lives s) ≠ Returned →
  ∃ s', step false s s' ∧ remaining s' < remaining s.
Proof.
  intros G Hi Hc Hr.
  assert (Hbody : ∀ l, close false (lives s) = Some l → left_ l < left_ (lives s) →
    ∃ s', step false s s' ∧ remaining s' < remaining s).
  { intros l Hl Hlt. destruct (bodyStep i c false s) as [s'|] eqn:E; [|unfold bodyStep in E; by rewrite Hl in E].
    exists s'. split; [by eapply do_body|]. unfold bodyStep in E. rewrite Hl in E. injection E as <-.
    set (s1 := set_lives l _). assert (E1 : calls s1 = calls s ∧ runs s1 = runs s ∧ disp s1 = disp s ∧ lives s1 = l).
    { unfold s1. by destruct (at_ (lives s)). }
    clearbody s1. destruct E1 as (E1 & E2 & E3 & E4). unfold remaining.
    set (p := if joins (who c) then Joining else Back).
    assert (Hp : (weight (Calling (who c) p) < weight c)%nat) by (unfold weight, p; rewrite Hc; destruct (joins (who c)); simpl; lia).
    pose proof (sum_move i c (Calling (who c) p) _ Hi).
    destruct (at_ l); simpl; rewrite ?E1, ?E2, ?E3, ?E4; lia. }
  destruct (decide (at_ (lives s) = NotCalled)) as [E|E].
  - unfold close in Hbody. rewrite E in Hbody. eapply Hbody; [reflexivity|]. unfold left_. simpl. rewrite E. simpl. lia.
  - destruct (close_advances (lives s) (v_life _ G) (conj E Hr)) as (l & [Hl|[Hl Ha]] & Hlt & _); [by apply (Hbody l)|].
    exists (set_lives l s). split; [by apply goroutines|]. unfold remaining. simpl. lia.
Qed.

(** When the shutdown is over and somebody waits for the dispatcher, that goes on: its
    hooks come back from their calls of Close. *)
Lemma dispatcher_goes_on s i c : gated s → doOnce s = Over → calls s !! i = Some c → where_ c = Joining →
  ∃ s', step false s s' ∧ remaining s' < remaining s.
Proof.
  intros [Il Ip Io Iq Ix Ih Iz] Ho Hi Hc. rewrite Ho in *. rewrite Io in Iq. rewrite Forall_lookup in Ip.
  destruct (runs s) as [|f [|k]|f k j|] eqn:Er.
  - destruct (ch (disp s)) as [|f fs] eqn:Ech.
    + exists (set_runs Exited s). split; [by apply queue_drained|]. unfold remaining. simpl. rewrite Er. simpl. lia.
    + eexists. split; [apply (hook_starts _ _ f (Dispatcher fs (cap (disp s)) (d_dropped (disp s)))); [done | unfold receive; by rewrite Ech]|].
      unfold remaining. simpl. rewrite Er, Ech. simpl. unfold event_weight. lia.
  - exists (hookEnd f s). split; [by apply hook_ends|]. unfold remaining. simpl. rewrite Er. simpl. lia.
  - eexists. split; [by apply (close_in_hook _ _ f k [])|]. unfold remaining. simpl.
    rewrite Er, sum_list_with_app. simpl. lia.
  - destruct Ih as (inner & p & Hj). specialize (Ip _ _ Hj). unfold placed in Ip. simpl in Ip. destruct p.
    + eexists. split; [by eapply (do_later _ _ j)|]. apply (remaining_move j _ Back _ Hj). simpl. unfold weight. simpl. lia.
    + discriminate.
    + rewrite hook_does_not_join in Ip. by destruct Ip.
    + eexists. split; [by eapply (hook_resumes _ _ f k j)|]. unfold remaining. simpl. rewrite Er. simpl. lia.
  - exists (move i c Back s). split; [by eapply joined|]. apply remaining_move; [done|]. unfold weight. rewrite Hc. simpl. lia.
Qed.

Lemma someone_goes_on s i c : gated s → calls s !! i = Some c → where_ c ≠ Back →
  ∃ s', step false s s' ∧ remaining s' < remaining s.
Proof.
  intros G Hi Hc. pose proof (v_placed _ G) as Ip. rewrite Forall_lookup in Ip. specialize (Ip _ _ Hi).
  pose proof (v_once _ G) as Io. unfold placed in Ip.
  assert (Hmove : where_ c = AtOnce → ∀ p, p ≠ AtOnce → (weight (Calling (who c) p) < weight c)%nat).
  { intros E p Hp. unfold weight. rewrite E. destruct p; simpl; [done | lia..]. }
  destruct (where_ c) eqn:Ec; [| | |done].
  - destruct (doOnce s) eqn:Eo.
    + eexists. split; [by eapply do_first|]. apply (remaining_move i c Closer); [done | by apply Hmove].
    + destruct Io as (Hr & k & d & Hd & Hw & _). by eapply body_goes_on.
    + eexists. split; [by eapply do_later|]. apply (remaining_move i c Back); [done | by apply Hmove].
  - rewrite Ip in Io. destruct Io as (Hr & _). by eapply body_goes_on.
  - destruct Ip as [Ho _]. by eapply dispatcher_goes_on.
Qed.

(** C23: no call of Close is ever stuck.  However many goroutines and hooks of the
    asynchronous observer call Close, and however far each has come, there is a way
    on at whose end all have returned, of at most as many steps as there are
    statements, goroutines, queued hooks and calls left, without any of their
    contexts ending: a hook in Close does not wait for itself, and whoever waits
    for a hook waits for one that can end. *)
Theorem every_close_returns queue s : reachable queue s →
  ∃ n s', nsteps (step false) n s s' ∧ Z.of_nat n <= remaining s ∧ Forall (λ c, where_ c = Back) (calls s').
Proof.
  intros R. pose proof (reachable_gated _ _ R) as G. clear R. remember (Z.to_nat (remaining s)) as m eqn:Em.
  revert s G Em. induction m as [m IH] using lt_wf_ind. intros s G ->. pose proof (remaining_nonneg _ G).
  assert (Hd : Decision (Forall (λ c, where_ c = Back) (calls s))).
  { apply Forall_dec. intros c. destruct (where_ c); (by left) || (by right). }
  destruct Hd as [Hb|Hb]; [exists 0%nat, s; split; [constructor|]; split; [lia | done]|].
  assert (Hc : ∃ i c, calls s !! i = Some c ∧ where_ c ≠ Back).
  { apply not_Forall_Exists in Hb; [|intros c; destruct (where_ c); (by left) || (by right)].
    apply Exists_exists in Hb as (c & [i Hi]%list_elem_of_lookup_1 & Hc). eauto. }
  destruct Hc as (i & c & Hi & Hc). destruct (someone_goes_on _ _ _ G Hi Hc) as (s1 & Hs & Hlt).
  pose proof (gated_step _ _ _ G Hs) as G1. pose proof (remaining_nonneg _ G1).
  destruct (IH (Z.to_nat (remaining s1)) ltac:(lia) s1 G1 eq_refl) as (n & s' & Hn & Hle & Hall).
  exists (S n), s'. split; [by econstructor|]. split; [lia | done].
Qed.

(** The call that waits for the dispatcher leaves it only when that has returned, as
    long as contexts do not end. *)
Lemma joining_returns_last s s' i c c' : gated s → step false s s' → calls s !! i = Some c → where_ c = Joining →
  calls s' !! i = Some c' → where_ c' = Back → runs s' = Exited.
Proof.
  intros G Hstep Hi Hc Hi' Hc'. pose proof (v_placed _ G) as Ip. rewrite Forall_lookup in Ip.
  assert (Ho : doOnce s = Over) by (specialize (Ip _ _ Hi); unfold placed in Ip; rewrite Hc in Ip; by destruct Ip).
  assert (Hsame : calls s' !! i = Some c → runs s' = Exited) by (intros E; congruence).
  assert (Hmove : ∀ j d p, calls s !! j = Some d → where_ d = AtOnce → (<[j:=Calling (who d) p]> (calls s)) !! i = Some c).
  { intros j d p Hj Hd. rewrite list_lookup_insert_ne; [done|]. intros ->. congruence. }
  destruct Hstep as [s l Hl Ha|s f Hp|s below|s f k inner Hr|s j d Hj Hd Hf|s j d Hj Hd Hf|s j d e s' Hj Hd _ H
    |s j d Hj Hd Hr|s j d [=]|s f k j d Hr Hj Hd|s f d Hr Hd|s f Hr|s Hr Hd Hq]; try exact (Hsame Hi).
  - apply Hsame. unfold postEvent. by destruct (queueClosed s).
  - apply Hsame. by apply lookup_app_l_Some.
  - apply Hsame. by apply lookup_app_l_Some.
  - apply Hsame. by apply (Hmove j d).
  - apply Hsame. by apply (Hmove j d).
  - exfalso. specialize (Ip _ _ Hj). unfold placed in Ip. rewrite Hd in Ip. congruence.
  - exact Hr.
Qed.

(** C39: the queue of an asynchronous observer through to its end.  However events,
    hooks and calls of Close interleave, no event is posted to the closed queue,
    which would panic; the hooks run are events posted, in order and each once;
    every event posted has run to its end, is running, is queued, or is counted in
    [ObserverDropped]; the queue keeps its size.  When the dispatcher has returned,
    nothing is queued or running and nobody is left to post, so the count is final;
    and the call of Close that waits for it returns no sooner, unless its context
    ends. *)
Theorem closed_observer_is_complete queue s : 0 <= queue → reachable queue s →
  panicked s = false ∧
  ran s ++ hand (runs s) ++ ch (disp s) `sublist_of` sent s ∧
  (len (sent s) < 18446744073709551616 →
     len (sent s) = completed outcome (ran s) + len (hand (runs s)) + len (ch (disp s)) + d_dropped (disp s)) ∧
  len (ch (disp s)) <= queue ∧
  (runs s = Exited → ch (disp s) = [] ∧ ¬ poster (lives s)) ∧
  (∀ s' i c c', step false s s' → calls s !! i = Some c → where_ c = Joining →
     calls s' !! i = Some c' → where_ c' = Back → runs s' = Exited).
Proof.
  intros Hq R. pose proof (reachable_gated _ _ R) as G. destruct (reachable_accounted _ _ Hq R) as [Ho Hc [_ Hl]].
  split; [by apply (v_quiet _ G)|]. split; [done|]. split; [intros Hb; by apply Hc|]. split; [done|]. split.
  - intros E. destruct (v_exit _ G E) as [Hcl Hch]. split; [done|]. intros Hp.
    pose proof (poster_before_close _ (v_life _ G) Hp). pose proof (v_queue _ G) as Hqu.
    rewrite Hcl in Hqu. symmetry in Hqu. apply Z.ltb_lt in Hqu. lia.
  - intros s' i c c' Hs. by apply joining_returns_last.
Qed.

End system.
Arguments body : clear implicits.
Arguments sys : clear implicits.

(** *** A run: two events, the first of whose hooks calls Close while another goroutine
    has begun to. *)
Definition ex_hook (b : bool) : body := if b then Body 1 (Sink.Returned tt) else Body 0 (Sink.Panicked 0).

Definition ex_posted : sys bool := Eval vm_compute in postEvent false (postEvent true (opened 4)).
Definition ex_calling : sys bool := Eval vm_compute in
  let s := set_runs (InHook true 1) (set_disp (Dispatcher [false] 4 0) ex_posted) in
  let s := set_runs (InClose true 0 0) (set_calls [Calling (Hook ["main.hook"%string]) AtOnce] s) in
  set_calls (calls s ++ [Calling (Elsewhere ["main.main"%string]) AtOnce]) s.
Definition ex_met : sys bool := Eval vm_compute in
  set_once Busy (move 1 (Calling (Elsewhere ["main.main"%string]) AtOnce) Closer ex_calling).

Lemma ex_met_reachable : reachable ex_hook 4 ex_met.
Proof.
  unfold reachable. transitivity ex_posted; [|transitivity ex_calling].
  - eapply rtc_l; [apply (event _ _ (opened 4) true); unfold poster; simpl; tauto|].
    apply rtc_once. apply (event ex_hook true (postEvent true (opened 4)) false). unfold poster. simpl. tauto.
  - eapply rtc_l; [by apply (hook_starts _ _ ex_posted true (Dispatcher [false] 4 0))|].
    eapply rtc_l; [by apply (close_in_hook _ _ _ true 0 ["main.hook"%string])|].
    apply rtc_once. exact (close_elsewhere ex_hook true _ ["main.main"%string]).
  - apply rtc_once. exact (do_first ex_hook true ex_calling 1 _ eq_refl eq_refl eq_refl).
Qed.

Lemma every_close_returns_witness :
  ∃ n s', nsteps (step ex_hook false) n ex_met s' ∧ Z.of_nat n <= remaining ex_hook ex_met ∧
    Forall (λ c, where_ c = Back) (calls s').
Proof. exact (every_close_returns ex_hook 4 ex_met ex_met_reachable). Defined.

Lemma closed_observer_is_complete_witness :
  panicked ex_met = false ∧ sent ex_met = [true; false] ∧ ran ex_met ++ hand (runs ex_met) ++ ch (disp ex_met) `sublist_of` [true; false].
Proof.
  destruct (closed_observer_is_complete ex_hook 4 ex_met ltac:(lia) ex_met_reachable) as (H1 & H2 & _).
  exact (conj H1 (conj eq_refl H2)).
Defined.

End Shutdown.
