(* ===== verification/Pipeline.v ===== *)
(** * The flusher and its deliveries together (src/flush.go)

    The flusher's outputs (Flusher.v) and the effects of the deliveries it starts
    (Delivery.v) reach the shared state of the buffer (State.v) one at a time, in
    any interleaving with each other and with what writers, the checkpointer and
    the observer dispatcher do.  The invariant ties the acknowledgement tracker
    (Tracker.v) to the ranges sent so far: exactly the ranges that were
    acknowledged directly, or whose delivery has disposed of its batch, are
    completed. *)

From S2P Require Import Prelude Errors Tracker Age Gate Sink Flusher Delivery Policy Capacity Writer Observer State.
From stdpp Require Import strings.
Import Sink Flusher Delivery.
Local Open Scope Z_scope.
Local Open Scope go_scope.

Module Pipeline.

(** What the rest of the buffer relies on of whoever cuts the log into ranges:
    they tile the numbering from [low0], and their capacities are in range. *)
Class Segmenter {T} (low0 : Z) (next : list (@out T) → Prop) : Prop := {
  segmenter_tiles os : next os → Tracker.tiles low0 (ranges os);
  segmenter_fits os : next os → Tracker.fitting (ranges os)
}.

Section pipeline.
Context {T : Type} (cfg : settings) (logID : bytes) (maxInFlight : Z).

(** The batch [dispatch] hands to a delivery. *)
Definition dispatch (p : @pending T) : Batch T := MkBatch (id p) logID (records p) 0.

(** A delivery: what it has done and what it is still going to do.  [t_index] is
    the place of its range among the ranges sent. *)
Record task := Task {
  t_index : nat; t_batch : @pending T; t_done : list (@effect T); t_todo : list (@effect T); t_status : status
}.

(** It holds a slot of [b.sem] until it has returned. *)
Definition busy (t : task) : bool :=
  match t_todo t, t_status t with [], Finished => false | _, _ => true end.

(** [sent]: the flusher's outputs that have taken effect. *)
Record pipe := Pipe { buf : State.buffer; sent : list (@out T); tasks : list task }.

Definition inFlight (P : pipe) : Z := len (List.filter busy (tasks P)).

(** What goroutines outside the pipeline do. *)
Definition outside (a : State.action T) : Prop :=
  match a with State.ByFlusher _ | State.ByDelivery _ => False | _ => True end.

(** A batch is dropped by policy only on a floor the buffer has reached. *)
Definition permitted (floor : Z) (p : @pending T) (x : @effect T) : Prop :=
  match x with Dropped _ ReasonPolicy => id p < floor | _ => True end.

(** [next] is the flusher's say in what comes next: the outputs it may send. *)
Inductive step (next : list (@out T) → Prop) : pipe → pipe → Prop :=
| step_send P o :
    next (sent P ++ [o]) → (∀ p, o ≠ ODispatch p) →
    step next P (Pipe (State.flusherDoes o (buf P)) (sent P ++ [o]) (tasks P))
| step_dispatch P p es fx st :
    next (sent P ++ [ODispatch p]) → inFlight P < maxInFlight → deliver cfg (dispatch p) p es = (fx, st) →
    step next P (Pipe (buf P) (sent P ++ [ODispatch p])
      (tasks P ++ [Task (length (ranges (sent P))) p [] fx st]))
| step_deliver P i k p dn x fx st :
    tasks P !! i = Some (Task k p dn (x :: fx) st) → permitted (State.floor (buf P)) p x →
    step next P (Pipe (State.deliveryDoes x (buf P)) (sent P) (<[i := Task k p (dn ++ [x]) fx st]> (tasks P)))
| step_outside P a :
    outside a → step next P (Pipe (State.act (buf P) a) (sent P) (tasks P)).

(** ** What is completed *)

Definition isCompleted (x : @effect T) : bool := match x with Completed _ _ _ _ => true | _ => false end.

(** The [i]th range sent has been acknowledged: by the flusher itself, or by the
    delivery of its batch. *)
Definition completed (P : pipe) (i : nat) : Prop :=
  (∃ f t c b, List.filter emits (sent P) !! i = Some (OComplete f t c b)) ∨
  (∃ j t x, tasks P !! j = Some t ∧ t_index t = i ∧ x ∈ t_done t ∧ isCompleted x = true).

Definition delivering (t : task) : Prop :=
  ∃ es, deliver cfg (dispatch (t_batch t)) (t_batch t) es = (t_done t ++ t_todo t, t_status t).

Context (low0 : Z) (H0 : 0 <= low0 < maxU64).

Record pipe_inv (P : pipe) (A : gset nat) (k : nat) : Prop := {
  p_tiles : Tracker.tiles low0 (ranges (sent P));
  p_fits : Tracker.fitting (ranges (sent P));
  p_tracks : Tracker.tracks low0 (ranges (sent P)) A k (State.acks (buf P));
  p_completed : ∀ i, i ∈ A ↔ completed P i;
  p_tasks : ∀ j t, tasks P !! j = Some t →
    List.filter emits (sent P) !! t_index t = Some (ODispatch (t_batch t)) ∧ delivering t;
  p_inj : ∀ j j' t t', tasks P !! j = Some t → tasks P !! j' = Some t' → t_index t = t_index t' → j = j';
  p_started : ∀ i p, List.filter emits (sent P) !! i = Some (ODispatch p) →
    ∃ j t, tasks P !! j = Some t ∧ t_index t = i ∧ t_batch t = p;
  p_floor : ∀ j t x, tasks P !! j = Some t → x ∈ t_done t → permitted (State.floor (buf P)) (t_batch t) x
}.

Lemma ranges_emits (os : list (@out T)) : length (ranges os) = length (List.filter emits os).
Proof.
  induction os as [|o os IH]; [done|]. cbn [List.filter]. unfold emits at 1.
  change (ranges (o :: os)) with (match rangeOf o with Some r => r :: ranges os | None => ranges os end).
  destruct (rangeOf o); simpl; by rewrite IH.
Qed.

(** What a delivery has done when it acknowledges: counted its batch, once, and
    acknowledged nothing before. *)
Lemma acknowledging t x fx :
  delivering t → t_todo t = x :: fx → isCompleted x = true →
  x = completeRange (t_batch t) ∧ (∀ y, y ∈ t_done t → isCompleted y = false) ∧
  ∃ y, resolution (t_batch t) y ∧ y ∈ t_done t.
Proof.
  intros [es He] Ht Hx. apply deliverLoop_disposed in He. rewrite Ht, marks_app in He.
  assert (Hm : marks (x :: fx) = x :: marks fx) by (unfold marks; simpl; by destruct x). rewrite Hm in He.
  destruct (t_status t); simpl in He; [|by apply app_eq_nil in He as [_ ?]].
  destruct He as [(y & Hy & E)|[[_ HF]|[E _]]]; [| |by apply app_eq_nil in E as [_ ?]].
  2:{ apply Forall_app in HF as [_ HF]. apply Forall_cons in HF as [HF _]. by destruct x. }
  assert (Hy' : isCompleted y = false) by (by destruct Hy).
  destruct (marks (t_done t)) as [|z [|z' l]] eqn:Ed.
  - injection E as -> _. congruence.
  - injection E as -> -> _. split; [done|].
    assert (Hin : ∀ u, u ∈ t_done t → loud u = true → u = y).
    { intros u Hu Hl. assert (Hu' : u ∈ marks (t_done t)).
      { apply list_elem_of_In, List.filter_In. split; [by apply list_elem_of_In | done]. }
      rewrite Ed in Hu'. by apply list_elem_of_singleton in Hu'. }
    split.
    + intros u Hu. destruct (isCompleted u) eqn:Eu; [|done]. rewrite (Hin u Hu) in Eu by (by destruct u). congruence.
    + exists y. split; [done|]. assert (Hy2 : y ∈ marks (t_done t)) by (rewrite Ed; left).
      apply list_elem_of_In, List.filter_In in Hy2 as [Hy2 _]. by apply list_elem_of_In.
  - apply (f_equal length) in E. simpl in E. rewrite length_app in E. simpl in E. lia.
Qed.

(** What a delivery that has acknowledged did before. *)
Lemma acknowledged_resolved t y :
  delivering t → y ∈ t_done t → isCompleted y = true →
  ∃ es x, deliver cfg (dispatch (t_batch t)) (t_batch t) es = (t_done t ++ t_todo t, t_status t) ∧
    x ∈ t_done t ∧ resolution (t_batch t) x ∧ grounded cfg (dispatch (t_batch t)) (t_batch t) es x.
Proof.
  intros [es He] Hy Hc. pose proof He as Hd. apply deliverLoop_disposed in Hd. rewrite marks_app in Hd.
  assert (Hin : ∀ u, u ∈ marks (t_done t) ↔ u ∈ t_done t ∧ loud u = true).
  { intros u. unfold marks. by rewrite !list_elem_of_In, List.filter_In. }
  assert (Hm : y ∈ marks (t_done t)) by (apply Hin; split; [done | by destruct y]).
  enough (∃ x, resolution (t_batch t) x ∧ x ∈ marks (t_done t)) as (x & Hx & Hxm).
  { apply Hin in Hxm as [Hxm _]. exists es, x. split; [done|]. split; [done|]. split; [done|].
    eapply deliver_grounded; [exact He|]. apply elem_of_app. by left. }
  destruct (marks (t_done t)) as [|z l] eqn:Ed; [by apply not_elem_of_nil in Hm|].
  destruct (t_status t); simpl in Hd; [|done].
  destruct Hd as [(x & Hx & E)|[[_ HF]|[E _]]]; [| |done].
  - injection E as -> _. exists x. split; [done | left].
  - rewrite Forall_forall in HF. specialize (HF y). rewrite app_comm_cons, elem_of_app in HF.
    specialize (HF ltac:(by left)). by destruct y.
Qed.

(** *** Effects on the tracker *)

Lemma acks_complete f t c n b :
  State.acks (State.complete f t c n b) = (Tracker.ack f t c n (State.acks b)).1.1.1.
Proof. unfold State.complete. by destruct (Tracker.ack f t c n (State.acks b)) as [[[]]]. Qed.

Lemma acks_emit e b : State.acks (State.emit e b) = State.acks b.
Proof. unfold State.emit. destruct (State.hookOf _ _); [|done]. by destruct (State.obs b). Qed.

Lemma acks_dropOldest n size b : State.acks (State.dropOldest n size b) = State.acks b.
Proof. unfold State.dropOldest, State.raiseFloor. destruct (Capacity.dropOldest _ _ _ _ _); [|done]. by case_if. Qed.

Lemma acks_outside a b : outside a → State.acks (State.act b a) = State.acks b.
Proof.
  destruct a as [o|x|now x|lsn|hook]; try done; intros _; simpl.
  - destruct x; try done; simpl; unfold State.dropped, State.observeBackpressure; rewrite ?acks_emit, ?acks_dropOldest; try done.
    unfold State.accept, State.nudge, State.wrote. simpl. by rewrite acks_emit.
  - unfold State.checkpointed. by rewrite acks_emit.
  - unfold State.dispatch1. destruct (State.obs b); [|done]. by destruct (Observer.runOne _ _) as [[]|].
Qed.

Lemma acks_sends (o : @out T) b : rangeOf o = None → State.acks (State.flusherDoes o b) = State.acks b.
Proof. destruct o; try done. intros _. simpl. unfold State.dropped. by rewrite acks_emit. Qed.

Lemma acks_delivery (x : @effect T) b : isCompleted x = false → State.acks (State.deliveryDoes x b) = State.acks b.
Proof.
  destruct x; try done; intros _; simpl; unfold State.observeFlush, State.dropped, State.deadLettered; by rewrite ?acks_emit.
Qed.

(** *** Effects on the floor *)

Lemma floor_emit e b : State.floor (State.emit e b) = State.floor b.
Proof. unfold State.emit. destruct (State.hookOf _ _); [|done]. by destruct (State.obs b). Qed.

Lemma floor_complete f t c n b : State.floor (State.complete f t c n b) = State.floor b.
Proof. unfold State.complete. by destruct (Tracker.ack f t c n (State.acks b)) as [[[]]]. Qed.

(** Only a policy that drops the oldest moves it, and only up. *)
Lemma floor_act b (a : State.action T) : State.floor b <= State.floor (State.act b a).
Proof.
  destruct a as [o|x|now x|lsn|hook]; simpl.
  - destruct o; simpl; rewrite ?floor_complete; unfold State.dropped; rewrite ?floor_emit; simpl; lia.
  - destruct x; simpl; rewrite ?floor_complete; unfold State.dropped, State.deadLettered, State.observeFlush;
      rewrite ?floor_emit; simpl; lia.
  - destruct x; simpl; unfold State.dropped, State.observeBackpressure; rewrite ?floor_emit; simpl; try lia.
    + unfold State.dropOldest, State.raiseFloor. destruct (Capacity.dropOldest _ _ _ _ _); [|lia].
      case_if; bools; simpl; lia.
    + unfold State.accept, State.nudge, State.wrote. simpl. rewrite floor_emit. simpl. lia.
  - unfold State.checkpointed. rewrite floor_emit. lia.
  - unfold State.dispatch1. destruct (State.obs b); [|lia]. destruct (Observer.runOne _ _) as [[]|]; simpl; lia.
Qed.

Lemma floor_flusher b (o : @out T) : State.floor b <= State.floor (State.flusherDoes o b).
Proof. exact (floor_act b (State.ByFlusher o)). Qed.

Lemma permitted_mono fl fl' p (x : @effect T) : fl <= fl' → permitted fl p x → permitted fl' p x.
Proof. intros Hle. unfold permitted. repeat case_match; lia || done. Qed.

(** *** The steps keep the invariant *)

Lemma emits_snoc (os : list (@out T)) o : emits o = true →
  List.filter emits (os ++ [o]) = List.filter emits os ++ [o].
Proof. intros E. rewrite List.filter_app. simpl. by rewrite E. Qed.

Lemma ranges_snoc (os : list (@out T)) o r : rangeOf o = Some r → ranges (os ++ [o]) = ranges os ++ [r].
Proof. intros E. unfold ranges. rewrite omap_app. simpl. by rewrite E. Qed.

Lemma index_bound P A k j t : pipe_inv P A k → tasks P !! j = Some t → (t_index t < length (ranges (sent P)))%nat.
Proof. intros I Ht. destruct (p_tasks _ _ _ I j t Ht) as [Hl _]. rewrite ranges_emits. by eapply lookup_lt_Some. Qed.

(** An output with no range changes no index. *)
Lemma inv_plain P A k o b' :
  pipe_inv P A k → rangeOf o = None → State.acks b' = State.acks (buf P) →
  State.floor (buf P) <= State.floor b' → pipe_inv (Pipe b' (sent P ++ [o]) (tasks P)) A k.
Proof using.
  intros [] Ho Ha Hfl. assert (Er : ranges (sent P ++ [o]) = ranges (sent P)).
  { unfold ranges. rewrite omap_app. simpl. by rewrite Ho, app_nil_r. }
  assert (Ee : List.filter emits (sent P ++ [o]) = List.filter emits (sent P)).
  { rewrite List.filter_app. simpl. unfold emits at 2. by rewrite Ho, app_nil_r. }
  constructor; simpl; rewrite ?Er, ?Ee, ?Ha; try done.
  - intros i. rewrite p_completed0. unfold completed. simpl. by rewrite Ee.
  - intros j t x Ht Hx. eapply permitted_mono; [exact Hfl | by eapply p_floor0].
Qed.

(** A step of the shared state that acknowledges nothing. *)
Lemma inv_same P A k b' :
  pipe_inv P A k → State.acks b' = State.acks (buf P) → State.floor (buf P) <= State.floor b' →
  pipe_inv (Pipe b' (sent P) (tasks P)) A k.
Proof using.
  intros [] Ha Hfl. constructor; simpl; rewrite ?Ha; try done.
  intros j t x Ht Hx. eapply permitted_mono; [exact Hfl | by eapply p_floor0].
Qed.

(** One acknowledgement: the index of its range is completed. *)
Lemma acked_range rs A k a i r :
  Tracker.tiles low0 rs → Tracker.fitting rs → Tracker.tracks low0 rs A k a → rs !! i = Some r → i ∉ A →
  ∃ k', (k <= k')%nat ∧ Tracker.tracks low0 rs ({[i]} ∪ A) k'
    (Tracker.ack (Tracker.from r) (Tracker.to r) (Tracker.rcount r) (Tracker.rbytes r) a).1.1.1.
Proof using H0.
  intros Ht Hf Htr Hi HA. destruct (Hf i r Hi) as [Hc Hb].
  destruct (Tracker.ack_spec low0 rs H0 Ht A k a i r Htr Hi HA Hc Hb) as (a' & k' & E & Hk & Htr').
  exists k'. by rewrite E.
Qed.

Lemma inv_complete P A k f t c n :
  let o := OComplete f t c n in
  pipe_inv P A k → Tracker.tiles low0 (ranges (sent P ++ [o])) → Tracker.fitting (ranges (sent P ++ [o])) →
  ∃ A' k', (k <= k')%nat ∧ pipe_inv (Pipe (State.flusherDoes o (buf P)) (sent P ++ [o]) (tasks P)) A' k'.
Proof using H0.
  intros o I Ht Hf. pose proof I as []. set (i := length (ranges (sent P))).
  assert (Er : ranges (sent P ++ [o]) = ranges (sent P) ++ [Tracker.Range f t c n]) by (by apply ranges_snoc).
  assert (Ee : List.filter emits (sent P ++ [o]) = List.filter emits (sent P) ++ [o]) by (by apply emits_snoc).
  assert (HiA : i ∉ A) by (intros Hi; apply (Tracker.t_dom _ _ _ _ _ p_tracks0) in Hi; lia).
  pose proof (Tracker.tracks_app _ _ [Tracker.Range f t c n] _ _ _ p_tracks0) as Htr. rewrite <- Er in Htr.
  assert (Hi : ranges (sent P ++ [o]) !! i = Some (Tracker.Range f t c n)).
  { rewrite Er. unfold i. by rewrite lookup_app_r, Nat.sub_diag by lia. }
  destruct (acked_range _ _ _ _ _ _ Ht Hf Htr Hi HiA) as (k' & Hk & Htr').
  exists ({[i]} ∪ A), k'. split; [done|]. constructor; cbn [buf sent tasks]; try done.
  - change (State.flusherDoes o (buf P)) with (State.complete f t c n (buf P)). by rewrite acks_complete.
  - intros i'. rewrite elem_of_union, elem_of_singleton, p_completed0. unfold completed. simpl. rewrite Ee. split.
    + intros [->|[(f' & t' & c' & n' & E)|E]]; [left | left | by right].
      * exists f, t, c, n. unfold i. by rewrite lookup_app_r, ranges_emits, Nat.sub_diag by (rewrite ranges_emits; lia).
      * exists f', t', c', n'. by apply lookup_app_l_Some.
    + intros [(f' & t' & c' & n' & E)|E]; [|by right; right].
      apply lookup_app_Some in E as [E|[Hge E]]; [right; left; by exists f', t', c', n'|].
      left. destruct (i' - length (List.filter emits (sent P)))%nat eqn:Ei; [|done].
      unfold i. rewrite ranges_emits. lia.
  - intros j u Hu. rewrite Ee. destruct (p_tasks0 j u Hu) as [Hl Hd]. split; [by apply lookup_app_l_Some | done].
  - intros i' p E. rewrite Ee in E. apply lookup_app_Some in E as [E|[_ E]]; [by apply p_started0|].
    by destruct (_ - _)%nat.
  - intros j u x Hu Hx. simpl. rewrite floor_complete. by eapply p_floor0.
Qed.

Lemma inv_dispatch P A k p es fx st :
  let o := ODispatch p in
  pipe_inv P A k → Tracker.tiles low0 (ranges (sent P ++ [o])) → Tracker.fitting (ranges (sent P ++ [o])) →
  deliver cfg (dispatch p) p es = (fx, st) →
  pipe_inv (Pipe (buf P) (sent P ++ [o]) (tasks P ++ [Task (length (ranges (sent P))) p [] fx st])) A k.
Proof using H0.
  intros o I Ht Hf He. pose proof I as [].
  assert (Er : ranges (sent P ++ [o]) = ranges (sent P)
    ++ [Tracker.Range (rangeFrom p) (rangeTo p) (count p + skipCount p) (bytes_ p + skipBytes p)]) by (by apply ranges_snoc).
  assert (Ee : List.filter emits (sent P ++ [o]) = List.filter emits (sent P) ++ [o]) by (by apply emits_snoc).
  assert (Hnew : List.filter emits (sent P ++ [o]) !! length (ranges (sent P)) = Some o).
  { rewrite Ee, ranges_emits. by rewrite lookup_app_r, Nat.sub_diag by lia. }
  assert (Hlook : ∀ j t, (tasks P ++ [Task (length (ranges (sent P))) p [] fx st]) !! j = Some t →
    (tasks P !! j = Some t) ∨ (j = length (tasks P) ∧ t = Task (length (ranges (sent P))) p [] fx st)).
  { intros j t E. apply lookup_app_Some in E as [E|[Hge E]]; [by left|]. right.
    destruct (j - length (tasks P))%nat eqn:Ej; [|done]. injection E as <-. split; [lia | done]. }
  constructor; cbn [buf sent tasks]; try done.
  - rewrite Er. by apply Tracker.tracks_app.
  - intros i. rewrite p_completed0. unfold completed. simpl. rewrite Ee. split.
    + intros [(f & t & c & n & E)|(j & t & x & E & Hr)]; [left | right].
      * exists f, t, c, n. by apply lookup_app_l_Some.
      * exists j, t, x. split; [by apply lookup_app_l_Some | done].
    + intros [(f & t & c & n & E)|(j & t & x & E & Hr)]; [left | right].
      * apply lookup_app_Some in E as [E|[_ E]]; [by exists f, t, c, n|]. by destruct (_ - _)%nat.
      * apply Hlook in E as [E|[_ ->]]; [by exists j, t, x|]. simpl in Hr. set_solver.
  - intros j t E. apply Hlook in E as [E|[_ ->]].
    + destruct (p_tasks0 j t E) as [Hl Hd]. rewrite Ee. split; [by apply lookup_app_l_Some | done].
    + split; [done|]. by exists es.
  - intros j j' t t' E E' Hi.
    apply Hlook in E as [E|[-> ->]]; apply Hlook in E' as [E'|[-> ->]]; [by eapply p_inj0 | | | done].
    + pose proof (index_bound _ _ _ _ _ I E). simpl in Hi. lia.
    + pose proof (index_bound _ _ _ _ _ I E'). simpl in Hi. lia.
  - intros i q E. rewrite Ee in E. apply lookup_app_Some in E as [E|[Hge E]].
    + destruct (p_started0 i q E) as (j & t & Hj & Hr). exists j, t. split; [by apply lookup_app_l_Some | done].
    + destruct (i - length (List.filter emits (sent P)))%nat eqn:Ei; [|done]. injection E as ->.
      exists (length (tasks P)), (Task (length (ranges (sent P))) q [] fx st). simpl.
      split; [by rewrite lookup_app_r, Nat.sub_diag by lia|]. split; [rewrite ranges_emits; lia | done].
  - intros j t x E Hx. apply Hlook in E as [E|[_ ->]]; [by eapply p_floor0 | by apply not_elem_of_nil in Hx].
Qed.

(** A delivery's step, up to the tracker: the lists of tasks agree but for one
    that has done one effect more. *)
Lemma inv_progress P A A' k k' b' j i p dn x fx st :
  pipe_inv P A k → tasks P !! j = Some (Task i p dn (x :: fx) st) →
  Tracker.tracks low0 (ranges (sent P)) A' k' (State.acks b') →
  (∀ i', i' ∈ A' ↔ i' ∈ A ∨ (i' = i ∧ isCompleted x = true)) →
  permitted (State.floor (buf P)) p x → State.floor (buf P) <= State.floor b' →
  pipe_inv (Pipe b' (sent P) (<[j := Task i p (dn ++ [x]) fx st]> (tasks P))) A' k'.
Proof using H0.
  intros I Ht Htr HA Hper Hfl. pose proof I as [].
  assert (Hlook : ∀ j' t', <[j := Task i p (dn ++ [x]) fx st]> (tasks P) !! j' = Some t' →
    ∃ t0, tasks P !! j' = Some t0 ∧ t_index t0 = t_index t' ∧ t_batch t0 = t_batch t' ∧
      t_done t0 ++ t_todo t0 = t_done t' ++ t_todo t' ∧ t_status t0 = t_status t' ∧
      (t' = t0 ∨ j' = j ∧ t' = Task i p (dn ++ [x]) fx st)).
  { intros j' t' E. apply list_lookup_insert_Some in E as [(-> & <- & _)|[Hne E]].
    - exists (Task i p dn (x :: fx) st). simpl. rewrite <- app_assoc. auto 10.
    - exists t'. auto 10. }
  pose proof (lookup_lt_Some _ _ _ Ht) as Hlt.
  constructor; cbn [buf sent tasks]; try done.
  - intros i'. rewrite HA, p_completed0. unfold completed. cbn [sent tasks]. split.
    + intros [[E|(j' & t' & y & E & Hi & Hy & Hc)]|[-> Hx]]; [by left | right | right].
      * destruct (decide (j' = j)) as [->|Hne]; [|exists j', t', y; by rewrite list_lookup_insert_ne].
        exists j, (Task i p (dn ++ [x]) fx st), y. rewrite list_lookup_insert_eq by done.
        rewrite Ht in E. injection E as <-. simpl in *. set_solver.
      * exists j, (Task i p (dn ++ [x]) fx st), x. rewrite list_lookup_insert_eq by done. simpl. set_solver.
    + intros [E|(j' & t' & y & E & Hi & Hy & Hc)]; [by left; left|].
      destruct (Hlook j' t' E) as (t0 & E0 & Hi0 & _ & _ & _ & [->|[-> ->]]); [left; right; by exists j', t0, y|].
      simpl in *. apply elem_of_app in Hy as [Hy | ->%list_elem_of_singleton]; [|by right].
      left. right. exists j, (Task i p dn (x :: fx) st), y. done.
  - intros j' t' E. destruct (Hlook j' t' E) as (t0 & E0 & <- & <- & Hd & Hst & _).
    destruct (p_tasks0 j' t0 E0) as [Hl [es He]]. split; [done|]. exists es.
    destruct (Hlook j' t' E) as (t1 & E1 & _ & <- & <- & <- & _). rewrite E0 in E1. by injection E1 as <-.
  - intros j1 j2 t1 t2 E1 E2 Hi.
    destruct (Hlook _ _ E1) as (u1 & F1 & Hi1 & _), (Hlook _ _ E2) as (u2 & F2 & Hi2 & _).
    eapply p_inj0; [done | done | congruence].
  - intros i' q E. destruct (p_started0 i' q E) as (j' & t' & Hj & Hi & Hb).
    destruct (decide (j' = j)) as [->|Hne]; [|exists j', t'; by rewrite list_lookup_insert_ne].
    exists j, (Task i p (dn ++ [x]) fx st). rewrite list_lookup_insert_eq by done.
    rewrite Ht in Hj. by injection Hj as <-.
  - intros j' t' y E Hy. eapply permitted_mono; [exact Hfl|].
    destruct (Hlook j' t' E) as (t0 & E0 & _ & _ & _ & _ & [->|[-> ->]]); [by eapply p_floor0|]. simpl in *.
    apply elem_of_app in Hy as [Hy | ->%list_elem_of_singleton]; [|done]. by apply (p_floor0 _ _ _ Ht).
Qed.

Lemma inv_deliver P A k j i p dn x fx st :
  pipe_inv P A k → tasks P !! j = Some (Task i p dn (x :: fx) st) → permitted (State.floor (buf P)) p x →
  ∃ A' k', (k <= k')%nat ∧
    pipe_inv (Pipe (State.deliveryDoes x (buf P)) (sent P) (<[j := Task i p (dn ++ [x]) fx st]> (tasks P))) A' k'.
Proof using H0.
  intros I Ht Hper. pose proof (p_tasks _ _ _ I _ _ Ht) as [Hl Hd]. simpl in Hl.
  pose proof (floor_act (buf P) (State.ByDelivery x)) as Hfl. simpl in Hfl.
  destruct (isCompleted x) eqn:Ex.
  - destruct (acknowledging _ x fx Hd eq_refl Ex) as (Hx & Hno & _). simpl in *.
    assert (HiA : i ∉ A).
    { intros Hi%(p_completed _ _ _ I). destruct Hi as [(f & t & c & b & E)|(j' & t' & y & E & Hi & Hy & Hc)]; [congruence|].
      assert (j' = j) as -> by (by eapply (p_inj _ _ _ I)). rewrite Ht in E. injection E as <-. simpl in Hy.
      specialize (Hno y Hy). congruence. }
    pose proof (ranges_lookup _ _ _ Hl) as Hr.
    destruct (acked_range _ _ _ _ _ _ (p_tiles _ _ _ I) (p_fits _ _ _ I) (p_tracks _ _ _ I) Hr HiA) as (k' & Hk & Htr).
    exists ({[i]} ∪ A), k'. split; [done|]. eapply inv_progress; [done | done | | | done | done].
    + rewrite Hx. simpl. by rewrite acks_complete.
    + intros i'. rewrite Ex. set_solver.
  - exists A, k. split; [done|]. eapply inv_progress; [done | done | | | done | done].
    + rewrite acks_delivery by done. apply (p_tracks _ _ _ I).
    + intros i'. rewrite Ex. naive_solver.
Qed.

Lemma pipe_step_inv next `{!Segmenter low0 next} P P' A k :
  pipe_inv P A k → step next P P' → ∃ A' k', (k <= k')%nat ∧ pipe_inv P' A' k'.
Proof using H0.
  intros I Hstep. pose proof (λ os H, conj (segmenter_tiles os H) (segmenter_fits os H)) as Hnext.
  destruct Hstep as [P o Hn Hnd|P p es fx st Hn _ He|P j i p dn x fx st Ht Hper|P a Ha].
  - destruct (Hnext _ Hn) as [Ht Hf]. destruct o as [f t c n|p|why|e]; [by eapply inv_complete | by destruct (Hnd p) | |];
      (exists A, k; split; [done|]; apply inv_plain; [done | done | by apply acks_sends | apply floor_flusher]).
  - destruct (Hnext _ Hn) as [Ht Hf]. exists A, k. split; [done|]. by eapply inv_dispatch.
  - by eapply inv_deliver.
  - exists A, k. split; [done|]. apply inv_same; [done | by apply acks_outside | apply floor_act].
Qed.

(** The mark and the floor never move back. *)
Lemma inv_mark P P' A k A' k' :
  pipe_inv P A k → pipe_inv P' A' k' → (k <= k')%nat → sent P `prefix_of` sent P' →
  Tracker.mark (State.acks (buf P)) <= Tracker.mark (State.acks (buf P')).
Proof using H0.
  intros I I' Hk [os Hos]. unfold Tracker.mark. pose proof (p_tracks _ _ _ I) as Tr. pose proof (p_tracks _ _ _ I') as Tr'.
  rewrite (Tracker.t_low _ _ _ _ _ Tr), (Tracker.t_low _ _ _ _ _ Tr').
  pose proof (Tracker.t_len _ _ _ _ _ Tr). pose proof (Tracker.t_len _ _ _ _ _ Tr').
  assert (E : take k (ranges (sent P)) = take k (ranges (sent P'))) by (by rewrite Hos, ranges_app, take_app_le).
  rewrite E. apply Tracker.endOf_mono; [done | apply (p_tiles _ _ _ I') | lia].
Qed.

Lemma sent_step next P P' : step next P P' → sent P `prefix_of` sent P'.
Proof using. destruct 1; simpl; done || by eexists. Qed.

Lemma floor_step next P P' : step next P P' → State.floor (buf P) <= State.floor (buf P').
Proof using.
  destruct 1 as [P o| |P i k p dn x fx st|P a]; simpl;
    [apply floor_flusher | lia | exact (floor_act (buf P) (State.ByDelivery x)) | apply floor_act].
Qed.

(** ** Slots and order *)

Lemma busy_insert l : ∀ i t t', l !! i = Some t → busy t = true →
  len (List.filter busy (<[i := t']> l)) <= len (List.filter busy l).
Proof using.
  induction l as [|u l IH]; intros i t t' Hi Hb; [done|]. destruct i as [|i]; simpl in *.
  - injection Hi as ->. rewrite Hb. destruct (busy t'); rewrite ?len_cons; lia.
  - specialize (IH i t t' Hi Hb). destruct (busy u); rewrite ?len_cons; lia.
Qed.

Lemma nobody_busy l i t : len (List.filter busy l) < 1 → l !! i = Some t → busy t = false.
Proof using.
  intros Hl Hi. destruct (busy t) eqn:E; [|done]. exfalso.
  assert (Hin : t ∈ List.filter busy l).
  { apply list_elem_of_In, List.filter_In. split; [|done]. by apply list_elem_of_In, list_elem_of_lookup_2 with i. }
  destruct (List.filter busy l) as [|u m]; [by apply not_elem_of_nil in Hin|].
  rewrite len_cons in Hl. pose proof (len_nonneg m). lia.
Qed.

(** No more deliveries run than there are slots; with one slot only the last one
    started may be running; and they are started in the order of their ranges. *)
Record orderly (P : pipe) : Prop := {
  o_slots : inFlight P <= maxInFlight;
  o_last : maxInFlight = 1 → ∀ j j' t, (j < j')%nat → tasks P !! j = Some t → is_Some (tasks P !! j') → busy t = false;
  o_index : ∀ j j' t t', (j < j')%nat → tasks P !! j = Some t → tasks P !! j' = Some t' → (t_index t < t_index t')%nat
}.

Lemma orderly_dispatch P A k b' os p fx st :
  pipe_inv P A k → orderly P → inFlight P < maxInFlight →
  orderly (Pipe b' os (tasks P ++ [Task (length (ranges (sent P))) p [] fx st])).
Proof using.
  intros I [Hs Hl Hi] Hlt. set (new := Task (length (ranges (sent P))) p [] fx st).
  assert (Hlook : ∀ j t, (tasks P ++ [new]) !! j = Some t → tasks P !! j = Some t ∨ j = length (tasks P) ∧ t = new).
  { intros j t E. apply lookup_app_Some in E as [E|[Hge E]]; [by left|]. right.
    destruct (j - length (tasks P))%nat eqn:Ej; [|done]. injection E as <-. split; [lia | done]. }
  split; simpl.
  - unfold inFlight in *. simpl. rewrite List.filter_app, len_app. simpl. destruct (busy new); [rewrite len_cons|]; rewrite len_nil; lia.
  - intros H1 j j' t Hj Ht [t' Ht']. apply Hlook in Ht as [Ht|[-> _]].
    + apply (nobody_busy (tasks P) j); [unfold inFlight in *; lia | done].
    + apply lookup_lt_Some in Ht'. rewrite length_app in Ht'. simpl in Ht'. lia.
  - intros j j' t t' Hj Ht Ht'. apply Hlook in Ht' as [Ht'|[-> ->]].
    + apply lookup_lt_Some in Ht' as Hlt'. apply Hlook in Ht as [Ht|[-> _]]; [by apply (Hi j j') | lia].
    + apply Hlook in Ht as [Ht|[-> _]]; [|lia]. by apply (index_bound _ _ _ _ _ I Ht).
Qed.

Lemma orderly_step next P P' A k : pipe_inv P A k → orderly P → step next P P' → orderly P'.
Proof using.
  intros I O Hstep. destruct Hstep as [P o Hn Hnd|P p es fx st Hn Hlt He|P j i p dn x fx st Ht Hper|P a Ha].
  - by destruct O.
  - by eapply orderly_dispatch.
  - destruct O as [Hs Hl Hi]. assert (Hb : busy (Task i p dn (x :: fx) st) = true) by done.
    set (new := Task i p (dn ++ [x]) fx st).
    assert (Hlook : ∀ j1 t, <[j := new]> (tasks P) !! j1 = Some t → ∃ t0, tasks P !! j1 = Some t0 ∧
      t_index t0 = t_index t ∧ (t = t0 ∨ j1 = j)).
    { intros j1 t E. apply list_lookup_insert_Some in E as [(-> & <- & _)|[Hne E]]; [eexists; split; [exact Ht | auto]|eauto]. }
    split; simpl.
    + pose proof (busy_insert _ _ _ new Ht Hb). unfold inFlight in *. simpl. lia.
    + intros H1 j1 j2 t Hj E [t' E']. destruct (Hlook _ _ E) as (t0 & E0 & _ & Hc). destruct (Hlook _ _ E') as (t1 & E1 & _).
      specialize (Hl H1 j1 j2 t0 Hj E0 ltac:(by eexists)). destruct Hc as [->| ->]; [done|].
      rewrite Ht in E0. injection E0 as <-. congruence.
    + intros j1 j2 t t' Hj E E'. destruct (Hlook _ _ E) as (t0 & E0 & <- & _), (Hlook _ _ E') as (t1 & E1 & <- & _).
      by apply (Hi j1 j2).
  - by destruct O.
Qed.

(** What two deliveries of an orderly pipe have to do with each other. *)
Lemma orderly_ranges P A k j j' t t' :
  pipe_inv P A k → orderly P → (j < j')%nat → tasks P !! j = Some t → tasks P !! j' = Some t' →
  rangeTo (t_batch t) < rangeFrom (t_batch t').
Proof using H0.
  intros I O Hj Ht Ht'. pose proof (o_index _ O j j' t t' Hj Ht Ht') as Hlt.
  destruct (p_tasks _ _ _ I j t Ht) as [H1 _], (p_tasks _ _ _ I j' t' Ht') as [H2 _].
  apply ranges_lookup in H1, H2. symmetry in H1, H2.
  exact (Tracker.tiles_mono _ _ H0 (p_tiles _ _ _ I) _ _ _ _ Hlt (eq_sym H1) (eq_sym H2)).
Qed.

(** At the start nothing is sent and nothing acknowledged. *)
Definition idle (P : pipe) : Prop :=
  State.acks (buf P) = Tracker.newAckTracker low0 ∧ sent P = [] ∧ tasks P = [].

Lemma inv_idle P : idle P → pipe_inv P ∅ 0.
Proof using H0.
  intros (Ha & Hs & Ht). constructor; rewrite ?Ha, ?Hs, ?Ht; try done.
  - by apply (Tracker.tracks_new low0 []).
  - intros i. split; [set_solver|]. unfold completed. rewrite Hs, Ht.
    intros [(f & t & c & b & E)|(j & t & x & E & _)]; done.
Qed.
End pipeline.

(** ** The flusher as the segmenter *)

Section flusher.
Context {T : Type} (codec : Codec T) (onDecodeFailure : option (DecodeFailure → call DecodeAction)).
Context (flushRecords flushBytes : Z) (Hfr : 1 <= flushRecords) (Hfb : 1 <= flushBytes).
Context (start : Z) (Hstart : 1 <= start < maxU64).

Local Abbreviation flusher := (flusher codec onDecodeFailure flushRecords flushBytes).

(** With the answers [got] of [Next] so far, each with the floor loaded behind
    it, the flusher may have sent [os]: whatever else it was told, they are the
    first of its outputs. *)
Definition sends (got : list reading) (os : list (@out T)) : Prop :=
  ∃ es t O seen, flusher es (initial start) = (t, O, seen) ∧ seen `prefix_of` got ∧ os `prefix_of` O.

(** The records of one run, numbered upwards from [start]; all of them together
    are fewer and smaller than an [int64] counts. *)
Record source (got : list reading) : Prop := {
  src_rising : rising (start - 1) got;
  src_count : len got < 9223372036854775808;
  src_bytes : sizes got < 9223372036854775808
}.

Lemma sizes_nonneg (l : list reading) : 0 <= sizes l.
Proof using. induction l as [|r l IH]; [done|]. unfold sizes in *. simpl. destruct r; simpl; [pose proof (len_nonneg payload)|]; lia. Qed.

Lemma sizes_group G g : g ∈ G → len g <= len (concat G) ∧ sizes g <= sizes (concat G).
Proof using.
  intros Hg. induction G as [|x G IH]; [by apply not_elem_of_nil in Hg|]. simpl. rewrite len_app, sizes_app.
  pose proof (len_nonneg x). pose proof (len_nonneg (concat G)). pose proof (sizes_nonneg x).
  pose proof (sizes_nonneg (concat G)). apply elem_of_cons in Hg as [->|Hg]; [lia|]. specialize (IH Hg). lia.
Qed.

(** The capacity of a range is that of the records it covers. *)
Lemma explained_capacity o g r :
  explains codec onDecodeFailure flushRecords flushBytes o g → rangeOf o = Some r →
  Tracker.rcount r = len g ∧ Tracker.rbytes r = sizes g.
Proof using.
  destruct o; simpl; [| |done|done].
  - intros (_ & -> & ->) [= <-]. done.
  - intros (ks & ss & -> & _ & _ & _ & _ & _ & _ & _ & -> & -> & -> & ->) [= <-]. simpl.
    by rewrite len_app, sizes_app.
Qed.

#[global] Instance flusher_segmenter got : source got → Segmenter (start - 1) (sends got).
Proof using Hfr Hfb Hstart.
  intros [Hr Hcount Hbytes]. split; intros os (es & t & O & seen & Hf & [k ->] & [O' ->]);
    apply rising_app in Hr as [Hr _];
    destruct (fresh_segments _ _ _ _ _ Hstart Hfr Hfb _ _ _ _ Hf Hr) as (G & rest & HS & HF & Ht & _).
  - rewrite ranges_app in Ht. by eapply Tracker.tiles_app_l.
  - intros i r Hi. assert (Hi' : ranges (os ++ O') !! i = Some r) by (rewrite ranges_app; by apply lookup_app_l_Some).
    destruct (lookup_lt_is_Some_2 (List.filter emits (os ++ O')) i) as [o Ho].
    { rewrite <- ranges_emits. by eapply lookup_lt_Some. }
    rewrite (ranges_lookup _ _ _ Ho) in Hi'. destruct (Forall2_lookup_l _ _ _ _ _ HF Ho) as (g & Hgi & Hx).
    destruct (explained_capacity _ _ _ Hx Hi') as [-> ->].
    destruct (sizes_group G g) as [Hl Hz]; [by eapply list_elem_of_lookup_2|].
    rewrite HS, !len_app in Hcount. rewrite HS, !sizes_app in Hbytes.
    pose proof (len_nonneg rest). pose proof (len_nonneg k). pose proof (len_nonneg g).
    pose proof (sizes_nonneg rest). pose proof (sizes_nonneg k). pose proof (sizes_nonneg g).
    split; apply i64_id; lia.
Qed.

(** ** Acknowledged means handled *)

Context (cfg : settings) (logID : bytes) (maxInFlight : Z).

Local Abbreviation pipe := (@pipe T).
Local Abbreviation kept := (kept codec onDecodeFailure).
Local Abbreviation skipped := (skipped codec onDecodeFailure).

(** A record that needs no replay: it was skipped when it was read, below the
    floor then or undecodable; or it is in a batch whose delivery counted it as
    flushed, dropped or dead-lettered, and with cause. *)
Definition delivered (P : pipe) (r : reading) : Prop :=
  ∃ t i v es x, t ∈ tasks P ∧ records (t_batch t) !! i = Some v ∧ rlsn r = id (t_batch t) + Z.of_nat i ∧ kept r v ∧
    deliver cfg (dispatch logID (t_batch t)) (t_batch t) es = (t_done t ++ t_todo t, t_status t) ∧
    x ∈ t_done t ∧ resolution (t_batch t) x ∧ grounded cfg (dispatch logID (t_batch t)) (t_batch t) es x ∧
    permitted (State.floor (buf P)) (t_batch t) x.
Definition handled (P : pipe) (r : reading) : Prop := skipped r = true ∨ delivered P r.

(** A pipe in good order, with the answers [got] read so far. *)
Definition flowing (got : list reading) (P : pipe) (k : nat) : Prop :=
  ∃ A, pipe_inv cfg logID (start - 1) P A k ∧ sends got (sent P).

Lemma flowing_idle P : idle (start - 1) P → flowing [] P 0.
Proof using Hstart.
  intros I. exists ∅. split; [apply inv_idle; [lia | done]|]. destruct I as (_ & -> & _).
  by exists [], (Again (initial start)), [], [].
Qed.

(** Another answer of [Next]. *)
Lemma flowing_more got got' P k : got `prefix_of` got' → flowing got P k → flowing got' P k.
Proof using.
  intros Hg (A & I & es & t & O & seen & Hf & Hs & HO). exists A. split; [done|].
  exists es, t, O, seen. split; [done|]. split; [by etrans | done].
Qed.

Lemma flowing_step got P P' k :
  source got → flowing got P k → step cfg logID maxInFlight (sends got) P P' →
  ∃ k', flowing got P' k' ∧ Tracker.mark (State.acks (buf P)) <= Tracker.mark (State.acks (buf P')).
Proof using Hfr Hfb Hstart.
  intros Src (A & I & Hn) Hstep. pose proof (flusher_segmenter got Src).
  destruct (pipe_step_inv cfg logID maxInFlight (start - 1) ltac:(lia) (sends got) _ _ _ _ I Hstep) as (A' & k' & Hk & I').
  exists k'. split; [exists A'; split; [done | by destruct Hstep]|].
  eapply (inv_mark cfg logID (start - 1) ltac:(lia)); [exact I | exact I' | done | by eapply sent_step].
Qed.

(** A change of the buffer's other fields. *)
Lemma flowing_same got P b' k :
  flowing got P k → State.acks b' = State.acks (buf P) → State.floor b' = State.floor (buf P) →
  flowing got (Pipe b' (sent P) (tasks P)) k.
Proof using.
  intros (A & I & Hn) Ha Hf. exists A. split; [|done]. apply inv_same; [done | done | lia].
Qed.

Lemma rising_above l : ∀ top r, rising top l → r ∈ l → top < rlsn r.
Proof using.
  induction l as [|[n p f|] l IH]; intros top r Hr Hin; [by apply not_elem_of_nil in Hin | | done].
  destruct Hr as [Hn Hr]. apply elem_of_cons in Hin as [->|Hin]; [simpl; lia|]. specialize (IH _ _ Hr Hin). lia.
Qed.

(** The records of an output that is completed are handled. *)
Lemma completed_handled P A k i o g r :
  pipe_inv cfg logID (start - 1) P A k → i ∈ A → List.filter emits (sent P) !! i = Some o →
  explains codec onDecodeFailure flushRecords flushBytes o g → r ∈ g → handled P r.
Proof using.
  intros I Hi Ho Hx Hr. apply (p_completed _ _ _ _ _ _ I) in Hi as [(f & t & c & b & E)|(j & t & y & Ht & Hti & Hy & Hc)].
  - rewrite Ho in E. injection E as ->. destruct Hx as (HF & _). rewrite Forall_forall in HF. left. by apply HF.
  - destruct (p_tasks _ _ _ _ _ _ I j t Ht) as [Hl Hd]. rewrite Hti, Ho in Hl. injection Hl as ->.
    destruct Hx as (ks & ss & -> & _ & Hks & Hcons & _ & _ & _ & Hss & _).
    apply elem_of_app in Hr as [Hr|Hr]; [|rewrite Forall_forall in Hss; left; by apply Hss]. right.
    apply list_elem_of_lookup in Hr as [n Hn]. destruct (Forall2_lookup_l _ _ _ _ _ Hks Hn) as (v & Hv & Hk).
    destruct (acknowledged_resolved _ _ t y Hd Hy Hc) as (es & x & He & Hx & Hres & Hg).
    pose proof (p_floor _ _ _ _ _ _ I j t x Ht Hx) as Hper.
    exists t, n, v, es, x. rewrite (consecutive_lookup _ _ _ _ Hcons Hn). split; [by eapply list_elem_of_lookup_2 | done].
Qed.

Lemma flowing_handled got P k r :
  source got → flowing got P k → r ∈ got → rlsn r <= Tracker.mark (State.acks (buf P)) → handled P r.
Proof using Hfr Hfb Hstart.
  intros [Hr _ _] (A & I & es & t & O & seen & Hf & [more ->] & [O' ->]) Hin Hle.
  apply rising_app in Hr as [Hr Hmore].
  pose proof (fresh_segments _ _ _ _ _ Hstart Hfr Hfb _ _ _ _ Hf Hr) as Hseg.
  pose proof (p_tracks _ _ _ _ _ _ I) as Trk. unfold Tracker.mark in Hle. rewrite (Tracker.t_low _ _ _ _ _ Trk) in Hle.
  pose proof (Tracker.t_len _ _ _ _ _ Trk) as Hk.
  assert (Et : take k (ranges (sent P)) = take k (ranges (sent P ++ O'))) by (by rewrite ranges_app, take_app_le).
  rewrite Et in Hle. assert (Hk' : (k <= length (ranges (sent P ++ O')))%nat) by (rewrite ranges_app, length_app; lia).
  assert (Hs : r ∈ seen).
  { apply elem_of_app in Hin as [?|Hin]; [done|]. exfalso. destruct Hseg as (G & rest & _ & _ & Ht & Hend & _).
    pose proof (rising_above _ _ _ Hmore Hin). pose proof (Tracker.endOf_mono (start - 1) (ranges (sent P ++ O')) k
      (length (ranges (sent P ++ O'))) ltac:(lia) Ht ltac:(lia)) as Hm. rewrite firstn_all in Hm. lia. }
  destruct (explained_below _ _ _ _ _ Hstart _ _ _ _ _ Hseg Hk' Hs Hle) as (i & o & g & Hi & Ho & Hx & Hg).
  eapply completed_handled; [exact I | by apply (Tracker.t_below _ _ _ _ _ Trk) | | exact Hx | exact Hg].
  rewrite List.filter_app in Ho. rewrite lookup_app_l in Ho; [done|]. rewrite <- ranges_emits. lia.
Qed.

(** The mark lies between where the flusher started and the last record read. *)
Lemma flowing_mark got P k :
  source got → flowing got P k →
  start - 1 <= Tracker.mark (State.acks (buf P)) <= topOf (start - 1) got.
Proof using Hfr Hfb Hstart.
  intros [Hr _ _] (A & I & es & t & O & seen & Hf & [more ->] & [O' ->]). apply rising_app in Hr as [Hr Hmore].
  destruct (fresh_segments _ _ _ _ _ Hstart Hfr Hfb _ _ _ _ Hf Hr) as (G & rest & _ & _ & Ht & Hend & _).
  pose proof (p_tracks _ _ _ _ _ _ I) as Trk. unfold Tracker.mark. rewrite (Tracker.t_low _ _ _ _ _ Trk).
  pose proof (Tracker.t_len _ _ _ _ _ Trk) as Hk.
  assert (Et : take k (ranges (sent P)) = take k (ranges (sent P ++ O'))) by (by rewrite ranges_app, take_app_le).
  assert (Hk' : (k <= length (ranges (sent P ++ O')))%nat) by (rewrite ranges_app, length_app; lia). rewrite Et.
  pose proof (Tracker.endOf_mono (start - 1) _ 0 k ltac:(lia) Ht ltac:(lia)).
  pose proof (Tracker.endOf_mono (start - 1) _ k (length (ranges (sent P ++ O'))) ltac:(lia) Ht ltac:(lia)) as Hm.
  rewrite firstn_all in Hm. simpl in *. split; [done|]. unfold topOf in *. rewrite foldl_app.
  enough (∀ l top, rising top l → top <= topOf top l) as Htop by (specialize (Htop _ _ Hmore); unfold topOf in *; lia).
  clear. induction l as [|[n p f|] l IH]; intros top Hr; [done | | done].
  destruct Hr as [Hn Hr]. specialize (IH _ Hr). unfold topOf in *. simpl in *. lia.
Qed.

Lemma topOf_cases top l : topOf top l = top ∨ ∃ r : reading, r ∈ l ∧ topOf top l = rlsn r.
Proof using.
  destruct l as [|r l _] using rev_ind; [by left|]. right. exists r. unfold topOf. rewrite foldl_app. simpl.
  split; [apply elem_of_app; right; by apply list_elem_of_singleton | done].
Qed.

Lemma flowing_run got P P' k :
  source got → flowing got P k → rtc (step cfg logID maxInFlight (sends got)) P P' → ∃ k', flowing got P' k'.
Proof using Hfr Hfb Hstart.
  intros Src F R. revert k F. induction R as [P|P P1 P2 Hs _ IH]; intros k F; [by exists k|].
  destruct (flowing_step _ _ _ _ Src F Hs) as (k1 & F1 & _). by eapply IH.
Qed.

(** C13: acknowledged means handled.  The flusher's outputs and the effects of any
    number of deliveries reach the buffer one at a time, interleaved in any way
    with each other and with writers, the checkpointer and the observer.  At any
    instant, every record read at or below the low-water mark was skipped when it
    was read, or is, under its own number and decoded, in a batch whose delivery
    has already counted it as flushed, dropped or dead-lettered: flushed or
    dead-lettered only if that sink accepted the batch, dropped by policy only if
    the floor had passed it. *)
Theorem mark_means_handled got P0 P r :
  source got → idle (start - 1) P0 → rtc (step cfg logID maxInFlight (sends got)) P0 P →
  r ∈ got → rlsn r <= Tracker.mark (State.acks (buf P)) → handled P r.
Proof using Hfr Hfb Hstart.
  intros Src I R. assert (F : flowing got P0 0) by (eapply flowing_more; [apply prefix_nil | by apply flowing_idle]).
  destruct (flowing_run _ _ _ _ Src F R) as (k & F'). by eapply flowing_handled.
Qed.

(** Every delivery has acknowledged its range. *)
Definition allAcknowledged (P : pipe) : Prop :=
  ∀ j t, tasks P !! j = Some t → ∃ x, x ∈ t_done t ∧ isCompleted x = true.

Lemma all_completed P A k : pipe_inv cfg logID (start - 1) P A k → allAcknowledged P →
  k = length (ranges (sent P)) ∧ ∀ i, (i < length (ranges (sent P)))%nat → i ∈ A.
Proof using Hstart.
  intros I Hall. assert (HA : ∀ i, (i < length (ranges (sent P)))%nat → i ∈ A).
  { intros i Hi. apply (p_completed _ _ _ _ _ _ I). rewrite ranges_emits in Hi.
    destruct (lookup_lt_is_Some_2 _ _ Hi) as [o Ho]. assert (He : emits o = true).
    { apply list_elem_of_lookup_2, list_elem_of_In, List.filter_In in Ho. tauto. }
    destruct o as [f t c n|p|why|e]; [left; by exists f, t, c, n | right | done | done].
    destruct (p_started _ _ _ _ _ _ I i p Ho) as (j & t & Ht & Hi' & _). destruct (Hall j t Ht) as (x & Hx & Hc).
    by exists j, t, x. }
  split; [|done]. pose proof (p_tracks _ _ _ _ _ _ I) as Trk. pose proof (Tracker.t_len _ _ _ _ _ Trk).
  destruct (decide (k < length (ranges (sent P)))%nat) as [Hlt|]; [|lia].
  by destruct (Tracker.t_next _ _ _ _ _ Trk (HA k Hlt)).
Qed.

Lemma flowing_drained got P k es s :
  source got → flowing got P k → flusher es (initial start) = (Return s, sent P, got) →
  (∀ e, e ∈ es → undisturbed e) → noFail (sent P) → allAcknowledged P →
  ∀ r, r ∈ got → rlsn r <= Tracker.mark (State.acks (buf P)) ∧ handled P r.
Proof using Hfr Hfb Hstart.
  intros [Hri _ _] (A & I & _) Hf Hu Hno Hall r Hr. destruct (all_completed _ _ _ I Hall) as [Hk HA].
  destruct (fresh_ended _ _ _ _ _ Hstart Hfr Hfb _ _ _ _ Hf Hri Hu Hno) as (G & HG & HF).
  rewrite HG in Hr. apply list_elem_of_In, List.in_concat in Hr as (g & Hg & Hrg).
  apply list_elem_of_In, list_elem_of_lookup in Hg as [i Hg]. apply list_elem_of_In in Hrg.
  destruct (Forall2_lookup_r _ _ _ _ _ HF Hg) as (o & Ho & Hx). destruct (explained_range _ _ _ _ _ _ _ Hx Hrg) as (rg & Hro & Hin).
  pose proof (ranges_lookup _ _ _ Ho) as Hlk. rewrite Hro in Hlk. pose proof (lookup_lt_Some _ _ _ Hlk) as Hlt.
  split; [|eapply completed_handled; [exact I | by apply HA | exact Ho | exact Hx | exact Hrg]].
  pose proof (p_tracks _ _ _ _ _ _ I) as Trk. unfold Tracker.mark. rewrite (Tracker.t_low _ _ _ _ _ Trk), Hk.
  assert (H0 : 0 <= start - 1 < maxU64) by lia.
  destruct (Tracker.tiles_bounds _ _ H0 (p_tiles _ _ _ _ _ _ I) i rg Hlk) as (_ & He & _).
  pose proof (Tracker.endOf_mono _ _ (S i) (length (ranges (sent P))) H0 (p_tiles _ _ _ _ _ _ I) ltac:(lia)). lia.
Qed.

(** C20: no more deliveries run at once than [WithMaxInFlight] allows, a later one
    is of later records than an earlier one, and with the default of 1 order is
    preserved: when a batch has been handed to a delivery, every delivery started
    before it has returned. *)
Theorem deliveries_bounded_and_ordered got P0 P :
  source got → idle (start - 1) P0 → 0 <= maxInFlight → rtc (step cfg logID maxInFlight (sends got)) P0 P →
  inFlight P <= maxInFlight ∧
  ∀ j j' t t', (j < j')%nat → tasks P !! j = Some t → tasks P !! j' = Some t' →
    rangeTo (t_batch t) < rangeFrom (t_batch t') ∧ (maxInFlight = 1 → busy t = false).
Proof using Hfr Hfb Hstart.
  intros Src I H0 R. assert (F : flowing got P0 0) by (eapply flowing_more; [apply prefix_nil | by apply flowing_idle]).
  assert (O : orderly maxInFlight P0).
  { destruct I as (_ & _ & Et). split; unfold inFlight; rewrite Et; done. }
  assert (G : ∃ A k, pipe_inv cfg logID (start - 1) P A k ∧ orderly maxInFlight P).
  { clear I. revert F O. generalize 0%nat. induction R as [P|P P1 P2 Hs _ IH]; intros k (A & I & Hn) O; [by exists A, k|].
    destruct (flowing_step _ _ _ _ Src ltac:(by exists A) Hs) as (k1 & F1 & _).
    apply (IH k1 F1). by eapply orderly_step. }
  destruct G as (A & k & I' & O'). split; [apply (o_slots _ _ O')|]. intros j j' t t' Hj Ht Ht'. split.
  - by eapply (orderly_ranges cfg logID maxInFlight (start - 1) ltac:(lia)).
  - intros H1. apply (o_last _ _ O' H1 j j'); [done | done | by eexists].
Qed.
End flusher.

(** *** A run *)

(** A delivery that runs to its end with nothing in between. *)
Lemma run_task {T} (cfg : settings) (logID : bytes) (m : Z) (next : list (@out T) → Prop) fx :
  ∀ P j i p dn st,
  tasks P !! j = Some (Task i p dn fx st) → Forall (permitted (State.floor (buf P)) p) fx →
  rtc (step cfg logID m next) P (Pipe (foldl (λ b x, State.deliveryDoes x b) (buf P) fx) (sent P)
    (<[j := Task i p (dn ++ fx) [] st]> (tasks P))).
Proof.
  induction fx as [|x fx IH]; intros [b os ts] j i p dn st Ht Hp; simpl in *.
  - rewrite app_nil_r, list_insert_id by done. apply rtc_refl.
  - apply Forall_cons in Hp as [Hx Hp]. eapply rtc_l; [by apply (step_deliver cfg logID m next (Pipe b os ts) j i p dn x fx st)|].
    etrans; [apply (IH _ j i p (dn ++ [x]) st); simpl|].
    + by rewrite list_lookup_insert_eq by (by eapply lookup_lt_Some).
    + eapply Forall_impl; [exact Hp|]. intros y. apply permitted_mono. apply (floor_act b (State.ByDelivery x)).
    + simpl. rewrite list_insert_insert_eq, <- app_assoc. apply rtc_refl.
Qed.

(** The flusher's example: its first range holds no record, its second two,
    and the sink accepts them. *)
Definition ex_cfg : settings := Settings 0 0 false None (λ _, 100) (λ _, 100).
Definition ex_batch : @pending bytes := Pending [[Byte.x61]; [Byte.x62]] 5 5 6 2 2 0 0.
Definition ex_accept : attempt_env := AttemptEnv 0 (Returned None) false 0 false [].
Definition ex_fx : list (@effect bytes) := Eval vm_compute in (deliver ex_cfg (dispatch [] ex_batch) ex_batch [ex_accept]).1.
Definition ex_start : @pipe bytes := Pipe (State.opened 3 State.noObserver 0 5 4) [] [].
Definition ex_1 : @pipe bytes := Pipe (State.flusherDoes (T := bytes) (OComplete 4 4 0 0) (buf ex_start)) [OComplete 4 4 0 0] [].
Definition ex_2 : @pipe bytes :=
  Pipe (buf ex_1) [OComplete 4 4 0 0; ODispatch ex_batch] [Task 1 ex_batch [] ex_fx Finished].
Definition ex_end : @pipe bytes :=
  Pipe (foldl (λ b x, State.deliveryDoes x b) (buf ex_2) ex_fx) (sent ex_2) [Task 1 ex_batch ex_fx [] Finished].

Lemma ex_source : source 4 ex_reads.
Proof. split; [exact ex_rising | by vm_compute | by vm_compute]. Qed.

Lemma ex_sends os : os `prefix_of` ex_outs → sends ex_codec None 2 100 4 ex_reads os.
Proof. intros H. exists ex_envs, ex_turn, ex_outs, ex_seen. split; [exact ex_run | done]. Qed.

Lemma ex_steps : rtc (step ex_cfg [] 1 (sends ex_codec None 2 100 4 ex_reads)) ex_start ex_end.
Proof.
  assert (S1 : step ex_cfg [] 1 (sends ex_codec None 2 100 4 ex_reads) ex_start ex_1).
  { apply (step_send ex_cfg [] 1 _ ex_start (OComplete 4 4 0 0)); [apply ex_sends; by eexists | done]. }
  assert (S2 : step ex_cfg [] 1 (sends ex_codec None 2 100 4 ex_reads) ex_1 ex_2).
  { apply (step_dispatch ex_cfg [] 1 _ ex_1 ex_batch [ex_accept] ex_fx Finished);
      [apply ex_sends; by eexists | by vm_compute | by vm_compute]. }
  eapply rtc_l; [exact S1|]. eapply rtc_l; [exact S2|].
  apply (run_task ex_cfg [] 1 _ ex_fx ex_2 0 1 ex_batch [] Finished); [done|]. repeat constructor.
Qed.

Lemma mark_means_handled_witness :
  Tracker.mark (State.acks (buf ex_end)) = 6 ∧ handled ex_codec None ex_cfg [] ex_end (Got 6 [Byte.x62] 0).
Proof.
  split; [by vm_compute|].
  apply (mark_means_handled ex_codec None 2 100 ltac:(lia) ltac:(lia) 4 ltac:(unfold maxU64; lia) ex_cfg [] 1
    ex_reads ex_start ex_end (Got 6 [Byte.x62] 0) ex_source); [done | exact ex_steps | unfold ex_reads; set_solver | by vm_compute].
Defined.

(** The run goes on to the second batch. *)
Definition ex_batch2 : @pending bytes := Pending [[Byte.x63]] 9 9 10 1 1 1 0.
Definition ex_fx2 : list (@effect bytes) :=
  Eval vm_compute in (deliver ex_cfg (dispatch [] ex_batch2) ex_batch2 [ex_accept]).1.
Definition ex_3 : @pipe bytes :=
  Pipe (State.flusherDoes (T := bytes) (OComplete 7 8 0 0) (buf ex_end)) (sent ex_end ++ [OComplete 7 8 0 0]) (tasks ex_end).
Definition ex_4 : @pipe bytes :=
  Pipe (State.flusherDoes (T := bytes) (ODrop ReasonDecode) (buf ex_3)) (sent ex_3 ++ [ODrop ReasonDecode]) (tasks ex_end).
Definition ex_5 : @pipe bytes :=
  Pipe (buf ex_4) (sent ex_4 ++ [ODispatch ex_batch2]) (tasks ex_end ++ [Task 3 ex_batch2 [] ex_fx2 Finished]).

Lemma ex_more_steps : rtc (step ex_cfg [] 1 (sends ex_codec None 2 100 4 ex_reads)) ex_start ex_5.
Proof.
  etrans; [exact ex_steps|].
  eapply rtc_l; [apply (step_send ex_cfg [] 1 _ ex_end (OComplete 7 8 0 0)); [apply ex_sends; by eexists | done]|].
  eapply rtc_l; [apply (step_send ex_cfg [] 1 _ ex_3 (ODrop ReasonDecode)); [apply ex_sends; by eexists | done]|].
  apply rtc_once. apply (step_dispatch ex_cfg [] 1 _ ex_4 ex_batch2 [ex_accept] ex_fx2 Finished);
    [apply ex_sends; by eexists | by vm_compute | by vm_compute].
Qed.

Lemma deliveries_bounded_and_ordered_witness :
  inFlight ex_5 <= 1 ∧ rangeTo ex_batch < rangeFrom ex_batch2 ∧ busy (Task 1 ex_batch ex_fx [] Finished) = false.
Proof.
  destruct (deliveries_bounded_and_ordered ex_codec None 2 100 ltac:(lia) ltac:(lia) 4 ltac:(unfold maxU64; lia) ex_cfg [] 1
    ex_reads ex_start ex_5 ex_source ltac:(done) ltac:(lia) ex_more_steps) as [H1 H2].
  split; [exact H1|].
  destruct (H2 0%nat 1%nat (Task 1 ex_batch ex_fx [] Finished) (Task 3 ex_batch2 [] ex_fx2 Finished) ltac:(lia) eq_refl eq_refl) as [H3 H4].
  exact (conj H3 (H4 eq_refl)).
Defined.

End Pipeline.
