(* ===== verification/Live.v ===== *)
(** * The running buffer (src/batch.go, src/flush.go, src/internal/wal)

    The log (LogSteps.v), the flusher's reader (Tail.v), the flusher with its
    deliveries (Pipeline.v) and the checkpointer run side by side, and every call
    on the disk may fail.  Nothing that was acknowledged to a writer is lost: at
    any instant each such record has been handled, or is in the log above the
    checkpoint on disk, where the next Open resumes. *)

From stdpp Require Import strings sorting.
From S2P Require Import Prelude Errors Record Disk Segment MarkFiles Log LogInv Frame LogSteps Reader Tail Tracker Sink Flusher Delivery State Buffer Pipeline.
Local Open Scope Z_scope.
Local Open Scope go_scope.

Module Live.
Import Segment Log LogInv LogSteps Sink.

(** ** The log's own operations and the checkpoint *)

Definition checkpointFile (s : sys) : option bytes := Frame.fileIn MarkFiles.checkpointName (sw s).

Lemma segment_not_checkpoint b p : segmentName b p ≠ MarkFiles.checkpointName.
Proof. intros E. apply (f_equal length) in E. by rewrite length_segmentName in E. Qed.

Lemma checkpoint_spared R {Sp : Frame.Sparing MarkFiles.checkpointName R} {init s s' gs pa fly st junk h flown old} :
  good init s gs pa fly st junk h flown old → running s s' → R (dk (sw s)) (dk (sw s')).
Proof.
  intros G. pose proof (i_core _ _ _ _ _ _ _ _ _ _ G) as C.
  assert (Ha : path (active (log_of s)) ≠ MarkFiles.checkpointName).
  { unfold log_of. rewrite (rep_path _ _ _ _ _ (c_active _ _ _ _ _ _ _ C)). apply segment_not_checkpoint. }
  apply (running_spares MarkFiles.checkpointName R).
  - intros ps r w'. apply (Frame.sp_AppendBatchAsync MarkFiles.checkpointName R ps); by vm_compute.
  - intros j _ _. apply segment_not_checkpoint.
  - intros b. by apply Frame.sp_write.
  - by apply Frame.sp_truncate.
Qed.

Lemma running_checkpoint {init s s' gs pa fly st junk h flown old} :
  good init s gs pa fly st junk h flown old → running s s' → checkpointFile s' = checkpointFile s.
Proof. intros G H. exact (checkpoint_spared (Frame.same_contents MarkFiles.checkpointName) G H). Qed.

Lemma checkpointIn_file w w' :
  Frame.fileIn MarkFiles.checkpointName w' = Frame.fileIn MarkFiles.checkpointName w → checkpointIn w' = checkpointIn w.
Proof. unfold checkpointIn, MarkFiles.markIn, Frame.fileIn, Frame.fileOf. by intros ->. Qed.

Lemma Truncate_checkpoint w gs pa fly st junk h u r w' :
  core w gs pa fly st junk h → Truncate u w = (r, w') → checkpointIn w' = checkpointIn w.
Proof.
  intros C H. destruct (Buffer.Truncate_files _ _ _ _ H) as [Hf _]. apply checkpointIn_file, Hf.
  intros s Hs. exact (Buffer.sealed_not_checkpoint _ _ _ _ _ _ _ _ C Hs).
Qed.

(** ** The system *)

(** Where the checkpointer is inside [persist]: it has read the mark, or has
    written it. *)
Inductive saving := Resting | Marked (m : Z) | Saved (m : Z).

Section live.
Context {T : Type} (codec : Codec T) (onDecodeFailure : option (DecodeFailure → call DecodeAction)).
Context (flushRecords flushBytes : Z) (Hfr : 1 <= flushRecords) (Hfb : 1 <= flushBytes).
Context (cfg : Delivery.settings) (logID : bytes) (maxInFlight : Z).
Context (start : Z) (Hstart : 1 <= start < maxU64).

(** Where the reader starts: the flusher's [start], or the first number behind
    the gap that it lies in. *)
Context (first : Z).

Local Abbreviation sends := (Pipeline.sends codec onDecodeFailure flushRecords flushBytes start).
Local Abbreviation flowing := (Pipeline.flowing codec onDecodeFailure flushRecords flushBytes start cfg logID).
Local Abbreviation handled := (Pipeline.handled codec onDecodeFailure cfg logID).

(** [got]: what the reader has returned, each record with the floor loaded
    behind it. *)
Record live := Live {
  lsys : sys; rd : Reader.reader; got : list Flusher.reading; flow : @Pipeline.pipe T; save : saving
}.

Definition theBuf (L : live) : State.buffer := Pipeline.buf (flow L).
Definition mark (L : live) : Z := Tracker.mark (State.acks (theBuf L)).
Definition withBuf (b : State.buffer) (P : @Pipeline.pipe T) : @Pipeline.pipe T :=
  Pipeline.Pipe b (Pipeline.sent P) (Pipeline.tasks P).

(** The reading [Next] hands to the flusher. *)
Definition readings (fl : Z) (res : result (Z * bytes)) : list Flusher.reading :=
  match res with Ok (lsn, p) => [Flusher.Got lsn p fl] | Fail _ => [] end.

Inductive step : live → live → Prop :=
| live_log L s' :
    running (lsys L) s' → step L (Live s' (rd L) (got L) (flow L) (save L))
| live_next L E res r' :
    Tail.dir_truthful E (Disk.view (dk (sw (lsys L)))) →
    Reader.Next E (maxRecordBytes (opts (log_of (lsys L)))) (log_of (lsys L)) (rd L) = (res, r') →
    step L (Live (lsys L) r' (got L ++ readings (State.floor (theBuf L)) res) (flow L) (save L))
| live_flow L P' :
    Pipeline.step cfg logID maxInFlight (sends (got L)) (flow L) P' →
    step L (Live (lsys L) (rd L) (got L) P' (save L))
| live_mark L :
    save L = Resting → mark L ≠ 0 → mark L ≠ State.lastCP (theBuf L) →
    step L (Live (lsys L) (rd L) (got L) (flow L) (Marked (mark L)))
| live_save L m r d' :
    save L = Marked m → MarkFiles.WriteCheckpoint m (dk (sw (lsys L))) = (r, d') →
    step L (Live (Sys (World (log_of (lsys L)) d') (ph (lsys L)) (staged (lsys L)) (upto (lsys L))) (rd L) (got L)
      (match r with Ok _ => flow L | Fail e => withBuf (Buffer.checkpointFailed e (theBuf L)) (flow L) end)
      (match r with Ok _ => Saved m | Fail _ => Resting end))
| live_cut L m r w' :
    save L = Saved m → Truncate (m +u 1) (sw (lsys L)) = (r, w') →
    step L (Live (Sys w' (ph (lsys L)) (staged (lsys L)) (Z.max (m +u 1) (upto (lsys L)))) (rd L) (got L)
      (withBuf (match r with Ok _ => Buffer.persisted m (theBuf L) | Fail e => Buffer.truncateFailed e (theBuf L) end) (flow L))
      Resting).

(** ** The invariant *)

Definition strip (r : Flusher.reading) : Z * bytes :=
  match r with Flusher.Got l p _ => (l, p) | Flusher.NotGot _ => (0, []) end.

(** Each reading is a record with a floor the buffer had. *)
Definition floored (fl : Z) (r : Flusher.reading) : Prop :=
  match r with Flusher.Got _ _ f => f <= fl | Flusher.NotGot _ => False end.

(** The records acknowledged or published since the log was opened. *)
Definition since (s : sys) : list (Z * bytes) :=
  acknowledged (log_of s) (staged s) ++ published (ph s) (staged s).

(** [cp0] is the checkpoint found at opening: nothing written since is at or
    below it, nor below where the reader started. *)
Record live_inv (init : list (Z * bytes)) (cp0 : Z) (L : live) (k : nat) : Prop := {
  l_tail : Tail.tail_inv init first (lsys L) (rd L) (strip <$> got L);
  l_got : Forall (floored (State.floor (theBuf L))) (got L);
  l_flow : flowing (got L) (flow L) k;
  l_checkpoint : ∀ cp, checkpointIn (sw (lsys L)) = Some cp → cp <= mark L ∨ cp <= cp0;
  l_upto : upto (lsys L) <= mark L + 1;
  l_save : match save L with Resting => True | Marked m | Saved m => 0 <= m <= mark L end;
  l_new : ∀ e, e ∈ since (lsys L) → cp0 < e.1 ∧ first <= e.1;
  l_front : cp0 < frontier (log_of (lsys L)) ∧ first <= frontier (log_of (lsys L));
  l_first : start <= first
}.

(** What one run reads is less than an [int64] counts. *)
Definition small (L : live) : Prop :=
  len (got L) < 9223372036854775808 ∧ Flusher.sizes (got L) < 9223372036854775808.

Lemma rising_sorted fl l : ∀ top, Forall (floored fl) l → StronglySorted Z.lt (strip <$> l).*1 →
  Forall (λ e, top < e.1 < maxU64) (strip <$> l) → Flusher.rising top l.
Proof using.
  induction l as [|[n p f|] l IH]; intros top Hg Hs Hr; [done | | by apply Forall_cons in Hg as [? _]].
  apply Forall_cons in Hg as [_ Hg]. csimpl in *. apply StronglySorted_cons in Hs as [Hn Hs].
  apply Forall_cons in Hr as [Hnr Hr]. simpl in *. split; [done|]. apply IH; [done | done|].
  rewrite Forall_fmap in Hn. rewrite Forall_forall in Hn, Hr |- *. intros e He.
  specialize (Hn e He). specialize (Hr e He). simpl in *. lia.
Qed.

Lemma window_sorted a b es : StronglySorted Z.lt es.*1 → StronglySorted Z.lt (Tail.window a b es).*1.
Proof using.
  unfold Tail.window. induction es as [|e es IH]; [done|]. csimpl. intros [Hs Hf]%StronglySorted_inv.
  rewrite filter_cons. case_decide; [|by apply IH]. csimpl. constructor; [by apply IH|].
  rewrite Forall_fmap in Hf |- *. apply Forall_forall. intros x [_ Hx]%list_elem_of_filter.
  rewrite Forall_forall in Hf. by apply Hf.
Qed.

Lemma live_source init cp0 L k : live_inv init cp0 L k → small L → Pipeline.source start (got L).
Proof using.
  intros I [H1 H2]. split; [|done|done].
  destruct (l_tail _ _ _ _ I) as (gs & pa & fly & st & junk & h & flown & old & G & K).
  apply (rising_sorted (State.floor (theBuf L))); [apply (l_got _ _ _ _ I) | |];
    rewrite (Tail.t_got _ _ _ _ _ _ _ K); [apply window_sorted, (Tail.history_sorted G)|].
  pose proof (l_first _ _ _ _ I). apply Forall_forall. intros e [He _]%list_elem_of_filter. pose proof (frontier_max G).
  destruct (Tail.t_within _ _ _ _ _ _ _ K) as (t & ps & Hin & Hle). pose proof (frontier_top G t ps Hin). lia.
Qed.

(** The mark is below the reader's cursor. *)
Lemma live_mark_below init cp0 L k : live_inv init cp0 L k → small L →
  start - 1 <= mark L < Reader.nextLSN (rd L).
Proof using Hfr Hfb Hstart.
  intros I Hsm. pose proof (live_source _ _ _ _ I Hsm) as Src.
  destruct (Pipeline.flowing_mark _ _ _ _ Hfr Hfb _ Hstart _ _ _ _ _ Src (l_flow _ _ _ _ I)) as [H1 H2].
  split; [done|]. destruct (l_tail _ _ _ _ I) as (gs & pa & fly & st & junk & h & flown & old & G & K).
  destruct (Pipeline.topOf_cases (start - 1) (got L)) as [E|(r & Hr & E)]; unfold mark, theBuf.
  - pose proof (Tail.t_start _ _ _ _ _ _ _ K). pose proof (l_first _ _ _ _ I). lia.
  - apply (list_elem_of_fmap_2 strip) in Hr. rewrite (Tail.t_got _ _ _ _ _ _ _ K) in Hr.
    apply list_elem_of_filter in Hr as [Hr _]. rewrite E in H2.
    assert (E' : Flusher.rlsn r = (strip r).1) by (by destruct r). lia.
Qed.

(** What a step of the log leaves of the invariant; its bound on truncation
    must stay at or below the cursor. *)
Lemma log_side init cp0 L k s' :
  live_inv init cp0 L k → LogSteps.step (lsys L) s' → upto s' <= Reader.nextLSN (rd L) →
  Tail.tail_inv init first s' (rd L) (strip <$> got L) ∧
  (∀ e, e ∈ since s' → cp0 < e.1 ∧ first <= e.1) ∧ (cp0 < frontier (log_of s') ∧ first <= frontier (log_of s')).
Proof using.
  intros I Hs Hu. pose proof (l_front _ _ _ _ I) as [Hc1 Hc2].
  destruct (l_tail _ _ _ _ I) as (gs & pa & fly & st & junk & h & flown & old & G & K).
  split; [eapply Tail.tail_inv_log; [by apply (l_tail _ _ _ _ I) | done | done]|]. split.
  - destruct (Tail.history_step G Hs) as (new & E & Hb). unfold Tail.history in E. rewrite <- app_assoc in E.
    apply app_inv_head in E. unfold since. rewrite E. intros e He.
    apply elem_of_app in He as [He|He]; [by apply (l_new _ _ _ _ I)|].
    destruct (frontier_book G) as (ps & Hin & Hf). specialize (Hb _ _ _ Hin He). lia.
  - pose proof (frontier_step G s' Hs). lia.
Qed.

Lemma inv_log init cp0 L k s' :
  live_inv init cp0 L k → small L → running (lsys L) s' → live_inv init cp0 (Live s' (rd L) (got L) (flow L) (save L)) k.
Proof using Hfr Hfb Hstart.
  intros I Hsm Hs. pose proof (live_mark_below _ _ _ _ I Hsm) as Hm. pose proof (running_upto _ _ Hs) as Hu.
  pose proof (l_upto _ _ _ _ I). destruct (log_side _ _ _ _ _ I (step_running _ _ Hs) ltac:(lia)) as (H1 & H2 & H3).
  destruct (l_tail _ _ _ _ I) as (gs & pa & fly & st & junk & h & flown & old & G & _).
  pose proof (running_checkpoint G Hs) as Hcp. destruct I. split; try done.
  - simpl. rewrite (checkpointIn_file _ _ Hcp). apply l_checkpoint0.
  - simpl. by rewrite Hu.
Qed.

Lemma inv_next init cp0 L k E res r' :
  live_inv init cp0 L k → Tail.dir_truthful E (Disk.view (dk (sw (lsys L)))) →
  Reader.Next E (maxRecordBytes (opts (log_of (lsys L)))) (log_of (lsys L)) (rd L) = (res, r') →
  live_inv init cp0 (Live (lsys L) r' (got L ++ readings (State.floor (theBuf L)) res) (flow L) (save L)) k.
Proof using.
  intros I Ht Hn. pose proof (Tail.tail_inv_next _ _ _ _ _ _ _ _ (l_tail _ _ _ _ I) Ht Hn) as Tn.
  destruct I. split; try done.
  - simpl. rewrite fmap_app. by destruct res as [[lsn p]|e].
  - simpl. apply Forall_app. split; [done|]. destruct res as [[lsn p]|e]; simpl; [|done].
    constructor; [unfold theBuf; simpl; lia | done].
  - simpl. by eapply Pipeline.flowing_more, l_flow0; eexists.
Qed.

Lemma inv_flow init cp0 L k P' :
  live_inv init cp0 L k → small L → Pipeline.step cfg logID maxInFlight (sends (got L)) (flow L) P' →
  ∃ k', live_inv init cp0 (Live (lsys L) (rd L) (got L) P' (save L)) k'.
Proof using Hfr Hfb Hstart.
  intros I Hsm Hs. pose proof (live_source _ _ _ _ I Hsm) as Src.
  destruct (Pipeline.flowing_step _ _ _ _ Hfr Hfb _ Hstart _ _ _ _ _ _ _ Src (l_flow _ _ _ _ I) Hs) as (k' & F' & Hm).
  pose proof (Pipeline.floor_step _ _ _ _ _ _ Hs) as Hfl. exists k'. destruct I. unfold mark, theBuf in *.
  split; unfold mark, theBuf; simpl in *; try done.
  - eapply Forall_impl; [exact l_got0|]. intros [l p f|e]; simpl; [lia | done].
  - intros cp Hcp. specialize (l_checkpoint0 cp Hcp). lia.
  - lia.
  - destruct (save L); lia || done.
Qed.

Lemma inv_buf init cp0 L k b' sv :
  live_inv init cp0 L k → State.acks b' = State.acks (theBuf L) → State.floor b' = State.floor (theBuf L) →
  match sv with Resting => True | Marked m | Saved m => 0 <= m <= mark L end →
  live_inv init cp0 (Live (lsys L) (rd L) (got L) (withBuf b' (flow L)) sv) k.
Proof using.
  intros [] Ha Hf Hsv. unfold mark, theBuf in *. split; unfold mark, theBuf; simpl; rewrite ?Ha, ?Hf; try done.
  by apply Pipeline.flowing_same.
Qed.

Lemma save_bounds init cp0 L k m :
  live_inv init cp0 L k → small L → save L = Marked m ∨ save L = Saved m → is_u64 m ∧ is_u64 (m + 1) ∧ m <= mark L.
Proof using Hfr Hfb Hstart.
  intros I Hsm Hs. pose proof (live_mark_below _ _ _ _ I Hsm) as Hm. pose proof (l_save _ _ _ _ I) as Hl.
  destruct (l_tail _ _ _ _ I) as (gs & pa & fly & st & junk & h & flown & old & G & K).
  destruct (Tail.t_within _ _ _ _ _ _ _ K) as (t & ps & Hin & Hle). pose proof (frontier_top G t ps Hin).
  pose proof (frontier_max G). unfold is_u64, maxU64 in *. destruct Hs as [E|E]; rewrite E in Hl; lia.
Qed.

Lemma failed_acks e b : State.acks (Buffer.checkpointFailed e b) = State.acks b ∧
  State.floor (Buffer.checkpointFailed e b) = State.floor b ∧ State.acks (Buffer.truncateFailed e b) = State.acks b ∧
  State.floor (Buffer.truncateFailed e b) = State.floor b.
Proof using. done. Qed.

Lemma persisted_acks m b :
  State.acks (Buffer.persisted m b) = State.acks b ∧ State.floor (Buffer.persisted m b) = State.floor b.
Proof using.
  unfold Buffer.persisted, State.checkpointed. simpl. by rewrite Pipeline.acks_emit, Pipeline.floor_emit.
Qed.

(** The checkpoint only ever says what the mark already covers. *)
Lemma inv_save init cp0 L k m r d' :
  live_inv init cp0 L k → small L → save L = Marked m → MarkFiles.WriteCheckpoint m (dk (sw (lsys L))) = (r, d') →
  live_inv init cp0 (Live (Sys (World (log_of (lsys L)) d') (ph (lsys L)) (staged (lsys L)) (upto (lsys L))) (rd L) (got L)
    (flow L) (match r with Ok _ => Saved m | Fail _ => Resting end)) k.
Proof using Hfr Hfb Hstart.
  intros I Hsm Hsv H. destruct (save_bounds _ _ _ _ m I Hsm ltac:(by left)) as (Hu & _ & Hm).
  pose proof (live_mark_below _ _ _ _ I Hsm) as Hb. pose proof (l_upto _ _ _ _ I) as Hup.
  destruct (log_side _ _ _ _ _ I (step_checkpoint _ _ _ _ Hu H) ltac:(simpl; lia)) as (H1 & H2 & H3).
  destruct (l_tail _ _ _ _ I) as (gs & pa & fly & st & junk & h & flown & old & G & _).
  pose proof (i_core _ _ _ _ _ _ _ _ _ _ G) as C.
  destruct (core_writeCheckpoint _ _ _ _ _ _ _ _ _ _ C Hu H) as (_ & Hk & _).
  pose proof (l_save _ _ _ _ I) as Hl. rewrite Hsv in Hl. destruct I. split; try done.
  - simpl. intros cp Hcp. destruct Hk as [Hk|Hk]; unfold log_of in *; rewrite Hk in Hcp; [by apply l_checkpoint0|].
    injection Hcp as <-. by left.
  - simpl. by destruct r.
Qed.

Lemma inv_cut init cp0 L k m r w' :
  live_inv init cp0 L k → small L → save L = Saved m → Truncate (m +u 1) (sw (lsys L)) = (r, w') →
  live_inv init cp0 (Live (Sys w' (ph (lsys L)) (staged (lsys L)) (Z.max (m +u 1) (upto (lsys L)))) (rd L) (got L)
    (flow L) Resting) k.
Proof using Hfr Hfb Hstart.
  intros I Hsm Hsv H. destruct (save_bounds _ _ _ _ m I Hsm ltac:(by right)) as (_ & Hu & Hm).
  pose proof (live_mark_below _ _ _ _ I Hsm) as Hb. pose proof (l_upto _ _ _ _ I) as Hup.
  assert (E : m +u 1 = m + 1) by (by apply u64_id).
  destruct (log_side _ _ _ _ _ I (step_truncate _ _ _ _ H) ltac:(simpl; lia)) as (H1 & H2 & H3).
  destruct (l_tail _ _ _ _ I) as (gs & pa & fly & st & junk & h & flown & old & G & _).
  pose proof (Truncate_checkpoint _ _ _ _ _ _ _ _ _ _ (i_core _ _ _ _ _ _ _ _ _ _ G) H) as Hcp.
  destruct I. split; try done; simpl.
  - rewrite Hcp. apply l_checkpoint0.
  - change (mark L) with (Tracker.mark (State.acks (theBuf L))) in *. unfold mark, theBuf in *. simpl. lia.
Qed.

Lemma live_step init cp0 L L' k : live_inv init cp0 L k → small L → step L L' → ∃ k', live_inv init cp0 L' k'.
Proof using Hfr Hfb Hstart.
  intros I Hsm Hs.
  destruct Hs as [L s' Hs|L E res r' Ht Hn|L P' Hs|L Hr H0 Hl|L m r d' Hsv H|L m r w' Hsv H].
  - exists k. by apply inv_log.
  - exists k. by apply (inv_next _ _ _ _ E).
  - by eapply inv_flow.
  - exists k. pose proof (live_mark_below _ _ _ _ I Hsm). destruct I. split; try done. simpl. unfold mark, theBuf in *. simpl. lia.
  - exists k. pose proof (inv_save _ _ _ _ _ _ _ I Hsm Hsv H) as I'. destruct r as [u|e]; [done|].
    apply (inv_buf _ _ _ _ (Buffer.checkpointFailed e (theBuf L)) Resting I'); apply failed_acks || done.
  - exists k. pose proof (inv_cut _ _ _ _ _ _ _ I Hsm Hsv H) as I'. destruct r as [u|e].
    + by apply (inv_buf _ _ _ _ (Buffer.persisted m (theBuf L)) Resting I'); try apply persisted_acks.
    + apply (inv_buf _ _ _ _ (Buffer.truncateFailed e (theBuf L)) Resting I'); apply failed_acks || done.
Qed.

Lemma got_grows L L' : step L L' → ∃ more, got L' = got L ++ more.
Proof using. destruct 1; simpl; try (exists []; by rewrite app_nil_r). by eexists. Qed.

Lemma small_back L L' : step L L' → small L' → small L.
Proof using.
  intros Hs [H1 H2]. destruct (got_grows _ _ Hs) as [more E]. unfold small. rewrite E in H1, H2.
  rewrite len_app in H1. rewrite Flusher.sizes_app in H2.
  pose proof (len_nonneg more). pose proof (Pipeline.sizes_nonneg more). lia.
Qed.

Lemma small_run L L' : rtc step L L' → small L' → small L.
Proof using. induction 1 as [|x y z Hs _ IH]; [done|]. intros Hsm. by eapply small_back, IH. Qed.

Lemma live_run init cp0 L L' : rtc step L L' → ∀ k, live_inv init cp0 L k → small L' → ∃ k', live_inv init cp0 L' k'.
Proof using Hfr Hfb Hstart.
  induction 1 as [L|L L1 L2 Hs R IH]; intros k I Hsm; [by exists k|].
  pose proof (small_run _ _ R Hsm) as Hsm1.
  destruct (live_step _ _ _ _ _ I (small_back _ _ Hs Hsm1) Hs) as (k1 & I1). by apply (IH k1).
Qed.

(** ** Opening *)

(** As [Open] leaves it, from a log [w0] and a mark below [start]: a reader at
    [first], an idle pipeline, and every record above the checkpoint [cp0] still
    to be delivered. *)
Record opened (w0 : world) (gs0 : list (list bytes)) (pa0 : list bytes) (cp0 : Z) (L : live) : Prop := {
  o_fresh : fresh w0 gs0 pa0;
  o_sys : lsys L = Sys w0 Idle [] 0;
  o_reader : Reader.NewReader (lg w0) start = Ok (rd L) ∧ Reader.nextLSN (rd L) = first;
  o_got : got L = [];
  o_idle : Pipeline.idle (start - 1) (flow L);
  o_save : save L = Resting;
  o_first : start <= first <= frontier (lg w0);
  o_checkpoint : Buffer.covered w0 cp0;
  o_head : FirstPrevEnd (lg w0) <= start - 1;
  o_resume : ∀ e, e ∈ all_records (lg w0) gs0 pa0 → cp0 < e.1 → first <= e.1;
  o_front : cp0 < frontier (lg w0)
}.

Lemma live_opened w0 gs0 pa0 cp0 L : opened w0 gs0 pa0 cp0 L → live_inv (all_records (lg w0) gs0 pa0) cp0 L 0.
Proof using Hstart.
  intros [F Es [Hn Hst] Eg Hi Esv Hle [Hcp _] _ Hres Hfr0].
  assert (Hm : mark L = start - 1) by (destruct Hi as (Ha & _); unfold mark, theBuf; by rewrite Ha).
  split; rewrite ?Es, ?Eg, ?Esv, ?Hm; try done.
  - rewrite <- Hst. apply (Tail.tail_inv_new w0 gs0 pa0 _ start); try done; simpl; [constructor | lia | rewrite Hst; tauto].
  - by apply Pipeline.flowing_idle.
  - intros cp. simpl. rewrite Hcp. intros [= <-]. by right.
  - simpl. lia.
  - intros e He. by apply not_elem_of_nil in He.
  - simpl. tauto.
  - tauto.
Qed.

(** ** What a run guarantees *)

Lemma run_inv w0 gs0 pa0 cp0 L0 L :
  opened w0 gs0 pa0 cp0 L0 → rtc step L0 L → small L → ∃ k, live_inv (all_records (lg w0) gs0 pa0) cp0 L k.
Proof using Hfr Hfb Hstart. intros O R Hsm. eapply live_run; [exact R | by apply live_opened | done]. Qed.

(** A record of the log's history at or below the mark has been read and
    handled. *)
Lemma below_mark_handled init cp0 L k e :
  live_inv init cp0 L k → small L → e ∈ Tail.history init (lsys L) → first <= e.1 <= mark L →
  ∃ f, f <= State.floor (theBuf L) ∧ Flusher.Got e.1 e.2 f ∈ got L ∧ handled (flow L) (Flusher.Got e.1 e.2 f).
Proof using Hfr Hfb Hstart.
  intros I Hsm He Hle. pose proof (live_mark_below _ _ _ _ I Hsm) as Hm.
  destruct (l_tail _ _ _ _ I) as (gs & pa & fly & st & junk & h & flown & old & G & K).
  assert (Hin : e ∈ strip <$> got L).
  { rewrite (Tail.t_got _ _ _ _ _ _ _ K). apply list_elem_of_filter. split; [lia | done]. }
  apply list_elem_of_fmap in Hin as (r & -> & Hr). pose proof (l_got _ _ _ _ I) as Hg.
  rewrite Forall_forall in Hg. specialize (Hg r Hr). destruct r as [l p f|err]; [|done]. exists f.
  split; [done|]. split; [done|].
  apply (Pipeline.flowing_handled _ _ _ _ Hfr Hfb _ Hstart _ _ _ _ _ _ (live_source _ _ _ _ I Hsm) (l_flow _ _ _ _ I)); [done|].
  exact (proj2 Hle).
Qed.

Lemma live_history init cp0 L k L' : live_inv init cp0 L k → step L L' →
  ∃ new, Tail.history init (lsys L') = Tail.history init (lsys L) ++ new.
Proof using.
  intros I Hs. destruct (l_tail _ _ _ _ I) as (gs & pa & fly & st & junk & h & flown & old & G & _).
  assert (Hst : ∀ s', LogSteps.step (lsys L) s' → ∃ new, Tail.history init s' = Tail.history init (lsys L) ++ new).
  { intros s' H. destruct (Tail.history_step G H) as (new & E & _). by exists new. }
  destruct Hs as [L s' Hs|L E res r' Ht Hn|L P' Hs|L Hr H0 Hl|L m r d' Hsv H|L m r w' Hsv H];
    try (exists []; by rewrite app_nil_r); simpl; apply Hst.
  - by apply step_running.
  - by eapply step_truncate.
Qed.

Lemma run_history init cp0 L L' : rtc step L L' → ∀ k, live_inv init cp0 L k → small L' →
  ∀ e, e ∈ Tail.history init (lsys L) → e ∈ Tail.history init (lsys L').
Proof using Hfr Hfb Hstart.
  induction 1 as [L|L L1 L2 Hs R IH]; intros k I Hsm e He; [done|].
  pose proof (small_run _ _ R Hsm) as Hsm1.
  pose proof (small_back _ _ Hs Hsm1) as Hsm0. destruct (live_step _ _ _ _ _ I Hsm0 Hs) as (k1 & I1).
  apply (IH k1); [done | done|]. destruct (live_history _ _ _ _ _ I Hs) as (new & ->). apply elem_of_app. by left.
Qed.

(** A record the buffer answers for: present at opening above the checkpoint, or
    written since. *)
Definition owed (init : list (Z * bytes)) (cp0 : Z) (new : list (Z * bytes)) (e : Z * bytes) : Prop :=
  e ∈ init ∧ cp0 < e.1 ∨ e ∈ new.

Lemma owed_bounds w0 gs0 pa0 cp0 L0 L k e :
  opened w0 gs0 pa0 cp0 L0 → live_inv (all_records (lg w0) gs0 pa0) cp0 L k →
  owed (all_records (lg w0) gs0 pa0) cp0 (since (lsys L)) e →
  cp0 < e.1 ∧ first <= e.1 ∧ e ∈ Tail.history (all_records (lg w0) gs0 pa0) (lsys L).
Proof using Hstart.
  intros O I He. unfold Tail.history. fold (since (lsys L)). rewrite elem_of_app. destruct He as [[He Hc]|He].
  - pose proof (o_resume _ _ _ _ _ O e He Hc). tauto.
  - pose proof (l_new _ _ _ _ I e He). tauto.
Qed.

(** Every record answered for has been handled, or will be delivered yet. *)
Lemma below_or_held w0 gs0 pa0 cp0 L0 L e :
  opened w0 gs0 pa0 cp0 L0 → rtc step L0 L → small L →
  owed (all_records (lg w0) gs0 pa0) cp0
    (since (lsys L)) e →
  (∃ f, f <= State.floor (theBuf L) ∧ Flusher.Got e.1 e.2 f ∈ got L ∧ handled (flow L) (Flusher.Got e.1 e.2 f)) ∨
  (mark L < e.1 ∧ (∀ cp, checkpointIn (sw (lsys L)) = Some cp → cp < e.1) ∧
   ∃ gs pa, holds (sw (lsys L)) gs pa ∧ e ∈ all_records (log_of (lsys L)) gs pa).
Proof using Hfr Hfb Hstart.
  intros O R Hsm He. destruct (run_inv _ _ _ _ _ _ O R Hsm) as (k & I).
  destruct (owed_bounds _ _ _ _ _ _ _ _ O I He) as (Hc & Hst & Hh).
  destruct (Z.le_gt_cases e.1 (mark L)) as [Hle|Hgt]; [left; by eapply below_mark_handled|]. right.
  split; [done|]. split; [intros cp Hcp; destruct (l_checkpoint _ _ _ _ I cp Hcp); lia|].
  destruct (l_tail _ _ _ _ I) as (gs & pa & fly & st & junk & h & flown & old & G & K).
  exists gs, pa. split; [eapply core_holds, (i_core _ _ _ _ _ _ _ _ _ _ G)|].
  apply (Tail.history_held G); [|done]. pose proof (l_upto _ _ _ _ I). lia.
Qed.

(** C3: nothing acknowledged is lost.  Writers, the committer, rotations, the
    reader, the flusher, its deliveries and the checkpointer run in any
    interleaving, and any call on the disk may fail.  At any instant, every
    record that was in the log above the checkpoint at opening, or whose write
    has been acknowledged since, was read by the flusher and handled; or it is
    above the mark and above whatever checkpoint the directory holds, and still
    in the log's files under its number, so the next Open delivers it. *)
Theorem nothing_acknowledged_is_lost w0 gs0 pa0 cp0 L0 L e :
  opened w0 gs0 pa0 cp0 L0 → rtc step L0 L → small L →
  owed (all_records (lg w0) gs0 pa0) cp0
    (acknowledged (log_of (lsys L)) (staged (lsys L)) ++ published (ph (lsys L)) (staged (lsys L))) e →
  (∃ f, f <= State.floor (theBuf L) ∧ Flusher.Got e.1 e.2 f ∈ got L ∧ handled (flow L) (Flusher.Got e.1 e.2 f)) ∨
  (mark L < e.1 ∧ (∀ cp, checkpointIn (sw (lsys L)) = Some cp → cp < e.1) ∧
   ∃ gs pa, holds (sw (lsys L)) gs pa ∧ e ∈ all_records (log_of (lsys L)) gs pa).
Proof using Hfr Hfb Hstart. apply below_or_held. Qed.

(** C4: Flush is a barrier.  When a call of Flush that began in state [L1]
    returns nil in state [L], every record that was above the checkpoint at
    opening, or was acknowledged to its writer before the call began, has been
    read and handled. *)
Theorem flush_is_a_barrier w0 gs0 pa0 cp0 L0 L1 L e ctx ch b' :
  opened w0 gs0 pa0 cp0 L0 → rtc step L0 L1 → rtc step L1 L → small L →
  State.Flush (DurableLSN (log_of (lsys L1))) ctx (State.FTook ch) (theBuf L) = Some (State.FReturned None, b') →
  owed (all_records (lg w0) gs0 pa0) cp0 (acknowledged (log_of (lsys L1)) (staged (lsys L1))) e →
  ∃ f, Flusher.Got e.1 e.2 f ∈ got L ∧ handled (flow L) (Flusher.Got e.1 e.2 f).
Proof using Hfr Hfb Hstart.
  intros O R1 R Hsm HF He.
  pose proof (small_run _ _ R Hsm) as Hsm1.
  destruct (run_inv _ _ _ _ _ _ O R1 Hsm1) as (k1 & I1). destruct (live_run _ _ _ _ R _ I1 Hsm) as (k & I).
  assert (Hd : e.1 <= DurableLSN (log_of (lsys L1))).
  { destruct (l_tail _ _ _ _ I1) as (gs & pa & fly & st & junk & h & flown & old & G & _).
    pose proof (i_durable _ _ _ _ _ _ _ _ _ _ G) as HD. rewrite Forall_forall in HD. apply HD.
    rewrite <- (good_acknowledged G), elem_of_app. destruct He as [[He _]|He]; tauto. }
  assert (He' : owed (all_records (lg w0) gs0 pa0) cp0 (since (lsys L1)) e).
  { destruct He as [He|He]; [by left | right]. apply elem_of_app. by left. }
  destruct (owed_bounds _ _ _ _ _ _ _ _ O I1 He') as (_ & Hst & Hh).
  assert (Hm : DurableLSN (log_of (lsys L1)) <= mark L).
  { unfold State.Flush in HF. unfold mark.
    destruct (Z.leb_spec (DurableLSN (log_of (lsys L1))) (Tracker.mark (State.acks (theBuf L)))); [done|].
    by destruct (State.err (theBuf L)). }
  destruct (below_mark_handled _ _ _ _ e I Hsm) as (f & _ & Hf); [|lia | by exists f].
  eapply run_history; [exact R | exact I1 | done | exact Hh].
Qed.

(** C5: a buffer that has drained owes nothing.  Once [Close] has let the flusher
    drain (it was neither failed nor aborted, and returned having caught up with
    the log) and every delivery has acknowledged its range, every record that was
    above the checkpoint at opening or was acknowledged to its writer has been
    read and handled and is at or below the mark the last [persist] writes. *)
Theorem drained_buffer_owes_nothing w0 gs0 pa0 cp0 L0 L es s e :
  opened w0 gs0 pa0 cp0 L0 → rtc step L0 L → small L →
  Flusher.flusher codec onDecodeFailure flushRecords flushBytes es (Flusher.initial start)
    = (Flusher.Return s, Pipeline.sent (flow L), got L) →
  (∀ x, x ∈ es → Flusher.undisturbed x) → Flusher.noFail (Pipeline.sent (flow L)) →
  Pipeline.allAcknowledged (flow L) → DurableLSN (log_of (lsys L)) < Reader.nextLSN (rd L) →
  owed (all_records (lg w0) gs0 pa0) cp0 (acknowledged (log_of (lsys L)) (staged (lsys L))) e →
  e.1 <= mark L ∧ ∃ f, Flusher.Got e.1 e.2 f ∈ got L ∧ handled (flow L) (Flusher.Got e.1 e.2 f).
Proof using Hfr Hfb Hstart.
  intros O R Hsm Hfl Hu Hno Hall Hd He. destruct (run_inv _ _ _ _ _ _ O R Hsm) as (k & I).
  assert (He' : owed (all_records (lg w0) gs0 pa0) cp0 (since (lsys L)) e).
  { destruct He as [He|He]; [by left | right]. apply elem_of_app. by left. }
  destruct (owed_bounds _ _ _ _ _ _ _ _ O I He') as (_ & Hst & Hh).
  destruct (l_tail _ _ _ _ I) as (gs & pa & fly & st & junk & h & flown & old & G & K).
  assert (Hle : e.1 <= DurableLSN (log_of (lsys L))).
  { pose proof (i_durable _ _ _ _ _ _ _ _ _ _ G) as HD. rewrite Forall_forall in HD. apply HD.
    rewrite <- (good_acknowledged G), elem_of_app. destruct He as [[He _]|He]; tauto. }
  assert (Hin : e ∈ strip <$> got L).
  { rewrite (Tail.t_got _ _ _ _ _ _ _ K). apply list_elem_of_filter. split; [lia | done]. }
  apply list_elem_of_fmap in Hin as (r & -> & Hr). pose proof (l_got _ _ _ _ I) as Hg.
  rewrite Forall_forall in Hg. specialize (Hg r Hr). destruct r as [l p f|err]; [|done].
  destruct (Pipeline.flowing_drained _ _ _ _ Hfr Hfb _ Hstart _ _ _ _ _ _ _ (live_source _ _ _ _ I Hsm)
    (l_flow _ _ _ _ I) Hfl Hu Hno Hall _ Hr) as [H1 H2]. split; [exact H1|]. by exists f.
Qed.

(** [persist], undisturbed, is three of the steps. *)
Lemma persist_run L r w' :
  save L = Resting → Buffer.persist (theBuf L) (sw (lsys L)) = (r, w') →
  ∃ b' u, r = Ok b' ∧ rtc step L (Live (Sys w' (ph (lsys L)) (staged (lsys L)) u) (rd L) (got L) (withBuf b' (flow L)) Resting).
Proof using.
  intros Hs H. destruct L as [[w p sg u] rdr g [b os ts] sv]; unfold theBuf in *; simpl in *. subst sv.
  unfold Buffer.persist in H. case_if; [injection H as <- <-; exists b, u; split; [done | apply rtc_refl]|]. bools.
  apply bind_try_inv in H as (x & w1 & Hw & H). apply onDisk_inv in Hw as (d1 & Hw & ->).
  set (L0 := Live (Sys w p sg u) rdr g (Pipeline.Pipe b os ts) Resting).
  assert (S1 : step L0 (Live (Sys w p sg u) rdr g (Pipeline.Pipe b os ts) (Marked (mark L0)))) by (by apply live_mark).
  pose proof (live_save (Live (Sys w p sg u) rdr g (Pipeline.Pipe b os ts) (Marked (mark L0))) _ _ _ eq_refl Hw) as S2.
  destruct x as [[]|e].
  - apply bind_try_inv in H as (y & w2 & Ht & H). simpl in S2.
    pose proof (live_cut (Live (Sys (World (lg w) d1) p sg u) rdr g (Pipeline.Pipe b os ts) (Saved (mark L0))) _ _ _ eq_refl Ht) as S3.
    destruct y as [[]|e]; injection H as <- <-; eexists _, _; (split; [done|]);
      (eapply rtc_l; [exact S1|]; eapply rtc_l; [exact S2|]; eapply rtc_l; [exact S3 | apply rtc_refl]).
  - injection H as <- <-. eexists _, _. split; [done|]. eapply rtc_l; [exact S1|]. eapply rtc_l; [exact S2 | apply rtc_refl].
Qed.
(** Every record starts at or above the first segment, and the log ends there
    or above. *)
Lemma head_below w gs pa s ss :
  core w gs pa [] [] [] HOpen → segs (lg w) = s :: ss →
  baseLSN s <= frontier (lg w) ∧ ∀ e, e ∈ all_records (lg w) gs pa → baseLSN s <= e.1.
Proof using.
  intros C Es. pose proof (c_linked _ _ _ _ _ _ _ C) as Hl. rewrite Es in Hl.
  assert (Hb : ∀ t, t ∈ segs (lg w) → baseLSN s <= baseLSN t) by (intros t; rewrite Es; by apply Buffer.linked_head).
  split.
  - specialize (Hb _ core_active_in). unfold frontier. rewrite (rep_count _ _ _ _ _ (c_active _ _ _ _ _ _ _ C)).
    pose proof (len_nonneg pa). lia.
  - intros e (t & ps & Hin & He%entries_lsn)%(book_records C). enough (baseLSN s <= baseLSN t) by lia.
    apply Hb. rewrite <- (book_fst C). apply list_elem_of_fmap. by exists (t, ps).
Qed.

(** [Open] starts such a run.  What [resumeMark] leaves of a recovered log,
    with a reader and an idle pipeline right behind the mark, is an opened
    buffer; and every record above the checkpoint is among those it answers
    for. *)
Theorem open_starts_the_run w gs pa cp m w' r P :
  fresh w gs pa → Buffer.at_head (lg w) → Buffer.covered w cp → is_u64 cp → nextLSN (lg w) < maxU64 →
  cp < nextLSN (lg w) → Buffer.resumeMark w = (Ok m, w') → start = m + 1 → Pipeline.idle m P →
  Reader.NewReader (lg w') start = Ok r → first = Reader.nextLSN r →
  ∃ k cp', opened w' (drop k gs) pa cp' (Live (Sys w' Idle [] 0) r [] P Resting) ∧
    ∀ e, e ∈ all_records (lg w) gs pa → cp < e.1 → owed (all_records (lg w') (drop k gs) pa) cp' [] e.
Proof using Hstart.
  intros F Hh Hcov Hu Hmax Hcp H Hst Hi Hr Hf.
  destruct (Buffer.resume_spec _ _ _ _ _ _ F Hh Hcov Hu Hmax H)
    as (k & cp' & F' & Hc & Hcov' & Hlow & (gone & Hg & Hgl) & Hm & Hn & Hpm & _).
  pose proof (fr_core _ _ _ F') as C'. pose proof (c_next _ _ _ _ _ _ _ C') as Hnx. rewrite !len_nil in Hnx.
  assert (Hfr' : frontier (lg w') = nextLSN (lg w')).
  { unfold frontier. rewrite (rep_count _ _ _ _ _ (c_active _ _ _ _ _ _ _ C')). lia. }
  assert (Hlow' : ∀ e, e ∈ all_records (lg w') (drop k gs) pa → cp' < e.1 → m < e.1).
  { intros e He Hlt. destruct Hc as [->| ->]; [|done]. apply Hlow; [|done]. rewrite Hg. apply elem_of_app. by right. }
  assert (Hfirst : start <= first <= frontier (lg w') ∧
    ∀ e, e ∈ all_records (lg w') (drop k gs) pa → cp' < e.1 → first <= e.1).
  { rewrite Hf. destruct (Buffer.new_reader_start _ _ _ Hr ltac:(lia)) as [->|(s & ss & Es & Hlt & ->)].
    - split; [lia|]. intros e He Hlt. specialize (Hlow' e He Hlt). lia.
    - destruct (head_below _ _ _ _ _ C' Es) as [H1 H2]. split; [lia|]. intros e He _. by apply H2. }
  destruct Hfirst as [Hfirst Hres]. exists k, cp'. split.
  - split; simpl; try done. + by rewrite Hst, Z.add_simpl_r. + lia. + destruct Hc; lia.
  - intros e He Hlt. specialize (Hlow e He Hlt). left. rewrite Hg in He.
    apply elem_of_app in He as [He|He]; [specialize (Hgl e He); lia|]. split; [done|]. destruct Hc; lia.
Qed.

(** A stretch of the pipeline's own. *)
Lemma flow_run s r g P P' sv :
  rtc (Pipeline.step cfg logID maxInFlight (sends g)) P P' → rtc step (Live s r g P sv) (Live s r g P' sv).
Proof using.
  induction 1 as [P|P P1 P2 Hs _ IH]; [apply rtc_refl|]. eapply rtc_l; [|exact IH].
  by apply (live_flow (Live s r g P sv)).
Qed.
End live.

(** *** A run

    A log with two records and no checkpoint is opened; both are read, flushed
    as one batch, and the checkpoint is written. *)
Definition ex_r0 : Reader.reader := Reader.Rd (snapshot (lg Reader.ex_two)).1 2 1 0 false [] 0 0 [] (-1).
Definition ex_next (r : Reader.reader) : result (Z * bytes) * Reader.reader :=
  Reader.Next (Reader.disk_files (Disk.view (dk Reader.ex_two))) 100 (lg Reader.ex_two) r.
Definition ex_sys : sys := Sys Reader.ex_two Idle [] 0.
Definition ex_P0 : @Pipeline.pipe bytes := Pipeline.Pipe (State.opened 0 State.noObserver 0 2 9) [] [].
Definition ex_got : list Flusher.reading := [Flusher.Got 1 p1 1; Flusher.Got 2 p2 1].
Definition ex_batch : @Flusher.pending bytes := Flusher.Pending [p1; p2] 1 1 2 2 9 0 0.
Definition ex_fx : list (@Delivery.effect bytes) :=
  Eval vm_compute in (Delivery.deliver Pipeline.ex_cfg (Pipeline.dispatch [] ex_batch) ex_batch [Pipeline.ex_accept]).1.
Definition ex_P1 : @Pipeline.pipe bytes :=
  Pipeline.Pipe (Pipeline.buf ex_P0) [Flusher.ODispatch ex_batch] [Pipeline.Task 0 ex_batch [] ex_fx Delivery.Finished].
Definition ex_P2 : @Pipeline.pipe bytes :=
  Pipeline.Pipe (foldl (λ b x, State.deliveryDoes x b) (Pipeline.buf ex_P1) ex_fx) [Flusher.ODispatch ex_batch]
    [Pipeline.Task 0 ex_batch ex_fx [] Delivery.Finished].

Definition ex_L0 : @live bytes := Live ex_sys ex_r0 [] ex_P0 Resting.
Definition ex_L1 : @live bytes := Live ex_sys (ex_next (ex_next ex_r0).2).2 ex_got ex_P0 Resting.
Definition ex_L2 : @live bytes := Live ex_sys (rd ex_L1) ex_got ex_P2 Resting.

Local Abbreviation ex_step := (step Flusher.ex_codec None 2 100 Pipeline.ex_cfg [] 1 1).
Local Abbreviation ex_records := (all_records (lg Reader.ex_two) [] [p1; p2]).

Lemma ex_opened : opened 1 1 Reader.ex_two [] [p1; p2] 0 ex_L0.
Proof.
  split; try done; [apply Reader.ex_two_fresh|].
  intros e He _. change (e ∈ [(1, p1); (2, p2)]) in He. apply elem_of_cons in He as [->|He%list_elem_of_singleton]; [simpl; lia | subst e; simpl; lia].
Qed.

Lemma ex_reads : rtc ex_step ex_L0 ex_L1.
Proof.
  assert (Hn : ∀ r g e r', ex_next r = (Ok e, r') →
    ex_step (Live ex_sys r g ex_P0 Resting) (Live ex_sys r' (g ++ [Flusher.Got e.1 e.2 1]) ex_P0 Resting)).
  { intros r g [l p] r' H. apply (live_next _ _ _ _ _ _ _ _ (Live ex_sys r g ex_P0 Resting) _ _ _
      (Tail.disk_files_truthful _) H). }
  eapply rtc_l; [apply (Hn _ [] (1, p1) (ex_next ex_r0).2); by vm_compute|].
  eapply rtc_l; [apply (Hn _ [Flusher.Got 1 p1 1] (2, p2) (ex_next (ex_next ex_r0).2).2); by vm_compute | apply rtc_refl].
Qed.

Lemma ex_flows : rtc ex_step ex_L1 ex_L2.
Proof.
  assert (S1 : Pipeline.step Pipeline.ex_cfg [] 1 (Pipeline.sends Flusher.ex_codec None 2 100 1 ex_got) ex_P0 ex_P1).
  { apply (Pipeline.step_dispatch _ _ _ _ ex_P0 ex_batch [Pipeline.ex_accept] ex_fx Delivery.Finished);
      [|by vm_compute | by vm_compute].
    eexists [Flusher.ex_env ex_got], _, _, _. split; [by vm_compute|]. split; by eexists. }
  apply flow_run. eapply rtc_l; [exact S1|].
  apply (Pipeline.run_task Pipeline.ex_cfg [] 1 _ ex_fx ex_P1 0 0 ex_batch [] Delivery.Finished); [done|]. repeat constructor.
Qed.

Lemma ex_whole_run : rtc ex_step ex_L0 ex_L2.
Proof. etrans; [exact ex_reads | exact ex_flows]. Qed.

Lemma ex_small : small ex_L2.
Proof. by split; vm_compute. Qed.

Lemma nothing_acknowledged_is_lost_witness :
  (∃ f, f <= 1 ∧ Flusher.Got 2 p2 f ∈ ex_got ∧
        Pipeline.handled Flusher.ex_codec None Pipeline.ex_cfg [] ex_P2 (Flusher.Got 2 p2 f)) ∨
  mark ex_L2 < 2.
Proof.
  assert (He : owed ex_records 0 (since ex_sys) (2, p2)) by (left; split; [by apply (list_elem_of_lookup_2 _ 1) | done]).
  destruct (nothing_acknowledged_is_lost Flusher.ex_codec None 2 100 ltac:(lia) ltac:(lia) Pipeline.ex_cfg [] 1 1
    ltac:(unfold maxU64; lia) 1 Reader.ex_two [] [p1; p2] 0 ex_L0 ex_L2 (2, p2) ex_opened ex_whole_run ex_small He)
    as [H|[H _]]; [left | right]; exact H.
Defined.

Lemma flush_is_a_barrier_witness :
  State.Flush (DurableLSN (log_of ex_sys)) None (State.FTook 0) (theBuf ex_L2)
    = Some (State.FReturned None, theBuf ex_L2) ∧
  ∃ f, Flusher.Got 2 p2 f ∈ ex_got ∧
       Pipeline.handled Flusher.ex_codec None Pipeline.ex_cfg [] ex_P2 (Flusher.Got 2 p2 f).
Proof.
  assert (HF : State.Flush (DurableLSN (log_of ex_sys)) None (State.FTook 0) (theBuf ex_L2)
    = Some (State.FReturned None, theBuf ex_L2)) by by vm_compute.
  split; [exact HF|].
  assert (He : owed ex_records 0 (acknowledged (log_of ex_sys) []) (2, p2)) by (left; split; [by apply (list_elem_of_lookup_2 _ 1) | done]).
  exact (flush_is_a_barrier Flusher.ex_codec None 2 100 ltac:(lia) ltac:(lia) Pipeline.ex_cfg [] 1 1
    ltac:(unfold maxU64; lia) 1 Reader.ex_two [] [p1; p2] 0 ex_L0 ex_L0 ex_L2 (2, p2) None 0 (theBuf ex_L2) ex_opened
    (rtc_refl _ _) ex_whole_run ex_small HF He).
Defined.

Definition ex_envs : list Flusher.env :=
  [Flusher.ex_env ex_got; Flusher.Env false [] false true Flusher.Drain; Flusher.ex_env []].

Lemma drained_buffer_owes_nothing_witness :
  2 <= mark ex_L2 ∧
  ∃ f, Flusher.Got 2 p2 f ∈ ex_got ∧
       Pipeline.handled Flusher.ex_codec None Pipeline.ex_cfg [] ex_P2 (Flusher.Got 2 p2 f).
Proof.
  assert (HF : Flusher.flusher Flusher.ex_codec None 2 100 ex_envs (Flusher.initial 1)
    = (Flusher.Return (Flusher.Fl [] 1 3 3 2 0 0 0 false true false None None), [Flusher.ODispatch ex_batch], ex_got))
    by by vm_compute.
  assert (Hu : ∀ x, x ∈ ex_envs → Flusher.undisturbed x).
  { apply Forall_forall. by repeat constructor. }
  assert (Hno : Flusher.noFail [Flusher.ODispatch ex_batch]).
  { intros err [=]%list_elem_of_singleton. }
  assert (Hall : Pipeline.allAcknowledged ex_P2).
  { intros [|j] t [= <-]. exists (Delivery.completeRange ex_batch). split; [unfold ex_fx; set_solver | done]. }
  assert (Hd : DurableLSN (log_of ex_sys) < Reader.nextLSN (rd ex_L2)) by by vm_compute.
  assert (He : owed ex_records 0 (acknowledged (log_of ex_sys) []) (2, p2)) by (left; split; [by apply (list_elem_of_lookup_2 _ 1) | done]).
  exact (drained_buffer_owes_nothing Flusher.ex_codec None 2 100 ltac:(lia) ltac:(lia) Pipeline.ex_cfg [] 1 1
    ltac:(unfold maxU64; lia) 1 Reader.ex_two [] [p1; p2] 0 ex_L0 ex_L2 ex_envs _ (2, p2) ex_opened ex_whole_run ex_small
    HF Hu Hno Hall Hd He).
Defined.

Lemma open_starts_the_run_witness :
  owed ex_records 0 [] (2, p2) ∧
  ∃ k cp', opened 1 1 (Buffer.resumeMark Reader.ex_two).2 (drop k []) [p1; p2] cp'
    (Live (Sys (Buffer.resumeMark Reader.ex_two).2 Idle [] 0) ex_r0 [] ex_P0 Resting).
Proof.
  assert (E : Buffer.resumeMark Reader.ex_two = (Ok 0, (Buffer.resumeMark Reader.ex_two).2)).
  { rewrite (surjective_pairing (Buffer.resumeMark Reader.ex_two)) at 1. f_equal; by vm_compute. }
  split; [left; split; [by apply (list_elem_of_lookup_2 _ 1) | done]|].
  assert (H1 : Buffer.at_head (lg Reader.ex_two)) by by vm_compute.
  assert (H2 : is_u64 0) by (unfold is_u64; lia).
  assert (H3 : nextLSN (lg Reader.ex_two) < maxU64) by by vm_compute.
  assert (H4 : 0 < nextLSN (lg Reader.ex_two)) by by vm_compute.
  assert (H5 : Pipeline.idle 0 ex_P0) by (split; [reflexivity | by split]).
  assert (H6 : Reader.NewReader (lg (Buffer.resumeMark Reader.ex_two).2) 1 = Ok ex_r0) by by vm_compute.
  destruct (open_starts_the_run 1 ltac:(unfold maxU64; lia) 1 Reader.ex_two [] [p1; p2] 0 0
    (Buffer.resumeMark Reader.ex_two).2 ex_r0 ex_P0 Reader.ex_two_fresh H1 Buffer.ex_covered H2 H3 H4 E eq_refl H5 H6 eq_refl)
    as (k & cp' & O & _). exists k, cp'. exact O.
Defined.

End Live.
