(* ===== verification/Restart.v ===== *)
(** * Across restarts (src/batch.go: [Open]; src/flush.go; src/internal/wal)

    A run of the buffer (Live.v) may be killed between two of its steps or inside
    one.  Under the conditions of [killable], opening the directory again succeeds
    and starts another run, which answers for every record the first one had not
    handled: over any number of runs and such kills, what was acknowledged to a
    writer is delivered at least once. *)

From stdpp Require Import strings sorting.
From S2P Require Import Prelude Errors Record Disk Segment MarkFiles Log LogInv Frame LogSteps Durable Replay Recovery Kill Reader Tail Tracker Sink Flusher Delivery State Buffer Pipeline Live.
Local Open Scope Z_scope.
Local Open Scope go_scope.

Module Restart.
Import Segment Log LogInv Frame LogSteps Durable Replay Kill Sink Live.

(** ** The head of the log *)

(** What the first segment follows changes only by truncation. *)
Definition head (w : world) : Z := FirstPrevEnd (lg w).

#[local] Abbreviation keeps_head := (within (same_view head)).

Lemma head_onDisk {A} (m : M Disk.disk A) : keeps_head (onDisk m).
Proof. intros w r w' H. by apply onDisk_inv in H as (d & _ & ->). Qed.

Lemma head_setLog g : (∀ l, FirstPrevEnd (g l) = FirstPrevEnd l) → keeps_head (setLog g).
Proof. intros Hg w r w' [= _ <-]. apply Hg. Qed.

Lemma head_grow a l : prevEnd a = prevEnd (active l) → FirstPrevEnd (set_segs (sealed l) a l) = FirstPrevEnd l.
Proof. unfold FirstPrevEnd, segs. simpl. by destruct (sealed l). Qed.

Lemma head_push b a l : prevEnd b = prevEnd (active l) → FirstPrevEnd (set_segs (sealed l ++ [b]) a l) = FirstPrevEnd l.
Proof. unfold FirstPrevEnd, segs. simpl. by destruct (sealed l). Qed.

#[local] Hint Resolve head_onDisk head_setLog head_grow head_push : within.

Lemma head_append ps : keeps_head (AppendBatchAsync ps).
Proof. unfold AppendBatchAsync, stage. stays. Qed.

Lemma head_rotate first : keeps_head (rotate first).
Proof. unfold rotate. stays. Qed.

Lemma head_appendBatch mode b k : keeps_head (appendBatch mode b k).
Proof. unfold appendBatch. stays. Qed.

Lemma head_rollback : keeps_head rollback.
Proof. unfold rollback. stays. Qed.

Lemma running_head s s' : running s s' → FirstPrevEnd (log_of s') = FirstPrevEnd (log_of s).
Proof.
  destruct 1 as [s ps first last r w' _ _ H|s ps e w' _ H|s j l' _ H|s j r w' _ H|s j r w' _ H|s j e r w' _ H|s j [e|] rb _|s];
    try done; unfold log_of; simpl.
  - by apply head_append in H.
  - by apply head_append in H.
  - unfold commitBegin in H. case_if; [done|]. by injection H as _ <-.
  - destruct (mustRotate _ _); [by apply head_rotate in H | by injection H as _ <-].
  - by apply head_appendBatch in H.
  - by apply head_rollback in H.
Qed.

(** ** What a run leaves on disk *)

Section restart.
Context {T : Type} (codec : Codec T) (onDecodeFailure : option (DecodeFailure → call DecodeAction)).
Context (flushRecords flushBytes : Z) (Hfr : 1 <= flushRecords) (Hfb : 1 <= flushBytes).
Context (cfg : Delivery.settings) (logID : bytes) (maxInFlight : Z).

Local Abbreviation run := (Live.step codec onDecodeFailure flushRecords flushBytes cfg logID maxInFlight).
Local Abbreviation live_inv := (Live.live_inv codec onDecodeFailure flushRecords flushBytes cfg logID).
Local Abbreviation handled := (Pipeline.handled codec onDecodeFailure cfg logID).

(** The bound on what truncation may have taken. *)
Definition ceiling (L : @live T) : Z := match save L with Resting => mark L | Marked m | Saved m => m end.

(** The checkpoint on disk covers the head of the log: the test [Open] makes. *)
Record held (L : @live T) : Prop := {
  h_covered : ∃ cp, Buffer.covered (sw (lsys L)) cp;
  h_head : FirstPrevEnd (log_of (lsys L)) <= ceiling L;
  h_saved : ∀ m, save L = Saved m → checkpointIn (sw (lsys L)) = Some m
}.

Section one.
Context (start first : Z) (Hstart : 1 <= start < maxU64).

Lemma held_log init cp0 L k s' : live_inv start first init cp0 L k → held L → running (lsys L) s' →
  held (Live s' (rd L) (got L) (flow L) (save L)).
Proof using.
  intros I [(cp & Hc & Hh) Hlow Hsv] Hs. pose proof (running_head _ _ Hs) as E.
  destruct (l_tail _ _ _ _ _ _ _ _ _ _ _ _ I) as (gs & pa & fly & st & junk & h & flown & old & G & _).
  pose proof (checkpointIn_file _ _ (running_checkpoint G Hs)) as Ec. unfold log_of in *.
  split; unfold ceiling, mark, theBuf, log_of in *; simpl; rewrite ?E; try done.
  - exists cp. split; [by rewrite Ec | by rewrite E].
  - intros m Hm. rewrite Ec. by apply Hsv.
Qed.

Lemma held_same L b' P' g r' sv :
  held L → mark L <= Tracker.mark (State.acks b') → Pipeline.buf P' = b' →
  (sv = save L ∨ sv = Resting ∧ ceiling L <= mark L ∨ sv = Marked (mark L) ∧ save L = Resting) →
  held (Live (lsys L) r' g P' sv).
Proof using.
  intros [Hc Hlow Hsv] Hm Hb Hcase. split; [exact Hc | |].
  - unfold ceiling, mark, theBuf in *. simpl. rewrite Hb.
    destruct Hcase as [->|[[-> Hle]|[-> Es]]]; [destruct (save L); lia | lia | rewrite Es in Hlow; lia].
  - simpl. intros m Em. destruct Hcase as [->|[[-> _]|[-> _]]]; [by apply Hsv | done | done].
Qed.

Lemma held_save init cp0 L k m r d' :
  live_inv start first init cp0 L k → small L → held L → save L = Marked m →
  MarkFiles.WriteCheckpoint m (dk (sw (lsys L))) = (r, d') →
  ∀ P, Pipeline.buf P = theBuf L ∨ (∃ e, r = Fail e ∧ Pipeline.buf P = Buffer.checkpointFailed e (theBuf L)) →
  held (Live (Sys (World (log_of (lsys L)) d') (ph (lsys L)) (staged (lsys L)) (upto (lsys L))) (rd L) (got L) P
    (match r with Ok _ => Saved m | Fail _ => Resting end)).
Proof using Hfr Hfb Hstart.
  intros I Hsm [(cp & Hc & Hh) Hlow Hsv] Em H P HP.
  destruct (save_bounds _ _ _ _ Hfr Hfb _ _ _ Hstart _ _ _ _ _ m I Hsm ltac:(by left)) as (Hu & _ & Hle).
  destruct (l_tail _ _ _ _ _ _ _ _ _ _ _ _ I) as (gs & pa & fly & st & junk & h & flown & old & G & _).
  destruct (core_writeCheckpoint _ _ _ _ _ _ _ _ _ _ (i_core _ _ _ _ _ _ _ _ _ _ G) Hu H) as (_ & Hk & Hok).
  assert (Hmk : Tracker.mark (State.acks (Pipeline.buf P)) = mark L) by (destruct HP as [->|(e & _ & ->)]; done).
  unfold ceiling in Hlow. rewrite Em in Hlow. unfold log_of in *. split; unfold log_of in *; simpl.
  - destruct Hk as [Hk|Hk]; [exists cp | exists m]; (split; [by rewrite Hk | done]).
  - unfold ceiling, mark, theBuf in *. simpl. destruct r; [done|]. rewrite Hmk. lia.
  - intros m' Em'. destruct r as [[]|e]; [|done]. injection Em' as <-. by apply Hok.
Qed.

Lemma held_cut init cp0 L k m r w' P :
  live_inv start first init cp0 L k → small L → held L → save L = Saved m → Truncate (m +u 1) (sw (lsys L)) = (r, w') →
  mark L <= Tracker.mark (State.acks (Pipeline.buf P)) →
  held (Live (Sys w' (ph (lsys L)) (staged (lsys L)) (Z.max (m +u 1) (upto (lsys L)))) (rd L) (got L) P Resting).
Proof using Hfr Hfb Hstart.
  intros I Hsm [(cp & Hc & Hh) Hlow Hsv] Em H HP.
  destruct (save_bounds _ _ _ _ Hfr Hfb _ _ _ Hstart _ _ _ _ _ m I Hsm ltac:(by right)) as (_ & Hu & Hle).
  destruct (l_tail _ _ _ _ _ _ _ _ _ _ _ _ I) as (gs & pa & fly & st & junk & h & flown & old & G & _).
  unfold ceiling in Hlow. rewrite Em in Hlow.
  assert (Hcov : Buffer.covered (sw (lsys L)) m) by (split; [by apply Hsv | done]).
  destruct (Buffer.Truncate_covered _ _ _ _ _ _ _ m m _ _ (i_core _ _ _ _ _ _ _ _ _ _ G) Hu Hcov ltac:(lia) Hlow H)
    as (Hcov' & Hh' & _).
  split; unfold ceiling, mark, theBuf, log_of in *; simpl; [by exists m | lia | done].
Qed.

Lemma held_step init cp0 L L' k : live_inv start first init cp0 L k → small L → held L → run start L L' → held L'.
Proof using Hfr Hfb Hstart.
  intros I Hsm Hd Hs.
  destruct Hs as [L s' Hs|L E res r' Ht Hn|L P' Hs|L Hr H0 Hl|L m r d' Hsv H|L m r w' Hsv H].
  - by eapply held_log.
  - eapply (held_same L (theBuf L)); [done | unfold mark; lia | done | by left].
  - destruct (Pipeline.flowing_step _ _ _ _ Hfr Hfb _ Hstart _ _ _ _ _ _ _
      (live_source _ _ _ _ _ _ _ _ _ _ _ _ I Hsm) (l_flow _ _ _ _ _ _ _ _ _ _ _ _ I) Hs) as (k' & _ & Hm).
    eapply (held_same L (Pipeline.buf P')); [done | done | done | by left].
  - eapply (held_same L (theBuf L)); [done | unfold mark; lia | done | right; by right].
  - eapply held_save; try done. destruct r as [u|e]; [by left | right]. by exists e.
  - eapply held_cut; try done. simpl. destruct r as [u|e]; [|done].
    destruct (persisted_acks m (theBuf L)) as [E _]. unfold mark. rewrite E. lia.
Qed.

Lemma held_run init cp0 L L' : rtc (run start) L L' → ∀ k, live_inv start first init cp0 L k → small L' → held L →
  ∃ k', live_inv start first init cp0 L' k' ∧ held L'.
Proof using Hfr Hfb Hstart.
  induction 1 as [L|L L1 L2 Hs R IH]; intros k I Hsm Hd; [by exists k|].
  assert (Hsm1 : small L1) by by eapply small_run.
  pose proof (small_back _ _ _ _ _ _ _ _ _ _ Hs Hsm1) as Hsm0.
  destruct (live_step _ _ _ _ Hfr Hfb _ _ _ _ Hstart _ _ _ _ _ _ I Hsm0 Hs) as (k1 & I1).
  apply (IH k1); [done | done |]. exact (held_step _ _ _ _ _ I Hsm0 Hd Hs).
Qed.

Lemma held_opened w0 gs0 pa0 cp0 L0 : opened start first w0 gs0 pa0 cp0 L0 → held L0.
Proof using.
  intros [F Es _ _ (Ha & _) Esv _ Hcov Hhd _ _]. split; unfold ceiling, log_of; rewrite ?Es, ?Esv; [by eexists | | done].
  unfold mark, theBuf. rewrite Ha. simpl. lia.
Qed.

(** The log of a run is a run of the log. *)
Lemma run_reachable init cp0 w0 L L' : rtc (run start) L L' → ∀ k, live_inv start first init cp0 L k → small L' →
  reachable w0 (lsys L) → reachable w0 (lsys L').
Proof using Hfr Hfb Hstart.
  induction 1 as [L|L L1 L2 Hs R IH]; intros k I Hsm Hr; [done|].
  pose proof (small_run _ _ _ _ _ _ _ _ _ _ R Hsm) as Hsm1. pose proof (small_back _ _ _ _ _ _ _ _ _ _ Hs Hsm1) as Hsm0.
  destruct (live_step _ _ _ _ Hfr Hfb _ _ _ _ Hstart _ _ _ _ _ _ I Hsm0 Hs) as (k1 & I1).
  apply (IH k1); [done | done |].
  destruct Hs as [L s' Hs|L E res r' Ht Hn|L P' Hs|L Hr0 H0 Hl|L m r d' Hsv H|L m r w' Hsv H]; try done; simpl.
  - eapply reach_step; [done | by apply step_running].
  - destruct (save_bounds _ _ _ _ Hfr Hfb _ _ _ Hstart _ _ _ _ _ m I Hsm0 ltac:(by left)) as (Hu & _ & _).
    eapply reach_step; [done | by eapply step_checkpoint].
  - eapply reach_step; [done | by eapply step_truncate].
Qed.
End one.

(** ** Killing and reopening *)

(** The process dies at the image [i]: between two steps of the buffer, or inside
    one, behind any call it makes. *)
Definition killed_at (start : Z) (L : @live T) (i : Disk.image) : Prop :=
  ∃ L', (L' = L ∨ run start L L') ∧ moment (lsys L) (lsys L') i.

(** What a kill in the step from [L] must find for recovery to be certain: no
    stray segment, which a rotation that failed and could not remove it may have
    left; an identity that can be read; no failing call lined up for the step and
    later answering that a file is absent; and numbers left to hand out. *)
Record killable (L : @live T) (i : Disk.image) : Prop := {
  k_strays : no_strays (sw (lsys L)) = true;
  k_identity : MarkFiles.identity_ok (Disk.view (dk (sw (lsys L))));
  k_removals : Forall never_absent (Disk.plan (dk (sw (lsys L))));
  k_room : ∀ R, MarkFiles.markIn (shown i) MarkFiles.reservedName = Some R → R + 1 < maxU64
}.

(** The same buffer, with other calls failing from here on. *)
Definition rewound (used : list Disk.fault) (L : @live T) : @live T :=
  Live (rewind used (lsys L)) (rd L) (got L) (flow L) (save L).

Lemma live_inv_rewound start first init cp0 L k used :
  live_inv start first init cp0 L k → live_inv start first init cp0 (rewound used L) k.
Proof using.
  intros I. pose proof (l_tail _ _ _ _ _ _ _ _ _ _ _ _ I) as (gs & pa & fly & st & junk & h & flown & old & G & K).
  destruct I. split; try done.
  exists gs, pa, fly, st, junk, h, flown, old. split; [by apply good_rewind|]. by destruct K.
Qed.

Lemma held_rewound L used : held L → held (rewound used L).
Proof using. intros []. by split. Qed.

(** The buffer a kill at [i] is a kill of: [L], or what its step comes to when the
    calls behind [i] fail. *)
Record site (start first : Z) (init : list (Z * bytes)) (cp0 : Z) (L : @live T) (i : Disk.image) (L2 : @live T) : Prop := {
  si_inv : ∃ k, live_inv start first init cp0 L2 k;
  si_image : Disk.img (dk (sw (lsys L2))) = i;
  si_held : held L2;
  si_small : small L2;
  si_claimed : claimed (lsys L2);
  si_tidy : tidy (sw (lsys L2));
  si_opts : opts (log_of (lsys L2)) = opts (log_of (lsys L));
  si_identity : MarkFiles.identity_ok (Disk.view (dk (sw (lsys L2))));
  si_since : ∀ e, e ∈ since (lsys L) → e ∈ since (lsys L2);
  si_handled : ∀ r, r ∈ got L2 → handled (flow L2) r → r ∈ got L ∧ handled (flow L) r
}.

Lemma site_here start first init cp0 L k :
  live_inv start first init cp0 L k → small L → held L → claimed (lsys L) →
  no_strays (sw (lsys L)) = true → MarkFiles.identity_ok (Disk.view (dk (sw (lsys L)))) →
  site start first init cp0 L (Disk.img (dk (sw (lsys L)))) L.
Proof using. intros I Hsm Hd Hc Hs Hid. split; try done; [by exists k | by apply no_strays_tidy]. Qed.

Lemma site_step start first init cp0 L k i used L2 :
  1 <= start < maxU64 → live_inv start first init cp0 L k → small L → held L → claimed (lsys L) → killable L i →
  run start (rewound used L) L2 → LogSteps.step (rewind used (lsys L)) (lsys L2) →
  Disk.img (dk (sw (lsys L2))) = i → drawn (Disk.plan (dk (sw (lsys L)))) used →
  got L2 = got L → (∀ r, handled (flow L2) r → handled (flow L) r) →
  site start first init cp0 L i L2.
Proof using Hfr Hfb.
  intros Hst I Hsm Hd Hc [K1 K2 K3 K4] Hrun Hstep Hi Hdr Hgot Hh.
  pose proof (live_inv_rewound _ _ _ _ _ _ used I) as I1.
  assert (Hsm1 : small (rewound used L)) by exact Hsm.
  destruct (live_step _ _ _ _ Hfr Hfb _ _ _ _ Hst _ _ _ _ _ _ I1 Hsm1 Hrun) as (k2 & I2).
  destruct (l_tail _ _ _ _ _ _ _ _ _ _ _ _ I1) as (gs & pa & fly & st & junk & h & flown & old & G & _).
  split; try done.
  - by exists k2.
  - exact (held_step _ _ Hst _ _ _ _ _ I1 Hsm1 (held_rewound L used Hd) Hrun).
  - unfold small in *. by rewrite Hgot.
  - eapply (claimed_step init (rewind used (lsys L))); [|exact Hc|exact Hstep]. by do 8 eexists.
  - eapply (tidy_step _ (rewind used (lsys L))); [exact G | exact K1 | by eapply drawn_never_absent | exact Hstep].
  - by rewrite (proj1 (step_keeps G Hstep)).
  - unfold MarkFiles.identity_ok in *. by rewrite (identity_kept _ _ _ _ _ _ _ _ _ _ _ G Hstep).
  - intros e He. destruct (Tail.history_step G Hstep) as (new & E & _). unfold Tail.history in E. rewrite <- app_assoc in E.
    apply app_inv_head in E. unfold since in *. rewrite E. apply elem_of_app. by left.
  - intros r. rewrite Hgot. intros. split; [done | by apply Hh].
Qed.

(** The dispositions do not depend on what the checkpointer has noted. *)
Lemma handled_noted b P r :
  State.floor b = State.floor (Pipeline.buf P) → handled (withBuf b P) r → handled P r.
Proof using. intros E [H|H]; [by left | right]. unfold Pipeline.delivered in *. simpl in H. by rewrite E in H. Qed.

Lemma killed_site start first init cp0 L k i :
  1 <= start < maxU64 → live_inv start first init cp0 L k → small L → held L → claimed (lsys L) → killable L i →
  killed_at start L i → ∃ L2, site start first init cp0 L i L2.
Proof using Hfr Hfb.
  intros Hst I Hsm Hd Hc HK (L' & Hrun & Hm). pose proof HK as [K1 K2 _ _].
  assert (Hhere : lsys L' = lsys L → ∃ L2, site start first init cp0 L i L2).
  { intros E. rewrite E in Hm. rewrite (still eq_refl Hm). exists L. by eapply site_here. }
  destruct Hrun as [->|Hrun]; [by apply Hhere|].
  destruct (l_tail _ _ _ _ _ _ _ _ _ _ _ _ I) as (gs & pa & fly & st & junk & h & flown & old & G & _).
  destruct Hrun as [L s' Hs|L E res r' Ht Hn|L P' Hs|L Hr H0 Hl|L m r d' Hsv H|L m r w' Hsv H]; try (by apply Hhere).
  - destruct (running_cut G Hs Hm) as (used & s2 & H2 & Hi & Hdr).
    assert (Hstep : run start (rewound used L) (Live s2 (rd L) (got L) (flow L) (save L)))
      by by apply (live_log _ _ _ _ _ _ _ _ (rewound used L)).
    exists (Live s2 (rd L) (got L) (flow L) (save L)).
    by apply (site_step _ _ _ _ L k i used _ Hst I Hsm Hd Hc HK Hstep (step_running _ _ H2)).
  - destruct (save_bounds _ _ _ _ Hfr Hfb _ _ _ Hst _ _ _ _ _ m I Hsm ltac:(by left)) as (Hu & _ & _).
    destruct (checkpoint_cut _ _ _ _ _ H Hm) as (used & r2 & d2 & H2 & Hi & Hdr).
    pose proof (live_save codec onDecodeFailure flushRecords flushBytes cfg logID maxInFlight start (rewound used L) m r2 d2 Hsv H2) as Hstep. eexists.
    apply (site_step _ _ _ _ L k i used _ Hst I Hsm Hd Hc HK Hstep); [|done|done|done|].
    + exact (step_checkpoint (rewind used (lsys L)) m r2 d2 Hu H2).
    + intros r0. destruct r2 as [u|e]; [done|]. by apply handled_noted.
  - destruct (cut_short _ _ _ _ _ (cut_Truncate _) H Hm) as (used & r2 & w2 & H2 & Hi & Hdr).
    pose proof (live_cut codec onDecodeFailure flushRecords flushBytes cfg logID maxInFlight start (rewound used L) m r2 w2 Hsv H2) as Hstep. eexists.
    apply (site_step _ _ _ _ L k i used _ Hst I Hsm Hd Hc HK Hstep); [|done|done|done|].
    + exact (step_truncate (rewind used (lsys L)) (m +u 1) r2 w2 H2).
    + intros r0. apply handled_noted. by destruct r2 as [u|e]; [apply persisted_acks|].
Qed.

(** A run begun by opening the directory a killed one has left: the flusher's
    reader starts at [start'], which may put its cursor on to [first'].  From
    then on calls may fail again, as the plan of [d2] says. *)
Definition starts_from (o : Options) (d : Disk.disk) (start' first' : Z) (L' : @live T) : Prop :=
  ∃ clock newId fuel now obs queue op d' r d2,
    Buffer.Open o clock newId Reader.disk_files fuel now obs queue d = (Some (Ok op), d') ∧
    Reader.NewReader (lg (Buffer.op_world op)) (Buffer.op_from op) = Ok r ∧
    start' = Buffer.op_from op ∧ first' = Reader.nextLSN r ∧
    Disk.img d2 = Disk.img (dk (Buffer.op_world op)) ∧
    L' = Live (Sys (World (lg (Buffer.op_world op)) d2) Idle [] 0) r [] (Pipeline.Pipe (Buffer.op_buffer op) [] []) Resting.

(** The disk as the next process finds it, no call on it failing. *)
Definition left_by (i : Disk.image) (d : Disk.disk) : Prop := Disk.plan d = [] ∧ Disk.view d = shown i.

(** A run of the buffer is killed, with whatever its directory holds then, and the
    buffer opened again. *)
Definition reopens (o : Options) (start : Z) (L : @live T) (start' first' : Z) (L' : @live T) : Prop :=
  ∃ i d, killed_at start L i ∧ killable L i ∧ left_by i d ∧
    maxRecordBytes (withDefaults o) = maxRecordBytes (opts (log_of (lsys L))) ∧ starts_from o d start' first' L'.

(** The log and the mark [Open] comes up with. *)
Lemma reopened_log start first w0 gs0 pa0 cp0 (L0 L : @live T) i L2 o clock newId d :
  1 <= start < maxU64 → opened start first w0 gs0 pa0 cp0 L0 → site start first (all_records (lg w0) gs0 pa0) cp0 L i L2 →
  (∀ R, MarkFiles.markIn (shown i) MarkFiles.reservedName = Some R → R + 1 < maxU64) → left_by i d →
  maxRecordBytes (withDefaults o) = maxRecordBytes (opts (log_of (lsys L))) →
  ∃ l d1 gs' pa' cp m w',
    Recovery.Open o clock newId d = (Ok (l, []), d1) ∧ fresh (World l d1) gs' pa' ∧ Buffer.at_head l ∧
    nextLSN l < maxU64 ∧ Buffer.covered (World l d1) cp ∧ cp < nextLSN l ∧
    (∀ e, owed (all_records (lg w0) gs0 pa0) cp0 (since (lsys L2)) e → mark L2 < e.1 → cp < e.1 ∧ e ∈ all_records l gs' pa') ∧
    Buffer.resumeMark (World l d1) = (Ok m, w').
Proof using Hfr Hfb.
  intros Hst O [(k & I) <- [(cp & Hc & Hh) _ _] Hsm Hcl Htd Eo Hid _ _] Hroom [Hp Hv] Ho.
  destruct (l_tail _ _ _ _ _ _ _ _ _ _ _ _ I) as (gs & pa & fly & st & junk & h & flown & old & G & K).
  destruct (site_comes_up _ _ _ _ _ _ _ _ _ _ o clock newId G Hcl Htd) as (R & l & v' & gs' & pa' & HR & Hy & [Hf Hn Hres Hhd Hfst Hfiles Hkept _]).
  { intros R HR. specialize (Hroom R HR). lia. }
  { done. }
  { by rewrite Eo. }
  specialize (Hroom R HR).
  destruct (Hy d Hp Hv) as (d1 & E1 & Hp1 & Hv1).
  assert (Hb : Recovery.bystander MarkFiles.checkpointName) by (repeat split; by vm_compute).
  assert (Hcov : Buffer.covered (World l d1) cp).
  { split; [|simpl; rewrite Hhd; exact Hh]. unfold checkpointIn, MarkFiles.markIn in *. simpl. by rewrite Hv1, Hfiles. }
  destruct (Buffer.resume_succeeds (World l d1) cp Hp1 Hcov) as (m & w' & Em & _).
  exists l, d1, gs', pa', cp, m, w'. split; [done|]. split; [by apply Hf|]. split; [done|]. split; [lia|].
  split; [done|]. pose proof (live_mark_below _ _ _ _ Hfr Hfb _ _ _ Hst _ _ _ _ _ I Hsm) as Hm.
  pose proof (l_checkpoint _ _ _ _ _ _ _ _ _ _ _ _ I cp Hc) as Hcp. pose proof (l_front _ _ _ _ _ _ _ _ _ _ _ _ I) as [Hf0 _].
  pose proof (l_upto _ _ _ _ _ _ _ _ _ _ _ _ I) as Hup.
  destruct (Tail.t_within _ _ _ _ _ _ _ K) as (t & ps & Hin & Hle). pose proof (frontier_top G t ps Hin).
  pose proof (i_core _ _ _ _ _ _ _ _ _ _ G) as C. pose proof (c_next _ _ _ _ _ _ _ C). pose proof (c_reserved _ _ _ _ _ _ _ C).
  assert (frontier (log_of (lsys L2)) <= nextLSN l).
  { unfold frontier, log_of in *. rewrite (rep_count _ _ _ _ _ (c_active _ _ _ _ _ _ _ C)).
    pose proof (len_nonneg fly). pose proof (len_nonneg st). lia. }
  split; [lia|]. split; [|done].
  intros e He Hlt. destruct (owed_bounds codec onDecodeFailure flushRecords flushBytes cfg logID start Hst first _ _ _ _ _ _ _ _ O I He) as (Hc0 & _ & Hin').
  split; [lia|]. apply Hkept, (acknowledged_in_log G); [exact Hin' | lia].
Qed.

(** A disk that shows the same directory does as well. *)
Lemma fresh_shown w gs pa d : fresh w gs pa → Disk.view d = Disk.view (dk w) → fresh (World (lg w) d) gs pa.
Proof using. intros F Hv. destruct F. split; try done. by apply (core_view_same fr_core0). Qed.

Lemma opened_shown start first w gs pa cp r (P : @Pipeline.pipe T) d :
  opened start first w gs pa cp (Live (Sys w Idle [] 0) r [] P Resting) → Disk.view d = Disk.view (dk w) →
  opened start first (World (lg w) d) gs pa cp (Live (Sys (World (lg w) d) Idle [] 0) r [] P Resting).
Proof using.
  intros [] Hv. split; try done; [by apply fresh_shown|]. unfold Buffer.covered, checkpointIn in *. simpl. by rewrite Hv.
Qed.

(** What the new run has to begin with. *)
Lemma resumed w gs pa cp m w' :
  fresh w gs pa → Buffer.at_head (lg w) → Buffer.covered w cp → nextLSN (lg w) < maxU64 →
  Buffer.resumeMark w = (Ok m, w') →
  m +u 1 = m + 1 ∧ 1 <= m + 1 < maxU64 ∧ Buffer.at_head (lg w') ∧
  (∃ r, Reader.NewReader (lg w') (m + 1) = Ok r) ∧ ∃ gs', fresh w' gs' pa.
Proof using.
  intros F Hh Hcov Hmax H. pose proof (checkpoint_is_u64 _ _ (proj1 Hcov)) as Hu.
  destruct (Buffer.resume_spec _ _ _ _ _ _ F Hh Hcov Hu Hmax H) as (k & cp' & F' & _ & _ & _ & _ & Hm & Hn & Hp & Hh').
  split; [apply u64_id; unfold is_u64, maxU64 in *; lia|]. split; [lia|]. split; [done|].
  split; [by apply Buffer.new_reader_at | by eexists].
Qed.

(** The state of a run that was killed. *)
Lemma site_of start first w0 gs0 pa0 cp0 L0 L i :
  1 <= start < maxU64 → opened start first w0 gs0 pa0 cp0 L0 → rtc (run start) L0 L → small L →
  killed_at start L i → killable L i → ∃ L2, site start first (all_records (lg w0) gs0 pa0) cp0 L i L2.
Proof using Hfr Hfb.
  intros Hst O R0 Hsm Hk HK.
  pose proof (live_opened codec onDecodeFailure flushRecords flushBytes cfg logID _ Hst _ _ _ _ _ _ O) as I0.
  destruct (held_run _ _ Hst _ _ _ _ R0 _ I0 Hsm (held_opened _ _ _ _ _ _ _ O)) as (k & I & Hd).
  assert (Hr0 : reachable w0 (lsys L0)) by (rewrite (o_sys _ _ _ _ _ _ _ O); apply reach_init).
  pose proof (reachable_claimed _ _ _ _ (o_fresh _ _ _ _ _ _ _ O) (run_reachable _ _ Hst _ _ _ _ _ R0 _ I0 Hsm Hr0)) as Hc.
  by eapply killed_site.
Qed.

(** Opening again always succeeds. *)
Lemma reopening_succeeds start first w0 gs0 pa0 cp0 L0 L i o d :
  1 <= start < maxU64 → opened start first w0 gs0 pa0 cp0 L0 → rtc (run start) L0 L → small L →
  killed_at start L i → killable L i → left_by i d →
  maxRecordBytes (withDefaults o) = maxRecordBytes (opts (log_of (lsys L))) →
  ∃ start' first' L', starts_from o d start' first' L'.
Proof using Hfr Hfb.
  intros Hst O R0 Hsm Hk HK Hd Ho. destruct (site_of _ _ _ _ _ _ _ _ _ Hst O R0 Hsm Hk HK) as (L2 & S2).
  destruct (reopened_log start first _ _ _ _ _ _ _ _ o (λ _, 0) [] d Hst O S2 (k_room _ _ HK) Hd Ho)
    as (l & d1 & gs' & pa' & cp & m & w' & E1 & F & Hh & Hmax & Hcov & _ & _ & Em).
  destruct (resumed _ _ _ _ _ _ F Hh Hcov Hmax Em) as (Hu & Hm & Hh' & (r & Hr) & gs2 & F').
  destruct (Buffer.backlog_counted w' gs2 pa' (m + 1) r F' Hh' ltac:(lia) Hr) as (es & rest & _ & Hcb & _).
  eexists _, _, _, (λ _, 0), [], _, 0, State.noObserver, 0, _, _, r, (dk w').
  split; [unfold Buffer.Open; rewrite E1, Em, Hu, Hcb; reflexivity | done].
Qed.

(** And what comes up answers for whatever has not been handled. *)
Lemma reopening_answers start first w0 gs0 pa0 cp0 L0 L o start' first' L' :
  1 <= start < maxU64 → opened start first w0 gs0 pa0 cp0 L0 → rtc (run start) L0 L → small L →
  reopens o start L start' first' L' →
  1 <= start' < maxU64 ∧ ∃ w' gs' pa' cp', opened start' first' w' gs' pa' cp' L' ∧
    ∀ e, owed (all_records (lg w0) gs0 pa0) cp0 (since (lsys L)) e →
      (∃ f, Flusher.Got e.1 e.2 f ∈ got L ∧ handled (flow L) (Flusher.Got e.1 e.2 f)) ∨
      owed (all_records (lg w') gs' pa') cp' (since (lsys L')) e.
Proof using Hfr Hfb.
  intros Hst O R0 Hsm (i & d & Hk & HK & Hd & Ho & clock & newId & fuel & now & obs & queue & op & d' & r & d2 & HO & Hr & -> & -> & Hd2 & ->).
  destruct (site_of _ _ _ _ _ _ _ _ _ Hst O R0 Hsm Hk HK) as (L2 & S2).
  destruct (reopened_log start first _ _ _ _ _ _ _ _ o clock newId d Hst O S2 (k_room _ _ HK) Hd Ho)
    as (l & d1 & gs' & pa' & cp & m & w' & E1 & F & Hh & Hmax & Hcov & Hcp & Hall & Em).
  destruct (resumed _ _ _ _ _ _ F Hh Hcov Hmax Em) as (Hu & Hm & _ & _ & _).
  unfold Buffer.Open in HO. rewrite E1, Em, Hu in HO. destruct (Buffer.countBacklog _ _ _ _) as [[c|e]|]; [|done..].
  injection HO as <- _. cbn [Buffer.op_world Buffer.op_from Buffer.op_buffer] in *. split; [done|].
  destruct (open_starts_the_run (T:=T) (m + 1) Hm (Reader.nextLSN r) (World l d1) gs' pa' cp m w' r
    (Pipeline.Pipe (Buffer.inherit now c (State.opened m obs queue 0 0)) [] []))
    as (k & cp' & O' & Hall'); try done; [by eapply checkpoint_is_u64, Hcov | |].
  { split; [|done]. unfold Buffer.inherit. destruct c as [[a b] z]. by case_if. }
  exists (World (lg w') d2), (drop k gs'), pa', cp'. split; [apply opened_shown; [exact O' | unfold Disk.view; by rewrite Hd2]|]. intros e He.
  destruct S2 as [(k1 & I) _ _ Hsm2 _ _ _ _ Hsince Hback].
  assert (He2 : owed (all_records (lg w0) gs0 pa0) cp0 (since (lsys L2)) e) by (destruct He as [He|He]; [by left | right; auto]).
  destruct (owed_bounds codec onDecodeFailure flushRecords flushBytes cfg logID start Hst first _ _ _ _ _ _ _ _ O I He2)
    as (_ & Hf & Hin).
  destruct (Z.le_gt_cases e.1 (mark L2)) as [Hle|Hgt].
  - left. destruct (below_mark_handled _ _ _ _ Hfr Hfb _ _ _ Hst _ _ _ _ _ _ I Hsm2 Hin ltac:(lia)) as (f & _ & Hg & Hh2).
    exists f. by apply Hback.
  - right. destruct (Hall e He2 ltac:(lia)) as [Hlt Hin']. by apply Hall'.
Qed.

(** ** Any number of restarts *)

(** The runs so far, the latest first: how far each got, and the number the latest
    one's flusher started reading at. *)
Inductive runs (o : Options) : Z → list (@live T) → Prop :=
| runs_first start first w0 gs0 pa0 cp0 L0 L :
    1 <= start < maxU64 → opened start first w0 gs0 pa0 cp0 L0 → rtc (run start) L0 L → small L → runs o start [L]
| runs_again start L past start' first' L0 L' :
    runs o start (L :: past) → reopens o start L start' first' L0 → rtc (run start') L0 L' → small L' →
    runs o start' (L' :: L :: past).

(** In some run the record was read, and flushed, dropped with cause or
    dead-lettered. *)
Definition handled_in (past : list (@live T)) (e : Z * bytes) : Prop :=
  ∃ L f, L ∈ past ∧ Flusher.Got e.1 e.2 f ∈ got L ∧ handled (flow L) (Flusher.Got e.1 e.2 f).

(** A write of some run was told that the record is stored. *)
Definition acknowledged_in (past : list (@live T)) (e : Z * bytes) : Prop :=
  ∃ L, L ∈ past ∧ e ∈ acknowledged (log_of (lsys L)) (staged (lsys L)).

Lemma runs_answer o start past : runs o start past → ∃ L past', past = L :: past' ∧ small L ∧ 1 <= start < maxU64 ∧
  ∃ first w0 gs0 pa0 cp0 L0, opened start first w0 gs0 pa0 cp0 L0 ∧ rtc (run start) L0 L ∧
    ∀ e, acknowledged_in past e → handled_in past e ∨ owed (all_records (lg w0) gs0 pa0) cp0 (since (lsys L)) e.
Proof using Hfr Hfb.
  assert (Hnew : ∀ (L : @live T) e init cp0, e ∈ acknowledged (log_of (lsys L)) (staged (lsys L)) →
    owed init cp0 (since (lsys L)) e) by (intros L e i c He; right; apply elem_of_app; by left).
  induction 1 as [start first w0 gs0 pa0 cp0 L0 L Hst O R0 Hsm|st L past start first L0 L' _ IH Hre R0 Hsm].
  - exists L, []. split; [done|]. split; [done|]. split; [done|]. exists first, w0, gs0, pa0, cp0, L0.
    split; [done|]. split; [done|]. intros e (x & ->%list_elem_of_singleton & He). right. by apply Hnew.
  - destruct IH as (? & ? & [= <- <-] & Hsm0 & Hst & fi & w & gs & pa & cp & B & O & R1 & Hold).
    destruct (reopening_answers _ _ _ _ _ _ _ _ _ _ _ _ Hst O R1 Hsm0 Hre)
      as (Hst' & w' & gs' & pa' & cp' & O' & Hans).
    exists L', (L :: past). split; [done|]. split; [done|]. split; [done|]. exists first, w', gs', pa', cp', L0.
    split; [done|]. split; [done|].
    assert (Hmore : ∀ e, owed (all_records (lg w') gs' pa') cp' (since (lsys L0)) e →
      owed (all_records (lg w') gs' pa') cp' (since (lsys L')) e).
    { intros e [He|He]; [by left|]. rewrite (o_sys _ _ _ _ _ _ _ O') in He. by apply not_elem_of_nil in He. }
    intros e (x & Hx & He). apply elem_of_cons in Hx as [->|Hx]; [right; by apply Hnew|].
    destruct (Hold e ltac:(by exists x)) as [(y & f & Hy & Hf)|Howed].
    + left. exists y, f. split; [by right | done].
    + destruct (Hans e Howed) as [(f & Hf)|Hn]; [left | right; by apply Hmore].
      exists L, f. split; [right; left | done].
Qed.

(** C1: at least once, across any number of crashes.  The buffer runs, is killed,
    and is opened again over the directory it left, as often as one likes, with
    disk calls failing during the runs.  A kill falls at any moment of a run:
    between two steps or inside one, behind any call it makes to the directory (a
    rotation's, with the next segment created and not yet the log's, included).
    Every record some run acknowledged to its writer has been read and handled by
    some run; or it is still in the latest one's log, above its mark and above
    the checkpoint on disk, where the next [Open] resumes.  A run begins when
    [Open] has returned: a kill while it works is not among them.

    What [reopens] asks of each kill ([killable]) and of the [Open] behind it: no
    segment file was stray before the interrupted step, the directory's identity
    can be read, no call that fails from that step on fails by saying that a file
    is absent, the reservation is at least two below the last number, the record
    limit is the one of the killed run, and no call of that [Open] fails.  What
    one run reads is less than an int64 counts ([small]). *)
Theorem delivered_at_least_once o start L past e :
  runs o start (L :: past) → acknowledged_in (L :: past) e →
  handled_in (L :: past) e ∨
  (mark L < e.1 ∧ (∀ cp, checkpointIn (sw (lsys L)) = Some cp → cp < e.1) ∧
   ∃ gs pa, holds (sw (lsys L)) gs pa ∧ e ∈ all_records (log_of (lsys L)) gs pa).
Proof using Hfr Hfb.
  intros HR Ha. destruct (runs_answer _ _ _ HR) as (? & ? & [= <- <-] & Hsm & Hst & first & w0 & gs0 & pa0 & cp0 & L0 & O & R0 & Hall).
  destruct (Hall e Ha) as [H|Howed]; [by left|].
  destruct (below_or_held codec onDecodeFailure flushRecords flushBytes Hfr Hfb cfg logID maxInFlight start Hst first
    _ _ _ _ _ _ _ O R0 Hsm Howed) as [(f & _ & Hf)|H]; [left | by right].
  exists L, f. split; [left | done].
Qed.

(** C7: a killed buffer can be opened again.  Over the directory left by a kill at
    any moment of a run, inside a step included, [Open] succeeds, the backlog
    count ends, and what it starts is another run that a writer and the flusher
    can go on from.

    On the conditions of [killable]: no segment file was stray before the
    interrupted step, which [stray_segment_refuses_open] (file Recovery) shows to
    be needed (a rotation that fails and cannot remove the segment it made leaves
    one, while the process lives on); the directory's identity can be read; no call that fails
    from that step on fails by saying that a file is absent; and the reservation
    is at least two below the last number.  The record limit is that of the killed
    run, and no call of the [Open] itself fails. *)
Theorem killed_buffer_reopens o start L past i d :
  runs o start (L :: past) → killed_at start L i → killable L i → left_by i d →
  maxRecordBytes (withDefaults o) = maxRecordBytes (opts (log_of (lsys L))) →
  ∃ start' first' L', starts_from o d start' first' L' ∧ reopens o start L start' first' L' ∧ runs o start' (L' :: L :: past).
Proof using Hfr Hfb.
  intros HR Hk HK Hd Ho. destruct (runs_answer _ _ _ HR) as (? & ? & [= <- <-] & Hsm & Hst & fi & w0 & gs0 & pa0 & cp0 & L0 & O & R0 & _).
  destruct (reopening_succeeds _ _ _ _ _ _ _ _ _ _ _ Hst O R0 Hsm Hk HK Hd Ho) as (start' & first' & L' & Hfrom).
  assert (Hre : reopens o start L start' first' L') by (by exists i, d). exists start', first', L'. split; [done|]. split; [done|].
  eapply runs_again; [done | exact Hre | apply rtc_refl |].
  destruct Hfrom as (? & ? & ? & ? & ? & ? & ? & ? & ? & ? & _ & _ & _ & _ & _ & ->). by split.
Qed.
End restart.

(** *** A run, a kill inside a rotation, a restart

    The log of two records is opened, a third is written and acknowledged; the
    next does not fit the segment, and the process is killed before anything is
    delivered, when the file of the next segment is there and nothing more. *)
Definition ex_written : @live bytes := Live (round_trip [p1] ex_sys) ex_r0 [] ex_P0 Resting.
Definition ex_opts : Options := opts (log_of (lsys ex_written)).

Definition ex_at (s : sys) : @live bytes := Live s ex_r0 [] ex_P0 Resting.
Definition ex_staged : sys := after_append [ex_long] (lsys ex_written).
Definition ex_job : option (job * log) := commitBegin (log_of ex_staged).
Definition ex_rotating : sys :=
  match ex_job with
  | Some (j, l') => Sys (World l' (dk (sw ex_staged))) (Writing j) (staged ex_staged) (upto ex_staged)
  | None => ex_staged
  end.
Definition ex_rotated : sys :=
  match ex_job with
  | Some (j, _) =>
      let '(r, w') := rotate (jfirst j) (sw ex_rotating) in
      Sys w' (after_rotate j r) (staged ex_rotating) (upto ex_rotating)
  | None => ex_staged
  end.
Definition ex_during : list Disk.image :=
  drop (length (Disk.trail (dk (sw ex_rotating)))) (Disk.trail (dk (sw ex_rotated))).
Definition ex_killed_at : Disk.image := default (Disk.img (dk (sw ex_rotating))) (ex_during !! 0%nat).
Definition ex_disk : Disk.disk := Recovery.shows (shown ex_killed_at).
Definition ex_live : @live bytes := ex_at ex_rotating.

Local Abbreviation ex_run := (Live.step Flusher.ex_codec None 2 100 Pipeline.ex_cfg [] 1 1).
Local Abbreviation ex_runs := (runs Flusher.ex_codec None 2 100 Pipeline.ex_cfg [] 1 ex_opts).

Lemma ex_log_step s s' : rtc ex_run ex_L0 (ex_at s) → running s s' → rtc ex_run ex_L0 (ex_at s').
Proof. intros R Hs. eapply rtc_r; [exact R | by apply (live_log _ _ _ _ _ _ _ _ (ex_at s))]. Qed.

Lemma ex_written_run : rtc ex_run ex_L0 ex_written.
Proof.
  assert (H : rtc ex_run ex_L0 (ex_at (round_trip [p1] ex_sys))); [|exact H].
  apply (round_trip_run (λ s, rtc ex_run ex_L0 (ex_at s)) ex_log_step) with (last := 3).
  - apply rtc_refl.
  - done.
  - done.
  - unfold room. by vm_compute.
  - by vm_compute.
Qed.

Lemma ex_rotation : rtc ex_run ex_L0 ex_live ∧ ex_run ex_live (ex_at ex_rotated).
Proof.
  assert (R : rtc ex_run ex_L0 (ex_at ex_staged)).
  { apply (append_run (λ s, rtc ex_run ex_L0 (ex_at s)) ex_log_step) with (last := 4);
      [exact ex_written_run | done | done | unfold room; by vm_compute | by vm_compute]. }
  assert (Hj : match ex_job with Some (j, l') => mustRotate l' (buf j) = true | None => False end) by by vm_compute.
  unfold ex_live, ex_rotated, ex_rotating. destruct ex_job as [[j l']|] eqn:Ej; [|destruct Hj].
  set (s1 := Sys (World l' (dk (sw ex_staged))) (Writing j) (staged ex_staged) (upto ex_staged)).
  split; [exact (ex_log_step _ _ R (run_begin ex_staged j l' eq_refl Ej))|].
  destruct (rotate (jfirst j) (sw s1)) as [r w'] eqn:E.
  apply (live_log _ _ _ _ _ _ _ _ (ex_at s1)), (run_rotate s1 j r w' eq_refl).
  change (log_of s1) with l'. by rewrite Hj.
Qed.

Lemma ex_inside : killed_at Flusher.ex_codec None 2 100 Pipeline.ex_cfg [] 1 1 ex_live ex_killed_at.
Proof.
  exists (ex_at ex_rotated). split; [right; exact (proj2 ex_rotation)|].
  right. exists ex_during. split; [vm_compute; reflexivity|].
  apply (list_elem_of_lookup_2 _ 0). vm_compute. reflexivity.
Qed.

Lemma ex_killable : killable ex_live ex_killed_at.
Proof.
  split; [by vm_compute | by vm_compute | |].
  - assert (E : Disk.plan (dk (sw (lsys ex_live))) = []) by by vm_compute. rewrite E. constructor.
  - assert (E : MarkFiles.markIn (shown ex_killed_at) MarkFiles.reservedName = Some 1048578) by by vm_compute.
    rewrite E. intros R [= <-]. reflexivity.
Qed.

Lemma ex_left : left_by ex_killed_at ex_disk.
Proof. split; [done | apply Recovery.view_shows]. Qed.

Lemma ex_small_written : small ex_written.
Proof. by split; vm_compute. Qed.

Lemma ex_small_live : small ex_live.
Proof. by split; vm_compute. Qed.

Lemma ex_start : 1 <= 1 < maxU64.
Proof. unfold maxU64. lia. Qed.

Lemma ex_first_run : ex_runs 1 [ex_live].
Proof. exact (runs_first _ _ _ _ _ _ _ _ 1 1 _ _ _ _ _ _ ex_start ex_opened (proj1 ex_rotation) ex_small_live). Qed.

Lemma ex_limit : maxRecordBytes (withDefaults ex_opts) = maxRecordBytes (opts (log_of (lsys ex_live))).
Proof. by vm_compute. Qed.

Lemma killed_buffer_reopens_witness :
  shown ex_killed_at !! segmentName 4 3 = Some [] ∧ ex_runs 1 [ex_live] ∧
  ∃ start first L', starts_from ex_opts ex_disk start first L' ∧ ex_runs start [L'; ex_live].
Proof.
  split; [by vm_compute|]. split; [exact ex_first_run|].
  destruct (killed_buffer_reopens Flusher.ex_codec None 2 100 ltac:(lia) ltac:(lia) Pipeline.ex_cfg [] 1 ex_opts 1 ex_live []
    ex_killed_at ex_disk ex_first_run ex_inside ex_killable ex_left ex_limit) as (start & first & L' & H1 & _ & H2).
  exists start, first, L'. exact (conj H1 H2).
Defined.

Lemma ex_second_run : ∃ start L', ex_runs start [L'; ex_live].
Proof.
  destruct (reopening_succeeds Flusher.ex_codec None 2 100 ltac:(lia) ltac:(lia) Pipeline.ex_cfg [] 1 1 1 _ _ _ _ _ _ ex_killed_at
    ex_opts ex_disk ex_start ex_opened (proj1 ex_rotation) ex_small_live ex_inside ex_killable ex_left ex_limit) as (st & fi & L' & H).
  exists st, L'. eapply (runs_again _ _ _ _ _ _ _ _ 1 _ _ st fi); [exact ex_first_run | | apply rtc_refl |].
  - exists ex_killed_at, ex_disk. split; [exact ex_inside|]. split; [exact ex_killable|]. split; [exact ex_left|].
    split; [exact ex_limit | exact H].
  - destruct H as (? & ? & ? & ? & ? & ? & ? & ? & ? & ? & _ & _ & _ & _ & _ & ->). by split.
Qed.

Lemma delivered_at_least_once_witness :
  ∃ start L', ex_runs start [L'; ex_live] ∧
    (handled_in Flusher.ex_codec None Pipeline.ex_cfg [] [L'; ex_live] (3, p1) ∨ mark L' < 3).
Proof.
  destruct ex_second_run as (st & L' & HR). exists st, L'. split; [exact HR|].
  assert (Ha : acknowledged_in [L'; ex_live] (3, p1)).
  { exists ex_live. split; [right; left|]. assert (E : acknowledged (log_of (lsys ex_live)) (staged (lsys ex_live)) = [(3, p1)])
      by by vm_compute. rewrite E. left. }
  destruct (delivered_at_least_once Flusher.ex_codec None 2 100 ltac:(lia) ltac:(lia) Pipeline.ex_cfg [] 1 ex_opts st L' [ex_live]
    (3, p1) HR Ha) as [H|[H _]]; [left; exact H | right; exact H].
Defined.

End Restart.
