(* ===== verification/Outage.v ===== *)
(** * A loss of power while the buffer runs (src/batch.go, src/flush.go, src/internal/wal)

    [Live] says that a kill loses nothing; here the power goes, at any moment of
    any step.  Two things must be on disk by then: the records that no delivery
    has taken, synced in their segments (file Durable), and a checkpoint that does
    not run ahead of the deliveries, whichever of its versions comes back.  The
    next boot finds both; what [Open] makes of them (file Sound) is again a run
    whose directory is on disk, and so on for any number of power losses. *)

From stdpp Require Import strings.
From S2P Require Import Prelude Errors Text Record Disk Segment MarkFiles Log LogInv Frame LogSteps Durable Recovery PowerLoss Sound Reader Tail Tracker Sink Flusher Delivery State Buffer Pipeline Live Restart.
Local Open Scope Z_scope.
Local Open Scope go_scope.

Module Outage.
Import Record Segment MarkFiles Log LogInv Frame LogSteps Durable PowerLoss Sink Live.

(** The checkpoint, whichever version of it comes back, says at most [k]. *)
Definition behind (k : Z) : Disk.image → Prop := marked checkpointName (λ m, m <= k).

Lemma behind_mono k k' i : k <= k' → behind k i → behind k' i.
Proof. intros Hk. apply marked_mono. lia. Qed.

(** ** Starting again *)

(** The directory as the next boot finds it: all that is there is on disk. *)
Definition booted (m : gmap bytes bytes) (d : Disk.disk) : Prop :=
  Disk.img d = Disk.img (Recovery.shows m) ∧ Forall honest_fault (Disk.plan d).

Lemma booted_view m d : booted m d → Disk.view d = m.
Proof. intros [E _]. unfold Disk.view. rewrite E. apply Recovery.view_shows. Qed.

Lemma booted_bindings m d n : booted m d → Disk.bindings (Disk.img d) n = [(λ c, Disk.File c c) <$> m !! n].
Proof. intros [-> _]. unfold Disk.bindings, Recovery.shows. simpl. by rewrite lookup_fmap, lookup_empty. Qed.

Lemma booted_secured m d n c rest : booted m d → m !! n = Some (c ++ rest) → secured n c (Disk.img d).
Proof.
  intros B E. unfold secured, Disk.guarding. rewrite (booted_bindings _ _ _ B), E. eexists. split; [done|].
  simpl. split; by apply prefix_app_r.
Qed.

Lemma booted_marked m d name k : booted m d → markIn m name = Some k → marked name (eq k) (Disk.img d).
Proof.
  intros B E b Hb. rewrite (booted_bindings _ _ _ B) in Hb. apply list_elem_of_singleton in Hb as ->.
  unfold markIn in E. destruct (m !! name) as [c|]; simpl; [split; [done|]|]; by exists k.
Qed.

Lemma marked_current name k d : marked name (eq k) (Disk.img d) → markIn (Disk.view d) name = Some k.
Proof.
  intros H. specialize (H (Disk.files (Disk.img d) !! name) ltac:(left)). unfold markIn. rewrite Disk.view_lookup.
  destruct (Disk.files (Disk.img d) !! name) as [fl|]; [destruct H as [_ H]|]; by destruct H as (? & H & <-).
Qed.

(** A mark that is not the log's own, through [Open]. *)
Lemma open_marked o clock newId d r d' name P :
  name = checkpointName ∨ name = reservedName → salvageSet o = false → Recovery.Open o clock newId d = (r, d') →
  marked name P (Disk.img d) → marked name P (Disk.img d').
Proof.
  intros Hn Hs H Hi. assert (Hseg : ∀ b p, segmentName b p ≠ name).
  { intros b p E. apply (f_equal length) in E. rewrite length_segmentName in E. by destruct Hn as [->| ->]. }
  assert (K : holding (marked name P) d d').
  { refine (sp_Open name _ Hseg _ _ _ o clock newId Hs _ _ _ H); destruct Hn as [->| ->]; by vm_compute. }
  destruct K as (a & _ & K). by apply K.
Qed.

(** The log [Open] returns over such a directory is on disk. *)
Lemma open_settled o clock newId m d l reps d' gs pa :
  booted m d → salvageSet o = false → syncMode (withDefaults o) ≠ SyncNever →
  Recovery.Open o clock newId d = (Ok (l, reps), d') → Sound.cuts (Disk.view d) (Disk.view d') →
  Sound.sound (withDefaults o) (World l d') gs pa → settled 0 (World l d').
Proof.
  intros B Hs Hm H Hcut [F Ho Hr Hf]. unfold settled. simpl in Ho, Hr.
  split; unfold log_of; simpl; [by rewrite Ho | by right|]. intros t Ht Hpos _ _.
  pose proof (fr_core _ _ _ F) as C. simpl in C.
  assert (Hbook : ∃ ps, (t, ps) ∈ book l gs pa).
  { pose proof Ht as Ht'. pose proof (book_fst C) as Ef. simpl in Ef. rewrite <- Ef in Ht'. apply list_elem_of_fmap in Ht' as ([t' ps] & -> & Hin). by exists ps. }
  destruct Hbook as (ps & Hin). destruct (book_rep C t ps Hin) as (_ & j & Hrep). simpl in Hrep.
  destruct (rep_is_u64 _ _ _ _ _ Hrep) as [Hb Hp]. pose proof (rep_count _ _ _ _ _ Hrep) as Hcnt.
  assert (Hne : ps ≠ []) by (intros ->; rewrite len_nil in Hcnt; lia).
  assert (Hfr : frames ps ++ j ≠ []).
  { destruct ps as [|p0 ps]; [done|]. rewrite frames_cons. intros E. apply (f_equal len) in E.
    rewrite !len_app, len_frame, len_nil in E. unfold recordSize, headerSize in E.
    pose proof (len_nonneg p0). pose proof (len_nonneg (frames ps)). pose proof (len_nonneg j). lia. }
  pose proof (rep_file _ _ _ _ _ Hrep) as Hfile. rewrite (rep_path _ _ _ _ _ Hrep) in *.
  destruct (Hcut _ _ (length_segmentName _ _) Hfr Hfile) as (rest & Hrest). rewrite <- app_assoc in Hrest.
  exists (frames ps). split; [by rewrite (rep_size _ _ _ _ _ Hrep)|].
  assert (Hok : Forall (payload_ok (maxRecordBytes (withDefaults o))) ps) by (rewrite <- Ho; apply Hrep).
  destruct (Open_keeps o clock newId d l reps d' _ _ ps Hb Hp Hok Hne ltac:(by exists (j ++ rest)) Hs (proj2 B) H) as [K _].
  destruct (K (proj2 B)) as [_ K2]. apply K2; [by exists (j ++ rest)|]. eapply booted_secured; [exact B|].
  by rewrite <- (booted_view _ _ B).
Qed.

(** *** What [resumeMark] does to the log *)

Lemma readMark_img name msg d r d' : readMark name msg d = (r, d') → Disk.img d' = Disk.img d.
Proof.
  intros H. unfold readMark in H. apply bind_try_inv in H as (x & d1 & H1 & H).
  assert (E : Disk.img d1 = Disk.img d).
  { apply Disk.call_inv in H1 as [(? & ? & _ & ->)|[(? & i & Ei & _ & ->)|(? & _ & _ & ->)]]; [done | | done].
    destruct (Disk.files (Disk.img d) !! name); [by injection Ei as _ <- | done]. }
  rewrite <- E. destruct x as [c|e]; [destruct (parseMark c)|case_if]; by injection H as _ <-.
Qed.

(** Its two changes are steps of the log: the checkpoint is moved up if it must
    be, and what it covers is cut off. *)
Lemma resume_steps w mk w' : is_u64 mk → is_u64 (mk + 1) → Buffer.resumeMark w = (Ok mk, w') →
  ∃ d1 d2 c, Disk.img d1 = Disk.img (dk w) ∧ (c <? FirstPrevEnd (lg w)) = false ∧
    (c = 0 ∨ markIn (Disk.view (dk w)) checkpointName = Some c) ∧
    (d2 = d1 ∨ WriteCheckpoint mk d1 = (Ok tt, d2)) ∧
    Truncate (mk + 1) (World (lg w) d2) = (Ok tt, w').
Proof.
  intros Hu Hu1 H. unfold Buffer.resumeMark in H. apply on_error_inv in H as [(m' & H & [= <-])|(e & s1 & rc & _ & _ & [=])].
  apply bind_inv in H as [(c & w1 & H1 & H)|(e & _ & [=])]. apply onDisk_inv in H1 as (d1 & H1 & ->).
  pose proof (readMark_img _ _ _ _ _ H1) as E1. apply readMark_inv in H1 as [_ Hc]. specialize (Hc _ eq_refl).
  apply bind_gets_inv in H. cbn [lg] in H. destruct (c <? FirstPrevEnd (lg w)) eqn:Eh; [done|]. cbv zeta in H.
  set (mark := Buffer.clamp c (lg w)) in *.
  assert (Hcut : ∀ d2, (Truncate (mark +u 1) ;;; ret mark) (World (lg w) d2) = (Ok mk, w') → mark = mk ∧
    Truncate (mk + 1) (World (lg w) d2) = (Ok tt, w')).
  { intros d2 H2. apply bind_inv in H2 as [([] & w3 & H3 & H2)|(e & _ & [=])]. injection H2 as E <-. split; [done|].
    by rewrite E, u64_id in H3. }
  exists d1. destruct (c <? mark).
  - apply bind_inv in H as [([] & w2 & H2 & H)|(e & _ & [=])]. apply onDisk_inv in H2 as (d2 & H2 & ->).
    destruct (Hcut _ H) as [E S]. rewrite E in H2. exists d2, c.
    split; [done|]. split; [done|]. split; [by destruct Hc; [right|left]|]. split; [by right | done].
  - apply bind_inv in H as [([] & w2 & H2 & H)|(e & _ & [=])]. injection H2 as <-. destruct (Hcut _ H) as [_ S].
    exists d1, c. split; [done|]. split; [done|]. split; [by destruct Hc; [right|left]|]. split; [by left | done].
Qed.

(** What [resumeMark] leaves of a log that is on disk is on disk. *)
Lemma resume_secure w gs pa c mk w' :
  fresh w gs pa → is_u64 mk → is_u64 (mk + 1) → Buffer.resumeMark w = (Ok mk, w') →
  settled 0 w → spends (reserved (lg w)) (Disk.img (dk w)) → marked checkpointName (eq c) (Disk.img (dk w)) →
  settled (mk + 1) w' ∧ spends (reserved (lg w')) (Disk.img (dk w')) ∧ ∃ k, marked checkpointName (eq k) (Disk.img (dk w')).
Proof.
  intros F Hu Hu1 H Hset Hsp Hck. destruct (resume_steps _ _ _ Hu Hu1 H) as (d1 & d2 & c0 & E1 & _ & _ & H2 & H3).
  set (s1 := Sys (World (lg w) d1) Idle [] 0). set (s2 := Sys (World (lg w) d2) Idle [] 0).
  assert (F1 : fresh (World (lg w) d1) gs pa).
  { apply Restart.fresh_shown; [done|]. unfold Disk.view. by rewrite E1. }
  assert (I1 : inv (all_records (lg w) gs pa) s1) by exact (inv_init _ _ _ F1).
  assert (Sh1 : shielded 0 s1) by (destruct Hset as [S1 S2 S3]; split; unfold s1, log_of in *; simpl in *; rewrite ?E1; done).
  assert (H12 : s2 = s1 ∨ LogSteps.step s1 s2).
  { destruct H2 as [E2|H2]; [left; unfold s2, s1; by rewrite E2 | right]. exact (step_checkpoint s1 _ _ _ Hu H2). }
  assert (Sp1 : spends (reserved (lg w)) (Disk.img d1)) by by rewrite E1.
  assert (Hs2 : inv (all_records (lg w) gs pa) s2 ∧ shielded 0 s2 ∧ spends (reserved (lg w)) (Disk.img d2)).
  { destruct H12 as [E|St]; [unfold s1, s2 in *; injection E as ->; exact (conj I1 (conj Sh1 Sp1))|].
    split; [by eapply inv_step|]. split; [by eapply shielded_step|].
    destruct (step_spends _ _ _ I1 St) as [_ K]. by apply K. }
  destruct Hs2 as (I2 & Sh2 & Sp2).
  assert (St3 : LogSteps.step s2 (Sys w' Idle [] (Z.max (mk + 1) 0))) by exact (step_truncate s2 _ _ _ H3).
  replace (Z.max (mk + 1) 0) with (mk + 1) in St3 by (unfold is_u64 in Hu; lia).
  split; [|split].
  - destruct (shielded_step _ _ _ _ I2 Sh2 St3) as [S1 S2 S3]. split; unfold log_of in *; simpl in *; [done | done|].
    intros t Ht Hpos Hlt _. apply S3; [done | done | unfold is_u64 in Hu; lia | done].
  - destruct (step_spends _ _ _ I2 St3) as [_ K]. by apply K.
  - assert (Hck2 : ∃ k, marked checkpointName (eq k) (Disk.img d2)).
    { destruct H2 as [->|H2]; [exists c; by rewrite E1 | exists mk].
      by apply (replaceFile_marked checkpointName mk (eq mk) _ _ _ Hu eq_refl H2). }
    destruct Hck2 as (k & Hk). exists k. destruct I2 as (gs2 & pa2 & fly & st & junk & h & flown & old & G).
    apply (sp_Truncate checkpointName (holding (marked checkpointName (eq k)))) in H3.
    + destruct H3 as (a & _ & K). by apply K.
    + apply Forall_forall. intros t (j & Hj & _)%elem_of_take.
      eapply (Buffer.sealed_not_checkpoint _ _ _ _ _ _ _ _ (i_core _ _ _ _ _ _ _ _ _ _ G)). by eapply list_elem_of_lookup_2.
Qed.

(** A moment between two steps of the buffer is one of a step of the log. *)
Lemma moment_of_step s s' i : s' = s ∨ LogSteps.step s s' → moment s s' i →
  ∃ s'', LogSteps.step s s'' ∧ moment s s'' i ∧ upto s'' <= upto s'.
Proof.
  intros [->|Hst] Hi; [|by exists s']. eexists. split; [apply step_running, (run_close s)|]. split; [|simpl; lia].
  destruct Hi as [->|(added & E & Hin)]; [by left|]. rewrite <- (app_nil_r (Disk.trail _)) in E at 1.
  apply app_inv_head in E as <-. by apply not_elem_of_nil in Hin.
Qed.

(** A directory as the buffer opens it at [start]: what the reservation and the
    checkpoint say is on disk, and so are the segments that reach to [start]. *)
Record secure (start cp0 : Z) (w0 : world) : Prop := {
  se_log : settled start w0;
  se_reserved : spends (reserved (lg w0)) (Disk.img (dk w0));
  se_mark : behind cp0 (Disk.img (dk w0))
}.

Section outage.
Context {T : Type} (codec : Codec T) (onDecodeFailure : option (DecodeFailure → call DecodeAction)).
Context (flushRecords flushBytes : Z) (Hfr : 1 <= flushRecords) (Hfb : 1 <= flushBytes).
Context (cfg : Delivery.settings) (logID : bytes) (maxInFlight : Z).
Context (start : Z) (Hstart : 1 <= start < maxU64) (first : Z).

Local Abbreviation run := (Live.step codec onDecodeFailure flushRecords flushBytes cfg logID maxInFlight start).
Local Abbreviation live_inv := (Live.live_inv codec onDecodeFailure flushRecords flushBytes cfg logID start first).
Local Abbreviation handled := (Pipeline.handled codec onDecodeFailure cfg logID).

(** ** What a step of the buffer is to the log and to the mark *)

Lemma log_step init cp0 L L' k : live_inv init cp0 L k → small L → run L L' →
  (lsys L' = lsys L ∨ LogSteps.step (lsys L) (lsys L')) ∧ mark L <= mark L' ∧ upto (lsys L') <= mark L + 1.
Proof using Hfr Hfb Hstart.
  intros I Hsm Hs. pose proof (l_upto _ _ _ _ _ _ _ _ _ _ _ _ I) as Hup.
  pose proof (live_source _ _ _ _ _ _ _ _ _ _ _ _ I Hsm) as Src. pose proof (l_flow _ _ _ _ _ _ _ _ _ _ _ _ I) as Fl.
  pose proof (λ m, save_bounds _ _ _ _ Hfr Hfb _ _ _ Hstart _ _ _ _ _ m I Hsm) as Hsv.
  destruct Hs as [L s' Hs|L E res r' Ht Hn|L P' Hs|L Hr H0 Hl|L m r d' Hm H|L m r w' Hm H]; unfold mark, theBuf in *; simpl.
  - rewrite (running_upto _ _ Hs). split; [right; by apply step_running | lia].
  - split; [by left | lia].
  - destruct (Pipeline.flowing_step _ _ _ _ Hfr Hfb _ Hstart _ _ _ _ _ _ _ Src Fl Hs) as (? & _ & ?). split; [by left | lia].
  - split; [by left | lia].
  - destruct (Hsv m (or_introl Hm)) as (Hu & _ & _). split; [right; by eapply step_checkpoint|]. destruct r; simpl; lia.
  - destruct (Hsv m (or_intror Hm)) as (_ & Hu & Hle). replace (m +u 1) with (m + 1) in * by (by rewrite u64_id).
    split; [right; by eapply step_truncate|]. unfold mark in Hle. destruct r as [u|e]; simpl; [|lia].
    destruct (persisted_acks m (Pipeline.buf (flow L))) as [E _]. simpl in E. rewrite E. lia.
Qed.

(** ** The invariant *)

Lemma live_log_inv init cp0 L k : live_inv init cp0 L k → inv init (lsys L).
Proof using Type.
  intros I. destruct (l_tail _ _ _ _ _ _ _ _ _ _ _ _ I) as (gs & pa & fly & st & junk & h & flown & old & G & _).
  by exists gs, pa, fly, st, junk, h, flown, old.
Qed.

Record sheltered (cp0 : Z) (L : @live T) : Prop := {
  sl_log : shielded start (lsys L);
  sl_reserved : spends (reserved (log_of (lsys L))) (Disk.img (dk (sw (lsys L))));
  sl_mark : behind (Z.max (mark L) cp0) (Disk.img (dk (sw (lsys L))))
}.

(** No step writes a checkpoint above the mark, nor touches it otherwise. *)
Lemma step_behind init cp0 L L' k : live_inv init cp0 L k → small L → run L L' →
  holding (behind (Z.max (mark L) cp0)) (dk (sw (lsys L))) (dk (sw (lsys L'))).
Proof using Hfr Hfb Hstart.
  intros I Hsm Hs. pose proof (λ m, save_bounds _ _ _ _ Hfr Hfb _ _ _ Hstart _ _ _ _ _ m I Hsm) as Hsv.
  destruct (l_tail _ _ _ _ _ _ _ _ _ _ _ _ I) as (gs & pa & fly & st & junk & h & flown & old & G & _).
  destruct Hs as [L s' Hs|L E res r' Ht Hn|L P' Hs|L Hr H0 Hl|L m r d' Hm H|L m r w' Hm H]; simpl; try reflexivity.
  - exact (checkpoint_spared _ G Hs).
  - destruct (Hsv m (or_introl Hm)) as (Hu & _ & Hle). refine (proj1 (replaceFile_marked _ m _ _ _ _ Hu _ H)). lia.
  - apply (sp_Truncate checkpointName (holding (behind (Z.max (mark L) cp0)))) in H; [exact H|]. apply Forall_forall.
    intros s (i & Hi & _)%elem_of_take. eapply (Buffer.sealed_not_checkpoint _ _ _ _ _ _ _ _ (i_core _ _ _ _ _ _ _ _ _ _ G)).
    by eapply list_elem_of_lookup_2.
Qed.

Lemma sheltered_step init cp0 L L' k : live_inv init cp0 L k → small L → run L L' → sheltered cp0 L → sheltered cp0 L'.
Proof using Hfr Hfb Hstart.
  intros I Hsm Hs [H1 H3 H2]. destruct (log_step _ _ _ _ _ I Hsm Hs) as (Hl & Hm & _).
  destruct (step_behind _ _ _ _ _ I Hsm Hs) as (added & _ & K). destruct (K H2) as [H2' _]. split.
  - destruct Hl as [->|Hl]; [done|]. eapply shielded_step; [by eapply live_log_inv | exact H1 | exact Hl].
  - destruct Hl as [->|Hl]; [done|]. destruct (step_spends _ _ _ (live_log_inv _ _ _ _ I) Hl) as [_ K2]. by apply K2.
  - eapply behind_mono; [|exact H2']. lia.
Qed.

Lemma sheltered_run init cp0 L L' : rtc run L L' → ∀ k, live_inv init cp0 L k → small L' → sheltered cp0 L →
  ∃ k', live_inv init cp0 L' k' ∧ sheltered cp0 L'.
Proof using Hfr Hfb Hstart.
  induction 1 as [L|L L1 L2 Hs R IH]; intros k I Hsm Hd; [by exists k|].
  pose proof (small_run _ _ _ _ _ _ _ _ _ _ R Hsm) as Hsm1. pose proof (small_back _ _ _ _ _ _ _ _ _ _ Hs Hsm1) as Hsm0.
  destruct (live_step _ _ _ _ Hfr Hfb _ _ _ _ Hstart _ _ _ _ _ _ I Hsm0 Hs) as (k1 & I1).
  apply (IH k1); [done | done|]. exact (sheltered_step _ _ _ _ _ I Hsm0 Hs Hd).
Qed.

Lemma sheltered_opened w0 gs0 pa0 cp0 L : opened start first w0 gs0 pa0 cp0 L → secure start cp0 w0 → sheltered cp0 L.
Proof using.
  intros O [H1 H2 H3]. split; rewrite (o_sys _ _ _ _ _ _ _ O); [exact H1 | exact H2|]. eapply behind_mono; [|exact H3]. lia.
Qed.

Lemma sheltered_reached w0 gs0 pa0 cp0 L0 L :
  opened start first w0 gs0 pa0 cp0 L0 → secure start cp0 w0 → rtc run L0 L → small L →
  ∃ k, live_inv (all_records (lg w0) gs0 pa0) cp0 L k ∧ sheltered cp0 L.
Proof using Hfr Hfb Hstart.
  intros O Hsec R Hsm.
  pose proof (live_opened codec onDecodeFailure flushRecords flushBytes cfg logID _ Hstart _ _ _ _ _ _ O) as I0.
  exact (sheltered_run _ _ _ _ R _ I0 Hsm (sheltered_opened _ _ _ _ _ O Hsec)).
Qed.

(** *** At every moment *)

(** A record of the log that no truncation may take is in the files the loss
    leaves. *)
Lemma moment_stored init cp0 L L' k i m e gs pa fly st junk h flown old :
  live_inv init cp0 L k → small L → run L L' → sheltered cp0 L →
  good init (lsys L) gs pa fly st junk h flown old → moment (lsys L) (lsys L') i → Disk.power_loss i m →
  e ∈ all_records (log_of (lsys L)) gs pa → start <= e.1 → mark L < e.1 →
  ∃ b p ps, in_file m (maxRecordBytes (opts (log_of (lsys L)))) b p ps e.
Proof using Hfr Hfb Hstart.
  intros I Hsm Hs [H1 _ _] G Hi Hl He HF Hm. destruct (log_step _ _ _ _ _ I Hsm Hs) as (Hst & _ & Hup).
  pose proof (l_upto _ _ _ _ _ _ _ _ _ _ _ _ I) as Hup0. destruct (moment_of_step _ _ _ Hst Hi) as (s' & Hst' & Hi' & Hup').
  eapply (shielded_survives _ _ _ _ _ _ _ _ _ _ _ _ _ _ _ G H1 Hst'); [exact Hi' | exact Hl | exact He | exact HF | lia].
Qed.

Lemma moment_reserved init cp0 L L' k i m : live_inv init cp0 L k → small L → run L L' → sheltered cp0 L →
  moment (lsys L) (lsys L') i → Disk.power_loss i m →
  ∃ R, markIn m reservedName = Some R ∧ reserved (log_of (lsys L)) <= R.
Proof using Hfr Hfb Hstart.
  intros I Hsm Hs Sh Hi Hl. destruct (log_step _ _ _ _ _ I Hsm Hs) as (Hst & _ & _).
  destruct (moment_of_step _ _ _ Hst Hi) as (s' & Hst' & Hi' & _).
  eapply marked_survives; [|exact Hl].
  eapply moment_holds; [apply (step_spends _ _ _ (live_log_inv _ _ _ _ I) Hst') | apply Sh | exact Hi'].
Qed.

Lemma moment_checkpoint init cp0 L L' k i m : live_inv init cp0 L k → small L → run L L' → sheltered cp0 L →
  moment (lsys L) (lsys L') i → Disk.power_loss i m →
  ∃ c, markIn m checkpointName = Some c ∧ c <= Z.max (mark L) cp0.
Proof using Hfr Hfb Hstart.
  intros I Hsm Hs Sh Hi Hl. eapply marked_survives; [|exact Hl].
  eapply moment_holds; [by apply (step_behind _ _ _ _ _ I Hsm Hs) | apply Sh | exact Hi].
Qed.

(** Every record the buffer answers for has been read and handled, or, whatever
    the loss leaves, the checkpoint reads as less than its number and the record
    is whole in the file of a segment, behind whole records. *)
Lemma outage_keeps w0 gs0 pa0 cp0 L L' k i m e (L0 : @live T) :
  opened start first w0 gs0 pa0 cp0 L0 → live_inv (all_records (lg w0) gs0 pa0) cp0 L k → sheltered cp0 L →
  run L L' → small L → moment (lsys L) (lsys L') i → Disk.power_loss i m →
  owed (all_records (lg w0) gs0 pa0) cp0 (since (lsys L)) e →
  (∃ f, Flusher.Got e.1 e.2 f ∈ got L ∧ handled (flow L) (Flusher.Got e.1 e.2 f)) ∨
  (∀ c, markIn m checkpointName = Some c → c < e.1) ∧
  ∃ b p ps, in_file m (maxRecordBytes (opts (log_of (lsys L)))) b p ps e.
Proof using Hfr Hfb Hstart.
  intros O I Sh Hs Hsm Hi Hl He.
  destruct (owed_bounds codec onDecodeFailure flushRecords flushBytes cfg logID start Hstart first _ _ _ _ _ _ _ _ O I He)
    as (Hc & Hst & Hh).
  destruct (Z.le_gt_cases e.1 (mark L)) as [Hle|Hgt].
  - left. destruct (below_mark_handled _ _ _ _ Hfr Hfb _ _ _ Hstart _ _ _ _ _ _ I Hsm Hh ltac:(lia)) as (f & _ & Hf). by exists f.
  - right. split.
    + destruct (moment_checkpoint _ _ _ _ _ _ _ I Hsm Hs Sh Hi Hl) as (c & Hcm & Hcle).
      rewrite Hcm. intros c' [= <-]. lia.
    + destruct (l_tail _ _ _ _ _ _ _ _ _ _ _ _ I) as (gs & pa & fly & st & junk & h & flown & old & G & _).
      pose proof (l_first _ _ _ _ _ _ _ _ _ _ _ _ I). pose proof (l_upto _ _ _ _ _ _ _ _ _ _ _ _ I).
      eapply moment_stored; [exact I | exact Hsm | exact Hs | exact Sh | exact G | exact Hi | exact Hl | | lia | lia].
      apply (Tail.history_held G); [lia | done].
Qed.

(** *** And after it *)

(** The log and the mark [Open] comes up with over what the loss has left. *)
Lemma outage_log w0 gs0 pa0 cp0 (L0 L L' : @live T) k i m o clock newId d l reps d1 mk w' :
  opened start first w0 gs0 pa0 cp0 L0 → live_inv (all_records (lg w0) gs0 pa0) cp0 L k → sheltered cp0 L →
  run L L' → small L → moment (lsys L) (lsys L') i → Disk.power_loss i m → booted m d → salvageSet o = false →
  maxRecordBytes (opts (log_of (lsys L))) <= maxRecordBytes (withDefaults o) →
  Recovery.Open o clock newId d = (Ok (l, reps), d1) → Sound.orderly l → Buffer.resumeMark (World l d1) = (Ok mk, w') →
  ∃ gs pa c, Sound.sound (withDefaults o) (World l d1) gs pa ∧ Sound.cuts (Disk.view d) (Disk.view d1) ∧
    markIn m reservedName = Some (reserved l) ∧ markIn m checkpointName = Some c ∧
    Buffer.covered (World l d1) c ∧ c < nextLSN l ∧
    ∀ e, owed (all_records (lg w0) gs0 pa0) cp0 (since (lsys L)) e →
      (∃ f, Flusher.Got e.1 e.2 f ∈ got L ∧ handled (flow L) (Flusher.Got e.1 e.2 f)) ∨ c < e.1 ∧ e ∈ all_records l gs pa.
Proof using Hfr Hfb Hstart.
  intros O I Sh Hs Hsm Hi Hl B Hsalv Hmax H Hod Hres. pose proof (booted_view _ _ B) as Ev.
  destruct (Sound.open_sound _ _ _ _ _ _ _ Hsalv (proj2 B) H Hod) as (-> & Hr & Hcut & gs & pa & So & Hall). rewrite Ev in Hr, Hall.
  destruct (moment_checkpoint _ _ _ _ _ _ _ I Hsm Hs Sh Hi Hl) as (c & Hc & Hcle).
  destruct (moment_reserved _ _ _ _ _ _ _ I Hsm Hs Sh Hi Hl) as (R & HR & HRle). rewrite HR in Hr. injection Hr as ->.
  exists gs, pa, c. split; [done|]. split; [done|]. split; [done|]. split; [done|].
  assert (Hc1 : checkpointIn (World l d1) = Some c).
  { unfold checkpointIn. simpl. apply marked_current, (open_marked _ _ _ _ _ _ _ _ ltac:(by left) Hsalv H). by apply (booted_marked m). }
  split; [split; [done|]|].
  { pose proof (checkpoint_is_u64 _ _ Hc1) as Hu. unfold is_u64 in Hu. simpl.
    unfold Buffer.resumeMark in Hres. apply on_error_inv in Hres as [(m' & Hres & [= <-])|(e & s1 & rc & _ & _ & [=])].
    apply bind_inv in Hres as [(c0 & w1 & H1 & Hres)|(e & _ & [=])]. apply onDisk_inv in H1 as (d2 & H1 & ->).
    apply readMark_inv in H1 as [_ Hc0]. specialize (Hc0 _ eq_refl). apply bind_gets_inv in Hres. cbn [lg] in Hres.
    destruct (Z.ltb_spec c0 (FirstPrevEnd l)) as [|Hge]; [done|].
    destruct Hc0 as [Hc0| ->]; [|lia]. unfold checkpointIn in Hc1. rewrite Hc0 in Hc1. injection Hc1 as <-. lia. }
  pose proof (l_front _ _ _ _ _ _ _ _ _ _ _ _ I) as [Hf0 _]. destruct (live_log_inv _ _ _ _ I) as (gs1 & pa1 & fly & st & junk & h & flown & old & G).
  pose proof (live_mark_below _ _ _ _ Hfr Hfb _ _ _ Hstart _ _ _ _ _ I Hsm) as Hm.
  destruct (l_tail _ _ _ _ _ _ _ _ _ _ _ _ I) as (gs2 & pa2 & fly2 & st2 & junk2 & h2 & flown2 & old2 & G2 & K2).
  destruct (Tail.t_within _ _ _ _ _ _ _ K2) as (t & ps & Hin & Hle). pose proof (frontier_top G2 t ps Hin).
  pose proof (i_core _ _ _ _ _ _ _ _ _ _ G) as C. pose proof (c_next _ _ _ _ _ _ _ C). pose proof (c_reserved _ _ _ _ _ _ _ C).
  assert (frontier (log_of (lsys L)) <= nextLSN (log_of (lsys L))).
  { unfold frontier, log_of in *. rewrite (rep_count _ _ _ _ _ (c_active _ _ _ _ _ _ _ C)).
    pose proof (len_nonneg fly). pose proof (len_nonneg st). lia. }
  pose proof (Sound.so_reserved _ _ _ _ So) as Hrn. simpl in Hrn. unfold log_of in *.
  split; [lia|]. intros e He.
  destruct (outage_keeps _ _ _ _ _ _ _ _ _ e _ O I Sh Hs Hsm Hi Hl He) as [Hh|[Hlt (b & p & ps' & Hfile)]]; [by left|].
  right. split; [by apply Hlt|]. apply Hall. exists b, p, ps'. destruct Hfile as (Hub & Hup & Hok & Hin1 & Hbeg).
  split; [done|]. split; [done|]. split; [|done]. eapply Forall_impl; [exact Hok|]. unfold payload_ok. intros x. unfold log_of in *. lia.
Qed.
End outage.

(** ** Power lost and power back *)

Section lives.
Context {T : Type} (codec : Codec T) (onDecodeFailure : option (DecodeFailure → call DecodeAction)).
Context (flushRecords flushBytes : Z) (Hfr : 1 <= flushRecords) (Hfb : 1 <= flushBytes).
Context (cfg : Delivery.settings) (logID : bytes) (maxInFlight : Z).

Local Abbreviation run := (Live.step codec onDecodeFailure flushRecords flushBytes cfg logID maxInFlight).
Local Abbreviation handled := (Pipeline.handled codec onDecodeFailure cfg logID).

(** The buffer's options: the log syncs and nothing is salvaged. *)
Context (o : Options) (Hsalv : salvageSet o = false) (Hsync : syncMode (withDefaults o) ≠ SyncNever).

(** The numbers in the directory are in order, as far as [Open] gets there. *)
Definition in_order (d : Disk.disk) : Prop :=
  ∀ clock newId l reps d', Recovery.Open o clock newId d = (Ok (l, reps), d') → Sound.orderly l.

(** The power goes at some moment of a step from [L]; the machine boots, and the
    directory is opened, calls failing or not: the run that begins is [L1]. *)
Definition outage (start : Z) (L : @live T) (start' first' : Z) (L1 : @live T) : Prop :=
  ∃ L' i m d, run start L L' ∧ moment (lsys L) (lsys L') i ∧ Disk.power_loss i m ∧ booted m d ∧ in_order d ∧
    maxRecordBytes (opts (log_of (lsys L))) <= maxRecordBytes (withDefaults o) ∧
    Restart.starts_from o d start' first' L1.

Lemma secure_image start cp w d :
  Disk.img d = Disk.img (dk w) → secure start cp w → secure start cp (World (lg w) d).
Proof using Type.
  intros E [[S1 S2 S3] H2 H3]. split; [split|..]; unfold log_of in *; simpl in *; rewrite ?E; done.
Qed.

(** What comes up answers for whatever has not been handled, and is itself on
    disk. *)
Lemma outage_answers start first w0 gs0 pa0 cp0 L0 L start' first' L1 :
  1 <= start < maxU64 → opened start first w0 gs0 pa0 cp0 L0 → secure start cp0 w0 → rtc (run start) L0 L → small L →
  outage start L start' first' L1 →
  1 <= start' < maxU64 ∧ ∃ w' gs' pa' cp', opened start' first' w' gs' pa' cp' L1 ∧ secure start' cp' w' ∧
    ∀ e, owed (all_records (lg w0) gs0 pa0) cp0 (since (lsys L)) e →
      (∃ f, Flusher.Got e.1 e.2 f ∈ got L ∧ handled (flow L) (Flusher.Got e.1 e.2 f)) ∨
      owed (all_records (lg w') gs' pa') cp' (since (lsys L1)) e.
Proof using Hfr Hfb Hsalv Hsync.
  intros Hst O Hsec R0 Hsm (L' & i & m & d & Hs & Hi & Hl & B & Hord & Hmax & Hfrom).
  destruct (sheltered_reached codec onDecodeFailure flushRecords flushBytes Hfr Hfb cfg logID maxInFlight start Hst first
    _ _ _ _ _ _ O Hsec R0 Hsm) as (k & I & Sh).
  destruct Hfrom as (clock & newId & fuel & now & obs & queue & op & d' & r & d2 & HO & Hr & -> & -> & Hd2 & ->).
  unfold Buffer.Open in HO. destruct (Recovery.Open o clock newId d) as [[[l reps]|e] d1] eqn:EO; [|done].
  destruct (Buffer.resumeMark (World l d1)) as [[mk|e] w'] eqn:Em; [|done].
  destruct (Buffer.countBacklog _ _ _ _) as [[c0|e]|]; [|done..].
  injection HO as <- _. cbn [Buffer.op_world Buffer.op_from Buffer.op_buffer] in *.
  pose proof (Hord _ _ _ _ _ EO) as Hod.
  destruct (outage_log codec onDecodeFailure flushRecords flushBytes Hfr Hfb cfg logID maxInFlight start Hst first
    _ _ _ _ _ _ _ _ _ _ o _ _ _ _ _ _ _ _ O I Sh Hs Hsm Hi Hl B Hsalv Hmax EO Hod Em)
    as (gs & pa & c & So & Hcut & HR & Hc & Hcov & Hlt & Hall).
  pose proof (Sound.so_fresh _ _ _ _ So) as F. pose proof (Sound.so_first _ _ _ _ So) as Hh.
  pose proof (Sound.so_reserved _ _ _ _ So) as Hrn. pose proof (Sound.od_spent _ Hod) as Hspent. simpl in Hrn.
  assert (Hmaxn : nextLSN (lg (World l d1)) < maxU64) by (simpl; lia).
  destruct (Restart.resumed _ _ _ _ _ _ F Hh Hcov Hmaxn Em) as (Hu & Hm & _ & _ & _). rewrite Hu in *. split; [done|].
  destruct (open_starts_the_run (T:=T) (mk + 1) Hm (Reader.nextLSN r) (World l d1) gs pa c mk w' r
    (Pipeline.Pipe (Buffer.inherit now c0 (State.opened mk obs queue 0 0)) [] []))
    as (k' & cp' & O' & Hall'); try done; [by eapply checkpoint_is_u64, Hcov | |].
  { split; [|done]. unfold Buffer.inherit. destruct c0 as [[a b] z]. by case_if. }
  assert (Hmk : is_u64 mk ∧ is_u64 (mk + 1)) by (unfold is_u64, maxU64 in *; lia).
  destruct (resume_secure (World l d1) gs pa c mk w' F (proj1 Hmk) (proj2 Hmk) Em) as (S1 & S2 & kc & S3).
  - exact (open_settled _ _ _ _ _ _ _ _ _ _ B Hsalv Hsync EO Hcut So).
  - eapply marked_mono; [|apply (open_marked _ _ _ _ _ _ _ _ ltac:(by right) Hsalv EO), (booted_marked m _ _ _ B HR)].
    by intros ? <-.
  - apply (open_marked _ _ _ _ _ _ _ _ ltac:(by left) Hsalv EO), (booted_marked m _ _ _ B Hc).
  - exists (World (lg w') d2), (drop k' gs), pa, cp'.
    split; [apply Restart.opened_shown; [exact O' | unfold Disk.view; by rewrite Hd2]|]. split.
    + apply (secure_image _ _ w'); [exact Hd2|]. split; [exact S1 | exact S2|]. eapply marked_mono; [|exact S3]. intros x <-.
      pose proof (proj1 (o_checkpoint _ _ _ _ _ _ _ O')) as Hcp. apply marked_current in S3.
      unfold checkpointIn in Hcp. rewrite S3 in Hcp. by injection Hcp as ->.
    + intros e He. destruct (Hall e He) as [Hh'|[Hlt' Hin]]; [by left | right]. by apply Hall'.
Qed.

(** The runs so far, the latest first, and where the latest one's reader
    started: the first is over a directory that is on disk, and each of the
    others begins after a loss of power has ended the one before it. *)
Inductive lives : Z → list (@live T) → Prop :=
| lives_first start first w0 gs0 pa0 cp0 L0 L :
    1 <= start < maxU64 → opened start first w0 gs0 pa0 cp0 L0 → secure start cp0 w0 → rtc (run start) L0 L → small L →
    lives start [L]
| lives_again start L past start' first' L0 L' :
    lives start (L :: past) → outage start L start' first' L0 → rtc (run start') L0 L' → small L' →
    lives start' (L' :: L :: past).

Lemma lives_answer start past : lives start past → ∃ L past', past = L :: past' ∧ small L ∧ 1 <= start < maxU64 ∧
  ∃ first w0 gs0 pa0 cp0 L0, opened start first w0 gs0 pa0 cp0 L0 ∧ secure start cp0 w0 ∧ rtc (run start) L0 L ∧
    ∀ e, Restart.acknowledged_in past e → Restart.handled_in codec onDecodeFailure cfg logID past e ∨
      owed (all_records (lg w0) gs0 pa0) cp0 (since (lsys L)) e.
Proof using Hfr Hfb Hsalv Hsync.
  assert (Hnew : ∀ (L : @live T) e init cp0, e ∈ acknowledged (log_of (lsys L)) (staged (lsys L)) →
    owed init cp0 (since (lsys L)) e) by (intros L e i c He; right; apply elem_of_app; by left).
  induction 1 as [start first w0 gs0 pa0 cp0 L0 L Hst O Hsec R0 Hsm|start L past start' first' L0 L' _ IH Hout R0 Hsm].
  - exists L, []. split; [done|]. split; [done|]. split; [done|]. exists first, w0, gs0, pa0, cp0, L0.
    split; [done|]. split; [done|]. split; [done|]. intros e (x & ->%list_elem_of_singleton & He). right. by apply Hnew.
  - destruct IH as (? & ? & [= <- <-] & Hsm0 & Hst & fi & w & gs & pa & cp & B & O & Hsec & R1 & Hold).
    destruct (outage_answers _ _ _ _ _ _ _ _ _ _ _ Hst O Hsec R1 Hsm0 Hout) as (Hst' & w' & gs' & pa' & cp' & O' & Hsec' & Hans).
    exists L', (L :: past). split; [done|]. split; [done|]. split; [done|]. exists first', w', gs', pa', cp', L0.
    split; [done|]. split; [done|]. split; [done|].
    intros e (x & Hx & He). apply elem_of_cons in Hx as [->|Hx]; [right; by apply Hnew|].
    destruct (Hold e ltac:(by exists x)) as [(y & f & Hy & Hf)|Howed]; [left; exists y, f; split; [by right | done]|].
    destruct (Hans e Howed) as [(f & Hf)|Hn]; [left; exists L, f; split; [right; left | done] | right].
    destruct Hn as [He'|He']; [by left|]. rewrite (o_sys _ _ _ _ _ _ _ O') in He'. by apply not_elem_of_nil in He'.
Qed.

(** C2: at least once, across any number of power losses.  The buffer runs in a
    mode that syncs; the power goes at any moment of any step, inside any
    operation, leaving of the directory whatever a loss of power may leave; the
    machine boots and the buffer is opened again, over numbers that are in order;
    and so on, with disk calls failing all along.  Every record some run acknowledged to its writer has been
    read and handled by some run; or it is still in the latest one's log, above
    its mark and above the checkpoint on disk, where the next [Open] resumes. *)
Theorem delivered_across_power_losses start L past e :
  lives start (L :: past) → Restart.acknowledged_in (L :: past) e →
  Restart.handled_in codec onDecodeFailure cfg logID (L :: past) e ∨
  (mark L < e.1 ∧ (∀ cp, checkpointIn (sw (lsys L)) = Some cp → cp < e.1) ∧
   ∃ gs pa, holds (sw (lsys L)) gs pa ∧ e ∈ all_records (log_of (lsys L)) gs pa).
Proof using Hfr Hfb Hsalv Hsync.
  intros HL Ha. destruct (lives_answer _ _ HL) as (? & ? & [= <- <-] & Hsm & Hst & first & w0 & gs0 & pa0 & cp0 & L0 & O & _ & R0 & Hall).
  destruct (Hall e Ha) as [H|Howed]; [by left|].
  destruct (below_or_held codec onDecodeFailure flushRecords flushBytes Hfr Hfb cfg logID maxInFlight start Hst first
    _ _ _ _ _ _ _ O R0 Hsm Howed) as [(f & _ & Hf)|H]; [left | by right].
  exists L, f. split; [left | done].
Qed.
End lives.


(** *** A record written, and the power gone

    The log of two synced records is opened, a third is written and acknowledged
    (Restart.v); the power goes, of the directory only what was synced comes back,
    and the buffer is opened over it. *)
Lemma ex_booted v : booted v (Recovery.shows v).
Proof. split; [done | constructor]. Qed.

Lemma ex_two_mark name k : markIn Reader.ex_two_dir name = Some k → marked name (eq k) (Disk.img (dk Reader.ex_two)).
Proof. apply booted_marked, ex_booted. Qed.

Lemma ex_secure : secure 1 0 Reader.ex_two.
Proof.
  pose proof (ex_booted Reader.ex_two_dir) as B.
  assert (Hs : ∀ c rest, Reader.two = c ++ rest → secured (segmentName 1 0) c (Disk.img (dk Reader.ex_two))).
  { intros c rest E. apply (booted_secured _ _ _ _ rest B). by rewrite Reader.ex_two_dir_segment, E. }
  split; [split; [done | |]|..].
  - left. by apply (Hs [] Reader.two).
  - intros t ->%list_elem_of_singleton _ _ _. exists Reader.two. split; [done|]. apply (Hs _ []). by rewrite app_nil_r.
  - eapply marked_mono; [|apply (ex_two_mark _ 2), Reader.ex_two_dir_mark]. simpl. lia.
  - eapply marked_mono; [|apply (ex_two_mark _ 0); by vm_compute]. simpl. lia.
Qed.

Local Abbreviation ex_outage := (outage Flusher.ex_codec None 2 100 Pipeline.ex_cfg [] 1 Restart.ex_opts 1 Restart.ex_written).
Local Abbreviation ex_lives := (lives Flusher.ex_codec None 2 100 Pipeline.ex_cfg [] 1 Restart.ex_opts).

Definition ex_left : gmap bytes bytes := worst (Disk.img (dk (sw (lsys Restart.ex_written)))).
Definition ex_open : option (result Buffer.opening) * Disk.disk :=
  Buffer.Open Restart.ex_opts (λ _, 0) [] Reader.disk_files 10 0 State.noObserver 0 (Recovery.shows ex_left).

Lemma ex_in_order : in_order Restart.ex_opts (Recovery.shows ex_left).
Proof.
  intros clock newId l reps d' E.
  assert (H : match (Recovery.Open Restart.ex_opts clock newId (Recovery.shows ex_left)).1 with
    | Ok (l, _) => bool_decide (Sound.orderly l) = true
    | Fail _ => True
    end) by (clear; vm_compute; reflexivity).
  rewrite E in H. exact (bool_decide_eq_true_1 _ H).
Qed.

Lemma ex_power_lost : ∃ start first L1, ex_outage start first L1 ∧ small L1.
Proof.
  assert (H : match ex_open.1 with
    | Some (Ok op) => is_ok (Reader.NewReader (lg (Buffer.op_world op)) (Buffer.op_from op)) = true
    | _ => False
    end) by (vm_compute; reflexivity).
  unfold ex_open in H. destruct (Buffer.Open _ _ _ _ _ _ _ _ _) as [[[op|e]|] d'] eqn:E; [|destruct H..].
  cbn [fst] in H. destruct (Reader.NewReader _ _) as [r|e] eqn:Er; [clear H | discriminate H].
  eexists _, _, _. split.
  - eexists _, _, ex_left, (Recovery.shows ex_left).
    split; [exact (live_log _ _ _ _ _ _ _ _ Restart.ex_written _ (run_close _))|]. split; [left; reflexivity|].
    split; [apply worst_is_possible|]. split; [apply ex_booted|]. split; [exact ex_in_order|].
    split; [vm_compute; discriminate|].
    exists (λ _, 0), [], 10%nat, 0, State.noObserver, 0, op, d', r, (dk (Buffer.op_world op)).
    split; [exact E|]. split; [exact Er|]. split; [reflexivity|]. split; [reflexivity|]. split; reflexivity.
  - split; reflexivity.
Qed.

Lemma delivered_across_power_losses_witness :
  ∃ start L1, ex_lives start [L1; Restart.ex_written] ∧
    (Restart.handled_in Flusher.ex_codec None Pipeline.ex_cfg [] [L1; Restart.ex_written] (3, p1) ∨ mark L1 < 3).
Proof.
  destruct ex_power_lost as (start & first & L1 & Hout & Hsm). exists start, L1.
  assert (HL : ex_lives start [L1; Restart.ex_written]).
  { eapply lives_again; [|exact Hout | apply rtc_refl | exact Hsm].
    exact (lives_first _ _ _ _ _ _ _ _ 1 1 _ _ _ _ _ _ Restart.ex_start ex_opened ex_secure Restart.ex_written_run Restart.ex_small_written). }
  split; [exact HL|].
  assert (Ha : Restart.acknowledged_in [L1; Restart.ex_written] (3, p1)).
  { exists Restart.ex_written. split; [right; left|].
    assert (E : acknowledged (log_of (lsys Restart.ex_written)) (staged (lsys Restart.ex_written)) = [(3, p1)]) by (vm_compute; reflexivity).
    rewrite E. left. }
  assert (Hsync : syncMode (withDefaults Restart.ex_opts) ≠ SyncNever) by (vm_compute; discriminate).
  destruct (delivered_across_power_losses Flusher.ex_codec None 2 100 ltac:(lia) ltac:(lia) Pipeline.ex_cfg [] 1 Restart.ex_opts
    eq_refl Hsync start L1 [Restart.ex_written] (3, p1) HL Ha) as [H|[H _]]; [left; exact H | right; exact H].
Defined.
End Outage.
