(* ===== verification/Clickhouse.v ===== *)
(** * The ClickHouse sink (src/clickhouse)

    Quoting of column names, the deduplication token, the insert, and the
    classification of what the server says.  The driver is not part of the
    sources: its calls are arguments, and a flush answers with the calls it made. *)

From S2P Require Import Prelude Errors Text Sink.
From stdpp Require Import strings.
Local Open Scope Z_scope.
Local Open Scope go_scope.

Module Clickhouse.
Import Text.

(** ** Verdicts (classify.go) *)

Definition rejected : list Z := [6; 27; 38; 41; 53; 70; 72; 117; 349; 469].
Definition misdirected : list Z := [16; 62; 60; 81; 192; 193; 497; 516].

Definition has (codes : list Z) (c : Z) : bool := existsb (Z.eqb c) codes.

Definition exceptionCode (err : error) : option Z := as_exception err.

Definition classifyServer (err : error) : error :=
  match exceptionCode err with
  | Some code => if has rejected code then Errorf "" [Sentinel Permanent; err] else err
  | None => err
  end.

Definition Classify (f : Sink.SinkFailure) : Sink.RetryDecision :=
  match Sink.sf_Err f with
  | None => Sink.zeroDecision
  | Some err =>
      if errorsIs err RowShape then Sink.MkRetryDecision Sink.FailBuffer 0
      else if match exceptionCode err with Some code => has misdirected code | None => false end
      then Sink.MkRetryDecision Sink.FailBuffer 0
      else if errorsIs err Permanent then Sink.MkRetryDecision Sink.DeadLetterBatch 0
      else Sink.zeroDecision
  end.

(** ** Construction (sink.go) *)

Definition backquote : byte := Byte.x60.

(** [strings.ReplaceAll(c, "`", "``")] *)
Fixpoint doubled (c : bytes) : bytes :=
  match c with
  | [] => []
  | b :: c => if bool_decide (b = backquote) then backquote :: backquote :: doubled c else b :: doubled c
  end.

Definition quote (c : bytes) : bytes := [backquote] ++ doubled c ++ [backquote].

(** [strings.Join] *)
Fixpoint join (sep : bytes) (l : list bytes) : bytes :=
  match l with
  | [] => []
  | [x] => x
  | x :: l => x ++ sep ++ join sep l
  end.

Record config := Config { dedup : bool; scope : bytes; settings_ : option (gmap bytes bytes) }.

(** [V] is the type of column values, [any] in the source. *)
Record sink (T V : Type) := MkSink { query : bytes; columns : Z; row : T → Sink.call (list V); cfg : config }.
Arguments MkSink {T V} _ _ _ _.
Arguments query {T V} _.
Arguments columns {T V} _.
Arguments row {T V} _ _.
Arguments cfg {T V} _.

(** [New]: the errors of nil arguments are those of [None]. *)
Definition New {T V} (conn : bool) (table : bytes) (cols : list bytes) (row : option (T → Sink.call (list V)))
    (c : config) : result (sink T V) :=
  if negb conn then Fail (Errorf "clickhouse: nil conn" [])
  else if bool_decide (table = []) then Fail (Errorf "clickhouse: empty table name" [])
  else if bool_decide (cols = []) then Fail (Errorf "clickhouse: no columns" [])
  else match row with
  | None => Fail (Errorf "clickhouse: nil row function" [])
  | Some row =>
      if existsb (λ c, bool_decide (c = [])) cols then Fail (Errorf "clickhouse: column has an empty name" [])
      else Ok (MkSink (str "INSERT INTO " ++ table ++ str " (" ++ join (str ", ") (map quote cols) ++ str ")")
                 (len cols) row c)
  end.

(** ** Settings *)

Definition colon : byte := Byte.x3a.
Definition dash : byte := Byte.x2d.

Definition tokenName : bytes := str "insert_deduplication_token".

(** [scope:LogID:ID-last] *)
Definition token {T} (scope : bytes) (b : Sink.Batch T) : bytes :=
  let last := u64 (Sink.ID b + len (Sink.Records b) - 1) in
  scope ++ [colon] ++ Sink.LogID b ++ [colon] ++ show (Sink.ID b) ++ [dash] ++ show last.

Definition settings {T V} (s : sink T V) (b : Sink.Batch T) : option (gmap bytes bytes) :=
  if negb (dedup (cfg s)) then settings_ (cfg s)
  else Some (<[tokenName := token (scope (cfg s)) b]> (default ∅ (settings_ (cfg s)))).

(** ** The insert *)

(** A call on the driver, with what it was given and what it answered: preparing
    the insert, appending a row to it, sending it, and the deferred close. *)
Inductive driverCall (V : Type) :=
| Prepared (query : bytes) (settings : option (gmap bytes bytes)) (answer : Sink.call (option error))
| Appended (vals : list V) (answer : Sink.call (option error))
| Sent (answer : Sink.call (option error))
| Released.
Arguments Prepared {V} _ _ _.
Arguments Appended {V} _ _.
Arguments Sent {V} _.
Arguments Released {V}.

Section flush.
Context {T V : Type} (s : sink T V).
(** The driver: what each call answers, by the calls made before it. *)
Context (PrepareBatch : bytes → option (gmap bytes bytes) → Sink.call (option error)).
Context (Append : list (driverCall V) → list V → Sink.call (option error)).
Context (Send : list (driverCall V) → Sink.call (option error)).

(** The loop over the records: how it ends, and the calls made by then. *)
Fixpoint appendRows (calls : list (driverCall V)) (rs : list T) :
    Sink.call (option error) * list (driverCall V) :=
  match rs with
  | [] => (Sink.Returned None, calls)
  | r :: rs =>
      match row s r with
      | Sink.Panicked p => (Sink.Panicked p, calls)
      | Sink.Returned vals =>
          if negb (len vals =? columns s)
          then (Sink.Returned (Some (Errorf "record" [Sentinel RowShape])), calls)
          else
            let answer := Append calls vals in
            let calls := calls ++ [Appended vals answer] in
            match answer with
            | Sink.Panicked p => (Sink.Panicked p, calls)
            | Sink.Returned (Some err) =>
                (Sink.Returned (Some (Errorf "clickhouse: record" [Sentinel Permanent; err])), calls)
            | Sink.Returned None => appendRows calls rs
            end
      end
  end.

(** [Flush]: its answer, and the calls it made on the driver.  The close is
    deferred, so it runs on every path after the insert was prepared, a panic's
    included. *)
Definition Flush (b : Sink.Batch T) : Sink.call (option error) * list (driverCall V) :=
  match Sink.Records b with
  | [] => (Sink.Returned None, [])
  | rs =>
      let answer := PrepareBatch (query s) (settings s b) in
      let calls := [Prepared (query s) (settings s b) answer] in
      match answer with
      | Sink.Panicked p => (Sink.Panicked p, calls)
      | Sink.Returned (Some err) =>
          (Sink.Returned (Some (classifyServer (Errorf "clickhouse: prepare batch" [err]))), calls)
      | Sink.Returned None =>
          match appendRows calls rs with
          | (Sink.Returned None, calls) =>
              let answer := Send calls in
              let calls := calls ++ [Sent answer] ++ [Released] in
              match answer with
              | Sink.Panicked p => (Sink.Panicked p, calls)
              | Sink.Returned (Some err) =>
                  (Sink.Returned (Some (classifyServer (Errorf "clickhouse: insert batch" [err]))), calls)
              | Sink.Returned None => (Sink.Returned None, calls)
              end
          | (stopped, calls) => (stopped, calls ++ [Released])
          end
      end
  end.

(** A record's row: what the row function makes of it, one value per column. *)
Definition rowOf (r : T) (vals : list V) : Prop := row s r = Sink.Returned vals ∧ len vals = columns s.

(** Rows the driver was given, and took. *)
Definition taken (vs : list (list V)) : list (driverCall V) := map (λ v, Appended v (Sink.Returned None)) vs.

(** An insert that has taken these rows, and the calls after them. *)
Definition insert (b : Sink.Batch T) (vs : list (list V)) (after : list (driverCall V)) : list (driverCall V) :=
  Prepared (query s) (settings s b) (Sink.Returned None) :: taken vs ++ after ++ [Released].

(** How a loop that has taken the rows [vs] stops at a record: the calls it makes
    there, and what it returns. *)
Inductive stops (r : T) : list (driverCall V) → Sink.call (option error) → Prop :=
| stops_row p : row s r = Sink.Panicked p → stops r [] (Sink.Panicked p)
| stops_shape v : row s r = Sink.Returned v → len v ≠ columns s →
    stops r [] (Sink.Returned (Some (Errorf "record" [Sentinel RowShape])))
| stops_driver v p : rowOf r v → stops r [Appended v (Sink.Panicked p)] (Sink.Panicked p)
| stops_refused v err : rowOf r v →
    stops r [Appended v (Sink.Returned (Some err))]
      (Sink.Returned (Some (Errorf "clickhouse: record" [Sentinel Permanent; err]))).

Lemma appendRows_spec rs : ∀ calls c calls', appendRows calls rs = (c, calls') →
  (∃ vs, Forall2 rowOf rs vs ∧ c = Sink.Returned None ∧ calls' = calls ++ taken vs) ∨
  (∃ vs r at_, rs !! length vs = Some r ∧ stops r at_ c ∧ calls' = calls ++ taken vs ++ at_).
Proof.
  induction rs as [|r rs IH]; intros calls c calls' H; cbn [appendRows] in H.
  - injection H as <- <-. left. exists []. by rewrite app_nil_r.
  - destruct (row s r) as [vals|p] eqn:Er.
    2:{ injection H as <- <-. right. exists [], r, []. rewrite !app_nil_r. split; [done|]. split; [by constructor|done]. }
    destruct (Z.eqb_spec (len vals) (columns s)) as [Hw|Hw]; cbn [negb] in H.
    2:{ injection H as <- <-. right. exists [], r, []. rewrite !app_nil_r. split; [done|]. split; [by econstructor|done]. }
    destruct (Append calls vals) as [[err|]|p] eqn:Ea.
    + injection H as <- <-. right. exists [], r, [Appended vals (Sink.Returned (Some err))].
      split; [done|]. split; [by apply stops_refused|done].
    + apply IH in H as [(vs & Hvs & -> & ->)|(vs & r' & at_ & Hr & Hs & ->)].
      * left. exists (vals :: vs). repeat split; [by constructor|]. by rewrite <- app_assoc.
      * right. exists (vals :: vs), r', at_. split; [done|]. split; [done|]. by rewrite <- app_assoc.
    + injection H as <- <-. right. exists [], r, [Appended vals (Sink.Panicked p)].
      split; [done|]. split; [by apply stops_driver|done].
Qed.

(** The ways a flush of records goes. *)
Inductive flushed (b : Sink.Batch T) : Sink.call (option error) → list (driverCall V) → Prop :=
| flushed_unprepared a c :
    (∀ p, a = Sink.Panicked p → c = Sink.Panicked p) → a ≠ Sink.Returned None →
    (∀ err, a = Sink.Returned (Some err) →
       c = Sink.Returned (Some (classifyServer (Errorf "clickhouse: prepare batch" [err])))) →
    flushed b c [Prepared (query s) (settings s b) a]
| flushed_stopped vs r at_ c :
    Sink.Records b !! length vs = Some r → stops r at_ c → flushed b c (insert b vs at_)
| flushed_sent vs a c :
    Forall2 rowOf (Sink.Records b) vs →
    (∀ p, a = Sink.Panicked p → c = Sink.Panicked p) →
    (a = Sink.Returned None → c = Sink.Returned None) →
    (∀ err, a = Sink.Returned (Some err) →
       c = Sink.Returned (Some (classifyServer (Errorf "clickhouse: insert batch" [err])))) →
    flushed b c (insert b vs [Sent a]).

Lemma Flush_spec b c calls : Flush b = (c, calls) →
  (Sink.Records b = [] ∧ c = Sink.Returned None ∧ calls = []) ∨ flushed b c calls.
Proof.
  unfold Flush. destruct (Sink.Records b) as [|r0 rs0] eqn:Eb; [intros [= <- <-]; by left|].
  intros H. right. rewrite <- Eb in H.
  destruct (PrepareBatch (query s) (settings s b)) as [[err|]|p] eqn:Ep.
  - injection H as <- <-. constructor; [done..|]. by intros ? [= <-].
  - destruct (appendRows _ _) as [c1 calls1] eqn:Ea.
    apply appendRows_spec in Ea as [(vs & Hvs & -> & ->)|(vs & r & at_ & Hr & Hs & ->)].
    + destruct (Send _) as [[err|]|p]; injection H as <- <-; apply (flushed_sent b vs _ _ Hvs); try done;
        by intros ? [= <-].
    + assert (Hne : c1 ≠ Sink.Returned None) by (destruct Hs; done).
      assert (H' : (c1, ([Prepared (query s) (settings s b) (Sink.Returned None)] ++ taken vs ++ at_) ++ [Released])
                   = (c, calls)) by (by destruct c1 as [[]|]).
      injection H' as <- <-. rewrite <- app_assoc. by apply (flushed_stopped b vs r at_).
  - injection H as <- <-. constructor; [by intros ? [= <-]|done..].
Qed.

Lemma not_taken x vs : (∀ v, x ≠ Appended v (Sink.Returned None)) → x ∉ taken vs.
Proof. intros H [v [-> _]]%list_elem_of_fmap. by apply (H v). Qed.

Lemma insert_elem b vs after x : x ∈ insert b vs after →
  (∀ v, x ≠ Appended v (Sink.Returned None)) → (∀ q m, x ≠ Prepared q m (Sink.Returned None)) → x ≠ Released →
  x ∈ after.
Proof.
  unfold insert. intros [->|H]%elem_of_cons Ha Hp Hr; [by destruct (Hp (query s) (settings s b))|].
  apply elem_of_app in H as [H|H]; [by destruct (not_taken x vs Ha)|].
  apply elem_of_app in H as [H|H]; [done|]. by apply list_elem_of_singleton in H.
Qed.

Lemma stops_not_sent r at_ c a : stops r at_ c → Sent a ∉ at_.
Proof. destruct 1; rewrite ?elem_of_nil, ?list_elem_of_singleton; naive_solver. Qed.

Lemma insert_sent_inv b vs ws a at_ : insert b vs [Sent a] = insert b ws at_ → Sent a ∈ at_.
Proof.
  intros H. apply (insert_elem b ws at_); [|done..]. rewrite <- H. unfold insert. rewrite !elem_of_cons, !elem_of_app.
  right. right. left. by apply list_elem_of_singleton.
Qed.
(** A flush given up before the driver was given the record's row. *)
Lemma stopped_before_driver b vs r at_ c ws :
  Sink.Records b !! length vs = Some r → stops r at_ c → insert b vs at_ = insert b ws [] →
  ∃ r, Sink.Records b !! length ws = Some r ∧
    ((∃ p, row s r = Sink.Panicked p ∧ c = Sink.Panicked p) ∨
     (∃ v, row s r = Sink.Returned v ∧ len v ≠ columns s ∧
           c = Sink.Returned (Some (Errorf "record" [Sentinel RowShape])))).
Proof.
  clear PrepareBatch Append Send. intros Hr Hs [= H]. rewrite app_assoc in H. apply app_inj_tail in H as [H _].
  assert (Hn : ∀ v a, a ≠ Sink.Returned None → Appended v a ∉ taken vs ++ at_).
  { intros v a Ha. rewrite H. apply not_taken. naive_solver. }
  assert (Hw : at_ = [] → length ws = length vs).
  { intros ->. rewrite app_nil_r in H. apply (f_equal length) in H. unfold taken in H. by rewrite !length_map in H. }
  destruct Hs as [p Hp|v Hv Hl|v p _|v err _].
  - rewrite Hw by done. exists r. split; [done|]. left. by exists p.
  - rewrite Hw by done. exists r. split; [done|]. right. by exists v.
  - destruct (Hn v (Sink.Panicked p)); [done|]. apply elem_of_app. right. by apply list_elem_of_singleton.
  - destruct (Hn v (Sink.Returned (Some err))); [done|]. apply elem_of_app. right. by apply list_elem_of_singleton.
Qed.

Lemma insert_last b vs after : last (insert b vs after) = Some Released.
Proof. unfold insert. rewrite app_assoc, app_comm_cons. apply last_snoc. Qed.

Lemma insert_sent_eq b vs ws a a' : insert b vs [Sent a] = insert b ws [Sent a'] → a = a'.
Proof. intros H%insert_sent_inv. apply list_elem_of_singleton in H. congruence. Qed.
End flush.

(** C40: a nil answer of the sink means that the whole batch went out in one
    insert: the insert was prepared, every record's row, one value per column,
    was appended in order and taken by the driver, and one send was answered
    nil (for an empty batch no call is made at all).  The insert is sent only
    when every record's row was taken, and at most once; when the send itself
    fails the server may have stored the rows or not, and the answer is that
    failure, classified.  A record the driver refuses to append ends the flush
    with a permanent error that wraps the driver's, and nothing is sent; a
    record whose row has the wrong number of values ends it with [RowShape]
    before the driver is given it; and a panic of the row function propagates.
    Whatever way a prepared insert ends, it is closed, last. *)
Theorem nil_means_every_row_sent {T V} (s : sink T V) prepare append send b c calls :
  Flush s prepare append send b = (c, calls) →
  (c = Sink.Returned None ↔
     (Sink.Records b = [] ∧ calls = []) ∨
     ∃ vs, Forall2 (rowOf s) (Sink.Records b) vs ∧ calls = insert s b vs [Sent (Sink.Returned None)]) ∧
  (∀ a, Sent a ∈ calls → ∃ vs, Forall2 (rowOf s) (Sink.Records b) vs ∧ calls = insert s b vs [Sent a]) ∧
  (∀ err, Sent (Sink.Returned (Some err)) ∈ calls →
     c = Sink.Returned (Some (classifyServer (Errorf "clickhouse: insert batch" [err])))) ∧
  (∀ v err, Appended v (Sink.Returned (Some err)) ∈ calls →
     c = Sink.Returned (Some (Errorf "clickhouse: record" [Sentinel Permanent; err])) ∧ ∀ a, Sent a ∉ calls) ∧
  (∀ vs, calls = insert s b vs [] → ∃ r, Sink.Records b !! length vs = Some r ∧
     ((∃ p, row s r = Sink.Panicked p ∧ c = Sink.Panicked p) ∨
      (∃ v, row s r = Sink.Returned v ∧ len v ≠ columns s ∧
            c = Sink.Returned (Some (Errorf "record" [Sentinel RowShape]))))) ∧
  (∀ q m, Prepared q m (Sink.Returned None) ∈ calls → last calls = Some Released).
Proof.
  intros [(-> & -> & ->)|H]%Flush_spec.
  { split; [naive_solver|]. split; [by intros ? ?%elem_of_nil|]. split; [by intros ? ?%elem_of_nil|].
    split; [by intros ? ? ?%elem_of_nil|]. split; [done|]. by intros ? ? ?%elem_of_nil. }
  destruct H as [a c Hp Hne He|vs r at_ c Hr Hs|vs a c Hvs Hp Hn He].
  - assert (Hc : c ≠ Sink.Returned None).
    { destruct a as [[err|]|p]; [by rewrite (He err)|done|by rewrite (Hp p)]. }
    split.
    { split; [done|]. intros [[_ ?]|(ws & _ & Hi)]; [done|]. unfold insert in Hi. by injection Hi as -> _. }
    split; [by intros ? [= ?]%list_elem_of_singleton|]. split; [by intros ? [= ?]%list_elem_of_singleton|].
    split; [by intros ? ? [= ?]%list_elem_of_singleton|].
    split; [intros ws Hw; unfold insert in Hw; by injection Hw as -> _|].
    by intros ? ? [= ? ? ?]%list_elem_of_singleton.
  - pose proof (stops_not_sent s r at_ c) as Hns.
    assert (Hsent : ∀ a, Sent a ∉ insert s b vs at_) by (intros a ?%insert_elem; [by apply (Hns a)|done..]).
    split.
    { split; [by destruct Hs|]. intros [[_ ?]|(ws & _ & Hi)]; [done|].
      by apply symmetry, insert_sent_inv, Hns in Hi. }
    split; [by intros a ?%Hsent|]. split; [by intros a ?%Hsent|].
    split; [|split; [|by intros; apply insert_last]].
    + intros v err Hv. apply insert_elem in Hv; [|naive_solver..]. split; [|done].
      destruct Hs; rewrite ?elem_of_nil, ?list_elem_of_singleton in Hv; naive_solver.
    + intros ws Hw. by apply (stopped_before_driver s b vs r at_).
  - split.
    { split; [|by intros [[_ ?]|(ws & _ & Hi)]; [|apply Hn, (insert_sent_eq s b vs ws _ _ Hi)]].
      intros ->. right. exists vs. split; [done|]. by destruct a as [[err|]|p]; [specialize (He err eq_refl)| |specialize (Hp p eq_refl)]. }
    assert (Heq : ∀ x, Sent x ∈ insert s b vs [Sent a] → x = a).
    { intros x Hx%insert_elem; [|done..]. apply list_elem_of_singleton in Hx. congruence. }
    split; [intros x ->%Heq; by exists vs|]. split; [by intros err Hx%Heq; apply He|].
    split; [|split; [|by intros; apply insert_last]].
    + intros v err Hv. apply insert_elem in Hv; [|naive_solver..]. by apply list_elem_of_singleton in Hv.
    + intros ws Hw. by apply insert_sent_inv, elem_of_nil in Hw.
Qed.

Definition ex_table : sink Z Z := MkSink [] 2 (λ r, Sink.Returned [r; r]) (Config false [] None).

Lemma nil_means_every_row_sent_witness :
  let b := Sink.MkBatch 7 [] [1; 2] 1 in
  Flush ex_table (λ _ _, Sink.Returned None) (λ _ _, Sink.Returned None) (λ _, Sink.Returned None) b =
    (Sink.Returned None, insert ex_table b [[1; 1]; [2; 2]] [Sent (Sink.Returned None)]) ∧
  ∃ vs, Forall2 (rowOf ex_table) [1; 2] vs ∧
        insert ex_table b [[1; 1]; [2; 2]] [Sent (Sink.Returned None)] = insert ex_table b vs [Sent (Sink.Returned None)].
Proof.
  split; [reflexivity|].
  refine (proj1 (proj2 (nil_means_every_row_sent ex_table (λ _ _, Sink.Returned None) (λ _ _, Sink.Returned None)
    (λ _, Sink.Returned None) (Sink.MkBatch 7 [] [1; 2] 1) _ _ eq_refl)) (Sink.Returned None) _).
  vm_compute. by repeat (first [apply list_elem_of_here | apply list_elem_of_further]).
Defined.

(** ** Quoting *)

(** Reading a quoted name back: up to the backquote that is not doubled. *)
Fixpoint unquoteRest (l : bytes) : option (bytes * bytes) :=
  match l with
  | [] => None
  | b :: l =>
      if bool_decide (b = backquote)
      then match l with
           | b' :: l' => if bool_decide (b' = backquote)
                         then match unquoteRest l' with Some (c, r) => Some (backquote :: c, r) | None => None end
                         else Some ([], l)
           | [] => Some ([], [])
           end
      else match unquoteRest l with Some (c, r) => Some (b :: c, r) | None => None end
  end.

Definition unquote (l : bytes) : option (bytes * bytes) :=
  match l with
  | b :: l => if bool_decide (b = backquote) then unquoteRest l else None
  | [] => None
  end.

Lemma unquoteRest_doubled c rest : head rest ≠ Some backquote →
  unquoteRest (doubled c ++ [backquote] ++ rest) = Some (c, rest).
Proof.
  intros Hr. induction c as [|b c IH]; cbn [doubled app].
  - simpl. destruct rest as [|b rest]; [done|]. case_bool_decide; [by simplify_eq/= | done].
  - case_bool_decide as Hb.
    + subst b. cbn [app]. cbn [unquoteRest]. rewrite !bool_decide_true by done.
      change (backquote :: rest) with ([backquote] ++ rest). by rewrite IH.
    + cbn [app]. cbn [unquoteRest]. rewrite bool_decide_false by done.
      change (backquote :: rest) with ([backquote] ++ rest). by rewrite IH.
Qed.

(** A column name cannot escape its quotes.  Whatever bytes it holds, what
    [New] writes for it reads back as exactly that name, with nothing left over
    but what follows, as long as that does not start with a backquote: the
    separator and the closing parenthesis do not. *)
Theorem column_names_are_quoted c rest :
  head rest ≠ Some backquote → unquote (quote c ++ rest) = Some (c, rest).
Proof.
  intros Hr. unfold unquote, quote. rewrite <- !app_assoc. cbn [app].
  rewrite bool_decide_true by done. change (backquote :: rest) with ([backquote] ++ rest).
  by apply unquoteRest_doubled.
Qed.

Lemma column_names_are_quoted_witness :
  unquote (quote (str "a`) VALUES (1); --") ++ str ", b") = Some (str "a`) VALUES (1); --", str ", b").
Proof. apply column_names_are_quoted. vm_compute. done. Defined.

End Clickhouse.
